(* ===== verification/_CoqProject ===== *)
-Q . S2P
Prelude.v
RustStr.v
Net.v
Postcard.v
Base64.v
Crypto.v
Proto.v
Frames.v
RateLimit.v
Ipc.v
Sign.v
Auth.v
Totp.v
Pubkey.v
Oidc.v
Challenge.v
Privdrop.v
Monitor.v
Login.v
Session.v
Worker.v
Transport.v
System.v
Config.v
Startup.v
KnownHosts.v
Endpoint.v
Target.v
ClientAuth.v
ClientPump.v
Cp.v
DevSession.v
ClientRun.v
ClientMain.v
ClientCp.v
ProtoTests.v
AuthTests.v
ServerTests.v
ClientTests.v
