(* ===== verification/Prelude.v ===== *)
(** * quish: a verification development

    quish is a remote shell over HTTP/3: a client opens extended CONNECT requests
    on a QUIC connection, authenticates each, and is served channels (shells,
    commands, file transfers, TCP forwards). The server is two processes. The
    _worker_ is unprivileged, chrooted and filtered; it owns the network. The
    _monitor_ is root; it owns identities, sessions and the host key, and answers
    the worker over a control socket (requests, descriptors) and a signing socket.
    A session is a process the monitor starts from its own binary, the _helper_,
    which drops to the user before it touches anything the client named.

    ** Files, and the code they model

    - [Prelude] (this file): machine integers, results, durations and instants,
      the tactics and the hint databases. [RustStr]: strings as scalar values,
      UTF-8, the [str] methods the code calls. [Net]: addresses, paths, the file
      system as far as reading a path can tell, the world a backend reads. [Postcard]
      and [Base64]: the interfaces of the two codecs (classes with their
      round-trip laws) and the published formats, which discharge them. [Crypto]:
      SHA-1, HMAC-SHA1, SHA-256 and base32 as published, which the tests and
      witnesses instantiate parameters with.
    - [Proto], [quish-proto/src/lib.rs]: channel messages, length-prefixed
      frames ([encode], [take_frame], ...), version check, challenge headers.
    - [Frames], the three frame readers: [FrameReader] and [spawn_frame_reader]
      of [quish-server/src/session.rs], [ChannelFrameReader] of
      [quish-client/src/main.rs], the reader task of
      [quish-client/src/terminal.rs].
    - [RateLimit], [quish-server/src/ratelimit.rs] ([admit] is [admit_ip] here).
    - [Ipc], [quish-server/src/ipc.rs]: requests and responses, the control and
      signing channels, the environment handoff.
    - [Sign]: the signing thread of [quish-server/src/monitor.rs] and the proxy of
      [quish-server/src/signproxy.rs].
    - [Auth], [quish-auth/src/lib.rs]: credentials, the backend trait (the class
      [AuthBackend]; a trait object is a [DynBackend]), the registry. Backends:
      [Totp] ([totp.rs]), [Pubkey] ([pubkey.rs]), [Oidc] with its module [Pam]
      ([oidc.rs], [pam.rs]).
    - [Challenge]: [ChallengeStore] of [quish-server/src/transport.rs].
    - [Privdrop], [quish-server/src/privdrop.rs]: the worker's drop, the seccomp
      list, the helper's five modes.
    - [Monitor], [quish-server/src/monitor.rs]: the state ([State],
      [SessionIndex]), one handler per request of [serve_control], spawning,
      reaping. [Login]: [build_registry] and the resolvers of a PAM build.
    - [Session], [quish-server/src/session.rs]: the pumps, the forwarding policy,
      the parked connections.
    - [Worker], [quish-server/src/worker.rs]: the RPC client ([call]), the channel
      dispatch, the channels served over the monitor's descriptors.
    - [Transport], [quish-server/src/transport.rs]: the request gate, the two
      authentication back ends, connections and the accept loop. [System], the
      same files with [quish-server/src/worker.rs]: all connections and requests as
      tasks over one monitor, interleaved call by call.
    - [Config], [quish-server/src/config.rs] and [quish-server/src/main.rs]: the
      configuration file and the command line, merged into a role and its
      arguments; the registry of the development server.
    - [Startup], [run], [host_identity] and [prepare_socket_dir] of
      [quish-server/src/monitor.rs], [run] of [quish-server/src/worker.rs]: from
      the start of each process to its service loop.
    - [Endpoint]: the TLS and QUIC settings of the three endpoints
      ([transport_config], [dev_endpoint], the end of the worker's [run], the
      client's [endpoint]).
    - [KnownHosts], [quish-client/src/connect.rs]: trust on first use, with its
      specification, the module [Tofu]; the question asked is [Question].
    - [Target], [quish-client/src/main.rs] and [quish-client/src/config.rs]:
      targets, forward specs, the client's configuration, the plan of a run.
    - [ClientAuth], [quish-client/src/main.rs]: the authorization, the CONNECT
      request, the challenge loop ([build_token] is in [pubkey.rs]).
    - [ClientPump], [quish-client/src/terminal.rs] (module [Terminal]) and [bridge]
      of [quish-client/src/main.rs] (module [Bridge]).
    - [Cp], [quish-client/src/cp.rs]: specs, destinations, the walk, transfers.
    - [DevSession], [quish-server/src/session.rs]: the channels the development
      server serves in its own process.
    - [ClientRun], [quish-client/src/main.rs]: connecting ([Establish]), the
      supervision of forwards ([Forwarding]), the [keygen] and [totp] commands
      ([Keygen], [Enroll]; [generate_keypair] is in [Pubkey], the secret's draw in
      [Totp]).
    - [ClientMain], [main] and [run] of [quish-client/src/main.rs]: a run from its
      arguments to its exit status, composed of the client's other files.
    - [ClientCp], [run_cp] of [quish-client/src/cp.rs] and the subcommands of
      [main]: a copy from its arguments to its status, composed likewise.
    - [ProtoTests], [AuthTests], [ServerTests], [ClientTests]: the unit tests of
      the source files, each a boolean definition under the test's name, evaluated
      on the model; and the fuzz target of [quish-proto]. Ed25519, the OpenSSH
      formats and JWT have stand-ins there ([AuthTests.Crates]).

    The client's files meet the server's: [ClientAuth] puts the request handler of
    [Transport] behind the challenge loop, [ClientPump] runs its pumps against
    those of [Session], and [Cp] against the transfers of [Worker].

    ** How the code is represented

    Code that is a function of its state is a function; [?] is the bind of
    [result] or [option]. What the outside answers is an argument: clock readings
    (nanoseconds in a [Z]), the files, the passwd database, PAM, the spawning of
    processes ([Monitor.Os]), the file of known hosts and what can be done to it
    ([KnownHosts.Io]), the answers to system calls (a function of the whole trace,
    in [Privdrop] and [Startup], whose theorems quantify over every such
    function). Tasks that interleave are step relations
    ([RateLimit.step], [Transport.conn_step], [Transport.server_step],
    [System.step]), runs over an arbitrary list of events
    ([ClientRun.Forwarding.run_forwarding]), or histories of atomic operations ([Challenge.op], [Session.park_op],
    [Monitor.reach], where a history is any list of requests, as a compromised
    worker may send). A [tokio::select!] loop is run by an arbitrary scheduler of
    its enabled branches ([Session.pump_loop]).

    Fuel: a frame-reading task gets one more than the bytes of its stream, and
    [Frames.messages_no_fuel] shows it never runs out; the signing loop likewise
    ([Sign.sign_loop_fuel]); a pump gets its number of chunks and frames plus a
    constant, and each pump theorem excludes [NoFuel], as do those of the client
    (whose [run_channel] gets [ClientPump.Terminal.term_fuel]); a varint of [w]
    bits has [w / 7 + 1] bytes; the question of [KnownHosts.Question.decide] gets
    one more than the bytes typed ([decide_spec] excludes running out), the
    tokens of a forward spec one more than its characters
    ([Target.client_plan_typed]), and the walk of [Cp] the depth of the tree
    ([Cp.walk_is_the_tree]). Every other recursion is structural.

    Crates are parameters: postcard, base64, SHA-256, HMAC-SHA1, base32, ed25519,
    OpenSSH keys and their generation, JWT and JWKS parsing, PAM, the TLS signer,
    rustls, quinn and their defaults, address formatting, URIs and header values
    (http), clap, TOML, rcgen, the resolver.
    What is assumed of them is in named hypotheses: the round-trip laws
    ([PostcardOk], [Base64Ok]), the size of a postcard message ([RequestSized]),
    the length of a SHA-1 digest, the soundness and correctness of the signature
    scheme, what a JWT decode checks (its leeway of 60 seconds included), that the
    pair a key generation encodes reads back as one key, that a printed address
    parses back, that quinn's default idle timeout is over fifteen seconds. The
    first three have instances here; each theorem that uses another has a witness
    with a concrete one.

    ** What the theorems show

    - Identity: [Monitor.session_runs_as_authenticated] and
      [Privdrop.helper_access_as_user] (a process the worker obtains belongs to a
      user who authenticated on that connection, and every access is made under
      that user's credentials, but for the terminal it is given, or inherits), [Login.two_factor_login],
      [Auth.registry_allow_iff], [Pubkey.pubkey_no_replay],
      [Totp.totp_allow_iff], [Oidc.oidc_allow_sound],
      [Challenge.challenge_one_shot] (against a specification on histories),
      [Transport.connection_ids_unique].
    - Books (over histories of fewer than 2^64 requests; the session counter wraps,
      [Monitor.ids_wrap]): [Monitor.monitor_inv], [Monitor.close_leaves_nothing],
      [RateLimit.connection_cap_exact], [Session.parked_scoped].
    - Many clients: [System.clients_isolated] (no interleaving of connections and
      requests lets one touch another's identity, challenge, sessions or
      processes, as long as no call is dropped at its deadline between its request
      and its response, [System.in_step]; [System.abandoned_call_crosses_clients]
      is a run where one is), [System.close_is_final], and
      [System.late_login_stays] where it is not.
    - The gate and its bounds: [Transport.request_gate],
      [Transport.auth_attempts_bounded], [RateLimit.backoff_exponential],
      [Transport.backends_agree] (the separated server and the development server
      answer alike), [Sign.signing_oracle_bound].
    - Channels: [Frames.reader_chunking] and [Frames.channel_delivers] (the
      readers refine one pass over the bytes), the three pump theorems of
      [Session], [Worker.exec_session_end], [Worker.spawn_request_intact],
      [Sign.proxy_no_stale_signature].
    - Confinement: [Privdrop.drop_to_worker_irrevocable],
      [Session.forward_loopback_only], [Privdrop.helper_env_wins],
      [Privdrop.seccomp_denies].
    - Start-up: [Config.launch_policy] (what the merged configuration lets a role
      do), [Startup.worker_started_safely], [Startup.daemon_confined] (no worker
      serves before it is chrooted, dropped and under the filter, which kills
      unless [--no-seccomp] was given),
      [Startup.host_key_persistent] (while no one else touches the files and no
      existence check fails), [Endpoint.host_identity_presented] (what a
      client pins is the monitor's certificate, on a key that signs there).
    - Client: [KnownHosts.TofuFile.tofu_refines] and
      [KnownHosts.TofuFile.changed_key_refused],
      [KnownHosts.Question.decide_spec],
      [ClientMain.run_guarantees] (a whole run, of a channel or of forwards; its
      connecting is
      [ClientRun.Establish.establish_verifies_first]),
      [ClientCp.cp_guarantees] (a whole copy),
      [ClientAuth.open_channel_bounded], [Target.client_plan_typed],
      [Target.target_roundtrip], [ClientRun.Keygen.keygen_then_login],
      [ClientRun.Keygen.keygen_keeps_identities].
    - End to end, client and server composed:
      [ClientAuth.two_factor_end_to_end],
      [ClientMain.command_end_to_end] (over
      [ClientPump.Terminal.remote_command_end_to_end], the two pumps),
      [ClientPump.Bridge.forward_transparent], [Cp.transfer_end_to_end],
      [Cp.download_all_or_nothing], [Cp.walk_is_the_tree],
      [ClientRun.Enroll.enrolled_code_accepted].
    - Development server: [DevSession.dev_like_worker] (its channels answer as the
      worker's do), [DevSession.dev_status_is_opening].
    - Formats: [Proto.take_frame_spec], [Ipc.pam_env_roundtrip],
      [Auth.basic_header_roundtrip], [Totp.hotp_rfc4226], ...

    Some state what the code does where it is not what it means to do:
    [Worker.rpc_in_step] (a call dropped half-way leaves its answer to the next
    one), [Totp.totp_unenrolled_accepts], [Worker.exec_session_end] (no reap after
    a broken stream), [Privdrop.seccomp_denies] ([shutdown] is killed),
    [Transport.auth_attempts_bounded] (the cap is overshot by requests in flight),
    [ClientAuth.forward_needs_no_challenge] (a forward fails where a second factor
    is required), [ClientRun.Forwarding.forward_failure_unnoticed],
    [System.abandoned_call_crosses_clients],
    [DevSession.dev_status_is_opening] (a transfer that fails midway ends with
    status 0), and the examples [KnownHosts.TofuFile.unterminated_pin_lost],
    [KnownHosts.TofuFile.unreadable_file_asks],
    [ClientPump.Terminal.interrupt_after_eof_lost],
    [ClientPump.Terminal.exit_status_lost], [Startup.missing_crt_replaces_key],
    [Startup.stat_error_replaces_key], [Startup.crt_path_loses_key],
    [Privdrop.inherited_tty_as_root] (an exec helper opens an inherited
    [QUISH_SESS_TTY] as root), [ClientCp.status_256_copies_nothing],
    [Cp.walk_lossy_name], [Target.at_in_path_leaks] and [Config.flag_cannot_disable].

    ** Not modelled

    TLS, QUIC and the HTTP/3 framing themselves (rustls, quinn and h3), and what
    the crates named above do inside; logging; the byte copies between descriptors,
    and blocking: a send into a process's input is taken as accepted; what is drawn
    on the terminal (prompts, the QR code). Four of the unit tests: one of [toml],
    one of [http] and one of [std::fs] alone, and one that needs Ed25519 itself for
    its fixture key. The end-to-end tests of [quish-server/tests]. *)
From stdpp Require Export prelude list gmap.
From stdpp Require Export strings.
From Stdlib Require Export ZArith Lia.

#[global] Open Scope Z_scope.
#[global] Set Default Goal Selector "!".

(** ** Machine integers

    A [w]-bit unsigned integer is a [Z] in [[0, 2^w)]; wrap-around, saturation and
    checked arithmetic are written out where the code uses them. *)
Definition in_u (w : Z) (z : Z) : Prop := 0 ≤ z < 2 ^ w.

Definition in_i (w : Z) (z : Z) : Prop := - 2 ^ (w - 1) ≤ z < 2 ^ (w - 1).

#[global] Instance in_u_dec w z : Decision (in_u w z).
Proof. unfold in_u. apply _. Defined.

#[global] Instance in_i_dec w z : Decision (in_i w z).
Proof. unfold in_i. apply _. Defined.

Definition u_max (w : Z) : Z := 2 ^ w - 1.

(** [a.saturating_add(b)], [a.saturating_sub(b)] and [a.wrapping_add(b)] on [w] bits. *)
Definition sat_add (w a b : Z) : Z := Z.min (a + b) (u_max w).

Definition sat_sub (a b : Z) : Z := Z.max (a - b) 0.

Definition wrap_add (w a b : Z) : Z := (a + b) mod 2 ^ w.

(** A byte is a [Z] in [[0, 256)]. *)
Abbreviation bytes := (list Z).
Definition is_u8 (b : Z) : Prop := 0 ≤ b < 256.

Definition bytes_ok (b : bytes) : Prop := Forall is_u8 b.

#[global] Instance is_u8_dec b : Decision (is_u8 b).
Proof. unfold is_u8. apply _. Defined.

#[global] Instance bytes_ok_dec b : Decision (bytes_ok b).
Proof. unfold bytes_ok. apply _. Defined.

(** The length of a slice, [Vec] or [String] buffer as a [usize]. *)
Definition zlen {A} (l : list A) : Z := Z.of_nat (length l).

(** ** Results

    Rust's [Result<T, E>], with the [?] operator as monadic bind. *)
Inductive result (E A : Type) : Type :=
| Ok (a : A)
| Err (e : E).
Arguments Ok {E A} a.
Arguments Err {E A} e.

#[global] Instance result_ret E : MRet (result E) := λ A a, Ok a.

#[global] Instance result_bind E : MBind (result E) := λ A B f m,
  match m with Ok a => f a | Err e => Err e end.

#[global] Instance result_fmap E : FMap (result E) := λ A B f m,
  match m with Ok a => Ok (f a) | Err e => Err e end.

#[global] Instance result_eq_dec {E A} `{EqDecision E, EqDecision A} :
  EqDecision (result E A).
Proof. solve_decision. Defined.

(** [Result::ok] and [Option::ok_or]. *)
Definition res_ok {E A} (r : result E A) : option A :=
  match r with Ok a => Some a | Err _ => None end.

Definition ok_or {E A} (e : E) (o : option A) : result E A :=
  match o with Some a => Ok a | None => Err e end.

Definition is_ok {E A} (r : result E A) : bool :=
  match r with Ok _ => true | Err _ => false end.

Lemma result_bind_Ok {E A B} (m : result E A) (f : A → result E B) b :
  m ≫= f = Ok b ↔ ∃ a, m = Ok a ∧ f a = Ok b.
Proof. destruct m; simpl; naive_solver. Qed.

Lemma result_bind_Err {E A B} (m : result E A) (f : A → result E B) e :
  m ≫= f = Err e ↔ m = Err e ∨ ∃ a, m = Ok a ∧ f a = Err e.
Proof. destruct m; simpl; naive_solver. Qed.

(** ** Time

    [Duration] and [Instant] in nanoseconds. A [Duration] holds at most
    [u64::MAX] seconds and 999,999,999 ns; an [Instant] holds [i64] seconds. *)
Definition NANOS_PER_SEC : Z := 1000000000.
Definition secs (n : Z) : Z := n * NANOS_PER_SEC.
Definition millis (n : Z) : Z := n * 1000000.
Definition DURATION_MAX : Z := 2 ^ 64 * NANOS_PER_SEC - 1.
Definition INSTANT_MAX : Z := 2 ^ 63 * NANOS_PER_SEC - 1.

(** [Duration::saturating_mul], [Duration::checked_mul],
    [Instant::saturating_duration_since], [Instant::checked_add]. *)
Definition dur_sat_mul (d k : Z) : Z := Z.min (d * k) DURATION_MAX.

Definition dur_checked_mul (d k : Z) : option Z :=
  if d * k <=? DURATION_MAX then Some (d * k) else None.

Definition since (now earlier : Z) : Z := Z.max (now - earlier) 0.

Definition instant_checked_add (i d : Z) : option Z :=
  if i + d <=? INSTANT_MAX then Some (i + d) else None.

(** ** Automation *)
Create HintDb quish.
Create Rewrite HintDb quish.

(** Destruct the scrutinee of a match or if in the goal or a hypothesis. *)
Ltac destruct_match :=
  match goal with
  | |- context [match ?x with _ => _ end] => destruct x eqn:?
  | H : context [match ?x with _ => _ end] |- _ => destruct x eqn:?
  end.

(** Prove a decidable closed proposition by computation. *)
Ltac by_dec := apply (bool_decide_unpack _); vm_compute; exact I.

(** Turn boolean comparisons into propositions. *)
Ltac bool_to_prop :=
  repeat match goal with
  | H : (_ <=? _) = true |- _ => apply Z.leb_le in H
  | H : (_ <=? _) = false |- _ => apply Z.leb_gt in H
  | H : (_ <? _) = true |- _ => apply Z.ltb_lt in H
  | H : (_ <? _) = false |- _ => apply Z.ltb_ge in H
  | H : (_ =? _) = true |- _ => apply Z.eqb_eq in H
  | H : (_ =? _) = false |- _ => apply Z.eqb_neq in H
  | H : (_ && _) = true |- _ => apply andb_true_iff in H; destruct H
  | H : (_ || _) = false |- _ => apply orb_false_iff in H; destruct H
  | H : negb _ = true |- _ => apply negb_true_iff in H
  | H : negb _ = false |- _ => apply negb_false_iff in H
  | H : bool_decide _ = true |- _ => apply bool_decide_eq_true in H
  | H : bool_decide _ = false |- _ => apply bool_decide_eq_false in H
  end.

(** [lia] over [Z] division and modulo. *)
Ltac zdiv_lia := Z.to_euclidean_division_equations; lia.

(** Case analysis on the boolean comparison of the goal. *)
Ltac case_bool :=
  match goal with
  | |- context [?a <? ?b] => destruct (Z.ltb_spec a b)
  | |- context [?a <=? ?b] => destruct (Z.leb_spec a b)
  | |- context [?a =? ?b] => destruct (Z.eqb_spec a b)
  end.

(** ** Lists *)
Lemma zlen_nil {A} : zlen (@nil A) = 0.
Proof. reflexivity. Qed.

Lemma zlen_cons {A} (x : A) l : zlen (x :: l) = 1 + zlen l.
Proof. unfold zlen. simpl. lia. Qed.

Lemma zlen_app {A} (l1 l2 : list A) : zlen (l1 ++ l2) = zlen l1 + zlen l2.
Proof. unfold zlen. rewrite length_app. lia. Qed.

Lemma zlen_nonneg {A} (l : list A) : 0 ≤ zlen l.
Proof. unfold zlen. lia. Qed.

Lemma zlen_map {A B} (f : A → B) l : zlen (f <$> l) = zlen l.
Proof. unfold zlen. by rewrite length_fmap. Qed.

Lemma zlen_take {A} (l : list A) n : 0 ≤ n ≤ zlen l → zlen (take (Z.to_nat n) l) = n.
Proof. unfold zlen. rewrite length_take. lia. Qed.

Lemma zlen_drop {A} (l : list A) n : 0 ≤ n ≤ zlen l → zlen (drop (Z.to_nat n) l) = zlen l - n.
Proof. unfold zlen. rewrite length_drop. lia. Qed.

#[export] Hint Rewrite @zlen_nil @zlen_cons @zlen_app @zlen_map : quish.
#[export] Hint Resolve zlen_nonneg : quish.

Ltac zlen_lia :=
  autorewrite with quish in *;
  repeat match goal with
  | |- context [zlen ?l] => lazymatch goal with H : 0 ≤ zlen l |- _ => fail | _ => pose proof (zlen_nonneg l) end
  | H : context [zlen ?l] |- _ => lazymatch goal with H' : 0 ≤ zlen l |- _ => fail | _ => pose proof (zlen_nonneg l) end
  end; lia.

Lemma bytes_ok_app b1 b2 : bytes_ok (b1 ++ b2) ↔ bytes_ok b1 ∧ bytes_ok b2.
Proof. apply Forall_app. Qed.

Lemma bytes_ok_cons x b : bytes_ok (x :: b) ↔ is_u8 x ∧ bytes_ok b.
Proof. apply Forall_cons. Qed.

(** The first [n] bytes and the rest, when there are that many. *)
Lemma take_app_zlen {A} (l1 l2 : list A) n :
  n = zlen l1 → take (Z.to_nat n) (l1 ++ l2) = l1.
Proof. intros ->. unfold zlen. rewrite Nat2Z.id. by rewrite take_app_length. Qed.

Lemma drop_app_zlen {A} (l1 l2 : list A) n :
  n = zlen l1 → drop (Z.to_nat n) (l1 ++ l2) = l2.
Proof. intros ->. unfold zlen. rewrite Nat2Z.id. by rewrite drop_app_length. Qed.

Lemma Forall_filter {A} (P Q : A → Prop) `{∀ x, Decision (Q x)} l :
  Forall P l → Forall P (base.filter Q l).
Proof. rewrite !Forall_forall. intros H' x [_ Hx]%list_elem_of_filter. by apply H'. Qed.

Lemma filter_all {A} (Q : A → Prop) `{∀ x, Decision (Q x)} l : Forall Q l → base.filter Q l = l.
Proof. induction 1 as [|x l Hx _ IH]; [done|]. by rewrite filter_cons_True, IH. Qed.

(** A unit test: its assertions. *)
Definition asserts (l : list bool) : bool := forallb (λ b, b) l.

Definition is_none {A} (o : option A) : bool := match o with None => true | Some _ => false end.
Definition is_err {E A} (r : result E A) : bool := match r with Err _ => true | Ok _ => false end.
