(* ===== verification/RustStr.v ===== *)
(** * Rust strings

    A [str] is the list of its Unicode scalar values; [utf8] gives the bytes of
    [as_bytes], and [from_utf8] is [String::from_utf8]. The operations are those
    of [core::str] and [core::num] the sources call: [trim], [lines],
    [strip_prefix], [split_once], [rsplit_once], [find], [contains], [parse] on
    unsigned integers and the decimal and [{:02x}] formatters. *)
From S2P Require Import Prelude.

Abbreviation str := (list Z).

(** String literals of the sources, which are ASCII. *)
Definition lit (s : string) : str :=
  (λ c, Z.of_N (Ascii.N_of_ascii c)) <$> String.list_ascii_of_string s.

Definition ch (c : Ascii.ascii) : Z := Z.of_N (Ascii.N_of_ascii c).

(** ** Scalars and UTF-8 *)
Definition is_scalar (c : Z) : Prop := 0 ≤ c < 0xD800 ∨ 0xDFFF < c ≤ 0x10FFFF.

#[global] Instance is_scalar_dec c : Decision (is_scalar c).
Proof. unfold is_scalar. apply _. Defined.

Definition str_ok (s : str) : Prop := Forall is_scalar s.

#[global] Instance str_ok_dec s : Decision (str_ok s).
Proof. unfold str_ok. apply _. Defined.

Definition utf8_char (c : Z) : bytes :=
  if c <? 0x80 then [c]
  else if c <? 0x800 then [0xC0 + c / 64; 0x80 + c mod 64]
  else if c <? 0x10000 then [0xE0 + c / 4096; 0x80 + c / 64 mod 64; 0x80 + c mod 64]
  else [0xF0 + c / 262144; 0x80 + c / 4096 mod 64; 0x80 + c / 64 mod 64; 0x80 + c mod 64].

Definition utf8 (s : str) : bytes := s ≫= utf8_char.

(** A continuation byte's six bits. *)
Definition cont (b : Z) : option Z :=
  if (0x80 <=? b) && (b <? 0xC0) then Some (b - 0x80) else None.

Fixpoint from_utf8 (bs : bytes) : option str :=
  match bs with
  | [] => Some []
  | b0 :: r0 =>
      if b0 <? 0x80 then cons b0 <$> from_utf8 r0
      else match r0 with
      | [] => None
      | b1 :: r1 =>
          c1 ← cont b1;
          if b0 <? 0xC0 then None
          else if b0 <? 0xE0 then
            let c := (b0 - 0xC0) * 64 + c1 in
            if c <? 0x80 then None else cons c <$> from_utf8 r1
          else match r1 with
          | [] => None
          | b2 :: r2 =>
              c2 ← cont b2;
              if b0 <? 0xF0 then
                let c := (b0 - 0xE0) * 4096 + c1 * 64 + c2 in
                if (c <? 0x800) || bool_decide (¬ is_scalar c) then None
                else cons c <$> from_utf8 r2
              else match r2 with
              | [] => None
              | b3 :: r3 =>
                  c3 ← cont b3;
                  let c := (b0 - 0xF0) * 262144 + c1 * 4096 + c2 * 64 + c3 in
                  if (c <? 0x10000) || (0x10FFFF <? c) then None
                  else cons c <$> from_utf8 r3
              end
          end
      end
  end.

(** [String::from_utf8_lossy], and [to_string_lossy] of an OS string: U+FFFD for
    each longest beginning of a character that is not one. *)
Definition REPLACEMENT : Z := 0xFFFD.

Definition is_cont (b : Z) : bool := (0x80 <=? b) && (b <? 0xC0).

(** Whether [b1] can follow the lead byte [b0]. *)
Definition second_ok (b0 b1 : Z) : bool :=
  is_cont b1 && (0xC2 <=? b0) && (b0 <? 0xF5)
  && negb ((b0 =? 0xE0) && (b1 <? 0xA0)) && negb ((b0 =? 0xED) && (0xA0 <=? b1))
  && negb ((b0 =? 0xF0) && (b1 <? 0x90)) && negb ((b0 =? 0xF4) && (0x90 <=? b1)).

Fixpoint from_utf8_lossy (bs : bytes) : str :=
  match bs with
  | [] => []
  | b0 :: r0 =>
      if b0 <? 0x80 then b0 :: from_utf8_lossy r0
      else match r0 with
      | [] => [REPLACEMENT]
      | b1 :: r1 =>
          if negb (second_ok b0 b1) then REPLACEMENT :: from_utf8_lossy r0
          else if b0 <? 0xE0 then (b0 - 0xC0) * 64 + (b1 - 0x80) :: from_utf8_lossy r1
          else match r1 with
          | [] => [REPLACEMENT]
          | b2 :: r2 =>
              if negb (is_cont b2) then REPLACEMENT :: from_utf8_lossy r1
              else if b0 <? 0xF0 then (b0 - 0xE0) * 4096 + (b1 - 0x80) * 64 + (b2 - 0x80) :: from_utf8_lossy r2
              else match r2 with
              | [] => [REPLACEMENT]
              | b3 :: r3 =>
                  if negb (is_cont b3) then REPLACEMENT :: from_utf8_lossy r2
                  else (b0 - 0xF0) * 262144 + (b1 - 0x80) * 4096 + (b2 - 0x80) * 64 + (b3 - 0x80) :: from_utf8_lossy r3
              end
          end
      end
  end.

(** [str::len] is the number of UTF-8 bytes. *)
Definition str_len (s : str) : Z := zlen (utf8 s).

Lemma utf8_nil : utf8 [] = [].
Proof. reflexivity. Qed.

Lemma utf8_cons c s : utf8 (c :: s) = utf8_char c ++ utf8 s.
Proof. reflexivity. Qed.

Lemma utf8_app s1 s2 : utf8 (s1 ++ s2) = utf8 s1 ++ utf8 s2.
Proof. apply bind_app. Qed.

Lemma cont_add c : 0 ≤ c < 64 → cont (0x80 + c) = Some c.
Proof.
  intros H. unfold cont.
  destruct (Z.leb_spec 0x80 (0x80 + c)), (Z.ltb_spec (0x80 + c) 0xC0); simpl; try lia.
  f_equal. lia.
Qed.

Lemma cont_Some b c : cont b = Some c → 0x80 ≤ b < 0xC0 ∧ c = b - 0x80.
Proof.
  unfold cont. destruct (_ && _) eqn:E; [|done]. intros [= <-]. bool_to_prop. lia.
Qed.

(** Split on the next boolean comparison and drop the impossible branch. *)
Ltac utf8_case :=
  match goal with
  | |- context [if ?a <? ?b then _ else _] => destruct (Z.ltb_spec a b); try (exfalso; zdiv_lia)
  end.

Lemma from_utf8_char c r :
  is_scalar c → from_utf8 (utf8_char c ++ r) = cons c <$> from_utf8 r.
Proof.
  intros Hc. assert (0 ≤ c ≤ 0x10FFFF) as Hr by (destruct Hc; lia).
  unfold utf8_char.
  destruct (Z.ltb_spec c 0x80).
  { simpl. utf8_case. done. }
  destruct (Z.ltb_spec c 0x800).
  { cbn [app from_utf8]. utf8_case. rewrite cont_add by zdiv_lia. cbn [mbind option_bind].
    do 3 utf8_case. by replace ((192 + c / 64 - 192) * 64 + c mod 64) with c by zdiv_lia. }
  destruct (Z.ltb_spec c 0x10000).
  { cbn [app from_utf8]. utf8_case. rewrite !cont_add by zdiv_lia. cbn [mbind option_bind].
    do 3 utf8_case.
    replace ((224 + c / 4096 - 224) * 4096 + c / 64 mod 64 * 64 + c mod 64) with c by zdiv_lia.
    rewrite bool_decide_eq_false_2 by tauto.
    destruct (Z.ltb_spec c 0x800); [lia | done]. }
  cbn [app from_utf8]. utf8_case. rewrite !cont_add by zdiv_lia. cbn [mbind option_bind].
  do 3 utf8_case.
  replace ((240 + c / 262144 - 240) * 262144 + c / 4096 mod 64 * 4096 + c / 64 mod 64 * 64 + c mod 64)
    with c by zdiv_lia.
  destruct (Z.ltb_spec c 0x10000), (Z.ltb_spec 0x10FFFF c); simpl; try lia. done.
Qed.

(** Decoding the UTF-8 bytes of a string gives the string back. *)
Lemma from_utf8_utf8 s : str_ok s → from_utf8 (utf8 s) = Some s.
Proof.
  induction 1 as [|c s Hc Hs IH]; [done|].
  rewrite utf8_cons, from_utf8_char, IH by done. done.
Qed.

Lemma is_cont_true b : 0x80 ≤ b < 0xC0 → is_cont b = true.
Proof. intros H. unfold is_cont. rewrite andb_true_iff, Z.leb_le, Z.ltb_lt. lia. Qed.

Lemma second_ok_true b0 b1 :
  0x80 ≤ b1 < 0xC0 → 0xC2 ≤ b0 < 0xF5 → (b0 = 0xE0 → 0xA0 ≤ b1) → (b0 = 0xED → b1 < 0xA0) →
  (b0 = 0xF0 → 0x90 ≤ b1) → (b0 = 0xF4 → b1 < 0x90) → second_ok b0 b1 = true.
Proof.
  intros H. unfold second_ok. rewrite is_cont_true by done.
  rewrite !andb_true_iff, !negb_true_iff, !andb_false_iff, !Z.leb_le, !Z.leb_gt, !Z.ltb_lt, !Z.ltb_ge, !Z.eqb_neq. lia.
Qed.

(** What decodes is not changed by the lossy conversion. *)
Lemma from_utf8_lossy_Some bs s : bytes_ok bs → from_utf8 bs = Some s → from_utf8_lossy bs = s.
Proof.
  intros Hb. remember (length bs) as n eqn:En. assert (length bs ≤ n)%nat as Hn by lia. clear En.
  revert bs s Hb Hn. induction n as [|n IH]; intros [|b0 r0] s Hb Hn; simpl in Hn; try lia; try (by intros [= <-]).
  apply bytes_ok_cons in Hb as [Hb0 Hb]. unfold is_u8 in Hb0. cbn [from_utf8 from_utf8_lossy].
  destruct (Z.ltb_spec b0 0x80); [intros (s' & Hr & ->)%fmap_Some; f_equal; apply IH; by (done || lia)|].
  destruct r0 as [|b1 r1]; [done|]. apply bytes_ok_cons in Hb as [Hb1 Hb].
  intros (c1 & [Hc1 ->]%cont_Some & H1)%bind_Some. revert H1.
  destruct (Z.ltb_spec b0 0xC0); [done|]. simpl in Hn.
  destruct (Z.ltb_spec b0 0xE0).
  { destruct (Z.ltb_spec ((b0 - 0xC0) * 64 + (b1 - 0x80)) 0x80); [done|]. intros (s' & Hr' & ->)%fmap_Some.
    rewrite second_ok_true by lia. f_equal. apply IH; by (done || lia). }
  destruct r1 as [|b2 r2]; [done|]. apply bytes_ok_cons in Hb as [Hb2 Hb].
  intros (c2 & [Hc2 ->]%cont_Some & H2)%bind_Some. revert H2. simpl in Hn.
  rewrite (is_cont_true b2) by lia. cbn [negb].
  destruct (Z.ltb_spec b0 0xF0).
  { destruct (Z.ltb_spec ((b0 - 0xE0) * 4096 + (b1 - 0x80) * 64 + (b2 - 0x80)) 0x800); [done|]. cbn [orb].
    case_bool_decide as Hs; [done|]. unfold is_scalar in Hs.
    intros (s' & Hr' & ->)%fmap_Some. rewrite second_ok_true by lia. f_equal. apply IH; by (done || lia). }
  destruct r2 as [|b3 r3]; [done|]. apply bytes_ok_cons in Hb as [Hb3 Hb].
  intros (c3 & [Hc3 ->]%cont_Some & H3)%bind_Some. revert H3. simpl in Hn.
  rewrite (is_cont_true b3) by lia. cbn [negb].
  destruct (Z.ltb_spec ((b0 - 0xF0) * 262144 + (b1 - 0x80) * 4096 + (b2 - 0x80) * 64 + (b3 - 0x80)) 0x10000); [done|].
  destruct (Z.ltb_spec 0x10FFFF ((b0 - 0xF0) * 262144 + (b1 - 0x80) * 4096 + (b2 - 0x80) * 64 + (b3 - 0x80))); [done|]. cbn [orb].
  intros (s' & Hr' & ->)%fmap_Some. rewrite second_ok_true by lia. f_equal. apply IH; by (done || lia).
Qed.

Example lossy_example : from_utf8_lossy [0xE2; 0x82; 0x41; 0xED; 0xA0; 0xC3; 0xA9] = [0xFFFD; 0x41; 0xFFFD; 0xFFFD; 0xE9].
Proof. reflexivity. Qed.

Lemma from_utf8_lossy_nonempty bs : bs ≠ [] → from_utf8_lossy bs ≠ [].
Proof. destruct bs as [|b0 r0]; [done|]. intros _. cbn. by repeat case_match. Qed.

Lemma utf8_inj s1 s2 : str_ok s1 → str_ok s2 → utf8 s1 = utf8 s2 → s1 = s2.
Proof.
  intros H1 H2 E. apply (f_equal from_utf8) in E.
  rewrite !from_utf8_utf8 in E by done. congruence.
Qed.

Lemma utf8_char_ok c : is_scalar c → bytes_ok (utf8_char c).
Proof.
  intros Hc. assert (0 ≤ c ≤ 0x10FFFF) as Hr by (destruct Hc; lia).
  unfold utf8_char, bytes_ok, is_u8.
  repeat case_bool; repeat constructor; zdiv_lia.
Qed.

Lemma utf8_ok s : str_ok s → bytes_ok (utf8 s).
Proof.
  induction 1; [constructor|]. rewrite utf8_cons. apply bytes_ok_app.
  split; [by apply utf8_char_ok | done].
Qed.

(** An ASCII string is its own UTF-8 encoding. *)
Definition is_ascii (c : Z) : Prop := 0 ≤ c < 128.

Lemma utf8_ascii s : Forall is_ascii s → utf8 s = s.
Proof.
  induction 1 as [|c s Hc Hs IH]; [done|]. rewrite utf8_cons, IH.
  unfold utf8_char. unfold is_ascii in Hc. case_bool; [done | lia].
Qed.

Lemma ascii_scalar c : is_ascii c → is_scalar c.
Proof. unfold is_ascii, is_scalar. lia. Qed.

(** ** Searching and splitting *)

(** [char::is_whitespace]: the Unicode [White_Space] property. *)
Definition is_whitespace (c : Z) : bool :=
  ((9 <=? c) && (c <=? 13)) || (c =? 32) || (c =? 0x85) || (c =? 0xA0) || (c =? 0x1680)
  || ((0x2000 <=? c) && (c <=? 0x200A)) || (c =? 0x2028) || (c =? 0x2029)
  || (c =? 0x202F) || (c =? 0x205F) || (c =? 0x3000).

Fixpoint drop_while (p : Z → bool) (s : str) : str :=
  match s with
  | [] => []
  | c :: r => if p c then drop_while p r else s
  end.

Definition trim_start (s : str) : str := drop_while is_whitespace s.

(** [trim_end_matches(p)] *)
Definition trim_end_matches (p : Z → bool) (s : str) : str := reverse (drop_while p (reverse s)).

Definition trim (s : str) : str := trim_end_matches is_whitespace (trim_start s).

Fixpoint strip_prefix (p s : str) : option str :=
  match p, s with
  | [], _ => Some s
  | a :: p', b :: s' => if a =? b then strip_prefix p' s' else None
  | _ :: _, [] => None
  end.

(** [s.split_once(c)]: around the first [c]. *)
Fixpoint split_once (c : Z) (s : str) : option (str * str) :=
  match s with
  | [] => None
  | x :: r => if x =? c then Some ([], r)
              else '(a, b) ← split_once c r; Some (x :: a, b)
  end.

(** [s.rsplit_once(c)]: around the last [c]. *)
Definition rsplit_once (c : Z) (s : str) : option (str * str) :=
  '(a, b) ← split_once c (reverse s); Some (reverse b, reverse a).

(** [s.find(c)], counted in characters. *)
Fixpoint find (c : Z) (s : str) : option nat :=
  match s with
  | [] => None
  | x :: r => if x =? c then Some 0%nat else S <$> find c r
  end.

Definition contains (c : Z) (s : str) : bool := existsb (Z.eqb c) s.

(** [l.split(|b| b == sep)]: the fields between separators, at least one. *)
Fixpoint split_on (sep : Z) (l : list Z) : list (list Z) :=
  match l with
  | [] => [[]]
  | x :: r =>
      if x =? sep then [] :: split_on sep r
      else match split_on sep r with
           | f :: fs => (x :: f) :: fs
           | [] => [[x]]
           end
  end.

(** [str::lines]: newline-terminated lines, each without its terminator and a
    carriage return before it; the last line may lack the terminator. *)
Definition strip_cr (l : str) : str :=
  match last l with
  | Some 13 => take (length l - 1) l
  | _ => l
  end.

Fixpoint lines_of (fields : list str) : list str :=
  match fields with
  | [] => []
  | [f] => if bool_decide (f = []) then [] else [f]
  | f :: fs => strip_cr f :: lines_of fs
  end.

Definition lines (s : str) : list str := lines_of (split_on 10 s).

(** [to_ascii_lowercase], [l.join(sep)] and [Iterator::find_map]. *)
Definition ascii_lower (c : Z) : Z := if (65 <=? c) && (c <=? 90) then c + 32 else c.

Definition to_ascii_lowercase (s : str) : str := ascii_lower <$> s.

Fixpoint join (sep : str) (l : list str) : str :=
  match l with
  | [] => []
  | [x] => x
  | x :: r => x ++ sep ++ join sep r
  end.

Fixpoint find_map {A B} (f : A → option B) (l : list A) : option B :=
  match l with
  | [] => None
  | x :: r => match f x with Some b => Some b | None => find_map f r end
  end.

(** ** Numbers *)
Definition digit_of (c : Z) : option Z :=
  if (48 <=? c) && (c <=? 57) then Some (c - 48) else None.

Fixpoint parse_digits (w : Z) (acc : Z) (s : str) : option Z :=
  match s with
  | [] => Some acc
  | c :: r =>
      d ← digit_of c;
      let acc' := acc * 10 + d in
      if acc' <? 2 ^ w then parse_digits w acc' r else None
  end.

(** [s.parse::<uW>()]: an optional [+], then at least one digit, no overflow. *)
Definition strip_plus (s : str) : str :=
  match s with
  | c :: r => if c =? 43 then r else s
  | [] => []
  end.

Definition parse_uint (w : Z) (s : str) : option Z :=
  match strip_plus s with
  | [] => None
  | s' => parse_digits w 0 s'
  end.

(** [n.to_string()] for an unsigned [n]. *)
Fixpoint show_digits (fuel : nat) (n : Z) (acc : str) : str :=
  let acc' := (48 + n mod 10) :: acc in
  match fuel with
  | O => acc'
  | S fuel' => if n <? 10 then acc' else show_digits fuel' (n / 10) acc'
  end.

Definition show_uint (n : Z) : str := show_digits (Z.to_nat (Z.log2 n)) n [].

(** [{b:02x}] for a byte. *)
Definition hex_digit (d : Z) : Z := if d <? 10 then 48 + d else 87 + d.

Definition hex2 (b : Z) : str := [hex_digit (b / 16); hex_digit (b mod 16)].

(** ** Laws of the string operations *)
Lemma drop_while_id p s : Forall (λ c, p c = false) s → drop_while p s = s.
Proof. destruct 1 as [|c s Hc]; [done|]. simpl. by rewrite Hc. Qed.

Lemma trim_end_matches_id p s : Forall (λ c, p c = false) s → trim_end_matches p s = s.
Proof.
  intros H. unfold trim_end_matches. rewrite drop_while_id by by apply Forall_reverse.
  apply reverse_involutive.
Qed.

(** A string without whitespace is its own trim. *)
Lemma trim_id s : Forall (λ c, is_whitespace c = false) s → trim s = s.
Proof.
  intros H. unfold trim, trim_start. rewrite drop_while_id by done.
  by apply trim_end_matches_id.
Qed.

Lemma strip_prefix_Some p s r : strip_prefix p s = Some r ↔ s = p ++ r.
Proof.
  revert s. induction p as [|a p IH]; intros s; simpl; [naive_solver|].
  destruct s as [|b s]; [naive_solver|]. destruct (Z.eqb_spec a b).
  - rewrite IH. naive_solver.
  - naive_solver.
Qed.

Lemma strip_prefix_app p r : strip_prefix p (p ++ r) = Some r.
Proof. by apply strip_prefix_Some. Qed.

Lemma split_once_Some c s a b : split_once c s = Some (a, b) ↔ s = a ++ c :: b ∧ c ∉ a.
Proof.
  revert a b. induction s as [|x s IH]; intros a b; simpl.
  { split; [done|]. intros [H _]. by destruct a. }
  destruct (Z.eqb_spec x c) as [->|Hne].
  - split; [intros [= <- <-]; split; [done | by apply not_elem_of_nil]|].
    intros [H Hn]. destruct a as [|y a]; simplify_eq/=; [done|]. set_solver.
  - split.
    + intros ([a' b'] & E & [= <- <-])%bind_Some. apply IH in E as [-> Hn].
      split; [done|]. set_solver.
    + intros [H Hn]. destruct a as [|y a]; simplify_eq/=.
      rewrite (proj2 (IH a b)); [done|]. set_solver.
Qed.

Lemma split_once_None c s : split_once c s = None ↔ c ∉ s.
Proof.
  induction s as [|x s IH]; simpl; [set_solver|].
  destruct (Z.eqb_spec x c) as [->|Hne]; [set_solver|].
  destruct (split_once c s) as [[a b]|] eqn:E; simpl.
  - split; [done|]. apply split_once_Some in E as [-> _]. set_solver.
  - set_solver.
Qed.

Lemma split_once_app c a b : c ∉ a → split_once c (a ++ c :: b) = Some (a, b).
Proof. intros H. by apply split_once_Some. Qed.

Lemma rsplit_once_Some c s a b : rsplit_once c s = Some (a, b) ↔ s = a ++ c :: b ∧ c ∉ b.
Proof.
  unfold rsplit_once. split.
  - intros ([x y] & E & [= <- <-])%bind_Some. apply split_once_Some in E as [E Hn].
    rewrite <- (reverse_involutive s), E. split; [|by rewrite elem_of_reverse].
    by rewrite reverse_app, reverse_cons, <- app_assoc.
  - intros [-> Hn]. rewrite reverse_app, reverse_cons, <- app_assoc. simpl.
    rewrite split_once_app by by rewrite elem_of_reverse. simpl.
    by rewrite !reverse_involutive.
Qed.

Lemma contains_true c s : contains c s = true ↔ c ∈ s.
Proof.
  unfold contains. rewrite existsb_exists. setoid_rewrite <- list_elem_of_In.
  setoid_rewrite Z.eqb_eq. naive_solver.
Qed.

Lemma contains_false c s : contains c s = false ↔ c ∉ s.
Proof. rewrite <- contains_true. by destruct (contains c s). Qed.

Lemma find_Some c s i : find c s = Some i ↔ ∃ a b, s = a ++ c :: b ∧ c ∉ a ∧ length a = i.
Proof.
  revert i. induction s as [|x s IH]; intros i; simpl.
  { split; [done|]. intros (a & b & H & _). by destruct a. }
  destruct (Z.eqb_spec x c) as [->|Hne].
  - split.
    + intros [= <-]. exists [], s. split_and!; [done | apply not_elem_of_nil | done].
    + intros (a & b & H & Hn & <-). destruct a; simplify_eq/=; [done | set_solver].
  - rewrite fmap_Some. setoid_rewrite IH. split.
    + intros (j & (a & b & -> & Hn & <-) & ->). exists (x :: a), b. set_solver.
    + intros (a & b & H & Hn & <-). destruct a as [|y a]; simplify_eq/=.
      exists (length a). split; [|done]. exists a, b. set_solver.
Qed.

Lemma find_None c s : find c s = None ↔ c ∉ s.
Proof.
  induction s as [|x s IH]; simpl; [set_solver|].
  destruct (Z.eqb_spec x c) as [->|Hne]; [set_solver|].
  rewrite fmap_None, IH. set_solver.
Qed.

Lemma split_on_ne sep l : split_on sep l ≠ [].
Proof. destruct l as [|x r]; simpl; [done|]. destruct (_ =? _); [done|]. by destruct (split_on sep r). Qed.

Lemma split_on_app sep a b :
  sep ∉ a → split_on sep (a ++ sep :: b) = a :: split_on sep b.
Proof.
  induction a as [|x a IH]; intros H; simpl.
  - by rewrite Z.eqb_refl.
  - destruct (Z.eqb_spec x sep); [set_solver|]. rewrite IH by set_solver. done.
Qed.

Lemma split_on_none sep a : sep ∉ a → split_on sep a = [a].
Proof.
  induction a as [|x a IH]; intros H; simpl; [done|].
  destruct (Z.eqb_spec x sep); [set_solver|]. by rewrite IH by set_solver.
Qed.

Lemma split_on_fields sep l : Forall (λ f, sep ∉ f) (split_on sep l).
Proof.
  induction l as [|x r IH]; simpl; [repeat constructor; apply not_elem_of_nil|].
  destruct (Z.eqb_spec x sep); [constructor; [apply not_elem_of_nil | done]|].
  destruct (split_on sep r) as [|f fs].
  - repeat constructor. set_solver.
  - inversion IH; subst. constructor; [set_solver | done].
Qed.

(** Splitting at a separator that is there splits both sides. *)
Lemma split_on_app_sep sep a b :
  split_on sep (a ++ sep :: b) = split_on sep a ++ split_on sep b.
Proof.
  induction a as [|x a IH]; simpl; [by rewrite Z.eqb_refl|].
  destruct (_ =? _); [by rewrite IH|]. rewrite IH.
  pose proof (split_on_ne sep a) as Hne. by destruct (split_on sep a).
Qed.

Lemma split_on_Forall (P : Z → Prop) sep l : Forall P l → Forall (Forall P) (split_on sep l).
Proof.
  induction 1 as [|x l Hx Hl IH]; simpl; [repeat constructor|].
  destruct (_ =? _); [by constructor; [constructor|]|].
  destruct (split_on sep l) as [|f fs]; [by repeat constructor|].
  inversion IH; subst. by repeat constructor.
Qed.

(** Joining with a separator none of the fields holds, and splitting again. *)
Lemma split_on_join sep fs : fs ≠ [] → Forall (λ f, sep ∉ f) fs → split_on sep (join [sep] fs) = fs.
Proof.
  intros Hne H. induction H as [|f fs Hf Hfs IH]; [done|].
  destruct fs as [|g fs]; [by apply split_on_none|].
  change (join [sep] (f :: g :: fs)) with (f ++ sep :: join [sep] (g :: fs)).
  rewrite split_on_app by done. by rewrite IH.
Qed.

Lemma join_Forall (P : Z → Prop) sep fs :
  Forall P sep → Forall (Forall P) fs → Forall P (join sep fs).
Proof.
  intros Hs H. induction H as [|f fs Hf Hfs IH]; [constructor|].
  destruct fs as [|g fs]; [done|].
  change (join sep (f :: g :: fs)) with (f ++ sep ++ join sep (g :: fs)). by rewrite !Forall_app.
Qed.

(** The lines of a terminated text. *)
Lemma lines_terminated s : lines (s ++ [10]) = strip_cr <$> split_on 10 s.
Proof.
  unfold lines. rewrite split_on_app_sep.
  assert (∀ F, lines_of (F ++ split_on 10 []) = strip_cr <$> F) as H; [|apply H].
  induction F as [|f F IH]; [done|]. rewrite fmap_cons, <- IH. by destruct F.
Qed.

(** A text a line can be appended to: empty, or ending with a newline. *)
Definition terminated (s : str) : Prop := s = [] ∨ ∃ s', s = s' ++ [10].

Lemma lines_app_line s l :
  terminated s → 10 ∉ l → lines (s ++ l ++ [10]) = lines s ++ [strip_cr l].
Proof.
  intros [-> | [s' ->]] Hl.
  - rewrite app_nil_l, lines_terminated, split_on_none by done. done.
  - replace ((s' ++ [10]) ++ l ++ [10]) with ((s' ++ 10 :: l) ++ [10]) by by rewrite <- !app_assoc.
    by rewrite !lines_terminated, split_on_app_sep, fmap_app, (split_on_none 10 l).
Qed.

Lemma strip_cr_id l : last l ≠ Some 13 → strip_cr l = l.
Proof.
  unfold strip_cr. destruct (last l) as [z|]; [|done]. intros H.
  assert (z ≠ 13) by congruence. repeat case_match; congruence.
Qed.

Lemma strip_cr_cr l : strip_cr (l ++ [13]) = l.
Proof.
  unfold strip_cr. rewrite last_snoc, length_app, Nat.add_sub. by rewrite take_app_length.
Qed.

(** Stripping a carriage return either does nothing or drops one at the end. *)
Lemma strip_cr_cases l : strip_cr l = l ∨ l = strip_cr l ++ [13].
Proof.
  destruct (decide (last l = Some 13)) as [E|E]; [|left; by apply strip_cr_id].
  apply last_Some in E as [l' ->]. right. by rewrite strip_cr_cr.
Qed.

Lemma strip_cr_Forall (P : Z → Prop) l : Forall P l → Forall P (strip_cr l).
Proof.
  destruct (strip_cr_cases l) as [-> | E]; [done|]. rewrite E at 1. rewrite Forall_app. tauto.
Qed.

Lemma lines_of_Forall (P : str → Prop) fs :
  (∀ l, P l → P (strip_cr l)) → Forall P fs → Forall P (lines_of fs).
Proof.
  intros Hcr. induction 1 as [|f fs Hf Hfs IH]; [constructor|]. destruct fs as [|g fs].
  - simpl. case_bool_decide; by repeat constructor.
  - change (lines_of (f :: g :: fs)) with (strip_cr f :: lines_of (g :: fs)). constructor; auto.
Qed.

(** Every character of a line is a character of the text, and none is a newline. *)
Lemma lines_Forall (P : Z → Prop) s : Forall P s → Forall (Forall P) (lines s).
Proof.
  intros H. apply lines_of_Forall; [apply strip_cr_Forall|]. by apply split_on_Forall.
Qed.

Lemma lines_no_newline s : Forall (λ l, 10 ∉ l) (lines s).
Proof.
  apply lines_of_Forall; [|apply split_on_fields].
  intros l Hl. destruct (strip_cr_cases l) as [-> | E]; [done|]. rewrite E in Hl. set_solver.
Qed.

(** [find_map] stops at the first hit. *)
Lemma find_map_omap {A B} (f : A → option B) l : find_map f l = head (omap f l).
Proof. induction l as [|x l IH]; simpl; [done|]. by destruct (f x). Qed.

Lemma drop_while_app p a b :
  drop_while p (a ++ b) = match drop_while p a with [] => drop_while p b | x => x ++ b end.
Proof. induction a as [|c a IH]; simpl; [done|]. by destruct (p c). Qed.

(** Whitespace at the end does not survive [trim]. *)
Lemma trim_snoc_whitespace s c : is_whitespace c = true → trim (s ++ [c]) = trim s.
Proof.
  intros Hc. unfold trim, trim_start. rewrite drop_while_app.
  destruct (drop_while is_whitespace s) as [|x r]; simpl; rewrite ?Hc; [done|].
  unfold trim_end_matches. rewrite app_comm_cons, reverse_snoc. simpl. by rewrite Hc.
Qed.

(** ** Printing and parsing numbers *)
Lemma digit_of_digit d : 0 ≤ d < 10 → digit_of (48 + d) = Some d.
Proof.
  intros H. unfold digit_of.
  destruct (Z.leb_spec 48 (48 + d)), (Z.leb_spec (48 + d) 57); simpl; try lia. f_equal. lia.
Qed.

Lemma parse_show_digits w fuel n acc :
  0 ≤ n < 2 ^ w → n < 2 ^ (Z.of_nat fuel + 1) →
  parse_digits w 0 (show_digits fuel n acc) = parse_digits w n acc.
Proof.
  assert (∀ m r, 0 ≤ m < 10 → m < 2 ^ w →
    parse_digits w 0 ((48 + m mod 10) :: r) = parse_digits w m r) as Hone.
  { intros m r Hm Hw. cbn [parse_digits]. rewrite Z.mod_small by lia.
    rewrite digit_of_digit by lia. cbn [mbind option_bind].
    rewrite Z.mul_0_l, Z.add_0_l. destruct (Z.ltb_spec m (2 ^ w)); [done | lia]. }
  revert n acc. induction fuel as [|fuel IH]; intros n acc Hn Hf; cbn [show_digits].
  { change (2 ^ (Z.of_nat 0 + 1)) with 2 in Hf. apply Hone; lia. }
  destruct (Z.ltb_spec n 10); [apply Hone; lia|].
  rewrite IH; [| split; [zdiv_lia | zdiv_lia] |].
  - cbn [parse_digits]. rewrite digit_of_digit by zdiv_lia. cbn [mbind option_bind].
    replace (n / 10 * 10 + n mod 10) with n by zdiv_lia.
    destruct (Z.ltb_spec n (2 ^ w)); [done | lia].
  - replace (Z.of_nat (S fuel) + 1) with (Z.succ (Z.of_nat fuel + 1)) in Hf by lia.
    rewrite Z.pow_succ_r in Hf by lia. zdiv_lia.
Qed.

Lemma show_digits_digits fuel n acc :
  0 ≤ n → Forall (λ c, 48 ≤ c ≤ 57) acc → Forall (λ c, 48 ≤ c ≤ 57) (show_digits fuel n acc).
Proof.
  revert n acc. induction fuel as [|fuel IH]; intros n acc Hn Ha; cbn [show_digits].
  { constructor; [zdiv_lia | done]. }
  destruct (_ <? _); [constructor; [zdiv_lia | done]|].
  apply IH; [zdiv_lia|]. constructor; [zdiv_lia | done].
Qed.

Lemma show_uint_digits n : 0 ≤ n → Forall (λ c, 48 ≤ c ≤ 57) (show_uint n).
Proof. intros H. apply show_digits_digits; [done | constructor]. Qed.

Lemma show_digits_ne fuel n acc : show_digits fuel n acc ≠ [].
Proof.
  revert n acc. induction fuel as [|fuel IH]; intros n acc; cbn [show_digits]; [done|].
  destruct (_ <? _); [done | apply IH].
Qed.

(** Parsing a printed number gives the number back. *)
Lemma parse_show_uint w n : in_u w n → parse_uint w (show_uint n) = Some n.
Proof.
  intros [H0 Hw]. pose proof (show_uint_digits n H0) as Hd.
  pose proof (show_digits_ne (Z.to_nat (Z.log2 n)) n []) as Hne.
  assert (parse_digits w 0 (show_uint n) = Some n) as Hp.
  { unfold show_uint. rewrite parse_show_digits; [done | lia |].
    rewrite Z2Nat.id by apply Z.log2_nonneg.
    destruct (Z.eq_dec n 0) as [->|]; [done|]. pose proof (Z.log2_spec n). lia. }
  unfold parse_uint. fold (show_uint n) in Hne.
  destruct (show_uint n) as [|c r] eqn:E; [done|].
  inversion Hd as [|? ? Hc]; subst. cbn [strip_plus].
  destruct (Z.eqb_spec c 43); [lia | done].
Qed.

Lemma parse_digits_bound w acc s n :
  0 ≤ acc < 2 ^ w → parse_digits w acc s = Some n → in_u w n.
Proof.
  revert acc. induction s as [|c s IH]; intros acc Ha; simpl; [by intros [= <-]|].
  unfold digit_of. destruct (_ && _) eqn:E; [|done]. simpl. bool_to_prop.
  destruct (Z.ltb_spec (acc * 10 + (c - 48)) (2 ^ w)); [|done]. apply IH. lia.
Qed.

(** A parsed number fits its type. *)
Lemma parse_uint_bound w s n : 0 ≤ w → parse_uint w s = Some n → in_u w n.
Proof.
  intros Hw. unfold parse_uint.
  pose proof (Z.pow_pos_nonneg 2 w).
  destruct (strip_plus s); [done|].
  apply parse_digits_bound. lia.
Qed.
