(* ===== verification/Net.v ===== *)
(** * Net: addresses, files and paths, as the standard library presents them *)
From S2P Require Import Prelude RustStr.

(** [std::net::IpAddr], by its address bits. *)
Inductive IpAddr :=
| V4 (a : Z)
| V6 (a : Z).

#[global] Instance ip_eq_dec : EqDecision IpAddr.
Proof. solve_decision. Defined.

#[global] Instance ip_countable : Countable IpAddr.
Proof.
  apply (inj_countable' (λ i, match i with V4 a => inl a | V6 a => inr a end)
           (λ s, match s with inl a => V4 a | inr a => V6 a end)).
  by intros [].
Defined.

(** [IpAddr::is_loopback]: 127.0.0.0/8, or ::1. *)
Definition is_loopback (ip : IpAddr) : bool :=
  match ip with
  | V4 a => Z.shiftr a 24 =? 127
  | V6 a => a =? 1
  end.

Record SocketAddr := mkSocketAddr { sa_ip : IpAddr; sa_port : Z }.

#[global] Instance socketaddr_eq_dec : EqDecision SocketAddr.
Proof. solve_decision. Defined.

(** What a path names, as far as opening and reading it can tell. [readable] is
    whether the reading succeeds for the process that tries. *)
Inductive FileNode :=
| Regular (readable : bool) (contents : bytes)
| Symlink (target : str)
| Directory
| Special.

(** A file system, by path. *)
Definition FileSystem : Type := str → option FileNode.

(** What a process reads from outside itself at one moment: the wall clock in
    seconds, sixteen bytes of [/dev/urandom] if it can be read, the nanoseconds
    of the fallback, and the files. *)
Record World := mkWorld {
  unix_now : Z;
  urandom : option bytes;
  elapsed_nanos : Z;
  files : FileSystem;
}.

(** ** [std::path::Path]

    A path is its components, which is how [Path] compares paths (a leading dot
    aside). *)
Definition DOT_STR : str := lit ".".
Definition DOTDOT : str := lit "..".

Record Path := mkPath { absolute : bool; comps : list str }.

#[global] Instance path_eq_dec : EqDecision Path.
Proof. solve_decision. Defined.

#[global] Instance path_countable : Countable Path.
Proof.
  apply (inj_countable' (λ p, (absolute p, comps p)) (λ x, mkPath x.1 x.2)). by intros [].
Defined.

Definition path_of (s : str) : Path :=
  mkPath (bool_decide (head s = Some 47)) (base.filter (λ c, c ≠ [] ∧ c ≠ DOT_STR) (split_on 47 s)).

Definition path_join (p : Path) (s : str) : Path :=
  let q := path_of s in
  if absolute q then q else mkPath (absolute p) (comps p ++ comps q).

Definition file_name (p : Path) : option str :=
  match last (comps p) with
  | Some c => if bool_decide (c = DOTDOT) then None else Some c
  | None => None
  end.

Definition parent (p : Path) : option Path :=
  match comps p with
  | [] => None
  | _ => Some (mkPath (absolute p) (take (length (comps p) - 1) (comps p)))
  end.

(** [Path::file_stem]: the name up to its last dot, a leading dot aside. *)
Definition file_stem (name : str) : str :=
  match rsplit_once 46 name with
  | Some ([], _) | None => name
  | Some (before, _) => before
  end.

(** [Path::with_extension]. *)
Definition with_extension (ext : str) (p : Path) : Path :=
  match file_name p with
  | None => p
  | Some n => mkPath (absolute p) (take (length (comps p) - 1) (comps p) ++ [file_stem n ++ 46 :: ext])
  end.
