(* ===== verification/Postcard.v ===== *)
(** * Serialization and base64: the interfaces of the third-party codecs

    [postcard] and [base64] are crates; the sources only call them. The model
    takes them as type classes: what the code relies on is the round-trip law of
    each. Every theorem is proved against the classes. The codec combinators
    below build concrete instances (the published postcard wire format and RFC
    4648 base64), which show that the laws can hold and let the definitions run. *)
From S2P Require Import Prelude RustStr.

(** The values a Rust type contains: integers within their width, strings made of
    scalar values. *)
Class RustType (T : Type) := rust_ok : T → Prop.

(** [postcard::to_stdvec] (and [to_allocvec]) and [postcard::from_bytes]. *)
Class Postcard (T : Type) := {
  to_stdvec : T → option bytes;
  from_bytes : bytes → option T;
}.

Class PostcardOk (T : Type) `{RustType T, Postcard T} : Prop := {
  postcard_total (x : T) : rust_ok x → is_Some (to_stdvec x);
  postcard_bytes (x : T) b : rust_ok x → to_stdvec x = Some b → bytes_ok b;
  postcard_roundtrip (x : T) b : rust_ok x → to_stdvec x = Some b → from_bytes b = Some x;
}.

(** [BASE64_STANDARD.encode] and [.decode]. *)
Class Base64 := {
  b64_encode : bytes → str;
  b64_decode : str → option bytes;
}.

(** The standard alphabet, with the padding character. *)
Definition is_b64 (c : Z) : Prop :=
  65 ≤ c ≤ 90 ∨ 97 ≤ c ≤ 122 ∨ 48 ≤ c ≤ 57 ∨ c = 43 ∨ c = 47 ∨ c = 61.

Class Base64Ok `{Base64} : Prop := {
  b64_roundtrip b : bytes_ok b → b64_decode (b64_encode b) = Some b;
  b64_alphabet b : bytes_ok b → Forall is_b64 (b64_encode b);
}.

Lemma is_b64_no_ws c : is_b64 c → is_whitespace c = false.
Proof.
  unfold is_b64, is_whitespace. intros H.
  repeat match goal with
  | |- context [?a <=? ?b] => destruct (Z.leb_spec a b); try lia
  | |- context [?a =? ?b] => destruct (Z.eqb_spec a b); try lia
  end; done.
Qed.

Lemma b64_trim `{Base64Ok} b : bytes_ok b → trim (b64_encode b) = b64_encode b.
Proof.
  intros Hb. apply trim_id. eapply Forall_impl; [by apply b64_alphabet|].
  apply is_b64_no_ws.
Qed.

(** ** Codecs

    A codec writes a value and reads it back off the front of the input. *)
Record codec (T : Type) := Codec {
  enc : T → bytes;
  dec : bytes → option (T * bytes);
}.
Arguments Codec {T} enc dec.
Arguments enc {T} c x.
Arguments dec {T} c b.

Class CodecOk {T} (c : codec T) (P : T → Prop) : Prop := {
  codec_bytes x : P x → bytes_ok (enc c x);
  codec_dec x r : P x → dec c (enc c x ++ r) = Some (x, r);
}.

(** One byte. *)
Definition u8c : codec Z :=
  Codec (λ x, [x]) (λ b, match b with x :: r => Some (x, r) | [] => None end).

#[global] Instance u8c_ok : CodecOk u8c (in_u 8).
Proof.
  split; [|done]. intros x Hx. unfold in_u in Hx. change (2 ^ 8) with 256 in Hx.
  repeat constructor; lia.
Qed.

(** A [w]-bit unsigned integer as a little-endian base-128 varint. *)
Fixpoint varint_enc (fuel : nat) (n : Z) : bytes :=
  match fuel with
  | O => []
  | S f => if n <? 128 then [n] else (128 + n mod 128) :: varint_enc f (n / 128)
  end.

Fixpoint varint_dec (fuel : nat) (b : bytes) : option (Z * bytes) :=
  match fuel, b with
  | S f, x :: r =>
      if x <? 128 then Some (x, r)
      else '(n, r') ← varint_dec f r; Some (x - 128 + 128 * n, r')
  | _, _ => None
  end.

Definition varint_fuel (w : Z) : nat := Z.to_nat (w / 7 + 1).

Definition uvar (w : Z) : codec Z :=
  Codec (varint_enc (varint_fuel w))
        (λ b, '(n, r) ← varint_dec (varint_fuel w) b; if n <? 2 ^ w then Some (n, r) else None).

Lemma varint_dec_enc fuel n r :
  (0 < fuel)%nat → 0 ≤ n < 128 ^ Z.of_nat fuel →
  varint_dec fuel (varint_enc fuel n ++ r) = Some (n, r).
Proof.
  revert n. induction fuel as [|f IH]; intros n Hf Hn; [lia|].
  simpl varint_enc. destruct (Z.ltb_spec n 128).
  { simpl. destruct (Z.ltb_spec n 128); [done | lia]. }
  cbn [app varint_dec]. destruct (Z.ltb_spec (128 + n mod 128) 128); [zdiv_lia|].
  rewrite IH.
  - simpl. repeat f_equal. zdiv_lia.
  - destruct f; [change (128 ^ Z.of_nat 1) with 128 in Hn; lia | lia].
  - rewrite Nat2Z.inj_succ, Z.pow_succ_r in Hn by lia. zdiv_lia.
Qed.

Lemma varint_enc_bytes fuel n : 0 ≤ n → bytes_ok (varint_enc fuel n).
Proof.
  revert n. induction fuel as [|f IH]; intros n Hn; simpl; [constructor|].
  destruct (Z.ltb_spec n 128); constructor; unfold is_u8; [lia | constructor | zdiv_lia |].
  apply IH. zdiv_lia.
Qed.

Lemma varint_enc_length fuel n : zlen (varint_enc fuel n) ≤ Z.of_nat fuel.
Proof.
  revert n. induction fuel as [|f IH]; intros n; simpl; [done|].
  destruct (_ <? _).
  - change (zlen [n]) with 1. lia.
  - rewrite zlen_cons. specialize (IH (n / 128)). lia.
Qed.

#[global] Instance uvar_ok w : CodecOk (uvar w) (in_u w).
Proof.
  split; intros x; [intros [Hx _]; by apply varint_enc_bytes|].
  intros r [H0 Hw]. simpl.
  assert (0 ≤ w) as Hw0.
  { destruct (Z.le_gt_cases 0 w); [done|]. rewrite Z.pow_neg_r in Hw; lia. }
  rewrite varint_dec_enc.
  - simpl. destruct (Z.ltb_spec x (2 ^ w)); [done | lia].
  - unfold varint_fuel. zdiv_lia.
  - split; [done|]. eapply Z.lt_le_trans; [done|].
    replace 128 with (2 ^ 7) by done. rewrite <- Z.pow_mul_r by lia.
    apply Z.pow_le_mono_r; [lia|]. unfold varint_fuel. zdiv_lia.
Qed.

(** A signed integer, zigzag-encoded. *)
Definition zigzag (z : Z) : Z := if z <? 0 then - 2 * z - 1 else 2 * z.
Definition unzigzag (n : Z) : Z := if n mod 2 =? 0 then n / 2 else - ((n + 1) / 2).

Lemma unzigzag_zigzag z : unzigzag (zigzag z) = z.
Proof. unfold unzigzag, zigzag. repeat case_bool; zdiv_lia. Qed.

(** A codec through an injection. *)
Definition mapc {A B} (f : A → B) (g : B → option A) (c : codec B) : codec A :=
  Codec (λ x, enc c (f x)) (λ b, '(y, r) ← dec c b; x ← g y; Some (x, r)).

Lemma mapc_ok {A B} (f : A → B) g (c : codec B) (P : A → Prop) (Q : B → Prop) :
  CodecOk c Q → (∀ x, P x → Q (f x) ∧ g (f x) = Some x) → CodecOk (mapc f g c) P.
Proof.
  intros [Hb Hd] H. split; intros x.
  - intros Hx. apply Hb, H, Hx.
  - intros r Hx. destruct (H x Hx) as [Hq Hg]. simpl. rewrite Hd by done. simpl. by rewrite Hg.
Qed.

Definition ivar (w : Z) : codec Z := mapc zigzag (λ n, Some (unzigzag n)) (uvar w).

Lemma ivar_ok w : 0 < w → CodecOk (ivar w) (in_i w).
Proof.
  intros Hw. eapply mapc_ok; [apply uvar_ok|]. intros x [H1 H2].
  assert (2 ^ w = 2 * 2 ^ (w - 1)) as E.
  { rewrite <- Z.pow_succ_r by lia. f_equal. lia. }
  split; [|by rewrite unzigzag_zigzag]. unfold in_u, zigzag. case_bool; lia.
Qed.

#[global] Instance ivar32_ok : CodecOk (ivar 32) (in_i 32).
Proof. by apply ivar_ok. Qed.

Definition boolc : codec bool :=
  Codec (λ b : bool, [if b then 1 else 0])
        (λ b, match b with 0 :: r => Some (false, r) | 1 :: r => Some (true, r) | _ => None end).

#[global] Instance boolc_ok : CodecOk boolc (λ _, True).
Proof. split; intros []; try done; repeat constructor; done. Qed.

(** Sequences: the number of elements, then the elements. *)
Fixpoint dec_n {T} (c : codec T) (n : nat) (b : bytes) : option (list T * bytes) :=
  match n with
  | O => Some ([], b)
  | S n' => '(x, r) ← dec c b; '(xs, r') ← dec_n c n' r; Some (x :: xs, r')
  end.

Definition listc {T} (c : codec T) : codec (list T) :=
  Codec (λ l, enc (uvar 64) (zlen l) ++ (l ≫= enc c))
        (λ b, '(n, r) ← dec (uvar 64) b;
              if n <=? zlen r then dec_n c (Z.to_nat n) r else None).

Lemma enc_uvar64_ne n : enc (uvar 64) n ≠ [].
Proof. change (varint_enc 10 n ≠ []). simpl. by destruct (_ <? _). Qed.

(** The element count is a [usize]; every element takes at least a byte. *)
Lemma listc_ok {T} (c : codec T) (P : T → Prop) :
  CodecOk c P → (∀ x, enc c x ≠ []) →
  CodecOk (listc c) (λ l, in_u 64 (zlen l) ∧ Forall P l).
Proof.
  intros [Hb Hd] Hne. split; intros l.
  - intros [Hl Hf]. simpl. apply bytes_ok_app. split; [by apply (codec_bytes (c:=uvar 64))|].
    clear Hl. induction Hf; simpl; [constructor|]. apply bytes_ok_app. auto.
  - intros r [Hl Hf]. cbn [listc enc dec]. rewrite <- app_assoc.
    rewrite (codec_dec (c:=uvar 64)) by done. cbn [mbind option_bind].
    assert (zlen l ≤ zlen ((l ≫= enc c) ++ r)) as Hle.
    { rewrite zlen_app. pose proof (zlen_nonneg r). clear Hl Hf.
      enough (zlen l ≤ zlen (l ≫= enc c)) by lia.
      induction l as [|x l IH]; [done|]. rewrite bind_cons, zlen_app, zlen_cons.
      specialize (Hne x). destruct (enc c x); [done|]. rewrite zlen_cons.
      pose proof (zlen_nonneg l0). lia. }
    destruct (Z.leb_spec (zlen l) (zlen ((l ≫= enc c) ++ r))); [|lia].
    unfold zlen. rewrite Nat2Z.id. clear - Hf Hd.
    induction Hf as [|x l Hx Hf IH]; [done|].
    rewrite bind_cons, <- app_assoc. cbn [length dec_n]. rewrite Hd by done. simpl.
    by rewrite IH.
Qed.

(** [String]: its UTF-8 bytes; [Vec<u8>]: its bytes. *)
Definition bytesc : codec bytes := listc u8c.
Definition strc : codec str := mapc utf8 from_utf8 bytesc.

Definition str_rust (s : str) : Prop := str_ok s ∧ in_u 64 (str_len s).
Definition bytes_rust (b : bytes) : Prop := in_u 64 (zlen b) ∧ bytes_ok b.

Lemma bytesc_ok_aux : CodecOk bytesc (λ l, in_u 64 (zlen l) ∧ Forall (in_u 8) l).
Proof. apply listc_ok; [apply _ | done]. Qed.

#[global] Instance bytesc_ok : CodecOk bytesc bytes_rust.
Proof. destruct bytesc_ok_aux as [H1 H2]. split; [exact H1 | exact H2]. Qed.

#[global] Instance strc_ok : CodecOk strc str_rust.
Proof.
  eapply mapc_ok; [apply bytesc_ok|]. intros s [H1 H2]. split; [split; [done|]|].
  - by apply utf8_ok.
  - by apply from_utf8_utf8.
Qed.

#[global] Instance str_rust_dec s : Decision (str_rust s).
Proof. unfold str_rust. apply _. Defined.

#[global] Instance bytes_rust_dec b : Decision (bytes_rust b).
Proof. unfold bytes_rust. apply _. Defined.

Definition optc {T} (c : codec T) : codec (option T) :=
  Codec (λ o, match o with Some x => 1 :: enc c x | None => [0] end)
        (λ b, match b with
              | 0 :: r => Some (None, r)
              | 1 :: r => '(x, r') ← dec c r; Some (Some x, r')
              | _ => None
              end).

#[global] Instance optc_ok {T} (c : codec T) (P : T → Prop) :
  CodecOk c P → CodecOk (optc c) (from_option P True).
Proof.
  intros [Hb Hd]. split; intros [x|]; simpl; try done.
  - intros Hx. constructor; [unfold is_u8; lia | by apply Hb].
  - intros _. repeat constructor; unfold is_u8; lia.
  - intros r Hx. by rewrite Hd.
Qed.

Lemma enc_strc_ne s : enc strc s ≠ [].
Proof.
  intros H. cbn [strc mapc enc bytesc listc] in H. apply app_nil in H as [H _].
  by apply enc_uvar64_ne in H.
Qed.

(** The postcard instance a codec induces. *)
Definition codec_postcard {T} (c : codec T) : Postcard T :=
  {| to_stdvec x := Some (enc c x); from_bytes b := fst <$> dec c b |}.

Lemma codec_postcard_ok {T} `{RustType T} (c : codec T) (P : T → Prop) :
  CodecOk c P → (∀ x, rust_ok x → P x) → @PostcardOk T _ (codec_postcard c).
Proof.
  intros [Hb Hd] HP. split; simpl.
  - intros x _. by eexists.
  - intros x b Hx [= <-]. by apply Hb, HP.
  - intros x b Hx [= <-]. rewrite <- (app_nil_r (enc c x)), Hd by by apply HP. done.
Qed.

(** Solve the laws of a record or enum codec by running it on each constructor. *)
Ltac codec_run :=
  repeat first
    [ done
    | rewrite <- !app_assoc
    | erewrite codec_dec by (first [eassumption | done])
    | progress cbn [mbind option_bind app] ].
Ltac codec_bytes_run :=
  repeat first
    [ apply codec_bytes; first [eassumption | done]
    | apply bytes_ok_cons; split; [unfold is_u8; lia|]
    | apply bytes_ok_app; split
    | apply Forall_nil; exact I ].
