(* ===== verification/Base64.v ===== *)
(** * A concrete base64

    RFC 4648 section 4 with the standard alphabet, canonical padding and zero
    trailing bits: an instance of [Base64] that satisfies [Base64Ok], which the
    witnesses of the theorems about headers and tokens run on. *)
From S2P Require Import Prelude RustStr Postcard.

Definition b64_char (d : Z) : Z :=
  if d <? 26 then 65 + d
  else if d <? 52 then 71 + d
  else if d <? 62 then d - 4
  else if d =? 62 then 43 else 47.

Definition b64_val (c : Z) : option Z :=
  if (65 <=? c) && (c <=? 90) then Some (c - 65)
  else if (97 <=? c) && (c <=? 122) then Some (c - 71)
  else if (48 <=? c) && (c <=? 57) then Some (c + 4)
  else if c =? 43 then Some 62
  else if c =? 47 then Some 63
  else None.

Fixpoint rfc_encode (b : bytes) : str :=
  match b with
  | [] => []
  | [x] => [b64_char (x / 4); b64_char (x mod 4 * 16); 61; 61]
  | [x; y] => [b64_char (x / 4); b64_char (x mod 4 * 16 + y / 16); b64_char (y mod 16 * 4); 61]
  | x :: y :: z :: r =>
      b64_char (x / 4) :: b64_char (x mod 4 * 16 + y / 16)
      :: b64_char (y mod 16 * 4 + z / 64) :: b64_char (z mod 64) :: rfc_encode r
  end.

Fixpoint rfc_decode (s : str) : option bytes :=
  match s with
  | [] => Some []
  | a :: b :: c :: d :: r =>
      va ← b64_val a; vb ← b64_val b;
      if bool_decide (r = []) && (d =? 61) then
        if c =? 61 then
          if vb mod 16 =? 0 then Some [va * 4 + vb / 16] else None
        else
          vc ← b64_val c;
          if vc mod 4 =? 0 then Some [va * 4 + vb / 16; vb mod 16 * 16 + vc / 4] else None
      else
        vc ← b64_val c; vd ← b64_val d;
        t ← rfc_decode r;
        Some (va * 4 + vb / 16 :: vb mod 16 * 16 + vc / 4 :: vc mod 4 * 64 + vd :: t)
  | _ => None
  end.

#[global] Instance rfc4648 : Base64 := {| b64_encode := rfc_encode; b64_decode := rfc_decode |}.

Ltac b64_cases :=
  repeat match goal with
  | |- context [?a <? ?b] => destruct (Z.ltb_spec a b); try lia
  | |- context [?a <=? ?b] => destruct (Z.leb_spec a b); try lia
  | |- context [?a =? ?b] => destruct (Z.eqb_spec a b); try lia
  end.

Lemma b64_val_char d : 0 ≤ d < 64 → b64_val (b64_char d) = Some d.
Proof.
  intros H. unfold b64_char. b64_cases; unfold b64_val; b64_cases; simpl; f_equal; lia.
Qed.

Lemma b64_char_alphabet d : 0 ≤ d < 64 → is_b64 (b64_char d) ∧ b64_char d ≠ 61.
Proof. intros H. unfold b64_char, is_b64. b64_cases; lia. Qed.

Lemma bytes_ind3 (P : bytes → Prop) :
  P [] → (∀ x, P [x]) → (∀ x y, P [x; y]) → (∀ x y z r, P r → P (x :: y :: z :: r)) → ∀ b, P b.
Proof.
  intros H0 H1 H2 H3. fix IH 1. intros [|x [|y [|z r]]]; [done | by apply H1 | by apply H2|].
  apply H3, IH.
Qed.

Ltac b64_bytes H :=
  repeat match type of H with
  | bytes_ok (_ :: _) => let Hx := fresh "Hx" in apply bytes_ok_cons in H as [Hx H]; unfold is_u8 in Hx
  end.

Lemma rfc_roundtrip b : bytes_ok b → rfc_decode (rfc_encode b) = Some b.
Proof.
  induction b as [|x|x y|x y z r IH] using bytes_ind3; intros H; [done|..]; b64_bytes H; simpl.
  - rewrite !b64_val_char by zdiv_lia. simpl.
    destruct (Z.eqb_spec (x mod 4 * 16 mod 16) 0); [|zdiv_lia]. repeat f_equal. zdiv_lia.
  - rewrite !b64_val_char by zdiv_lia. simpl.
    destruct (Z.eqb_spec (b64_char (y mod 16 * 4)) 61) as [E|].
    { exfalso. revert E. apply b64_char_alphabet. zdiv_lia. }
    destruct (Z.eqb_spec (y mod 16 * 4 mod 4) 0); [|zdiv_lia]. repeat f_equal; zdiv_lia.
  - rewrite !b64_val_char by zdiv_lia. simpl.
    destruct (Z.eqb_spec (b64_char (z mod 64)) 61) as [E|].
    { exfalso. revert E. apply b64_char_alphabet. zdiv_lia. }
    rewrite andb_false_r, IH by done. simpl. repeat f_equal; zdiv_lia.
Qed.

Lemma rfc_alphabet b : bytes_ok b → Forall is_b64 (rfc_encode b).
Proof.
  assert (is_b64 61) as Hpad by (unfold is_b64; lia).
  induction b as [|x|x y|x y z r IH] using bytes_ind3; intros H; b64_bytes H; simpl;
    repeat (constructor; [first [done | apply b64_char_alphabet; zdiv_lia]|]);
    auto using Forall_nil.
Qed.

#[global] Instance rfc4648_ok : Base64Ok.
Proof. split; [apply rfc_roundtrip | apply rfc_alphabet]. Qed.
