(* ===== verification/Crypto.v ===== *)
(** * Concrete SHA-256, SHA-1, HMAC-SHA1 and base32

    The published algorithms (FIPS 180-4, RFC 2104, RFC 4648 section 6 without
    padding), executable: instances for the parameters that stand for the crates
    the sources call. The theorems are about any instance with the laws they name;
    the unit tests of the sources, with their published vectors, run on these. *)
From S2P Require Import Prelude RustStr.

Module Crypto.

(** ** 32-bit words *)
Definition w32 (z : Z) : Z := Z.land z 0xFFFFFFFF.
Definition add32 (l : list Z) : Z := w32 (foldr Z.add 0 l).
Definition rotl (n x : Z) : Z := Z.lor (w32 (Z.shiftl x n)) (Z.shiftr x (32 - n)).
Definition rotr (n x : Z) : Z := rotl (32 - n) x.
Definition not32 (x : Z) : Z := Z.lxor x 0xFFFFFFFF.

(** ** Digits: a number in a base, most significant first *)
Fixpoint digits (b : Z) (n : nat) (v : Z) : list Z :=
  match n with O => [] | S n => digits b n (v / b) ++ [v mod b] end.

Definition undigits (b : Z) (l : list Z) : Z := foldl (λ a d, a * b + d) 0 l.

Lemma length_digits b n v : length (digits b n v) = n.
Proof. revert v. induction n as [|n IH]; intros v; [done|]. simpl. rewrite length_app, IH. simpl. lia. Qed.

Lemma digits_range b n v : 0 < b → Forall (λ d, 0 ≤ d < b) (digits b n v).
Proof.
  intros Hb. revert v. induction n as [|n IH]; intros v; [constructor|].
  simpl. apply Forall_app_2; [apply IH|]. constructor; [by apply Z.mod_pos_bound|constructor].
Qed.

Lemma undigits_snoc b l d : undigits b (l ++ [d]) = undigits b l * b + d.
Proof. unfold undigits. by rewrite foldl_app. Qed.

Lemma undigits_digits b n v : 0 < b → 0 ≤ v < b ^ Z.of_nat n → undigits b (digits b n v) = v.
Proof.
  intros Hb. revert v. induction n as [|n IH]; intros v Hv.
  - change (b ^ Z.of_nat 0) with 1 in Hv. simpl. unfold undigits. simpl. lia.
  - simpl. rewrite undigits_snoc, IH.
    + pose proof (Z.div_mod v b). lia.
    + rewrite Nat2Z.inj_succ, Z.pow_succ_r in Hv by lia. split; [apply Z.div_pos; lia|].
      apply Z.div_lt_upper_bound; lia.
Qed.

Lemma undigits_bound b l : 0 < b → Forall (λ d, 0 ≤ d < b) l → 0 ≤ undigits b l < b ^ Z.of_nat (length l).
Proof.
  intros Hb. induction l as [|d l IH] using rev_ind; intros Hl; [unfold undigits; simpl; lia|].
  apply Forall_app in Hl as [Hl Hd]. inversion Hd as [|? ? Hd' _]. specialize (IH Hl).
  rewrite undigits_snoc, length_app. simpl. rewrite Nat2Z.inj_add, Z.pow_add_r by lia. simpl. nia.
Qed.

Lemma digits_undigits b l : 0 < b → Forall (λ d, 0 ≤ d < b) l → digits b (length l) (undigits b l) = l.
Proof.
  intros Hb. induction l as [|d l IH] using rev_ind; intros Hl; [done|].
  apply Forall_app in Hl as [Hl Hd]. inversion Hd as [|? ? Hd' _].
  rewrite length_app, Nat.add_comm, undigits_snoc. simpl. f_equal.
  - rewrite Z.div_add_l, Z.div_small, Z.add_0_r by lia. auto.
  - f_equal. rewrite Z.add_comm, Z.mod_add by lia. by apply Z.mod_small.
Qed.

(** ** Hashes over 64-byte blocks *)

(** The message, a one bit, zeros, and the length in bits. *)
Definition pad (msg : bytes) : bytes :=
  let n := zlen msg in
  msg ++ [0x80] ++ repeat 0 (Z.to_nat ((55 - n) mod 64)) ++ digits 256 8 (8 * n).

Fixpoint words (b : bytes) : list Z :=
  match b with
  | w :: x :: y :: z :: b => undigits 256 [w; x; y; z] :: words b
  | _ => []
  end.

Fixpoint blocks (fuel : nat) (ws : list Z) : list (list Z) :=
  match fuel, ws with
  | S fuel, _ :: _ => take 16 ws :: blocks fuel (drop 16 ws)
  | _, _ => []
  end.

Definition message_blocks (msg : bytes) : list (list Z) := let ws := words (pad msg) in blocks (length ws) ws.

Definition digest_bytes (h : list Z) : bytes := h ≫= digits 256 4.

(** The schedule, built backwards: the newest word first. *)
Definition sched_nth (rw : list Z) (back : nat) : Z := default 0 (rw !! (back - 1)%nat).

Fixpoint extend (next : list Z → Z) (n : nat) (rw : list Z) : list Z :=
  match n with O => rw | S n => extend next n (next rw :: rw) end.

(** *** SHA-1 *)
Definition sha1_next (rw : list Z) : Z :=
  rotl 1 (Z.lxor (Z.lxor (sched_nth rw 3) (sched_nth rw 8)) (Z.lxor (sched_nth rw 14) (sched_nth rw 16))).

Definition sha1_fk (t : Z) (b c d : Z) : Z * Z :=
  if t <? 20 then (Z.lor (Z.land b c) (Z.land (not32 b) d), 0x5A827999)
  else if t <? 40 then (Z.lxor (Z.lxor b c) d, 0x6ED9EBA1)
  else if t <? 60 then (Z.lor (Z.lor (Z.land b c) (Z.land b d)) (Z.land c d), 0x8F1BBCDC)
  else (Z.lxor (Z.lxor b c) d, 0xCA62C1D6).

Fixpoint sha1_rounds (t : Z) (ws : list Z) (s : Z * Z * Z * Z * Z) : Z * Z * Z * Z * Z :=
  match ws with
  | [] => s
  | w :: ws =>
      let '(a, b, c, d, e) := s in
      let '(f, k) := sha1_fk t b c d in
      sha1_rounds (t + 1) ws (add32 [rotl 5 a; f; e; k; w], a, rotl 30 b, c, d)
  end.

Definition sha1_block (s : Z * Z * Z * Z * Z) (block : list Z) : Z * Z * Z * Z * Z :=
  let '(a0, b0, c0, d0, e0) := s in
  let '(a, b, c, d, e) := sha1_rounds 0 (reverse (extend sha1_next 64 (reverse block))) s in
  (add32 [a0; a], add32 [b0; b], add32 [c0; c], add32 [d0; d], add32 [e0; e]).

Definition sha1 (msg : bytes) : bytes :=
  let '(a, b, c, d, e) :=
    foldl sha1_block (0x67452301, 0xEFCDAB89, 0x98BADCFE, 0x10325476, 0xC3D2E1F0) (message_blocks msg) in
  digest_bytes [a; b; c; d; e].

Lemma sha1_length msg : length (sha1 msg) = 20%nat ∧ bytes_ok (sha1 msg).
Proof.
  unfold sha1, digest_bytes. destruct (foldl _ _ _) as [[[[a b] c] d] e]. cbn [mbind list_bind].
  split; [by rewrite !length_app, !length_digits|].
  repeat (apply Forall_app_2; [by apply digits_range|]). constructor.
Qed.

(** *** HMAC-SHA1 *)
Definition hmac_sha1 (key msg : bytes) : bytes :=
  let key := if 64 <? zlen key then sha1 key else key in
  let key := key ++ repeat 0 (64 - length key) in
  sha1 ((Z.lxor 0x5c <$> key) ++ sha1 ((Z.lxor 0x36 <$> key) ++ msg)).

Lemma hmac_sha1_digest key msg : length (hmac_sha1 key msg) = 20%nat ∧ bytes_ok (hmac_sha1 key msg).
Proof. apply sha1_length. Qed.

(** *** SHA-256

    Its constants are the first 32 bits of the fractional parts of the cube roots
    of the first 64 primes. *)

(** The largest [r] below [2 ^ n] with [r ^ 3 <= v], when [acc] are its bits above. *)
Fixpoint cube_root (n : nat) (v acc : Z) : Z :=
  match n with
  | O => acc
  | S n => let r := acc + 2 ^ Z.of_nat n in cube_root n v (if r ^ 3 <=? v then r else acc)
  end.

Definition is_prime (p : Z) : bool :=
  forallb (λ d, negb (p mod d =? 0)) (seqZ 2 (p - 2)).

Definition sha256_k : list Z :=
  Eval vm_compute in
    (λ p, cube_root 35 (Z.shiftl p 96) 0 mod 2 ^ 32) <$> List.filter is_prime (seqZ 2 310).

Definition xor3 (x y z : Z) : Z := Z.lxor (Z.lxor x y) z.

Definition sha256_next (rw : list Z) : Z :=
  let x := sched_nth rw 15 in
  let y := sched_nth rw 2 in
  add32 [sched_nth rw 16; xor3 (rotr 7 x) (rotr 18 x) (Z.shiftr x 3); sched_nth rw 7;
         xor3 (rotr 17 y) (rotr 19 y) (Z.shiftr y 10)].

Fixpoint sha256_rounds (wks : list (Z * Z)) (s : Z * Z * Z * Z * Z * Z * Z * Z) : Z * Z * Z * Z * Z * Z * Z * Z :=
  match wks with
  | [] => s
  | (w, k) :: wks =>
      let '(a, b, c, d, e, f, g, h) := s in
      let t1 := add32 [h; xor3 (rotr 6 e) (rotr 11 e) (rotr 25 e);
                       Z.lxor (Z.land e f) (Z.land (not32 e) g); k; w] in
      let t2 := add32 [xor3 (rotr 2 a) (rotr 13 a) (rotr 22 a); xor3 (Z.land a b) (Z.land a c) (Z.land b c)] in
      sha256_rounds wks (add32 [t1; t2], a, b, c, add32 [d; t1], e, f, g)
  end.

Definition sha256_block (s : Z * Z * Z * Z * Z * Z * Z * Z) (block : list Z) : Z * Z * Z * Z * Z * Z * Z * Z :=
  let '(a0, b0, c0, d0, e0, f0, g0, h0) := s in
  let '(a, b, c, d, e, f, g, h) :=
    sha256_rounds (zip (reverse (extend sha256_next 48 (reverse block))) sha256_k) s in
  (add32 [a0; a], add32 [b0; b], add32 [c0; c], add32 [d0; d],
   add32 [e0; e], add32 [f0; f], add32 [g0; g], add32 [h0; h]).

Definition sha256 (msg : bytes) : bytes :=
  let '(a, b, c, d, e, f, g, h) :=
    foldl sha256_block (0x6a09e667, 0xbb67ae85, 0x3c6ef372, 0xa54ff53a, 0x510e527f, 0x9b05688c, 0x1f83d9ab, 0x5be0cd19)
      (message_blocks msg) in
  digest_bytes [a; b; c; d; e; f; g; h].

(** Published vectors: of FIPS 180 for "abc", and of RFC 2202. *)
Example sha1_abc : (sha1 (lit "abc") ≫= hex2) = lit "a9993e364706816aba3e25717850c26c9cd0d89d".
Proof. vm_compute. reflexivity. Qed.

Example sha256_abc :
  (sha256 (lit "abc") ≫= hex2) = lit "ba7816bf8f01cfea414140de5dae2223b00361a396177a9cb410ff61f20015ad".
Proof. vm_compute. reflexivity. Qed.

Example hmac_sha1_jefe :
  (hmac_sha1 (lit "Jefe") (lit "what do ya want for nothing?") ≫= hex2) = lit "effcdf6ae5eb2fa2d27416d5f184df9c259a7c79".
Proof. vm_compute. reflexivity. Qed.

(** ** Base32 *)
Definition b32_char (d : Z) : Z := if d <? 26 then 65 + d else 24 + d.

Definition b32_val (c : Z) : option Z :=
  if (65 <=? c) && (c <=? 90) then Some (c - 65)
  else if (97 <=? c) && (c <=? 122) then Some (c - 97)
  else if (50 <=? c) && (c <=? 55) then Some (c - 24)
  else None.

Lemma b32_val_char d : 0 ≤ d < 32 → b32_val (b32_char d) = Some d.
Proof.
  intros H. unfold b32_char, b32_val. destruct (Z.ltb_spec d 26).
  - destruct (Z.leb_spec 65 (65 + d)); [|lia]. destruct (Z.leb_spec (65 + d) 90); [|lia]. simpl. f_equal. lia.
  - destruct (Z.leb_spec 65 (24 + d)); [lia|]. destruct (Z.leb_spec 97 (24 + d)); [lia|]. simpl.
    destruct (Z.leb_spec 50 (24 + d)); [|lia]. destruct (Z.leb_spec (24 + d) 55); [|lia]. simpl. f_equal. lia.
Qed.

(** Of [k] bytes, one to five: so many characters, and so many bits of padding. *)
Definition b32_chars (k : nat) : nat := (8 * k + 4) / 5.
Definition b32_bits (k : nat) : Z := Z.of_nat (5 * b32_chars k - 8 * k).

Definition b32_group (bs : bytes) : str :=
  b32_char <$> digits 32 (b32_chars (length bs)) (undigits 256 bs * 2 ^ b32_bits (length bs)).

Fixpoint base32_encode (b : bytes) : str :=
  match b with
  | [] => []
  | v :: w :: x :: y :: z :: r => b32_group [v; w; x; y; z] ++ base32_encode r
  | r => b32_group r
  end.

Definition b32_ungroup (cs : str) : option bytes :=
  ds ← mapM b32_val cs;
  let k := (length cs * 5 / 8)%nat in
  Some (digits 256 k (undigits 32 ds / 2 ^ Z.of_nat (5 * length cs - 8 * k))).

Fixpoint base32_decode (s : str) : option bytes :=
  match s with
  | a :: b :: c :: d :: e :: f :: g :: h :: r =>
      x ← b32_ungroup [a; b; c; d; e; f; g; h]; y ← base32_decode r; Some (x ++ y)
  | r => if bool_decide (length r ∈ [0; 2; 4; 5; 7]%nat) then b32_ungroup r else None
  end.

Lemma mapM_b32 ds : Forall (λ d, 0 ≤ d < 32) ds → mapM b32_val (b32_char <$> ds) = Some ds.
Proof. induction 1 as [|d ds Hd _ IH]; [done|]. rewrite fmap_cons. cbn [mapM]. rewrite b32_val_char by done. cbn [mbind option_bind]. by rewrite IH. Qed.

Lemma b32_group_length bs : length (b32_group bs) = b32_chars (length bs).
Proof. unfold b32_group. by rewrite length_fmap, length_digits. Qed.

Lemma b32_ungroup_group bs : (1 ≤ length bs ≤ 5)%nat → bytes_ok bs → b32_ungroup (b32_group bs) = Some bs.
Proof.
  intros Hl Hb. unfold b32_ungroup. rewrite b32_group_length. unfold b32_group at 1.
  rewrite mapM_b32 by by apply digits_range. cbn [mbind option_bind]. f_equal.
  pose proof (undigits_bound 256 bs ltac:(lia) Hb) as Hv. set (v := undigits 256 bs) in *.
  assert ((b32_chars (length bs) * 5 / 8)%nat = length bs ∧
    5 * Z.of_nat (b32_chars (length bs)) = 8 * Z.of_nat (length bs) + b32_bits (length bs) ∧
    Z.of_nat (5 * b32_chars (length bs) - 8 * length bs) = b32_bits (length bs) ∧ 0 ≤ b32_bits (length bs)) as (E1 & E2 & E3 & E4).
  { destruct (length bs) as [|[|[|[|[|[|]]]]]]; [lia|by split_and!..|lia]. }
  rewrite E1, undigits_digits.
  - rewrite E3, Z.div_mul by (apply Z.pow_nonzero; lia). unfold v. by apply digits_undigits.
  - lia.
  - assert (32 ^ Z.of_nat (b32_chars (length bs)) = 256 ^ Z.of_nat (length bs) * 2 ^ b32_bits (length bs)) as ->.
    { change 32 with (2 ^ 5). change 256 with (2 ^ 8). rewrite <- !Z.pow_mul_r, <- Z.pow_add_r by lia. f_equal. lia. }
    assert (0 < 2 ^ b32_bits (length bs)) by (apply Z.pow_pos_nonneg; lia). nia.
Qed.

Lemma bytes_ind5 (P : bytes → Prop) :
  (∀ b, (length b < 5)%nat → P b) → (∀ v w x y z r, P r → P (v :: w :: x :: y :: z :: r)) → ∀ b, P b.
Proof.
  intros Hs Hr. fix IH 1. intros [|v [|w [|x [|y [|z r]]]]]; try (apply Hs; simpl; lia). apply Hr, IH.
Qed.

Lemma base32_decode_group s r :
  length s = 8%nat → base32_decode (s ++ r) = (x ← b32_ungroup s; y ← base32_decode r; Some (x ++ y)).
Proof. intros Hs. do 8 (destruct s as [|? s]; [done|]). by destruct s. Qed.

Lemma base32_decode_short s : length s ∈ [2; 4; 5; 7]%nat → base32_decode s = b32_ungroup s.
Proof.
  intros Hs. destruct s as [|? [|? [|? [|? [|? [|? [|? [|? s]]]]]]]]; try reflexivity; exfalso; simpl in Hs;
    repeat (apply elem_of_cons in Hs as [Hs|Hs]; [lia|]); by apply not_elem_of_nil in Hs.
Qed.

Lemma base32_back b : bytes_ok b → base32_decode (base32_encode b) = Some b.
Proof.
  induction b as [b Hb|v w x y z r IH] using bytes_ind5; intros Hok.
  - destruct b as [|v b]; [done|]. assert (base32_encode (v :: b) = b32_group (v :: b)) as ->
      by (do 4 (destruct b as [|? b]; [done|]); simpl in Hb; lia).
    rewrite base32_decode_short, b32_ungroup_group; [done|simpl in *; lia|done|].
    rewrite b32_group_length. destruct b as [|? [|? [|? [|? b]]]]; [by_dec..|simpl in Hb; lia].
  - change (base32_encode (v :: w :: x :: y :: z :: r)) with (b32_group [v; w; x; y; z] ++ base32_encode r).
    change (v :: w :: x :: y :: z :: r) with ([v; w; x; y; z] ++ r) in *. apply bytes_ok_app in Hok as [H1 H2].
    rewrite base32_decode_group by apply b32_group_length.
    rewrite b32_ungroup_group by (done || simpl; lia). cbn [mbind option_bind]. by rewrite IH.
Qed.

Lemma b32_char_text d : 0 ≤ d < 32 → 50 ≤ b32_char d ≤ 90.
Proof. intros H. unfold b32_char. destruct (Z.ltb_spec d 26); lia. Qed.

Lemma base32_chars b : Forall (λ c, 50 ≤ c ≤ 90) (base32_encode b).
Proof.
  assert (∀ bs, Forall (λ c, 50 ≤ c ≤ 90) (b32_group bs)) as Hg.
  { intros bs. unfold b32_group. apply Forall_fmap. eapply Forall_impl; [by apply digits_range|].
    intros d. apply b32_char_text. }
  induction b as [b Hb|v w x y z r IH] using bytes_ind5.
  - destruct b as [|v b]; [constructor|]. do 4 (destruct b as [|? b]; [apply Hg|]). simpl in Hb. lia.
  - by apply Forall_app_2.
Qed.

Lemma base32_text b : bytes_ok b →
  str_ok (base32_encode b) ∧ Forall (λ c, is_whitespace c = false) (base32_encode b).
Proof.
  intros _. split; (eapply Forall_impl; [apply base32_chars|]); intros c Hc; simpl in *.
  - left. lia.
  - unfold is_whitespace. rewrite ?orb_false_iff, ?andb_false_iff, ?Z.leb_gt, ?Z.eqb_neq. lia.
Qed.

End Crypto.
