(* ===== verification/Proto.v ===== *)
(** * quish-proto: wire types and the frame codec

    Models [quish-proto/src/lib.rs]: the channel and challenge message types, the
    length-prefixed framing ([encode], [decode], [parse_len], [take_frame]), the
    version check, the certificate fingerprint and the challenge headers. *)
From S2P Require Import Prelude RustStr Postcard Base64.

(** ** Constants *)
Definition PROTOCOL_VERSION : Z := 2.
Definition DEFAULT_PATH : str := lit "/quish".
Definition CHANNEL_BINDING_LEN : Z := 32.
Definition MAX_FRAME_LEN : Z := 64 * 1024.
Definition LEN_PREFIX : Z := 4.

(** ** Message types *)
Inductive ChannelOpen :=
| Shell (term : str) (cols rows : Z)
| Exec (command : str)
| Forward (host : str) (port : Z)
| ReadFile (path : str)
| WriteFile (path : str) (mode : Z)
| MkDir (path : str) (mode : Z)
| RemoteForwardListen (bind : str) (port : Z)
| RemoteForwardData (conn_ref : Z).

Inductive Signal := Int | Quit | Term.

Inductive ChannelMessage :=
| Data (d : bytes)
| DataErr (d : bytes)
| Resize (cols rows : Z)
| ExitStatus (code : Z)
| SignalMsg (s : Signal).

Record AcceptedSignal := { as_conn_ref : Z }.

Record Prompt := { message : str; echo : bool }.
Record Challenge := { ch_token : str; prompts : list Prompt }.
Record ChallengeAnswer := { ans_token : str; responses : list str }.

#[global] Instance Signal_eq_dec : EqDecision Signal.
Proof. solve_decision. Defined.
#[global] Instance ChannelOpen_eq_dec : EqDecision ChannelOpen.
Proof. solve_decision. Defined.
#[global] Instance ChannelMessage_eq_dec : EqDecision ChannelMessage.
Proof. solve_decision. Defined.
#[global] Instance Prompt_eq_dec : EqDecision Prompt.
Proof. solve_decision. Defined.
#[global] Instance Challenge_eq_dec : EqDecision Challenge.
Proof. solve_decision. Defined.
#[global] Instance ChallengeAnswer_eq_dec : EqDecision ChallengeAnswer.
Proof. solve_decision. Defined.

(** The values of each Rust type. *)
#[global] Instance ChannelOpen_rust : RustType ChannelOpen := λ o,
  match o with
  | Shell term cols rows => str_rust term ∧ in_u 16 cols ∧ in_u 16 rows
  | Exec command => str_rust command
  | Forward host port => str_rust host ∧ in_u 16 port
  | ReadFile path => str_rust path
  | WriteFile path mode => str_rust path ∧ in_u 32 mode
  | MkDir path mode => str_rust path ∧ in_u 32 mode
  | RemoteForwardListen bind port => str_rust bind ∧ in_u 16 port
  | RemoteForwardData conn_ref => in_u 64 conn_ref
  end.

#[global] Instance ChannelMessage_rust : RustType ChannelMessage := λ m,
  match m with
  | Data d | DataErr d => bytes_rust d
  | Resize cols rows => in_u 16 cols ∧ in_u 16 rows
  | ExitStatus code => in_i 32 code
  | SignalMsg _ => True
  end.

#[global] Instance AcceptedSignal_rust : RustType AcceptedSignal := λ a, in_u 64 (as_conn_ref a).

Definition Prompt_rust (p : Prompt) : Prop := str_rust (message p).

#[global] Instance Challenge_rust : RustType Challenge := λ c,
  str_rust (ch_token c) ∧ in_u 64 (zlen (prompts c)) ∧ Forall Prompt_rust (prompts c).

#[global] Instance ChallengeAnswer_rust : RustType ChallengeAnswer := λ a,
  str_rust (ans_token a) ∧ in_u 64 (zlen (responses a)) ∧ Forall str_rust (responses a).

#[global] Instance ChannelOpen_rust_dec (o : ChannelOpen) : Decision (rust_ok o).
Proof. destruct o; unfold rust_ok; simpl; apply _. Defined.
#[global] Instance ChannelMessage_rust_dec (m : ChannelMessage) : Decision (rust_ok m).
Proof. destruct m; unfold rust_ok; simpl; apply _. Defined.
#[global] Instance Prompt_rust_dec p : Decision (Prompt_rust p).
Proof. unfold Prompt_rust. apply _. Defined.
#[global] Instance Challenge_rust_dec (c : Challenge) : Decision (rust_ok c).
Proof. unfold rust_ok, Challenge_rust. apply _. Defined.
#[global] Instance ChallengeAnswer_rust_dec (a : ChallengeAnswer) : Decision (rust_ok a).
Proof. unfold rust_ok, ChallengeAnswer_rust. apply _. Defined.

(** ** The concrete wire format of the messages

    What [#[derive(Serialize, Deserialize)]] gives through postcard: the variant
    index as a varint, then the fields in order. *)
Module Wire.

Definition open_codec : codec ChannelOpen := Codec
  (λ o, match o with
   | Shell term cols rows => 0 :: enc strc term ++ enc (uvar 16) cols ++ enc (uvar 16) rows
   | Exec command => 1 :: enc strc command
   | Forward host port => 2 :: enc strc host ++ enc (uvar 16) port
   | ReadFile path => 3 :: enc strc path
   | WriteFile path mode => 4 :: enc strc path ++ enc (uvar 32) mode
   | MkDir path mode => 5 :: enc strc path ++ enc (uvar 32) mode
   | RemoteForwardListen bind port => 6 :: enc strc bind ++ enc (uvar 16) port
   | RemoteForwardData conn_ref => 7 :: enc (uvar 64) conn_ref
   end)
  (λ b, match b with
   | 0 :: r => '(t, r) ← dec strc r; '(c, r) ← dec (uvar 16) r; '(w, r) ← dec (uvar 16) r;
               Some (Shell t c w, r)
   | 1 :: r => '(c, r) ← dec strc r; Some (Exec c, r)
   | 2 :: r => '(h, r) ← dec strc r; '(p, r) ← dec (uvar 16) r; Some (Forward h p, r)
   | 3 :: r => '(p, r) ← dec strc r; Some (ReadFile p, r)
   | 4 :: r => '(p, r) ← dec strc r; '(m, r) ← dec (uvar 32) r; Some (WriteFile p m, r)
   | 5 :: r => '(p, r) ← dec strc r; '(m, r) ← dec (uvar 32) r; Some (MkDir p m, r)
   | 6 :: r => '(h, r) ← dec strc r; '(p, r) ← dec (uvar 16) r;
               Some (RemoteForwardListen h p, r)
   | 7 :: r => '(c, r) ← dec (uvar 64) r; Some (RemoteForwardData c, r)
   | _ => None
   end).

#[export] Instance open_codec_ok : CodecOk open_codec rust_ok.
Proof.
  split; intros o; destruct o; cbn [rust_ok ChannelOpen_rust]; intros; destruct_and?;
    cbn [open_codec enc dec app]; try (codec_bytes_run; fail); codec_run.
Qed.

Definition signal_codec : codec Signal := Codec
  (λ s, [match s with Int => 0 | Quit => 1 | Term => 2 end])
  (λ b, match b with
        | 0 :: r => Some (Int, r) | 1 :: r => Some (Quit, r) | 2 :: r => Some (Term, r)
        | _ => None
        end).

#[export] Instance signal_codec_ok : CodecOk signal_codec (λ _, True).
Proof. split; intros []; intros; try done; codec_bytes_run. Qed.

Definition message_codec : codec ChannelMessage := Codec
  (λ m, match m with
   | Data d => 0 :: enc bytesc d
   | DataErr d => 1 :: enc bytesc d
   | Resize cols rows => 2 :: enc (uvar 16) cols ++ enc (uvar 16) rows
   | ExitStatus code => 3 :: enc (ivar 32) code
   | SignalMsg s => 4 :: enc signal_codec s
   end)
  (λ b, match b with
   | 0 :: r => '(d, r) ← dec bytesc r; Some (Data d, r)
   | 1 :: r => '(d, r) ← dec bytesc r; Some (DataErr d, r)
   | 2 :: r => '(c, r) ← dec (uvar 16) r; '(w, r) ← dec (uvar 16) r; Some (Resize c w, r)
   | 3 :: r => '(c, r) ← dec (ivar 32) r; Some (ExitStatus c, r)
   | 4 :: r => '(s, r) ← dec signal_codec r; Some (SignalMsg s, r)
   | _ => None
   end).

#[export] Instance message_codec_ok : CodecOk message_codec rust_ok.
Proof.
  split; intros m; destruct m; cbn [rust_ok ChannelMessage_rust]; intros; destruct_and?;
    cbn [message_codec enc dec app]; try (codec_bytes_run; fail); codec_run.
Qed.

Definition accepted_codec : codec AcceptedSignal :=
  mapc as_conn_ref (λ n, Some {| as_conn_ref := n |}) (uvar 64).

#[export] Instance accepted_codec_ok : CodecOk accepted_codec rust_ok.
Proof. eapply mapc_ok; [apply uvar_ok|]. intros [n] H. split; [exact H | done]. Qed.

Definition prompt_codec : codec Prompt := Codec
  (λ p, enc strc (message p) ++ enc boolc (echo p))
  (λ b, '(m, r) ← dec strc b; '(e, r) ← dec boolc r;
        Some ({| message := m; echo := e |}, r)).

#[export] Instance prompt_codec_ok : CodecOk prompt_codec Prompt_rust.
Proof.
  split; intros [m e]; unfold Prompt_rust; simpl message.
  - intros H. unfold prompt_codec; cbn [enc message echo].
    apply bytes_ok_app. split; [by apply codec_bytes | by apply (codec_bytes (c:=boolc))].
  - intros r H. unfold prompt_codec; cbn [enc dec message echo].
    rewrite <- app_assoc, codec_dec by done. cbn [mbind option_bind].
    rewrite (codec_dec (c:=boolc)) by done. done.
Qed.

Lemma prompts_codec_ok : CodecOk (listc prompt_codec) (λ l, in_u 64 (zlen l) ∧ Forall Prompt_rust l).
Proof.
  apply listc_ok; [apply _|]. intros [m e]. unfold prompt_codec; cbn [enc message echo].
  by destruct (enc strc m).
Qed.

Lemma strs_codec_ok : CodecOk (listc strc) (λ l, in_u 64 (zlen l) ∧ Forall str_rust l).
Proof.
  apply listc_ok; [apply _ | apply enc_strc_ne].
Qed.

Definition challenge_codec : codec Challenge := Codec
  (λ c, enc strc (ch_token c) ++ enc (listc prompt_codec) (prompts c))
  (λ b, '(t, r) ← dec strc b; '(p, r) ← dec (listc prompt_codec) r;
        Some ({| ch_token := t; prompts := p |}, r)).

Definition answer_codec : codec ChallengeAnswer := Codec
  (λ a, enc strc (ans_token a) ++ enc (listc strc) (responses a))
  (λ b, '(t, r) ← dec strc b; '(l, r) ← dec (listc strc) r;
        Some ({| ans_token := t; responses := l |}, r)).

#[export] Instance challenge_codec_ok : CodecOk challenge_codec rust_ok.
Proof.
  pose proof prompts_codec_ok as Hp.
  split; intros [t p]; unfold rust_ok, Challenge_rust, challenge_codec;
    cbn [enc dec ch_token prompts].
  - intros (H1 & H2 & H3). apply bytes_ok_app. split; [by apply codec_bytes|].
    apply Hp. done.
  - intros r (H1 & H2 & H3). rewrite <- app_assoc, codec_dec by done. cbn [mbind option_bind].
    destruct Hp as [_ Hd]. rewrite Hd by done. done.
Qed.

#[export] Instance answer_codec_ok : CodecOk answer_codec rust_ok.
Proof.
  pose proof strs_codec_ok as Hp.
  split; intros [t p]; unfold rust_ok, ChallengeAnswer_rust, answer_codec;
    cbn [enc dec ans_token responses].
  - intros (H1 & H2 & H3). apply bytes_ok_app. split; [by apply codec_bytes|].
    apply Hp. done.
  - intros r (H1 & H2 & H3). rewrite <- app_assoc, codec_dec by done. cbn [mbind option_bind].
    destruct Hp as [_ Hd]. rewrite Hd by done. done.
Qed.

#[export] Instance open_postcard : Postcard ChannelOpen := codec_postcard open_codec.
#[export] Instance open_postcard_ok : PostcardOk ChannelOpen.
Proof. by eapply codec_postcard_ok; [apply open_codec_ok|]. Qed.

#[export] Instance message_postcard : Postcard ChannelMessage := codec_postcard message_codec.
#[export] Instance message_postcard_ok : PostcardOk ChannelMessage.
Proof. by eapply codec_postcard_ok; [apply message_codec_ok|]. Qed.

#[export] Instance accepted_postcard : Postcard AcceptedSignal := codec_postcard accepted_codec.
#[export] Instance accepted_postcard_ok : PostcardOk AcceptedSignal.
Proof. by eapply codec_postcard_ok; [apply accepted_codec_ok|]. Qed.

#[export] Instance challenge_postcard : Postcard Challenge := codec_postcard challenge_codec.
#[export] Instance challenge_postcard_ok : PostcardOk Challenge.
Proof. by eapply codec_postcard_ok; [apply challenge_codec_ok|]. Qed.

#[export] Instance answer_postcard : Postcard ChallengeAnswer := codec_postcard answer_codec.
#[export] Instance answer_postcard_ok : PostcardOk ChallengeAnswer.
Proof. by eapply codec_postcard_ok; [apply answer_codec_ok|]. Qed.

End Wire.

(** ** The frame codec *)
Inductive CodecError :=
| TooLarge (len : Z)
| PostcardError.

#[global] Instance CodecError_eq_dec : EqDecision CodecError.
Proof. solve_decision. Defined.

(** [u32::to_be_bytes] and [u32::from_be_bytes]. *)
Definition to_be_bytes32 (n : Z) : bytes :=
  [n / 2 ^ 24 mod 256; n / 2 ^ 16 mod 256; n / 2 ^ 8 mod 256; n mod 256].

Arguments to_be_bytes32 : simpl never.

Definition from_be_bytes (b : bytes) : Z := foldl (λ acc x, acc * 256 + x) 0 b.

Definition version_supported (header : option str) : bool :=
  match s ← header; parse_uint 32 (trim s) with
  | Some v => v =? PROTOCOL_VERSION
  | None => false
  end.

(** [sha256] stands for [sha2::Sha256::digest]. *)
Definition cert_fingerprint (sha256 : bytes → bytes) (cert_der : bytes) : str :=
  foldl (λ s b, s ++ hex2 b) [] (sha256 cert_der).

Definition encode `{Postcard T} (msg : T) : result CodecError bytes :=
  body ← ok_or PostcardError (to_stdvec msg);
  if MAX_FRAME_LEN <? zlen body then Err (TooLarge (zlen body))
  else Ok (to_be_bytes32 (zlen body mod 2 ^ 32) ++ body).

Definition decode `{Postcard T} (body : bytes) : result CodecError T :=
  ok_or PostcardError (from_bytes body).

Definition parse_len (prefix : bytes) : result CodecError Z :=
  let len := from_be_bytes prefix in
  if MAX_FRAME_LEN <? len then Err (TooLarge len) else Ok len.

(** [take_frame(&mut buf)]: the result and the buffer it leaves. *)
Definition take_frame (buf : bytes) : result CodecError (option bytes) * bytes :=
  if zlen buf <? LEN_PREFIX then (Ok None, buf)
  else
    match parse_len (take (Z.to_nat LEN_PREFIX) buf) with
    | Err e => (Err e, buf)
    | Ok len =>
        if zlen buf <? LEN_PREFIX + len then (Ok None, buf)
        else
          let frame := take (Z.to_nat (LEN_PREFIX + len)) buf in
          (Ok (Some (drop (Z.to_nat LEN_PREFIX) frame)),
           drop (Z.to_nat (LEN_PREFIX + len)) buf)
    end.

(** ** Challenge headers *)
Definition encode_challenge `{Base64, Postcard Challenge} (challenge : Challenge) : option str :=
  b64_encode <$> to_stdvec challenge.

Definition decode_challenge `{Base64, Postcard Challenge} (value : str) : option Challenge :=
  bytes ← b64_decode (trim value); from_bytes bytes.

Definition encode_challenge_answer `{Base64, Postcard ChallengeAnswer}
    (answer : ChallengeAnswer) : option str :=
  b64_encode <$> to_stdvec answer.

Definition decode_challenge_answer `{Base64, Postcard ChallengeAnswer}
    (value : str) : option ChallengeAnswer :=
  bytes ← b64_decode (trim value); from_bytes bytes.

(** ** Framing lemmas *)
Lemma from_to_be_bytes32 n : in_u 32 n → from_be_bytes (to_be_bytes32 n) = n.
Proof.
  unfold in_u, from_be_bytes, to_be_bytes32. intros H. cbn [foldl].
  change (2 ^ 32) with 4294967296 in H. change (2 ^ 24) with 16777216.
  change (2 ^ 16) with 65536. change (2 ^ 8) with 256. zdiv_lia.
Qed.

Lemma length_be32 n : zlen (to_be_bytes32 n) = 4.
Proof. reflexivity. Qed.

(** The frame around a body, as [encode] writes it. *)
Definition frame (body : bytes) : bytes := to_be_bytes32 (zlen body) ++ body.

Lemma encode_Ok `{Postcard T} (m : T) f :
  encode m = Ok f ↔ ∃ body, to_stdvec m = Some body ∧ zlen body ≤ MAX_FRAME_LEN ∧ f = frame body.
Proof.
  unfold encode, frame. rewrite result_bind_Ok. split.
  - intros (body & Hb & E). destruct (to_stdvec m) as [b|]; simplify_eq/=.
    destruct (Z.ltb_spec MAX_FRAME_LEN (zlen body)); simplify_eq/=. exists body.
    split_and!; [done | done |]. rewrite (Z.mod_small (zlen body)); [done|].
    unfold MAX_FRAME_LEN in *. zlen_lia.
  - intros (body & Hb & Hl & ->). exists body. rewrite Hb. split; [done|].
    destruct (Z.ltb_spec MAX_FRAME_LEN (zlen body)); [lia|].
    rewrite (Z.mod_small (zlen body)); [done|]. unfold MAX_FRAME_LEN in *. zlen_lia.
Qed.

Lemma frame_len body : zlen (frame body) = LEN_PREFIX + zlen body.
Proof. unfold frame, LEN_PREFIX. rewrite zlen_app, length_be32. lia. Qed.

Lemma parse_len_be32 n : in_u 32 n → n ≤ MAX_FRAME_LEN → parse_len (to_be_bytes32 n) = Ok n.
Proof.
  intros Hn Hm. unfold parse_len. rewrite from_to_be_bytes32 by done.
  destruct (Z.ltb_spec MAX_FRAME_LEN n); [lia | done].
Qed.

Lemma frame_len_u32 (body : bytes) : zlen body ≤ MAX_FRAME_LEN → in_u 32 (zlen body).
Proof. unfold in_u, MAX_FRAME_LEN. change (2 ^ 32) with 4294967296. zlen_lia. Qed.

Lemma take_frame_frame (body rest : bytes) :
  zlen body ≤ MAX_FRAME_LEN → take_frame (frame body ++ rest) = (Ok (Some body), rest).
Proof.
  intros Hl. unfold take_frame.
  assert (zlen (frame body ++ rest) = LEN_PREFIX + zlen body + zlen rest) as E
    by (rewrite zlen_app, frame_len; lia).
  assert (0 ≤ LEN_PREFIX) as HL by done. rewrite E.
  destruct (Z.ltb_spec (LEN_PREFIX + zlen body + zlen rest) LEN_PREFIX); [zlen_lia|].
  unfold frame at 1. rewrite <- app_assoc, take_app_zlen by done.
  rewrite parse_len_be32 by auto using frame_len_u32.
  destruct (Z.ltb_spec (LEN_PREFIX + zlen body + zlen rest) (LEN_PREFIX + zlen body)); [zlen_lia|].
  rewrite take_app_zlen, drop_app_zlen by by rewrite frame_len.
  unfold frame. by rewrite drop_app_zlen.
Qed.

(** Too short for its own prefix or for the announced body: nothing is taken. *)
Lemma take_frame_partial (body p q : bytes) :
  zlen body ≤ MAX_FRAME_LEN → frame body = p ++ q → q ≠ [] → take_frame p = (Ok None, p).
Proof.
  intros Hl E Hq.
  assert (zlen p + zlen q = LEN_PREFIX + zlen body) as El by by rewrite <- zlen_app, <- E, frame_len.
  assert (0 < zlen q) as Hq0 by (destruct q; [done | zlen_lia]).
  unfold take_frame. destruct (Z.ltb_spec (zlen p) LEN_PREFIX); [done|].
  assert (take (Z.to_nat LEN_PREFIX) p = to_be_bytes32 (zlen body)) as ->.
  { unfold frame in E. apply (f_equal (take (Z.to_nat LEN_PREFIX))) in E.
    rewrite take_app_zlen in E by done. rewrite E.
    rewrite take_app_le; [done|]. unfold zlen, LEN_PREFIX in *. lia. }
  rewrite parse_len_be32 by auto using frame_len_u32.
  destruct (Z.ltb_spec (zlen p) (LEN_PREFIX + zlen body)); [done | lia].
Qed.

Lemma be32_from_be (b : bytes) : bytes_ok b → zlen b = 4 → to_be_bytes32 (from_be_bytes b) = b.
Proof.
  intros Hb Hl. unfold zlen in Hl.
  destruct b as [|b0 [|b1 [|b2 [|b3 [|]]]]]; simpl in Hl; try lia.
  unfold bytes_ok, is_u8 in Hb. rewrite !Forall_cons in Hb.
  unfold from_be_bytes, to_be_bytes32. cbn [foldl].
  change (2 ^ 24) with 16777216. change (2 ^ 16) with 65536. change (2 ^ 8) with 256.
  repeat f_equal; zdiv_lia.
Qed.

Lemma from_be_bytes_nonneg (b : bytes) : bytes_ok b → 0 ≤ from_be_bytes b.
Proof.
  unfold from_be_bytes. assert (∀ acc, 0 ≤ acc → bytes_ok b → 0 ≤ foldl (λ acc x, acc * 256 + x) acc b) as Hf.
  { induction b as [|x b IH]; intros acc Ha Hb; [done|]. simpl.
    apply bytes_ok_cons in Hb as [Hx Hb]. apply IH; [unfold is_u8 in Hx; lia|done]. }
  by apply Hf.
Qed.

(** What a taken frame is: the buffer was that frame followed by what is left. *)
Lemma take_frame_Some buf body rest :
  bytes_ok buf → take_frame buf = (Ok (Some body), rest) →
  buf = frame body ++ rest ∧ zlen body ≤ MAX_FRAME_LEN.
Proof.
  intros Hb. unfold take_frame. destruct (Z.ltb_spec (zlen buf) LEN_PREFIX); [done|].
  unfold parse_len. set (n := from_be_bytes (take (Z.to_nat LEN_PREFIX) buf)).
  destruct (Z.ltb_spec MAX_FRAME_LEN n); [done|].
  destruct (Z.ltb_spec (zlen buf) (LEN_PREFIX + n)); [done|]. intros [= <- <-].
  assert (to_be_bytes32 n = take (Z.to_nat LEN_PREFIX) buf) as En.
  { apply be32_from_be; [by apply Forall_take|]. apply zlen_take. unfold LEN_PREFIX in *. lia. }
  assert (0 ≤ n) as Hn0 by by apply from_be_bytes_nonneg, Forall_take.
  set (fr := take (Z.to_nat (LEN_PREFIX + n)) buf).
  assert (zlen fr = LEN_PREFIX + n) as Hfr by (apply zlen_take; unfold LEN_PREFIX in *; lia).
  assert (zlen (drop (Z.to_nat LEN_PREFIX) fr) = n) as Hd
    by (rewrite zlen_drop; unfold LEN_PREFIX in *; lia).
  split; [|lia]. unfold frame. rewrite Hd, En.
  assert (take (Z.to_nat LEN_PREFIX) buf = take (Z.to_nat LEN_PREFIX) fr) as ->.
  { unfold fr. rewrite take_take. f_equal. unfold LEN_PREFIX in *. lia. }
  rewrite take_drop. unfold fr. by rewrite take_drop.
Qed.

Lemma take_frame_Err buf e rest :
  take_frame buf = (Err e, rest) →
  rest = buf ∧ ∃ n, e = TooLarge n ∧ MAX_FRAME_LEN < n ∧
  LEN_PREFIX ≤ zlen buf ∧ n = from_be_bytes (take (Z.to_nat LEN_PREFIX) buf).
Proof.
  unfold take_frame, parse_len. destruct (Z.ltb_spec (zlen buf) LEN_PREFIX); [done|].
  destruct (Z.ltb_spec MAX_FRAME_LEN (from_be_bytes (take (Z.to_nat LEN_PREFIX) buf))).
  - intros [= <- <-]. split; [done|]. eauto.
  - by case_bool.
Qed.

Lemma take_frame_None buf rest : take_frame buf = (Ok None, rest) → rest = buf.
Proof.
  unfold take_frame. destruct (_ <? LEN_PREFIX); [congruence|].
  destruct (parse_len _); [|congruence]. by destruct (_ <? _); [intros [= <-]|].
Qed.

(** ** Theorems *)

(** A frame read back is the message that was sent. For every message of the
    type, the bytes [encode] produces are taken off the front of a receive
    buffer as one frame, leaving exactly what follows, and the body decodes to
    the message; while any byte of the frame is still missing, [take_frame]
    takes nothing and leaves the buffer as it is. *)
Theorem take_frame_encode `{PostcardOk T} (m : T) (f rest : bytes) :
  rust_ok m → encode m = Ok f →
  (∃ body, take_frame (f ++ rest) = (Ok (Some body), rest) ∧ decode body = Ok m)
  ∧ ∀ p q, f = p ++ q → q ≠ [] → take_frame p = (Ok None, p).
Proof.
  intros Hm (body & Hb & Hl & ->)%encode_Ok. split.
  - exists body. rewrite take_frame_frame by done. split; [done|].
    unfold decode. by rewrite (postcard_roundtrip m).
  - intros p q E Hq. by eapply take_frame_partial.
Qed.

Lemma take_frame_encode_witness :
  (∃ body, take_frame ([0; 0; 0; 5; 0; 3; 9; 8; 7] ++ [1; 2]) = (Ok (Some body), [1; 2])
     ∧ decode (H := Wire.message_postcard) body = Ok (Data [9; 8; 7]))
  ∧ ∀ p q, [0; 0; 0; 5; 0; 3; 9; 8; 7] = p ++ q → q ≠ [] → take_frame p = (Ok None, p).
Proof.
  apply (take_frame_encode (H1 := Wire.message_postcard_ok) (Data [9; 8; 7])).
  - by_dec.
  - vm_compute. done.
Defined.

(** [take_frame] on arbitrary bytes. A taken frame is exactly the prefix of the
    buffer it announces and its body is within the cap; when nothing is taken the
    buffer is untouched and too short for its prefix or for the announced body;
    an error is raised exactly for an announced length over the cap, with the
    buffer untouched. *)
Theorem take_frame_spec (buf : bytes) :
  bytes_ok buf →
  match take_frame buf with
  | (Ok (Some body), rest) => buf = frame body ++ rest ∧ zlen body ≤ MAX_FRAME_LEN
  | (Ok None, rest) =>
      rest = buf ∧
      (zlen buf < LEN_PREFIX ∨
       ∃ n, parse_len (take (Z.to_nat LEN_PREFIX) buf) = Ok n ∧ n ≤ MAX_FRAME_LEN ∧
            zlen buf < LEN_PREFIX + n)
  | (Err e, rest) =>
      rest = buf ∧ LEN_PREFIX ≤ zlen buf ∧
      e = TooLarge (from_be_bytes (take (Z.to_nat LEN_PREFIX) buf)) ∧
      MAX_FRAME_LEN < from_be_bytes (take (Z.to_nat LEN_PREFIX) buf)
  end.
Proof.
  intros Hb. destruct (take_frame buf) as [[[body|]|e] rest] eqn:E.
  - by apply take_frame_Some.
  - split; [by eapply take_frame_None|]. revert E. unfold take_frame.
    destruct (Z.ltb_spec (zlen buf) LEN_PREFIX); [by left|].
    destruct (parse_len (take (Z.to_nat LEN_PREFIX) buf)) as [n|] eqn:Ep; [|done].
    destruct (Z.ltb_spec (zlen buf) (LEN_PREFIX + n)); [|done]. intros _. right.
    exists n. split_and!; [done | | done]. revert Ep. unfold parse_len.
    by destruct (Z.ltb_spec MAX_FRAME_LEN (from_be_bytes (take (Z.to_nat LEN_PREFIX) buf)));
      [|intros [= <-]].
  - apply take_frame_Err in E as (-> & n & -> & Hn & Hl & ->). done.
Qed.

Lemma take_frame_spec_witness :
  match take_frame [0; 1; 0; 1; 7] with
  | (Err e, rest) => rest = [0; 1; 0; 1; 7] ∧ e = TooLarge 65537
  | _ => False
  end.
Proof.
  pose proof (take_frame_spec [0; 1; 0; 1; 7]
    ltac:(by_dec)) as H.
  vm_compute in H |- *. destruct H as (H1 & _ & H2 & _). done.
Defined.

(** Every challenge and every answer is encoded, and read back. *)
Lemma challenge_roundtrip `{Base64Ok} `{PostcardOk Challenge} (c : Challenge) :
  rust_ok c → ∃ v, encode_challenge c = Some v ∧ decode_challenge v = Some c.
Proof.
  intros Hc. unfold encode_challenge, decode_challenge. destruct (postcard_total c Hc) as [b E].
  rewrite E. eexists. split; [reflexivity|].
  rewrite b64_trim, b64_roundtrip by by apply (postcard_bytes c). by apply postcard_roundtrip.
Qed.

Lemma answer_roundtrip `{Base64Ok} `{PostcardOk ChallengeAnswer} (a : ChallengeAnswer) :
  rust_ok a → ∃ v, encode_challenge_answer a = Some v ∧ decode_challenge_answer v = Some a.
Proof.
  intros Ha. unfold encode_challenge_answer, decode_challenge_answer. destruct (postcard_total a Ha) as [b E].
  rewrite E. eexists. split; [reflexivity|].
  rewrite b64_trim, b64_roundtrip by by apply (postcard_bytes a). by apply postcard_roundtrip.
Qed.

(** The challenge and answer headers round-trip: whatever the server parks in
    a [quish-challenge] header the client decodes, and whatever the client answers
    the server decodes. Both sides encode every value of the type. *)
Theorem challenge_headers_roundtrip
    {b64 : Base64} {b64ok : Base64Ok}
    {pc : Postcard Challenge} {pcok : PostcardOk Challenge}
    {pa : Postcard ChallengeAnswer} {paok : PostcardOk ChallengeAnswer}
    (c : Challenge) (a : ChallengeAnswer) :
  rust_ok c → rust_ok a →
  (∃ v, encode_challenge c = Some v ∧ decode_challenge v = Some c) ∧
  (∃ v, encode_challenge_answer a = Some v ∧ decode_challenge_answer v = Some a).
Proof.
  intros Hc Ha. split; [by apply challenge_roundtrip | by apply answer_roundtrip].
Qed.

Lemma challenge_headers_roundtrip_witness :
  (∃ v, encode_challenge (H0 := Wire.challenge_postcard)
          {| ch_token := lit "opaque-token-123";
             prompts := [{| message := lit "TOTP code: "; echo := false |}] |} = Some v ∧
        decode_challenge (H0 := Wire.challenge_postcard) v =
          Some {| ch_token := lit "opaque-token-123";
                  prompts := [{| message := lit "TOTP code: "; echo := false |}] |}) ∧
  (∃ v, encode_challenge_answer (H0 := Wire.answer_postcard)
          {| ans_token := lit "opaque-token-123"; responses := [lit "123456"] |} = Some v ∧
        decode_challenge_answer (H0 := Wire.answer_postcard) v =
          Some {| ans_token := lit "opaque-token-123"; responses := [lit "123456"] |}).
Proof.
  apply (challenge_headers_roundtrip (pcok := Wire.challenge_postcard_ok)
           (paok := Wire.answer_postcard_ok)).
  - by_dec.
  - by_dec.
Defined.

(** ** The host fingerprint *)
Lemma hex_digit_inj a b : 0 ≤ a < 16 → 0 ≤ b < 16 → hex_digit a = hex_digit b → a = b.
Proof. unfold hex_digit. intros Ha Hb. repeat case_bool; lia. Qed.

Lemma hex2_inj a b : is_u8 a → is_u8 b → hex2 a = hex2 b → a = b.
Proof.
  unfold is_u8, hex2. intros Ha Hb [= H1 H2].
  apply hex_digit_inj in H1; [|zdiv_lia..]. apply hex_digit_inj in H2; [|zdiv_lia..]. zdiv_lia.
Qed.

Lemma fold_hex acc l : foldl (λ s b, s ++ hex2 b) acc l = acc ++ (l ≫= hex2).
Proof.
  revert acc. induction l as [|x l IH]; intros acc; simpl; [by rewrite app_nil_r|].
  by rewrite IH, <- app_assoc.
Qed.

Lemma cert_fingerprint_hex sha256 cert :
  cert_fingerprint sha256 cert = sha256 cert ≫= hex2.
Proof. unfold cert_fingerprint. by rewrite fold_hex. Qed.

Lemma hex_inj l1 l2 :
  bytes_ok l1 → bytes_ok l2 → l1 ≫= hex2 = l2 ≫= hex2 → l1 = l2.
Proof.
  intros H1. revert l2. induction H1 as [|x l1 Hx H1 IH]; intros [|y l2] H2; try done.
  apply bytes_ok_cons in H2 as [Hy H2]. rewrite !bind_cons. unfold hex2 at 1 3.
  cbn [app]. intros [= E1 E2 E3].
  assert (x = y) as -> by (apply hex2_inj; [done..|]; unfold hex2; congruence).
  f_equal. by apply IH.
Qed.

(** The characters of a fingerprint: lowercase hexadecimal digits. *)
Definition is_hex (c : Z) : Prop := 48 ≤ c ≤ 57 ∨ 97 ≤ c ≤ 102.

Lemma hex_digit_hex d : 0 ≤ d < 16 → is_hex (hex_digit d).
Proof. unfold hex_digit, is_hex. intros. case_bool; lia. Qed.

Lemma cert_fingerprint_chars sha256 cert :
  bytes_ok (sha256 cert) → Forall is_hex (cert_fingerprint sha256 cert).
Proof.
  rewrite cert_fingerprint_hex. induction 1 as [|x l Hx Hl IH]; [constructor|].
  unfold is_u8 in Hx. rewrite bind_cons. unfold hex2 at 1. cbn [app].
  repeat (constructor; [apply hex_digit_hex; zdiv_lia|]). done.
Qed.

(** The pin string is as strong as the digest. For any hash producing bytes,
    two certificates have the same fingerprint exactly when they have the same
    digest; the fingerprint is two lowercase hex digits per digest byte. *)
Theorem cert_fingerprint_faithful (sha256 : bytes → bytes) (c1 c2 : bytes) :
  (∀ c, bytes_ok (sha256 c)) →
  (cert_fingerprint sha256 c1 = cert_fingerprint sha256 c2 ↔ sha256 c1 = sha256 c2)
  ∧ zlen (cert_fingerprint sha256 c1) = 2 * zlen (sha256 c1)
  ∧ Forall is_hex (cert_fingerprint sha256 c1).
Proof.
  intros Hok. split_and!.
  - rewrite !cert_fingerprint_hex. split; [by apply hex_inj | by intros ->].
  - rewrite cert_fingerprint_hex. generalize (sha256 c1). intros l.
    induction l as [|x l IH]; [done|]. rewrite bind_cons, zlen_app, IH, zlen_cons.
    change (zlen (hex2 x)) with 2. lia.
  - by apply cert_fingerprint_chars.
Qed.

Lemma cert_fingerprint_faithful_witness :
  let toy (c : bytes) : bytes := [zlen c mod 256; 0xAB] in
  cert_fingerprint toy [1; 2; 3] = lit "03ab" ∧
  (cert_fingerprint toy [1; 2; 3] = cert_fingerprint toy [7] ↔ toy [1; 2; 3] = toy [7]).
Proof.
  split; [reflexivity|].
  apply (cert_fingerprint_faithful (λ c, [zlen c mod 256; 0xAB]) [1; 2; 3] [7]).
  intros c. repeat constructor; unfold is_u8; zdiv_lia.
Defined.
