(* ===== verification/Frames.v ===== *)
(** * Frame readers

    Models the reassembly of frames from HTTP/3 DATA chunks: the server's
    [FrameReader] and [spawn_frame_reader] ([quish-server/src/session.rs]), the
    client's [ChannelFrameReader] ([quish-client/src/main.rs]) and the reader task
    of [quish-client/src/terminal.rs].

    The receive half of a stream is what [recv_data] yields until it ends: a list
    of chunks, then a clean end, an [H3_NO_ERROR] or another error. The readers'
    loops run on the chunks; a task that reads frame after frame has fuel, one
    more than the bytes of the stream, and [messages_no_fuel] shows that it
    is never used up. *)
From S2P Require Import Prelude RustStr Postcard Base64 Proto.

Inductive RecvEnd := EndClean | EndNoError | EndError.

Record RecvHalf := { chunks : list bytes; fin : RecvEnd }.

Inductive ReadError :=
| ReadCodec (e : CodecError)
| ReadRecv.

(** One [recv_data]: a chunk, or how the stream ended. *)
Definition recv_data (recv : RecvHalf) : (bytes + RecvEnd) * RecvHalf :=
  match chunks recv with
  | c :: cs => (inl c, {| chunks := cs; fin := fin recv |})
  | [] => (inr (fin recv), recv)
  end.

Record FrameReader := { recv : RecvHalf; buf : bytes }.

Definition FrameReader_new (recv : RecvHalf) : FrameReader := {| recv := recv; buf := [] |}.

(** The loop of [next_frame], on the chunks still to come. *)
Fixpoint next_frame_loop (cs : list bytes) (fin : RecvEnd) (buf : bytes)
    : result ReadError (option bytes) * FrameReader :=
  match take_frame buf with
  | (Err e, buf') => (Err (ReadCodec e), {| recv := {| chunks := cs; fin := fin |}; buf := buf' |})
  | (Ok (Some body), buf') =>
      (Ok (Some body), {| recv := {| chunks := cs; fin := fin |}; buf := buf' |})
  | (Ok None, buf') =>
      match cs with
      | c :: cs' => next_frame_loop cs' fin (buf' ++ c)
      | [] =>
          (match fin with
           | EndClean | EndNoError => Ok None
           | EndError => Err ReadRecv
           end, {| recv := {| chunks := []; fin := fin |}; buf := buf' |})
      end
  end.

Definition next_frame (r : FrameReader) : result ReadError (option bytes) * FrameReader :=
  next_frame_loop (chunks (recv r)) (fin (recv r)) (buf r).

(** The bytes a reader has still to look at. *)
Definition pending (r : FrameReader) : bytes := buf r ++ concat (chunks (recv r)).

(** Why a reader task stopped. *)
Inductive Stop :=
| StopEnd
| StopError
| StopMalformed
| StopClosed
| OutOfFuel.

(** [quota] is how many sends the mpsc takes before its receiver is dropped. *)
Definition quota_left (q : option nat) : bool :=
  match q with Some O => false | _ => true end.

Definition quota_pred (q : option nat) : option nat :=
  match q with Some (S n) => Some n | _ => q end.

Section Reader.
Context `{Postcard ChannelMessage}.

(** The task of [spawn_frame_reader]: the messages sent into the mpsc, in order,
    and why the task ended. *)
Fixpoint frame_reader_loop (fuel : nat) (quota : option nat) (r : FrameReader)
    : list ChannelMessage * Stop :=
  match fuel with
  | O => ([], OutOfFuel)
  | S fuel' =>
      match next_frame r with
      | (Ok (Some body), r') =>
          match decode body with
          | Ok msg =>
              if quota_left quota then
                let '(ms, s) := frame_reader_loop fuel' (quota_pred quota) r' in (msg :: ms, s)
              else ([], StopClosed)
          | Err _ => ([], StopMalformed)
          end
      | (Ok None, _) => ([], StopEnd)
      | (Err _, _) => ([], StopError)
      end
  end.

Definition spawn_frame_reader (quota : option nat) (r : FrameReader)
    : list ChannelMessage * Stop :=
  frame_reader_loop (S (length (pending r))) quota r.

(** [ChannelFrameReader::next]: the next frame, decoded. *)
Definition channel_next (r : FrameReader) : result ReadError (option ChannelMessage) * FrameReader :=
  match next_frame r with
  | (Ok (Some body), r') =>
      (match decode body with Ok msg => Ok (Some msg) | Err e => Err (ReadCodec e) end, r')
  | (Ok None, r') => (Ok None, r')
  | (Err e, r') => (Err e, r')
  end.

(** The reader task of the client's terminal pump: one loop over both the buffer
    and the stream, any end of the stream being silent. [rounds] bounds the
    frames taken between two chunks. *)
Fixpoint terminal_drain (rounds : nat) (quota : option nat) (buf : bytes)
    : list ChannelMessage * (Stop + (option nat * bytes)) :=
  match rounds with
  | O => ([], inl OutOfFuel)
  | S rounds' =>
      match take_frame buf with
      | (Ok (Some body), buf') =>
          match decode body with
          | Ok msg =>
              if quota_left quota then
                let '(ms, s) := terminal_drain rounds' (quota_pred quota) buf' in (msg :: ms, s)
              else ([], inl StopClosed)
          | Err _ => ([], inl StopMalformed)
          end
      | (Ok None, buf') => ([], inr (quota, buf'))
      | (Err _, _) => ([], inl StopError)
      end
  end.

Fixpoint terminal_reader_loop (cs : list bytes) (fin : RecvEnd) (quota : option nat) (buf : bytes)
    : list ChannelMessage * Stop :=
  match terminal_drain (S (length buf)) quota buf with
  | (ms, inl s) => (ms, s)
  | (ms, inr (quota', buf')) =>
      match cs with
      | c :: cs' =>
          let '(ms', s) := terminal_reader_loop cs' fin quota' (buf' ++ c) in (ms ++ ms', s)
      | [] => (ms, match fin with EndError => StopError | _ => StopEnd end)
      end
  end.

Definition terminal_spawn_frame_reader (quota : option nat) (recv : RecvHalf)
    : list ChannelMessage * Stop :=
  terminal_reader_loop (chunks recv) (fin recv) quota [].

End Reader.

(** ** The reference: the messages of a byte string

    One pass over the whole stream, with no chunks and no buffer. *)
Section Reference.
Context `{Postcard ChannelMessage}.

Definition end_stop (fin : RecvEnd) : Stop :=
  match fin with EndError => StopError | _ => StopEnd end.

Fixpoint messages_loop (fuel : nat) (fin : RecvEnd) (quota : option nat) (s : bytes)
    : list ChannelMessage * Stop :=
  match fuel with
  | O => ([], OutOfFuel)
  | S fuel' =>
      match take_frame s with
      | (Ok (Some body), rest) =>
          match decode body with
          | Ok msg =>
              if quota_left quota then
                let '(ms, e) := messages_loop fuel' fin (quota_pred quota) rest in (msg :: ms, e)
              else ([], StopClosed)
          | Err _ => ([], StopMalformed)
          end
      | (Ok None, _) => ([], end_stop fin)
      | (Err _, _) => ([], StopError)
      end
  end.

Definition messages (fin : RecvEnd) (quota : option nat) (s : bytes)
    : list ChannelMessage * Stop :=
  messages_loop (S (length s)) fin quota s.

(** *** One frame at a time *)
Lemma take_frame_app_Some buf more body rest :
  bytes_ok buf → take_frame buf = (Ok (Some body), rest) →
  take_frame (buf ++ more) = (Ok (Some body), rest ++ more).
Proof.
  intros Hb E. apply take_frame_Some in E as [-> Hl]; [|done].
  rewrite <- app_assoc. by apply take_frame_frame.
Qed.

Lemma take_frame_app_Err buf more e rest :
  take_frame buf = (Err e, rest) → ∃ rest', take_frame (buf ++ more) = (Err e, rest').
Proof.
  intros (-> & n & -> & Hn & Hl & ->)%take_frame_Err. unfold take_frame, parse_len.
  destruct (Z.ltb_spec (zlen (buf ++ more)) LEN_PREFIX); [zlen_lia|].
  rewrite take_app_le by (unfold zlen, LEN_PREFIX in *; lia).
  destruct (Z.ltb_spec MAX_FRAME_LEN (from_be_bytes (take (Z.to_nat LEN_PREFIX) buf))); [|lia].
  by eexists.
Qed.

Lemma take_frame_shrinks s body rest :
  bytes_ok s → take_frame s = (Ok (Some body), rest) →
  bytes_ok rest ∧ (length rest < length s)%nat.
Proof.
  intros Hb E. apply take_frame_Some in E as [-> Hl]; [|done].
  apply bytes_ok_app in Hb as [_ Hr]. split; [done|].
  pose proof (frame_len body) as Hf. rewrite length_app.
  unfold zlen, LEN_PREFIX in *. lia.
Qed.

(** [next_frame] sees the frame at the front of the pending bytes, however they
    are cut into chunks. *)
Lemma next_frame_pending r :
  bytes_ok (pending r) →
  match take_frame (pending r) with
  | (Ok (Some body), rest) =>
      ∃ r', next_frame r = (Ok (Some body), r') ∧ pending r' = rest ∧ fin (recv r') = fin (recv r)
  | (Ok None, _) =>
      ∃ r', next_frame r =
        (match fin (recv r) with EndError => Err ReadRecv | _ => Ok None end, r')
  | (Err e, _) => ∃ r', next_frame r = (Err (ReadCodec e), r')
  end.
Proof.
  destruct r as [[cs fi] b]. unfold pending, next_frame. simpl. revert b.
  induction cs as [|c cs IH]; intros b Hb; cbn [concat next_frame_loop] in *.
  - rewrite app_nil_r in *. destruct (take_frame b) as [[[body|]|e] rest] eqn:E.
    + eexists. split; [done|]. simpl. by rewrite app_nil_r.
    + by destruct fi; eexists.
    + by eexists.
  - assert (bytes_ok b) as Hb' by by apply bytes_ok_app in Hb as [? _].
    destruct (take_frame b) as [[[body|]|e] rest] eqn:E.
    + erewrite take_frame_app_Some by done. by eexists.
    + apply take_frame_None in E as ->. rewrite app_assoc in Hb |- *. by apply IH.
    + apply (take_frame_app_Err _ (c ++ concat cs)) in E as [rest' ->]. by eexists.
Qed.

(** *** The reference does not depend on its fuel *)
Lemma messages_loop_fuel fuel1 fuel2 fi q s :
  bytes_ok s → (length s < fuel1)%nat → (length s < fuel2)%nat →
  messages_loop fuel1 fi q s = messages_loop fuel2 fi q s.
Proof.
  revert fuel2 q s. induction fuel1 as [|f1 IH]; intros [|f2] q s Hb H1 H2; try lia.
  simpl. destruct (take_frame s) as [[[body|]|e] rest] eqn:E; [|done|done].
  destruct (decode body); [|done]. destruct (quota_left q); [|done].
  apply take_frame_shrinks in E as [Hr Hl]; [|done].
  by rewrite (IH f2) by (done || lia).
Qed.

Lemma messages_unfold fi q s :
  bytes_ok s →
  messages fi q s =
    match take_frame s with
    | (Ok (Some body), rest) =>
        match decode body with
        | Ok msg =>
            if quota_left q then
              let '(ms, e) := messages fi (quota_pred q) rest in (msg :: ms, e)
            else ([], StopClosed)
        | Err _ => ([], StopMalformed)
        end
    | (Ok None, _) => ([], end_stop fi)
    | (Err _, _) => ([], StopError)
    end.
Proof.
  intros Hb. unfold messages at 1. cbn [messages_loop].
  destruct (take_frame s) as [[[body|]|e] rest] eqn:E; [|done|done].
  destruct (decode body); [|done]. destruct (quota_left q); [|done].
  apply take_frame_shrinks in E as [Hr Hl]; [|done].
  unfold messages. by rewrite (messages_loop_fuel (length s) (S (length rest))) by (done || lia).
Qed.

Lemma messages_no_fuel fi q s : bytes_ok s → (messages fi q s).2 ≠ OutOfFuel.
Proof.
  remember (length s) as n eqn:En. revert q s En.
  induction n as [n IH] using lt_wf_ind. intros q s -> Hb. rewrite messages_unfold by done.
  destruct (take_frame s) as [[[body|]|e] rest] eqn:E; [|by destruct fi|done].
  destruct (decode body); [|done]. destruct (quota_left q); [|done].
  apply take_frame_shrinks in E as [Hr Hl]; [|done].
  specialize (IH _ Hl (quota_pred q) rest eq_refl Hr).
  by destruct (messages fi (quota_pred q) rest).
Qed.

(** *** The readers compute the reference *)
Lemma frame_reader_loop_ref fuel q r :
  bytes_ok (pending r) → (length (pending r) < fuel)%nat →
  frame_reader_loop fuel q r = messages (fin (recv r)) q (pending r).
Proof.
  revert q r. induction fuel as [|f IH]; intros q r Hb Hf; [lia|].
  cbn [frame_reader_loop]. rewrite messages_unfold by done.
  pose proof (next_frame_pending r Hb) as Hn.
  destruct (take_frame (pending r)) as [[[body|]|e] rest] eqn:E.
  - destruct Hn as (r' & -> & Hp & Hfi). destruct (decode body); [|done].
    destruct (quota_left q); [|done].
    apply take_frame_shrinks in E as [Hr Hl]; [|done].
    rewrite IH by (rewrite Hp; (done || lia)). by rewrite Hp, Hfi.
  - destruct Hn as (r' & ->). by destruct (fin (recv r)).
  - by destruct Hn as (r' & ->).
Qed.

Lemma spawn_frame_reader_ref q r :
  bytes_ok (pending r) → spawn_frame_reader q r = messages (fin (recv r)) q (pending r).
Proof. intros Hb. apply frame_reader_loop_ref; [done | lia]. Qed.

Lemma terminal_drain_ref rounds fi q b more :
  bytes_ok (b ++ more) → (length b < rounds)%nat →
  match terminal_drain rounds q b with
  | (ms, inl s) => messages fi q (b ++ more) = (ms, s)
  | (ms, inr (q', b')) =>
      bytes_ok (b' ++ more) ∧ take_frame b' = (Ok None, b') ∧
      messages fi q (b ++ more) =
        (ms ++ (messages fi q' (b' ++ more)).1, (messages fi q' (b' ++ more)).2)
  end.
Proof.
  revert q b. induction rounds as [|n IH]; intros q b Hb Hr; [lia|].
  assert (bytes_ok b) as Hb1 by by apply bytes_ok_app in Hb as [? _].
  assert (bytes_ok more) as Hb2 by by apply bytes_ok_app in Hb as [_ ?].
  cbn [terminal_drain]. destruct (take_frame b) as [[[body|]|e] rest] eqn:E.
  - pose proof (take_frame_app_Some _ more _ _ Hb1 E) as E'.
    apply take_frame_shrinks in E as [Hrest Hl]; [|done].
    rewrite (messages_unfold fi q (b ++ more)), E' by done.
    destruct (decode body); [|done]. destruct (quota_left q); [|done].
    specialize (IH (quota_pred q) rest ltac:(by apply bytes_ok_app) ltac:(lia)).
    destruct (terminal_drain n (quota_pred q) rest) as [ms [s|[q' b']]].
    + by rewrite IH.
    + destruct IH as (Hok & Ht & ->). done.
  - pose proof E as E'. apply take_frame_None in E' as ->. split_and!; [done | done |].
    by destruct (messages fi q (b ++ more)).
  - apply (take_frame_app_Err _ more) in E as [rest' E].
    rewrite messages_unfold, E by done. done.
Qed.

Lemma terminal_reader_loop_ref cs fi q b :
  bytes_ok (b ++ concat cs) →
  terminal_reader_loop cs fi q b = messages fi q (b ++ concat cs).
Proof.
  revert q b. induction cs as [|c cs IH]; intros q b Hb; cbn [terminal_reader_loop concat] in *.
  - pose proof (terminal_drain_ref (S (length b)) fi q b [] Hb ltac:(lia)) as Hd.
    destruct (terminal_drain _ q b) as [ms [s|[q' b']]]; [done|].
    destruct Hd as (Hok & Ht & ->). rewrite app_nil_r in *.
    rewrite messages_unfold, Ht by done. cbn [fst snd]. by rewrite app_nil_r.
  - pose proof (terminal_drain_ref (S (length b)) fi q b (c ++ concat cs) Hb ltac:(lia)) as Hd.
    destruct (terminal_drain _ q b) as [ms [s|[q' b']]]; [done|].
    destruct Hd as (Hok & Ht & ->). rewrite app_assoc in Hok. rewrite IH by done.
    rewrite <- app_assoc. by destruct (messages fi q' (b' ++ c ++ concat cs)).
Qed.

End Reference.

(** ** Theorems *)
Lemma be32_ok n : bytes_ok (to_be_bytes32 n).
Proof. repeat constructor; unfold is_u8; apply Z.mod_pos_bound; done. Qed.

Lemma encode_bytes_ok `{PostcardOk T} (m : T) f : rust_ok m → encode m = Ok f → bytes_ok f.
Proof.
  intros Hm (body & Hb & _ & ->)%encode_Ok. apply bytes_ok_app.
  split; [apply be32_ok | by eapply (postcard_bytes m)].
Qed.

Lemma encodes_bytes_ok `{PostcardOk T} (ms : list T) fs :
  Forall rust_ok ms → Forall2 (λ m f, encode m = Ok f) ms fs → bytes_ok (concat fs).
Proof.
  intros Hm. induction 1 as [|m f ms fs Hf Hfs IH]; [constructor|].
  inversion Hm; subst. simpl. apply bytes_ok_app. split; [by eapply encode_bytes_ok | by apply IH].
Qed.

(** Reading a prefix [s] of the frames of [ms] yields a prefix of [ms]. *)
Lemma messages_prefix `{PostcardOk ChannelMessage} ms fs s cut :
  Forall rust_ok ms → Forall2 (λ m f, encode m = Ok f) ms fs → s ++ cut = concat fs →
  ∃ k, messages EndClean None s = (take k ms, StopEnd) ∧ (cut = [] → k = length ms).
Proof.
  intros Hm Hf. revert s. pose proof (encodes_bytes_ok _ _ Hm Hf) as Hb.
  induction Hf as [|m f ms fs Hf Hfs IH]; intros s E.
  { apply app_nil in E as [-> ->]. exists 0%nat. done. }
  inversion Hm; subst. simpl in Hb, E. apply bytes_ok_app in Hb as [Hb1 Hb2].
  assert (bytes_ok s) as Hs.
  { assert (bytes_ok (s ++ cut)) as Hsc by (rewrite E; by apply bytes_ok_app).
    by apply bytes_ok_app in Hsc as [? _]. }
  apply encode_Ok in Hf as (body & Hbody & Hl & ->).
  assert (∀ s', bytes_ok (frame body ++ s') → s' ++ cut = concat fs →
    ∃ k, messages EndClean None (frame body ++ s') = (take k (m :: ms), StopEnd) ∧
         (cut = [] → k = length (m :: ms))) as Hcons.
  { intros s' Hs' E'. rewrite messages_unfold, take_frame_frame by done. unfold decode.
    rewrite (postcard_roundtrip m) by done. cbn [ok_or quota_left quota_pred].
    destruct (IH ltac:(done) Hb2 s' E') as (k & -> & Hk).
    exists (S k). split; [done|]. intros Hc. simpl. f_equal. auto. }
  apply app_eq_inv in E as [(s' & -> & Es)|(q & Ef & Es)]; [by apply Hcons|].
  destruct (decide (q = [])) as [->|Hq].
  - rewrite app_nil_r in Ef. subst s. rewrite <- (app_nil_r (frame body)) in Hs |- *.
    by apply Hcons.
  - rewrite messages_unfold, (take_frame_partial body s q) by done. exists 0%nat.
    split; [done|]. intros ->. destruct Hq. by destruct q.
Qed.

(** The chunking of a stream is invisible. However the transport cuts the
    same bytes into DATA chunks, the server's reader task delivers the same
    messages, for the same reason of stopping; the client's reader task delivers
    exactly what the server's does; and both stop by themselves, within their
    fuel. *)
Theorem reader_chunking `{Postcard ChannelMessage} (cs1 cs2 : list bytes) (fi : RecvEnd)
    (quota : option nat) :
  concat cs1 = concat cs2 → bytes_ok (concat cs1) →
  let r cs := FrameReader_new {| chunks := cs; fin := fi |} in
  spawn_frame_reader quota (r cs1) = spawn_frame_reader quota (r cs2) ∧
  terminal_spawn_frame_reader quota {| chunks := cs1; fin := fi |} =
    spawn_frame_reader quota (r cs1) ∧
  (spawn_frame_reader quota (r cs1)).2 ≠ OutOfFuel.
Proof.
  intros E Hb r.
  assert (∀ cs, pending (r cs) = concat cs) as Hp by done.
  rewrite !spawn_frame_reader_ref by (rewrite Hp; by rewrite <- ?E).
  rewrite !Hp, <- E. split_and!; [done | | by apply messages_no_fuel].
  by apply (terminal_reader_loop_ref cs1 fi quota []).
Qed.

Lemma reader_chunking_witness :
  let r cs := FrameReader_new {| chunks := cs; fin := EndClean |} in
  let p := Wire.message_postcard in
  spawn_frame_reader None (r [[0; 0]; [0; 3; 0; 1]; [9]]) =
    spawn_frame_reader None (r [[0; 0; 0; 3; 0; 1; 9]]) ∧
  spawn_frame_reader None (r [[0; 0]; [0; 3; 0; 1]; [9]]) = ([Data [9]], StopEnd).
Proof.
  split; [|reflexivity].
  apply (reader_chunking (H := Wire.message_postcard)
           [[0; 0]; [0; 3; 0; 1]; [9]] [[0; 0; 0; 3; 0; 1; 9]] EndClean None eq_refl).
  by_dec.
Defined.

(** C37: a channel delivers what was sent. When a peer sends messages as frames and
    the transport delivers the bytes in any chunks, cut short at any point, the
    reader delivers, in order, a prefix of the messages and nothing else, then
    reports a clean end; when nothing is cut off, it delivers all of them. *)
Theorem channel_delivers {p : Postcard ChannelMessage} {pok : PostcardOk ChannelMessage}
    (ms : list ChannelMessage) (fs cs : list bytes) (cut : bytes) :
  Forall rust_ok ms → Forall2 (λ m f, encode m = Ok f) ms fs →
  concat cs ++ cut = concat fs →
  ∃ k, spawn_frame_reader None (FrameReader_new {| chunks := cs; fin := EndClean |})
         = (take k ms, StopEnd) ∧ (cut = [] → take k ms = ms).
Proof.
  intros Hm Hf E. destruct (messages_prefix ms fs (concat cs) cut Hm Hf E) as (k & Hk & Hc).
  exists k. split.
  - rewrite spawn_frame_reader_ref; [done|].
    pose proof (encodes_bytes_ok _ _ Hm Hf) as Hb. rewrite <- E in Hb.
    by apply bytes_ok_app in Hb as [? _].
  - intros ->. apply firstn_all2. rewrite Hc by done. lia.
Qed.

Lemma channel_delivers_witness :
  ∃ k, spawn_frame_reader (H := Wire.message_postcard) None
         (FrameReader_new {| chunks := [[0; 0; 0; 3; 0]; [1; 9; 0; 0; 0; 2; 3]]; fin := EndClean |})
       = (take k [Data [9]; ExitStatus 0], StopEnd) ∧
       ([0] = [] → take k [Data [9]; ExitStatus 0] = [Data [9]; ExitStatus 0]).
Proof.
  apply (channel_delivers (pok := Wire.message_postcard_ok) [Data [9]; ExitStatus 0]
           [[0; 0; 0; 3; 0; 1; 9]; [0; 0; 0; 2; 3; 0]]).
  - repeat (apply Forall_cons; split; [by_dec|]). apply Forall_nil; done.
  - repeat constructor.
  - reflexivity.
Defined.
