(* ===== verification/RateLimit.v ===== *)
(** * RateLimit: per-source connection cap and authentication backoff

    [quish-server/src/ratelimit.rs]. The map behind the mutex is a [gmap]; each
    method is one atomic transition of it, taking the clock readings it makes.
    The [ConnGuard]s alive in the worker are tracked beside the limiter, and
    the interleavings of the methods are the step relation [step]. *)
From S2P Require Import Prelude Net.

Module RateLimit.

Definition ENTRY_TTL : Z := secs 600.

Record Entry := mkEntry { conns : Z; fails : Z; last_seen : Z }.

Definition Entry_new (now : Z) : Entry := mkEntry 0 0 now.

Record RateLimiter := mkLimiter {
  inner : gmap IpAddr Entry;
  max_conns_per_ip : Z;
  base_backoff : Z;
  max_backoff : Z;
}.

Definition new (max_conns base maxb : Z) : RateLimiter := mkLimiter ∅ max_conns base maxb.

Definition RateLimiter_default : RateLimiter := new 32 (millis 200) (secs 30).

Definition set_inner (m : gmap IpAddr Entry) (l : RateLimiter) : RateLimiter :=
  mkLimiter m (max_conns_per_ip l) (base_backoff l) (max_backoff l).

(** A guard is determined by the address it releases: the limiter it points to
    is the shared one. *)
Record ConnGuard := mkGuard { guard_ip : IpAddr }.

(** [map.retain(..)] of [admit_ip]. *)
Definition keep (now : Z) (kv : IpAddr * Entry) : Prop :=
  0 < conns kv.2 ∨ since now (last_seen kv.2) < ENTRY_TTL.

#[global] Instance keep_dec now kv : Decision (keep now kv).
Proof. unfold keep. apply _. Defined.

Definition sweep (now : Z) (m : gmap IpAddr Entry) : gmap IpAddr Entry :=
  filter (keep now) m.

(** [now] is the reading [admit_ip] makes; [now'] the one [Entry::new] makes when
    the address has no entry. *)
Definition admit_ip (ip : IpAddr) (now now' : Z) (l : RateLimiter) : option ConnGuard * RateLimiter :=
  let m := sweep now (inner l) in
  let entry := default (Entry_new now') (m !! ip) in
  if max_conns_per_ip l <=? conns entry then (None, set_inner (<[ip := entry]> m) l)
  else (Some (mkGuard ip),
        set_inner (<[ip := mkEntry (conns entry + 1) (fails entry) now]> m) l).

Definition backoff (ip : IpAddr) (l : RateLimiter) : Z :=
  let f := default 0 (fails <$> inner l !! ip) in
  if f =? 0 then 0
  else
    let shift := Z.min (f - 1) 16 in
    Z.min (dur_sat_mul (base_backoff l) (Z.shiftl 1 shift)) (max_backoff l).

Definition record_failure (ip : IpAddr) (now : Z) (l : RateLimiter) : RateLimiter :=
  let entry := default (Entry_new now) (inner l !! ip) in
  set_inner (<[ip := mkEntry (conns entry) (sat_add 32 (fails entry) 1) now]> (inner l)) l.

Definition record_success (ip : IpAddr) (now : Z) (l : RateLimiter) : RateLimiter :=
  match inner l !! ip with
  | Some entry => set_inner (<[ip := mkEntry (conns entry) 0 now]> (inner l)) l
  | None => l
  end.

Definition drop_guard (g : ConnGuard) (now : Z) (l : RateLimiter) : RateLimiter :=
  match inner l !! guard_ip g with
  | Some entry =>
      set_inner (<[guard_ip g := mkEntry (sat_sub (conns entry) 1) (fails entry) now]> (inner l)) l
  | None => l
  end.

(** ** The worker's use of the limiter

    Any interleaving of accepts, authentication outcomes and guard drops; a
    guard is dropped at most once, and only after it was handed out. *)
Record sys := mkSys { limiter : RateLimiter; guards : list ConnGuard }.

#[global] Instance guard_eq_dec : EqDecision ConnGuard.
Proof. solve_decision. Defined.

Inductive event :=
| EvAdmit (ip : IpAddr) (now now' : Z)
| EvDrop (g : ConnGuard) (now : Z)
| EvFailure (ip : IpAddr) (now : Z)
| EvSuccess (ip : IpAddr) (now : Z).

Inductive step : event → sys → sys → Prop :=
| step_admitted ip now now' l gs g l' :
    admit_ip ip now now' l = (Some g, l') →
    step (EvAdmit ip now now') (mkSys l gs) (mkSys l' (g :: gs))
| step_refused ip now now' l gs l' :
    admit_ip ip now now' l = (None, l') →
    step (EvAdmit ip now now') (mkSys l gs) (mkSys l' gs)
| step_drop g now l gs1 gs2 :
    step (EvDrop g now) (mkSys l (gs1 ++ g :: gs2)) (mkSys (drop_guard g now l) (gs1 ++ gs2))
| step_failure ip now l gs :
    step (EvFailure ip now) (mkSys l gs) (mkSys (record_failure ip now l) gs)
| step_success ip now l gs :
    step (EvSuccess ip now) (mkSys l gs) (mkSys (record_success ip now l) gs).

Inductive steps : list event → sys → sys → Prop :=
| steps_nil s : steps [] s s
| steps_cons e es s1 s2 s3 : step e s1 s2 → steps es s2 s3 → steps (e :: es) s1 s3.

(** The connections of [ip] that are alive. *)
Definition live (ip : IpAddr) (gs : list ConnGuard) : Z :=
  zlen (filter (λ g, guard_ip g = ip) gs).

Definition count (ip : IpAddr) (l : RateLimiter) : Z := default 0 (conns <$> inner l !! ip).

(** The limiter counts exactly the live guards, and never more than the cap. *)
Definition inv (s : sys) : Prop :=
  ∀ ip, count ip (limiter s) = live ip (guards s) ∧ live ip (guards s) ≤ max_conns_per_ip (limiter s).

(** ** Lemmas *)
Lemma live_cons ip g gs : live ip (g :: gs) = (if decide (guard_ip g = ip) then 1 else 0) + live ip gs.
Proof. unfold live. rewrite filter_cons. case_decide; zlen_lia. Qed.

Lemma live_app ip gs1 gs2 : live ip (gs1 ++ gs2) = live ip gs1 + live ip gs2.
Proof. unfold live. rewrite filter_app. zlen_lia. Qed.

Lemma live_nonneg ip gs : 0 ≤ live ip gs.
Proof. unfold live. apply zlen_nonneg. Qed.
#[local] Hint Resolve live_nonneg : quish.

(** Sweeping removes no connection count: an entry it drops counts none. *)
Lemma sweep_count ip now m :
  (∀ e, m !! ip = Some e → 0 ≤ conns e) →
  default 0 (conns <$> sweep now m !! ip) = default 0 (conns <$> m !! ip).
Proof.
  intros Hm. unfold sweep. destruct (filter (keep now) m !! ip) as [e|] eqn:E.
  - apply map_lookup_filter_Some in E as [-> _]. done.
  - apply map_lookup_filter_None in E as [->|E]; [done|].
    destruct (m !! ip) as [e|] eqn:Em; [|done]. specialize (Hm e eq_refl).
    specialize (E e eq_refl). unfold keep in E. simpl in *. lia.
Qed.

Lemma inv_conns_nonneg s ip e : inv s → inner (limiter s) !! ip = Some e → 0 ≤ conns e.
Proof.
  intros Hi He. destruct (Hi ip) as [Hc _]. unfold count in Hc. rewrite He in Hc. simpl in Hc.
  pose proof (live_nonneg ip (guards s)). lia.
Qed.

Lemma count_insert ip ip' e m l :
  count ip (set_inner (<[ip' := e]> m) l) =
    if decide (ip' = ip) then conns e else default 0 (conns <$> m !! ip).
Proof.
  unfold count. simpl. case_decide; subst; [by rewrite lookup_insert_eq|].
  by rewrite lookup_insert_ne.
Qed.

(** What [admit_ip] decides, and the count it leaves, in a consistent state. *)
Lemma admit_count ip now now' s :
  inv s →
  let '(g, l') := admit_ip ip now now' (limiter s) in
  (g = if live ip (guards s) <? max_conns_per_ip (limiter s) then Some (mkGuard ip) else None) ∧
  max_conns_per_ip l' = max_conns_per_ip (limiter s) ∧
  ∀ ip', count ip' l' = live ip' (match g with Some g => g :: guards s | None => guards s end).
Proof.
  intros Hi. pose proof (λ ip', sweep_count ip' now (inner (limiter s)) (λ e, inv_conns_nonneg s ip' e Hi)) as Hsw.
  unfold admit_ip. set (m := sweep now _) in *. set (e := default _ (m !! ip)).
  assert (conns e = live ip (guards s)) as He.
  { rewrite <- (proj1 (Hi ip)). unfold count. rewrite <- Hsw. subst e. by destruct (m !! ip). }
  rewrite He. case_bool; case_bool; try lia; split_and!; try done; intros ip';
    rewrite count_insert, ?live_cons; simpl; case_decide; subst; try lia;
    rewrite Hsw; apply Hi.
Qed.

(** The same decision, when the connections alive are below the cap. *)
Lemma inv_step e s s' : inv s → step e s s' → inv s'.
Proof.
  intros Hi Hs.
  assert (∀ ip now, inv (mkSys (record_failure ip now (limiter s)) (guards s))) as Hf.
  { intros ip now ip'. destruct (Hi ip') as [H1 H2]. split; [|done].
    unfold record_failure. simpl. rewrite count_insert. case_decide; subst; [|done].
    rewrite <- H1. unfold count. by destruct (_ !! ip'). }
  assert (∀ ip now, inv (mkSys (record_success ip now (limiter s)) (guards s))) as Hsu.
  { intros ip now ip'. destruct (Hi ip') as [H1 H2]. unfold record_success.
    destruct (inner (limiter s) !! ip) as [e'|] eqn:E; [|done]. split; [|done].
    simpl. rewrite count_insert. case_decide; subst; [|done].
    rewrite <- H1. unfold count. by rewrite E. }
  destruct Hs as [ip now now' l gs g l' Ha|ip now now' l gs l' Ha|g now l gs1 gs2|ip now l gs|ip now l gs];
    [| | |by apply Hf|by apply Hsu]; clear Hf Hsu; intros ip'; pose proof (Hi ip') as [H1 H2].
  - pose proof (admit_count ip now now' _ Hi) as Hc. simpl in *. rewrite Ha in Hc.
    destruct Hc as (Hg & -> & Hc). rewrite Hc. split; [done|].
    destruct (Z.ltb_spec (live ip gs) (max_conns_per_ip l)); simplify_eq.
    rewrite live_cons. simpl. case_decide; subst; lia.
  - pose proof (admit_count ip now now' _ Hi) as Hc. simpl in *. rewrite Ha in Hc.
    destruct Hc as (Hg & -> & Hc). by rewrite Hc.
  - simpl in *. unfold drop_guard. rewrite live_app, live_cons in H1, H2.
    pose proof (live_nonneg ip' gs1). pose proof (live_nonneg ip' gs2).
    destruct (inner l !! guard_ip g) as [e'|] eqn:E; simpl.
    + rewrite live_app, count_insert. simpl. unfold count in H1. case_decide; subst; [|lia].
      rewrite E in H1. simpl in H1. unfold sat_sub. lia.
    + rewrite live_app. case_decide; [|lia]. subst. unfold count in H1. rewrite E in H1.
      simpl in H1. lia.
Qed.

Lemma inv_steps es s s' : steps es s s' → inv s → inv s'.
Proof. induction 1 as [|e es s1 s2 s3 Hs _ IH]; eauto using inv_step. Qed.

Lemma inv_new max_conns base maxb : 0 ≤ max_conns → inv (mkSys (new max_conns base maxb) []).
Proof. intros ? ip. split; simpl; [done|done]. Qed.

(** No method changes the tunables. *)
Definition params (l : RateLimiter) : Z * Z * Z :=
  (max_conns_per_ip l, base_backoff l, max_backoff l).

Lemma params_step e s s' : step e s s' → params (limiter s') = params (limiter s).
Proof.
  destruct 1 as [???????? Ha|??????? Ha| | |]; simpl;
    unfold admit_ip, drop_guard, record_success in *; repeat destruct_match; by simplify_eq.
Qed.

Lemma params_steps es s s' : steps es s s' → params (limiter s') = params (limiter s).
Proof.
  induction 1 as [|e es s1 s2 s3 Hs _ IH]; [done|]. by rewrite IH, (params_step _ _ _ Hs).
Qed.

(** C34: the connection cap is exact. Whatever interleaving of accepts,
    authentication outcomes, sweeps and connection ends the worker has been
    through, and whatever its clock read, an address never holds more live
    connections than the cap, and the next accept from it is admitted exactly
    when it holds fewer: no slot leaks, none is released twice, and the lazy
    sweep forgets no live connection. *)
Theorem connection_cap_exact (max_conns base maxb : Z) (es : list event) (s : sys)
    (ip : IpAddr) (now now' : Z) :
  0 ≤ max_conns →
  steps es (mkSys (new max_conns base maxb) []) s →
  live ip (guards s) ≤ max_conns ∧
  (is_Some (admit_ip ip now now' (limiter s)).1 ↔ live ip (guards s) < max_conns).
Proof.
  intros Hm Hs. pose proof (params_steps _ _ _ Hs) as Hp. injection Hp as Hmax _ _. simpl in Hmax.
  pose proof (inv_steps _ _ _ Hs (inv_new _ base maxb Hm)) as Hi.
  pose proof (admit_count ip now now' s Hi) as Ha. destruct (Hi ip) as [_ Hle].
  rewrite Hmax in *. split; [done|]. destruct (admit_ip _ _ _ _) as [g l']. destruct Ha as [-> _].
  simpl. case_bool; split; try done; try lia; by intros [].
Qed.

Lemma connection_cap_exact_witness :
  let a := V4 167772161 in
  live a [mkGuard a] ≤ 1 ∧
  (is_Some (admit_ip a 9 9 (limiter (mkSys (set_inner {[a := mkEntry 1 0 5]} (new 1 2 3)) [mkGuard a]))).1
   ↔ live a [mkGuard a] < 1).
Proof.
  intros a.
  apply (connection_cap_exact 1 2 3 [EvAdmit a 5 5; EvAdmit a 6 6; EvDrop (mkGuard a) 7; EvAdmit a 5 8]
           (mkSys (set_inner {[a := mkEntry 1 0 5]} (new 1 2 3)) [mkGuard a])); [lia|].
  eapply steps_cons; [by apply step_admitted|].
  eapply steps_cons; [by apply step_refused|].
  eapply steps_cons; [apply (step_drop (mkGuard a) 7 _ [] [])|].
  eapply steps_cons; [by apply step_admitted|]. apply steps_nil.
Defined.

(** ** Backoff *)

(** The failures of [ip] in a history. *)
Definition is_failure (ip : IpAddr) (e : event) : bool :=
  match e with EvFailure ip' _ => bool_decide (ip' = ip) | _ => false end.

Definition failures (ip : IpAddr) (es : list event) : Z :=
  zlen (List.filter (is_failure ip) es).

(** What [backoff] is meant to be after [n] failures. *)
Definition backoff_spec (base maxb n : Z) : Z :=
  if n =? 0 then 0 else Z.min (base * 2 ^ Z.min (n - 1) 16) maxb.

Definition fails_of (ip : IpAddr) (l : RateLimiter) : Z := default 0 (fails <$> inner l !! ip).

(** [ip] keeps a connection open all along and no attempt of it succeeds. *)
Inductive guessing (ip : IpAddr) : list event → sys → sys → Prop :=
| guessing_nil s : guessing ip [] s s
| guessing_cons e es s1 s2 s3 :
    0 < live ip (guards s1) → (∀ now, e ≠ EvSuccess ip now) →
    step e s1 s2 → guessing ip es s2 s3 → guessing ip (e :: es) s1 s3.

Lemma fails_insert ip ip' e m l :
  fails_of ip (set_inner (<[ip' := e]> m) l) =
    if decide (ip' = ip) then fails e else default 0 (fails <$> m !! ip).
Proof.
  unfold fails_of. simpl. case_decide; subst; [by rewrite lookup_insert_eq|].
  by rewrite lookup_insert_ne.
Qed.

(** An address with a live connection survives the sweep. *)
Lemma sweep_live now s ip :
  inv s → 0 < live ip (guards s) → sweep now (inner (limiter s)) !! ip = inner (limiter s) !! ip.
Proof.
  intros Hi Hl. destruct (Hi ip) as [Hc _]. unfold count in Hc. unfold sweep.
  destruct (inner (limiter s) !! ip) as [e|] eqn:E.
  - apply map_lookup_filter_Some. split; [done|]. left. simpl in *. lia.
  - apply map_lookup_filter_None. by left.
Qed.

Lemma guessing_step e s s' ip :
  inv s → 0 < live ip (guards s) → (∀ now, e ≠ EvSuccess ip now) → step e s s' →
  in_u 32 (fails_of ip (limiter s)) →
  fails_of ip (limiter s') = Z.min (fails_of ip (limiter s) + failures ip [e]) (u_max 32).
Proof.
  intros Hi Hl Hne Hs Hf. unfold u_max, in_u in *. pose proof (λ now, sweep_live now s ip Hi Hl) as Hsw.
  assert (∀ l', fails_of ip l' = fails_of ip (limiter s) →
    fails_of ip l' = Z.min (fails_of ip (limiter s) + 0) (2 ^ 32 - 1)) as Hsame by lia.
  assert (∀ ip0 now now' l' g, admit_ip ip0 now now' (limiter s) = (g, l') →
    fails_of ip l' = fails_of ip (limiter s)) as Had.
  { intros ip0 now now' l' g. unfold admit_ip. intros Ha.
    repeat case_match; simplify_eq; rewrite fails_insert; simpl; rewrite ?Hsw; try done;
      case_decide; subst; rewrite ?Hsw; unfold fails_of; by destruct (_ !! ip). }
  unfold failures. destruct Hs; simpl in *; rewrite ?zlen_nil.
  - apply Hsame. eauto.
  - apply Hsame. eauto.
  - apply Hsame. unfold drop_guard. destruct (inner l !! guard_ip g) eqn:E; [|done]. rewrite fails_insert.
    case_decide; [|done]. subst. unfold fails_of. by rewrite E.
  - unfold record_failure. rewrite fails_insert. case_decide; [|rewrite bool_decide_false by done; by apply Hsame].
    subst. rewrite bool_decide_true by done. rewrite zlen_cons, zlen_nil. unfold sat_add, u_max, fails_of. by destruct (_ !! ip).
  - apply Hsame. unfold record_success. destruct (inner l !! ip0) eqn:E; [|done].
    rewrite fails_insert. case_decide; [|done]. subst. by destruct (Hne now).
Qed.

Lemma guessing_fails es s s' ip :
  guessing ip es s s' → inv s → in_u 32 (fails_of ip (limiter s)) →
  fails_of ip (limiter s') = Z.min (fails_of ip (limiter s) + failures ip es) (u_max 32) ∧
  params (limiter s') = params (limiter s).
Proof.
  induction 1 as [s|e es s1 s2 s3 Hl Hne Hst _ IH]; intros Hi Hf.
  - unfold failures, in_u, u_max in *. simpl. rewrite zlen_nil. split; [lia|done].
  - pose proof (guessing_step _ _ _ _ Hi Hl Hne Hst Hf) as H2.
    assert (failures ip (e :: es) = failures ip [e] + failures ip es) as ->.
    { unfold failures. by rewrite <- zlen_app, <- List.filter_app. }
    assert (0 ≤ failures ip [e] ∧ 0 ≤ failures ip es) as [] by (unfold failures; split; apply zlen_nonneg).
    destruct IH as [IH Hp]; [by eapply inv_step|unfold in_u, u_max in *; lia|].
    rewrite Hp, (params_step _ _ _ Hst). unfold u_max, in_u in *. split; [lia|done].
Qed.

(** The failure counters are [u32]s. *)
Lemma fails_u32_step e s s' :
  (∀ ip, in_u 32 (fails_of ip (limiter s))) → step e s s' → ∀ ip, in_u 32 (fails_of ip (limiter s')).
Proof.
  intros Hf Hs ip.
  assert (∀ ip0 now now' l' g, admit_ip ip0 now now' (limiter s) = (g, l') → in_u 32 (fails_of ip l')) as Had.
  { intros ip0 now now' l' g. unfold admit_ip.
    assert (∀ ip', in_u 32 (default 0 (fails <$> sweep now (inner (limiter s)) !! ip'))) as Hsw.
    { intros ip'. specialize (Hf ip'). unfold fails_of in Hf.
      destruct (sweep now _ !! ip') eqn:E; [|by_dec].
      apply map_lookup_filter_Some in E as [E _]. by rewrite E in Hf. }
    intros Ha. pose proof (Hsw ip). pose proof (Hsw ip0).
    repeat case_match; simplify_eq; rewrite fails_insert; case_decide; simpl; try done;
      by destruct (sweep _ _ !! ip0). }
  specialize (Hf ip) as Hfi. destruct Hs; simpl in *; eauto.
  - unfold drop_guard. destruct (inner l !! guard_ip g) eqn:E; [|done]. rewrite fails_insert.
    case_decide; [|done]. subst. unfold fails_of in Hfi. by rewrite E in Hfi.
  - unfold record_failure. rewrite fails_insert. case_decide; simpl; [|done]. subst.
    unfold fails_of, sat_add, u_max, in_u in *. destruct (_ !! ip); simpl in *; lia.
  - unfold record_success. destruct (inner l !! ip0) eqn:E; [|done]. rewrite fails_insert.
    case_decide; [by_dec|done].
Qed.

Lemma fails_u32 es s s' :
  steps es s s' → (∀ ip, in_u 32 (fails_of ip (limiter s))) → ∀ ip, in_u 32 (fails_of ip (limiter s')).
Proof. induction 1; eauto using fails_u32_step. Qed.

(** The backoff grows with repeated guessing and cannot be escaped while
    connected. From any reachable state, while an address keeps a connection
    open and no attempt of it succeeds, the delay before its next attempt is
    [base * 2^(n-1)] capped at [max_backoff], [n] being its failures so far
    (counted before and during this stretch), whatever other addresses do and
    however often the sweep runs. *)
Theorem backoff_exponential (max_conns base maxb : Z) (es es' : list event) (s s' : sys) (ip : IpAddr) :
  0 ≤ max_conns → 0 ≤ maxb ≤ DURATION_MAX → 0 ≤ base →
  steps es (mkSys (new max_conns base maxb) []) s →
  guessing ip es' s s' →
  backoff ip (limiter s') = backoff_spec base maxb (fails_of ip (limiter s) + failures ip es').
Proof.
  intros Hm Hx Hb0 Hs Hg.
  pose proof (fails_u32 _ _ _ Hs (λ _, conj (Z.le_refl 0) eq_refl) ip) as Hf.
  destruct (guessing_fails _ _ _ _ Hg (inv_steps _ _ _ Hs (inv_new _ _ _ Hm)) Hf) as [H1 H2].
  rewrite (params_steps _ _ _ Hs) in H2. injection H2 as _ H2 H3. simpl in H2, H3.
  unfold backoff. fold (fails_of ip (limiter s')). rewrite H1, H2, H3. unfold backoff_spec.
  assert (0 ≤ failures ip es') by (unfold failures; apply zlen_nonneg).
  unfold in_u, u_max in *. set (n := fails_of ip (limiter s) + failures ip es').
  assert (0 ≤ n) by lia.
  destruct (Z.eqb_spec n 0); destruct (Z.eqb_spec (Z.min n (2 ^ 32 - 1)) 0); try lia.
  unfold dur_sat_mul. rewrite Z.shiftl_1_l.
  replace (Z.min (Z.min n (2 ^ 32 - 1) - 1) 16) with (Z.min (n - 1) 16) by lia. lia.
Qed.

Lemma backoff_exponential_witness :
  let a := V6 1 in
  let s := mkSys (set_inner {[a := mkEntry 1 0 5]} (new 4 200 1000)) [mkGuard a] in
  backoff a (limiter (mkSys (set_inner {[a := mkEntry 1 3 8]} (new 4 200 1000)) [mkGuard a])) =
    backoff_spec 200 1000 (fails_of a (limiter s) + 3).
Proof.
  intros a s.
  apply (backoff_exponential 4 200 1000 [EvAdmit a 5 5]
           [EvFailure a 6; EvFailure a 7; EvFailure a 8] s); try by_dec; try lia; try done.
  - eapply steps_cons; [by apply step_admitted|]. apply steps_nil.
  - do 3 (eapply guessing_cons; [by_dec|done|by apply step_failure|]). apply guessing_nil.
Defined.

End RateLimit.
