(* ===== verification/Ipc.v ===== *)
(** * Ipc: the messages between the monitor and the worker

    [quish-server/src/ipc.rs]: the control channel (one SEQPACKET message per
    request or response, session descriptors beside it), the signing channel
    (length-prefixed stream), the environment handoff to re-executed processes
    and the PAM environment blob. *)
From S2P Require Import Prelude RustStr Postcard Base64 Proto.

Module Ipc.

Definition IPC_CAP : Z := 64 * 1024.
Definition ANC_CAP : Z := 64.

(** ** Environment handoff *)
Definition ENV_CTRL_PATH : str := lit "QUISH_CTRL_PATH".
Definition ENV_SIGN_PATH : str := lit "QUISH_SIGN_PATH".
Definition ENV_LISTEN : str := lit "QUISH_LISTEN".
Definition ENV_PATH : str := lit "QUISH_PATH".
Definition ENV_CHROOT : str := lit "QUISH_CHROOT".
Definition ENV_USER : str := lit "QUISH_USER".
Definition ENV_SIGN_SCHEME : str := lit "QUISH_SIGN_SCHEME".
Definition ENV_MAX_AUTH_FAILS : str := lit "QUISH_MAX_AUTH_FAILS".
Definition ENV_CERT : str := lit "QUISH_CERT".
Definition ENV_ALLOW_FORWARD : str := lit "QUISH_ALLOW_FORWARD".
Definition ENV_ALLOW_REMOTE_FORWARD : str := lit "QUISH_ALLOW_REMOTE_FORWARD".
Definition ENV_NO_SECCOMP : str := lit "QUISH_NO_SECCOMP".
Definition ENV_SESS_UID : str := lit "QUISH_SESS_UID".
Definition ENV_SESS_GID : str := lit "QUISH_SESS_GID".
Definition ENV_SESS_USER : str := lit "QUISH_SESS_USER".
Definition ENV_SESS_HOME : str := lit "QUISH_SESS_HOME".
Definition ENV_SESS_SHELL : str := lit "QUISH_SESS_SHELL".
Definition ENV_SESS_TERM : str := lit "QUISH_SESS_TERM".
Definition ENV_SESS_COMMAND : str := lit "QUISH_SESS_COMMAND".
Definition ENV_SESS_TTY : str := lit "QUISH_SESS_TTY".
Definition ENV_SESS_TRANSFER_PATH : str := lit "QUISH_SESS_TRANSFER_PATH".
Definition ENV_SESS_TRANSFER_WRITE_PATH : str := lit "QUISH_SESS_TRANSFER_WRITE_PATH".
Definition ENV_SESS_TRANSFER_MODE : str := lit "QUISH_SESS_TRANSFER_MODE".
Definition ENV_SESS_MKDIR_PATH : str := lit "QUISH_SESS_MKDIR_PATH".
Definition ENV_SESS_PAM_ENV : str := lit "QUISH_SESS_PAM_ENV".

(** A process environment: names and values are byte strings. A name of the
    program is ASCII, so it is its own UTF-8. *)
Abbreviation Env := (gmap bytes bytes).

Inductive EnvError := MissingEnv (key : str) | BadEnv (key : str).

(** [std::env::var]: absent, or not Unicode, is an error. *)
Definition env_var (m : Env) (key : str) : option str := m !! key ≫= from_utf8.

Definition env (m : Env) (key : str) : result EnvError str :=
  ok_or (MissingEnv key) (env_var m key).

Definition env_u32 (m : Env) (key : str) : result EnvError Z :=
  v ← env m key; ok_or (BadEnv key) (parse_uint 32 v).

Definition env_bool (m : Env) (key : str) : bool := bool_decide (env_var m key = Some (lit "true")).

(** ** The PAM environment blob *)
Definition EQ : Z := 61.
Definition NL : Z := 10.

Definition pam_record_ok (kv : bytes * bytes) : bool :=
  negb (contains EQ kv.1 || contains NL kv.1 || contains NL kv.2).

Fixpoint pam_blob (env : list (bytes * bytes)) : bytes :=
  match env with
  | [] => []
  | (k, v) :: rest =>
      if pam_record_ok (k, v) then (k ++ [EQ] ++ v ++ [NL]) ++ pam_blob rest else pam_blob rest
  end.

Definition encode_pam_env `{Base64} (env : list (bytes * bytes)) : str :=
  b64_encode (pam_blob env).

(** The loop over the records: empty ones and those without ['='] are skipped. *)
Fixpoint decode_records (ls : list bytes) : list (bytes * bytes) :=
  match ls with
  | [] => []
  | line :: rest =>
      if bool_decide (line = []) then decode_records rest
      else match find EQ line with
           | Some eq => (take eq line, drop (S eq) line) :: decode_records rest
           | None => decode_records rest
           end
  end.

Definition decode_pam_env `{Base64} (encoded : str) : list (bytes * bytes) :=
  match b64_decode encoded with
  | None => []
  | Some blob => decode_records (split_on NL blob)
  end.

(** ** Messages *)
Inductive Request :=
| Authenticate (conn_id : Z) (authorization : option str) (peer : str)
    (channel_binding : bytes) (challenge_answer : option ChallengeAnswer)
| SpawnShell (conn_id : Z) (term : str)
| SpawnExec (conn_id : Z) (command : str)
| Reap (session_id : Z)
| Close (conn_id : Z)
| SignalReq (session_id : Z) (signal : Signal)
| SpawnTransfer (conn_id : Z) (path : str)
| SpawnTransferWrite (conn_id : Z) (path : str) (mode : Z)
| SpawnMkdir (conn_id : Z) (path : str) (mode : Z).

Inductive Response :=
| VerdictResp (allowed : bool)
| ChallengeResp (challenge : Challenge)
| Spawned (session_id : Z)
| Exited (code : Z)
| Failed
| Closed.

Record SignRequest := mkSignRequest { sr_message : bytes }.

Inductive SignResponse :=
| Signature (sig : bytes)
| SignFailed.

#[global] Instance Request_eq_dec : EqDecision Request.
Proof. solve_decision. Defined.
#[global] Instance Response_eq_dec : EqDecision Response.
Proof. solve_decision. Defined.
#[global] Instance SignResponse_eq_dec : EqDecision SignResponse.
Proof. solve_decision. Defined.

#[global] Instance Request_rust : RustType Request := λ r,
  match r with
  | Authenticate c auth peer cb ans =>
      in_u 64 c ∧ from_option str_rust True auth ∧ str_rust peer ∧
      (length cb = 32%nat ∧ bytes_ok cb) ∧ from_option rust_ok True ans
  | SpawnShell c s | SpawnExec c s | SpawnTransfer c s => in_u 64 c ∧ str_rust s
  | Reap i | Close i | SignalReq i _ => in_u 64 i
  | SpawnTransferWrite c s m | SpawnMkdir c s m => in_u 64 c ∧ str_rust s ∧ in_u 32 m
  end.

#[global] Instance Response_rust : RustType Response := λ r,
  match r with
  | VerdictResp _ | Failed | Closed => True
  | ChallengeResp c => rust_ok c
  | Spawned i => in_u 64 i
  | Exited c => in_i 32 c
  end.

#[global] Instance SignRequest_rust : RustType SignRequest := λ r, bytes_rust (sr_message r).
#[global] Instance SignResponse_rust : RustType SignResponse := λ r,
  match r with Signature s => bytes_rust s | SignFailed => True end.

(** ** The control channel

    A descriptor is a number; one SEQPACKET message carries bytes and
    descriptors. *)
Abbreviation Fd := Z.
Record packet := mkPacket { p_bytes : bytes; p_fds : list Fd }.

Inductive IpcError := EncodeIpc | AttachFds | CtrlSend | CtrlRecv.

(** The room [SCM_RIGHTS] needs for the descriptors: a 16-byte header, then
    four bytes each, rounded to eight. *)
Definition anc_space (n : Z) : Z := 16 + 8 * ((4 * n + 7) / 8).

(** A packet, or the error that stops it before the socket is written. *)
Definition ctrl_send `{Postcard T} (msg : T) (fds : list Fd) : result IpcError packet :=
  bytes ← ok_or EncodeIpc (to_stdvec msg);
  if negb (bool_decide (fds = [])) && (ANC_CAP <? anc_space (zlen fds)) then Err AttachFds
  else Ok (mkPacket bytes fds).

Inductive Recv (T : Type) :=
| Msg (m : T) (fds : list Fd)
| Bad
| RecvClosed.
Arguments Msg {T} m fds.
Arguments Bad {T}.
Arguments RecvClosed {T}.

(** What the socket hands out: the next message, cut to the receive buffer;
    nothing ([None]) once the peer has closed. *)
Definition ctrl_recv `{Postcard T} (next : option packet) : Recv T :=
  let p := default (mkPacket [] []) next in
  let buf := take (Z.to_nat IPC_CAP) (p_bytes p) in
  let n := zlen buf in
  if (n =? 0) && bool_decide (p_fds p = []) then RecvClosed
  else match from_bytes buf with
       | Some msg => Msg msg (p_fds p)
       | None => Bad
       end.

(** ** The signing channel *)
Inductive SignErr := EncodeSign | SignTooLarge | SignIo | DecodeSign.

Definition sign_write `{Postcard T} (msg : T) : result SignErr bytes :=
  bytes ← ok_or EncodeSign (to_stdvec msg);
  if IPC_CAP <? zlen bytes then Err SignTooLarge
  else Ok (to_be_bytes32 (zlen bytes mod 2 ^ 32) ++ bytes).

(** What a read meets after the bytes that are there. *)
Inductive SrcEnd := Eof | IoErr.

(** [read_exact]: the wanted bytes and the rest; a failed read has consumed
    what there was. *)
Definition read_exact (n : Z) (s : bytes) : option (bytes * bytes) :=
  if n <=? zlen s then Some (take (Z.to_nat n) s, drop (Z.to_nat n) s) else None.

Definition sign_read `{Postcard T} (s : bytes) (e : SrcEnd) : result SignErr (option T) * bytes :=
  match read_exact 4 s with
  | None => (match e with Eof => Ok None | IoErr => Err SignIo end, [])
  | Some (len, s) =>
      let n := from_be_bytes len in
      if IPC_CAP <? n then (Err SignTooLarge, s)
      else match read_exact n s with
           | None => (Err SignIo, [])
           | Some (body, s) => (Some <$> ok_or DecodeSign (from_bytes body), s)
           end
  end.

(** ** Lemmas and theorems *)

(** The size of a message in the postcard format: a variant index or a [u32] is
    a varint of at most 5 bytes, a [u64] or a length of at most 10, a string its
    length and its bytes, an option one tag byte. *)
Definition str_bound (s : str) : Z := 10 + str_len s.
Definition answer_bound (a : ChallengeAnswer) : Z :=
  str_bound (ans_token a) + 10 + foldr (λ s n, str_bound s + n) 0 (responses a).

Definition request_bound (r : Request) : Z :=
  match r with
  | Authenticate _ auth peer _ ans =>
      5 + 10 + (1 + from_option str_bound 0 auth) + str_bound peer + 32 +
      (1 + from_option answer_bound 0 ans)
  | SpawnShell _ s | SpawnExec _ s | SpawnTransfer _ s => 5 + 10 + str_bound s
  | Reap _ | Close _ => 5 + 10
  | SignalReq _ _ => 5 + 10 + 5
  | SpawnTransferWrite _ s _ | SpawnMkdir _ s _ => 5 + 10 + str_bound s + 5
  end.

Class RequestSized `{Postcard Request} : Prop :=
  request_size (r : Request) b : rust_ok r → to_stdvec r = Some b → 0 < zlen b ≤ request_bound r.

Lemma pam_record_ok_true k v :
  pam_record_ok (k, v) = true → EQ ∉ k ∧ NL ∉ k ∧ NL ∉ v.
Proof.
  unfold pam_record_ok. simpl. intros H. bool_to_prop.
  by rewrite <- !contains_false.
Qed.

Lemma decode_records_blob env :
  decode_records (split_on NL (pam_blob env)) = List.filter pam_record_ok env.
Proof.
  induction env as [|[k v] env IH]; [done|]. cbn [pam_blob List.filter].
  destruct (pam_record_ok (k, v)) eqn:E; [|done].
  apply pam_record_ok_true in E as (H1 & H2 & H3).
  replace ((k ++ [EQ] ++ v ++ [NL]) ++ pam_blob env)
    with ((k ++ EQ :: v) ++ NL :: pam_blob env) by (simpl; rewrite <- !app_assoc; simpl; by rewrite <- app_assoc).
  rewrite split_on_app.
  2: { rewrite elem_of_app, elem_of_cons. unfold EQ, NL in *. naive_solver lia. }
  cbn [decode_records]. rewrite bool_decide_false by (by destruct k).
  assert (find EQ (k ++ EQ :: v) = Some (length k)) as -> by (apply find_Some; eauto 6).
  rewrite take_app_length, IH. f_equal. f_equal.
  replace (k ++ EQ :: v) with ((k ++ [EQ]) ++ v) by by rewrite <- app_assoc.
  replace (S (length k)) with (length (k ++ [EQ])) by (rewrite length_app; simpl; lia).
  apply drop_app_length.
Qed.

Lemma pam_blob_bytes env :
  Forall (λ kv, bytes_ok kv.1 ∧ bytes_ok kv.2) env → bytes_ok (pam_blob env).
Proof.
  induction 1 as [|[k v] env [Hk Hv] _ IH]; simpl; [constructor|].
  destruct (pam_record_ok _); [|done]. rewrite !bytes_ok_app, bytes_ok_cons, bytes_ok_app, bytes_ok_cons.
  split_and!; try done; unfold is_u8, EQ, NL; try lia; constructor.
Qed.

(** The PAM environment survives the handoff to the session helper. What
    the helper decodes is exactly the list the monitor captured, in order, less
    the records the encoder refuses (a name with [=] or a line break, a value
    with a line break); values may contain [=] and any other byte. *)
Theorem pam_env_roundtrip {b : Base64} {bok : Base64Ok} (env : list (bytes * bytes)) :
  Forall (λ kv, bytes_ok kv.1 ∧ bytes_ok kv.2) env →
  decode_pam_env (encode_pam_env env) = List.filter pam_record_ok env.
Proof.
  intros He. unfold decode_pam_env, encode_pam_env.
  rewrite b64_roundtrip by by apply pam_blob_bytes. apply decode_records_blob.
Qed.

Lemma pam_env_roundtrip_witness :
  decode_pam_env (encode_pam_env [([65], [49; 61; 50]); ([66; 61], [1]); ([], [200])])
  = [([65], [49; 61; 50]); ([], [200])].
Proof.
  refine (pam_env_roundtrip _ _). by_dec.
Defined.

(** A message the buffer holds arrives whole, with its descriptors. *)
Lemma ctrl_roundtrip `{PostcardOk T} (m : T) b fds :
  rust_ok m → to_stdvec m = Some b → 0 < zlen b ≤ IPC_CAP →
  ctrl_recv (Some (mkPacket b fds)) = Msg m fds.
Proof.
  intros Hm Hb Hl. unfold ctrl_recv. cbn [default from_option id p_bytes p_fds]. cbv zeta.
  assert (take (Z.to_nat IPC_CAP) b = b) as -> by (apply firstn_all2; unfold zlen in Hl; lia).
  destruct (Z.eqb_spec (zlen b) 0); [lia|]. cbn [andb]. by rewrite (postcard_roundtrip m b Hm Hb).
Qed.

Lemma sign_write_Ok `{Postcard T} (m : T) f :
  sign_write m = Ok f → ∃ b, to_stdvec m = Some b ∧ zlen b ≤ IPC_CAP ∧ f = frame b.
Proof.
  unfold sign_write. intros Hw. apply result_bind_Ok in Hw as (b & Hb & Hw). exists b.
  destruct (to_stdvec m) as [b'|] eqn:E; [|done]. assert (b' = b) as -> by (by inversion Hb).
  destruct (Z.ltb_spec IPC_CAP (zlen b)); [done|]. split_and!; [done..|].
  unfold frame. rewrite Z.mod_small in Hw by (unfold IPC_CAP in *; pose proof (zlen_nonneg b); lia).
  congruence.
Qed.

(** The length prefix of a frame that is there. *)
Lemma read_exact_app (a r : bytes) n : n = zlen a → read_exact n (a ++ r) = Some (a, r).
Proof.
  intros ->. unfold read_exact. rewrite zlen_app. pose proof (zlen_nonneg r).
  destruct (Z.leb_spec (zlen a) (zlen a + zlen r)); [|lia].
  by rewrite take_app_zlen, drop_app_zlen.
Qed.

Lemma read_len (b : bytes) : zlen b ≤ IPC_CAP → from_be_bytes (to_be_bytes32 (zlen b)) = zlen b.
Proof.
  intros. apply from_to_be_bytes32. unfold in_u, IPC_CAP in *. pose proof (zlen_nonneg b). lia.
Qed.

(** A signing message is read back, and the stream is left after it. *)
Lemma sign_roundtrip `{PostcardOk T} (m : T) f rest e :
  rust_ok m → sign_write m = Ok f → sign_read (f ++ rest) e = (Ok (Some m), rest).
Proof.
  intros Hm Hw. apply sign_write_Ok in Hw as (b & Hb & Hl & ->).
  unfold sign_read, frame. rewrite <- app_assoc, read_exact_app by (symmetry; apply length_be32).
  rewrite read_len by done. destruct (Z.ltb_spec IPC_CAP (zlen b)); [lia|].
  rewrite read_exact_app by done. by rewrite (postcard_roundtrip m b Hm Hb).
Qed.

(** A strict prefix of a message is not one: the read fails or meets the end. *)
Lemma sign_read_partial `{Postcard T} (m : T) f s q e :
  sign_write m = Ok f → s ++ q = f → q ≠ [] →
  ∀ x, (sign_read s e).1 ≠ Ok (Some (x : T)).
Proof.
  intros Hw Hs Hq x. apply sign_write_Ok in Hw as (b & Hb & Hl & ->). unfold frame in Hs.
  assert (0 < zlen q) by (destruct q; [done|]; zlen_lia).
  apply app_eq_inv in Hs as [(s' & E1 & E2)|(s' & E1 & E2)].
  - subst s. unfold sign_read.
    rewrite read_exact_app by (symmetry; apply length_be32). rewrite read_len by done.
    destruct (Z.ltb_spec IPC_CAP (zlen b)); [lia|]. unfold read_exact.
    destruct (Z.leb_spec (zlen b) (zlen s')); [|done].
    assert (zlen b = zlen s' + zlen q) by (rewrite <- zlen_app; congruence). lia.
  - destruct (decide (s' = [])) as [->|Hn].
    + rewrite app_nil_r in E1. subst s. unfold sign_read.
      rewrite <- (app_nil_r (to_be_bytes32 _)), read_exact_app by (symmetry; apply length_be32).
      rewrite read_len by done. destruct (Z.ltb_spec IPC_CAP (zlen b)); [lia|]. unfold read_exact.
      simpl in E2. subst q. destruct (Z.leb_spec (zlen b) (zlen (@nil Z))); [|done].
      rewrite zlen_nil in *. lia.
    + assert (zlen s < 4).
      { pose proof (length_be32 (zlen b)) as H4. rewrite E1, zlen_app in H4.
        assert (0 < zlen s') by (destruct s'; [done|]; zlen_lia). lia. }
      unfold sign_read, read_exact. destruct (Z.leb_spec 4 (zlen s)); [lia|]. by destruct e.
Qed.

End Ipc.

(** ** The published wire format of the IPC messages

    What the derived serializers give through postcard: instances of the laws
    the theorems assume. *)
Module IpcWire.
Import Ipc.

Definition binding_codec : codec bytes := Codec
  (λ b, b)
  (λ b, if 32 <=? zlen b then Some (take 32 b, drop 32 b) else None).

#[export] Instance binding_codec_ok : CodecOk binding_codec (λ b, length b = 32%nat ∧ bytes_ok b).
Proof.
  split; intros b; [by intros []|]. intros r [Hl _]. simpl. rewrite zlen_app. unfold zlen at 1.
  rewrite Hl. destruct (Z.leb_spec 32 (Z.of_nat 32 + zlen r)); [|zlen_lia].
  by rewrite <- Hl, take_app_length, drop_app_length.
Qed.

Definition request_codec : codec Request := Codec
  (λ r, match r with
   | Authenticate c auth peer cb ans =>
       0 :: enc (uvar 64) c ++ enc (optc strc) auth ++ enc strc peer ++
         enc binding_codec cb ++ enc (optc Wire.answer_codec) ans
   | SpawnShell c t => 1 :: enc (uvar 64) c ++ enc strc t
   | SpawnExec c t => 2 :: enc (uvar 64) c ++ enc strc t
   | Reap i => 3 :: enc (uvar 64) i
   | Close i => 4 :: enc (uvar 64) i
   | SignalReq i s => 5 :: enc (uvar 64) i ++ enc Wire.signal_codec s
   | SpawnTransfer c p => 6 :: enc (uvar 64) c ++ enc strc p
   | SpawnTransferWrite c p m => 7 :: enc (uvar 64) c ++ enc strc p ++ enc (uvar 32) m
   | SpawnMkdir c p m => 8 :: enc (uvar 64) c ++ enc strc p ++ enc (uvar 32) m
   end)
  (λ b, match b with
   | 0 :: r => '(c, r) ← dec (uvar 64) r; '(a, r) ← dec (optc strc) r; '(p, r) ← dec strc r;
               '(cb, r) ← dec binding_codec r; '(ans, r) ← dec (optc Wire.answer_codec) r;
               Some (Authenticate c a p cb ans, r)
   | 1 :: r => '(c, r) ← dec (uvar 64) r; '(t, r) ← dec strc r; Some (SpawnShell c t, r)
   | 2 :: r => '(c, r) ← dec (uvar 64) r; '(t, r) ← dec strc r; Some (SpawnExec c t, r)
   | 3 :: r => '(c, r) ← dec (uvar 64) r; Some (Reap c, r)
   | 4 :: r => '(c, r) ← dec (uvar 64) r; Some (Close c, r)
   | 5 :: r => '(c, r) ← dec (uvar 64) r; '(s, r) ← dec Wire.signal_codec r; Some (SignalReq c s, r)
   | 6 :: r => '(c, r) ← dec (uvar 64) r; '(p, r) ← dec strc r; Some (SpawnTransfer c p, r)
   | 7 :: r => '(c, r) ← dec (uvar 64) r; '(p, r) ← dec strc r; '(m, r) ← dec (uvar 32) r;
               Some (SpawnTransferWrite c p m, r)
   | 8 :: r => '(c, r) ← dec (uvar 64) r; '(p, r) ← dec strc r; '(m, r) ← dec (uvar 32) r;
               Some (SpawnMkdir c p m, r)
   | _ => None
   end).

#[export] Instance request_codec_ok : CodecOk request_codec rust_ok.
Proof.
  assert (CodecOk (optc Wire.answer_codec) (from_option rust_ok True)) as Ha by (apply optc_ok, Wire.answer_codec_ok).
  pose proof Wire.signal_codec_ok as Hs.
  split; intros m; destruct m; cbn [rust_ok Request_rust]; intros; destruct_and?;
    cbn [request_codec enc dec app]; try (codec_bytes_run; fail); codec_run.
Qed.

Definition response_codec : codec Response := Codec
  (λ r, match r with
   | VerdictResp b => 0 :: enc boolc b
   | ChallengeResp c => 1 :: enc Wire.challenge_codec c
   | Spawned i => 2 :: enc (uvar 64) i
   | Exited c => 3 :: enc (ivar 32) c
   | Failed => [4]
   | Closed => [5]
   end)
  (λ b, match b with
   | 0 :: r => '(b, r) ← dec boolc r; Some (VerdictResp b, r)
   | 1 :: r => '(c, r) ← dec Wire.challenge_codec r; Some (ChallengeResp c, r)
   | 2 :: r => '(i, r) ← dec (uvar 64) r; Some (Spawned i, r)
   | 3 :: r => '(c, r) ← dec (ivar 32) r; Some (Exited c, r)
   | 4 :: r => Some (Failed, r)
   | 5 :: r => Some (Closed, r)
   | _ => None
   end).

#[export] Instance response_codec_ok : CodecOk response_codec rust_ok.
Proof.
  pose proof Wire.challenge_codec_ok as Hc.
  split; intros m; destruct m as [[]| | | | |]; cbn [rust_ok Response_rust]; intros; destruct_and?;
    cbn [response_codec enc dec app]; try (codec_bytes_run; fail); codec_run.
Qed.

Definition sign_request_codec : codec SignRequest :=
  mapc sr_message (λ b, Some (mkSignRequest b)) bytesc.

Definition sign_response_codec : codec SignResponse := Codec
  (λ r, match r with Signature s => 0 :: enc bytesc s | SignFailed => [1] end)
  (λ b, match b with
        | 0 :: r => '(s, r) ← dec bytesc r; Some (Signature s, r)
        | 1 :: r => Some (SignFailed, r)
        | _ => None
        end).

#[export] Instance sign_request_codec_ok : CodecOk sign_request_codec rust_ok.
Proof. eapply mapc_ok; [apply bytesc_ok|]. intros [n] H. split; [exact H | done]. Qed.

#[export] Instance sign_response_codec_ok : CodecOk sign_response_codec rust_ok.
Proof.
  split; intros m; destruct m; cbn [rust_ok SignResponse_rust]; intros;
    cbn [sign_response_codec enc dec app]; try (codec_bytes_run; fail); codec_run.
Qed.

#[export] Instance request_postcard : Postcard Request := codec_postcard request_codec.
#[export] Instance request_postcard_ok : PostcardOk Request.
Proof. by eapply codec_postcard_ok; [apply request_codec_ok|]. Qed.
#[export] Instance response_postcard : Postcard Response := codec_postcard response_codec.
#[export] Instance response_postcard_ok : PostcardOk Response.
Proof. by eapply codec_postcard_ok; [apply response_codec_ok|]. Qed.
#[export] Instance sign_request_postcard : Postcard SignRequest := codec_postcard sign_request_codec.
#[export] Instance sign_request_postcard_ok : PostcardOk SignRequest.
Proof. by eapply codec_postcard_ok; [apply sign_request_codec_ok|]. Qed.
#[export] Instance sign_response_postcard : Postcard SignResponse := codec_postcard sign_response_codec.
#[export] Instance sign_response_postcard_ok : PostcardOk SignResponse.
Proof. by eapply codec_postcard_ok; [apply sign_response_codec_ok|]. Qed.

(** The sizes of the format. *)
Lemma uvar_size w n : zlen (enc (uvar w) n) ≤ Z.of_nat (varint_fuel w).
Proof. apply varint_enc_length. Qed.

Lemma strc_size s : zlen (enc strc s) ≤ str_bound s.
Proof.
  change (enc strc s) with (enc (uvar 64) (zlen (utf8 s)) ++ (utf8 s ≫= enc u8c)).
  rewrite zlen_app. unfold str_bound, str_len.
  pose proof (uvar_size 64 (zlen (utf8 s))) as Hu. change (Z.of_nat (varint_fuel 64)) with 10 in Hu.
  assert (zlen (utf8 s ≫= enc u8c) = zlen (utf8 s)) as ->; [|lia].
  clear Hu. induction (utf8 s) as [|b l IH]; [done|]. by rewrite bind_cons, zlen_app, IH, zlen_cons.
Qed.

Lemma answer_size a : zlen (enc Wire.answer_codec a) ≤ answer_bound a.
Proof.
  unfold Wire.answer_codec, answer_bound. cbn [enc]. rewrite zlen_app.
  assert (enc (listc strc) (responses a) = enc (uvar 64) (zlen (responses a)) ++ (responses a ≫= enc strc)) as -> by done.
  rewrite zlen_app.
  pose proof (strc_size (ans_token a)). pose proof (uvar_size 64 (zlen (responses a))) as Hu.
  change (Z.of_nat (varint_fuel 64)) with 10 in Hu.
  assert (zlen (responses a ≫= enc strc) ≤ foldr (λ s n, str_bound s + n) 0 (responses a)); [|lia].
  clear Hu. induction (responses a) as [|s l IH]; [done|]. rewrite bind_cons, zlen_app. cbn [foldr].
  pose proof (strc_size s). lia.
Qed.

#[export] Instance request_sized : RequestSized.
Proof.
  intros r b Hr Hb. change (Some (enc request_codec r) = Some b) in Hb. apply (inj Some) in Hb as <-.
  pose proof (λ n, uvar_size 64 n) as H64. pose proof (λ n, uvar_size 32 n) as H32.
  change (Z.of_nat (varint_fuel 64)) with 10 in H64. change (Z.of_nat (varint_fuel 32)) with 5 in H32.
  split.
  { destruct r; cbn [request_codec enc]; rewrite zlen_cons;
      match goal with |- context [zlen ?l] => pose proof (zlen_nonneg l) end; lia. }
  destruct r as [c auth peer cb ans|c s|c s|i|i|i s|c s|c s m|c s m]; cbn [request_bound].
  - change (enc request_codec _) with (0 :: enc (uvar 64) c ++ enc (optc strc) auth ++ enc strc peer ++
      enc binding_codec cb ++ enc (optc Wire.answer_codec) ans).
    rewrite zlen_cons, !zlen_app. pose proof (H64 c). pose proof (strc_size peer).
    assert (zlen (enc binding_codec cb) = 32) by (unfold zlen; destruct Hr as (_ & _ & _ & [Hl _] & _); cbn; lia).
    assert (zlen (enc (optc strc) auth) ≤ 1 + from_option str_bound 0 auth).
    { destruct auth as [s|]; [|done]. change (enc (optc strc) (Some s)) with (1 :: enc strc s).
      cbn [from_option]. rewrite zlen_cons. pose proof (strc_size s). lia. }
    assert (zlen (enc (optc Wire.answer_codec) ans) ≤ 1 + from_option answer_bound 0 ans).
    { destruct ans as [a|]; [|done]. change (enc (optc Wire.answer_codec) (Some a)) with (1 :: enc Wire.answer_codec a).
      cbn [from_option]. rewrite zlen_cons. pose proof (answer_size a). lia. }
    lia.
  - change (enc request_codec _) with (1 :: enc (uvar 64) c ++ enc strc s). rewrite zlen_cons, zlen_app.
    pose proof (H64 c). pose proof (strc_size s). lia.
  - change (enc request_codec _) with (2 :: enc (uvar 64) c ++ enc strc s). rewrite zlen_cons, zlen_app.
    pose proof (H64 c). pose proof (strc_size s). lia.
  - change (enc request_codec _) with (3 :: enc (uvar 64) i). rewrite zlen_cons. pose proof (H64 i). lia.
  - change (enc request_codec _) with (4 :: enc (uvar 64) i). rewrite zlen_cons. pose proof (H64 i). lia.
  - change (enc request_codec _) with (5 :: enc (uvar 64) i ++ enc Wire.signal_codec s). rewrite zlen_cons, zlen_app.
    pose proof (H64 i). change (zlen (enc Wire.signal_codec s)) with 1. lia.
  - change (enc request_codec _) with (6 :: enc (uvar 64) c ++ enc strc s). rewrite zlen_cons, zlen_app.
    pose proof (H64 c). pose proof (strc_size s). lia.
  - change (enc request_codec _) with (7 :: enc (uvar 64) c ++ enc strc s ++ enc (uvar 32) m).
    rewrite zlen_cons, !zlen_app. pose proof (H64 c). pose proof (H32 m). pose proof (strc_size s). lia.
  - change (enc request_codec _) with (8 :: enc (uvar 64) c ++ enc strc s ++ enc (uvar 32) m).
    rewrite zlen_cons, !zlen_app. pose proof (H64 c). pose proof (H32 m). pose proof (strc_size s). lia.
Qed.

End IpcWire.
