(* ===== verification/Sign.v ===== *)
(** * Sign: the host-key signing oracle and its proxy

    The monitor side ([quish-server/src/monitor.rs]: [SignThrottle],
    [spawn_sign_thread], [sign_with]) and the worker side
    ([quish-server/src/signproxy.rs]). *)
From S2P Require Import Prelude RustStr Postcard Base64 Proto Ipc.
Import Ipc.

Module Sign.

(** ** The token bucket *)
Definition SIGN_BURST : Z := 32.
Definition SIGN_REFILL : Z := millis 500.
Definition SIGN_AUDIT_INTERVAL : Z := 100.

Record SignThrottle := mkThrottle { tokens : Z; last : Z }.

Definition SignThrottle_new (now : Z) : SignThrottle := mkThrottle SIGN_BURST now.

Definition allow (now : Z) (t : SignThrottle) : bool * SignThrottle :=
  let elapsed := since now (last t) in
  let q := elapsed / SIGN_REFILL in
  let gained := if q <=? u_max 32 then q else u_max 32 in
  let t :=
    if 0 <? gained then
      let step := default SIGN_REFILL (dur_checked_mul SIGN_REFILL gained) in
      mkThrottle (Z.min (sat_add 32 (tokens t) gained) SIGN_BURST)
                 (default now (instant_checked_add (last t) step))
    else t in
  if 0 <? tokens t then (true, mkThrottle (tokens t - 1) (last t)) else (false, t).

(** The verdicts of a sequence of calls. *)
Fixpoint allows (t : SignThrottle) (nows : list Z) : list bool * SignThrottle :=
  match nows with
  | [] => ([], t)
  | now :: nows =>
      let '(b, t) := allow now t in
      let '(bs, t) := allows t nows in
      (b :: bs, t)
  end.

Definition granted (bs : list bool) : Z := zlen (List.filter id bs).

(** ** The monitor's signing thread *)
Section Monitor.
Context `{Postcard SignRequest, Postcard SignResponse}.

(** The host key: the signer it offers for a scheme, and what that signs. *)
Variable choose_scheme : list Z → option (bytes → option bytes).
Variable scheme : Z.

Definition sign_with (message : bytes) : option bytes :=
  signer ← choose_scheme [scheme]; signer message.

(** One connection of the worker: what it sends, how its stream ends, and how
    many responses it lets the monitor write. *)
Record SignConn := mkConn { c_in : bytes; c_end : SrcEnd; c_writes : nat }.

(** The thread's state: the throttle, the count of signatures, the number of
    clock readings made. *)
Record SignState := mkSignState { throttle : SignThrottle; signed : Z; ticks : nat }.

(** The readings of [Instant::now()], in order. *)
Variable clock : nat → Z.

(** One request: the response, and whether it holds a signature. *)
Definition sign_request (req : SignRequest) (st : SignState) : SignResponse * SignState :=
  let '(ok, th) := allow (clock (ticks st)) (throttle st) in
  let st := mkSignState th (signed st) (S (ticks st)) in
  if negb ok then (SignFailed, st)
  else match sign_with (sr_message req) with
       | Some sig => (Signature sig, mkSignState th (signed st + 1) (ticks st))
       | None => (SignFailed, st)
       end.

(** The loop over one connection; every iteration consumes a length prefix. *)
Fixpoint sign_loop (fuel : nat) (c : SignConn) (st : SignState) : list SignResponse * SignState :=
  match fuel with
  | O => ([], st)
  | S fuel =>
      match sign_read (c_in c) (c_end c) with
      | (Ok (Some req), rest) =>
          let '(resp, st) := sign_request req st in
          match sign_write resp, c_writes c with
          | Ok _, S w =>
              let '(rs, st) := sign_loop fuel (mkConn rest (c_end c) w) st in (resp :: rs, st)
          | _, _ => ([], st)
          end
      | _ => ([], st)
      end
  end.

Fixpoint sign_conns (conns : list (option SignConn)) (st : SignState) : list SignResponse * SignState :=
  match conns with
  | [] => ([], st)
  | None :: conns => sign_conns conns st
  | Some c :: conns =>
      let '(rs, st) := sign_loop (S (length (c_in c))) c st in
      let '(rs', st) := sign_conns conns st in
      (rs ++ rs', st)
  end.

(** The thread: an accept that fails is skipped. The first reading is the one
    [SignThrottle::new] makes. *)
Definition spawn_sign_thread (conns : list (option SignConn)) : list SignResponse * SignState :=
  sign_conns conns (mkSignState (SignThrottle_new (clock 0)) 0 1).

Definition is_signature (r : SignResponse) : bool :=
  match r with Signature _ => true | SignFailed => false end.

End Monitor.

(** ** Bounds on the bucket *)

(** What the calls so far can have gained: the tokens left and the time
    accounted for, against the signatures granted. *)
Definition bucket_inv (t0 horizon spent : Z) (t : SignThrottle) : Prop :=
  t0 ≤ last t ≤ horizon ∧ 0 ≤ tokens t ≤ SIGN_BURST ∧
  ∃ k, last t = t0 + SIGN_REFILL * k ∧ spent + tokens t ≤ SIGN_BURST + k.

Lemma allow_inv t0 horizon spent now t :
  bucket_inv t0 horizon spent t → now ≤ horizon ≤ INSTANT_MAX →
  bucket_inv t0 horizon (spent + if (allow now t).1 then 1 else 0) (allow now t).2.
Proof.
  intros ([Hl1 Hl2] & [Ht1 Ht2] & k & Hk & Hs) Hn. unfold allow.
  set (q := since now (last t) / SIGN_REFILL).
  assert (0 ≤ q ∧ (0 < q → last t + SIGN_REFILL * q ≤ now)) as [Hq0 Hq].
  { subst q. unfold since, SIGN_REFILL, millis. zdiv_lia. }
  set (g := if q <=? u_max 32 then q else u_max 32).
  assert (0 ≤ g ≤ q ∧ g < 2 ^ 32) as [Hg Hg2].
  { subst g. unfold u_max. destruct (Z.leb_spec q (2 ^ 32 - 1)); lia. }
  set (t' := if 0 <? g then _ else t).
  assert (bucket_inv t0 horizon spent t') as ([Ha1 Ha2] & [Hb1 Hb2] & k' & Hk' & Hs').
  { subst t'. destruct (Z.ltb_spec 0 g); [|by repeat split; eauto].
    specialize (Hq ltac:(lia)).
    assert (SIGN_REFILL * g ≤ SIGN_REFILL * q) by (apply Z.mul_le_mono_nonneg_l; [done|lia]).
    assert (0 ≤ SIGN_REFILL * g) by (apply Z.mul_nonneg_nonneg; [done|lia]).
    unfold dur_checked_mul. destruct (Z.leb_spec (SIGN_REFILL * g) DURATION_MAX) as [_|Hx].
    2: { unfold SIGN_REFILL, DURATION_MAX, millis, NANOS_PER_SEC in Hx. lia. }
    cbn [default from_option id]. unfold instant_checked_add.
    destruct (Z.leb_spec (last t + SIGN_REFILL * g) INSTANT_MAX); [|lia].
    cbn [default from_option id]. unfold bucket_inv, sat_add, u_max, SIGN_BURST in *.
    cbn [last tokens]. split_and!; try lia. exists (k + g). lia. }
  destruct (Z.ltb_spec 0 (tokens t')); cbn [fst snd]; unfold bucket_inv; cbn [last tokens];
    split_and!; try done; try lia; exists k'; lia.
Qed.

Lemma bucket_bound t0 horizon spent t :
  bucket_inv t0 horizon spent t → spent ≤ SIGN_BURST + (horizon - t0) / SIGN_REFILL.
Proof.
  intros ([H1 H2] & [H3 H4] & k & Hk & Hs).
  assert (k ≤ (horizon - t0) / SIGN_REFILL).
  { apply Z.div_le_lower_bound; [done|lia]. }
  lia.
Qed.

Lemma bucket_new t0 horizon : t0 ≤ horizon → bucket_inv t0 horizon 0 (SignThrottle_new t0).
Proof.
  intros. unfold bucket_inv, SignThrottle_new, SIGN_BURST. cbn [last tokens].
  split_and!; try lia. exists 0. lia.
Qed.

(** A request takes at least its length prefix off the stream, so the fuel of
    [sign_loop] is never used up: more of it changes nothing. *)
Lemma sign_read_shrinks `{Postcard T} s e (x : T) rest :
  sign_read s e = (Ok (Some x), rest) → (length rest < length s)%nat.
Proof.
  unfold sign_read, read_exact. destruct (Z.leb_spec 4 (zlen s)) as [H4|]; [|by destruct e].
  destruct (_ <? _); [done|]. destruct (_ <=? _); [|done]. intros E.
  assert (rest = drop (Z.to_nat (from_be_bytes (take (Z.to_nat 4) s))) (drop (Z.to_nat 4) s)) as -> by congruence.
  rewrite !length_drop. unfold zlen in H4. lia.
Qed.

Lemma sign_loop_fuel `{Postcard SignRequest, Postcard SignResponse} choose scheme clock f1 f2 c st :
  (length (c_in c) < f1)%nat → (length (c_in c) < f2)%nat →
  sign_loop choose scheme clock f1 c st = sign_loop choose scheme clock f2 c st.
Proof.
  revert f2 c st. induction f1 as [|f1 IH]; intros [|f2] c st H1 H2; try lia. simpl.
  destruct (sign_read _ _) as [[[req|]|] rest] eqn:E; try done. apply sign_read_shrinks in E.
  destruct (sign_request _ _ _ _ _) as [resp st']. destruct (sign_write resp); [|done].
  destruct (c_writes c); [done|]. rewrite (IH f2) by (simpl; lia). done.
Qed.

(** ** Bounds on the thread *)
Section Bounds.
Context `{Postcard SignRequest, Postcard SignResponse}.
Context (choose_scheme : list Z → option (bytes → option bytes)) (scheme : Z) (clock : nat → Z).
Context (t0 horizon : Z) (Hclock : ∀ n, clock n ≤ horizon) (Hhor : horizon ≤ INSTANT_MAX).

Definition thread_inv (st : SignState) : Prop :=
  ∃ spent, bucket_inv t0 horizon spent (throttle st) ∧ signed st ≤ spent.

Lemma sign_request_inv req st :
  thread_inv st →
  let '(r, st') := sign_request choose_scheme scheme clock req st in
  thread_inv st' ∧ signed st' = signed st + (if is_signature r then 1 else 0).
Proof.
  intros (spent & Hb & Hs). unfold sign_request.
  pose proof (allow_inv _ _ _ (clock (ticks st)) _ Hb (conj (Hclock _) Hhor)) as Ha.
  destruct (allow _ _) as [[] th]; simpl in *.
  - destruct (sign_with _ _ _); simpl; (split; [|lia]); exists (spent + 1); simpl; split; [done|lia|done|lia].
  - split; [|lia]. exists (spent + 0). simpl. split; [done|lia].
Qed.

Lemma sign_loop_inv fuel c st :
  thread_inv st →
  let '(rs, st') := sign_loop choose_scheme scheme clock fuel c st in
  thread_inv st' ∧ signed st + zlen (List.filter is_signature rs) ≤ signed st'.
Proof.
  revert c st. induction fuel as [|fuel IH]; intros c st Hi; simpl; [zlen_lia || (split; [done|zlen_lia])|].
  destruct (sign_read _ _) as [[[req|]|] rest]; try (simpl; split; [done|zlen_lia]).
  pose proof (sign_request_inv req st Hi) as Hr. destruct (sign_request _ _ _ req st) as [r st'].
  destruct Hr as [Hi' Hsg]. specialize (IH (mkConn rest (c_end c) (pred (c_writes c))) st' Hi').
  destruct (sign_write r), (c_writes c); simpl in *; try (split; [done|]; destruct (is_signature r); zlen_lia).
  destruct (sign_loop _ _ _ fuel _ st') as [rs st2]. destruct IH as [IH1 IH2]. split; [done|].
  simpl. destruct (is_signature r); zlen_lia.
Qed.

Lemma sign_conns_inv conns st :
  thread_inv st →
  let '(rs, st') := sign_conns choose_scheme scheme clock conns st in
  thread_inv st' ∧ signed st + zlen (List.filter is_signature rs) ≤ signed st'.
Proof.
  revert st. induction conns as [|[c|] conns IH]; intros st Hi; cbn [sign_conns].
  - split; [done|zlen_lia].
  - pose proof (sign_loop_inv (S (length (c_in c))) c st Hi) as Hl.
    destruct (sign_loop _ _ _ _ c st) as [rs st']. destruct Hl as [Hi' Hl].
    specialize (IH st' Hi'). destruct (sign_conns _ _ _ conns st') as [rs' st2].
    destruct IH as [IH1 IH2]. split; [done|]. rewrite List.filter_app. zlen_lia.
  - by apply IH.
Qed.

End Bounds.

(** C35: a compromised worker cannot use the monitor as an unbounded signing
    oracle. Whatever it sends on however many connections, however it cuts,
    garbles or aborts them, and at whatever pace, the signatures the monitor
    makes up to time [horizon], those it never gets to send included, number at
    most the burst plus one per refill interval since the thread started. *)
Theorem signing_oracle_bound `{Postcard SignRequest, Postcard SignResponse}
    (choose_scheme : list Z → option (bytes → option bytes)) (scheme : Z) (clock : nat → Z)
    (conns : list (option SignConn)) (horizon : Z) :
  (∀ n, clock n ≤ horizon) → horizon ≤ INSTANT_MAX →
  let '(resps, st) := spawn_sign_thread choose_scheme scheme clock conns in
  zlen (List.filter is_signature resps) ≤ signed st ≤ SIGN_BURST + (horizon - clock 0%nat) / SIGN_REFILL.
Proof.
  intros Hc Hh. unfold spawn_sign_thread.
  pose proof (sign_conns_inv choose_scheme scheme clock (clock 0%nat) horizon Hc Hh conns
    (mkSignState (SignThrottle_new (clock 0%nat)) 0 1)) as Hi.
  destruct (sign_conns _ _ _ conns _) as [rs st]. destruct Hi as [(spent & Hb & Hs) Hle].
  { exists 0. split; [apply bucket_new, Hc|done]. }
  simpl in *. apply bucket_bound in Hb. lia.
Qed.

Lemma signing_oracle_bound_witness :
  let '(resps, st) :=
    spawn_sign_thread (H := IpcWire.sign_request_postcard) (H0 := IpcWire.sign_response_postcard)
       (λ _, Some (λ m, Some (reverse m))) 2055 (λ n, Z.min (Z.of_nat n) 40)
       [Some (mkConn [0; 0; 0; 2; 1; 7; 0; 0; 0; 2; 1; 8] Eof 5)] in
  zlen (List.filter is_signature resps) ≤ signed st ≤ SIGN_BURST + (40 - Z.min (Z.of_nat 0) 40) / SIGN_REFILL.
Proof.
  apply (signing_oracle_bound (H := IpcWire.sign_request_postcard) (H0 := IpcWire.sign_response_postcard)
    (λ _, Some (λ m, Some (reverse m))) 2055 (λ n, Z.min (Z.of_nat n) 40)
    [Some (mkConn [0; 0; 0; 2; 1; 7; 0; 0; 0; 2; 1; 8] Eof 5)] 40); [lia|by_dec].
Defined.

(** Calls at least one refill interval apart. *)
Fixpoint spaced (prev : Z) (nows : list Z) : Prop :=
  match nows with
  | [] => True
  | now :: nows => prev + SIGN_REFILL ≤ now ≤ INSTANT_MAX ∧ spaced now nows
  end.

Lemma allow_spaced prev now t :
  last t ≤ prev → 0 ≤ tokens t → prev + SIGN_REFILL ≤ now ≤ INSTANT_MAX →
  (allow now t).1 = true ∧ last (allow now t).2 ≤ now ∧ 0 ≤ tokens (allow now t).2.
Proof.
  intros Hl Ht Hn. unfold allow. set (q := since now (last t) / SIGN_REFILL).
  assert (1 ≤ q ∧ last t + SIGN_REFILL * q ≤ now) as [Hq1 Hq2].
  { subst q. unfold since, SIGN_REFILL, millis in *. zdiv_lia. }
  set (g := if q <=? u_max 32 then q else u_max 32).
  assert (1 ≤ g ≤ q ∧ g < 2 ^ 32) as [Hg Hg2].
  { subst g. unfold u_max. destruct (Z.leb_spec q (2 ^ 32 - 1)); lia. }
  destruct (Z.ltb_spec 0 g); [|lia].
  assert (SIGN_REFILL * g ≤ SIGN_REFILL * q) by (apply Z.mul_le_mono_nonneg_l; [done|lia]).
  unfold dur_checked_mul. destruct (Z.leb_spec (SIGN_REFILL * g) DURATION_MAX) as [_|Hx].
  2: { unfold SIGN_REFILL, DURATION_MAX, millis, NANOS_PER_SEC in Hx. lia. }
  cbn [default from_option id]. unfold instant_checked_add.
  destruct (Z.leb_spec (last t + SIGN_REFILL * g) INSTANT_MAX); [|lia].
  cbn [default from_option id tokens last]. unfold sat_add, u_max, SIGN_BURST in *.
  destruct (Z.ltb_spec 0 (Z.min (Z.min (tokens t + g) (2 ^ 32 - 1)) 32)); [|lia].
  cbn [fst snd tokens last]. split_and!; [done|lia|lia].
Qed.

(** The throttle never refuses a legitimate pace: from any state of the
    bucket, calls at least one refill interval apart (two signatures a second)
    are all granted, for ever. *)
Theorem throttle_spaced_granted (t : SignThrottle) (prev : Z) (nows : list Z) :
  last t ≤ prev → 0 ≤ tokens t → spaced prev nows →
  Forall (λ b, b = true) (allows t nows).1.
Proof.
  revert t prev. induction nows as [|now nows IH]; intros t prev Hl Ht Hs; [constructor|].
  destruct Hs as [Hn Hs]. destruct (allow_spaced prev now t Hl Ht Hn) as (H1 & H2 & H3).
  cbn [allows]. destruct (allow now t) as [b t']. simpl in H1, H2, H3.
  specialize (IH t' now H2 H3 Hs). destruct (allows t' nows) as [bs t2]. simpl in *. by constructor.
Qed.

Lemma throttle_spaced_granted_witness :
  Forall (λ b, b = true) (allows (mkThrottle 0 7) [millis 600; millis 1100; millis 1601]).1.
Proof.
  apply (throttle_spaced_granted _ (millis 90)); by_dec.
Defined.

(** ** The worker's proxy

    A thread owns the socket and answers the jobs one after the other. The
    signer of a handshake sees the answer, or an error. *)
Inductive SignOutcome :=
| Signed (sig : bytes)
| Refused
| Broken.

Section Proxy.
Context `{Postcard SignRequest, Postcard SignResponse}.

(** What the socket does during a job: whether the write succeeds, the bytes
    that arrive within the read timeout, and how the wait for more ends. *)
Record JobEnv := mkJobEnv { w_ok : bool; arrived : bytes; r_end : SrcEnd }.

(** The outcome, the bytes left unread, and the bytes written. *)
Definition sign_once (rx : bytes) (ev : JobEnv) (message : bytes) : SignOutcome * bytes * bytes :=
  match sign_write (mkSignRequest message), w_ok ev with
  | Ok out, true =>
      match sign_read (T := SignResponse) (rx ++ arrived ev) (r_end ev) with
      | (Ok (Some (Signature sig)), rest) => (Signed sig, rest, out)
      | (Ok (Some SignFailed), rest) => (Refused, rest, out)
      | (Ok None, rest) | (Err _, rest) => (Broken, rest, out)
      end
  | _, _ => (Broken, rx ++ arrived ev, [])
  end.

(** The socket thread: alive or gone, and the bytes it has not read. *)
Record Proxy := mkProxy { alive : bool; rx : bytes }.

(** One job on the thread: the reply it sends, if it is there to send one. *)
Definition thread_job (p : Proxy) (ev : JobEnv) (message : bytes) : option (option bytes) * Proxy :=
  if negb (alive p) then (None, p)
  else match sign_once (rx p) ev message with
       | (Signed sig, rest, _) => (Some (Some sig), mkProxy true rest)
       | (Refused, rest, _) => (Some None, mkProxy true rest)
       | (Broken, rest, _) => (Some None, mkProxy false rest)
       end.

Inductive TlsError := SigningThreadGone | MonitorSigningFailed.

(** [ProxySigner::sign]; [in_time] is whether the reply comes before
    [recv_timeout] gives up. *)
Definition sign (p : Proxy) (ev : JobEnv) (in_time : bool) (message : bytes) :
    result TlsError bytes * Proxy :=
  match thread_job p ev message with
  | (None, p) => (Err SigningThreadGone, p)
  | (Some (Some sig), p) => (if in_time then Ok sig else Err MonitorSigningFailed, p)
  | (Some None, p) => (Err MonitorSigningFailed, p)
  end.

Fixpoint signs (p : Proxy) (jobs : list (JobEnv * bool * bytes)) : list (result TlsError bytes) :=
  match jobs with
  | [] => []
  | (ev, in_time, m) :: jobs =>
      let '(r, p) := sign p ev in_time m in r :: signs p jobs
  end.

(** [SigningKey::choose_scheme] and the algorithm of a scheme. *)
Definition proxy_choose_scheme (own : Z) (offered : list Z) : bool := bool_decide (own ∈ offered).

Inductive SignatureAlgorithm := ED25519 | ECDSA | RSA.

Definition algorithm_of (scheme : Z) : SignatureAlgorithm :=
  if scheme =? 0x0807 then ED25519
  else if (scheme =? 0x0403) || (scheme =? 0x0503) || (scheme =? 0x0603) then ECDSA
  else RSA.

(** The monitor answers the requests in order, late or not at all: after [k]
    jobs, what has arrived is a prefix of the first [k] responses. *)
Definition answers_in_order (evs : list JobEnv) (frames : list bytes) : Prop :=
  ∀ k, (k ≤ length evs)%nat →
    concat (take k (arrived <$> evs)) `prefix_of` concat (take k frames).

(** The reply of each job against the monitor's response to it. *)
Definition genuine (r : result TlsError bytes) (resp : SignResponse) : Prop :=
  ∀ sig, r = Ok sig → resp = Signature sig.

(** A proxy whose thread is gone answers every job with the same error. *)
Lemma signs_dead s jobs :
  Forall (λ r, r = Err SigningThreadGone) (signs (mkProxy false s) jobs).
Proof. induction jobs as [|[[ev b] m] jobs IH]; simpl; constructor; [done|done]. Qed.

Lemma signs_length p jobs : length (signs p jobs) = length jobs.
Proof.
  revert p. induction jobs as [|[[ev b] m] jobs IH]; intros p; simpl; [done|].
  destruct (sign p ev b m) as [r p']. simpl. by rewrite IH.
Qed.

End Proxy.

Section ProxyOk.
Context `{Postcard SignRequest, PostcardOk SignResponse}.

(** One job against a response of which a prefix has arrived: the response is
    taken whole, or the thread stops. *)
Lemma sign_prefix ev in_time m resp f q :
  rust_ok resp → sign_write resp = Ok f → arrived ev ++ q = f →
  let '(r, p) := sign (mkProxy true []) ev in_time m in
  genuine r resp ∧ (alive p = true → q = [] ∧ p = mkProxy true []).
Proof.
  intros Hr Hf Hq. unfold sign, thread_job, sign_once. simpl.
  destruct (sign_write (mkSignRequest m)), (w_ok ev); try (by split).
  destruct (decide (q = [])) as [->|Hn].
  - rewrite app_nil_r in Hq. rewrite Hq, <- (app_nil_r f).
    rewrite (sign_roundtrip resp f [] (r_end ev) Hr Hf).
    destruct resp; simpl; (split; [|done]); [|by intros ?]. destruct in_time; [|by intros ?].
    intros s [= ->]. done.
  - pose proof (sign_read_partial resp f (arrived ev) q (r_end ev) Hf Hq Hn) as Hp.
    destruct (sign_read (arrived ev) (r_end ev)) as [[[x|]|e] rest]; simpl in *; try (by split; intros).
    by destruct (Hp x).
Qed.

(** C36: a signature is never delivered for another handshake. As long as the
    monitor answers in order, however late, cut short or absent its answers are
    and whichever of them the handshakes give up on, a job that obtains a
    signature obtains the monitor's answer to that very job; after a timeout or
    a broken stream no later job reads the stale bytes. *)
Theorem proxy_no_stale_signature (jobs : list (JobEnv * bool * bytes)) (resps : list SignResponse)
    (frames : list bytes) :
  Forall rust_ok resps →
  Forall2 (λ r f, sign_write r = Ok f) resps frames →
  length resps = length jobs →
  answers_in_order ((λ j : JobEnv * bool * bytes, j.1.1) <$> jobs) frames →
  Forall2 genuine (signs (mkProxy true []) jobs) resps.
Proof.
  intros Hr Hf. revert jobs. induction Hf as [|resp f resps frames Hrf Hf IH]; intros jobs Hl Ha.
  { destruct jobs; [|done]. constructor. }
  destruct jobs as [|[[ev b] m] jobs]; [done|]. inversion Hr; subst. cbn [signs].
  assert (∃ q, arrived ev ++ q = f) as [q Hq].
  { destruct (Ha 1%nat) as [q Hq]; [simpl; lia|]. exists q. simpl in Hq.
    by rewrite !app_nil_r in Hq. }
  pose proof (sign_prefix ev b m resp f q ltac:(done) Hrf Hq) as Hs.
  destruct (sign _ ev b m) as [r p]. destruct Hs as [Hg Hal]. constructor; [done|].
  destruct p as [[] rx'].
  - destruct Hal as [-> [= ->]]; [done|]. apply IH; [done|simpl in Hl; lia|].
    intros k Hk. rewrite app_nil_r in Hq. 
    specialize (Ha (S k) ltac:(rewrite fmap_cons; cbn [length]; lia)). simpl in Ha.
    rewrite Hq in Ha. by apply prefix_app_inv in Ha.
  - apply Forall2_same_length_lookup. split; [rewrite signs_length; simpl in Hl; lia|].
    intros i r' resp' Hi _ sig ->. pose proof (signs_dead rx' jobs) as Hd.
    rewrite Forall_lookup in Hd. by specialize (Hd _ _ Hi).
Qed.

End ProxyOk.

Lemma proxy_no_stale_signature_witness :
  let env a := (mkJobEnv true a IoErr, true, [7]) in
  Forall2 genuine
    (signs (H := IpcWire.sign_request_postcard) (H0 := IpcWire.sign_response_postcard) (mkProxy true [])
       [env [0; 0; 0; 3; 0; 1; 9]; env [0; 0; 0]; env [1; 1; 0; 0; 0; 1; 1]])
    [Signature [9]; SignFailed; SignFailed].
Proof.
  intros env.
  apply (proxy_no_stale_signature (H := IpcWire.sign_request_postcard)
    (H2 := IpcWire.sign_response_postcard_ok) _ _ [[0; 0; 0; 3; 0; 1; 9]; [0; 0; 0; 1; 1]; [0; 0; 0; 1; 1]]).
  - repeat constructor; by_dec.
  - repeat constructor.
  - done.
  - intros k Hk. destruct k as [|[|[|[|k]]]]; [..|simpl in Hk; lia]; by_dec.
Defined.

End Sign.
