(* ===== verification/Auth.v ===== *)
(** * Auth: credentials, the backend interface and the registry

    [quish-auth/src/lib.rs], with the token type of [quish-auth/src/pubkey.rs].
    The [AuthBackend] trait is a class; the registry holds trait objects. *)
From S2P Require Import Prelude RustStr Postcard Base64 Proto Net.

Module Auth.

(** ** Types *)
Record ChallengeState := mkState { st_token : str; pending_user : option str }.

Record ChallengeResponse := mkResponse { cr_state : ChallengeState; cr_responses : list str }.

Record ConnInfo := mkConnInfo {
  peer_addr : SocketAddr;
  channel_binding : bytes;
  challenge : option ChallengeResponse;
}.

Record Token := mkToken { username : str; pubkey : bytes; timestamp : Z; signature : bytes }.

Inductive Credentials :=
| Password (username password : str)
| SignedToken (t : Token)
| Jwt (token : str).

Inductive Verdict :=
| Allow (user : str)
| ChallengeV (state : ChallengeState) (prompts : list Prompt)
| Deny.

#[global] Instance Token_rust : RustType Token := λ t,
  str_rust (username t) ∧ (length (pubkey t) = 32%nat ∧ bytes_ok (pubkey t)) ∧
  in_u 64 (timestamp t) ∧ bytes_rust (signature t).

#[global] Instance state_eq_dec : EqDecision ChallengeState.
Proof. solve_decision. Defined.
#[global] Instance token_eq_dec : EqDecision Token.
Proof. solve_decision. Defined.
#[global] Instance creds_eq_dec : EqDecision Credentials.
Proof. solve_decision. Defined.
#[global] Instance verdict_eq_dec : EqDecision Verdict.
Proof. solve_decision. Defined.

(** The published wire format of the token: an instance of the postcard laws. *)
Definition array_codec (n : nat) : codec bytes := Codec
  (λ b, b)
  (λ b, if bool_decide (n ≤ length b)%nat then Some (take n b, drop n b) else None).

#[global] Instance array_codec_ok n : CodecOk (array_codec n) (λ b, length b = n ∧ bytes_ok b).
Proof.
  split; intros b; [by intros []|]. intros r [<- _]. simpl. rewrite length_app.
  rewrite bool_decide_true by lia. by rewrite take_app_length, drop_app_length.
Qed.

Definition token_codec : codec Token := Codec
  (λ t, enc strc (username t) ++ enc (array_codec 32) (pubkey t) ++ enc (uvar 64) (timestamp t) ++
        enc bytesc (signature t))
  (λ b, '(u, r) ← dec strc b; '(k, r) ← dec (array_codec 32) r; '(t, r) ← dec (uvar 64) r;
        '(s, r) ← dec bytesc r; Some (mkToken u k t s, r)).

Lemma token_codec_ok : CodecOk token_codec rust_ok.
Proof.
  split; intros [u k t s]; unfold rust_ok, Token_rust;
    cbn [token_codec enc dec username pubkey timestamp signature]; intros; destruct_and?.
  - apply bytes_ok_app; split; [by apply (codec_bytes (c := strc))|].
    apply bytes_ok_app; split; [by apply (codec_bytes (c := array_codec 32))|].
    apply bytes_ok_app; split; [by apply (codec_bytes (c := uvar 64))|].
    by apply (codec_bytes (c := bytesc)).
  - rewrite <- !app_assoc. rewrite codec_dec by done. cbn [mbind option_bind].
    rewrite (codec_dec (c := array_codec 32)) by done. cbn [mbind option_bind].
    rewrite (codec_dec (c := uvar 64)) by done. cbn [mbind option_bind].
    by rewrite (codec_dec (c := bytesc)) by done.
Qed.

Definition token_postcard : Postcard Token := codec_postcard token_codec.
Lemma token_postcard_ok : @PostcardOk Token _ token_postcard.
Proof. by eapply codec_postcard_ok; [apply token_codec_ok|]. Qed.

(** ** The backend interface

    [World] is what the backend reads while it runs. *)
Class AuthBackend (B : Type) := {
  name : B → str;
  supports : B → Credentials → bool;
  authenticate : B → World → ConnInfo → Credentials → Verdict;
}.

(** [Box<dyn AuthBackend>]: a backend behind its methods. *)
Record DynBackend := mkDyn {
  dyn_name : str;
  dyn_supports : Credentials → bool;
  dyn_authenticate : World → ConnInfo → Credentials → Verdict;
}.

Definition Dyn {B : Type} {H : AuthBackend B} (b : B) : DynBackend :=
  mkDyn (name b) (supports b) (authenticate b).

#[global] Instance dyn_backend : AuthBackend DynBackend := {
  name := dyn_name;
  supports := dyn_supports;
  authenticate := dyn_authenticate;
}.

(** ** Operator policy *)
Record UserPolicy := mkPolicy { allow_users : list str; deny_users : list str }.

Definition permits (p : UserPolicy) (user : str) : bool :=
  if existsb (λ u, bool_decide (u = user)) (deny_users p) then false
  else bool_decide (allow_users p = []) || existsb (λ u, bool_decide (u = user)) (allow_users p).

(** ** Parsing the [Authorization] header *)
Definition COLON : Z := 58.
Definition DOT : Z := 46.

Section Headers.
Context `{Base64, Postcard Token}.

Definition parse_token (b64 : str) : option Token :=
  bytes ← b64_decode (trim b64); from_bytes bytes.

Definition parse_authorization (header : option str) : option Credentials :=
  header ← header;
  match strip_prefix (lit "Basic ") header with
  | Some rest =>
      decoded ← b64_decode (trim rest);
      s ← from_utf8 decoded;
      '(user, pass) ← split_once COLON s;
      Some (Password user pass)
  | None =>
      match strip_prefix (lit "Bearer ") header with
      | Some rest =>
          let rest := trim rest in
          if contains DOT rest then Some (Jwt rest)
          else SignedToken <$> parse_token rest
      | None => None
      end
  end.

Definition basic_header (user pass : str) : str :=
  lit "Basic " ++ b64_encode (utf8 (user ++ COLON :: pass)).

Definition bearer_header (token_b64 : str) : str := lit "Bearer " ++ token_b64.

End Headers.

(** ** The registry *)
Record Registry := mkRegistry {
  backends : list DynBackend;
  fail_delay : Z;
  policy : UserPolicy;
}.

Fixpoint dispatch (bs : list DynBackend) (w : World) (creds : Credentials) (conn : ConnInfo) : Verdict :=
  match bs with
  | [] => Deny
  | b :: bs => if dyn_supports b creds then dyn_authenticate b w conn creds else dispatch bs w creds conn
  end.

Definition verdict `{Base64, Postcard Token} (r : Registry) (w : World) (authorization : option str)
    (conn : ConnInfo) : Verdict :=
  let v := match parse_authorization authorization with
           | Some creds => dispatch (backends r) w creds conn
           | None => Deny
           end in
  match v with
  | Allow user => if negb (permits (policy r) user) then Deny else v
  | v => v
  end.

Definition is_allow (v : Verdict) : bool := match v with Allow _ => true | _ => false end.

(** The verdict and the time it is returned at: [started] is the reading made
    on entry, [returned] the time the backend's verdict is there. *)
Definition registry_authenticate `{Base64, Postcard Token} (r : Registry) (w : World)
    (started returned : Z) (authorization : option str) (conn : ConnInfo) : Verdict * Z :=
  let v := verdict r w authorization conn in
  if negb (is_allow v) then (v, Z.max returned (started + fail_delay r)) else (v, returned).

(** ** The development backend *)
Record DevInsecureBackend := mkDev { dev_user : str }.

#[global] Instance dev_backend : AuthBackend DevInsecureBackend := {
  name _ := lit "dev-insecure";
  supports _ creds := match creds with Password _ _ => true | _ => false end;
  authenticate b _ _ creds :=
    match creds with
    | Password user _ => if bool_decide (user = dev_user b) then Allow (dev_user b) else Deny
    | _ => Deny
    end;
}.

(** ** Lemmas and theorems *)
Lemma existsb_mem (u : str) l : existsb (λ x, bool_decide (x = u)) l = true ↔ u ∈ l.
Proof.
  rewrite existsb_exists. setoid_rewrite bool_decide_eq_true. split.
  - intros (x & Hx & ->). by apply list_elem_of_In.
  - intros Hu. exists u. by rewrite <- list_elem_of_In.
Qed.

Lemma permits_spec p user :
  permits p user = true ↔ user ∉ deny_users p ∧ (allow_users p = [] ∨ user ∈ allow_users p).
Proof.
  unfold permits. destruct (existsb _ (deny_users p)) eqn:E.
  - apply existsb_mem in E. naive_solver.
  - assert (user ∉ deny_users p) by (rewrite <- existsb_mem; congruence).
    rewrite orb_true_iff, bool_decide_eq_true, existsb_mem. naive_solver.
Qed.

(** The backend that decides: the first one that supports the credential. *)
Lemma dispatch_spec bs w creds conn :
  dispatch bs w creds conn =
    match List.find (λ b, dyn_supports b creds) bs with
    | Some b => dyn_authenticate b w conn creds
    | None => Deny
    end.
Proof. induction bs as [|b bs IH]; [done|]. simpl. by destruct (dyn_supports b creds). Qed.

(** C7: no identity is bound without a backend's consent and the operator's.
    The registry answers [Allow user] exactly when the header parses to a
    credential, the first backend that supports it (and no other) allows that
    very user, the user is not on the deny list, and the allow list is empty or
    names the user. *)
Theorem registry_allow_iff {b64 : Base64} {pt : Postcard Token} (r : Registry) (w : World)
    (authorization : option str) (conn : ConnInfo) (user : str) :
  verdict r w authorization conn = Allow user ↔
  ∃ creds b, parse_authorization authorization = Some creds ∧
    List.find (λ b, dyn_supports b creds) (backends r) = Some b ∧
    dyn_authenticate b w conn creds = Allow user ∧
    user ∉ deny_users (policy r) ∧ (allow_users (policy r) = [] ∨ user ∈ allow_users (policy r)).
Proof.
  unfold verdict. setoid_rewrite <- permits_spec. split.
  - intros Hv. destruct (parse_authorization authorization) as [creds|]; [|done].
    rewrite dispatch_spec in Hv. destruct (List.find _ (backends r)) as [b|] eqn:Eb; [|done].
    destruct (dyn_authenticate b w conn creds) as [u| |] eqn:E; [|done..].
    destruct (permits (policy r) u) eqn:Ep; simplify_eq/=. by exists creds, b.
  - intros (creds & b & -> & Eb & Ea & Ep). by rewrite dispatch_spec, Eb, Ea, Ep.
Qed.

(** Every attempt that does not succeed is answered at the same instant.
    Missing or garbled header, unsupported scheme, wrong credential, policy
    denial or a challenge round: provided the backend answers within the floor,
    the answer leaves at [started + fail_delay] exactly, whatever the time the
    backend took. *)
Theorem registry_failure_floor {b64 : Base64} {pt : Postcard Token} (r : Registry) (w : World)
    (started returned : Z) (authorization : option str) (conn : ConnInfo) :
  started ≤ returned ≤ started + fail_delay r →
  let '(v, t) := registry_authenticate r w started returned authorization conn in
  v = verdict r w authorization conn ∧ (is_allow v = false → t = started + fail_delay r).
Proof.
  intros Hr. unfold registry_authenticate.
  destruct (is_allow (verdict r w authorization conn)) eqn:E; simpl; split; try done; [congruence|lia].
Qed.

Lemma registry_failure_floor_witness :
  let r := mkRegistry [Dyn (mkDev (lit "bob"))] 500 (mkPolicy [] []) in
  let w := mkWorld 0 None 0 (λ _, None) in
  let c := mkConnInfo (mkSocketAddr (V4 0) 1) [] None in
  let '(v, t) := registry_authenticate (H0 := token_postcard) r w 100 130 (Some (lit "Basic !")) c in
  v = verdict (H0 := token_postcard) r w (Some (lit "Basic !")) c ∧ (is_allow v = false → t = 100 + 500).
Proof.
  intros r w c. apply (registry_failure_floor (pt := token_postcard) r w 100 130). simpl. lia.
Defined.

Lemma lit_ascii_ok : Forall is_ascii (lit "Basic ") ∧ Forall is_ascii (lit "Bearer ").
Proof. by_dec. Qed.

(** What the server reads out of a Basic header: the first colon separates. *)
Lemma parse_basic `{Base64Ok, Postcard Token} user pass :
  str_ok user → str_ok pass →
  parse_authorization (Some (basic_header user pass)) =
    '(u, p) ← split_once COLON (user ++ COLON :: pass); Some (Password u p).
Proof.
  intros Hu Hp. unfold parse_authorization, basic_header. cbn [mbind option_bind].
  rewrite strip_prefix_app. rewrite b64_trim, b64_roundtrip.
  - cbn [mbind option_bind]. rewrite from_utf8_utf8; [done|].
    apply Forall_app. split; [done|]. constructor; [|done]. left. unfold COLON. lia.
  - apply utf8_ok, Forall_app. split; [done|]. constructor; [|done]. left. unfold COLON. lia.
  - apply utf8_ok, Forall_app. split; [done|]. constructor; [|done]. left. unfold COLON. lia.
Qed.

(** Password credentials survive the header. The server reads back the
    user name and the password the client encoded, whatever characters (colons
    included) the password holds, exactly when the user name holds no colon. *)
Theorem basic_header_roundtrip {b64 : Base64} {b64ok : Base64Ok} {pt : Postcard Token}
    (user pass : str) :
  str_ok user → str_ok pass →
  parse_authorization (Some (basic_header user pass)) = Some (Password user pass) ↔ COLON ∉ user.
Proof.
  intros Hu Hp. rewrite parse_basic by done. split.
  - intros E. destruct (split_once COLON _) as [[u p]|] eqn:Es; simplify_eq/=.
    by apply split_once_Some in Es as [_ ?].
  - intros Hc. by rewrite split_once_app.
Qed.

Lemma basic_header_roundtrip_witness :
  parse_authorization (H0 := token_postcard) (Some (basic_header (lit "al") (lit "p:w"))) = Some (Password (lit "al") (lit "p:w"))
  ↔ COLON ∉ lit "al".
Proof. apply (basic_header_roundtrip (pt := token_postcard)); by_dec. Defined.

(** A Bearer value of the base64 alphabet is a key token, never a JWT. *)
Lemma parse_bearer_token `{Base64Ok, Postcard Token} b :
  bytes_ok b →
  parse_authorization (Some (bearer_header (b64_encode b))) = SignedToken <$> from_bytes b.
Proof.
  intros Hb. unfold parse_authorization, bearer_header. cbn [mbind option_bind].
  destruct (strip_prefix (lit "Basic ") _) as [r|] eqn:E.
  { apply strip_prefix_Some in E. discriminate E. }
  rewrite strip_prefix_app, b64_trim by done.
  assert (contains DOT (b64_encode b) = false) as ->.
  { apply contains_false. intros Hd. pose proof (b64_alphabet b Hb) as Ha.
    rewrite Forall_forall in Ha. specialize (Ha _ Hd). unfold is_b64, DOT in Ha. lia. }
  unfold parse_token. by rewrite b64_trim, b64_roundtrip.
Qed.

(** A Bearer value with a dot is a JWT, passed on verbatim (trimmed). *)
Lemma parse_bearer_jwt `{Base64, Postcard Token} t :
  DOT ∈ trim t → parse_authorization (Some (bearer_header t)) = Some (Jwt (trim t)).
Proof.
  intros Hd. unfold parse_authorization, bearer_header. cbn [mbind option_bind].
  destruct (strip_prefix (lit "Basic ") _) as [r|] eqn:E.
  { apply strip_prefix_Some in E. discriminate E. }
  rewrite strip_prefix_app. by apply contains_true in Hd as ->.
Qed.

End Auth.
