(* ===== verification/Totp.v ===== *)
(** * Totp: the one-time-code second factor

    [quish-auth/src/totp.rs]. HMAC-SHA1 and base32 are crates: parameters, with
    the length of a SHA-1 digest as the only law used. *)
From S2P Require Import Prelude RustStr Postcard Base64 Proto Net Auth.
Import Auth.

Module Totp.

Definition STEP_SECS : Z := 30.
Definition DIGITS : Z := 6.
Definition SKEW_STEPS : Z := 1.

(** [u64::to_be_bytes] and [u64::to_le_bytes]. *)
Definition to_le_bytes64 (n : Z) : bytes :=
  (λ i, (n / 2 ^ (8 * i)) mod 256) <$> [0; 1; 2; 3; 4; 5; 6; 7].

Definition to_be_bytes64 (n : Z) : bytes := reverse (to_le_bytes64 n).

Section Base32.
Variables (base32_decode : str → option bytes) (base32_encode : bytes → str).

Definition decode_base32_secret (secret : str) : option bytes := base32_decode (trim secret).

Definition encode_base32_secret (secret : bytes) : str := base32_encode secret.

End Base32.

(** The OS's generator fills a buffer of the length asked for. *)
Definition generate_totp_secret (fill_bytes : nat → bytes) : bytes := fill_bytes 20%nat.

(** ** The token of a challenge *)
Definition new_token (w : World) : str :=
  let buf := match urandom w with
             | Some buf => buf
             | None => to_le_bytes64 (unix_now w) ++ to_le_bytes64 (elapsed_nanos w mod 2 ^ 64)
             end in
  buf ≫= hex2.

Section Totp.
Variable hmac_sha1 : bytes → bytes → bytes.

(** [None] is an index out of range, a panic of the code. *)
Definition hotp (secret : bytes) (counter : Z) : option Z :=
  let hs := hmac_sha1 secret (to_be_bytes64 counter) in
  l ← hs !! (length hs - 1)%nat;
  let offset := Z.to_nat (Z.land l 0x0f) in
  b0 ← hs !! offset;
  b1 ← hs !! (offset + 1)%nat;
  b2 ← hs !! (offset + 2)%nat;
  b3 ← hs !! (offset + 3)%nat;
  let bin := Z.lor (Z.lor (Z.lor (Z.shiftl (Z.land b0 0x7f) 24) (Z.shiftl b1 16)) (Z.shiftl b2 8)) b3 in
  Some (bin mod 10 ^ DIGITS).

Definition skew_range (step : Z) : list Z := [step - SKEW_STEPS; step; step + SKEW_STEPS].

Definition verify_at (secret : bytes) (code unix_secs : Z) : bool :=
  let step := unix_secs / STEP_SECS in
  existsb (λ c, bool_decide (hotp secret c = Some code)) (List.filter (λ c, 0 <=? c) (skew_range step)).

Definition current_code (secret : bytes) (w : World) : option Z := hotp secret (unix_now w / STEP_SECS).

(** ** The backend

    The resolver of secrets reads the outside when it is called. *)
Record TotpBackend := mkTotp {
  inner : DynBackend;
  secret_for : World → str → option bytes;
  prompt : str;
}.

Definition TotpBackend_new (first_factor : DynBackend) (secrets : World → str → option bytes) : TotpBackend :=
  mkTotp first_factor secrets (lit "TOTP code: ").

Definition open_challenge (b : TotpBackend) (w : World) (pending : option str) : Verdict :=
  ChallengeV (mkState (new_token w) pending) [{| message := prompt b; echo := false |}].

Definition complete (b : TotpBackend) (w : World) (resp : ChallengeResponse) : Verdict :=
  let secret := default [] (pending_user (cr_state resp) ≫= secret_for b w) in
  let code_ok :=
    default false
      ((λ code, verify_at secret code (unix_now w)) <$>
         (c ← head (cr_responses resp); parse_uint 32 (trim c))) in
  match pending_user (cr_state resp), code_ok with
  | Some user, true => Allow user
  | _, _ => Deny
  end.

Definition totp_authenticate (b : TotpBackend) (w : World) (conn : ConnInfo) (creds : Credentials) : Verdict :=
  match challenge conn with
  | Some resp => complete b w resp
  | None =>
      let pending := match dyn_authenticate (inner b) w conn creds with
                     | Allow user => Some user
                     | _ => None
                     end in
      open_challenge b w pending
  end.

#[export] Instance totp_backend : AuthBackend TotpBackend := {
  name _ := lit "totp";
  supports b creds := dyn_supports (inner b) creds;
  authenticate := totp_authenticate;
}.

(** ** Lemmas *)
Hypothesis hmac_digest : ∀ k m, length (hmac_sha1 k m) = 20%nat ∧ bytes_ok (hmac_sha1 k m).

(** RFC 4226, section 5.3: the 31-bit big-endian value at the offset the last
    nibble gives, modulo [10^6]. *)
Definition hotp_spec (secret : bytes) (counter : Z) : Z :=
  let hs := hmac_sha1 secret (to_be_bytes64 counter) in
  let offset := Z.to_nat (nth 19 hs 0 mod 16) in
  (from_be_bytes (take 4 (drop offset hs)) mod 2 ^ 31) mod 1000000.

Lemma lor_shift (a b n : Z) : 0 ≤ n → 0 ≤ b < 2 ^ n → Z.lor (Z.shiftl a n) b = a * 2 ^ n + b.
Proof.
  intros Hn Hb. assert (Z.land (Z.shiftl a n) b = 0) as Hz.
  { apply Z.bits_inj'. intros m Hm. rewrite Z.land_spec, Z.bits_0, Z.shiftl_spec by lia.
    destruct (Z.lt_ge_cases m n).
    - rewrite Z.testbit_neg_r by lia. done.
    - rewrite <- (Z.mod_small b (2 ^ n)) by lia. rewrite Z.mod_pow2_bits_high by lia.
      apply andb_false_r. }
  rewrite <- Z.lxor_lor by done. rewrite <- Z.add_nocarry_lxor by done. by rewrite Z.shiftl_mul_pow2.
Qed.

(** The digest lookups are in range: the offset is at most 15. *)
Lemma digest_lookup (hs : bytes) i : length hs = 20%nat → bytes_ok hs → (i < 20)%nat →
  hs !! i = Some (nth i hs 0) ∧ is_u8 (nth i hs 0).
Proof.
  intros Hl Hb Hi. destruct (lookup_lt_is_Some_2 hs i ltac:(lia)) as [x Hx].
  rewrite Hx. pose proof Hx as Hn. apply nth_lookup_Some with (d := 0) in Hn. rewrite Hn.
  split; [done|]. unfold bytes_ok in Hb. rewrite Forall_lookup in Hb. by eapply Hb.
Qed.

Lemma drop_take4 (hs : bytes) i : (i + 3 < length hs)%nat →
  take 4 (drop i hs) = [nth i hs 0; nth (i + 1) hs 0; nth (i + 2) hs 0; nth (i + 3) hs 0].
Proof.
  revert i. induction hs as [|x hs IH]; intros i Hi; [simpl in Hi; lia|].
  destruct i as [|i]; [|simpl; apply IH; simpl in Hi; lia].
  destruct hs as [|a [|b [|c hs]]]; simpl in *; try lia. done.
Qed.

Lemma hotp_eq secret counter : hotp secret counter = Some (hotp_spec secret counter).
Proof using hmac_digest.
  unfold hotp, hotp_spec. destruct (hmac_digest secret (to_be_bytes64 counter)) as [Hl Hb].
  set (hs := hmac_sha1 secret _) in *.
  pose proof (digest_lookup hs 19 Hl Hb ltac:(lia)) as [E19 H19].
  rewrite Hl. change (20 - 1)%nat with 19%nat. rewrite E19. cbn [mbind option_bind].
  change 15 with (Z.ones 4). rewrite Z.land_ones by lia. change (2 ^ 4) with 16.
  set (off := Z.to_nat _). assert (off < 16)%nat as Ho by (subst off; zdiv_lia).
  pose proof (digest_lookup hs off Hl Hb ltac:(lia)) as [E0 H0].
  pose proof (digest_lookup hs (off + 1) Hl Hb ltac:(lia)) as [E1 H1].
  pose proof (digest_lookup hs (off + 2) Hl Hb ltac:(lia)) as [E2 H2].
  pose proof (digest_lookup hs (off + 3) Hl Hb ltac:(lia)) as [E3 H3].
  rewrite E0, E1, E2, E3. cbn [mbind option_bind]. rewrite drop_take4 by lia.
  generalize dependent (nth off hs 0). intros a _ Ha.
  generalize dependent (nth (off + 1) hs 0). intros b _ Hb'.
  generalize dependent (nth (off + 2) hs 0). intros c _ Hc.
  generalize dependent (nth (off + 3) hs 0). intros d _ Hd.
  unfold is_u8, from_be_bytes, DIGITS in *. cbn [foldl]. f_equal.
  replace (Z.land a 127) with (a mod 128) by (change 127 with (Z.ones 7); by rewrite Z.land_ones).
  rewrite (Z.shiftl_mul_pow2 b), (Z.shiftl_mul_pow2 c) by lia.
  rewrite lor_shift by lia.
  replace (a mod 128 * 2 ^ 24 + b * 2 ^ 16) with (Z.shiftl (a mod 128 * 2 ^ 8 + b) 16)
    by (rewrite Z.shiftl_mul_pow2 by lia; lia).
  rewrite lor_shift by lia.
  replace ((a mod 128 * 2 ^ 8 + b) * 2 ^ 16 + c * 2 ^ 8)
    with (Z.shiftl ((a mod 128 * 2 ^ 8 + b) * 2 ^ 8 + c) 8) by (rewrite Z.shiftl_mul_pow2 by lia; lia).
  rewrite lor_shift by lia. change (10 ^ 6) with 1000000. f_equal. zdiv_lia.
Qed.

Lemma hotp_spec_range secret counter : 0 ≤ hotp_spec secret counter < 1000000.
Proof using Type. unfold hotp_spec. apply Z.mod_pos_bound. lia. Qed.

(** The one-time code is RFC 4226's. For every key and counter the code
    computes without an index out of range, and is the big-endian 31-bit value
    at the dynamic offset modulo one million: six digits. *)
Theorem hotp_rfc4226 (secret : bytes) (counter : Z) :
  hotp secret counter = Some (hotp_spec secret counter) ∧ 0 ≤ hotp_spec secret counter < 1000000.
Proof using hmac_digest.
  split; [apply hotp_eq|apply hotp_spec_range].
Qed.

Lemma verify_at_spec secret code now :
  verify_at secret code now = true ↔
  ∃ c, 0 ≤ c ∧ Z.abs (c - now / STEP_SECS) ≤ SKEW_STEPS ∧ hotp_spec secret c = code.
Proof using hmac_digest.
  unfold verify_at. rewrite existsb_exists. setoid_rewrite List.filter_In.
  setoid_rewrite bool_decide_eq_true. setoid_rewrite hotp_eq. unfold skew_range, SKEW_STEPS.
  set (s := now / STEP_SECS). split.
  - intros (c & [Hi Hc] & [= E]). exists c. apply Z.leb_le in Hc.
    split_and!; [done| |done]. simpl in Hi. lia.
  - intros (c & H0 & Ha & <-). exists c. split; [|done]. split; [simpl; lia|by apply Z.leb_le].
Qed.

Lemma totp_allow (b : TotpBackend) (w : World) (conn : ConnInfo) (creds : Credentials) (user : str) :
  totp_authenticate b w conn creds = Allow user ↔
  ∃ resp answer code c, challenge conn = Some resp ∧ pending_user (cr_state resp) = Some user ∧
    head (cr_responses resp) = Some answer ∧ parse_uint 32 (trim answer) = Some code ∧
    0 ≤ c ∧ Z.abs (c - unix_now w / STEP_SECS) ≤ SKEW_STEPS ∧
    hotp_spec (default [] (secret_for b w user)) c = code.
Proof using hmac_digest.
  unfold totp_authenticate. split.
  - destruct (challenge conn) as [resp|]; [|done]. unfold complete.
    destruct (pending_user (cr_state resp)) as [u|] eqn:Eu; [|done].
    destruct (head (cr_responses resp)) as [a|] eqn:Ea; [|done]. cbn [mbind option_bind].
    destruct (parse_uint 32 (trim a)) as [code|] eqn:Ec; [|done]. simpl.
    destruct (verify_at _ code _) eqn:Ev; [|done]. intros [= <-].
    apply verify_at_spec in Ev as (c & ? & ? & ?). by exists resp, a, code, c.
  - intros (resp & a & code & c & -> & Eu & Ea & Ec & H1 & H2 & H3).
    unfold complete. rewrite Eu, Ea. cbn [mbind option_bind]. rewrite Ec. simpl.
    assert (verify_at (default [] (secret_for b w user)) code (unix_now w) = true) as ->; [|done].
    apply verify_at_spec. by exists c.
Qed.

(** A terminal success needs both factors. The backend allows [user]
    exactly when this is a second round whose parked state holds [user] (the
    first factor validated it), and the first answer is a decimal number equal
    to the code of the user's key at the current step or one step either side. *)
Theorem totp_allow_iff (b : TotpBackend) (w : World) (conn : ConnInfo) (creds : Credentials) (user : str) :
  totp_authenticate b w conn creds = Allow user ↔
  ∃ resp answer code c, challenge conn = Some resp ∧ pending_user (cr_state resp) = Some user ∧
    head (cr_responses resp) = Some answer ∧ parse_uint 32 (trim answer) = Some code ∧
    0 ≤ c ∧ Z.abs (c - unix_now w / STEP_SECS) ≤ SKEW_STEPS ∧
    hotp_spec (default [] (secret_for b w user)) c = code.
Proof using hmac_digest. apply totp_allow. Qed.

(** C38: an unenrolled account is not closed by the second factor. For a user
    with no secret the backend checks the code of the empty key, which anyone
    can compute: whoever passed the first factor passes the second by answering
    with it. *)
Theorem totp_unenrolled_accepts (b : TotpBackend) (w : World) (conn : ConnInfo) (creds : Credentials)
    (token user : str) :
  0 ≤ unix_now w →
  challenge conn = Some (mkResponse (mkState token (Some user))
                           [show_uint (hotp_spec [] (unix_now w / STEP_SECS))]) →
  secret_for b w user = None →
  totp_authenticate b w conn creds = Allow user.
Proof using hmac_digest.
  intros Hn Hc Hs. apply totp_allow.
  pose proof (hotp_spec_range [] (unix_now w / STEP_SECS)) as Hr.
  eexists _, _, (hotp_spec [] (unix_now w / STEP_SECS)), (unix_now w / STEP_SECS).
  split_and!; [done..| | | |].
  - rewrite trim_id; [apply parse_show_uint; unfold in_u; lia|].
    eapply Forall_impl; [apply show_uint_digits; lia|]. intros d Hd. simpl in Hd.
    apply is_b64_no_ws. unfold is_b64. lia.
  - unfold STEP_SECS. zdiv_lia.
  - unfold SKEW_STEPS. lia.
  - by rewrite Hs.
Qed.

(** What the client sees of a verdict: the token and the prompts. *)
Definition client_view (v : Verdict) : option (str * list Prompt) :=
  match v with ChallengeV st ps => Some (st_token st, ps) | _ => None end.

(** The first round tells nothing. Whatever the credential, whether the
    user exists and whatever the first factor decides, the client gets a
    challenge, with the same prompts and a token that does not depend on the
    credential; what the first factor found is only in the parked state. *)
Theorem totp_round_one_uniform (b : TotpBackend) (w : World) (conn1 conn2 : ConnInfo)
    (creds1 creds2 : Credentials) :
  challenge conn1 = None → challenge conn2 = None →
  client_view (totp_authenticate b w conn1 creds1) = client_view (totp_authenticate b w conn2 creds2) ∧
  is_Some (client_view (totp_authenticate b w conn1 creds1)) ∧
  ∀ st ps user, totp_authenticate b w conn1 creds1 = ChallengeV st ps →
    pending_user st = Some user → dyn_authenticate (inner b) w conn1 creds1 = Allow user.
Proof using Type.
  intros H1 H2. unfold totp_authenticate. rewrite H1, H2. split_and!; [done|by eexists|].
  unfold open_challenge. intros st ps user [= <- <-]. simpl.
  destruct (dyn_authenticate _ _ _ _); [by intros [= ->]|discriminate..].
Qed.

End Totp.

(** ** Witnesses, with a constant digest *)
Definition digest0 (k m : bytes) : bytes := repeat 1 20.

Lemma digest0_ok k m : length (digest0 k m) = 20%nat ∧ bytes_ok (digest0 k m).
Proof. split; [done|]. by_dec. Qed.

Definition conn0 (ch : option ChallengeResponse) : ConnInfo :=
  mkConnInfo (mkSocketAddr (V4 0) 1) (repeat 0 32) ch.

Definition world0 : World := mkWorld 1000 (Some (repeat 7 16)) 0 (λ _, None).

Lemma hotp_rfc4226_witness :
  hotp digest0 [1] 5 = Some (hotp_spec digest0 [1] 5) ∧ 0 ≤ hotp_spec digest0 [1] 5 < 1000000.
Proof. apply (hotp_rfc4226 digest0 digest0_ok). Defined.

Lemma totp_allow_iff_witness :
  let b := mkTotp (Dyn (mkDev (lit "bob"))) (λ _ _, Some [1; 2]) (lit "code") in
  let conn := conn0 (Some (mkResponse (mkState [1] (Some (lit "bob"))) [lit "843009"])) in
  totp_authenticate digest0 b world0 conn (Jwt []) = Allow (lit "bob") ↔
  ∃ resp answer code c, challenge conn = Some resp ∧ pending_user (cr_state resp) = Some (lit "bob") ∧
    head (cr_responses resp) = Some answer ∧ parse_uint 32 (trim answer) = Some code ∧
    0 ≤ c ∧ Z.abs (c - unix_now world0 / STEP_SECS) ≤ SKEW_STEPS ∧
    hotp_spec digest0 (default [] (secret_for b world0 (lit "bob"))) c = code.
Proof. intros b conn. apply (totp_allow_iff digest0 digest0_ok). Defined.

Lemma totp_unenrolled_accepts_witness :
  totp_authenticate digest0 (mkTotp (Dyn (mkDev (lit "bob"))) (λ _ _, None) (lit "code")) world0
    (conn0 (Some (mkResponse (mkState [1] (Some (lit "bob")))
                    [show_uint (hotp_spec digest0 [] (unix_now world0 / STEP_SECS))]))) (Jwt [])
  = Allow (lit "bob").
Proof.
  apply (totp_unenrolled_accepts digest0 digest0_ok) with (token := [1]); [by_dec|done|done].
Defined.

Lemma totp_round_one_uniform_witness :
  let b := mkTotp (Dyn (mkDev (lit "bob"))) (λ _ _, None) (lit "code") in
  let v user := totp_authenticate digest0 b world0 (conn0 None) (Password user (lit "x")) in
  client_view (v (lit "bob")) = client_view (v (lit "eve")) ∧
  is_Some (client_view (v (lit "bob"))) ∧
  ∀ st ps user, v (lit "bob") = ChallengeV st ps →
    pending_user st = Some user → dyn_authenticate (inner b) world0 (conn0 None) (Password (lit "bob") (lit "x")) = Allow user.
Proof.
  intros b v.
  exact (totp_round_one_uniform digest0 b world0 (conn0 None) (conn0 None)
           (Password (lit "bob") (lit "x")) (Password (lit "eve") (lit "x")) eq_refl eq_refl).
Defined.

End Totp.
