(* ===== verification/Pubkey.v ===== *)
(** * Pubkey: signed, channel-bound tokens

    [quish-auth/src/pubkey.rs]. Ed25519 and the OpenSSH key format are crates:
    parameters. The guarantees of the signature scheme are named hypotheses. *)
From S2P Require Import Prelude RustStr Postcard Base64 Proto Net Auth Totp.
Import Auth.

Module Pubkey.

Definition TOKEN_DOMAIN : bytes := lit "quish-pubkey-auth-v1".
Definition TIMESTAMP_WINDOW_SECS : Z := 600.
Definition MAX_AUTHORIZED_KEYS_BYTES : Z := 64 * 1024.

(** Opening with [O_NOFOLLOW] refuses a symbolic link; only a regular file is
    read, up to the cap. *)
Definition read_authorized_keys (fs : FileSystem) (path : str) : option str :=
  match fs path with
  | Some (Regular true contents) =>
      from_utf8 (take (Z.to_nat MAX_AUTHORIZED_KEYS_BYTES) contents)
  | _ => None
  end.

Definition signing_payload (binding : bytes) (user : str) (ts : Z) : bytes :=
  TOKEN_DOMAIN ++ binding ++ utf8 user ++ Totp.to_le_bytes64 ts.

Definition HASH : Z := 35.

Section Crates.
(** [ssh_key]: the ed25519 key of an OpenSSH public-key line, if it is one. *)
Variable from_openssh : str → option (option bytes).
(** [ed25519_dalek]: whether 32 bytes are a key, and the verification. *)
Variable vk_ok : bytes → bool.
Variable ed_verify : bytes → bytes → bytes → bool.
(** The signing key's half: its public key, and what it signs. *)
Variables (ed_public : bytes → bytes) (ed_sign : bytes → bytes → bytes).

Definition key_line_matches (line : str) (key : bytes) : bool :=
  let line := trim line in
  if bool_decide (line = []) || bool_decide (head line = Some HASH) then false
  else match from_openssh line with
       | Some (Some k) => bool_decide (k = key)
       | _ => false
       end.

Definition sign_token `{Base64, Postcard Token} (signing : bytes) (user : str) (binding : bytes)
    (ts : Z) : option str :=
  let sig := ed_sign signing (signing_payload binding user ts) in
  b64_encode <$> to_stdvec (mkToken user (ed_public signing) ts sig).

Record PubkeyBackend := mkPubkey { resolver : str → option str }.

(** One fixed file for every user. *)
Definition PubkeyBackend_new (authorized_keys : str) : PubkeyBackend :=
  mkPubkey (λ _, Some authorized_keys).

Definition authorized (b : PubkeyBackend) (w : World) (tok : Token) : bool :=
  match resolver b (username tok) with
  | Some p =>
      match read_authorized_keys (files w) p with
      | Some contents => existsb (λ line, key_line_matches line (pubkey tok)) (lines contents)
      | None => false
      end
  | None => false
  end.

Definition pubkey_authenticate (b : PubkeyBackend) (w : World) (conn : ConnInfo) (creds : Credentials) : Verdict :=
  match creds with
  | SignedToken tok =>
      if TIMESTAMP_WINDOW_SECS <? Z.abs (timestamp tok - unix_now w) then Deny
      else if negb (authorized b w tok) then Deny
      else if negb (vk_ok (pubkey tok)) then Deny
      else if negb (zlen (signature tok) =? 64) then Deny
      else
        let payload := signing_payload (channel_binding conn) (username tok) (timestamp tok) in
        if ed_verify (pubkey tok) payload (signature tok) then Allow (username tok) else Deny
  | _ => Deny
  end.

#[export] Instance pubkey_backend : AuthBackend PubkeyBackend := {
  name _ := lit "pubkey";
  supports _ creds := match creds with SignedToken _ => true | _ => false end;
  authenticate := pubkey_authenticate;
}.

(** ** Lemmas *)
Lemma le64_length n : length (Totp.to_le_bytes64 n) = 8%nat.
Proof using Type. done. Qed.

Lemma le64_inj n m : in_u 64 n → in_u 64 m → Totp.to_le_bytes64 n = Totp.to_le_bytes64 m → n = m.
Proof using Type.
  unfold in_u, Totp.to_le_bytes64. intros Hn Hm. cbn [fmap list_fmap].
  change (2 ^ (8 * 0)) with 1. intros [= E0 E1 E2 E3 E4 E5 E6 E7].
  rewrite !Z.div_1_r in E0.
  assert (∀ x, in_u 64 x → x = x mod 256 + 2 ^ 8 * ((x / 2 ^ 8) mod 256) + 2 ^ 16 * ((x / 2 ^ 16) mod 256)
    + 2 ^ 24 * ((x / 2 ^ 24) mod 256) + 2 ^ 32 * ((x / 2 ^ 32) mod 256) + 2 ^ 40 * ((x / 2 ^ 40) mod 256)
    + 2 ^ 48 * ((x / 2 ^ 48) mod 256) + 2 ^ 56 * ((x / 2 ^ 56) mod 256)) as Hx.
  { intros x Hx. unfold in_u in Hx.
    replace (x / 2 ^ 16) with (x / 2 ^ 8 / 2 ^ 8) by (rewrite Z.div_div by lia; done).
    replace (x / 2 ^ 24) with (x / 2 ^ 8 / 2 ^ 8 / 2 ^ 8) by (rewrite !Z.div_div by lia; done).
    replace (x / 2 ^ 32) with (x / 2 ^ 8 / 2 ^ 8 / 2 ^ 8 / 2 ^ 8) by (rewrite !Z.div_div by lia; done).
    replace (x / 2 ^ 40) with (x / 2 ^ 8 / 2 ^ 8 / 2 ^ 8 / 2 ^ 8 / 2 ^ 8) by (rewrite !Z.div_div by lia; done).
    replace (x / 2 ^ 48) with (x / 2 ^ 8 / 2 ^ 8 / 2 ^ 8 / 2 ^ 8 / 2 ^ 8 / 2 ^ 8)
      by (rewrite !Z.div_div by lia; done).
    replace (x / 2 ^ 56) with (x / 2 ^ 8 / 2 ^ 8 / 2 ^ 8 / 2 ^ 8 / 2 ^ 8 / 2 ^ 8 / 2 ^ 8)
      by (rewrite !Z.div_div by lia; done).
    change (2 ^ 8) with 256. zdiv_lia. }
  change (8 * 1) with 8 in E1. change (8 * 2) with 16 in E2. change (8 * 3) with 24 in E3.
  change (8 * 4) with 32 in E4. change (8 * 5) with 40 in E5. change (8 * 6) with 48 in E6.
  change (8 * 7) with 56 in E7. rewrite (Hx n Hn), (Hx m Hm). congruence.
Qed.

(** The payload determines all it covers. *)
Lemma payload_inj b1 b2 u1 u2 t1 t2 :
  length b1 = length b2 → str_ok u1 → str_ok u2 → in_u 64 t1 → in_u 64 t2 →
  signing_payload b1 u1 t1 = signing_payload b2 u2 t2 → b1 = b2 ∧ u1 = u2 ∧ t1 = t2.
Proof using Type.
  intros Hl Hu1 Hu2 Ht1 Ht2 E. unfold signing_payload in E. apply app_inv_head in E.
  apply app_inj_1 in E as [-> E]; [|done].
  apply app_inj_2 in E as [Eu Et]; [|done].
  split_and!; [done|by apply utf8_inj|by apply le64_inj].
Qed.

(** The checks of the backend, all of them. *)
Lemma pubkey_allow b w conn creds user :
  pubkey_authenticate b w conn creds = Allow user ↔
  ∃ tok, creds = SignedToken tok ∧ user = username tok ∧
    Z.abs (timestamp tok - unix_now w) ≤ TIMESTAMP_WINDOW_SECS ∧
    authorized b w tok = true ∧ vk_ok (pubkey tok) = true ∧ zlen (signature tok) = 64 ∧
    ed_verify (pubkey tok) (signing_payload (channel_binding conn) (username tok) (timestamp tok))
      (signature tok) = true.
Proof using Type.
  unfold pubkey_authenticate. split.
  - destruct creds as [|tok|]; [done| |done]. repeat destruct_match; try done. intros [= <-].
    bool_to_prop. by exists tok.
  - intros (tok & -> & -> & H1 & H2 & H3 & H4 & H5). rewrite H2, H3, H4, H5. simpl.
    destruct (Z.ltb_spec TIMESTAMP_WINDOW_SECS (Z.abs (timestamp tok - unix_now w))); [lia|done].
Qed.

(** The file lists the key: a line of it, blank and comment lines apart. *)
Lemma authorized_spec b w tok :
  authorized b w tok = true ↔
  ∃ p contents line, resolver b (username tok) = Some p ∧
    read_authorized_keys (files w) p = Some contents ∧ line ∈ lines contents ∧
    key_line_matches line (pubkey tok) = true.
Proof using Type.
  unfold authorized. split.
  - destruct (resolver b _) as [p|]; [|done]. destruct (read_authorized_keys _ p) as [c|] eqn:E; [|done].
    intros (line & Hl & Hm)%existsb_exists. exists p, c, line. by rewrite list_elem_of_In.
  - intros (p & c & line & -> & -> & Hl & Hm). apply existsb_exists. exists line.
    by rewrite <- list_elem_of_In.
Qed.

(** Existential unforgeability, as the set of messages each key's holder has
    signed. *)
Variable signed_by : bytes → bytes → Prop.
Hypothesis unforgeable : ∀ key msg sig, ed_verify key msg sig = true → signed_by key msg.

(** C11: a token cannot be replayed on another connection, for another user or
    outside its window. If the backend lets [user] in on a connection, then a
    line of the first 64 KiB of that user's [authorized_keys] (a regular file, not
    a link, and UTF-8 that far) lists a
    key whose holder signed a statement naming this very connection's TLS
    binding, this user and a time within ten minutes of now; and whatever
    binding, user and time a statement with the same bytes names, they are
    these. *)
Theorem pubkey_no_replay (b : PubkeyBackend) (w : World) (conn : ConnInfo) (creds : Credentials) (user : str) :
  pubkey_authenticate b w conn creds = Allow user →
  (∀ tok, creds = SignedToken tok → rust_ok tok) →
  ∃ key ts path contents text line,
    signed_by key (signing_payload (channel_binding conn) user ts) ∧
    Z.abs (ts - unix_now w) ≤ TIMESTAMP_WINDOW_SECS ∧
    resolver b user = Some path ∧ files w path = Some (Regular true contents) ∧
    from_utf8 (take (Z.to_nat MAX_AUTHORIZED_KEYS_BYTES) contents) = Some text ∧
    line ∈ lines text ∧ key_line_matches line key = true ∧
    ∀ binding' user' ts', length binding' = length (channel_binding conn) → str_ok user' → in_u 64 ts' →
      signing_payload binding' user' ts' = signing_payload (channel_binding conn) user ts →
      binding' = channel_binding conn ∧ user' = user ∧ ts' = ts.
Proof using unforgeable.
  intros Ha Hok. apply pubkey_allow in Ha as (tok & -> & -> & Hts & Hau & Hvk & Hlen & Hver).
  destruct (Hok tok eq_refl) as ((Hu & _) & _ & Ht & _).
  apply authorized_spec in Hau as (p & c & line & Hp & Hc & Hl & Hm).
  unfold read_authorized_keys in Hc.
  destruct (files w p) as [[[] contents| | |]|] eqn:Ef; try done.
  exists (pubkey tok), (timestamp tok), p, contents, c, line.
  split_and!; try done; [by eapply unforgeable|].
  intros b' u' t' Hb' Hu' Ht' E. by apply payload_inj in E.
Qed.

(** Correctness of the scheme: what a key signs verifies under its public half. *)
Hypothesis ed_correct : ∀ sk msg, ed_verify (ed_public sk) msg (ed_sign sk msg) = true.
Hypothesis ed_public_ok : ∀ sk, vk_ok (ed_public sk) = true ∧ length (ed_public sk) = 32%nat ∧ bytes_ok (ed_public sk).
Hypothesis ed_sign_ok : ∀ sk msg, length (ed_sign sk msg) = 64%nat ∧ bytes_ok (ed_sign sk msg).

(** A token signed here is a value of the wire format, so signing succeeds. *)
Lemma minted_ok (sk : bytes) (user : str) (binding : bytes) (ts : Z) :
  str_rust user → in_u 64 ts → rust_ok (mkToken user (ed_public sk) ts (ed_sign sk (signing_payload binding user ts))).
Proof using ed_public_ok ed_sign_ok.
  intros Hu Ht. destruct (ed_public_ok sk) as (_ & ? & ?). destruct (ed_sign_ok sk (signing_payload binding user ts)) as [Hsl Hsb].
  repeat split; try done; simpl; try apply Hu; try apply Ht; unfold zlen; rewrite ?Hsl; done.
Qed.

Lemma sign_token_total {b64 : Base64} {pt : Postcard Token} {ptok : PostcardOk Token} (sk : bytes) (user : str)
    (binding : bytes) (ts : Z) :
  str_rust user → in_u 64 ts → ∃ blob, sign_token sk user binding ts = Some blob.
Proof using ed_public_ok ed_sign_ok.
  intros Hu Ht. unfold sign_token. destruct (postcard_total _ (minted_ok sk user binding ts Hu Ht)) as [bs ->]. by eexists.
Qed.

(** A token of the key, in time, with its line on file. *)
Lemma honest_token {b64 : Base64} {b64ok : Base64Ok} {pt : Postcard Token} {ptok : PostcardOk Token}
    (b : PubkeyBackend) (w : World) (conn : ConnInfo) (sk : bytes) (user : str) (ts : Z)
    (blob path contents line : str) :
  str_rust user → in_u 64 ts → Z.abs (ts - unix_now w) ≤ TIMESTAMP_WINDOW_SECS →
  resolver b user = Some path → read_authorized_keys (files w) path = Some contents →
  line ∈ lines contents → key_line_matches line (ed_public sk) = true →
  sign_token sk user (channel_binding conn) ts = Some blob →
  ∃ creds, parse_authorization (Some (bearer_header blob)) = Some creds ∧
    pubkey_authenticate b w conn creds = Allow user.
Proof using ed_correct ed_public_ok ed_sign_ok.
  intros Hu Ht Hw Hp Hc Hl Hm Hs. unfold sign_token in Hs.
  set (sig := ed_sign sk _) in *. set (tok := mkToken user (ed_public sk) ts sig) in *.
  assert (rust_ok tok) as Htok by by apply minted_ok.
  destruct (to_stdvec tok) as [bs|] eqn:Eb; [|done]. apply (inj Some) in Hs as <-.
  exists (SignedToken tok). split.
  - rewrite parse_bearer_token by by eapply postcard_bytes. by rewrite (postcard_roundtrip tok bs).
  - apply pubkey_allow. exists tok. split_and!; try done.
    + apply authorized_spec. by exists path, contents, line.
    + apply ed_public_ok.
    + change (zlen sig = 64). unfold zlen, sig. by rewrite (proj1 (ed_sign_ok _ _)).
    + apply ed_correct.
Qed.

(** An honest login succeeds. A token minted for this connection by the
    holder of a listed key, sent as a Bearer header and parsed by the server
    within the window, is accepted, for the user it names. *)
Theorem pubkey_honest_login {b64 : Base64} {b64ok : Base64Ok} {pt : Postcard Token} {ptok : PostcardOk Token}
    (b : PubkeyBackend) (w : World) (conn : ConnInfo) (sk : bytes) (user : str) (ts : Z)
    (blob path contents line : str) :
  str_rust user → in_u 64 ts → Z.abs (ts - unix_now w) ≤ TIMESTAMP_WINDOW_SECS →
  resolver b user = Some path → read_authorized_keys (files w) path = Some contents →
  line ∈ lines contents → key_line_matches line (ed_public sk) = true →
  sign_token sk user (channel_binding conn) ts = Some blob →
  ∃ creds, parse_authorization (Some (bearer_header blob)) = Some creds ∧
    pubkey_authenticate b w conn creds = Allow user.
Proof using ed_correct ed_public_ok ed_sign_ok. apply honest_token. Qed.

End Crates.

(** ** Key generation

    [ssh_key]'s private keys: the random one the OS's generator gives ([None]: it
    failed), the comment, the two OpenSSH encodings. *)
Inductive KeypairError := GeneratingKey | EncodingPrivate | EncodingPublic.

Section Generate.
Variable PrivateKey : Type.
Variable random : option PrivateKey.
Variable set_comment : str → PrivateKey → PrivateKey.
Variables (private_to_openssh public_to_openssh : PrivateKey → option str).

(** The private key's file and the public line. *)
Definition generate_keypair (comment : str) : result KeypairError (str * str) :=
  key ← ok_or GeneratingKey random;
  let key := set_comment comment key in
  pem ← ok_or EncodingPrivate (private_to_openssh key);
  pub_line ← ok_or EncodingPublic (public_to_openssh key);
  Ok (pem, pub_line).

(** A pair generated is the two encodings of one key. *)
Lemma generate_keypair_Ok comment pem line :
  generate_keypair comment = Ok (pem, line) →
  ∃ key, private_to_openssh key = Some pem ∧ public_to_openssh key = Some line.
Proof.
  unfold generate_keypair. destruct random as [key|]; [|done]. simpl.
  destruct (private_to_openssh (set_comment comment key)) eqn:Es; [|done]. simpl.
  destruct (public_to_openssh (set_comment comment key)) eqn:Ep; [|done]. simpl.
  intros [= <- <-]. by exists (set_comment comment key).
Qed.
End Generate.

(** ** Witnesses, with a toy scheme: a signature is the public key twice *)
Definition toy_public (sk : bytes) : bytes := replicate 32 (nth 0 sk 0 mod 256).
Definition toy_sign (sk msg : bytes) : bytes := toy_public sk ++ toy_public sk.
Definition toy_verify (key msg sig : bytes) : bool := bool_decide (sig = key ++ key).

Definition toy_openssh (line : str) : option (option bytes) := Some (Some (toy_public line)).

Lemma toy_public_ok sk :
  true = true ∧ length (toy_public sk) = 32%nat ∧ bytes_ok (toy_public sk).
Proof.
  split_and!; [done|done|]. unfold toy_public. apply Forall_replicate. unfold is_u8. zdiv_lia.
Qed.

Lemma toy_sign_ok sk msg : length (toy_sign sk msg) = 64%nat ∧ bytes_ok (toy_sign sk msg).
Proof. split; [done|]. apply bytes_ok_app. split; apply toy_public_ok. Qed.

Definition toy_world : World :=
  mkWorld 1000 None 0 (λ p, if bool_decide (p = lit "/keys") then Some (Regular true (lit "A key")) else None).

Definition toy_conn : ConnInfo := mkConnInfo (mkSocketAddr (V4 0) 1) (repeat 9 32) None.

Definition toy_token : Token := mkToken (lit "bob") (toy_public [65]) 990 (toy_sign [65] []).

Lemma pubkey_no_replay_witness :
  ∃ key ts path contents text line,
    True ∧
    Z.abs (ts - unix_now toy_world) ≤ TIMESTAMP_WINDOW_SECS ∧
    resolver (PubkeyBackend_new (lit "/keys")) (lit "bob") = Some path ∧
    files toy_world path = Some (Regular true contents) ∧
    from_utf8 (take (Z.to_nat MAX_AUTHORIZED_KEYS_BYTES) contents) = Some text ∧
    line ∈ lines text ∧ key_line_matches toy_openssh line key = true ∧
    ∀ binding' user' ts', length binding' = length (channel_binding toy_conn) → str_ok user' → in_u 64 ts' →
      signing_payload binding' user' ts' = signing_payload (channel_binding toy_conn) (lit "bob") ts →
      binding' = channel_binding toy_conn ∧ user' = lit "bob" ∧ ts' = ts.
Proof.
  apply (pubkey_no_replay toy_openssh (λ _, true) toy_verify (λ _ _, True) (λ _ _ _ _, I)
           (PubkeyBackend_new (lit "/keys")) toy_world toy_conn (SignedToken toy_token) (lit "bob")).
  - vm_compute. reflexivity.
  - intros tok [= <-]. unfold rust_ok, Token_rust. split_and!; by_dec.
Defined.

Lemma pubkey_honest_login_witness :
  ∃ creds, parse_authorization (H0 := token_postcard) (Some (bearer_header
      (default [] (sign_token toy_public toy_sign (H0 := token_postcard) [65] (lit "bob") (repeat 9 32) 990)))) = Some creds ∧
    pubkey_authenticate toy_openssh (λ _, true) toy_verify (PubkeyBackend_new (lit "/keys"))
      toy_world toy_conn creds = Allow (lit "bob").
Proof.
  apply (pubkey_honest_login toy_openssh (λ _, true) toy_verify toy_public toy_sign
           (λ sk msg, bool_decide_eq_true_2 _ eq_refl) toy_public_ok toy_sign_ok
           (ptok := token_postcard_ok) _ _ _ [65] (lit "bob") 990 _ (lit "/keys") (lit "A key") (lit "A key")).
  - by_dec.
  - by_dec.
  - by_dec.
  - done.
  - vm_compute. reflexivity.
  - by_dec.
  - vm_compute. reflexivity.
  - reflexivity.
Defined.

End Pubkey.
