(* ===== verification/Oidc.v ===== *)
(** * Oidc: bearer JWTs against a static key set, and PAM passwords

    [quish-auth/src/oidc.rs] and [quish-auth/src/pam.rs]. The JWT, JSON and PAM
    libraries are crates: parameters. *)
From S2P Require Import Prelude RustStr Postcard Base64 Proto Net Auth.
Import Auth.

Module Oidc.

Definition DEFAULT_USER_CLAIM : str := lit "preferred_username".
Definition DEFAULT_MAX_TOKEN_AGE_SECS : Z := 300.

Record OidcConfig := mkOidc {
  issuer : str;
  audience : str;
  jwks_file : str;
  user_claim : str;
  max_token_age_secs : Z;
}.

(** The algorithms a token may name: the one allowed, and any other. *)
Inductive Algorithm := EdDSA | OtherAlg (n : Z).

#[global] Instance alg_eq_dec : EqDecision Algorithm.
Proof. solve_decision. Defined.

Inductive JwtError := InvalidAlgorithm | InvalidEddsaKey.

(** What is asked of [decode]; [v_leeway], in seconds, applies to both ends of the
    token's validity. *)
Record Validation := mkValidation {
  v_algorithms : list Algorithm;
  v_issuer : list str;
  v_audience : list str;
  v_exp : bool;
  v_nbf : bool;
  v_required : list str;
  v_leeway : Z;
}.

(** The leeway [Validation::new] sets, which [verify] leaves as it is. *)
Definition DEFAULT_LEEWAY : Z := 60.

Definition oidc_validation (cfg : OidcConfig) : Validation :=
  mkValidation [EdDSA] [issuer cfg] [audience cfg] true true [lit "exp"; lit "iss"; lit "aud"] DEFAULT_LEEWAY.

Section Crates.
(** [ed25519_dalek::VerifyingKey::from_bytes]. *)
Variable vk_ok : bytes → bool.

(** The signature primitive handed to the JWT crate: EdDSA only, over the first
    32 bytes of the decoding key. *)
Definition verifier_factory (alg : Algorithm) (key : bytes) : result JwtError bytes :=
  if negb (bool_decide (alg = EdDSA)) then Err InvalidAlgorithm
  else if negb (32 <=? zlen key) then Err InvalidEddsaKey
  else let raw := take 32 key in
       if vk_ok raw then Ok raw else Err InvalidEddsaKey.

(** The server never signs. *)
Definition signer_factory (_ : Algorithm) (_ : bytes) : result JwtError bytes := Err InvalidAlgorithm.

Record CryptoProvider := mkProvider {
  p_signer : Algorithm → bytes → result JwtError bytes;
  p_verifier : Algorithm → bytes → result JwtError bytes;
}.

Definition PROVIDER : CryptoProvider := mkProvider signer_factory verifier_factory.

(** The process's provider: whether [ensure_provider] has run, and the crate's
    default, which installing leaves as the crate decides. *)
Record Process := mkProcess { init_done : bool; default_provider : option CryptoProvider }.
Variable install_default : CryptoProvider → option CryptoProvider → option CryptoProvider.

Definition ensure_provider (p : Process) : Process :=
  if init_done p then p else mkProcess true (install_default PROVIDER (default_provider p)).

Definition OidcBackend_new (cfg : OidcConfig) (p : Process) : OidcConfig * Process := (cfg, ensure_provider p).

(** However many backends are made, the provider is installed once, and if the
    crate takes the first one offered, it is this one that serves them all. *)
Lemma OidcBackend_new_installs cfg cfg' p :
  (∀ q, install_default q None = Some q) → init_done p = false → default_provider p = None →
  let '(_, p1) := OidcBackend_new cfg p in
  default_provider p1 = Some PROVIDER ∧ OidcBackend_new cfg' p1 = (cfg', p1).
Proof using Type.
  intros Hi Hd Hn. unfold OidcBackend_new, ensure_provider. rewrite Hd, Hn, Hi. by split.
Qed.

(** [VerifyingKey::verify_strict], of a key, a message and a signature of 64
    bytes; and the verifier made from a key, which is given any bytes as the
    signature. *)
Variable verify_strict : bytes → bytes → bytes → bool.

Definition EdVerifier_verify (vk msg sig : bytes) : bool := (zlen sig =? 64) && verify_strict vk msg sig.

(** [serde_json] values and [jsonwebtoken] keys. *)
Variables (Value Jwk DecodingKey : Type).
Variable get : Value → str → option Value.
Variable as_u64 : Value → option Z.
Variable as_str : Value → option str.
Variable parse_jwks : bytes → option (list Jwk).
Variable jwks_find : list Jwk → str → option Jwk.
Variable from_jwk : Jwk → option DecodingKey.
(** The key id of a token's header, when the header decodes. *)
Variable decode_header : str → option (option str).
Variable jwt_decode : World → Validation → DecodingKey → str → option Value.

(** [std::fs::read]: follows links, reads whole regular files. *)
Definition read_file (fs : FileSystem) (path : str) : option bytes :=
  match fs path with
  | Some (Regular true contents) => Some contents
  | Some (Symlink target) =>
      match fs target with Some (Regular true contents) => Some contents | _ => None end
  | _ => None
  end.

Definition select_key (jwks : list Jwk) (kid : option str) : option Jwk :=
  match kid with
  | Some kid => jwks_find jwks kid
  | None => if zlen jwks =? 1 then head jwks else None
  end.

Definition verify (cfg : OidcConfig) (w : World) (token : str) : option str :=
  jwks_bytes ← read_file (files w) (jwks_file cfg);
  jwks ← parse_jwks jwks_bytes;
  kid ← decode_header token;
  jwk ← select_key jwks kid;
  key ← from_jwk jwk;
  claims ← jwt_decode w (oidc_validation cfg) key token;
  let too_old :=
    match get claims (lit "iat") ≫= as_u64 with
    | Some iat => max_token_age_secs cfg <? sat_sub (unix_now w) iat
    | None => false
    end in
  if too_old then None
  else
    user ← get claims (user_claim cfg) ≫= as_str;
    if bool_decide (user = []) then None else Some user.

Definition oidc_authenticate (cfg : OidcConfig) (w : World) (_ : ConnInfo) (creds : Credentials) : Verdict :=
  match creds with
  | Jwt token => match verify cfg w token with Some user => Allow user | None => Deny end
  | _ => Deny
  end.

#[export] Instance oidc_backend : AuthBackend OidcConfig := {
  name _ := lit "oidc";
  supports _ creds := match creds with Jwt _ => true | _ => false end;
  authenticate := oidc_authenticate;
}.

(** What the JWT crate documents of a token it accepts: its header names an
    algorithm of the list, the verifier the installed provider makes for it and
    for the key accepts its signature over its signing input (the two sides of
    the compact form's last dot), it carries the required claims, its issuer and
    audience claims are or list a named party; and, read as numbers of seconds, its
    expiry (when required) is at most the leeway behind the clock, and its
    not-before, if it has one, at most the leeway ahead. *)
Variable key_bytes : DecodingKey → bytes.
Variable signed_parts : str → option (bytes * bytes).
Variable claim_names : Value → str → str → Prop.
Variable numeric_date : Value → option Z.
Hypothesis jwt_decode_sound : ∀ w v key token claims,
  jwt_decode w v key token = Some claims →
  (∃ alg vk msg sig, alg ∈ v_algorithms v ∧ verifier_factory alg (key_bytes key) = Ok vk ∧
     signed_parts token = Some (msg, sig) ∧ EdVerifier_verify vk msg sig = true) ∧
  (∀ c, c ∈ v_required v → is_Some (get claims c)) ∧
  (∃ i, i ∈ v_issuer v ∧ claim_names claims (lit "iss") i) ∧
  (∃ a, a ∈ v_audience v ∧ claim_names claims (lit "aud") a) ∧
  (v_exp v = true → lit "exp" ∈ v_required v →
     ∃ e, get claims (lit "exp") ≫= numeric_date = Some e ∧ unix_now w ≤ e + v_leeway v) ∧
  (v_nbf v = true → ∀ n, get claims (lit "nbf") ≫= numeric_date = Some n → n ≤ unix_now w + v_leeway v).

Lemma verifier_factory_Ok alg key vk :
  verifier_factory alg key = Ok vk → alg = EdDSA ∧ vk = take 32 key ∧ length vk = 32%nat ∧ vk_ok vk = true.
Proof using Type.
  unfold verifier_factory. case_bool_decide; simpl; [|done].
  destruct (Z.leb_spec 32 (zlen key)); simpl; [|done]. destruct (vk_ok _) eqn:E; [|done].
  intros [= <-]. split_and!; try done. rewrite length_take. unfold zlen in *. lia.
Qed.

Lemma select_key_spec jwks kid jwk :
  select_key jwks kid = Some jwk →
  match kid with Some k => jwks_find jwks k = Some jwk | None => jwks = [jwk] end.
Proof using Type.
  destruct kid; cbn [select_key]; [done|]. destruct (Z.eqb_spec (zlen jwks) 1) as [Hl|]; [|done].
  destruct jwks as [|k [|k' l]]; [done|by intros; simplify_eq/=|]. rewrite !zlen_cons in Hl. zlen_lia.
Qed.

(** The pipeline, stage by stage. *)
Lemma verify_Some cfg w token user :
  verify cfg w token = Some user →
  ∃ contents jwks kid jwk key claims,
    read_file (files w) (jwks_file cfg) = Some contents ∧ parse_jwks contents = Some jwks ∧
    decode_header token = Some kid ∧ select_key jwks kid = Some jwk ∧ from_jwk jwk = Some key ∧
    jwt_decode w (oidc_validation cfg) key token = Some claims ∧
    (∀ iat, get claims (lit "iat") ≫= as_u64 = Some iat → unix_now w - iat ≤ max_token_age_secs cfg) ∧
    get claims (user_claim cfg) ≫= as_str = Some user ∧ user ≠ [].
Proof using Type.
  unfold verify. intros E.
  apply bind_Some in E as (contents & Ec & E). apply bind_Some in E as (jwks & Ej & E).
  apply bind_Some in E as (kid & Ek & E). apply bind_Some in E as (jwk & Es & E).
  apply bind_Some in E as (key & Ey & E). apply bind_Some in E as (claims & Ed & E).
  match type of E with (if ?o then _ else _) = _ => destruct o eqn:Eo; [done|] end.
  apply bind_Some in E as (u & Eu & E). case_bool_decide; [done|]. apply (inj Some) in E as ->.
  exists contents, jwks, kid, jwk, key, claims. split_and!; try done.
  intros iat Hiat. rewrite Hiat in Eo. apply Z.ltb_ge in Eo. unfold sat_sub in Eo. lia.
Qed.

(** C39: a JWT login is an EdDSA token of the configured issuer, for the
    configured audience. If the backend allows [user], the token's signature
    is 64 bytes that verify strictly, over its signing input, with the 32-byte
    key of the operator's file that its key id names (or the only one there); the
    token carries an expiry, which passed at most 60 seconds ago (the JWT crate's
    leeway), and a not-before, if it has one, at most 60 seconds ahead; it names the
    configured issuer and audience; it is not older than the limit when it says when it was issued; and its configured
    claim is exactly [user], which is not empty. *)
Theorem oidc_allow_sound (cfg : OidcConfig) (w : World) (conn : ConnInfo) (creds : Credentials) (user : str) :
  oidc_authenticate cfg w conn creds = Allow user →
  ∃ token contents jwks kid jwk key claims,
    creds = Jwt token ∧ read_file (files w) (jwks_file cfg) = Some contents ∧
    parse_jwks contents = Some jwks ∧ decode_header token = Some kid ∧
    match kid with Some k => jwks_find jwks k = Some jwk | None => jwks = [jwk] end ∧
    from_jwk jwk = Some key ∧ vk_ok (take 32 (key_bytes key)) = true ∧
    (∃ msg sig, signed_parts token = Some (msg, sig) ∧ length sig = 64%nat ∧
       verify_strict (take 32 (key_bytes key)) msg sig = true) ∧
    (∃ e, get claims (lit "exp") ≫= numeric_date = Some e ∧ unix_now w ≤ e + 60) ∧
    (∀ n, get claims (lit "nbf") ≫= numeric_date = Some n → n ≤ unix_now w + 60) ∧
    claim_names claims (lit "iss") (issuer cfg) ∧ claim_names claims (lit "aud") (audience cfg) ∧
    (∀ iat, get claims (lit "iat") ≫= as_u64 = Some iat → unix_now w - iat ≤ max_token_age_secs cfg) ∧
    get claims (user_claim cfg) ≫= as_str = Some user ∧ user ≠ [].
Proof using jwt_decode_sound.
  destruct creds as [| |token]; simpl; [done|done|].
  destruct (verify cfg w token) as [u|] eqn:E; [|done]. intros [= ->].
  apply verify_Some in E as (contents & jwks & kid & jwk & key & claims & Ec & Ej & Ek & Es & Ey & Ed & Ei & Eu & Hu).
  destruct (jwt_decode_sound _ _ _ _ _ Ed) as ((alg & vk & msg & sig & _ & Hvk & Hparts & Hsg) & Hreq & (i & Hi & Hi') & (a & Ha & Ha') & Hexp & Hnbf).
  apply verifier_factory_Ok in Hvk as (-> & -> & _ & Hok). apply select_key_spec in Es.
  apply list_elem_of_singleton in Hi as ->. apply list_elem_of_singleton in Ha as ->.
  exists token, contents, jwks, kid, jwk, key, claims. split_and!; try done; [|apply Hexp; [done|by_dec]|by apply Hnbf].
  - apply andb_true_iff in Hsg as [Hlen%Z.eqb_eq Hsg]. exists msg, sig. split_and!; [done|unfold zlen in Hlen; lia|done].
Qed.

End Crates.

(** A key set of raw bytes, tokens that are their own claims. *)
Definition key_of_ones (vk : bytes) : bool := bool_decide (vk = repeat 1 32).

Lemma oidc_allow_sound_witness :
  let get (v c : str) : option str := if bool_decide (c = lit "iat") then None else Some v in
  let date (v : str) : option Z := Some 45 in
  let w := mkWorld 50 None 0 (λ _, Some (Regular true [1])) in
  let cfg := mkOidc (lit "bob") (lit "bob") (lit "/jwks") (lit "sub") 300 in
  ∃ token contents (jwks : list Z) kid jwk (key : Z) claims,
    Jwt (lit "bob") = Jwt token ∧ read_file (files w) (jwks_file cfg) = Some contents ∧
    Some contents = Some jwks ∧ (λ _ : str, Some None) token = Some kid ∧
    match kid with Some k => (λ (_ : list Z) (_ : str), None) jwks k = Some jwk | None => jwks = [jwk] end ∧
    Some jwk = Some key ∧ true = true ∧
    (∃ msg sig, (λ _ : str, Some (lit "claims", repeat 7 64)) token = Some (msg, sig) ∧ length sig = 64%nat ∧
       key_of_ones (take 32 (repeat key 40)) = true) ∧
    (∃ e, get claims (lit "exp") ≫= date = Some e ∧ unix_now w ≤ e + 60) ∧
    (∀ n, get claims (lit "nbf") ≫= date = Some n → n ≤ unix_now w + 60) ∧
    claims = issuer cfg ∧ claims = audience cfg ∧
    (∀ iat, get claims (lit "iat") ≫= (λ _, None) = Some iat → unix_now w - iat ≤ max_token_age_secs cfg) ∧
    get claims (user_claim cfg) ≫= Some = Some (lit "bob") ∧ lit "bob" ≠ [].
Proof.
  intros get date w cfg.
  apply (oidc_allow_sound (λ _, true) (λ vk _ _, key_of_ones vk) str Z Z get (λ _, None) Some Some (λ _ _, None) Some (λ _, Some None)
    (λ w v k t, if bool_decide (EdDSA ∈ v_algorithms v) && bool_decide (t ∈ v_issuer v) && bool_decide (t ∈ v_audience v)
                   && bool_decide (lit "iat" ∉ v_required v) && bool_decide (k = 1)
                   && bool_decide (unix_now w ≤ 45 + v_leeway v ∧ 45 ≤ unix_now w + v_leeway v) then Some t else None)
    (λ k, repeat k 40) (λ _, Some (lit "claims", repeat 7 64)) (λ v _ p, v = p) date)
    with (cfg := cfg) (w := w) (creds := Jwt (lit "bob")) (conn := mkConnInfo (mkSocketAddr (V4 0) 1) [] None).
  - intros w' v key token claims Hd.
    destruct (bool_decide (EdDSA ∈ v_algorithms v)) eqn:E0; [|done].
    destruct (bool_decide (token ∈ v_issuer v)) eqn:E1; [|done].
    destruct (bool_decide (token ∈ v_audience v)) eqn:E3; [|done].
    destruct (bool_decide (lit "iat" ∉ v_required v)) eqn:E2; [|done].
    destruct (bool_decide (key = 1)) eqn:E4; [|done].
    destruct (bool_decide (unix_now w' ≤ _ ∧ _)) eqn:E5; [|done]. simplify_eq/=. bool_to_prop. subst key.
    destruct E5 as [E5 E6].
    split_and!; [by exists EdDSA, (repeat 1 32), (lit "claims"), (repeat 7 64)| |by exists claims|by exists claims|by exists 45|by intros _ n [= <-]].
    intros c Hc. subst get. simpl. case_bool_decide; [by subst|]. by eexists.
  - vm_compute. reflexivity.
Defined.

End Oidc.

(** ** PAM *)
Module Pam.

Definition SERVICE : str := lit "quish".

Section Crate.
(** A PAM context, and its stages for a service: [authenticate] is driven by
    the credentials of the conversation, [acct_mgmt] and [open_session] by the
    user. *)
Variable Ctx : Type.
Variable ctx_with_credentials : str → str → str → option Ctx.
Variable ctx_for_user : str → str → option Ctx.
Variables (pam_authenticate pam_acct_mgmt : Ctx → bool).
(** Opening a session yields its environment and the token to close it with. *)
Variable SessionToken : Type.
Variable pam_open_session : Ctx → option (list (bytes * bytes) * SessionToken).

Record PamBackend := mkPam {}.

Definition backend_authenticate (_ : PamBackend) (_ : World) (_ : ConnInfo) (creds : Credentials) : Verdict :=
  match creds with
  | Password user pass =>
      let ok := match ctx_with_credentials SERVICE user pass with
                | Some ctx => pam_authenticate ctx && pam_acct_mgmt ctx
                | None => false
                end in
      if ok then Allow user else Deny
  | _ => Deny
  end.

#[export] Instance pam_backend : AuthBackend PamBackend := {
  name _ := lit "pam";
  supports _ creds := match creds with Password _ _ => true | _ => false end;
  authenticate := backend_authenticate;
}.

Inductive PamError := PamCtx | PamAcct | PamOpen.

Record PamSession := mkPamSession { ps_ctx : Ctx; ps_token : SessionToken; ps_env : list (bytes * bytes) }.

(** No authentication stage: the user is already authenticated. *)
Definition open_session (user : str) : result PamError PamSession :=
  ctx ← ok_or PamCtx (ctx_for_user SERVICE user);
  if negb (pam_acct_mgmt ctx) then Err PamAcct
  else
    '(e, token) ← ok_or PamOpen (pam_open_session ctx);
    Ok (mkPamSession ctx token e).

Lemma pam_allow (b : PamBackend) (w : World) (conn : ConnInfo) (creds : Credentials) (user : str) :
  backend_authenticate b w conn creds = Allow user ↔
  ∃ pass ctx, creds = Password user pass ∧ ctx_with_credentials SERVICE user pass = Some ctx ∧
    pam_authenticate ctx = true ∧ pam_acct_mgmt ctx = true.
Proof.
  unfold backend_authenticate. split.
  - destruct creds as [u p| |]; [|done..]. destruct (ctx_with_credentials SERVICE u p) as [ctx|] eqn:E; [|done].
    destruct (pam_authenticate ctx) eqn:E1, (pam_acct_mgmt ctx) eqn:E2; try done.
    intros [= <-]. by exists p, ctx.
  - by intros (p & ctx & -> & -> & -> & ->).
Qed.

(** A password login has passed authentication and the account stage, for
    the very name the client gave, under the program's own PAM service. *)
Theorem pam_allow_iff (b : PamBackend) (w : World) (conn : ConnInfo) (creds : Credentials) (user : str) :
  backend_authenticate b w conn creds = Allow user ↔
  ∃ pass ctx, creds = Password user pass ∧ ctx_with_credentials SERVICE user pass = Some ctx ∧
    pam_authenticate ctx = true ∧ pam_acct_mgmt ctx = true.
Proof. apply pam_allow. Qed.

End Crate.
End Pam.
