(* ===== verification/Challenge.v ===== *)
(** * Challenge: the store of parked challenges

    [ChallengeStore] of [quish-server/src/transport.rs], used by the monitor and
    by the development server. Each method is one transition of the map behind
    the mutex. *)
From S2P Require Import Prelude RustStr Postcard Base64 Proto Net Auth.
Import Auth.

Module Challenge.

Definition CHALLENGE_TTL : Z := secs 60.

(** The state parked for a connection, and when. *)
Record ChallengeStore := mkStore { inner : gmap Z (ChallengeState * Z) }.

Definition store_default : ChallengeStore := mkStore ∅.

Definition store_insert (conn_id : Z) (state : ChallengeState) (now : Z) (s : ChallengeStore) : ChallengeStore :=
  mkStore (<[conn_id := (state, now)]> (inner s)).

Definition store_take (conn_id : Z) (token : str) (now : Z) (s : ChallengeStore) :
    option ChallengeState * ChallengeStore :=
  match inner s !! conn_id with
  | None => (None, s)
  | Some (state, created) =>
      let s := mkStore (delete conn_id (inner s)) in
      if (CHALLENGE_TTL <? since now created) || negb (bool_decide (st_token state = token))
      then (None, s) else (Some state, s)
  end.

Definition store_clear (conn_id : Z) (s : ChallengeStore) : ChallengeStore :=
  mkStore (delete conn_id (inner s)).

(** ** The abstract contract: histories *)
Inductive op :=
| OInsert (conn_id : Z) (state : ChallengeState) (now : Z)
| OTake (conn_id : Z) (token : str) (now : Z)
| OClear (conn_id : Z).

Definition op_conn (o : op) : Z :=
  match o with OInsert c _ _ | OTake c _ _ | OClear c => c end.

Definition store_op (s : ChallengeStore) (o : op) : ChallengeStore :=
  match o with
  | OInsert c st now => store_insert c st now s
  | OTake c t now => (store_take c t now s).2
  | OClear c => store_clear c s
  end.

Definition run (hist : list op) : ChallengeStore := foldl store_op store_default hist.

(** What a connection may answer, from the history alone: the challenge opened
    last, if nothing has touched the connection's entry since. *)
Definition pending (conn_id : Z) (hist : list op) : option (ChallengeState * Z) :=
  foldl (λ p o, if bool_decide (op_conn o = conn_id)
                then match o with OInsert _ st now => Some (st, now) | _ => None end
                else p) None hist.

Definition take_spec (conn_id : Z) (token : str) (now : Z) (hist : list op) : option ChallengeState :=
  '(st, created) ← pending conn_id hist;
  if bool_decide (since now created ≤ CHALLENGE_TTL ∧ st_token st = token) then Some st else None.

(** ** Lemmas *)
Lemma take_store c t now s : inner (store_take c t now s).2 = delete c (inner s).
Proof.
  unfold store_take. destruct (inner s !! c) as [[st created]|] eqn:E; [by destruct (_ || _)|].
  simpl. by rewrite delete_id.
Qed.

(** A step leaves every other connection's challenge alone. *)
Lemma store_op_lookup s o c :
  inner (store_op s o) !! c =
    if bool_decide (op_conn o = c)
    then match o with OInsert _ st now => Some (st, now) | _ => None end else inner s !! c.
Proof.
  destruct o as [c' st now|c' t now|c']; simpl; unfold store_insert, store_clear; rewrite ?take_store;
    case_bool_decide; subst; by simplify_map_eq.
Qed.

Lemma run_pending hist c : inner (run hist) !! c = pending c hist.
Proof.
  unfold run, pending. induction hist as [|o hist IH] using rev_ind; [done|].
  rewrite !foldl_app. simpl. rewrite store_op_lookup, <- IH. done.
Qed.

Lemma take_result c t now s :
  (store_take c t now s).1 =
    '(st, created) ← inner s !! c;
    if bool_decide (since now created ≤ CHALLENGE_TTL ∧ st_token st = t) then Some st else None.
Proof.
  unfold store_take. destruct (inner s !! c) as [[st created]|]; [|done]. simpl.
  destruct (Z.ltb_spec CHALLENGE_TTL (since now created)) as [Hl|Hl]; simpl.
  - rewrite bool_decide_false; [done|]. intros [? _]. lia.
  - destruct (decide (st_token st = t)) as [->|Hn].
    + by rewrite !bool_decide_true.
    + rewrite (bool_decide_false (_ = _)) by done. simpl. rewrite bool_decide_false by naive_solver. done.
Qed.

(** C10: a challenge is answered at most once, in time, with its own token, on
    the connection it was issued to. After any history of the store, taking
    yields a state exactly when the last operation on that very connection
    parked it, at most [CHALLENGE_TTL] ago, under the token presented; and the
    attempt consumes it whatever its outcome, so that no second take succeeds. *)
Theorem challenge_one_shot (hist : list op) (c : Z) (token : str) (now : Z) :
  (store_take c token now (run hist)).1 = take_spec c token now hist ∧
  ∀ token' now' hist', Forall (λ o, ∀ st t, o ≠ OInsert c st t) hist' →
    take_spec c token' now' (hist ++ OTake c token now :: hist') = None.
Proof.
  split; [by rewrite take_result, run_pending|].
  intros token' now' hist' Hh. unfold take_spec.
  assert (pending c (hist ++ OTake c token now :: hist') = None) as ->; [|done].
  unfold pending. rewrite foldl_app. simpl. rewrite bool_decide_true by done.
  induction hist' as [|o hist' IH] using rev_ind; [done|].
  apply Forall_app in Hh as [Hh Ho]. rewrite foldl_app. simpl. rewrite IH by done.
  rewrite Forall_singleton in Ho. case_bool_decide; [|done].
  destruct o as [c' st t|c' t n|c']; [|done|done]. simpl in *. subst. by destruct (Ho st t).
Qed.

End Challenge.
