(* ===== verification/Privdrop.v ===== *)
(** * Privdrop: dropping privileges, and the session helper

    [quish-server/src/privdrop.rs]. A program is a function of the trace of
    system calls made so far: each call is answered by the operating system,
    which may take the whole trace into account. The theorems hold for every
    such system. *)
From S2P Require Import Prelude RustStr Postcard Base64 Proto Ipc.
Import Ipc.

Module Privdrop.

(** ** System calls *)
Inductive Sys :=
| Setsid
| OpenTty (path : str)
| Dup2 (fd : Z)
| InitGroups (user : bytes) (gid : Z)
| SetGroups (gids : list Z)
| SetGid (gid : Z)
| SetUid (uid : Z)
| Chdir (path : str)
| Chroot (path : str)
| NoNewPrivs
| PdeathSig
| OpenRead (path : str)
| OpenWrite (path : str) (mode : Z)
| Fstat
| IsRegular
| CopyToStdout
| CopyFromStdin
| Flush
| Mkdir (path : str) (mode : Z)
| StatIsDir (path : str)
| Execve (program : bytes) (argv envp : list bytes)
| ApplyFilter (kill_default : bool) (allowed : list string).

Inductive Answer := Yes | No | AlreadyExists.

Abbreviation trace := (list (Sys * Answer)).

Inductive HelperError :=
| EnvErr (e : EnvError)
| SysErr (s : Sys)
| NulInString
| NonRegular
| NoSuchUser
| RefusingRoot
| CouldRegainRoot.

(** ** The monad of programs *)
Definition M (A : Type) : Type := trace → trace * result HelperError A.

#[global] Instance M_ret : MRet M := λ A a tr, (tr, Ok a).
#[global] Instance M_bind : MBind M := λ A B f m tr,
  match m tr with
  | (tr, Ok a) => f a tr
  | (tr, Err e) => (tr, Err e)
  end.

Definition fail {A} (e : HelperError) : M A := λ tr, (tr, Err e).

Definition lift {A} (r : result EnvError A) : M A := λ tr,
  (tr, match r with Ok a => Ok a | Err e => Err (EnvErr e) end).

Section Os.
Variable os : trace → Sys → Answer.

Definition call (s : Sys) : M Answer := λ tr, let a := os tr s in (tr ++ [(s, a)], Ok a).

(** A call whose failure is propagated with [?]. *)
Definition must (s : Sys) : M unit :=
  a ← call s; match a with Yes => mret () | _ => fail (SysErr s) end.

(** [CString::new]. *)
Definition cstring (b : bytes) : M bytes := if contains 0 b then fail NulInString else mret b.

(** ** The worker *)
Record User := mkUser { u_name : str; u_uid : Z; u_gid : Z; u_dir : str; u_shell : str }.

Definition drop_to_worker (lookup_user : str → option User) (chroot_dir user_name : str) : M unit :=
  match lookup_user user_name with
  | None => fail NoSuchUser
  | Some user =>
      if u_uid user =? 0 then fail RefusingRoot
      else
        must (Chroot chroot_dir);; must (Chdir (lit "/"));;
        must (SetGroups [u_gid user]);; must (SetGid (u_gid user));; must (SetUid (u_uid user));;
        must NoNewPrivs;; must PdeathSig;;
        a ← call (SetUid 0);
        match a with Yes => fail CouldRegainRoot | _ => mret () end
  end.

Definition WORKER_SYSCALLS : list string :=
  [ "recvmsg"; "sendmsg"; "recvmmsg"; "sendmmsg"; "recvfrom"; "sendto"; "read"; "write"; "readv"; "writev";
    "close"; "socket"; "bind"; "connect"; "getsockname"; "getpeername"; "getsockopt"; "setsockopt";
    "listen"; "accept4"; "ioctl"; "epoll_create1"; "epoll_ctl"; "epoll_wait"; "epoll_pwait"; "eventfd2";
    "futex"; "clock_gettime"; "gettimeofday"; "clock_nanosleep"; "nanosleep"; "getrandom"; "mmap";
    "munmap"; "mremap"; "mprotect"; "madvise"; "brk"; "rt_sigaction"; "rt_sigprocmask"; "rt_sigreturn";
    "sigaltstack"; "sched_yield"; "sched_getaffinity"; "getpid"; "gettid"; "uname"; "clone"; "clone3";
    "set_robust_list"; "set_tid_address"; "rseq"; "fcntl"; "exit"; "exit_group" ]%string.

Definition install_seccomp (enforce : bool) : M unit := must (ApplyFilter enforce WORKER_SYSCALLS).

(** What the installed filter does with a system call. *)
Inductive FilterAction := FilterAllow | FilterLog | FilterKill.

Definition filter_action (enforce : bool) (name : string) : FilterAction :=
  if bool_decide (name ∈ WORKER_SYSCALLS) then FilterAllow
  else if enforce then FilterKill else FilterLog.

(** ** The session helper *)

(** The credential drop every mode makes. *)
Definition drop_to_user (user : str) (uid gid : Z) : M unit :=
  cuser ← cstring (utf8 user);
  must (InitGroups cuser gid);; must (SetGid gid);; must (SetUid uid).

(** [let _ = chdir(home)], when there is a home. *)
Definition chdir_home (m : Env) : M unit :=
  match env m ENV_SESS_HOME with
  | Ok home => call (Chdir home);; mret ()
  | Err _ => mret ()
  end.

Definition run_transfer_helper (m : Env) (path : str) : M unit :=
  uid ← lift (env_u32 m ENV_SESS_UID);
  gid ← lift (env_u32 m ENV_SESS_GID);
  user ← lift (env m ENV_SESS_USER);
  drop_to_user user uid gid;;
  chdir_home m;;
  must (OpenRead path);;
  must Fstat;;
  reg ← call IsRegular;
  match reg with
  | Yes => must CopyToStdout;; must Flush
  | _ => fail NonRegular
  end.

Definition run_transfer_write_helper (m : Env) (path : str) : M unit :=
  uid ← lift (env_u32 m ENV_SESS_UID);
  gid ← lift (env_u32 m ENV_SESS_GID);
  user ← lift (env m ENV_SESS_USER);
  mode ← lift (env_u32 m ENV_SESS_TRANSFER_MODE);
  drop_to_user user uid gid;;
  chdir_home m;;
  must (OpenWrite path mode);;
  must Fstat;;
  reg ← call IsRegular;
  match reg with
  | Yes => must CopyFromStdin;; must Flush
  | _ => fail NonRegular
  end.

Definition run_mkdir_helper (m : Env) (path : str) : M unit :=
  uid ← lift (env_u32 m ENV_SESS_UID);
  gid ← lift (env_u32 m ENV_SESS_GID);
  user ← lift (env m ENV_SESS_USER);
  mode ← lift (env_u32 m ENV_SESS_TRANSFER_MODE);
  drop_to_user user uid gid;;
  chdir_home m;;
  a ← call (Mkdir path mode);
  match a with
  | Yes => mret ()
  | AlreadyExists =>
      d ← call (StatIsDir path);
      match d with Yes => mret () | _ => fail (SysErr (Mkdir path mode)) end
  | No => fail (SysErr (Mkdir path mode))
  end.

(** The last component of the shell's path. *)
Definition rsplit_slash (s : str) : str :=
  match rsplit_once 47 s with Some (_, b) => b | None => s end.

Definition helper_argv (shell : str) (command : option str) : M (list bytes) :=
  match command with
  | Some cmd => c ← cstring (utf8 cmd); mret [utf8 shell; lit "-c"; c]
  | None => a ← cstring (45 :: utf8 (rsplit_slash shell)); mret [a]
  end.

Definition HELPER_KEYS : list bytes :=
  [lit "HOME"; lit "USER"; lit "LOGNAME"; lit "SHELL"; lit "TERM"; lit "PATH"].

(** The environment entries the helper sets, by name. *)
Definition helper_env (home user shell term : str) : list (bytes * bytes) :=
  [(lit "HOME", utf8 home); (lit "USER", utf8 user); (lit "LOGNAME", utf8 user);
   (lit "SHELL", utf8 shell); (lit "TERM", utf8 term); (lit "PATH", lit "/usr/local/bin:/usr/bin:/bin")].

Definition env_entry (kv : bytes * bytes) : bytes := kv.1 ++ EQ :: kv.2.

(** The PAM entries that pass: not a helper's name, no NUL. *)
Definition pam_entry_ok (kv : bytes * bytes) : bool :=
  negb (existsb (λ hk, bool_decide (kv.1 = hk)) HELPER_KEYS) && negb (contains 0 (env_entry kv)).

(** [expect] on the helper's own entries is a panic when one holds a NUL. *)
Definition build_envp `{Base64} (m : Env) (home user shell term : str) : M (list bytes) :=
  let pam := match env_var m ENV_SESS_PAM_ENV with
             | Some encoded => List.filter pam_entry_ok (decode_pam_env encoded)
             | None => []
             end in
  let own := helper_env home user shell term in
  if existsb (λ kv, contains 0 (env_entry kv)) own then fail NulInString
  else mret (env_entry <$> (pam ++ own)).

Definition acquire_tty (tty : str) : M unit :=
  must Setsid;; must (OpenTty tty);; must (Dup2 0);; must (Dup2 1);; must (Dup2 2).

Definition run_shell_helper `{Base64} (m : Env) : M unit :=
  uid ← lift (env_u32 m ENV_SESS_UID);
  gid ← lift (env_u32 m ENV_SESS_GID);
  user ← lift (env m ENV_SESS_USER);
  home ← lift (env m ENV_SESS_HOME);
  shell ← lift (env m ENV_SESS_SHELL);
  let term := default (lit "xterm") (env_var m ENV_SESS_TERM) in
  let command := env_var m ENV_SESS_COMMAND in
  match env_var m ENV_SESS_TTY, command with
  | None, Some _ => must Setsid
  | Some tty, _ => acquire_tty tty
  | None, None => mret ()
  end;;
  drop_to_user user uid gid;;
  call (Chdir home);;
  shell_c ← cstring (utf8 shell);
  argv ← helper_argv shell command;
  envp ← build_envp m home user shell term;
  must (Execve shell_c argv envp).

Definition run_session_helper `{Base64} (m : Env) : M unit :=
  match env_var m ENV_SESS_TRANSFER_PATH with
  | Some path => run_transfer_helper m path
  | None =>
      match env_var m ENV_SESS_TRANSFER_WRITE_PATH with
      | Some path => run_transfer_write_helper m path
      | None =>
          match env_var m ENV_SESS_MKDIR_PATH with
          | Some path => run_mkdir_helper m path
          | None => run_shell_helper m
          end
      end
  end.

(** ** Credentials *)
Inductive Groups := RootGroups | GroupsOf (user : bytes) (gid : Z) | GroupList (gids : list Z).
Record Creds := mkCreds { uid : Z; gid : Z; groups : Groups }.

Definition root_creds : Creds := mkCreds 0 0 RootGroups.

(** The credentials of the process, from the calls that succeeded. *)
Definition creds_step (c : Creds) (e : Sys * Answer) : Creds :=
  match e with
  | (InitGroups u g, Yes) => mkCreds (uid c) (gid c) (GroupsOf u g)
  | (SetGroups l, Yes) => mkCreds (uid c) (gid c) (GroupList l)
  | (SetGid g, Yes) => mkCreds (uid c) g (groups c)
  | (SetUid u, Yes) => mkCreds u (gid c) (groups c)
  | _ => c
  end.

Definition creds_of (tr : trace) : Creds := foldl creds_step root_creds tr.

(** The calls that reach a file, a directory, a terminal or a program. *)
Definition is_access (s : Sys) : bool :=
  match s with
  | OpenTty _ | OpenRead _ | OpenWrite _ _ | Fstat | IsRegular | CopyToStdout | CopyFromStdin | Flush
  | Mkdir _ _ | StatIsDir _ | Chdir _ | Chroot _ | Execve _ _ _ => true
  | _ => false
  end.

Definition is_cred (s : Sys) : bool :=
  match s with InitGroups _ _ | SetGroups _ | SetGid _ | SetUid _ => true | _ => false end.

(** The terminal the helper opens: only the mode that runs a shell has one, and
    it is whatever the environment names. *)
Definition helper_tty (m : Env) : option str :=
  match env_var m ENV_SESS_TRANSFER_PATH, env_var m ENV_SESS_TRANSFER_WRITE_PATH, env_var m ENV_SESS_MKDIR_PATH with
  | None, None, None => env_var m ENV_SESS_TTY
  | _, _, _ => None
  end.

(** ** Reasoning about traces *)
Section Triples.
Variable c : Creds.
Variable term : option str.

(** An access the helper may make when its credentials are [c0]: any under [c],
    and under root's the opening of its terminal. *)
Definition permitted (c0 : Creds) (s : Sys) : Prop :=
  c0 = c ∨ ∃ tty, term = Some tty ∧ s = OpenTty tty ∧ c0 = root_creds.

(** Every access was permitted when it was made. *)
Definition good (tr : trace) : Prop :=
  ∀ pre s a post, tr = pre ++ (s, a) :: post → is_access s = true → permitted (creds_of pre) s.

Definition undropped (tr : trace) : Prop := good tr ∧ creds_of tr = root_creds.
Definition dropped (tr : trace) : Prop := good tr ∧ creds_of tr = c.

Lemma undropped_good tr : undropped tr → good tr.
Proof using Type. by intros []. Qed.

Lemma undropped_nil : undropped [].
Proof using Type. split; [|done]. by intros []. Qed.

Lemma good_snoc tr s a : good tr → (is_access s = true → permitted (creds_of tr) s) → good (tr ++ [(s, a)]).
Proof using Type.
  intros Hg Hs pre s' a' post E Ha. destruct post as [|e post _] using rev_ind.
  - apply app_inj_tail in E as [-> [= -> ->]]. by apply Hs.
  - rewrite app_comm_cons, app_assoc in E. apply app_inj_tail in E as [-> _]. by eapply Hg.
Qed.

(** A program takes traces of [P] to traces of [Q], and to good ones whatever
    it returns. *)
Definition triple {A} (P : trace → Prop) (m : M A) (Q : A → trace → Prop) : Prop :=
  ∀ tr, P tr → let '(tr', r) := m tr in good tr' ∧ ∀ a, r = Ok a → Q a tr'.

Lemma triple_bind {A B} P (m : M A) (f : A → M B) R Q :
  triple P m R → (∀ a, triple (R a) (f a) Q) → triple P (m ≫= f) Q.
Proof using Type.
  intros Hm Hf tr HP. specialize (Hm tr HP). unfold mbind, M_bind.
  destruct (m tr) as [tr' [a|e]]; destruct Hm as [Hg Hr].
  - apply (Hf a), Hr. done.
  - by split.
Qed.

Lemma triple_ret {A} (P : trace → Prop) (a : A) : (∀ tr, P tr → good tr) → triple P (mret a) (λ _, P).
Proof using Type. intros HP tr Htr. split; [auto|]. by intros ? [= <-]. Qed.

Lemma triple_fail {A} (P : trace → Prop) e Q : (∀ tr, P tr → good tr) → triple (A := A) P (fail e) Q.
Proof using Type. intros HP tr Htr. split; [auto|]. discriminate. Qed.

Lemma triple_lift {A} (P : trace → Prop) (r : result EnvError A) :
  (∀ tr, P tr → good tr) → triple P (lift r) (λ a tr, r = Ok a ∧ P tr).
Proof using Type.
  intros HP tr Htr. split; [auto|]. destruct r; intros a' [= <-]. done.
Qed.

Lemma triple_pure {A} (φ : Prop) P (m : M A) Q : (φ → triple P m Q) → triple (λ tr, φ ∧ P tr) m Q.
Proof using Type. intros Hm tr [Hφ HP]. by apply Hm. Qed.

Lemma creds_of_snoc tr s a : creds_of (tr ++ [(s, a)]) = creds_step (creds_of tr) (s, a).
Proof using Type. unfold creds_of. by rewrite foldl_app. Qed.

Lemma creds_step_other c0 s a : is_cred s = false → creds_step c0 (s, a) = c0.
Proof using Type. by destruct s. Qed.

(** Before the drop nothing is reached but the terminal; after it anything may be. *)
Lemma triple_call_before s :
  is_cred s = false → (is_access s = true → permitted root_creds s) → triple undropped (call s) (λ _, undropped).
Proof using Type.
  intros Hs Hp tr [Hg Hc]. assert (undropped (tr ++ [(s, os tr s)])) as Hu.
  { split; [apply good_snoc; [done|by rewrite Hc]|by rewrite creds_of_snoc, creds_step_other]. }
  split; [by apply undropped_good|]. by intros.
Qed.

Lemma triple_call_after s : is_cred s = false → triple dropped (call s) (λ _, dropped).
Proof using Type.
  intros Hs tr [Hg Hc]. assert (good (tr ++ [(s, os tr s)])) by (apply good_snoc; [done|by left]).
  split; [done|]. intros a _. split; [done|]. by rewrite creds_of_snoc, creds_step_other.
Qed.

Lemma triple_must {P Q : trace → Prop} s :
  (∀ tr, Q tr → good tr) → triple P (call s) (λ _, Q) → triple P (must s) (λ _, Q).
Proof using Type.
  intros HQ Hc. eapply triple_bind; [exact Hc|]. intros []; [by apply triple_ret|by apply triple_fail..].
Qed.

Lemma triple_must_before s :
  is_cred s = false → is_access s = false → triple undropped (must s) (λ _, undropped).
Proof using Type. intros ? Ha. apply triple_must; [apply undropped_good|apply triple_call_before; [done|congruence]]. Qed.

Lemma triple_open_tty tty : term = Some tty → triple undropped (must (OpenTty tty)) (λ _, undropped).
Proof using Type.
  intros Ht. apply triple_must; [apply undropped_good|]. apply triple_call_before; [done|]. right. by exists tty.
Qed.

Lemma triple_must_after s : is_cred s = false → triple dropped (must s) (λ _, dropped).
Proof using Type. intros. by apply triple_must; [intros ? []|apply triple_call_after]. Qed.

Lemma triple_cstring P b : (∀ tr, P tr → good tr) → triple P (cstring b) (λ b' tr, b' = b ∧ P tr).
Proof using Type.
  intros HP. unfold cstring. destruct (contains 0 b); [by apply triple_fail|].
  intros tr Htr. split; [auto|]. by intros ? [= <-].
Qed.

End Triples.

(** The drop leaves the target's credentials, whatever came before. *)
Lemma triple_drop term user u g :
  let c := mkCreds u g (GroupsOf (utf8 user) g) in
  triple c term (undropped c term) (drop_to_user user u g) (λ _, dropped c term).
Proof.
  intros c. unfold drop_to_user.
  eapply triple_bind; [apply triple_cstring, undropped_good|]. intros cu. apply triple_pure. intros ->.
  intros tr [Hg Hc]. unfold must, call, mbind, M_bind.
  assert (∀ tr' s, good c term tr' → is_access s = false → good c term (tr' ++ [(s, os tr' s)])) as Hsn.
  { intros tr' s ? Hs. apply good_snoc; [done|congruence]. }
  pose proof (Hsn tr (InitGroups (utf8 user) g) Hg eq_refl) as H1.
  destruct (os tr (InitGroups (utf8 user) g)) eqn:?; try (split; [done|discriminate]).
  unfold mret at 1, M_ret. set (tr1 := tr ++ _) in *.
  pose proof (Hsn tr1 (SetGid g) H1 eq_refl) as H2.
  destruct (os tr1 (SetGid g)); try (split; [done|discriminate]).
  unfold mret at 1, M_ret. set (tr2 := tr1 ++ _) in *.
  pose proof (Hsn tr2 (SetUid u) H2 eq_refl) as H3.
  destruct (os tr2 (SetUid u)); try (split; [done|discriminate]).
  unfold mret, M_ret. split; [done|]. intros a _. split; [done|].
  unfold tr2, tr1. by rewrite !creds_of_snoc.
Qed.

(** ** The helper's modes, under the identity the environment names *)
Section Modes.
Context `{Base64} (m : Env) (u g : Z) (user : str) (ctty : option str).
Hypothesis Hu : env_u32 m ENV_SESS_UID = Ok u.
Hypothesis Hg : env_u32 m ENV_SESS_GID = Ok g.
Hypothesis Huser : env m ENV_SESS_USER = Ok user.

Definition target_creds : Creds := mkCreds u g (GroupsOf (utf8 user) g).

Lemma triple_chdir_home : triple target_creds ctty (dropped target_creds ctty) (chdir_home m) (λ _, dropped target_creds ctty).
Proof using Type.
  unfold chdir_home. destruct (env m ENV_SESS_HOME); [|by apply triple_ret; intros ? []].
  eapply triple_bind; [by apply triple_call_after|]. intros ?. by apply triple_ret; intros ? [].
Qed.

(** One more step of a program, by the rule for its head. *)
Ltac step :=
  first
    [ lazymatch goal with |- triple _ _ _ (match ?x with Yes => _ | No => _ | AlreadyExists => _ end) _ =>
        destruct x end
    | eapply triple_bind;
      [ first
          [ eapply triple_lift; first [apply undropped_good | by intros ? []]
          | by apply triple_must_before
          | by apply triple_open_tty
          | by apply triple_must_after
          | by apply triple_call_after
          | by apply triple_drop
          | by apply triple_chdir_home
          | eapply triple_cstring; by intros ? [] ]
      | intros ? ]
    | apply triple_pure; intros ?
    | by apply triple_must_after
    | by apply triple_must_before
    | by apply triple_ret; intros ? []
    | by apply triple_fail; intros ? [] ].

(** The three reads of the identity return what the environment says. *)
Ltac reads := rewrite Hu, Hg, Huser; do 3 (step; step; simplify_eq).

Lemma triple_transfer path : triple target_creds ctty (undropped target_creds ctty) (run_transfer_helper m path) (λ _, dropped target_creds ctty).
Proof using Hu Hg Huser.
  unfold run_transfer_helper. reads. repeat step.
Qed.

Lemma triple_transfer_write path :
  triple target_creds ctty (undropped target_creds ctty) (run_transfer_write_helper m path) (λ _, dropped target_creds ctty).
Proof using Hu Hg Huser.
  unfold run_transfer_write_helper. reads. repeat step.
Qed.

Lemma triple_mkdir path : triple target_creds ctty (undropped target_creds ctty) (run_mkdir_helper m path) (λ _, dropped target_creds ctty).
Proof using Hu Hg Huser.
  unfold run_mkdir_helper. reads. repeat step.
Qed.

Lemma triple_argv shell command :
  triple target_creds ctty (dropped target_creds ctty) (helper_argv shell command) (λ _, dropped target_creds ctty).
Proof using Type.
  unfold helper_argv. destruct command; (eapply triple_bind; [eapply triple_cstring; by intros ? []|]);
    intros ?; step; step.
Qed.

Lemma triple_envp home shell term :
  triple target_creds ctty (dropped target_creds ctty) (build_envp m home user shell term) (λ _, dropped target_creds ctty).
Proof using Type.
  unfold build_envp. destruct (existsb _ _); step.
Qed.

Lemma triple_tty tty :
  ctty = Some tty →
  triple target_creds ctty (undropped target_creds ctty) (acquire_tty tty) (λ _, undropped target_creds ctty).
Proof using Type. intros Ht. unfold acquire_tty. repeat step. Qed.

Lemma triple_shell :
  (∀ tty, env_var m ENV_SESS_TTY = Some tty → ctty = Some tty) →
  triple target_creds ctty (undropped target_creds ctty) (run_shell_helper m) (λ _, dropped target_creds ctty).
Proof using Hu Hg Huser.
  intros Hterm. unfold run_shell_helper. reads. do 4 step. eapply triple_bind.
  { destruct (env_var m ENV_SESS_TTY), (env_var m ENV_SESS_COMMAND);
      first [apply triple_tty; by apply Hterm | by apply triple_must_before | apply triple_ret; apply undropped_good]. }
  intros ?. do 4 step.
  eapply triple_bind; [apply triple_argv|]. intros argv.
  eapply triple_bind; [apply triple_envp|]. intros envp. by apply triple_must_after.
Qed.

Lemma triple_session :
  ctty = helper_tty m →
  triple target_creds ctty (undropped target_creds ctty) (run_session_helper m) (λ _, dropped target_creds ctty).
Proof using Hu Hg Huser.
  unfold run_session_helper, helper_tty.
  destruct (env_var m ENV_SESS_TRANSFER_PATH); [intros _; apply triple_transfer|].
  destruct (env_var m ENV_SESS_TRANSFER_WRITE_PATH); [intros _; apply triple_transfer_write|].
  destruct (env_var m ENV_SESS_MKDIR_PATH); [intros _; apply triple_mkdir|].
  intros Ht. apply triple_shell. intros tty. by rewrite <- Ht.
Qed.

End Modes.

(** Without an identity the helper makes no call at all. *)
Lemma session_no_identity `{Base64} m tr e :
  (v ← env_u32 m ENV_SESS_UID; w ← env_u32 m ENV_SESS_GID; x ← env m ENV_SESS_USER;
   Ok (v, w, x)) = Err e →
  (run_session_helper m tr).1 = tr.
Proof.
  intros E. unfold run_session_helper, run_transfer_helper, run_transfer_write_helper, run_mkdir_helper,
    run_shell_helper, lift, mbind, M_bind.
  destruct (env_u32 m ENV_SESS_UID), (env_u32 m ENV_SESS_GID), (env m ENV_SESS_USER); try discriminate E;
    repeat case_match; by simplify_eq/=.
Qed.

(** Every access of the helper is permitted. *)
Lemma session_permitted {b64 : Base64} (m : Env) (u g : Z) (user : str) pre post s a r :
  env_u32 m ENV_SESS_UID = Ok u → env_u32 m ENV_SESS_GID = Ok g → env m ENV_SESS_USER = Ok user →
  run_session_helper m [] = (pre ++ (s, a) :: post, r) → is_access s = true →
  permitted (mkCreds u g (GroupsOf (utf8 user) g)) (helper_tty m) (creds_of pre) s.
Proof.
  intros Eu Eg En Hrun Hs.
  pose proof (triple_session m u g user _ Eu Eg En eq_refl [] (undropped_nil _ _)) as Ht. rewrite Hrun in Ht.
  destruct Ht as [Hgood _]. by eapply Hgood.
Qed.

(** C3: the session helper reaches files, directories and programs only as the
    authenticated user; its terminal it opens as root. Whatever the operating
    system answers, in every mode (shell, command, download, upload, directory),
    every file opened, inspected or copied, every directory entered, created or
    inspected and every program executed is so under the uid, the gid and the
    supplementary groups of the user the monitor named, and never when dropping
    root's credentials failed. The one exception is made before the drop, with
    root's credentials: with no download, upload or directory asked for, the
    helper opens the path [QUISH_SESS_TTY] names in its environment, that path
    and no other. *)
Theorem helper_access_as_user {b64 : Base64} (m : Env) (pre post : trace) (s : Sys) (a : Answer)
    (r : result HelperError unit) :
  run_session_helper m [] = (pre ++ (s, a) :: post, r) → is_access s = true →
  ∃ u g user, env_u32 m ENV_SESS_UID = Ok u ∧ env_u32 m ENV_SESS_GID = Ok g ∧ env m ENV_SESS_USER = Ok user ∧
    (creds_of pre = mkCreds u g (GroupsOf (utf8 user) g) ∨
     ∃ tty, s = OpenTty tty ∧ env_var m ENV_SESS_TTY = Some tty ∧ creds_of pre = root_creds ∧
       env_var m ENV_SESS_TRANSFER_PATH = None ∧ env_var m ENV_SESS_TRANSFER_WRITE_PATH = None ∧
       env_var m ENV_SESS_MKDIR_PATH = None).
Proof.
  intros Hrun Hs.
  destruct (env_u32 m ENV_SESS_UID) as [u|e] eqn:Eu; [destruct (env_u32 m ENV_SESS_GID) as [g|e] eqn:Eg;
    [destruct (env m ENV_SESS_USER) as [user|e] eqn:En|]|].
  2-4: pose proof (session_no_identity m [] e) as Hn; rewrite Eu, ?Eg, ?En, Hrun in Hn; simpl in Hn;
       by destruct pre; specialize (Hn eq_refl).
  exists u, g, user. split_and!; [done..|].
  destruct (session_permitted m u g user pre post s a r Eu Eg En Hrun Hs) as [Hc|(tty & Ht & -> & Hc)]; [by left|].
  right. exists tty. unfold helper_tty in Ht. by repeat case_match.
Qed.

(** The calls of a drop that succeeds. *)
Lemma drop_to_worker_ok (lookup_user : str → option User) (dir name : str) (tr : trace) :
  drop_to_worker lookup_user dir name [] = (tr, Ok ()) →
  ∃ user a, lookup_user name = Some user ∧ u_uid user ≠ 0 ∧
    tr = [(Chroot dir, Yes); (Chdir (lit "/"), Yes); (SetGroups [u_gid user], Yes); (SetGid (u_gid user), Yes);
          (SetUid (u_uid user), Yes); (NoNewPrivs, Yes); (PdeathSig, Yes); (SetUid 0, a)] ∧ a ≠ Yes.
Proof.
  unfold drop_to_worker. destruct (lookup_user name) as [user|]; [|done].
  destruct (Z.eqb_spec (u_uid user) 0); [done|].
  unfold must, call, mbind, M_bind, mret, M_ret, fail.
  repeat (cbn [app]; match goal with |- context [os ?t ?s] => destruct (os t s) eqn:? end; try done);
    intros [= <-]; eexists user, _; (split_and!; [done|done|reflexivity|done]).
Qed.

(** The worker gives up root for good or does not start. If dropping
    privileges succeeds, the account exists and is not root; the process is
    inside the chroot; its uid, gid and only supplementary group are the
    account's, set in the order groups, gid, uid; no-new-privs and the parent
    death signal are set after that; and the system has just refused to give
    uid 0 back. *)
Theorem drop_to_worker_irrevocable (lookup_user : str → option User) (dir name : str) (tr : trace) :
  drop_to_worker lookup_user dir name [] = (tr, Ok ()) →
  ∃ user a, lookup_user name = Some user ∧ u_uid user ≠ 0 ∧
    tr = [(Chroot dir, Yes); (Chdir (lit "/"), Yes); (SetGroups [u_gid user], Yes); (SetGid (u_gid user), Yes);
          (SetUid (u_uid user), Yes); (NoNewPrivs, Yes); (PdeathSig, Yes); (SetUid 0, a)] ∧
    a ≠ Yes ∧ creds_of tr = mkCreds (u_uid user) (u_gid user) (GroupList [u_gid user]).
Proof.
  intros (user & a & Hu & H0 & -> & Ha)%drop_to_worker_ok. exists user, a. split_and!; try done. by destruct a.
Qed.

(** The filter stops what an exploit would want, and also a call the
    worker makes. Enforcing, the filter kills on opening a file, executing a
    program, tracing, loading kernel code or changing identity. It kills on
    [shutdown] too, which half-closing a forwarded TCP stream performs. *)
Theorem seccomp_denies (name : string) :
  name ∈ ["open"; "openat"; "execve"; "execveat"; "ptrace"; "bpf"; "io_uring_setup"; "keyctl"; "mount";
          "kexec_load"; "process_vm_writev"; "setuid"; "setgid"; "setgroups"; "chroot"; "kill"; "fork";
          "unlink"; "rename"; "shutdown"]%string →
  filter_action true name = FilterKill ∧ filter_action false name = FilterLog.
Proof.
  intros Hn. assert (name ∉ WORKER_SYSCALLS) as Hw.
  { revert name Hn. apply Forall_forall. by_dec. }
  unfold filter_action. by rewrite bool_decide_false.
Qed.

(** ** The environment of the shell *)
Lemma helper_env_keys home user shell term : (helper_env home user shell term).*1 = HELPER_KEYS.
Proof. done. Qed.

(** The helper's variables win over PAM's. The environment of the executed
    shell is the PAM variables whose names are none of the six the helper
    controls (and that are representable), then the six, once each, with the
    helper's values: a PAM module cannot redirect HOME, USER, LOGNAME, SHELL,
    TERM or PATH, and every other variable it set arrives unchanged. *)
Theorem helper_env_wins {b64 : Base64} (m : Env) (home user shell term : str) (tr tr' : trace) (envp : list bytes) :
  build_envp m home user shell term tr = (tr', Ok envp) →
  ∃ pam, envp = env_entry <$> (pam ++ helper_env home user shell term) ∧ tr' = tr ∧
    (∀ k v, k ∈ HELPER_KEYS → (k, v) ∈ pam ++ helper_env home user shell term →
       (k, v) ∈ helper_env home user shell term) ∧
    (∀ encoded k v, env_var m ENV_SESS_PAM_ENV = Some encoded →
       ((k, v) ∈ pam ↔ (k, v) ∈ decode_pam_env encoded ∧ k ∉ HELPER_KEYS ∧ 0 ∉ k ++ EQ :: v)).
Proof.
  unfold build_envp. set (pam := match env_var m ENV_SESS_PAM_ENV with Some _ => _ | None => _ end).
  destruct (existsb _ _); [done|]. intros [= <- <-]. exists pam.
  assert (∀ kv, pam_entry_ok kv = true ↔ kv.1 ∉ HELPER_KEYS ∧ 0 ∉ env_entry kv) as Hok.
  { intros kv. unfold pam_entry_ok. rewrite andb_true_iff, !negb_true_iff, contains_false.
    split; intros [H1 H2]; split; try done.
    - intros Hk. rewrite <- not_true_iff_false, existsb_exists in H1. apply H1. exists kv.1.
      rewrite bool_decide_eq_true, <- list_elem_of_In. done.
    - apply not_true_iff_false. rewrite existsb_exists. intros (x & Hx & Hb). bool_to_prop. subst.
      by rewrite <- list_elem_of_In in Hx. }
  split_and!; [done|done| |].
  - intros k v Hk. rewrite elem_of_app. intros [Hp|]; [|done]. exfalso. subst pam.
    destruct (env_var m ENV_SESS_PAM_ENV); [|by apply not_elem_of_nil in Hp].
    apply list_elem_of_In, List.filter_In in Hp as [_ Hp]. by apply Hok in Hp as [].
  - intros encoded k v Ee. subst pam. rewrite Ee, list_elem_of_In, List.filter_In, Hok, <- list_elem_of_In.
    done.
Qed.

End Os.

(** ** Witnesses *)
Definition os_yes (_ : trace) (s : Sys) : Answer := match s with SetUid 0 => No | _ => Yes end.

Definition env0 : Env :=
  list_to_map [(ENV_SESS_UID, lit "1000"); (ENV_SESS_GID, lit "1001"); (ENV_SESS_USER, lit "bob");
               (ENV_SESS_HOME, lit "/home/bob"); (ENV_SESS_SHELL, lit "/bin/sh"); (ENV_SESS_COMMAND, lit "id")].

Lemma helper_access_as_user_witness :
  let pre := [(Setsid, Yes); (InitGroups (lit "bob") 1001, Yes); (SetGid 1001, Yes); (SetUid 1000, Yes);
              (Chdir (lit "/home/bob"), Yes)] in
  ∃ u g user, env_u32 env0 ENV_SESS_UID = Ok u ∧ env_u32 env0 ENV_SESS_GID = Ok g ∧ env env0 ENV_SESS_USER = Ok user ∧
    (creds_of pre = mkCreds u g (GroupsOf (utf8 user) g) ∨
     ∃ tty, Execve (lit "/bin/sh") [lit "/bin/sh"; lit "-c"; lit "id"]
         (env_entry <$> helper_env (lit "/home/bob") (lit "bob") (lit "/bin/sh") (lit "xterm")) = OpenTty tty ∧
       env_var env0 ENV_SESS_TTY = Some tty ∧ creds_of pre = root_creds ∧
       env_var env0 ENV_SESS_TRANSFER_PATH = None ∧ env_var env0 ENV_SESS_TRANSFER_WRITE_PATH = None ∧
       env_var env0 ENV_SESS_MKDIR_PATH = None).
Proof.
  intros pre. eapply (helper_access_as_user os_yes env0 pre [] (Execve (lit "/bin/sh") [lit "/bin/sh"; lit "-c"; lit "id"]
    (env_entry <$> helper_env (lit "/home/bob") (lit "bob") (lit "/bin/sh") (lit "xterm"))) Yes (Ok ())).
  - vm_compute. reflexivity.
  - reflexivity.
Defined.

(** A helper that runs a command, started where [QUISH_SESS_TTY] is set: the file
    it names is opened as root and put on the command's three descriptors. *)
Definition env_tty : Env := <[ENV_SESS_TTY := lit "/etc/shadow"]> env0.

Example inherited_tty_as_root :
  let tr := (run_session_helper os_yes env_tty []).1 in
  take 5 tr = [(Setsid, Yes); (OpenTty (lit "/etc/shadow"), Yes); (Dup2 0, Yes); (Dup2 1, Yes); (Dup2 2, Yes)] ∧
  creds_of (take 1 tr) = root_creds ∧ env_var env_tty ENV_SESS_COMMAND = Some (lit "id") ∧
  ∃ argv envp, last tr = Some (Execve (lit "/bin/sh") argv envp, Yes).
Proof. vm_compute. repeat split. by eexists _, _. Qed.

Lemma drop_to_worker_irrevocable_witness :
  let look (n : str) := Some (mkUser n 990 991 (lit "/") (lit "/bin/false")) in
  let tr := [(Chroot (lit "/var/empty"), Yes); (Chdir (lit "/"), Yes); (SetGroups [991], Yes); (SetGid 991, Yes);
             (SetUid 990, Yes); (NoNewPrivs, Yes); (PdeathSig, Yes); (SetUid 0, No)] in
  ∃ user a, look (lit "quish") = Some user ∧ u_uid user ≠ 0 ∧
    tr = [(Chroot (lit "/var/empty"), Yes); (Chdir (lit "/"), Yes); (SetGroups [u_gid user], Yes);
          (SetGid (u_gid user), Yes); (SetUid (u_uid user), Yes); (NoNewPrivs, Yes); (PdeathSig, Yes); (SetUid 0, a)] ∧
    a ≠ Yes ∧ creds_of tr = mkCreds (u_uid user) (u_gid user) (GroupList [u_gid user]).
Proof.
  intros look tr. by apply (drop_to_worker_irrevocable os_yes look (lit "/var/empty") (lit "quish") tr).
Defined.

Lemma seccomp_denies_witness :
  filter_action true "shutdown" = FilterKill ∧ filter_action false "shutdown" = FilterLog.
Proof. apply (seccomp_denies "shutdown"). by_dec. Defined.

Lemma helper_env_wins_witness :
  ∃ pam,
    env_entry <$> (([] : list (bytes * bytes)) ++ helper_env (lit "/h") (lit "bob") (lit "/bin/sh") (lit "vt"))
      = env_entry <$> (pam ++ helper_env (lit "/h") (lit "bob") (lit "/bin/sh") (lit "vt")) ∧ ([] : trace) = [] ∧
    (∀ k v, k ∈ HELPER_KEYS → (k, v) ∈ pam ++ helper_env (lit "/h") (lit "bob") (lit "/bin/sh") (lit "vt") →
       (k, v) ∈ helper_env (lit "/h") (lit "bob") (lit "/bin/sh") (lit "vt")) ∧
    (∀ encoded k v, env_var env0 ENV_SESS_PAM_ENV = Some encoded →
       ((k, v) ∈ pam ↔ (k, v) ∈ decode_pam_env encoded ∧ k ∉ HELPER_KEYS ∧ 0 ∉ k ++ EQ :: v)).
Proof.
  apply (helper_env_wins env0 (lit "/h") (lit "bob") (lit "/bin/sh") (lit "vt") [] []).
  vm_compute. reflexivity.
Defined.

End Privdrop.
