(* ===== verification/Monitor.v ===== *)
(** * Monitor: the privileged side of the server

    The control loop of [quish-server/src/monitor.rs]: its state, one handler
    per request, the spawning of session helpers and the reaping of their
    processes. A handler is a function of the state and of what the operating
    system, PAM and the clock answer while it runs ([Os]). *)
From S2P Require Import Prelude RustStr Postcard Base64 Proto Net Ipc Auth Challenge Privdrop.
Import Ipc Auth Challenge.

Module Monitor.
Import Privdrop.

(** ** Processes *)
Record Child := mkChild { child_pid : Z }.

Inductive Stdio := StdNull | StdPiped | StdFd (fd : Fd) | StdInherit.

(** [std::process::Command]: arguments, the variables set on top of the
    inherited environment, and the standard streams. *)
Record Command := mkCommand {
  cmd_args : list str;
  cmd_env : list (bytes * bytes);
  cmd_stdin : Stdio;
  cmd_stdout : Stdio;
  cmd_stderr : Stdio;
}.

(** A spawned child: its pid and our ends of the piped streams. *)
Record Spawn := mkSpawn { sp_pid : Z; sp_stdin : Fd; sp_stdout : Fd; sp_stderr : Fd }.

(** ** What the outside answers during one request *)
Record Os := mkOs {
  os_world : World;
  os_now : Z;
  os_now' : Z;
  os_user : str → option User;
  os_pam : str → option (Z * list (bytes * bytes));
  os_pty : option (Fd * Fd * str);
  os_spawn : Command → option Spawn;
  os_try_wait : Z → option (option Z);
  os_wait : Z → option (option Z);
}.

Inductive Sig := SIGHUP | SIGKILL | SIGINT | SIGQUIT | SIGTERM.

(** The effects outside the monitor's own state. *)
Inductive Effect :=
| EKillPg (pid : Z) (sig : Sig)
| EKill (pid : Z) (sig : Sig)
| EWait (pid : Z)
| ESpawn (cmd : Command) (pid : Z)
| EPamOpen (user : str) (handle : Z)
| EPamClose (handle : Z).

(** ** The session index *)
Record SessionIndex := mkIndex { sessions_by_conn : gmap Z (list Z) }.

Definition index_insert (conn_id session_id : Z) (i : SessionIndex) : SessionIndex :=
  mkIndex (<[conn_id := default [] (sessions_by_conn i !! conn_id) ++ [session_id]]> (sessions_by_conn i)).

Definition take_conn (conn_id : Z) (i : SessionIndex) : list Z * SessionIndex :=
  (default [] (sessions_by_conn i !! conn_id), mkIndex (delete conn_id (sessions_by_conn i))).

Definition index_forget (session_id : Z) (i : SessionIndex) : SessionIndex :=
  mkIndex (filter (λ s, s ≠ session_id) <$> sessions_by_conn i).

(** ** The state *)
Record State := mkState {
  users : gmap Z str;
  sessions : gmap Z Child;
  conn_sessions : SessionIndex;
  challenges : ChallengeStore;
  next_session : Z;
  pam_sessions : gmap Z Z;
}.

Definition State_default : State := mkState ∅ ∅ (mkIndex ∅) store_default 0 ∅.

Definition set_users f (st : State) : State :=
  mkState (f (users st)) (sessions st) (conn_sessions st) (challenges st) (next_session st) (pam_sessions st).
Definition set_challenges f (st : State) : State :=
  mkState (users st) (sessions st) (conn_sessions st) (f (challenges st)) (next_session st) (pam_sessions st).
Definition set_pam f (st : State) : State :=
  mkState (users st) (sessions st) (conn_sessions st) (challenges st) (next_session st) (f (pam_sessions st)).

(** The counter is a [u64] and wraps; the map's insertion replaces what was under
    the id. *)
Definition alloc (conn_id : Z) (child : Child) (st : State) : Z * State :=
  let id := wrap_add 64 (next_session st) 1 in
  (id, mkState (users st) (<[id := child]> (sessions st)) (index_insert conn_id id (conn_sessions st))
         (challenges st) id (pam_sessions st)).

Definition forget_session (session_id : Z) (st : State) : State :=
  mkState (users st) (delete session_id (sessions st)) (index_forget session_id (conn_sessions st))
    (challenges st) (next_session st) (pam_sessions st).

(** ** Reaping *)
Definition reap_child (os : Os) (child : Child) : Z * list Effect :=
  let p := child_pid child in
  match os_try_wait os p with
  | Some status => (default (-1) status, [])
  | None =>
      (default (-1) (default None (os_wait os p)),
       [EKillPg p SIGHUP; EKill p SIGHUP; EKillPg p SIGKILL; EKill p SIGKILL; EWait p])
  end.

(** ** Spawning *)
Definition session_command (u : User) : Command :=
  let shell := if bool_decide (u_shell u = []) then lit "/bin/sh" else u_shell u in
  mkCommand [lit "--internal-run-session"]
    [(ENV_SESS_UID, show_uint (u_uid u)); (ENV_SESS_GID, show_uint (u_gid u)); (ENV_SESS_USER, utf8 (u_name u));
     (ENV_SESS_HOME, utf8 (u_dir u)); (ENV_SESS_SHELL, utf8 shell)]
    StdInherit StdInherit StdInherit.

Definition cmd_with (env : list (bytes * bytes)) (i o e : Stdio) (c : Command) : Command :=
  mkCommand (cmd_args c) (cmd_env c ++ env) i o e.

(** [Command::spawn] refuses an environment with a NUL. *)
Definition cmd_spawn (os : Os) (cmd : Command) : option Spawn :=
  if existsb (λ kv, contains 0 kv.2) (cmd_env cmd) then None else os_spawn os cmd.

Definition pam_env_var (pam_env : option str) : list (bytes * bytes) :=
  match pam_env with Some e => [(ENV_SESS_PAM_ENV, utf8 e)] | None => [] end.

Definition shell_command (u : User) (term tty : str) (slave : Fd) (pam_env : option str) : Command :=
  cmd_with ([(ENV_SESS_TERM, utf8 term); (ENV_SESS_TTY, utf8 tty)] ++ pam_env_var pam_env)
    (StdFd slave) (StdFd slave) (StdFd slave) (session_command u).

Definition exec_command (u : User) (command : str) (pam_env : option str) : Command :=
  cmd_with ([(ENV_SESS_COMMAND, utf8 command)] ++ pam_env_var pam_env) StdPiped StdPiped StdPiped
    (session_command u).

Definition transfer_command (u : User) (path : str) : Command :=
  cmd_with [(ENV_SESS_TRANSFER_PATH, utf8 path)] StdNull StdPiped StdInherit (session_command u).

Definition mkdir_command (u : User) (path : str) (mode : Z) : Command :=
  cmd_with [(ENV_SESS_MKDIR_PATH, utf8 path); (ENV_SESS_TRANSFER_MODE, show_uint mode)]
    StdNull StdPiped StdInherit (session_command u).

Definition transfer_write_command (u : User) (path : str) (mode : Z) : Command :=
  cmd_with [(ENV_SESS_TRANSFER_WRITE_PATH, utf8 path); (ENV_SESS_TRANSFER_MODE, show_uint mode)]
    StdPiped StdPiped StdInherit (session_command u).

(** Each returns the command it ran, the child and the descriptors for the
    worker. The pseudo-terminal (master, opened slave, its path) is made before
    the command is built. *)
Definition spawn_shell (os : Os) (user term : str) (pam_env : option str) : option (Command * Child * list Fd) :=
  u ← os_user os user;
  '(master, slave, tty) ← os_pty os;
  let cmd := shell_command u term tty slave pam_env in
  sp ← cmd_spawn os cmd;
  Some (cmd, mkChild (sp_pid sp), [master]).

Definition spawn_exec (os : Os) (user command : str) (pam_env : option str) : option (Command * Child * list Fd) :=
  u ← os_user os user;
  let cmd := exec_command u command pam_env in
  sp ← cmd_spawn os cmd;
  Some (cmd, mkChild (sp_pid sp), [sp_stdin sp; sp_stdout sp; sp_stderr sp]).

Definition spawn_transfer (os : Os) (user path : str) : option (Command * Child * list Fd) :=
  u ← os_user os user;
  let cmd := transfer_command u path in
  sp ← cmd_spawn os cmd;
  Some (cmd, mkChild (sp_pid sp), [sp_stdout sp]).

Definition spawn_mkdir (os : Os) (user path : str) (mode : Z) : option (Command * Child * list Fd) :=
  u ← os_user os user;
  let cmd := mkdir_command u path mode in
  sp ← cmd_spawn os cmd;
  Some (cmd, mkChild (sp_pid sp), [sp_stdout sp]).

Definition spawn_transfer_write (os : Os) (user path : str) (mode : Z) : option (Command * Child * list Fd) :=
  u ← os_user os user;
  let cmd := transfer_write_command u path mode in
  sp ← cmd_spawn os cmd;
  Some (cmd, mkChild (sp_pid sp), [sp_stdin sp; sp_stdout sp]).

(** ** Handlers *)
Section Handlers.
Context `{Base64, Postcard Token}.
Variable registry : Registry.
Variable parse_addr : str → option SocketAddr.

Definition reply : Type := Response * list Fd.

Definition handle_authenticate (os : Os) (conn_id : Z) (authorization : option str) (peer : str)
    (binding : bytes) (answer : option ChallengeAnswer) (st : State) : State * reply * list Effect :=
  let addr := default (mkSocketAddr (V4 0) 0) (parse_addr peer) in
  let '(chal, st) :=
    match answer with
    | Some ans =>
        let '(taken, store) := store_take conn_id (ans_token ans) (os_now os) (challenges st) in
        ((λ s, mkResponse s (responses ans)) <$> taken, set_challenges (λ _, store) st)
    | None => (None, st)
    end in
  match verdict registry (os_world os) authorization (mkConnInfo addr binding chal) with
  | Allow user => (set_users (<[conn_id := user]>) st, (VerdictResp true, []), [])
  | ChallengeV state prompts =>
      (set_challenges (store_insert conn_id state (os_now' os)) st,
       (ChallengeResp {| ch_token := st_token state; prompts := prompts |}, []), [])
  | Deny => (st, (VerdictResp false, []), [])
  end.

(** A session with a PAM login: the guard is kept with the session, or dropped
    (closing the login) when the spawn fails. *)
Definition handle_spawn_pam (os : Os) (conn_id : Z)
    (spawn : str → option str → option (Command * Child * list Fd)) (st : State) :
    State * reply * list Effect :=
  match users st !! conn_id with
  | None => (st, (Failed, []), [])
  | Some user =>
      let pam := os_pam os user in
      let opened := match pam with Some (h, _) => [EPamOpen user h] | None => [] end in
      let pam_env := (λ p : Z * list (bytes * bytes), encode_pam_env p.2) <$> pam in
      match spawn user pam_env with
      | Some (cmd, child, fds) =>
          let '(id, st) := alloc conn_id child st in
          let st := match pam with Some (h, _) => set_pam (<[id := h]>) st | None => st end in
          (st, (Spawned id, fds), opened ++ [ESpawn cmd (child_pid child)])
      | None =>
          (st, (Failed, []), opened ++ match pam with Some (h, _) => [EPamClose h] | None => [] end)
      end
  end.

Definition handle_spawn (conn_id : Z) (spawn : str → option (Command * Child * list Fd)) (st : State) :
    State * reply * list Effect :=
  match users st !! conn_id with
  | None => (st, (Failed, []), [])
  | Some user =>
      match spawn user with
      | Some (cmd, child, fds) =>
          let '(id, st) := alloc conn_id child st in
          (st, (Spawned id, fds), [ESpawn cmd (child_pid child)])
      | None => (st, (Failed, []), [])
      end
  end.

(** Dropping the PAM guard of a session, if it has one. *)
Definition drop_pam (session_id : Z) (st : State) : State * list Effect :=
  match pam_sessions st !! session_id with
  | Some h => (set_pam (delete session_id) st, [EPamClose h])
  | None => (st, [])
  end.

Definition handle_reap (os : Os) (session_id : Z) (st : State) : State * reply * list Effect :=
  match sessions st !! session_id with
  | Some child =>
      let st := forget_session session_id st in
      let '(code, kills) := reap_child os child in
      let '(st, closes) := drop_pam session_id st in
      (st, (Exited code, []), kills ++ closes)
  | None => (st, (Failed, []), [])
  end.

Definition remove_session (sid : Z) (st : State) : State :=
  mkState (users st) (delete sid (sessions st)) (conn_sessions st) (challenges st) (next_session st)
    (pam_sessions st).

Fixpoint close_sessions (os : Os) (sids : list Z) (st : State) : State * list Effect :=
  match sids with
  | [] => (st, [])
  | sid :: sids =>
      let '(st, kills) :=
        match sessions st !! sid with
        | Some child => (remove_session sid st, (reap_child os child).2)
        | None => (st, [])
        end in
      let '(st, closes) := drop_pam sid st in
      let '(st, rest) := close_sessions os sids st in
      (st, kills ++ closes ++ rest)
  end.

Definition handle_close (os : Os) (conn_id : Z) (st : State) : State * reply * list Effect :=
  let '(sids, index) := take_conn conn_id (conn_sessions st) in
  let st := mkState (delete conn_id (users st)) (sessions st) index
              (store_clear conn_id (challenges st)) (next_session st) (pam_sessions st) in
  let '(st, effects) := close_sessions os sids st in
  (st, (Closed, []), effects).

Definition sig_of (s : Signal) : Sig :=
  match s with Int => SIGINT | Quit => SIGQUIT | Term => SIGTERM end.

Definition handle_signal (session_id : Z) (signal : Signal) (st : State) : State * reply * list Effect :=
  (st, (Closed, []),
   match sessions st !! session_id with
   | Some child => [EKillPg (child_pid child) (sig_of signal)]
   | None => []
   end).

Definition handle (os : Os) (req : Request) (st : State) : State * reply * list Effect :=
  match req with
  | Authenticate conn_id authorization peer binding answer =>
      handle_authenticate os conn_id authorization peer binding answer st
  | SpawnShell conn_id term => handle_spawn_pam os conn_id (λ user, spawn_shell os user term) st
  | SpawnExec conn_id command => handle_spawn_pam os conn_id (λ user, spawn_exec os user command) st
  | SpawnTransfer conn_id path => handle_spawn conn_id (λ user, spawn_transfer os user path) st
  | SpawnTransferWrite conn_id path mode =>
      handle_spawn conn_id (λ user, spawn_transfer_write os user path mode) st
  | SpawnMkdir conn_id path mode => handle_spawn conn_id (λ user, spawn_mkdir os user path mode) st
  | Reap session_id => handle_reap os session_id st
  | Close conn_id => handle_close os conn_id st
  | SignalReq session_id signal => handle_signal session_id signal st
  end.

(** ** The control loop

    The packets the worker sends, each with what the outside answers while it
    is handled; the descriptors of a request are dropped. An error of the send
    ends the loop. *)
Fixpoint serve_control `{Postcard Request, Postcard Response} (incoming : list (Os * option packet)) (st : State) :
    State * list packet * list Effect :=
  match incoming with
  | [] => (st, [], [])
  | (os, p) :: incoming =>
      match ctrl_recv (T := Request) p with
      | RecvClosed => (st, [], [])
      | Bad => serve_control incoming st
      | Msg req _ =>
          let '(st, (resp, fds), effects) := handle os req st in
          match ctrl_send resp fds with
          | Ok out =>
              let '(st, outs, rest) := serve_control incoming st in
              (st, out :: outs, effects ++ rest)
          | Err _ => (st, [], effects)
          end
      end
  end.

End Handlers.

(** ** Invariants *)

(** The live sessions of a connection. *)
Definition owned (i : SessionIndex) (conn_id : Z) : list Z := default [] (sessions_by_conn i !! conn_id).

(** The sessions are exactly those the index lists, each under one connection
    and once; ids were all handed out; a PAM login belongs to a session. *)
Record inv (st : State) : Prop := {
  inv_index id : is_Some (sessions st !! id) ↔ ∃ c, id ∈ owned (conn_sessions st) c;
  inv_one c1 c2 id : id ∈ owned (conn_sessions st) c1 → id ∈ owned (conn_sessions st) c2 → c1 = c2;
  inv_nodup c : NoDup (owned (conn_sessions st) c);
  inv_ids id : is_Some (sessions st !! id) → 0 < id ≤ next_session st;
  inv_next : 0 ≤ next_session st;
  inv_pam id : is_Some (pam_sessions st !! id) → is_Some (sessions st !! id);
}.

Lemma owned_insert c id i c' :
  owned (index_insert c id i) c' = if decide (c' = c) then owned i c ++ [id] else owned i c'.
Proof. unfold owned, index_insert. simpl. case_decide; subst; by simplify_map_eq. Qed.

Lemma owned_forget id i c : owned (index_forget id i) c = filter (λ s, s ≠ id) (owned i c).
Proof. unfold owned, index_forget. simpl. rewrite lookup_fmap. by destruct (_ !! c). Qed.

Lemma owned_take c i c' : owned (take_conn c i).2 c' = if decide (c' = c) then [] else owned i c'.
Proof. unfold owned, take_conn. simpl. case_decide; subst; by simplify_map_eq. Qed.

Lemma inv_default : inv State_default.
Proof.
  assert (∀ c, owned (conn_sessions State_default) c = []) as Ho by done.
  split.
  - intros id. split; [by intros []|]. intros [c Hc]. rewrite Ho in Hc. by apply not_elem_of_nil in Hc.
  - intros c1 c2 id Hc. rewrite Ho in Hc. by apply not_elem_of_nil in Hc.
  - intros c. rewrite Ho. constructor.
  - by intros id [].
  - done.
  - by intros id [].
Qed.

(** The last id is followed by 0, and 0 by ids that may be in use. *)
Example ids_wrap child :
  (alloc 1 child (mkState ∅ ∅ (mkIndex ∅) store_default (2 ^ 64 - 1) ∅)).1 = 0.
Proof. done. Qed.

(** No id has wrapped around yet, nor does the next. *)
Definition fresh_ids (st : State) : Prop := 0 ≤ next_session st ∧ next_session st + 1 < 2 ^ 64.

Lemma next_id st : fresh_ids st → wrap_add 64 (next_session st) 1 = next_session st + 1.
Proof. intros [H0 H1]. unfold wrap_add. apply Z.mod_small. lia. Qed.

Lemma inv_alloc c child st : fresh_ids st → inv st → inv (alloc c child st).2.
Proof.
  intros Hw [Hi Ho Hn Hd H0 Hp]. unfold alloc. rewrite (next_id st Hw). set (id := next_session st + 1).
  assert (sessions st !! id = None) as Hfresh.
  { destruct (sessions st !! id) eqn:E; [|done]. specialize (Hd id ltac:(by eexists)). lia. }
  assert (∀ c', id ∉ owned (conn_sessions st) c') as Hni.
  { intros c' Hc. assert (is_Some (sessions st !! id)) as [? ?] by (apply Hi; eauto). congruence. }
  split; cbn [snd sessions conn_sessions next_session pam_sessions].
  - intros id'. setoid_rewrite owned_insert. destruct (decide (id' = id)) as [->|Hne].
    + rewrite lookup_insert_eq. split; [|by eexists]. intros _. exists c. rewrite decide_True by done.
      apply elem_of_app. right. by left.
    + rewrite lookup_insert_ne by done. rewrite Hi. split; intros [c' Hc']; exists c'; case_decide; subst;
        rewrite ?elem_of_app, ?list_elem_of_singleton in *; naive_solver.
  - intros c1 c2 id'. rewrite !owned_insert. specialize (Ho c1 c2 id'). specialize (Hni c1) as H1.
    specialize (Hni c2) as H2. repeat case_decide; subst; rewrite ?elem_of_app, ?list_elem_of_singleton; naive_solver.
  - intros c'. rewrite owned_insert. case_decide; [|done]. subst. apply NoDup_app. split_and!; [done| |].
    + intros x Hx ->%list_elem_of_singleton. by apply (Hni c).
    + apply NoDup_singleton.
  - intros id' Hs. destruct (decide (id' = id)) as [->|Hne]; [lia|].
    rewrite lookup_insert_ne in Hs by done. specialize (Hd id' Hs). lia.
  - lia.
  - intros id' Hs. destruct (decide (id' = id)) as [->|Hne]; [by rewrite lookup_insert_eq|].
    rewrite lookup_insert_ne by done. by apply Hp.
Qed.

(** What removing a set of sessions leaves, when the index forgets them too. *)
Lemma inv_remove st st' (gone : Z → Prop) :
  inv st → (∀ id, gone id ∨ ¬ gone id) →
  (∀ id, gone id → sessions st' !! id = None) →
  (∀ id, ¬ gone id → sessions st' !! id = sessions st !! id) →
  (∀ c id, id ∈ owned (conn_sessions st') c ↔ id ∈ owned (conn_sessions st) c ∧ ¬ gone id) →
  (∀ c, NoDup (owned (conn_sessions st') c)) →
  next_session st' = next_session st →
  (∀ id, is_Some (pam_sessions st' !! id) → ¬ gone id ∧ is_Some (pam_sessions st !! id)) →
  inv st'.
Proof.
  intros [Hi Ho Hn Hd H0 Hp] Hdec Hg Hk Hown Hnd Hnx Hpam.
  assert (∀ id, is_Some (sessions st' !! id) ↔ is_Some (sessions st !! id) ∧ ¬ gone id) as Hs.
  { intros id. destruct (Hdec id) as [Hx|Hx].
    - rewrite (Hg id Hx). split; [by intros []|naive_solver].
    - rewrite (Hk id Hx). naive_solver. }
  split.
  - intros id. rewrite Hs, Hi. setoid_rewrite Hown. naive_solver.
  - intros c1 c2 id [? _]%Hown [? _]%Hown. by eapply Ho.
  - done.
  - intros id [? _]%Hs. rewrite Hnx. by apply Hd.
  - by rewrite Hnx.
  - intros id [Hx Hq]%Hpam. apply Hs. split; [by apply Hp|done].
Qed.

Lemma drop_pam_spec sid st :
  let st' := (drop_pam sid st).1 in
  sessions st' = sessions st ∧ conn_sessions st' = conn_sessions st ∧ users st' = users st ∧
  challenges st' = challenges st ∧ next_session st' = next_session st ∧
  pam_sessions st' = delete sid (pam_sessions st).
Proof.
  unfold drop_pam. destruct (pam_sessions st !! sid) eqn:E; simpl; [done|].
  split_and!; try done. by rewrite delete_id.
Qed.

Lemma close_sessions_spec os sids st :
  let st' := (close_sessions os sids st).1 in
  conn_sessions st' = conn_sessions st ∧ users st' = users st ∧ challenges st' = challenges st ∧
  next_session st' = next_session st ∧
  (∀ id, sessions st' !! id = if decide (id ∈ sids) then None else sessions st !! id) ∧
  (∀ id, pam_sessions st' !! id = if decide (id ∈ sids) then None else pam_sessions st !! id).
Proof.
  revert st. induction sids as [|sid sids IH]; intros st; simpl.
  { split_and!; try done; intros id; by rewrite decide_False by apply not_elem_of_nil. }
  set (p := match sessions st !! sid with Some _ => _ | None => _ end).
  assert (users p.1 = users st ∧ conn_sessions p.1 = conn_sessions st ∧ challenges p.1 = challenges st ∧
    next_session p.1 = next_session st ∧ pam_sessions p.1 = pam_sessions st ∧
    sessions p.1 = delete sid (sessions st)) as (E1 & E2 & E3 & E4 & E5 & E6).
  { subst p. destruct (sessions st !! sid) eqn:E; simpl; split_and!; try done. by rewrite delete_id. }
  destruct p as [st1 kills]. simpl in *.
  pose proof (drop_pam_spec sid st1) as (D1 & D2 & D3 & D4 & D5 & D6).
  destruct (drop_pam sid st1) as [st2 closes]. simpl in *.
  specialize (IH st2). destruct (close_sessions os sids st2) as [st3 rest]. simpl in *.
  destruct IH as (I1 & I2 & I3 & I4 & I5 & I6).
  assert (∀ A (m : gmap Z A) id,
    (if decide (id ∈ sids) then None else delete sid m !! id) =
    (if decide (id ∈ sid :: sids) then None else m !! id)) as Hdel.
  { intros A m id. destruct (decide (id ∈ sids)) as [Hin|Hin].
    - rewrite decide_True; [done|]. by right.
    - destruct (decide (id = sid)) as [->|Hne].
      + rewrite lookup_delete_eq, decide_True; [done|]. by left.
      + rewrite lookup_delete_ne, decide_False; [done| |done]. by intros [?|?]%elem_of_cons. }
  split_and!; [congruence..| |]; intros id.
  - by rewrite I5, D1, E6, Hdel.
  - by rewrite I6, D6, E5, Hdel.
Qed.

(** Among the effects: the process is hung up and killed, its group and itself
    each time, and then waited for. *)
Definition killed (pid : Z) (effects : list Effect) : Prop :=
  ∃ pre post, effects =
    pre ++ [EKillPg pid SIGHUP; EKill pid SIGHUP; EKillPg pid SIGKILL; EKill pid SIGKILL; EWait pid] ++ post.

Lemma killed_app pid pre effects post : killed pid effects → killed pid (pre ++ effects ++ post).
Proof. intros (l1 & l2 & ->). exists (pre ++ l1), (l2 ++ post). by rewrite <- !app_assoc. Qed.

(** What closing does to the processes and the logins of the sessions. *)
Lemma close_sessions_effects os sids st :
  let effects := (close_sessions os sids st).2 in
  (∀ id child, id ∈ sids → sessions st !! id = Some child → os_try_wait os (child_pid child) = None →
     killed (child_pid child) effects) ∧
  (∀ id h, id ∈ sids → pam_sessions st !! id = Some h → EPamClose h ∈ effects).
Proof.
  revert st. induction sids as [|sid sids IH]; intros st; simpl.
  { split; intros id x Hid; by apply not_elem_of_nil in Hid. }
  set (p := match sessions st !! sid with Some _ => _ | None => _ end).
  assert (pam_sessions p.1 = pam_sessions st ∧ sessions p.1 = delete sid (sessions st) ∧
    ∀ child, sessions st !! sid = Some child → os_try_wait os (child_pid child) = None →
      killed (child_pid child) p.2) as (E1 & E2 & E3).
  { subst p. destruct (sessions st !! sid) as [child|] eqn:E; simpl; split_and!; try done.
    - intros child' [= <-] Ht. unfold reap_child. rewrite Ht. by exists [], [].
    - by rewrite delete_id. }
  destruct p as [st1 kills]. simpl in *.
  pose proof (drop_pam_spec sid st1) as (D1 & _ & _ & _ & _ & D6).
  assert (∀ h, pam_sessions st !! sid = Some h → EPamClose h ∈ (drop_pam sid st1).2) as D7.
  { intros h Hh. unfold drop_pam. rewrite E1, Hh. by left. }
  destruct (drop_pam sid st1) as [st2 closes]. simpl in *.
  specialize (IH st2). destruct (close_sessions os sids st2) as [st3 rest]. simpl in *.
  destruct IH as [I1 I2]. split.
  - intros id child Hid Hs Ht. destruct (decide (id = sid)) as [->|Hne].
    { apply (killed_app _ [] kills), (E3 child Hs Ht). }
    apply elem_of_cons in Hid as [?|Hid]; [done|]. rewrite app_assoc, <- (app_nil_r rest).
    apply killed_app, (I1 id child Hid); [by rewrite D1, E2, lookup_delete_ne|done].
  - setoid_rewrite elem_of_app. setoid_rewrite elem_of_app. intros id h Hid Hh. destruct (decide (id = sid)) as [->|Hne]; [right; left; by apply D7|].
    apply elem_of_cons in Hid as [?|Hid]; [done|]. right. right.
    apply (I2 id h Hid). by rewrite D6, E1, lookup_delete_ne.
Qed.

Section Theorems.
Context {b64 : Base64} {pt : Postcard Token}.
Variable registry : Registry.
Variable parse_addr : str → option SocketAddr.

Lemma inv_irrelevant st st' :
  inv st → sessions st' = sessions st → conn_sessions st' = conn_sessions st →
  next_session st' = next_session st → pam_sessions st' = pam_sessions st → inv st'.
Proof using Type. intros [] E1 E2 E3 E4. by split; rewrite ?E1, ?E2, ?E3, ?E4. Qed.

Lemma authenticate_frame os c auth peer b ans st :
  let st' := (handle_authenticate registry parse_addr os c auth peer b ans st).1.1 in
  sessions st' = sessions st ∧ conn_sessions st' = conn_sessions st ∧
  next_session st' = next_session st ∧ pam_sessions st' = pam_sessions st.
Proof using Type.
  unfold handle_authenticate.
  set (p := match ans with Some _ => _ | None => _ end).
  assert (sessions p.2 = sessions st ∧ conn_sessions p.2 = conn_sessions st ∧
    next_session p.2 = next_session st ∧ pam_sessions p.2 = pam_sessions st) as Hp.
  { subst p. destruct ans; [|done]. by destruct (store_take _ _ _ _). }
  destruct p as [chal st1]. simpl in Hp. by destruct (verdict _ _ _ _).
Qed.

Lemma inv_spawn_pam os c f st : fresh_ids st → inv st → inv (handle_spawn_pam os c f st).1.1.
Proof using Type.
  intros Hw Hi. unfold handle_spawn_pam. destruct (users st !! c) as [user|]; [|done].
  destruct (f _ _) as [[[cmd child] fds]|]; [|done].
  pose proof (inv_alloc c child st Hw Hi) as Ha.
  destruct (os_pam os user) as [[h e]|]; [|by destruct (alloc c child st)].
  unfold alloc in *. rewrite (next_id st Hw) in *. cbn [fst snd] in *. destruct Ha as [Ha1 Ha2 Ha3 Ha4 Ha5 Ha6].
  split; cbn [set_pam sessions conn_sessions next_session pam_sessions] in *; try done.
  intros id Hid. destruct (decide (id = next_session st + 1)) as [->|]; [by rewrite lookup_insert_eq|].
  rewrite lookup_insert_ne in Hid by done. by apply Ha6.
Qed.

Lemma inv_spawn c f st : fresh_ids st → inv st → inv (handle_spawn c f st).1.1.
Proof using Type.
  intros Hw Hi. unfold handle_spawn. destruct (users st !! c) as [user|]; [|done].
  destruct (f user) as [[[cmd child] fds]|]; [|done]. by apply inv_alloc.
Qed.

Lemma inv_reap os sid st : inv st → inv (handle_reap os sid st).1.1.
Proof using Type.
  intros Hi. unfold handle_reap. destruct (sessions st !! sid) as [child|] eqn:E; [|done].
  destruct (reap_child os child) as [code kills].
  pose proof (drop_pam_spec sid (forget_session sid st)) as (D1 & D2 & _ & _ & D5 & D6).
  destruct (drop_pam _ _) as [st' closes]. cbn [fst] in *.
  unfold forget_session in *. simpl in D1, D2, D5, D6.
  eapply (inv_remove st st' (λ id, id = sid)); rewrite ?D1, ?D2, ?D5, ?D6; try done.
  - intros id. destruct (decide (id = sid)); auto.
  - intros id ->. apply lookup_delete_eq.
  - intros id Hne. by rewrite lookup_delete_ne.
  - intros c id. rewrite owned_forget, list_elem_of_filter. naive_solver.
  - intros c. rewrite owned_forget. apply NoDup_filter, Hi.
  - intros id Hid. destruct (decide (id = sid)) as [->|]; [by rewrite lookup_delete_eq in Hid; destruct Hid|].
    by rewrite lookup_delete_ne in Hid.
Qed.

Lemma inv_close os c st : inv st → inv (handle_close os c st).1.1.
Proof using Type.
  intros Hi. unfold handle_close.
  pose proof (owned_take c (conn_sessions st)) as Ht.
  assert ((take_conn c (conn_sessions st)).1 = owned (conn_sessions st) c) as Hs by done.
  destruct (take_conn c (conn_sessions st)) as [sids index]. simpl in Hs, Ht. subst sids.
  set (st0 := mkState _ _ index _ _ _).
  pose proof (close_sessions_spec os (owned (conn_sessions st) c) st0) as (C1 & _ & _ & C4 & C5 & C6).
  destruct (close_sessions _ _ st0) as [st' effects]. cbn [fst] in *.
  eapply (inv_remove st st' (λ id, id ∈ owned (conn_sessions st) c)); rewrite ?C1, ?C4; try done.
  - intros id. destruct (decide (id ∈ owned (conn_sessions st) c)); auto.
  - intros id Hg. by rewrite C5, decide_True.
  - intros id Hg. by rewrite C5, decide_False.
  - intros c' id. cbn [conn_sessions st0]. rewrite Ht. case_decide; [subst; set_solver|].
    split; [|by intros []]. intros Hc. split; [done|]. intros Hc'.
    by specialize (inv_one st Hi _ _ _ Hc Hc').
  - intros c'. cbn [conn_sessions st0]. rewrite Ht. case_decide; [constructor|apply Hi].
  - intros id Hid. rewrite C6 in Hid. case_decide; [by destruct Hid|done].
Qed.

Lemma inv_handle os req st : fresh_ids st → inv st → inv (handle registry parse_addr os req st).1.1.
Proof using Type.
  intros Hw Hi. destruct req as [c auth peer b ans| | | | | | | |]; cbn [handle];
    [|by apply inv_spawn_pam|by apply inv_spawn_pam|by apply inv_reap|by apply inv_close|done|by apply inv_spawn..].
  pose proof (authenticate_frame os c auth peer b ans st) as (? & ? & ? & ?). by eapply inv_irrelevant.
Qed.

(** A history of requests, each with what the outside answered. *)
Inductive reach : list (Os * Request) → State → Prop :=
| reach_nil : reach [] State_default
| reach_snoc hist st os req :
    reach hist st → reach (hist ++ [(os, req)]) (handle registry parse_addr os req st).1.1.

(** A session gets an id above all those handed out before, one more. *)
Lemma handle_ids os req st :
  fresh_ids st →
  let '(st', (resp, fds), effects) := handle registry parse_addr os req st in
  next_session st ≤ next_session st' ≤ next_session st + 1 ∧
  ∀ id, resp = Spawned id → id = next_session st + 1 ∧ id = next_session st'.
Proof using Type.
  intros Hw.
  assert (∀ st', next_session st' = next_session st → next_session st ≤ next_session st' ≤ next_session st + 1) as Hle by lia.
  destruct req as [c auth peer b ans|c t|c cmd|sid|c|sid s|c pa|c pa mo|c pa mo]; cbn [handle].
  - pose proof (authenticate_frame os c auth peer b ans st) as (_ & _ & Hn & _).
    unfold handle_authenticate in *. destruct (match ans with Some _ => _ | None => _ end) as [chal st1].
    destruct (verdict _ _ _ _); simpl in *; (split; [auto|done]).
  - unfold handle_spawn_pam, alloc; rewrite ?(next_id st Hw). repeat case_match; simplify_eq/=; split; try lia; try done; intros id [= <-]; done.
  - unfold handle_spawn_pam, alloc; rewrite ?(next_id st Hw). repeat case_match; simplify_eq/=; split; try lia; try done; intros id [= <-]; done.
  - unfold handle_reap. destruct (sessions st !! sid) as [child|]; [|by split; [auto|]].
    destruct (reap_child os child). pose proof (drop_pam_spec sid (forget_session sid st)) as (_ & _ & _ & _ & D & _).
    destruct (drop_pam _ _). simpl in *. split; [auto|done].
  - unfold handle_close. destruct (take_conn c (conn_sessions st)) as [sids index].
    set (st0 := mkState _ _ _ _ _ _).
    pose proof (close_sessions_spec os sids st0) as (_ & _ & _ & C & _).
    destruct (close_sessions _ _ _). simpl in *. split; [auto|done].
  - by split; [auto|].
  - unfold handle_spawn, alloc; rewrite ?(next_id st Hw). repeat case_match; simplify_eq/=; split; try lia; try done; intros id [= <-]; done.
  - unfold handle_spawn, alloc; rewrite ?(next_id st Hw). repeat case_match; simplify_eq/=; split; try lia; try done; intros id [= <-]; done.
  - unfold handle_spawn, alloc; rewrite ?(next_id st Hw). repeat case_match; simplify_eq/=; split; try lia; try done; intros id [= <-]; done.
Qed.

(** In fewer requests than ids, none has wrapped around. *)
Lemma reach_bounded hist st :
  reach hist st → Z.of_nat (length hist) < 2 ^ 64 → inv st ∧ 0 ≤ next_session st ≤ Z.of_nat (length hist).
Proof using Type.
  induction 1 as [|hist st os req Hr IH]; [by split; [apply inv_default|]|].
  rewrite length_app. cbn [length]. intros Hl. destruct IH as [Hi Hn]; [lia|].
  assert (fresh_ids st) as Hw by (split; lia). split; [by apply inv_handle|].
  pose proof (handle_ids os req st Hw) as H. destruct (handle _ _ os req st) as [[st' [resp fds]] effects].
  cbn [fst]. lia.
Qed.

(** C4: the monitor's books always balance, until the session counter wraps. After
    any sequence of fewer than [2^64 - 1] requests a worker may send, in any order
    and with any ids, and whatever spawning, PAM and the processes do: the live
    sessions are exactly those listed under the connections, each under one
    connection and once; session ids only grow, so that none is handed out twice;
    and every open PAM login belongs to a live session. *)
Theorem monitor_inv (hist : list (Os * Request)) (st : State) (os : Os) (req : Request) :
  reach hist st → Z.of_nat (length hist) + 1 < 2 ^ 64 →
  inv st ∧
  let '(st', (resp, _), _) := handle registry parse_addr os req st in
  inv st' ∧ next_session st ≤ next_session st' ∧
  ∀ id, resp = Spawned id → next_session st < id ≤ next_session st'.
Proof using Type.
  intros Hr Hl. destruct (reach_bounded _ _ Hr) as [Hi Hb]; [lia|]. split; [done|].
  assert (fresh_ids st) as Hw by (split; lia).
  pose proof (inv_handle os req st Hw Hi) as Hi'. pose proof (handle_ids os req st Hw) as Hn.
  destruct (handle _ _ os req st) as [[st' [resp fds]] effects]. destruct Hn as [Hle Hid].
  split_and!; [done|lia|]. intros id Hs. destruct (Hid id Hs). lia.
Qed.

(** C5: closing a connection leaves nothing of it behind. In any state reached in
    fewer than [2^64] requests, after [Close] the connection has no identity, no
    parked challenge, no session and no PAM login; every process of it that had not
    exited is hung up, its group and then itself, then killed, its group and then
    itself (so a helper that leads no group yet dies too), and only then waited
    for; every login is closed; and every other connection keeps its identity, its
    challenge and its sessions. *)
Theorem close_leaves_nothing (hist : list (Os * Request)) (st : State) (os : Os) (c : Z) :
  reach hist st → Z.of_nat (length hist) < 2 ^ 64 →
  let '(st', _, effects) := handle_close os c st in
  users st' !! c = None ∧ inner (challenges st') !! c = None ∧ owned (conn_sessions st') c = [] ∧
  (∀ id, id ∈ owned (conn_sessions st) c → sessions st' !! id = None ∧ pam_sessions st' !! id = None) ∧
  (∀ id child, id ∈ owned (conn_sessions st) c → sessions st !! id = Some child →
     os_try_wait os (child_pid child) = None → killed (child_pid child) effects) ∧
  (∀ id h, id ∈ owned (conn_sessions st) c → pam_sessions st !! id = Some h → EPamClose h ∈ effects) ∧
  (∀ c', c' ≠ c → users st' !! c' = users st !! c' ∧
     inner (challenges st') !! c' = inner (challenges st) !! c' ∧
     owned (conn_sessions st') c' = owned (conn_sessions st) c' ∧
     ∀ id, id ∈ owned (conn_sessions st) c' → sessions st' !! id = sessions st !! id).
Proof using Type.
  intros Hr Hl. destruct (reach_bounded _ _ Hr Hl) as [Hi _]. unfold handle_close.
  pose proof (owned_take c (conn_sessions st)) as Ht.
  assert ((take_conn c (conn_sessions st)).1 = owned (conn_sessions st) c) as Hs by done.
  destruct (take_conn c (conn_sessions st)) as [sids index]. simpl in Hs, Ht. subst sids.
  set (st0 := mkState _ _ index _ _ _).
  pose proof (close_sessions_spec os (owned (conn_sessions st) c) st0) as (C1 & C2 & C3 & C4 & C5 & C6).
  pose proof (close_sessions_effects os (owned (conn_sessions st) c) st0) as [F1 F2].
  destruct (close_sessions _ _ st0) as [st' effects]. cbn [fst snd] in *.
  rewrite C1, C2, C3. cbn [st0 users challenges conn_sessions store_clear inner].
  split_and!; [by rewrite lookup_delete_eq|by rewrite lookup_delete_eq|by rewrite Ht, decide_True| | | |].
  - intros id Hid. by rewrite C5, C6, !decide_True.
  - exact F1.
  - exact F2.
  - intros c' Hne. rewrite !lookup_delete_ne by done. rewrite Ht, decide_False by done.
    split_and!; [done..|]. intros id Hid. rewrite C5, decide_False; [done|].
    intros Hid'. by specialize (inv_one st Hi _ _ _ Hid Hid').
Qed.

(** ** Where identities and challenges come from *)

(** The connection facts of an [Authenticate], with the challenge it resumes. *)
Definition resumed (os : Os) (c : Z) (ans : option ChallengeAnswer) (st : State) : option ChallengeResponse :=
  ans ← ans; (λ s, mkResponse s (responses ans)) <$> (store_take c (ans_token ans) (os_now os) (challenges st)).1.

Definition conn_of_auth (os : Os) (c : Z) (peer : str) (b : bytes) (ans : option ChallengeAnswer) (st : State) : ConnInfo :=
  mkConnInfo (default (mkSocketAddr (V4 0) 0) (parse_addr peer)) b (resumed os c ans st).

(** The verdict an [Authenticate] meets. *)
Definition auth_verdict (os : Os) (c : Z) (auth : option str) (peer : str) (b : bytes)
    (ans : option ChallengeAnswer) (st : State) : Verdict :=
  verdict registry (os_world os) auth (conn_of_auth os c peer b ans st).

Lemma authenticate_users os c auth peer b ans st :
  users (handle_authenticate registry parse_addr os c auth peer b ans st).1.1 =
    match auth_verdict os c auth peer b ans st with Allow user => <[c := user]> (users st) | _ => users st end.
Proof using Type.
  unfold handle_authenticate, auth_verdict, conn_of_auth, resumed. destruct ans as [a|]; simpl.
  - destruct (store_take _ _ _ _) as [taken store]. by destruct (verdict _ _ _ _).
  - by destruct (verdict _ _ _ _).
Qed.

Lemma authenticate_challenges os c auth peer b ans st c' :
  inner (challenges (handle_authenticate registry parse_addr os c auth peer b ans st).1.1) !! c' =
    if decide (c' = c) then
      match auth_verdict os c auth peer b ans st with
      | ChallengeV state _ => Some (state, os_now' os)
      | _ => if ans then None else inner (challenges st) !! c
      end
    else inner (challenges st) !! c'.
Proof using Type.
  unfold handle_authenticate, auth_verdict, conn_of_auth, resumed. destruct ans as [a|]; simpl.
  - pose proof (take_store c (ans_token a) (os_now os) (challenges st)) as Ht.
    destruct (store_take _ _ _ _) as [taken store]. simpl in *.
    destruct (verdict _ _ _ _); simpl; rewrite Ht; case_decide; subst; by simplify_map_eq.
  - destruct (verdict _ _ _ _); simpl; case_decide; subst; by simplify_map_eq.
Qed.

(** Every other request leaves identities and challenges alone, [Close] apart. *)
Lemma handle_frame os req st c :
  (∀ auth peer b ans, req ≠ Authenticate c auth peer b ans) → req ≠ Close c →
  let st' := (handle registry parse_addr os req st).1.1 in
  users st' !! c = users st !! c ∧ inner (challenges st') !! c = inner (challenges st) !! c.
Proof using Type.
  intros Ha Hc. destruct req as [c' auth peer b ans|c' t|c' cmd|sid|c'|sid s|c' pa|c' pa mo|c' pa mo]; cbn [handle].
  - assert (c ≠ c') by (intros ->; by eapply Ha).
    rewrite authenticate_users, authenticate_challenges, decide_False by done. split; [|done].
    destruct (auth_verdict _ _ _ _ _ _ _); by rewrite ?lookup_insert_ne.
  - unfold handle_spawn_pam, alloc. by repeat case_match; simplify_eq/=.
  - unfold handle_spawn_pam, alloc. by repeat case_match; simplify_eq/=.
  - unfold handle_reap. destruct (sessions st !! sid) as [child|]; [|done].
    destruct (reap_child os child).
    pose proof (drop_pam_spec sid (forget_session sid st)) as (_ & _ & D3 & D4 & _).
    destruct (drop_pam _ _). simpl in *. by rewrite D3, D4.
  - assert (c ≠ c') by congruence. unfold handle_close. destruct (take_conn c' (conn_sessions st)) as [sids index].
    set (st0 := mkState _ _ _ _ _ _).
    pose proof (close_sessions_spec os sids st0) as (_ & C2 & C3 & _).
    destruct (close_sessions _ _ _). simpl in *. rewrite C2, C3. simpl. by rewrite !lookup_delete_ne.
  - done.
  - unfold handle_spawn, alloc. by repeat case_match; simplify_eq/=.
  - unfold handle_spawn, alloc. by repeat case_match; simplify_eq/=.
  - unfold handle_spawn, alloc. by repeat case_match; simplify_eq/=.
Qed.

Lemma close_frame os c st :
  let st' := (handle_close os c st).1.1 in users st' !! c = None ∧ inner (challenges st') !! c = None.
Proof using Type.
  unfold handle_close. destruct (take_conn c (conn_sessions st)) as [sids index].
  set (st0 := mkState _ _ _ _ _ _).
  pose proof (close_sessions_spec os sids st0) as (_ & C2 & C3 & _).
  destruct (close_sessions _ _ _). simpl in *. rewrite C2, C3. simpl. by rewrite !lookup_delete_eq.
Qed.

(** An [Authenticate] for [c] somewhere in the history, after which the
    connection was not closed, that met the verdict [v] at time [t]. *)
Definition authenticated_by (hist : list (Os * Request)) (c : Z) (v : Verdict) (t : Z) : Prop :=
  ∃ h1 h2 os auth peer b ans st1,
    hist = h1 ++ (os, Authenticate c auth peer b ans) :: h2 ∧ reach h1 st1 ∧
    auth_verdict os c auth peer b ans st1 = v ∧ os_now' os = t ∧ Forall (λ e, e.2 ≠ Close c) h2.

Lemma authenticated_snoc hist c v t e :
  e.2 ≠ Close c → authenticated_by hist c v t → authenticated_by (hist ++ [e]) c v t.
Proof using Type.
  intros He (h1 & h2 & os & auth & peer & b & ans & st1 & -> & Hr & Hv & Ht & Hc).
  exists h1, (h2 ++ [e]), os, auth, peer, b, ans, st1. split_and!; try done; [by rewrite <- app_assoc|].
  apply Forall_app. split; [done|]. by constructor.
Qed.

Lemma authenticated_here hist st os c auth peer b ans :
  reach hist st →
  authenticated_by (hist ++ [(os, Authenticate c auth peer b ans)]) c (auth_verdict os c auth peer b ans st) (os_now' os).
Proof using Type. intros Hr. by exists hist, [], os, auth, peer, b, ans, st. Qed.

Lemma origin hist st c :
  reach hist st →
  (∀ user, users st !! c = Some user → ∃ t, authenticated_by hist c (Allow user) t) ∧
  (∀ state t, inner (challenges st) !! c = Some (state, t) → ∃ ps, authenticated_by hist c (ChallengeV state ps) t).
Proof using Type.
  induction 1 as [|hist st os req Hr [IHu IHc]]; [by split|].
  destruct (decide (req = Close c)) as [->|Hne].
  { destruct (close_frame os c st) as [E1 E2]. cbn [handle]. rewrite E1, E2. by split. }
  destruct req as [c' auth peer b ans| | | | | | | |];
    [destruct (decide (c' = c)) as [->|Hc]|..];
    try (destruct (handle_frame os (Authenticate c' auth peer b ans) st c) as [E1 E2]; [congruence|done|]);
    try (match goal with |- context [handle _ _ os ?r st] =>
           destruct (handle_frame os r st c ltac:(congruence) ltac:(done)) as [E1 E2] end);
    try (rewrite E1, E2; split;
         [intros user Hu; destruct (IHu user Hu) as [t Ht]; exists t; by apply authenticated_snoc
         |intros state t Hs; destruct (IHc state t Hs) as [ps Ht]; exists ps; by apply authenticated_snoc]).
  cbn [handle]. rewrite authenticate_users, authenticate_challenges, decide_True by done.
  pose proof (authenticated_here hist st os c auth peer b ans Hr) as Hh.
  split; [intros user|intros state t]; destruct (auth_verdict os c auth peer b ans st) as [u|st' ps|] eqn:Ev.
  - rewrite lookup_insert_eq. intros [= ->]. eauto.
  - intros Hu. destruct (IHu user Hu) as [t Ht]. exists t. by apply authenticated_snoc.
  - intros Hu. destruct (IHu user Hu) as [t Ht]. exists t. by apply authenticated_snoc.
  - destruct ans; [done|]. intros Hs. destruct (IHc state t Hs) as [ps Ht]. exists ps. by apply authenticated_snoc.
  - intros [= -> <-]. eauto.
  - destruct ans; [done|]. intros Hs. destruct (IHc state t Hs) as [ps Ht]. exists ps. by apply authenticated_snoc.
Qed.

End Theorems.
(** ** From the command to the helper *)

(** The environment of the spawned process. *)
Definition child_env (inherited : Env) (cmd : Command) : Env :=
  foldl (λ m kv, <[kv.1 := kv.2]> m) inherited (cmd_env cmd).

(** Look a variable of the program up in an environment built by the program. *)
Ltac env_solve :=
  unfold child_env, env_u32, env, env_var; cbn [cmd_env cmd_with session_command shell_command exec_command
    transfer_command mkdir_command transfer_write_command pam_env_var app foldl fst snd];
  repeat (rewrite lookup_insert_ne by by_dec); rewrite ?lookup_insert_eq.

Lemma from_utf8_digits n : 0 ≤ n → from_utf8 (show_uint n) = Some (show_uint n).
Proof.
  intros Hn. pose proof (show_uint_digits n Hn) as Hd.
  rewrite <- (utf8_ascii (show_uint n)) at 1.
  - apply from_utf8_utf8. eapply Forall_impl; [exact Hd|]. intros c Hc. left. simpl in Hc. lia.
  - eapply Forall_impl; [exact Hd|]. intros c Hc. unfold is_ascii. simpl in Hc. lia.
Qed.

Definition user_ok (u : User) : Prop :=
  in_u 32 (u_uid u) ∧ in_u 32 (u_gid u) ∧ str_ok (u_name u) ∧ str_ok (u_dir u) ∧ str_ok (u_shell u).

#[global] Instance user_ok_dec u : Decision (user_ok u).
Proof. unfold user_ok. apply _. Defined.

(** A command of the monitor for [u]: the identity, then variables of the mode. *)
Definition is_session_command (u : User) (cmd : Command) : Prop :=
  ∃ extra i o e, cmd = cmd_with extra i o e (session_command u) ∧
    Forall (λ kv, kv.1 ≠ ENV_SESS_UID ∧ kv.1 ≠ ENV_SESS_GID ∧ kv.1 ≠ ENV_SESS_USER) extra.

Lemma child_env_other inherited cmd extra k :
  Forall (λ kv : bytes * bytes, kv.1 ≠ k) extra →
  foldl (λ (m : Env) kv, <[kv.1 := kv.2]> m) inherited (cmd_env cmd ++ extra) !! k = child_env inherited cmd !! k.
Proof.
  intros He. rewrite foldl_app. unfold child_env. generalize (foldl (λ (m : Env) kv, <[kv.1 := kv.2]> m) inherited (cmd_env cmd)).
  induction He as [|kv extra Hk _ IH]; intros m; simpl; [done|]. rewrite IH. by rewrite lookup_insert_ne.
Qed.

Lemma session_identity u cmd inherited :
  user_ok u → is_session_command u cmd →
  env_u32 (child_env inherited cmd) ENV_SESS_UID = Ok (u_uid u) ∧
  env_u32 (child_env inherited cmd) ENV_SESS_GID = Ok (u_gid u) ∧
  env (child_env inherited cmd) ENV_SESS_USER = Ok (u_name u).
Proof.
  intros (Hu & Hg & Hn & _ & _) (extra & i & o & e & -> & He).
  assert (∀ k, Forall (λ kv : bytes * bytes, kv.1 ≠ k) extra →
    child_env inherited (cmd_with extra i o e (session_command u)) !! k = child_env inherited (session_command u) !! k)
    as Hk by (intros k Hf; by apply child_env_other).
  unfold env_u32, env, env_var. rewrite !Hk.
  2-4: eapply Forall_impl; [exact He|]; simpl; tauto.
  split_and!; env_solve.
  - simpl. rewrite from_utf8_digits by apply Hu. simpl. by rewrite parse_show_uint.
  - simpl. rewrite from_utf8_digits by apply Hg. simpl. by rewrite parse_show_uint.
  - simpl. by rewrite from_utf8_utf8.
Qed.

Lemma pam_env_var_keys k e : k ≠ ENV_SESS_PAM_ENV → Forall (λ kv, kv.1 ≠ k) (pam_env_var e).
Proof. destruct e; repeat constructor. by simpl. Qed.

(** The commands of the five kinds are session commands. *)
Lemma commands_are_sessions u :
  (∀ term tty fd e, is_session_command u (shell_command u term tty fd e)) ∧
  (∀ command e, is_session_command u (exec_command u command e)) ∧
  (∀ path, is_session_command u (transfer_command u path)) ∧
  (∀ path mode, is_session_command u (mkdir_command u path mode)) ∧
  (∀ path mode, is_session_command u (transfer_write_command u path mode)).
Proof.
  split_and!; intros; eexists _, _, _, _; (split; [reflexivity|]);
    try match goal with e : option str |- _ => destruct e end; cbn [app pam_env_var];
    repeat (apply Forall_cons; split; [split_and!; by_dec|]); apply Forall_nil; done.
Qed.

(** The connection a spawning request is for. *)
Definition spawn_conn (req : Request) : option Z :=
  match req with
  | SpawnShell c _ | SpawnExec c _ | SpawnTransfer c _ | SpawnTransferWrite c _ _ | SpawnMkdir c _ _ => Some c
  | _ => None
  end.

Section Sessions.
Context {b64 : Base64} {pt : Postcard Token}.
Variable registry : Registry.
Variable parse_addr : str → option SocketAddr.

(** The terminal a helper finds in its environment: for a shell the one the monitor
    made, for the others what the monitor's own environment held. *)
Definition tty_source (os : Os) (shell : bool) (inherited : Env) (tty : str) : Prop :=
  if shell then ∃ master slave, os_pty os = Some (master, slave, tty)
  else env_var inherited ENV_SESS_TTY = Some tty.

Definition is_shell (req : Request) : bool := match req with SpawnShell _ _ => true | _ => false end.

(** A command run for [u], with the terminal its kind has. *)
Definition runs_as (os : Os) (shell : bool) (u : User) (cmd : Command) : Prop :=
  is_session_command u cmd ∧
  ((∀ master slave tty, os_pty os = Some (master, slave, tty) → str_ok tty) →
   ∀ inherited tty, env_var (child_env inherited cmd) ENV_SESS_TTY = Some tty → tty_source os shell inherited tty).

Lemma runs_as_shell os u term tty master slave e :
  os_pty os = Some (master, slave, tty) → runs_as os true u (shell_command u term tty slave e).
Proof using Type.
  intros Ht. split; [apply commands_are_sessions|]. intros Hok inherited tty'. unfold child_env, env_var.
  cbn [cmd_env cmd_with shell_command]. rewrite app_assoc, foldl_app.
  assert (∀ m : Env, foldl (λ (m : Env) kv, <[kv.1:=kv.2]> m) m (pam_env_var e) !! ENV_SESS_TTY = m !! ENV_SESS_TTY) as ->.
  { intros m. destruct e; cbn; [|done]. by rewrite lookup_insert_ne by by_dec. }
  rewrite foldl_app. cbn. rewrite lookup_insert_eq. cbn. rewrite from_utf8_utf8 by (by eapply Hok).
  intros [= <-]. by eexists _, _.
Qed.

Lemma runs_as_other os u cmd extra i o e :
  is_session_command u cmd → cmd = cmd_with extra i o e (session_command u) →
  Forall (λ kv : bytes * bytes, kv.1 ≠ ENV_SESS_TTY) extra → runs_as os false u cmd.
Proof using Type.
  intros Hc -> He. split; [done|]. intros _ inherited tty. unfold tty_source, env_var, child_env at 1.
  cbn [cmd_env cmd_with]. rewrite child_env_other by done. unfold child_env. cbn [cmd_env session_command foldl fst snd].
  by rewrite !lookup_insert_ne by by_dec.
Qed.

(** What a successful spawn on [c] started, and for whom. *)
Definition spawned_on (os : Os) (shell : bool) (st st' : State) (id : Z) (effects : list Effect) (c : Z) : Prop :=
  ∃ user u cmd pid, users st !! c = Some user ∧ os_user os user = Some u ∧
    ESpawn cmd pid ∈ effects ∧ runs_as os shell u cmd ∧ id ∈ owned (conn_sessions st') c.

(** A spawning function runs a session command of the user it is given. *)
Definition spawns_as_user (os : Os) (shell : bool) (spawned : option (Command * Child * list Fd)) (user : str) : Prop :=
  ∀ cmd child fds, spawned = Some (cmd, child, fds) → ∃ u, os_user os user = Some u ∧ runs_as os shell u cmd.

(** Follows the binds of a spawning function to its command. *)
Ltac spawn_solve :=
  intros cmd child fds (u & Hu & E)%bind_Some; exists u; split; [done|];
  repeat (cbv beta zeta in E; match type of E with
  | mbind _ _ = _ => apply bind_Some in E as (? & ? & E)
  | match ?y with (_, _) => _ end = _ => destruct y
  end); injection E as <- _ _;
  first [by eapply runs_as_shell |
    eapply runs_as_other; [apply commands_are_sessions|reflexivity|];
      try match goal with e : option str |- _ => destruct e end; cbn [app pam_env_var];
      repeat (apply Forall_cons; split; [by_dec|]); by apply Forall_nil].

Lemma spawn_functions os user :
  (∀ term e, spawns_as_user os true (spawn_shell os user term e) user) ∧
  (∀ command e, spawns_as_user os false (spawn_exec os user command e) user) ∧
  (∀ path, spawns_as_user os false (spawn_transfer os user path) user) ∧
  (∀ path mode, spawns_as_user os false (spawn_transfer_write os user path mode) user) ∧
  (∀ path mode, spawns_as_user os false (spawn_mkdir os user path mode) user).
Proof using Type. split_and!; intros; spawn_solve. Qed.

Lemma spawn_pam_spawned os shell c f st st' id fds effects :
  (∀ user e, spawns_as_user os shell (f user e) user) →
  handle_spawn_pam os c f st = (st', (Spawned id, fds), effects) → spawned_on os shell st st' id effects c.
Proof using Type.
  clear registry parse_addr. intros Hf. unfold handle_spawn_pam. destruct (users st !! c) as [user|] eqn:Eu; [|done].
  destruct (f user _) as [[[cmd child] fds']|] eqn:Es; [|done].
  destruct (Hf _ _ _ _ _ Es) as (u & Hu & Hc). unfold alloc.
  intros E. exists user, u, cmd, (child_pid child).
  destruct (os_pam os user) as [[h e]|]; simplify_eq/=; rewrite owned_insert, decide_True by done; set_solver.
Qed.

Lemma spawn_plain_spawned os c f st st' id fds effects :
  (∀ user, spawns_as_user os false (f user) user) →
  handle_spawn c f st = (st', (Spawned id, fds), effects) → spawned_on os false st st' id effects c.
Proof using Type.
  clear registry parse_addr. intros Hf. unfold handle_spawn. destruct (users st !! c) as [user|] eqn:Eu; [|done].
  destruct (f user) as [[[cmd child] fds']|] eqn:Es; [|done].
  destruct (Hf _ _ _ _ Es) as (u & Hu & Hc). unfold alloc.
  intros E. exists user, u, cmd, (child_pid child). simplify_eq/=. rewrite owned_insert, decide_True by done. set_solver.
Qed.

Lemma spawned_for os req st st' id fds effects :
  handle registry parse_addr os req st = (st', (Spawned id, fds), effects) →
  ∃ c, spawn_conn req = Some c ∧ spawned_on os (is_shell req) st st' id effects c.
Proof using Type.
  destruct req as [c auth peer b ans|c t|c cmd|sid|c|sid s|c pa|c pa mo|c pa mo]; cbn [handle spawn_conn].
  2-3: intros E; exists c; split; [done|]; eapply spawn_pam_spawned, E; intros user e;
    destruct (spawn_functions os user) as (? & ? & _); cbv beta; auto.
  5-7: intros E; exists c; split; [done|]; eapply spawn_plain_spawned, E; intros user;
    destruct (spawn_functions os user) as (_ & _ & ? & ? & ?); cbv beta; auto.
  - unfold handle_authenticate. destruct (match ans with Some _ => _ | None => _ end) as [chal st1].
    by destruct (verdict _ _ _ _).
  - unfold handle_reap. destruct (sessions st !! sid); [|done]. destruct (reap_child _ _). by destruct (drop_pam _ _).
  - unfold handle_close. destruct (take_conn _ _). by destruct (close_sessions _ _ _).
  - done.
Qed.

(** C1: every process a worker obtains runs as a user who authenticated on
    that connection. In any reachable state, if a request is answered with a
    session, it names a connection on which an earlier [Authenticate] was
    allowed for some [user], the connection was not closed since, the process
    was started for that user's passwd entry, and whatever that process then
    does to a file, directory or program (for every environment it inherits
    and every answer of its system) it does with that entry's uid, gid and
    groups, but for one call made as root, before the drop: the opening of its
    terminal. For a shell that is the pseudo-terminal the monitor has just made;
    for a command or a transfer there is none, unless the monitor itself was
    started with [QUISH_SESS_TTY] in its environment, which every helper
    inherits. A compromised worker cannot choose another identity, nor that path. *)
Theorem session_runs_as_authenticated (hist : list (Os * Request)) (st st' : State) (os : Os) (req : Request)
    (id : Z) (fds : list Fd) (effects : list Effect) :
  reach registry parse_addr hist st →
  handle registry parse_addr os req st = (st', (Spawned id, fds), effects) →
  (∀ user u, os_user os user = Some u → user_ok u) →
  (∀ master slave tty, os_pty os = Some (master, slave, tty) → str_ok tty) →
  ∃ c user t u cmd pid, spawn_conn req = Some c ∧
    authenticated_by registry parse_addr hist c (Allow user) t ∧
    os_user os user = Some u ∧ ESpawn cmd pid ∈ effects ∧
    ∀ sys inherited pre s a post r,
      run_session_helper sys (child_env inherited cmd) [] = (pre ++ (s, a) :: post, r) →
      is_access s = true →
      creds_of pre = mkCreds (u_uid u) (u_gid u) (GroupsOf (utf8 (u_name u)) (u_gid u)) ∨
      ∃ tty, s = OpenTty tty ∧ creds_of pre = root_creds ∧
        (if is_shell req then ∃ master slave, os_pty os = Some (master, slave, tty)
         else env_var inherited ENV_SESS_TTY = Some tty).
Proof using Type.
  intros Hr Hh Hok Htty.
  destruct (spawned_for _ _ _ _ _ _ _ Hh) as (c & Hc & user & u & cmd & pid & Hu & Hos & Hs & [Hcmd Hsrc] & _).
  destruct (origin registry parse_addr hist st c Hr) as [Ho _]. destruct (Ho user Hu) as [t Ht].
  exists c, user, t, u, cmd, pid. split_and!; try done.
  intros sys inherited pre s a post r Hrun Ha.
  destruct (session_identity u cmd inherited (Hok _ _ Hos) Hcmd) as (E1 & E2 & E3).
  destruct (session_permitted sys (child_env inherited cmd) _ _ _ pre post s a r E1 E2 E3 Hrun Ha)
    as [?|(tty & Et & -> & Hroot)]; [by left|].
  right. exists tty. split_and!; [done..|]. apply (Hsrc Htty). unfold helper_tty in Et. by repeat case_match.
Qed.

End Sessions.

(** An environment without the variables of the session helper: the monitor's
    own. *)
Definition env_clean (m : Env) : Prop :=
  Forall (λ k, m !! k = None) [ENV_SESS_TRANSFER_PATH; ENV_SESS_TRANSFER_WRITE_PATH; ENV_SESS_MKDIR_PATH;
                               ENV_SESS_TTY; ENV_SESS_COMMAND; ENV_SESS_PAM_ENV].

(** The helper does what the monitor asked. Through the environment the
    monitor builds, the helper takes the mode of the request, with its very
    argument: the download opens the path asked for, the upload and the
    directory get the path and the mode bits, the command and the shell run the
    user's shell, with the command, or with the terminal and its type. *)
Theorem helper_dispatch {b64 : Base64} (sys : trace → Sys → Answer) (m : Env) (u : User)
    (arg tty term : str) (mode : Z) (fd : Fd) :
  env_clean m → user_ok u → str_ok arg → str_ok tty → str_ok term → in_u 32 mode →
  (let m' := child_env m (transfer_command u arg) in
   run_session_helper sys m' = run_transfer_helper sys m' arg) ∧
  (let m' := child_env m (transfer_write_command u arg mode) in
   run_session_helper sys m' = run_transfer_write_helper sys m' arg ∧ env_u32 m' ENV_SESS_TRANSFER_MODE = Ok mode) ∧
  (let m' := child_env m (mkdir_command u arg mode) in
   run_session_helper sys m' = run_mkdir_helper sys m' arg ∧ env_u32 m' ENV_SESS_TRANSFER_MODE = Ok mode) ∧
  (let m' := child_env m (exec_command u arg None) in
   run_session_helper sys m' = run_shell_helper sys m' ∧ env_var m' ENV_SESS_COMMAND = Some arg ∧
   env_var m' ENV_SESS_TTY = None) ∧
  (let m' := child_env m (shell_command u term tty fd None) in
   run_session_helper sys m' = run_shell_helper sys m' ∧ env_var m' ENV_SESS_TTY = Some tty ∧
   env_var m' ENV_SESS_TERM = Some term ∧ env_var m' ENV_SESS_COMMAND = None).
Proof.
  intros Hm Hu Ha Ht Hterm Hmode. unfold env_clean in Hm. rewrite !Forall_cons in Hm.
  destruct Hm as (M1 & M2 & M3 & M4 & M5 & M6 & _).
  cbv zeta. split_and!; unfold run_session_helper; env_solve; rewrite ?M1, ?M2, ?M3, ?M4, ?M5; simpl;
    rewrite ?from_utf8_utf8, ?from_utf8_digits by (try done; apply Hmode); simpl;
    rewrite ?parse_show_uint by done; try done.
Qed.

Lemma helper_dispatch_witness :
  let u := mkUser (lit "bob") 1000 1001 (lit "/home/bob") (lit "/bin/sh") in
  (let m' := child_env ∅ (transfer_command u (lit "/a")) in
   run_session_helper os_yes m' = run_transfer_helper os_yes m' (lit "/a")) ∧
  (let m' := child_env ∅ (transfer_write_command u (lit "/a") 420) in
   run_session_helper os_yes m' = run_transfer_write_helper os_yes m' (lit "/a") ∧
   env_u32 m' ENV_SESS_TRANSFER_MODE = Ok 420) ∧
  (let m' := child_env ∅ (mkdir_command u (lit "/a") 420) in
   run_session_helper os_yes m' = run_mkdir_helper os_yes m' (lit "/a") ∧
   env_u32 m' ENV_SESS_TRANSFER_MODE = Ok 420) ∧
  (let m' := child_env ∅ (exec_command u (lit "/a") None) in
   run_session_helper os_yes m' = run_shell_helper os_yes m' ∧ env_var m' ENV_SESS_COMMAND = Some (lit "/a") ∧
   env_var m' ENV_SESS_TTY = None) ∧
  (let m' := child_env ∅ (shell_command u (lit "vt") (lit "/dev/pts/1") 5 None) in
   run_session_helper os_yes m' = run_shell_helper os_yes m' ∧ env_var m' ENV_SESS_TTY = Some (lit "/dev/pts/1") ∧
   env_var m' ENV_SESS_TERM = Some (lit "vt") ∧ env_var m' ENV_SESS_COMMAND = None).
Proof.
  intros u. apply (helper_dispatch os_yes ∅ u (lit "/a") (lit "/dev/pts/1") (lit "vt") 420 5);
    [repeat constructor|by_dec..].
Defined.

(** ** Witnesses: a development login, a command, a disconnect *)
Definition demo_registry : Registry := mkRegistry [Dyn (mkDev (lit "bob"))] 500 (mkPolicy [] []).
Definition demo_user : User := mkUser (lit "bob") 1000 1001 (lit "/home/bob") (lit "/bin/sh").
Definition demo_os : Os :=
  mkOs (mkWorld 0 None 0 (λ _, None)) 0 0 (λ _, Some demo_user) (λ _, Some (7, [])) None
    (λ _, Some (mkSpawn 4242 10 11 12)) (λ _, None) (λ _, None).
Definition demo_auth : Request :=
  Authenticate 1 (Some (basic_header (lit "bob") (lit "pw"))) (lit "peer") (repeat 0 32) None.

Definition demo_handle (req : Request) (st : State) : State * reply * list Effect :=
  handle (H0 := token_postcard) demo_registry (λ _, None) demo_os req st.

Definition demo_state : State := (demo_handle (SpawnExec 1 (lit "id")) (demo_handle demo_auth State_default).1.1).1.1.

Lemma demo_reach :
  reach (pt := token_postcard) demo_registry (λ _, None)
    [(demo_os, demo_auth); (demo_os, SpawnExec 1 (lit "id"))] demo_state.
Proof.
  apply (reach_snoc (pt := token_postcard) _ _ [(demo_os, demo_auth)] _ demo_os (SpawnExec 1 (lit "id"))).
  apply (reach_snoc (pt := token_postcard) _ _ [] _ demo_os demo_auth). apply reach_nil.
Qed.

Lemma monitor_inv_witness :
  inv demo_state ∧
  let '(st', (resp, _), _) := demo_handle (Reap 1) demo_state in
  inv st' ∧ next_session demo_state ≤ next_session st' ∧
  ∀ id, resp = Spawned id → next_session demo_state < id ≤ next_session st'.
Proof.
  by apply (monitor_inv (pt := token_postcard) demo_registry (λ _, None) _ demo_state demo_os (Reap 1) demo_reach).
Defined.

Lemma close_leaves_nothing_witness :
  let '(st', _, effects) := handle_close demo_os 1 demo_state in
  users st' !! 1 = None ∧ inner (challenges st') !! 1 = None ∧ owned (conn_sessions st') 1 = [] ∧
  (∀ id, id ∈ owned (conn_sessions demo_state) 1 → sessions st' !! id = None ∧ pam_sessions st' !! id = None) ∧
  (∀ id child, id ∈ owned (conn_sessions demo_state) 1 → sessions demo_state !! id = Some child →
     os_try_wait demo_os (child_pid child) = None →
     killed (child_pid child) effects) ∧
  (∀ id h, id ∈ owned (conn_sessions demo_state) 1 → pam_sessions demo_state !! id = Some h → EPamClose h ∈ effects) ∧
  (∀ c', c' ≠ 1 → users st' !! c' = users demo_state !! c' ∧
     inner (challenges st') !! c' = inner (challenges demo_state) !! c' ∧
     owned (conn_sessions st') c' = owned (conn_sessions demo_state) c' ∧
     ∀ id, id ∈ owned (conn_sessions demo_state) c' → sessions st' !! id = sessions demo_state !! id).
Proof.
  by apply (close_leaves_nothing (pt := token_postcard) demo_registry (λ _, None) _ demo_state demo_os 1 demo_reach).
Defined.

Lemma session_runs_as_authenticated_witness :
  ∃ c user t u cmd pid, spawn_conn (SpawnExec 1 (lit "ls")) = Some c ∧
    authenticated_by (pt := token_postcard) demo_registry (λ _, None)
      [(demo_os, demo_auth); (demo_os, SpawnExec 1 (lit "id"))] c (Allow user) t ∧
    os_user demo_os user = Some u ∧ ESpawn cmd pid ∈ (demo_handle (SpawnExec 1 (lit "ls")) demo_state).2 ∧
    ∀ sys inherited pre s a post r,
      run_session_helper sys (child_env inherited cmd) [] = (pre ++ (s, a) :: post, r) →
      is_access s = true →
      creds_of pre = mkCreds (u_uid u) (u_gid u) (GroupsOf (utf8 (u_name u)) (u_gid u)) ∨
      ∃ tty, s = OpenTty tty ∧ creds_of pre = root_creds ∧ env_var inherited ENV_SESS_TTY = Some tty.
Proof.
  apply (session_runs_as_authenticated (pt := token_postcard) demo_registry (λ _, None) _ demo_state
    (demo_handle (SpawnExec 1 (lit "ls")) demo_state).1.1 demo_os (SpawnExec 1 (lit "ls")) 2 [10; 11; 12]).
  - exact demo_reach.
  - vm_compute. reflexivity.
  - intros user u [= <-]. by_dec.
  - done.
Defined.

End Monitor.
