(* ===== verification/Login.v ===== *)
(** * Login: the monitor's registry, and logins end to end

    [build_registry] and the per-user resolvers of
    [quish-server/src/monitor.rs], in a build with PAM, and what a login through
    the monitor takes when a second factor is required. *)
From S2P Require Import Prelude RustStr Postcard Base64 Proto Net Ipc Auth Totp Pubkey Oidc Challenge Privdrop Monitor.
Import Ipc Auth Challenge.

Module Login.
Import Privdrop Monitor.

Definition FAIL_DELAY : Z := secs 1.

(** [Path::join] with a relative path. *)
Definition path_join (dir rel : str) : str :=
  if bool_decide (last dir = Some 47) then dir ++ rel
  else if bool_decide (dir = []) then rel else dir ++ 47 :: rel.

Section Login.
Context {b64 : Base64} {pt : Postcard Token}.
(** The crates behind the backends. *)
Variables (from_openssh : str → option (option bytes)) (vk_ok : bytes → bool) (ed_verify : bytes → bytes → bytes → bool).
Variable hmac_sha1 : bytes → bytes → bytes.
Variable base32_decode : str → option bytes.
Variables (Ctx : Type) (pam_ctx : str → str → str → option Ctx) (pam_auth pam_acct : Ctx → bool).
Variables (Value Jwk DecodingKey : Type) (get : Value → str → option Value) (as_u64 : Value → option Z)
  (as_str : Value → option str) (parse_jwks : bytes → option (list Jwk)) (jwks_find : list Jwk → str → option Jwk)
  (from_jwk : Jwk → option DecodingKey) (decode_header : str → option (option str))
  (jwt_decode : World → Oidc.Validation → DecodingKey → str → option Value).
(** The passwd database. *)
Variable from_name : str → option User.

Definition per_user_keys (user : str) : option str :=
  u ← from_name user; Some (path_join (u_dir u) (lit ".config/quish/authorized_keys")).

Definition per_user_totp_secret (w : World) (user : str) : option bytes :=
  u ← from_name user;
  contents ← Oidc.read_file (files w) (path_join (u_dir u) (lit ".config/quish/totp"));
  text ← from_utf8 contents;
  Totp.decode_base32_secret base32_decode text.

Definition pubkey_dyn : DynBackend :=
  Dyn (H := Pubkey.pubkey_backend from_openssh vk_ok ed_verify) (Pubkey.mkPubkey per_user_keys).

Definition pam_dyn : DynBackend :=
  Dyn (H := Oidc.Pam.pam_backend Ctx pam_ctx pam_auth pam_acct) Oidc.Pam.mkPam.

Definition totp_of_pam : Totp.TotpBackend := Totp.TotpBackend_new pam_dyn per_user_totp_secret.

Definition totp_dyn : DynBackend := Dyn (H := Totp.totp_backend hmac_sha1) totp_of_pam.

Definition oidc_dyn (cfg : Oidc.OidcConfig) : DynBackend :=
  Dyn (H := Oidc.oidc_backend Value Jwk DecodingKey get as_u64 as_str parse_jwks jwks_find from_jwk decode_header jwt_decode) cfg.

Definition build_registry (totp : bool) (policy : UserPolicy) (oidc : option Oidc.OidcConfig) : Registry :=
  let password := if totp then totp_dyn else pam_dyn in
  mkRegistry ([pubkey_dyn; password] ++ match oidc with Some o => [oidc_dyn o] | None => [] end) FAIL_DELAY policy.

(** ** Lemmas *)

(** Which backend decides, by the credential. *)
Lemma build_registry_find totp policy oidc creds b :
  List.find (λ b, dyn_supports b creds) (backends (build_registry totp policy oidc)) = Some b →
  match creds with
  | SignedToken _ => b = pubkey_dyn
  | Password _ _ => b = if totp then totp_dyn else pam_dyn
  | Jwt _ => ∃ o, oidc = Some o ∧ b = oidc_dyn o
  end.
Proof using Type.
  destruct creds, totp, oidc; cbn; intros E; simplify_eq; eauto.
Qed.

(** A verdict of the registry that is not [Deny] is the deciding backend's. *)
Lemma verdict_backend r w auth conn v :
  verdict r w auth conn = v → v ≠ Deny →
  ∃ creds b, parse_authorization auth = Some creds ∧
    List.find (λ b, dyn_supports b creds) (backends r) = Some b ∧ dyn_authenticate b w conn creds = v.
Proof using Type.
  intros Hv Hd. unfold verdict in Hv. destruct (parse_authorization auth) as [creds|]; [|by subst].
  rewrite dispatch_spec in Hv. destruct (List.find _ (backends r)) as [b|] eqn:Eb; [|by subst].
  exists creds, b. split_and!; [done|done|].
  destruct (dyn_authenticate b w conn creds) as [u| |]; [|done|done].
  destruct (permits (policy r) u); simpl in Hv; by subst.
Qed.

Section TwoFactor.
Hypothesis hmac_digest : ∀ k m, length (hmac_sha1 k m) = 20%nat ∧ bytes_ok (hmac_sha1 k m).
Variable parse_addr : str → option SocketAddr.
Variables (policy : UserPolicy) (oidc : option Oidc.OidcConfig).

Notation reg := (build_registry true policy oidc).

(** Only the second-factor backend issues challenges, and only in round one. *)
Lemma challenge_from_round_one w auth conn state ps :
  verdict reg w auth conn = ChallengeV state ps →
  ∃ user pass, parse_authorization auth = Some (Password user pass) ∧ challenge conn = None ∧
    ∀ u, pending_user state = Some u → dyn_authenticate pam_dyn w conn (Password user pass) = Allow u.
Proof using Type.
  intros Hv. destruct (verdict_backend _ _ _ _ _ Hv ltac:(done)) as (creds & b & Hp & Hf & Ha).
  pose proof (build_registry_find _ _ _ _ _ Hf) as Hb. destruct creds as [user pass|tok|tok].
  - subst b. exists user, pass. change (Totp.totp_authenticate hmac_sha1 totp_of_pam w conn (Password user pass)
      = ChallengeV state ps) in Ha. unfold Totp.totp_authenticate in Ha.
    destruct (challenge conn) as [resp|].
    { unfold Totp.complete in Ha. repeat case_match; done. }
    split_and!; [done|done|]. intros u Hu. unfold Totp.open_challenge in Ha.
    assert (pending_user state =
      match dyn_authenticate pam_dyn w conn (Password user pass) with Allow u' => Some u' | _ => None end) as Hps
      by (by inversion Ha).
    rewrite Hps in Hu. destruct (dyn_authenticate pam_dyn w conn (Password user pass)); congruence.
  - subst b. change (Pubkey.pubkey_authenticate from_openssh vk_ok ed_verify (Pubkey.mkPubkey per_user_keys) w conn
      (SignedToken tok) = ChallengeV state ps) in Ha.
    unfold Pubkey.pubkey_authenticate in Ha. repeat case_match; done.
  - destruct Hb as (o & _ & ->). change (Oidc.oidc_authenticate Value Jwk DecodingKey get as_u64 as_str parse_jwks
      jwks_find from_jwk decode_header jwt_decode o w conn (Jwt tok) = ChallengeV state ps) in Ha.
    unfold Oidc.oidc_authenticate in Ha. by repeat case_match.
Qed.

(** C2: with a second factor required, a password login takes two rounds on one
    connection. If the monitor, in any reachable state, allows [user] for a
    password header, then earlier, on the same connection, not closed since and
    at most a minute before, PAM accepted a password for that very user (both
    its stages); the round being answered echoes the token issued then; and the
    answer is the current one-time code of the key the user enrolled (the empty
    key if none), within one time step. Nothing
    a worker does across connections can splice two half-logins together. *)
Theorem two_factor_login (hist : list (Os * Request)) (st : State) (os : Os) (c : Z)
    (auth : option str) (peer : str) (b : bytes) (ans : option ChallengeAnswer) (u0 p0 user : str) :
  reach reg parse_addr hist st →
  parse_authorization auth = Some (Password u0 p0) →
  auth_verdict reg parse_addr os c auth peer b ans st = Allow user →
  ∃ a state ps t h1 h2 os1 auth1 peer1 b1 ans1 st1 pass ctx answer code step,
    ans = Some a ∧ st_token state = ans_token a ∧ since (os_now os) t ≤ CHALLENGE_TTL ∧
    hist = h1 ++ (os1, Authenticate c auth1 peer1 b1 ans1) :: h2 ∧ Forall (λ e, e.2 ≠ Close c) h2 ∧
    reach reg parse_addr h1 st1 ∧ os_now' os1 = t ∧
    auth_verdict reg parse_addr os1 c auth1 peer1 b1 ans1 st1 = ChallengeV state ps ∧
    parse_authorization auth1 = Some (Password user pass) ∧
    pam_ctx Oidc.Pam.SERVICE user pass = Some ctx ∧ pam_auth ctx = true ∧ pam_acct ctx = true ∧
    head (responses a) = Some answer ∧ parse_uint 32 (trim answer) = Some code ∧
    0 ≤ step ∧ Z.abs (step - unix_now (os_world os) / Totp.STEP_SECS) ≤ Totp.SKEW_STEPS ∧
    Totp.hotp_spec hmac_sha1 (default [] (per_user_totp_secret (os_world os) user)) step = code.
Proof using hmac_digest.
  intros Hr Hpw Hv. unfold auth_verdict in Hv.
  destruct (verdict_backend _ _ _ _ _ Hv ltac:(done)) as (creds & bk & Hp & Hf & Ha).
  rewrite Hpw in Hp. injection Hp as <-. pose proof (build_registry_find _ _ _ _ _ Hf) as Hb. simpl in Hb. subst bk.
  change (Totp.totp_authenticate hmac_sha1 totp_of_pam (os_world os) (conn_of_auth parse_addr os c peer b ans st)
    (Password u0 p0) = Allow user) in Ha.
  apply (Totp.totp_allow hmac_sha1 hmac_digest) in Ha as (resp & answer & code & step & Hc & Hu & Hh & Hcode & H0 & Hs & Hspec).
  unfold conn_of_auth, resumed in Hc. cbn [challenge] in Hc. destruct ans as [a|]; [|done]. cbn [mbind option_bind] in Hc.
  rewrite take_result in Hc. destruct (inner (challenges st) !! c) as [[state t]|] eqn:Ec; [|done].
  cbn [mbind option_bind] in Hc. case_bool_decide as Ht; [|done]. destruct Ht as [Httl Htok].
  simplify_eq/=. destruct (origin _ _ _ _ c Hr) as [_ Ho]. destruct (Ho state t Ec) as (ps & h1 & h2 & os1 & auth1 &
    peer1 & b1 & ans1 & st1 & -> & Hr1 & Hv1 & Ht1 & Hcl).
  destruct (challenge_from_round_one _ _ _ _ _ Hv1) as (user1 & pass & Hp1 & _ & Hpam).
  specialize (Hpam user Hu).
  change (Oidc.Pam.backend_authenticate Ctx pam_ctx pam_auth pam_acct Oidc.Pam.mkPam (os_world os1)
    (conn_of_auth parse_addr os1 c peer1 b1 ans1 st1) (Password user1 pass) = Allow user) in Hpam.
  apply Oidc.Pam.pam_allow in Hpam as (pass' & ctx & [= -> ->] & Hctx & Ha1 & Ha2).
  eexists a, state, ps, _, h1, h2, os1, auth1, peer1, b1, ans1, st1, pass', ctx, answer, _, step.
  split_and!; done.
Qed.

End TwoFactor.
End Login.

(** ** Witness: a login with a constant digest and a PAM that accepts one password *)
Section Demo.

Definition demo_pam (service user pass : str) : option bool := Some (bool_decide (pass = lit "pw")).

Definition demo_passwd (user : str) : option User := Some (mkUser user 1000 1000 (lit "/home/bob") (lit "/bin/sh")).

Definition demo_reg : Registry :=
  build_registry (λ _, None) (λ _, false) (λ _ _ _, false) Totp.digest0 (λ s, Some s) bool demo_pam id (λ _, true)
    unit unit unit (λ _ _, None) (λ _, None) (λ _, None) (λ _, None) (λ _ _, None) (λ _, None) (λ _, None)
    (λ _ _ _ _, None) demo_passwd true (mkPolicy [] []) None.

Definition demo_os (now : Z) : Os :=
  mkOs Totp.world0 now now demo_passwd (λ _, None) None (λ _, None) (λ _, None) (λ _, None).

Definition demo_header : option str := Some (basic_header (lit "bob") (lit "pw")).

Definition demo_answer : ChallengeAnswer :=
  {| ans_token := Totp.new_token Totp.world0;
     responses := [show_uint (Totp.hotp_spec Totp.digest0 [] 33)] |}.

Definition demo_hist : list (Os * Request) :=
  [(demo_os 5, Authenticate 1 demo_header (lit "p") (repeat 0 32) None)].

Definition demo_st : State :=
  (handle (H0 := token_postcard) demo_reg (λ _, None) (demo_os 5)
     (Authenticate 1 demo_header (lit "p") (repeat 0 32) None) State_default).1.1.

End Demo.

Lemma two_factor_login_witness :
  ∃ a state ps t h1 h2 os1 auth1 peer1 b1 ans1 st1 pass ctx answer code step,
    Some demo_answer = Some a ∧ st_token state = ans_token a ∧ since (os_now (demo_os 9)) t ≤ CHALLENGE_TTL ∧
    demo_hist = h1 ++ (os1, Authenticate 1 auth1 peer1 b1 ans1) :: h2 ∧ Forall (λ e, e.2 ≠ Close 1) h2 ∧
    reach (pt := token_postcard) demo_reg (λ _, None) h1 st1 ∧ os_now' os1 = t ∧
    auth_verdict (pt := token_postcard) demo_reg (λ _, None) os1 1 auth1 peer1 b1 ans1 st1 = ChallengeV state ps ∧
    parse_authorization (H0 := token_postcard) auth1 = Some (Password (lit "bob") pass) ∧
    demo_pam Oidc.Pam.SERVICE (lit "bob") pass = Some ctx ∧ id ctx = true ∧ true = true ∧
    head (responses a) = Some answer ∧ parse_uint 32 (trim answer) = Some code ∧
    0 ≤ step ∧ Z.abs (step - unix_now (os_world (demo_os 9)) / Totp.STEP_SECS) ≤ Totp.SKEW_STEPS ∧
    Totp.hotp_spec Totp.digest0
      (default [] (per_user_totp_secret (λ s, Some s) demo_passwd (os_world (demo_os 9)) (lit "bob"))) step = code.
Proof.
  apply (two_factor_login (pt := token_postcard) (λ _, None) (λ _, false) (λ _ _ _, false) Totp.digest0 (λ s, Some s)
    bool demo_pam id (λ _, true) unit unit unit (λ _ _, None) (λ _, None) (λ _, None) (λ _, None) (λ _ _, None)
    (λ _, None) (λ _, None) (λ _ _ _ _, None) demo_passwd Totp.digest0_ok (λ _, None) (mkPolicy [] []) None
    demo_hist demo_st (demo_os 9) 1 demo_header (lit "p") (repeat 0 32) (Some demo_answer) (lit "bob") (lit "pw")).
  - apply (reach_snoc (pt := token_postcard) _ _ [] _ (demo_os 5)). apply reach_nil.
  - vm_compute. reflexivity.
  - vm_compute. reflexivity.
Defined.

End Login.
