(* ===== verification/Session.v ===== *)
(** * Session: channel pumps and port forwarding

    [quish-server/src/session.rs]. An mpsc channel whose sender ends is the list
    of what will come out of it, then its close. [tokio::select!] takes any of
    its enabled branches: a pump is run by a scheduler that chooses the branch
    at every turn, and the theorems hold for every scheduler. Sends into a
    child's standard input are taken as accepted at once; how long they may
    block is not modelled. *)
From S2P Require Import Prelude RustStr Postcard Base64 Proto Net Frames.

Module Session.

(** ** Sending *)

(** What the stream says to a send: done, the peer closed with [H3_NO_ERROR], or
    another error. *)
Inductive SendRes := SendOk | SendGone | SendErr.

Definition send_msg `{Postcard T} (r : SendRes) (msg : T) : result unit bool :=
  match encode msg with
  | Err _ => Err ()
  | Ok _ => match r with SendOk => Ok true | SendGone => Ok false | SendErr => Err () end
  end.

Inductive PumpEnd := Drained | ClientGone.

(** How a turn leaves a pump: running, returned, or failed. *)
Inductive Turn (S : Type) :=
| Running (st : S)
| Returned (e : PumpEnd) (st : S)
| Errored (st : S).
Arguments Running {S} st.
Arguments Returned {S} e st.
Arguments Errored {S} st.

(** ** One-shot commands *)
Record ExecPump := mkExec {
  x_frames : list ChannelMessage;
  x_out : list bytes;
  x_err : list bytes;
  x_frames_done : bool;
  x_out_done : bool;
  x_err_done : bool;
  x_in_open : bool;
  x_sent : list ChannelMessage;
  x_stdin : list bytes;
  x_sigs : list Signal;
}.

Definition exec_init (frames : list ChannelMessage) (out err : list bytes) : ExecPump :=
  mkExec frames out err false false false true [] [] [].

Inductive Arm := ArmFrames | ArmOut | ArmErr.

Section Pumps.
Context `{Postcard ChannelMessage}.

(** The check at the bottom of the loop. *)
Definition exec_check (st : ExecPump) : Turn ExecPump :=
  if x_out_done st && x_err_done st then Returned Drained st else Running st.

(** One turn of [pump_exec] through a branch; [None] when its guard is off. *)
Definition exec_arm (a : Arm) (r : SendRes) (st : ExecPump) : option (Turn ExecPump) :=
  let '(mkExec fs out err fd od ed io sent sin sg) := st in
  match a with
  | ArmOut =>
      if od then None
      else match out with
           | b :: out =>
               match send_msg r (Data b) with
               | Ok true => Some (exec_check (mkExec fs out err fd od ed io (sent ++ [Data b]) sin sg))
               | Ok false => Some (Returned ClientGone (mkExec fs out err fd od ed io sent sin sg))
               | Err _ => Some (Errored (mkExec fs out err fd od ed io sent sin sg))
               end
           | [] => Some (exec_check (mkExec fs out err fd true ed io sent sin sg))
           end
  | ArmErr =>
      if ed then None
      else match err with
           | b :: err =>
               match send_msg r (DataErr b) with
               | Ok true => Some (exec_check (mkExec fs out err fd od ed io (sent ++ [DataErr b]) sin sg))
               | Ok false => Some (Returned ClientGone (mkExec fs out err fd od ed io sent sin sg))
               | Err _ => Some (Errored (mkExec fs out err fd od ed io sent sin sg))
               end
           | [] => Some (exec_check (mkExec fs out err fd od true io sent sin sg))
           end
  | ArmFrames =>
      if fd then None
      else match fs with
           | Data d :: fs => Some (exec_check (mkExec fs out err fd od ed io sent (if io then sin ++ [d] else sin) sg))
           | SignalMsg s :: fs => Some (exec_check (mkExec fs out err fd od ed io sent sin (sg ++ [s])))
           | _ :: fs => Some (exec_check (mkExec fs out err fd od ed io sent sin sg))
           | [] => Some (exec_check (mkExec fs out err true od ed false sent sin sg))
           end
  end.

(** ** Interactive shells *)
Record ShellPump := mkShell {
  h_frames : list ChannelMessage;
  h_out : list bytes;
  h_frames_done : bool;
  h_in_open : bool;
  h_sent : list ChannelMessage;
  h_stdin : list bytes;
  h_resizes : list (Z * Z);
}.

Definition shell_init (frames : list ChannelMessage) (out : list bytes) : ShellPump :=
  mkShell frames out false true [] [] [].

Definition shell_arm (a : Arm) (r : SendRes) (st : ShellPump) : option (Turn ShellPump) :=
  let '(mkShell fs out fd io sent sin rz) := st in
  match a with
  | ArmFrames =>
      if fd then None
      else match fs with
           | Data d :: fs => Some (Running (mkShell fs out fd io sent (if io then sin ++ [d] else sin) rz))
           | Resize c w :: fs => Some (Running (mkShell fs out fd io sent sin (rz ++ [(c, w)])))
           | _ :: fs => Some (Running (mkShell fs out fd io sent sin rz))
           | [] => Some (Running (mkShell fs out true false sent sin rz))
           end
  | ArmOut =>
      match out with
      | b :: out =>
          match send_msg r (Data b) with
          | Ok true => Some (Running (mkShell fs out fd io (sent ++ [Data b]) sin rz))
          | Ok false => Some (Returned ClientGone (mkShell fs out fd io sent sin rz))
          | Err _ => Some (Errored (mkShell fs out fd io sent sin rz))
          end
      | [] => Some (Returned Drained st)
      end
  | ArmErr => None
  end.

(** ** Forwarded connections *)
Record ForwardPump := mkForward {
  f_frames : list ChannelMessage;
  f_out : list bytes;
  f_frames_done : bool;
  f_out_done : bool;
  f_sent : list ChannelMessage;
  f_tcp : list bytes;
  f_shutdown : bool;
}.

Definition forward_init (frames : list ChannelMessage) (out : list bytes) : ForwardPump :=
  mkForward frames out false false [] [] false.

Definition forward_check (st : ForwardPump) : Turn ForwardPump :=
  if f_frames_done st && f_out_done st then Returned Drained st else Running st.

(** [w] is whether the write to the service succeeds. A client that is gone
    ends the loop like the drained case does. *)
Definition forward_arm (a : Arm) (r : SendRes) (w : bool) (st : ForwardPump) : option (Turn ForwardPump) :=
  let '(mkForward fs out fd od sent tcp sh) := st in
  match a with
  | ArmFrames =>
      if fd then None
      else match fs with
           | Data d :: fs =>
               if w then Some (forward_check (mkForward fs out fd od sent (tcp ++ [d]) sh))
               else Some (forward_check (mkForward fs out true od sent tcp sh))
           | _ :: fs => Some (forward_check (mkForward fs out fd od sent tcp sh))
           | [] => Some (forward_check (mkForward fs out true od sent tcp true))
           end
  | ArmOut =>
      if od then None
      else match out with
           | b :: out =>
               match send_msg r (Data b) with
               | Ok true => Some (forward_check (mkForward fs out fd od (sent ++ [Data b]) tcp sh))
               | Ok false => Some (Returned ClientGone (mkForward fs out fd od sent tcp sh))
               | Err _ => Some (Errored (mkForward fs out fd od sent tcp sh))
               end
           | [] => Some (forward_check (mkForward fs out fd true sent tcp sh))
           end
  | ArmErr => None
  end.

End Pumps.

(** ** Running a pump

    A scheduler: the branch taken at each turn, and what the world answers. *)
Inductive Outcome (S : Type) :=
| Finished (e : PumpEnd) (st : S)
| FinishedErr (st : S)
| Stuck
| NoFuel.
Arguments Finished {S} e st.
Arguments FinishedErr {S} st.
Arguments Stuck {S}.
Arguments NoFuel {S}.

Fixpoint pump_loop {S C : Type} (arm : C → S → option (Turn S)) (choose : nat → S → C) (fuel n : nat) (st : S) :
    Outcome S :=
  match fuel with
  | O => NoFuel
  | S fuel =>
      match arm (choose n st) st with
      | None => Stuck
      | Some (Running st) => pump_loop arm choose fuel (Datatypes.S n) st
      | Some (Returned e st) => Finished e st
      | Some (Errored st) => FinishedErr st
      end
  end.

(** A scheduler takes only branches whose guard is on. *)
Definition schedules {S C : Type} (arm : C → S → option (Turn S)) (choose : nat → S → C) (P : S → Prop) : Prop :=
  ∀ n st, P st → is_Some (arm (choose n st) st).

(** Total correctness of a loop: an invariant that every turn keeps, a measure
    that every running turn decreases. *)
Lemma pump_loop_correct {S C : Type} (arm : C → S → option (Turn S)) (choose : nat → S → C)
    (I : S → Prop) (E : PumpEnd → S → Prop) (X : S → Prop) (μ : S → nat) :
  schedules arm choose I →
  (∀ n st, I st → match arm (choose n st) st with
                  | Some (Running st') => I st' ∧ (μ st' < μ st)%nat
                  | Some (Returned e st') => E e st'
                  | Some (Errored st') => X st'
                  | None => True
                  end) →
  ∀ fuel n st, I st → (μ st < fuel)%nat →
  match pump_loop arm choose fuel n st with
  | Finished e st' => E e st'
  | FinishedErr st' => X st'
  | _ => False
  end.
Proof.
  intros Hs Ht fuel. induction fuel as [|fuel IH]; intros n st Hi Hf; [lia|]. simpl.
  specialize (Ht n st Hi). destruct (Hs n st Hi) as [t Hsome]. rewrite Hsome in Ht |- *.
  destruct t as [st'|e st'|st']; [|done|done]. destruct Ht as [Hi' Hm]. apply IH; [done|lia].
Qed.

(** The states a run from [st0] goes through, turn by turn. *)
Inductive at_turn {S C : Type} (arm : C → S → option (Turn S)) (choose : nat → S → C) (st0 : S) : nat → S → Prop :=
| at_start : at_turn arm choose st0 0 st0
| at_next n st st' :
    at_turn arm choose st0 n st → arm (choose n st) st = Some (Running st') →
    at_turn arm choose st0 (Datatypes.S n) st'.

Lemma at_turn_inv {S C : Type} (arm : C → S → option (Turn S)) choose (st0 : S) (I : S → Prop) n st :
  I st0 → (∀ c st st', I st → arm c st = Some (Running st') → I st') → at_turn arm choose st0 n st → I st.
Proof. intros H0 Hi. induction 1; eauto. Qed.

(** A loop that ends in an error does so at one of its turns. *)
Lemma pump_loop_error {S C : Type} (arm : C → S → option (Turn S)) choose (st0 : S) fuel n st st' :
  at_turn arm choose st0 n st → pump_loop arm choose fuel n st = FinishedErr st' →
  ∃ m t, at_turn arm choose st0 m t ∧ arm (choose m t) t = Some (Errored st').
Proof.
  revert n st. induction fuel as [|fuel IH]; intros n st Hat; simpl; [done|].
  destruct (arm (choose n st) st) as [[t|e t|t]|] eqn:E; [|done| |done].
  - apply IH. by eapply at_next.
  - intros [= ->]. by exists n, st.
Qed.

(** ** What the pumps deliver *)
Definition data_of (ms : list ChannelMessage) : list bytes :=
  omap (λ m, match m with Data d => Some d | _ => None end) ms.
Definition dataerr_of (ms : list ChannelMessage) : list bytes :=
  omap (λ m, match m with DataErr d => Some d | _ => None end) ms.
Definition signals_of (ms : list ChannelMessage) : list Signal :=
  omap (λ m, match m with SignalMsg s => Some s | _ => None end) ms.
Definition resizes_of (ms : list ChannelMessage) : list (Z * Z) :=
  omap (λ m, match m with Resize c w => Some (c, w) | _ => None end) ms.

Section Exec.
Context `{Postcard ChannelMessage}.
Variables (frames0 : list ChannelMessage) (out0 err0 : list bytes).

Definition exec_inv (st : ExecPump) : Prop :=
  out0 = data_of (x_sent st) ++ x_out st ∧ err0 = dataerr_of (x_sent st) ++ x_err st ∧
  (x_out_done st = true → x_out st = []) ∧ (x_err_done st = true → x_err st = []) ∧
  length (x_sent st) = (length (data_of (x_sent st)) + length (dataerr_of (x_sent st)))%nat ∧
  (∃ seen, frames0 = seen ++ x_frames st ∧ x_stdin st = data_of seen ∧ x_sigs st = signals_of seen) ∧
  (x_in_open st = negb (x_frames_done st)).

(** A state in which the loop goes round again. *)
Definition exec_running (st : ExecPump) : Prop := exec_inv st ∧ x_out_done st && x_err_done st = false.

Definition exec_measure (st : ExecPump) : nat :=
  (length (x_out st) + length (x_err st) + length (x_frames st) + Nat.b2n (negb (x_out_done st)) +
   Nat.b2n (negb (x_err_done st)) + Nat.b2n (negb (x_frames_done st)))%nat.

(** The client has all of the output: nothing lost, reordered or altered. *)
Definition exec_delivered (st : ExecPump) : Prop :=
  data_of (x_sent st) = out0 ∧ dataerr_of (x_sent st) = err0 ∧
  length (x_sent st) = (length out0 + length err0)%nat ∧
  ∃ seen rest, frames0 = seen ++ rest ∧ x_stdin st = data_of seen ∧ x_sigs st = signals_of seen.

(** What was sent is always an in-order prefix of each stream. *)
Definition exec_partial (st : ExecPump) : Prop :=
  data_of (x_sent st) `prefix_of` out0 ∧ dataerr_of (x_sent st) `prefix_of` err0.

Lemma data_of_app l1 l2 : data_of (l1 ++ l2) = data_of l1 ++ data_of l2.
Proof. apply omap_app. Qed.
Lemma dataerr_of_app l1 l2 : dataerr_of (l1 ++ l2) = dataerr_of l1 ++ dataerr_of l2.
Proof. apply omap_app. Qed.
Lemma signals_of_app l1 l2 : signals_of (l1 ++ l2) = signals_of l1 ++ signals_of l2.
Proof. apply omap_app. Qed.

Lemma exec_check_turn st :
  exec_inv st →
  match exec_check st with
  | Running st' => exec_running st' ∧ st' = st
  | Returned e st' => e = Drained ∧ exec_delivered st'
  | Errored _ => False
  end.
Proof.
  intros Hi. unfold exec_check. destruct (x_out_done st) eqn:Eo, (x_err_done st) eqn:Ee; simpl;
    try (unfold exec_running; by rewrite Eo, Ee).
  destruct Hi as (H1 & H2 & H3 & H4 & H5 & (seen & H6 & H7 & H8) & _).
  rewrite H3, app_nil_r in H1 by done. rewrite H4, app_nil_r in H2 by done.
  split; [done|]. unfold exec_delivered. subst out0 err0. split_and!; [done|done|done|].
  by exists seen, (x_frames st).
Qed.

(** A turn that goes on keeps the invariant and decreases the measure. *)
Lemma exec_next st st' :
  exec_inv st' → (exec_measure st' < exec_measure st)%nat →
  match exec_check st' with
  | Running st' => exec_running st' ∧ (exec_measure st' < exec_measure st)%nat
  | Returned e st' => match e with Drained => exec_delivered st' | ClientGone => exec_partial st' end
  | Errored st' => exec_partial st'
  end.
Proof.
  intros Hi Hm. pose proof (exec_check_turn st' Hi) as Hc.
  destruct (exec_check st'); [destruct Hc as [? ->]; done|by destruct Hc as [-> ?]|done].
Qed.

Lemma exec_arm_turn a r st :
  exec_running st →
  match exec_arm a r st with
  | Some (Running st') => exec_running st' ∧ (exec_measure st' < exec_measure st)%nat
  | Some (Returned e st') => match e with Drained => exec_delivered st' | ClientGone => exec_partial st' end
  | Some (Errored st') => exec_partial st'
  | None => True
  end.
Proof.
  intros [Hi _]. destruct st as [fs out err fd od ed io sent sin sg].
  destruct Hi as (H1 & H2 & H3 & H4 & H5 & (seen & H6 & H7 & H8) & H9); simpl in *.
  destruct a; simpl.
  - destruct fd; [done|]. simpl in H9. subst io.
    destruct fs as [|m fs]; [|destruct m as [d|d|c w|code|s]]; apply exec_next; unfold exec_measure; simpl;
      try (destruct od, ed; simpl; lia); unfold exec_inv; simpl; split_and!; try done;
      first [by exists seen | match type of H6 with _ = _ ++ ?m :: _ => exists (seen ++ [m]) end];
      rewrite data_of_app, signals_of_app, <- app_assoc, H7, H8, H6; simpl; rewrite ?app_nil_r; done.
  - destruct od; [done|]. destruct out as [|b out].
    + apply exec_next; unfold exec_measure; simpl; [|destruct ed, fd; simpl; lia].
      unfold exec_inv; simpl. split_and!; try done. by exists seen.
    + destruct (send_msg r (Data b)) as [[]|].
      * apply exec_next; unfold exec_measure; simpl; [|lia]. unfold exec_inv; simpl.
        rewrite data_of_app, dataerr_of_app; simpl. rewrite app_nil_r, <- app_assoc, !length_app; simpl.
        split_and!; try done; [lia|by exists seen].
      * unfold exec_partial; simpl. split; [by eexists|by eexists].
      * unfold exec_partial; simpl. split; [by eexists|by eexists].
  - destruct ed; [done|]. destruct err as [|b err].
    + apply exec_next; unfold exec_measure; simpl; [|destruct od, fd; simpl; lia].
      unfold exec_inv; simpl. split_and!; try done. by exists seen.
    + destruct (send_msg r (DataErr b)) as [[]|].
      * apply exec_next; unfold exec_measure; simpl; [|lia]. unfold exec_inv; simpl.
        rewrite data_of_app, dataerr_of_app; simpl. rewrite app_nil_r, <- app_assoc, !length_app; simpl.
        split_and!; try done; [lia|by exists seen].
      * unfold exec_partial; simpl. split; [by eexists|by eexists].
      * unfold exec_partial; simpl. split; [by eexists|by eexists].
Qed.

Lemma exec_init_running : exec_running (exec_init frames0 out0 err0).
Proof. split; [|done]. unfold exec_inv; simpl. split_and!; try done. by exists []. Qed.

End Exec.

(** A command's output reaches the client whole and in order, and the pump
    always ends. Whichever enabled branch [select!] takes at each turn, within
    one turn per chunk and frame plus one per stream: either everything the
    command wrote to its two outputs has been sent, each stream in order and
    nothing else, and the command got the client's input and signals in order;
    or a send met a closed or broken stream, and what was sent is a prefix of
    each output. *)
Theorem pump_exec_delivers {p : Postcard ChannelMessage} (frames : list ChannelMessage) (out err : list bytes)
    (choose : nat → ExecPump → Arm * SendRes) :
  schedules (λ c, exec_arm c.1 c.2) choose (exec_running frames out err) →
  match pump_loop (λ c, exec_arm c.1 c.2) choose (length out + length err + length frames + 4) 0
          (exec_init frames out err) with
  | Finished Drained st => exec_delivered frames out err st
  | Finished ClientGone st | FinishedErr st => exec_partial out err st
  | Stuck | NoFuel => False
  end.
Proof.
  intros Hs.
  pose proof (pump_loop_correct (λ c, exec_arm c.1 c.2) choose (exec_running frames out err)
    (λ e st, match e with Drained => exec_delivered frames out err st | ClientGone => exec_partial out err st end)
    (exec_partial out err) exec_measure Hs (λ n st Hi, exec_arm_turn frames out err _ _ st Hi)
    (length out + length err + length frames + 4) 0 _ (exec_init_running frames out err)) as Hl.
  destruct (pump_loop _ _ _ _ _) as [[] st|st| |]; apply Hl; unfold exec_measure; simpl; lia.
Qed.

(** A scheduler: standard output first, then the client, then standard error. *)
Definition exec_first (_ : nat) (st : ExecPump) : Arm * SendRes :=
  (if negb (x_out_done st) then ArmOut else if negb (x_frames_done st) then ArmFrames else ArmErr, SendOk).

Lemma exec_first_schedules `{Postcard ChannelMessage} frames out err :
  schedules (λ c, exec_arm c.1 c.2) exec_first (exec_running frames out err).
Proof.
  intros n [fs o e fd od ed io sent sin sg] [_ Hr]. simpl in Hr. unfold exec_first. simpl.
  destruct od; simpl.
  - destruct fd; simpl; [|by destruct fs as [|[] ?]; eexists]. destruct ed; [done|].
    destruct e; [by eexists|]. destruct (send_msg _ _) as [[]|]; by eexists.
  - destruct o; [by eexists|]. destruct (send_msg _ _) as [[]|]; by eexists.
Qed.

Lemma pump_exec_delivers_witness :
  match pump_loop (λ c, exec_arm (H := Wire.message_postcard) c.1 c.2) exec_first 8 0
          (exec_init [Data [1]] [[2]] [[3]; [4]]) with
  | Finished Drained st => exec_delivered [Data [1]] [[2]] [[3]; [4]] st
  | Finished ClientGone st | FinishedErr st => exec_partial [[2]] [[3]; [4]] st
  | Stuck | NoFuel => False
  end.
Proof.
  apply (pump_exec_delivers (p := Wire.message_postcard) [Data [1]] [[2]] [[3]; [4]] exec_first).
  apply exec_first_schedules.
Defined.

Section Shell.
Context `{Postcard ChannelMessage}.
Variables (frames0 : list ChannelMessage) (out0 : list bytes).

Lemma resizes_of_app l1 l2 : resizes_of (l1 ++ l2) = resizes_of l1 ++ resizes_of l2.
Proof. apply omap_app. Qed.

Definition shell_seen (st : ShellPump) : Prop :=
  ∃ seen, frames0 = seen ++ h_frames st ∧ h_stdin st = data_of seen ∧ h_resizes st = resizes_of seen.

Definition shell_inv (st : ShellPump) : Prop :=
  (∃ done, out0 = done ++ h_out st ∧ h_sent st = Data <$> done) ∧ shell_seen st ∧
  h_in_open st = negb (h_frames_done st).

Definition shell_measure (st : ShellPump) : nat :=
  (length (h_out st) + length (h_frames st) + Nat.b2n (negb (h_frames_done st)))%nat.

Definition shell_delivered (st : ShellPump) : Prop := h_sent st = Data <$> out0 ∧ shell_seen st.

Definition shell_partial (st : ShellPump) : Prop := h_sent st `prefix_of` (Data <$> out0).

Lemma shell_arm_turn a r st :
  shell_inv st →
  match shell_arm a r st with
  | Some (Running st') => shell_inv st' ∧ (shell_measure st' < shell_measure st)%nat
  | Some (Returned e st') => match e with Drained => shell_delivered st' | ClientGone => shell_partial st' end
  | Some (Errored st') => shell_partial st'
  | None => True
  end.
Proof.
  destruct st as [fs out fd io sent sin rz].
  intros ((done_ & H1 & H2) & (seen & H3 & H4 & H5) & H6); simpl in *. destruct a; simpl; [| |done].
  - destruct fd; [done|]. simpl in H6. subst io.
    destruct fs as [|m fs]; [|destruct m as [d|d|c w|code|s]]; (split; [|unfold shell_measure; simpl; lia]);
      (split_and!; [by exists done_| |done]); unfold shell_seen; simpl;
      first [by exists seen | match type of H3 with _ = _ ++ ?m :: _ => exists (seen ++ [m]) end];
      rewrite data_of_app, resizes_of_app, <- app_assoc, H4, H5, H3; simpl; rewrite ?app_nil_r; done.
  - destruct out as [|b out].
    + rewrite app_nil_r in H1. subst. by split; [|exists seen].
    + assert (shell_partial (mkShell fs out fd io sent sin rz)) as Hp.
      { unfold shell_partial. simpl. rewrite H1, H2, fmap_app. by eexists. }
      destruct (send_msg r (Data b)) as [[]|]; [|done|done].
      split; [|unfold shell_measure; simpl; lia]. split_and!; [|by exists seen|done].
      exists (done_ ++ [b]). simpl. by rewrite <- app_assoc, fmap_app, H2.
Qed.

Lemma shell_inv_init : shell_inv (shell_init frames0 out0).
Proof. split_and!; [by exists []|by exists []|done]. Qed.

End Shell.

(** A shell's output reaches the client whole and in order. For every
    scheduling, the shell pump ends within one turn per chunk and frame plus
    two, and has sent exactly the terminal's output as [Data] frames, having
    passed the client's input and window sizes on in order; unless a send met a
    closed or broken stream, and then it sent a prefix. *)
Theorem pump_shell_delivers {p : Postcard ChannelMessage} (frames : list ChannelMessage) (out : list bytes)
    (choose : nat → ShellPump → Arm * SendRes) :
  schedules (λ c, shell_arm c.1 c.2) choose (shell_inv frames out) →
  match pump_loop (λ c, shell_arm c.1 c.2) choose (length out + length frames + 2) 0 (shell_init frames out) with
  | Finished Drained st => shell_delivered frames out st
  | Finished ClientGone st | FinishedErr st => shell_partial out st
  | Stuck | NoFuel => False
  end.
Proof.
  intros Hs.
  pose proof (pump_loop_correct (λ c, shell_arm c.1 c.2) choose (shell_inv frames out)
    (λ e st, match e with Drained => shell_delivered frames out st | ClientGone => shell_partial out st end)
    (shell_partial out) shell_measure Hs (λ n st Hi, shell_arm_turn frames out _ _ st Hi)
    (length out + length frames + 2) 0 _ (shell_inv_init frames out)) as Hl.
  destruct (pump_loop _ _ _ _ _) as [[] st|st| |]; apply Hl; unfold shell_measure; simpl; lia.
Qed.

Lemma pump_shell_delivers_witness :
  match pump_loop (λ c, shell_arm (H := Wire.message_postcard) c.1 c.2) (λ _ _, (ArmOut, SendOk)) 4 0
          (shell_init [Resize 80 24] [[104]]) with
  | Finished Drained st => shell_delivered [Resize 80 24] [[104]] st
  | Finished ClientGone st | FinishedErr st => shell_partial [[104]] st
  | Stuck | NoFuel => False
  end.
Proof.
  apply (pump_shell_delivers (p := Wire.message_postcard) [Resize 80 24] [[104]] (λ _ _, (ArmOut, SendOk))).
  intros n [fs out fd io sent sin rz] _. simpl. destruct out; [by eexists|].
  destruct (send_msg _ _) as [[]|]; by eexists.
Defined.

Section Forward.
Context `{Postcard ChannelMessage}.
Variables (frames0 : list ChannelMessage) (out0 : list bytes).

(** The service has been written the client's data, up to a write that failed;
    its input is closed only once it has been written all of it. *)
Definition forward_written (st : ForwardPump) : Prop :=
  ∃ seen, frames0 = seen ++ f_frames st ∧ f_tcp st `prefix_of` data_of seen ∧
    (f_frames_done st = false → f_tcp st = data_of seen) ∧
    (f_shutdown st = true → f_tcp st = data_of frames0) ∧
    (f_frames_done st = false → f_shutdown st = false).

Definition forward_inv (st : ForwardPump) : Prop :=
  (∃ done, out0 = done ++ f_out st ∧ f_sent st = Data <$> done) ∧
  (f_out_done st = true → f_out st = []) ∧ forward_written st.

Definition forward_running (st : ForwardPump) : Prop :=
  forward_inv st ∧ f_frames_done st && f_out_done st = false.

Definition forward_measure (st : ForwardPump) : nat :=
  (length (f_out st) + length (f_frames st) + Nat.b2n (negb (f_frames_done st)) +
   Nat.b2n (negb (f_out_done st)))%nat.

Definition forward_delivered (st : ForwardPump) : Prop :=
  f_frames_done st = true ∧ f_out_done st = true ∧ f_sent st = Data <$> out0 ∧ forward_written st.

Definition forward_partial (st : ForwardPump) : Prop :=
  f_sent st `prefix_of` (Data <$> out0) ∧ forward_written st.

Lemma forward_next st st' :
  forward_inv st' → (forward_measure st' < forward_measure st)%nat →
  match forward_check st' with
  | Running st' => forward_running st' ∧ (forward_measure st' < forward_measure st)%nat
  | Returned e st' => match e with Drained => forward_delivered st' | ClientGone => forward_partial st' end
  | Errored st' => forward_partial st'
  end.
Proof.
  intros Hi Hm. unfold forward_check. destruct (f_frames_done st' && f_out_done st') eqn:E; [|done].
  apply andb_true_iff in E as [E1 E2]. destruct Hi as ((done_ & H1 & H2) & H3 & H4).
  rewrite H3, app_nil_r in H1 by done. unfold forward_delivered. by rewrite H1.
Qed.

Lemma forward_frames_turn w fs out fd od sent tcp sh t :
  forward_running (mkForward fs out fd od sent tcp sh) →
  forward_arm ArmFrames SendOk w (mkForward fs out fd od sent tcp sh) = Some t →
  match t with
  | Running st' => forward_running st' ∧ (forward_measure st' < forward_measure (mkForward fs out fd od sent tcp sh))%nat
  | Returned e st' => match e with Drained => forward_delivered st' | ClientGone => forward_partial st' end
  | Errored st' => forward_partial st'
  end.
Proof.
  intros [(H1 & H2 & seen & H3 & H4 & H5 & H6 & H7) _] Ht. simpl in *. destruct fd; [done|].
  specialize (H5 eq_refl). specialize (H7 eq_refl). subst tcp sh.
  destruct fs as [|m fs].
  { apply (inj Some) in Ht as <-. rewrite app_nil_r in H3.
    apply forward_next; [|unfold forward_measure; simpl; lia].
    split_and!; [done|done|]. exists seen. simpl. by rewrite app_nil_r, H3. }
  assert (forward_inv (mkForward fs out false od sent (data_of (seen ++ [m])) false)) as Hn.
  { split_and!; [done|done|]. exists (seen ++ [m]). simpl. by rewrite <- app_assoc. }
  rewrite data_of_app in Hn. destruct m as [d|d|c r|code|s]; [destruct w|..]; apply (inj Some) in Ht as <-;
    (apply forward_next; [|unfold forward_measure; simpl; lia]); simpl in Hn; rewrite ?app_nil_r in Hn; try done.
  split_and!; [done|done|]. exists (seen ++ [Data d]). simpl. rewrite <- app_assoc, data_of_app.
  split_and!; try done. by apply prefix_app_r.
Qed.

Lemma forward_arm_turn a r w st :
  forward_running st →
  match forward_arm a r w st with
  | Some (Running st') => forward_running st' ∧ (forward_measure st' < forward_measure st)%nat
  | Some (Returned e st') => match e with Drained => forward_delivered st' | ClientGone => forward_partial st' end
  | Some (Errored st') => forward_partial st'
  | None => True
  end.
Proof.
  intros Hr. destruct st as [fs out fd od sent tcp sh]. destruct a; [| |done].
  { change (forward_arm ArmFrames r w) with (forward_arm ArmFrames SendOk w).
    destruct (forward_arm ArmFrames _ _ _) as [t|] eqn:E; [|done].
    pose proof (forward_frames_turn w _ _ _ _ _ _ _ t Hr E) as Ht. by destruct t. }
  destruct Hr as [((done_ & H1 & H2) & H3 & H4) _]. simpl in *. destruct od; [done|]. destruct out as [|b out].
  - apply forward_next; [|unfold forward_measure; simpl; destruct fd; simpl; lia]. split_and!; [by exists done_|done|done].
  - assert (forward_partial (mkForward fs (b :: out) fd false sent tcp sh)) as Hp.
    { split; [|done]. simpl. rewrite H1, H2, fmap_app. by eexists. }
    destruct (send_msg r (Data b)) as [[]|]; [|done|done].
    apply forward_next; [|unfold forward_measure; simpl; destruct fd; simpl; lia].
    split_and!; [|done|done]. exists (done_ ++ [b]). simpl. by rewrite <- app_assoc, fmap_app, H2.
Qed.

Lemma forward_inv_init : forward_running (forward_init frames0 out0).
Proof. split; [|done]. split_and!; [by exists []|done|]. by exists []. Qed.

End Forward.

(** A forwarded connection is carried whole, both ways. For every scheduling,
    the pump ends within one turn per chunk and frame plus three. When neither
    the client nor its stream fails, it ends only once both sides have ended,
    the client having been sent all that the service wrote; the service has been
    written a prefix of the client's data, and all of it before its input is
    closed. *)
Theorem pump_forward_delivers {p : Postcard ChannelMessage} (frames : list ChannelMessage) (out : list bytes)
    (choose : nat → ForwardPump → Arm * SendRes * bool) :
  schedules (λ c, forward_arm c.1.1 c.1.2 c.2) choose (forward_running frames out) →
  match pump_loop (λ c, forward_arm c.1.1 c.1.2 c.2) choose (length out + length frames + 3) 0
          (forward_init frames out) with
  | Finished Drained st => forward_delivered frames out st
  | Finished ClientGone st | FinishedErr st => forward_partial frames out st
  | Stuck | NoFuel => False
  end.
Proof.
  intros Hs.
  pose proof (pump_loop_correct (λ c, forward_arm c.1.1 c.1.2 c.2) choose (forward_running frames out)
    (λ e st, match e with Drained => forward_delivered frames out st | ClientGone => forward_partial frames out st end)
    (forward_partial frames out) forward_measure Hs (λ n st Hi, forward_arm_turn frames out _ _ _ st Hi)
    (length out + length frames + 3) 0 _ (forward_inv_init frames out)) as Hl.
  destruct (pump_loop _ _ _ _ _) as [[] st|st| |]; apply Hl; unfold forward_measure; simpl; lia.
Qed.

Lemma pump_forward_delivers_witness :
  let choose := λ (_ : nat) (st : ForwardPump),
    if f_out_done st then (ArmFrames, SendOk, true) else (ArmOut, SendOk, true) in
  match pump_loop (λ c, forward_arm (H := Wire.message_postcard) c.1.1 c.1.2 c.2) choose 5 0
          (forward_init [Data [1]] [[2]]) with
  | Finished Drained st => forward_delivered [Data [1]] [[2]] st
  | Finished ClientGone st | FinishedErr st => forward_partial [Data [1]] [[2]] st
  | Stuck | NoFuel => False
  end.
Proof.
  intros choose. apply (pump_forward_delivers (p := Wire.message_postcard) [Data [1]] [[2]] choose).
  intros n [fs out fd od sent tcp sh] [_ Hd]. unfold choose. simpl in *. destruct od; simpl.
  - rewrite andb_true_r in Hd. subst fd. destruct fs as [|[]]; by eexists.
  - destruct out; [by eexists|]. destruct (send_msg _ _) as [[]|]; by eexists.
Defined.

(** ** The egress policy *)

(** What serving a forward channel does outside the process, in order. *)
Inductive NetEffect :=
| Resolve (host : str) (port : Z)
| Connect (a : SocketAddr)
| Bind (a : SocketAddr).

(** What the outside answers: the addresses of a name, and whether a connection
    or a bind succeeds. *)
Record NetWorld := mkNet {
  lookup_host : str → Z → option (list SocketAddr);
  connects : SocketAddr → bool;
  binds : SocketAddr → bool;
}.

(** The effects, and the connection the pump is to bridge, if there is one. *)
Definition serve_forward (net : NetWorld) (host : str) (port : Z) (allow_forward : bool) :
    list NetEffect * option SocketAddr :=
  if negb allow_forward then ([], None)
  else
    match lookup_host net host port with
    | None => ([Resolve host port], None)
    | Some addrs =>
        if bool_decide (addrs = []) || negb (forallb (λ a, is_loopback (sa_ip a)) addrs)
        then ([Resolve host port], None)
        else match addrs with
             | target :: _ =>
                 ([Resolve host port; Connect target], if connects net target then Some target else None)
             | [] => ([Resolve host port], None)
             end
    end.

Definition remote_bind_allowed (port : Z) (addrs : list SocketAddr) : bool :=
  (1024 <=? port) && negb (bool_decide (addrs = [])) && forallb (λ a, is_loopback (sa_ip a)) addrs.

(** The head of [serve_remote_forward_listen], up to the bound listener. *)
Definition remote_forward_bind (net : NetWorld) (bind : str) (port : Z) (allow_remote_forward : bool) :
    list NetEffect * option SocketAddr :=
  if negb allow_remote_forward then ([], None)
  else
    match lookup_host net bind port with
    | None => ([Resolve bind port], None)
    | Some addrs =>
        if negb (remote_bind_allowed port addrs) then ([Resolve bind port], None)
        else match addrs with
             | a :: _ => ([Resolve bind port; Bind a], if binds net a then Some a else None)
             | [] => ([Resolve bind port], None)
             end
    end.

(** Forwarding never leaves the machine. Whatever the names resolve to, a
    forward channel connects, and a remote-forward channel binds, only when the
    operator enabled it, only to a loopback address of the answer it checked
    (resolving again is never involved), only when every address of the answer
    is loopback, and for a listener only on an unprivileged port; disabled, not
    even the name is looked up. *)
Theorem forward_loopback_only (net : NetWorld) (host : str) (port : Z) (allow : bool) (a : SocketAddr) :
  (Connect a ∈ (serve_forward net host port allow).1 →
     allow = true ∧ is_loopback (sa_ip a) = true ∧
     ∃ addrs, lookup_host net host port = Some addrs ∧ a ∈ addrs ∧ Forall (λ x, is_loopback (sa_ip x) = true) addrs) ∧
  (Bind a ∈ (remote_forward_bind net host port allow).1 →
     allow = true ∧ is_loopback (sa_ip a) = true ∧ 1024 ≤ port ∧
     ∃ addrs, lookup_host net host port = Some addrs ∧ a ∈ addrs ∧ Forall (λ x, is_loopback (sa_ip x) = true) addrs) ∧
  (allow = false → (serve_forward net host port allow).1 = [] ∧ (remote_forward_bind net host port allow).1 = []) ∧
  (∀ t, (serve_forward net host port allow).2 = Some t → Connect t ∈ (serve_forward net host port allow).1).
Proof.
  assert (∀ addrs, forallb (λ x, is_loopback (sa_ip x)) addrs = true →
    Forall (λ x, is_loopback (sa_ip x) = true) addrs) as Hall.
  { intros addrs Hf. apply Forall_forall. intros x Hx. rewrite forallb_forall in Hf. apply Hf. by apply list_elem_of_In. }
  unfold serve_forward, remote_forward_bind, remote_bind_allowed. split_and!.
  - destruct allow; simpl; [|by intros ?%not_elem_of_nil].
    destruct (lookup_host net host port) as [addrs|]; [|by intros ?%list_elem_of_singleton].
    destruct addrs as [|x addrs]; [by intros ?%list_elem_of_singleton|].
    destruct (forallb _ (x :: addrs)) eqn:Ef; simpl; [|by intros ?%list_elem_of_singleton].
    intros Hin. assert (a = x) as ->. { rewrite !elem_of_cons in Hin. destruct Hin as [|[[= ->]|?%not_elem_of_nil]]; done. }
    apply Hall in Ef. split_and!; [done|by inversion Ef|]. exists (x :: addrs). split_and!; [done|by left|done].
  - destruct allow; simpl; [|by intros ?%not_elem_of_nil].
    destruct (lookup_host net host port) as [addrs|]; [|by intros ?%list_elem_of_singleton].
    destruct addrs as [|x addrs]; [rewrite andb_false_r; by intros ?%list_elem_of_singleton|].
    destruct (Z.leb_spec 1024 port); simpl; [|by intros ?%list_elem_of_singleton].
    destruct (is_loopback (sa_ip x) && forallb _ addrs) eqn:Ef; simpl; [|by intros ?%list_elem_of_singleton].
    intros Hin. assert (a = x) as ->. { rewrite !elem_of_cons in Hin. destruct Hin as [|[[= ->]|?%not_elem_of_nil]]; done. }
    apply (Hall (x :: addrs)) in Ef. split_and!; [done|by inversion Ef|done|].
    exists (x :: addrs). split_and!; [done|by left|done].
  - by intros ->.
  - destruct allow; simpl; [|done]. destruct (lookup_host net host port) as [addrs|]; [|done].
    destruct (_ || _); [done|]. destruct addrs as [|x addrs]; [done|]. simpl.
    destruct (connects net x); [|done]. intros t [= <-]. right. by left.
Qed.

(** ** Parked connections *)
Definition PARK_TIMEOUT : Z := secs 30.
Definition MAX_PARKED : Z := 128.

Record ParkedConn := mkParked { pk_conn_id : Z; pk_tcp : Z }.

Record ParkTable := mkPark { parked : gmap Z ParkedConn; next_conn_ref : Z }.

Definition park_default : ParkTable := mkPark ∅ 1.

Definition park_conn (conn_id tcp : Z) (t : ParkTable) : option Z * ParkTable :=
  let conn_ref := next_conn_ref t in
  let next := wrap_add 64 conn_ref 1 in
  if MAX_PARKED <=? Z.of_nat (size (parked t)) then (None, mkPark (parked t) next)
  else (Some conn_ref, mkPark (<[conn_ref := mkParked conn_id tcp]> (parked t)) next).

(** The eviction a parked connection schedules. *)
Definition park_expire (conn_ref : Z) (t : ParkTable) : ParkTable :=
  mkPark (delete conn_ref (parked t)) (next_conn_ref t).

Definition take_conn (conn_id conn_ref : Z) (t : ParkTable) : option Z * ParkTable :=
  match parked t !! conn_ref with
  | Some p =>
      if pk_conn_id p =? conn_id
      then (Some (pk_tcp p), mkPark (delete conn_ref (parked t)) (next_conn_ref t))
      else (None, t)
  | None => (None, t)
  end.

(** The events of a control channel: an inbound connection (with what the send
    of its signal meets), an accept that fails, a frame of the client, its end. *)
Inductive ListenEvent :=
| Accepted (tcp : Z) (r : SendRes)
| AcceptFailed
| ClientFrame
| ClientClosed.

(** The loop of [serve_remote_forward_listen] after the bind: the signals sent. *)
Fixpoint listen_loop `{Postcard AcceptedSignal} (conn_id : Z) (evs : list ListenEvent) (t : ParkTable) :
    result unit (list AcceptedSignal) * ParkTable :=
  match evs with
  | [] => (Ok [], t)
  | Accepted tcp r :: evs =>
      match park_conn conn_id tcp t with
      | (None, t) => listen_loop conn_id evs t
      | (Some conn_ref, t) =>
          let sig := {| as_conn_ref := conn_ref |} in
          match send_msg r sig with
          | Err _ => (Err (), t)
          | Ok false => (Ok [], (take_conn conn_id conn_ref t).2)
          | Ok true => let '(sent, t) := listen_loop conn_id evs t in (cons sig <$> sent, t)
          end
      end
  | AcceptFailed :: _ => (Ok [], t)
  | ClientFrame :: evs => listen_loop conn_id evs t
  | ClientClosed :: _ => (Ok [], t)
  end.

(** [serve_remote_forward_data]: the socket to bridge, if it is the caller's. *)
Definition serve_remote_forward_data (conn_id conn_ref : Z) (t : ParkTable) : option Z * ParkTable :=
  take_conn conn_id conn_ref t.

(** ** Parking, over any interleaving *)
Inductive park_op :=
| PPark (conn_id tcp : Z)
| PTake (conn_id conn_ref : Z)
| PExpire (conn_ref : Z).

Definition park_step (t : ParkTable) (o : park_op) : ParkTable :=
  match o with
  | PPark c tcp => (park_conn c tcp t).2
  | PTake c r => (take_conn c r t).2
  | PExpire r => park_expire r t
  end.

Definition park_run (ops : list park_op) : ParkTable := foldl park_step park_default ops.

Definition park_inv (n : Z) (t : ParkTable) : Prop :=
  next_conn_ref t = n + 1 ∧ Z.of_nat (size (parked t)) ≤ MAX_PARKED ∧
  ∀ r, is_Some (parked t !! r) → 1 ≤ r ≤ n.

Lemma park_step_inv n t o :
  park_inv n t → 0 ≤ n < 2 ^ 64 - 2 →
  park_inv (match o with PPark _ _ => n + 1 | _ => n end) (park_step t o).
Proof.
  intros (Hn & Hs & Hr) Hb.
  assert (∀ r, park_inv n (mkPark (delete r (parked t)) (next_conn_ref t))) as Hdel.
  { intros r. split_and!; simpl; [done| |].
    - destruct (parked t !! r) eqn:E; [|by rewrite delete_id].
      rewrite map_size_delete_Some by (by eexists). lia.
    - intros r' Hr'. apply Hr. destruct (decide (r' = r)) as [->|]; [by rewrite lookup_delete_eq in Hr'; destruct Hr'|].
      by rewrite lookup_delete_ne in Hr'. }
  destruct o as [c tcp|c r|r]; simpl.
  - unfold park_conn. rewrite Hn. unfold wrap_add. rewrite Z.mod_small by lia.
    destruct (Z.leb_spec MAX_PARKED (Z.of_nat (size (parked t)))); simpl.
    + split_and!; simpl; [lia|done|]. intros r Hx. specialize (Hr r Hx). lia.
    + split_and!; simpl; [lia| |].
      * destruct (parked t !! (n + 1)) eqn:E; [rewrite map_size_insert_Some by (by eexists); lia|].
        rewrite map_size_insert_None by done. lia.
      * intros r Hx. destruct (decide (r = n + 1)) as [->|]; [lia|].
        rewrite lookup_insert_ne in Hx by done. specialize (Hr r Hx). lia.
  - unfold take_conn. destruct (parked t !! r) as [p|]; [|done]. destruct (_ =? _); [apply Hdel|done].
  - apply Hdel.
Qed.

Lemma park_run_inv ops :
  zlen ops < 2 ^ 64 - 2 → ∃ n, 0 ≤ n ≤ zlen ops ∧ park_inv n (park_run ops).
Proof.
  induction ops as [|o ops IH] using rev_ind; intros Hl.
  { exists 0. split; [zlen_lia|]. split_and!; [done|done|]. by intros r []. }
  assert (zlen (ops ++ [o]) = zlen ops + 1) as El by by rewrite zlen_app.
  rewrite El in *. destruct IH as (n & Hn & Hi); [lia|].
  unfold park_run. rewrite foldl_app. simpl. fold (park_run ops).
  pose proof (park_step_inv n (park_run ops) o Hi ltac:(lia)) as Hs.
  destruct o; eexists; (split; [|exact Hs]); lia.
Qed.

(** An inbound connection reaches only the client whose listener accepted
    it. After any interleaving of accepts, claims and evictions the table holds
    at most [MAX_PARKED] sockets; a new socket never takes the place of one that
    waits; a claim yields a socket exactly when it waits under that reference
    for that very connection, and then at most once; and a claim by any other
    connection changes nothing. *)
Theorem parked_scoped (ops : list park_op) (c tcp ref : Z) :
  zlen ops < 2 ^ 64 - 2 →
  let t := park_run ops in
  Z.of_nat (size (parked t)) ≤ MAX_PARKED ∧
  (∀ ref' t', park_conn c tcp t = (Some ref', t') →
     parked t !! ref' = None ∧ (take_conn c ref' t').1 = Some tcp ∧
     ∀ r, r ≠ ref' → parked t' !! r = parked t !! r) ∧
  (∀ s, (take_conn c ref t).1 = Some s ↔ parked t !! ref = Some (mkParked c s)) ∧
  (∀ s c', (take_conn c ref t).1 = Some s → (take_conn c' ref (take_conn c ref t).2).1 = None) ∧
  ((take_conn c ref t).1 = None → (take_conn c ref t).2 = t).
Proof.
  intros Hl t. destruct (park_run_inv ops Hl) as (n & Hn & Hx & Hs & Hr). fold t in Hx, Hs, Hr.
  unfold take_conn. split_and!; [done| | | |].
  - intros ref' t'. unfold park_conn. destruct (_ <=? _); [done|]. intros [= <- <-]. simpl.
    rewrite lookup_insert_eq. simpl. rewrite Z.eqb_refl. split_and!; [|done|by intros; rewrite lookup_insert_ne].
    destruct (parked t !! next_conn_ref t) eqn:E; [|done]. specialize (Hr _ ltac:(by eexists)). lia.
  - intros s. destruct (parked t !! ref) as [[pc pt]|]; [|done]. simpl.
    destruct (Z.eqb_spec pc c); simpl; naive_solver.
  - intros s c'. destruct (parked t !! ref) as [[pc pt]|]; [|done]. simpl.
    destruct (pc =? c); [|done]. simpl. by rewrite lookup_delete_eq.
  - destruct (parked t !! ref) as [[pc pt]|]; [|done]. simpl. by destruct (pc =? c).
Qed.

Lemma parked_scoped_witness :
  let t := park_run [PPark 1 50; PPark 2 60; PTake 1 2; PTake 2 2; PExpire 9] in
  Z.of_nat (size (parked t)) ≤ MAX_PARKED ∧
  (∀ ref' t', park_conn 1 70 t = (Some ref', t') →
     parked t !! ref' = None ∧ (take_conn 1 ref' t').1 = Some 70 ∧
     ∀ r, r ≠ ref' → parked t' !! r = parked t !! r) ∧
  (∀ s, (take_conn 1 1 t).1 = Some s ↔ parked t !! 1 = Some (mkParked 1 s)) ∧
  (∀ s c', (take_conn 1 1 t).1 = Some s → (take_conn c' 1 (take_conn 1 1 t).2).1 = None) ∧
  ((take_conn 1 1 t).1 = None → (take_conn 1 1 t).2 = t).
Proof.
  apply (parked_scoped [PPark 1 50; PPark 2 60; PTake 1 2; PTake 2 2; PExpire 9] 1 70 1). by_dec.
Defined.

End Session.
