(* ===== verification/Worker.v ===== *)
(** * Worker: the unprivileged side of the server

    [quish-server/src/worker.rs]: the RPC client of the monitor, the dispatch of
    channels, and the channels served over the monitor's descriptors. *)
From S2P Require Import Prelude RustStr Postcard Base64 Proto Net Frames Ipc Auth Challenge Privdrop Monitor Session.
Import Ipc Auth.

Module Worker.
Import Monitor Session.

Definition MAX_SPAWN_ARG_LEN : Z := 60 * 1024.

Definition spawn_arg_ok (len : Z) : bool := len <=? MAX_SPAWN_ARG_LEN.

(** ** The RPC client

    The control socket between the two processes: the monitor's state, and the
    responses it has sent that the worker has not read. The lock makes the
    calls serial. *)
Section Rpc.
Context `{Base64, Postcard Token, Postcard Request, Postcard Response}.
Variable registry : Registry.
Variable parse_addr : str → option SocketAddr.

Record Link := mkLink { mon : State; inbox : list packet }.

(** The monitor handles one packet. *)
Definition monitor_turn (os : Os) (p : packet) (l : Link) : Link :=
  let '(st, outs, _) := serve_control registry parse_addr [(os, Some p)] (mon l) in
  mkLink st (inbox l ++ outs).

Inductive CallResult :=
| CallOk (resp : Response) (fds : list Fd)
| CallErr
| CallCancelled
| CallBlocked.

(** [MonitorClient::call]. [cancelled] is whether the caller's deadline drops
    the future after the send, before the response is read. *)
Definition call (os : Os) (cancelled : bool) (req : Request) (l : Link) : CallResult * Link :=
  match ctrl_send req [] with
  | Err _ => (CallErr, l)
  | Ok p =>
      let l := monitor_turn os p l in
      if cancelled then (CallCancelled, l)
      else match inbox l with
           | [] => (CallBlocked, l)
           | p :: rest =>
               (match ctrl_recv (Some p) with
                | Msg resp fds => CallOk resp fds
                | Bad | RecvClosed => CallErr
                end, mkLink (mon l) rest)
           end
  end.

Inductive AuthOutcome := OutAllow | OutDeny | OutChallenge (c : Challenge).

(** [MonitorClient::authenticate]; an error of the call is a denial to the
    caller ([unwrap_or] in [Backend::authenticate]). *)
Definition auth_outcome (r : CallResult) : AuthOutcome :=
  match r with
  | CallOk (VerdictResp true) _ => OutAllow
  | CallOk (ChallengeResp c) _ => OutChallenge c
  | _ => OutDeny
  end.

(** [spawn_shell], [spawn_transfer] and [spawn_mkdir] take one descriptor,
    [spawn_transfer_write] two, [spawn_exec] three. *)
Definition spawn_result (n : nat) (r : CallResult) : option (Z * list Fd) :=
  match r with
  | CallOk (Spawned id) fds => if bool_decide (length fds = n) then Some (id, fds) else None
  | _ => None
  end.

Definition reap_result (r : CallResult) : Z :=
  match r with CallOk (Exited code) _ => code | _ => -1 end.

End Rpc.

(** ** Dispatching a channel *)
Inductive Plan :=
| Reject
| AskMonitor (r : Request)
| ForwardTo (host : str) (port : Z)
| ListenOn (bind : str) (port : Z)
| ClaimParked (conn_ref : Z).

Definition serve_channel_plan (conn_id : Z) (open : ChannelOpen) : Plan :=
  match open with
  | Shell term _ _ => if negb (spawn_arg_ok (str_len term)) then Reject else AskMonitor (SpawnShell conn_id term)
  | Exec command => if negb (spawn_arg_ok (str_len command)) then Reject else AskMonitor (SpawnExec conn_id command)
  | Forward host port => if negb (spawn_arg_ok (str_len host)) then Reject else ForwardTo host port
  | RemoteForwardListen bind port => if negb (spawn_arg_ok (str_len bind)) then Reject else ListenOn bind port
  | RemoteForwardData conn_ref => ClaimParked conn_ref
  | ReadFile path => if negb (spawn_arg_ok (str_len path)) then Reject else AskMonitor (SpawnTransfer conn_id path)
  | WriteFile path mode =>
      if negb (spawn_arg_ok (str_len path)) then Reject else AskMonitor (SpawnTransferWrite conn_id path mode)
  | MkDir path mode => if negb (spawn_arg_ok (str_len path)) then Reject else AskMonitor (SpawnMkdir conn_id path mode)
  end.

Inductive ChannelError := ChannelRead (e : ReadError) | ChannelDecode.

(** The opening frame; a client that says nothing is served nothing. *)
Definition serve_channel `{Postcard ChannelOpen} (conn_id : Z) (reader : FrameReader) :
    result ChannelError (option Plan) * FrameReader :=
  match next_frame reader with
  | (Err e, reader) => (Err (ChannelRead e), reader)
  | (Ok None, reader) => (Ok None, reader)
  | (Ok (Some body), reader) =>
      (match decode body with
       | Ok open => Ok (Some (serve_channel_plan conn_id open))
       | Err _ => Err ChannelDecode
       end, reader)
  end.

(** ** Serving a session *)

(** What serving did: the frames sent, the requests made of the monitor, whether
    the stream was finished. *)
Record Served := mkServed { s_sent : list ChannelMessage; s_rpcs : list Request; s_finished : bool }.

(** The end of [run_shell] and [run_exec]: reap, then the exit status unless the
    client is gone, then the end of the stream. [r] is what the last send meets. *)
Definition end_session (session_id code : Z) (e : PumpEnd) (r : SendRes) (sent : list ChannelMessage)
    (rpcs : list Request) `{Postcard ChannelMessage} : Served :=
  let rpcs := rpcs ++ [Reap session_id] in
  match e with
  | Drained =>
      match send_msg r (ExitStatus code) with
      | Ok true => mkServed (sent ++ [ExitStatus code]) rpcs true
      | Ok false => mkServed sent rpcs true
      | Err _ => mkServed sent rpcs false
      end
  | ClientGone => mkServed sent rpcs true
  end.

Section Run.
Context `{Postcard ChannelMessage}.

(** [run_exec]: an error of the pump returns at once. *)
Definition run_exec (session_id code : Z) (r : SendRes) (o : Outcome ExecPump) : option Served :=
  match o with
  | Finished e st => Some (end_session session_id code e r (x_sent st) (SignalReq session_id <$> x_sigs st))
  | FinishedErr st => Some (mkServed (x_sent st) (SignalReq session_id <$> x_sigs st) false)
  | Stuck | NoFuel => None
  end.

Definition run_shell (session_id code : Z) (r : SendRes) (o : Outcome ShellPump) : option Served :=
  match o with
  | Finished e st => Some (end_session session_id code e r (h_sent st) [])
  | FinishedErr st => Some (mkServed (h_sent st) [] false)
  | Stuck | NoFuel => None
  end.

(** The download pump: each chunk with what its send meets. The result is the
    frames sent and, unless a send failed, whether the client is gone. *)
Fixpoint transfer_loop (chunks : list (bytes * SendRes)) : list ChannelMessage * result unit bool :=
  match chunks with
  | [] => ([], Ok false)
  | (b, r) :: chunks =>
      match send_msg r (Data b) with
      | Err _ => ([], Err ())
      | Ok false => ([], Ok true)
      | Ok true => let '(sent, res) := transfer_loop chunks in (Data b :: sent, res)
      end
  end.

Definition run_transfer (session_id code : Z) (r : SendRes) (chunks : list (bytes * SendRes)) : Served :=
  let '(sent, res) := transfer_loop chunks in
  match res with
  | Err _ => mkServed sent [] false
  | Ok gone => end_session session_id code (if gone then ClientGone else Drained) r sent []
  end.

(** The upload pump: [accepted] is how many writes the helper's input takes
    before it closes. The bytes given to the helper, then the status. *)
Fixpoint upload_loop (frames : list ChannelMessage) (accepted : option nat) : list bytes :=
  match frames with
  | [] => []
  | Data d :: frames =>
      match accepted with
      | Some O => []
      | Some (S n) => d :: upload_loop frames (Some n)
      | None => d :: upload_loop frames None
      end
  | _ :: frames => upload_loop frames accepted
  end.

Definition run_transfer_write (session_id code : Z) (r : SendRes) (frames : list ChannelMessage)
    (accepted : option nat) : list bytes * Served :=
  (upload_loop frames accepted,
   match send_msg r (ExitStatus code) with
   | Ok true => mkServed [ExitStatus code] [Reap session_id] true
   | Ok false => mkServed [] [Reap session_id] true
   | Err _ => mkServed [] [Reap session_id] false
   end).

End Run.

(** ** Theorems *)

(** A client's argument never garbles the control channel. Whatever channel
    an authenticated client asks for, the request the worker makes of the
    monitor for it fits the monitor's receive buffer and is decoded to that very
    request: an over-long path, command or terminal name is rejected in the
    worker, and never truncated on the way. *)
Theorem spawn_request_intact {pr : Postcard Request} {prok : PostcardOk Request} {sz : RequestSized}
    (conn_id : Z) (open : ChannelOpen) (req : Request) :
  in_u 64 conn_id → rust_ok open → serve_channel_plan conn_id open = AskMonitor req →
  ∃ p, ctrl_send req [] = Ok p ∧ ctrl_recv (Some p) = Msg req [].
Proof.
  intros Hc Ho Hp.
  assert (rust_ok req ∧ request_bound req ≤ IPC_CAP) as [Hr Hb].
  { destruct open; simpl in Hp; try done;
      match type of Hp with context [spawn_arg_ok ?n] => destruct (spawn_arg_ok n) eqn:E end; try done;
      injection Hp as <-; unfold spawn_arg_ok, MAX_SPAWN_ARG_LEN in E; apply Z.leb_le in E;
      unfold rust_ok in *; simpl in *; unfold str_bound, IPC_CAP; (split; [|lia]); tauto. }
  destruct (postcard_total req Hr) as [b Eb]. exists (mkPacket b []). unfold ctrl_send. rewrite Eb. simpl.
  split; [done|]. pose proof (request_size req b Hr Eb). apply ctrl_roundtrip; [done|done|lia].
Qed.

Section RpcTheorems.
Context {b64 : Base64} {pt : Postcard Token} {pq : Postcard Request} {pqok : PostcardOk Request}
  {pr : Postcard Response} {prok : PostcardOk Response}.
Variable registry : Registry.
Variable parse_addr : str → option SocketAddr.

(** A message the control channel carries whole. *)
Definition fits `{RustType T, Postcard T} (m : T) (fds : list Fd) : Prop :=
  rust_ok m ∧ (∃ b, to_stdvec m = Some b ∧ 0 < zlen b ≤ IPC_CAP) ∧ anc_space (zlen fds) ≤ ANC_CAP.

Lemma fits_send `{PostcardOk T} (m : T) fds :
  fits m fds → ∃ p, ctrl_send m fds = Ok p ∧ ctrl_recv (Some p) = Msg m fds.
Proof.
  intros (Hr & (b & Hb & Hl) & Ha). exists (mkPacket b fds). unfold ctrl_send. rewrite Hb. simpl.
  destruct (Z.ltb_spec ANC_CAP (anc_space (zlen fds))); [lia|]. rewrite andb_false_r.
  split; [done|]. by apply ctrl_roundtrip.
Qed.

(** The monitor's turn on a request it can read and answer. *)
Lemma monitor_turn_spec os req l p st resp fds effects :
  ctrl_send req [] = Ok p → ctrl_recv (Some p) = Msg req [] →
  handle registry parse_addr os req (mon l) = (st, (resp, fds), effects) → fits resp fds →
  ∃ q, ctrl_recv (Some q) = Msg resp fds ∧ monitor_turn registry parse_addr os p l = mkLink st (inbox l ++ [q]).
Proof.
  intros Hs Hp Hh Hf. destruct (fits_send resp fds Hf) as (q & Hq & Hrq). exists q. split; [done|].
  unfold monitor_turn. simpl. rewrite Hp, Hh, Hq. done.
Qed.

(** C12: a call gets the answer to its own request, as long as no call is
    abandoned half-way; after one is, every call gets the answer to the one
    before. The first part: with nothing unread on the control channel, a call
    returns exactly what the monitor's handler answered, and leaves nothing
    unread. The second: if a caller's deadline drops a call after its request
    was sent, the next call, of whichever connection, returns the answer (and
    the descriptors) meant for the abandoned one. *)
Theorem rpc_in_step (os1 os2 : Os) (r1 r2 : Request) (st0 st1 st2 : State)
    (resp1 resp2 : Response) (fds1 fds2 : list Fd) (e1 e2 : list Effect) :
  fits r1 [] → fits r2 [] →
  handle registry parse_addr os1 r1 st0 = (st1, (resp1, fds1), e1) → fits resp1 fds1 →
  handle registry parse_addr os2 r2 st1 = (st2, (resp2, fds2), e2) → fits resp2 fds2 →
  (let '(a1, l1) := call registry parse_addr os1 false r1 (mkLink st0 []) in
   let '(a2, l2) := call registry parse_addr os2 false r2 l1 in
   a1 = CallOk resp1 fds1 ∧ a2 = CallOk resp2 fds2 ∧ l2 = mkLink st2 []) ∧
  (let '(a1, l1) := call registry parse_addr os1 true r1 (mkLink st0 []) in
   let '(a2, l2) := call registry parse_addr os2 false r2 l1 in
   a1 = CallCancelled ∧ a2 = CallOk resp1 fds1 ∧ mon l2 = st2 ∧ length (inbox l2) = 1%nat).
Proof.
  intros F1 F2 H1 G1 H2 G2. destruct (fits_send r1 [] F1) as (p1 & S1 & R1). destruct (fits_send r2 [] F2) as (p2 & S2 & R2).
  destruct (monitor_turn_spec os1 r1 (mkLink st0 []) p1 _ _ _ _ S1 R1 H1 G1) as (q1 & Q1 & T1).
  unfold call. rewrite S1, S2. split.
  - rewrite T1. cbn [inbox app mon]. rewrite Q1.
    destruct (monitor_turn_spec os2 r2 (mkLink st1 []) p2 _ _ _ _ S2 R2 H2 G2) as (q2 & Q2 & T2).
    rewrite T2. cbn [inbox app mon]. rewrite Q2. done.
  - rewrite T1. cbn [inbox app mon].
    destruct (monitor_turn_spec os2 r2 (mkLink st1 [q1]) p2 _ _ _ _ S2 R2 H2 G2) as (q2 & Q2 & T2).
    rewrite T2. cbn [inbox app mon]. rewrite Q1. done.
Qed.

End RpcTheorems.

(** C40: a session that ends is reaped and its status is the last thing the
    client hears; except when a send fails. If the command's pump drains, the
    client is sent all of its output and then its exit code, as the monitor
    collected it, and the session is reaped, after its signals; if the client
    hung up, the session is reaped all the same; but if the stream breaks in
    another way, serving returns with no reap at all. *)
Theorem exec_session_end {p : Postcard ChannelMessage} {pok : PostcardOk ChannelMessage}
    (session_id code : Z) (r : SendRes) (frames : list ChannelMessage) (out err : list bytes)
    (choose : nat → ExecPump → Arm * SendRes) :
  schedules (λ c, exec_arm c.1 c.2) choose (exec_running frames out err) →
  let o := pump_loop (λ c, exec_arm c.1 c.2) choose (length out + length err + length frames + 4) 0
             (exec_init frames out err) in
  ∃ served, run_exec session_id code r o = Some served ∧
  match o with
  | Finished Drained st =>
      data_of (s_sent served) = out ∧ dataerr_of (s_sent served) = err ∧
      (r = SendOk → is_ok (encode (ExitStatus code)) = true → last (s_sent served) = Some (ExitStatus code)) ∧
      ∃ sigs, s_rpcs served = (SignalReq session_id <$> sigs) ++ [Reap session_id]
  | Finished ClientGone st => last (s_rpcs served) = Some (Reap session_id)
  | FinishedErr st => Reap session_id ∉ s_rpcs served
  | _ => False
  end.
Proof.
  intros Hs o.
  pose proof (pump_loop_correct (λ c, exec_arm c.1 c.2) choose (exec_running frames out err)
    (λ e st, match e with Drained => exec_delivered frames out err st | ClientGone => exec_partial out err st end)
    (exec_partial out err) exec_measure Hs (λ n st Hi, exec_arm_turn frames out err _ _ st Hi)
    (length out + length err + length frames + 4) 0 _ (exec_init_running frames out err)) as Hl.
  fold o in Hl. specialize (Hl ltac:(unfold exec_measure; simpl; lia)).
  destruct o as [[] st|st| |]; try done; simpl.
  - destruct Hl as (Hd & He & _). unfold end_session, send_msg.
    destruct (encode (ExitStatus code)) as [f|]; [destruct r|]; (eexists; split; [reflexivity|]); simpl;
      rewrite ?data_of_app, ?dataerr_of_app; simpl; rewrite ?app_nil_r;
      (split_and!; [done|done|try done; by intros; rewrite last_snoc|by exists (x_sigs st)]).
  - eexists. split; [reflexivity|]. simpl. by rewrite last_snoc.
  - eexists. split; [reflexivity|]. simpl. intros (s & Hx & _)%list_elem_of_fmap. done.
Qed.

(** ** Witnesses *)
Lemma spawn_request_intact_witness :
  ∃ p, ctrl_send (H := IpcWire.request_postcard) (SpawnTransferWrite 3 (lit "/tmp/x") 420) [] = Ok p ∧
    ctrl_recv (H := IpcWire.request_postcard) (Some p) = Msg (SpawnTransferWrite 3 (lit "/tmp/x") 420) [].
Proof.
  apply (spawn_request_intact (prok := IpcWire.request_postcard_ok) (sz := IpcWire.request_sized) 3
           (WriteFile (lit "/tmp/x") 420)).
  - by_dec.
  - by_dec.
  - reflexivity.
Defined.

(** A message of the published format, small enough. *)
Ltac fits_tac :=
  split_and!; [done || by_dec | eexists; split; [reflexivity|by_dec] | by_dec].

Definition demo_bad : Request :=
  Authenticate 2 None (lit "peer") (repeat 0 32) None.

Lemma demo_auth_rust : rust_ok demo_auth.
Proof. unfold rust_ok, demo_auth. simpl. split_and!; by_dec. Qed.

(** The denied attempt of connection 2 that follows an abandoned, allowed one of
    connection 1 is told it is allowed. *)
Lemma rpc_in_step_witness :
  let c := call (H0 := token_postcard) (H1 := IpcWire.request_postcard) (H2 := IpcWire.response_postcard)
             demo_registry (λ _, None) demo_os in
  let st1 := (demo_handle demo_auth State_default).1.1 in
  let st2 := (demo_handle demo_bad st1).1.1 in
  (let '(a1, l1) := c false demo_auth (mkLink State_default []) in
   let '(a2, l2) := c false demo_bad l1 in
   a1 = CallOk (VerdictResp true) [] ∧ a2 = CallOk (VerdictResp false) [] ∧ l2 = mkLink st2 []) ∧
  (let '(a1, l1) := c true demo_auth (mkLink State_default []) in
   let '(a2, l2) := c false demo_bad l1 in
   a1 = CallCancelled ∧ a2 = CallOk (VerdictResp true) [] ∧ mon l2 = st2 ∧ length (inbox l2) = 1%nat).
Proof.
  intros c st1 st2.
  apply (rpc_in_step (pt := token_postcard) (pqok := IpcWire.request_postcard_ok)
    (prok := IpcWire.response_postcard_ok) demo_registry (λ _, None) demo_os demo_os demo_auth demo_bad
    State_default st1 st2 (VerdictResp true) (VerdictResp false) [] [] [] []).
  - split_and!; [apply demo_auth_rust|eexists; split; [reflexivity|by_dec]|by_dec].
  - split_and!; [unfold rust_ok, demo_bad; simpl; split_and!; by_dec|eexists; split; [reflexivity|by_dec]|by_dec].
  - vm_compute. reflexivity.
  - fits_tac.
  - vm_compute. reflexivity.
  - fits_tac.
Defined.

Lemma exec_session_end_witness :
  let o := pump_loop (λ c, exec_arm (H := Wire.message_postcard) c.1 c.2) exec_first 6 0
             (exec_init [SignalMsg Int] [[2]] []) in
  ∃ served, run_exec (H := Wire.message_postcard) 7 130 SendOk o = Some served ∧
  match o with
  | Finished Drained st =>
      data_of (s_sent served) = [[2]] ∧ dataerr_of (s_sent served) = [] ∧
      (SendOk = SendOk → is_ok (encode (H := Wire.message_postcard) (ExitStatus 130)) = true →
       last (s_sent served) = Some (ExitStatus 130)) ∧
      ∃ sigs, s_rpcs served = (SignalReq 7 <$> sigs) ++ [Reap 7]
  | Finished ClientGone st => last (s_rpcs served) = Some (Reap 7)
  | FinishedErr st => Reap 7 ∉ s_rpcs served
  | _ => False
  end.
Proof.
  apply (exec_session_end (pok := Wire.message_postcard_ok) 7 130 SendOk [SignalMsg Int] [[2]] [] exec_first).
  apply exec_first_schedules.
Defined.

End Worker.
