(* ===== verification/Transport.v ===== *)
(** * Transport: the request gate

    [quish-server/src/transport.rs]: what a request must clear before a channel
    is served on it, the two ways the server authenticates it (in process, or
    through the monitor), and the life of a connection. A request is split where
    it waits, so that the requests of a connection interleave. *)
From S2P Require Import Prelude RustStr Postcard Base64 Proto Net RateLimit Ipc Auth Challenge Login Monitor Worker.
Import Ipc Auth Challenge.

Module Transport.
Import Monitor Worker.

Definition IDLE_TIMEOUT : Z := secs 120.
Definition MAX_CHANNELS_PER_CONN : Z := 16.
Definition FIRST_REQUEST_DEADLINE : Z := secs 30.
Definition AUTH_DEADLINE : Z := secs 30.
Definition DEFAULT_MAX_AUTH_FAILS : Z := 6.

(** ** Requests and replies

    A resolved request, as the accessors of the [http] crate present it: a
    header is the value of its first occurrence, when it is visible ASCII. *)
Record Req := mkReq {
  rq_connect : bool;
  rq_protocol : bool;
  rq_path : str;
  rq_version : option str;
  rq_authorization : option str;
  rq_challenge_response : option str;
}.

Definition OK : Z := 200.
Definition UNAUTHORIZED : Z := 401.
Definition NOT_FOUND : Z := 404.
Definition UPGRADE_REQUIRED : Z := 426.

Record Resp := mkResp { status : Z; challenge_header : option str }.

Definition respond (status : Z) : Resp := mkResp status None.

(** [None] is the [expect] of the encoder. *)
Definition respond_challenge `{Base64, Postcard Challenge} (challenge : Challenge) : option Resp :=
  v ← encode_challenge challenge; Some (mkResp UNAUTHORIZED (Some v)).

(** ** Authenticating *)
Section Backends.
Context `{Base64, Postcard Token, Postcard Request, Postcard Response}.
Variable registry : Registry.
Variable parse_addr : str → option SocketAddr.
Variable addr_string : SocketAddr → str.

(** Where the deadline of the attempt drops it, if it does: waiting for the
    control lock, for the monitor's answer (for the backend's, in process), or
    for the failure floor. *)
Inductive Late := BeforeSend | InCall | InFloor.

Definition is_out_allow (o : AuthOutcome) : bool := match o with OutAllow => true | _ => false end.

(** [Backend::authenticate], the [Dev] arm: the outcome and its time, if the
    attempt is not dropped, and the store. *)
Definition dev_authenticate (os : Os) (late : option Late) (started returned : Z) (conn_id : Z)
    (authorization : option str) (answer : option ChallengeAnswer) (conn : ConnInfo)
    (store : ChallengeStore) : option (AuthOutcome * Z) * ChallengeStore :=
  let '(conn, store) :=
    match answer with
    | Some ans =>
        let '(taken, store) := store_take conn_id (ans_token ans) (os_now os) store in
        (mkConnInfo (peer_addr conn) (channel_binding conn)
           ((λ s, mkResponse s (responses ans)) <$> taken), store)
    | None => (conn, store)
    end in
  let '(v, t) := registry_authenticate registry (os_world os) started returned authorization conn in
  match late with
  | Some _ => (None, store)
  | None =>
      match v with
      | Allow _ => (Some (OutAllow, t), store)
      | ChallengeV state prompts =>
          (Some (OutChallenge {| ch_token := st_token state; prompts := prompts |}, t),
           store_insert conn_id state (os_now' os) store)
      | Deny => (Some (OutDeny, t), store)
      end
  end.

(** [Backend::authenticate], the [Privsep] arm, with the request
    [MonitorClient::authenticate] builds. A call the monitor never answers is
    dropped by the deadline. *)
Definition privsep_authenticate (os : Os) (late : option Late) (started returned : Z) (conn_id : Z)
    (authorization : option str) (answer : option ChallengeAnswer) (conn : ConnInfo)
    (l : Link) : option (AuthOutcome * Z) * Link :=
  match late with
  | Some BeforeSend => (None, l)
  | _ =>
      let req := Authenticate conn_id authorization (addr_string (peer_addr conn))
                   (channel_binding conn) answer in
      let '(r, l) := call registry parse_addr os (match late with Some InCall => true | _ => false end) req l in
      match r with
      | CallCancelled | CallBlocked => (None, l)
      | r =>
          let outcome := auth_outcome r in
          if is_out_allow outcome then (Some (outcome, returned), l)
          else match late with
               | Some InFloor => (None, l)
               | _ => (Some (outcome, Z.max returned (started + Login.FAIL_DELAY)), l)
               end
      end
  end.

End Backends.

(** ** Handling a request *)
Definition is_quish (path : str) (req : Req) : bool :=
  rq_connect req && rq_protocol req && bool_decide (rq_path req = path).

(** Up to the authentication: a reply, or the attempt to make. *)
Inductive Gate :=
| Reply (r : Resp)
| Attempt (authorization : option str) (answer : option ChallengeAnswer).

Definition gate `{Base64, Postcard ChallengeAnswer} (path : str) (max_auth_fails conn_fails : Z) (req : Req) : Gate :=
  if negb (is_quish path req) then Reply (respond NOT_FOUND)
  else if negb (version_supported (rq_version req)) then Reply (respond UPGRADE_REQUIRED)
  else if max_auth_fails <=? conn_fails then Reply (respond UNAUTHORIZED)
  else Attempt (rq_authorization req) (v ← rq_challenge_response req; decode_challenge_answer v).

(** What the requests of all connections share, and what those of this one do. *)
Record Shared := mkShared { limiter : RateLimit.RateLimiter; conn_fails : Z }.

(** After the authentication: [timeout(..).unwrap_or(Deny)], the accounting and
    the reply. *)
Definition conclude `{Base64, Postcard Challenge} (ip : IpAddr) (now : Z) (outcome : option AuthOutcome) (sh : Shared) :
    option Resp * bool * Shared :=
  match default OutDeny outcome with
  | OutDeny =>
      (Some (respond UNAUTHORIZED), false,
       mkShared (RateLimit.record_failure ip now (limiter sh)) (wrap_add 32 (conn_fails sh) 1))
  | OutChallenge c => (respond_challenge c, false, sh)
  | OutAllow =>
      (Some (respond OK), true, mkShared (RateLimit.record_success ip now (limiter sh)) (conn_fails sh))
  end.

(** The request from end to end, nothing else of the connection running
    meanwhile. [auth] is the backend with its state; [sent] is whether the
    reply can be written. The time the attempt was held back, the reply, whether
    a channel is then served, and the state it all leaves. *)
Record Handled (S : Type) := mkHandled {
  h_backoff : option Z;
  h_reply : option Resp;
  h_serve : bool;
  h_shared : Shared;
  h_backend : S;
}.
Arguments mkHandled {S}. Arguments h_backoff {S}. Arguments h_reply {S}. Arguments h_serve {S}.
Arguments h_shared {S}. Arguments h_backend {S}.

Definition handle_request `{Base64, Postcard Challenge, Postcard ChallengeAnswer} {S : Type}
    (auth : option str → option ChallengeAnswer → S → option AuthOutcome * S)
    (path : str) (ip : IpAddr) (max_auth_fails now : Z) (sent : bool) (req : Req) (sh : Shared) (be : S) :
    Handled S :=
  match gate path max_auth_fails (conn_fails sh) req with
  | Reply r => mkHandled None (if sent then Some r else None) false sh be
  | Attempt authorization answer =>
      let wait := RateLimit.backoff ip (limiter sh) in
      let '(outcome, be) := auth authorization answer be in
      let '(r, serve, sh) := conclude ip now outcome sh in
      mkHandled (Some wait) (if sent then r else None) (serve && sent) sh be
  end.

(** ** The requests of a connection, interleaved

    [handle_connection] runs each request as a task of its own: it passes the
    gate at one moment and concludes at another. A stream stays open from its
    request to its reply, or for as long as its channel is served, and QUIC
    holds at most [MAX_CHANNELS_PER_CONN] open ([transport_config]). *)
Record Conn := mkConn {
  shared : Shared;
  attempts : list (option str * option ChallengeAnswer);
  channels : Z;
  asked : Z;
  denied : Z;
}.

Definition open_streams (c : Conn) : Z := zlen (attempts c) + channels c.

Section Connection.
Context `{Base64, Postcard Challenge, Postcard ChallengeAnswer}.
Variable path : str.
Variable ip : IpAddr.
Variable max_auth_fails : Z.

Inductive conn_step : Conn → Conn → Prop :=
| cs_reply req r sh att ch a d :
    gate path max_auth_fails (conn_fails sh) req = Reply r →
    conn_step (mkConn sh att ch a d) (mkConn sh att ch a d)
| cs_attempt req auth ans sh att ch a d :
    gate path max_auth_fails (conn_fails sh) req = Attempt auth ans →
    zlen att + ch < MAX_CHANNELS_PER_CONN →
    conn_step (mkConn sh att ch a d) (mkConn sh (att ++ [(auth, ans)]) ch (a + 1) d)
| cs_conclude sh att1 x att2 ch a d now outcome r serve sh' :
    conclude ip now outcome sh = (r, serve, sh') →
    conn_step (mkConn sh (att1 ++ x :: att2) ch a d)
      (mkConn sh' (att1 ++ att2) (ch + if serve then 1 else 0) a
        (d + if default OutDeny outcome is OutDeny then 1 else 0))
| cs_channel_end sh att ch a d :
    0 < ch → conn_step (mkConn sh att ch a d) (mkConn sh att (ch - 1) a d)
| cs_others l sh att ch a d :
    conn_step (mkConn sh att ch a d) (mkConn (mkShared l (conn_fails sh)) att ch a d).

Inductive conn_reach : Conn → Prop :=
| cr_start l : conn_reach (mkConn (mkShared l 0) [] 0 0 0)
| cr_step c c' : conn_reach c → conn_step c c' → conn_reach c'.

End Connection.

(** [handle_connection]: what accepting yields, and how long it took. *)
Inductive Accepted :=
| AcceptReq (req : Req)
| AcceptEnd
| AcceptErr (no_error : bool).

(** The requests that get a task, and whether the connection ends well. *)
Fixpoint handle_connection (first : bool) (accepts : list (Z * Accepted)) : list Req * result unit unit :=
  match accepts with
  | [] => ([], Ok ())
  | (took, accepted) :: rest =>
      if first && (FIRST_REQUEST_DEADLINE <? took) then ([], Ok ())
      else match accepted with
           | AcceptReq req =>
               let '(reqs, r) := handle_connection false rest in (req :: reqs, r)
           | AcceptEnd => ([], Ok ())
           | AcceptErr true => ([], Ok ())
           | AcceptErr false => ([], Err ())
           end
  end.

(** ** The accept loop

    [run]: the connections alive, each with its guard; [NEXT_CONN]; and the
    connections the backend was told are over. *)
Record Server := mkServer {
  sv_limiter : RateLimit.RateLimiter;
  NEXT_CONN : Z;
  alive : list (Z * RateLimit.ConnGuard);
  closed : list Z;
}.

Definition Server_new : Server := mkServer RateLimit.RateLimiter_default 1 [] [].

Definition accept (ip : IpAddr) (now now' : Z) (s : Server) : Server :=
  match RateLimit.admit_ip ip now now' (sv_limiter s) with
  | (None, l) => mkServer l (NEXT_CONN s) (alive s) (closed s)
  | (Some guard, l) =>
      mkServer l (wrap_add 64 (NEXT_CONN s) 1) ((NEXT_CONN s, guard) :: alive s) (closed s)
  end.

Inductive server_step : Server → Server → Prop :=
| ss_accept ip now now' s : server_step s (accept ip now now' s)
| ss_end l n as1 conn_id guard as2 cl now :
    server_step (mkServer l n (as1 ++ (conn_id, guard) :: as2) cl)
      (mkServer (RateLimit.drop_guard guard now l) n (as1 ++ as2) (conn_id :: cl))
| ss_failure ip now s :
    server_step s (mkServer (RateLimit.record_failure ip now (sv_limiter s)) (NEXT_CONN s) (alive s) (closed s))
| ss_success ip now s :
    server_step s (mkServer (RateLimit.record_success ip now (sv_limiter s)) (NEXT_CONN s) (alive s) (closed s)).

(** Reachable in so many steps. *)
Inductive server_reach : nat → Server → Prop :=
| sr_start : server_reach 0 Server_new
| sr_step n s s' : server_reach n s → server_step s s' → server_reach (S n) s'.

(** ** Theorems: the gate *)

(** The answer a request carries to a challenge. *)
Definition answer_of `{Base64, Postcard ChallengeAnswer} (req : Req) : option ChallengeAnswer :=
  v ← rq_challenge_response req; decode_challenge_answer v.

(** C6: a channel is served only past every check, and a request that stops
    early costs nothing and tells nothing. A channel is served exactly for an
    extended CONNECT to the configured path, of the supported version, on a
    connection under its failure cap, that the backend allows in time. Any other
    path is answered 404 whatever the request's headers, an unsupported version
    426, a connection over its cap with the very reply of a denial; none of the
    three consults the backend or touches the counters. Past the gate, a denial
    (or a deadline) counts once against the address and the connection, and a
    challenge against neither. *)
Theorem request_gate {b64 : Base64} {pc : Postcard Challenge} {pa : Postcard ChallengeAnswer} {S : Type}
    (auth : option str → option ChallengeAnswer → S → option AuthOutcome * S)
    (path : str) (ip : IpAddr) (max_auth_fails now : Z) (req : Req) (sh : Shared) (be : S) :
  let h := handle_request auth path ip max_auth_fails now true req sh be in
  let '(outcome, be') := auth (rq_authorization req) (answer_of req) be in
  let stopped status := h_reply h = Some (respond status) ∧ h_backoff h = None ∧ h_serve h = false ∧
                        h_shared h = sh ∧ h_backend h = be in
  (h_serve h = true ↔
     rq_connect req = true ∧ rq_protocol req = true ∧ rq_path req = path ∧
     version_supported (rq_version req) = true ∧ conn_fails sh < max_auth_fails ∧ outcome = Some OutAllow) ∧
  (rq_path req ≠ path → stopped NOT_FOUND) ∧
  (is_quish path req = true → version_supported (rq_version req) = false → stopped UPGRADE_REQUIRED) ∧
  (is_quish path req = true → version_supported (rq_version req) = true →
     if max_auth_fails <=? conn_fails sh then stopped UNAUTHORIZED
     else h_backoff h = Some (RateLimit.backoff ip (limiter sh)) ∧ h_backend h = be' ∧
          match outcome with
          | None | Some OutDeny =>
              h_reply h = Some (respond UNAUTHORIZED) ∧
              limiter (h_shared h) = RateLimit.record_failure ip now (limiter sh) ∧
              conn_fails (h_shared h) = wrap_add 32 (conn_fails sh) 1
          | Some (OutChallenge c) => h_reply h = respond_challenge c ∧ h_shared h = sh
          | Some OutAllow =>
              h_reply h = Some (respond OK) ∧ conn_fails (h_shared h) = conn_fails sh ∧
              limiter (h_shared h) = RateLimit.record_success ip now (limiter sh)
          end).
Proof.
  cbv zeta. unfold handle_request, gate, is_quish. fold (answer_of req).
  destruct (auth (rq_authorization req) (answer_of req) be) as [outcome be'] eqn:E. unfold conclude.
  destruct (rq_connect req), (rq_protocol req); simpl; try by (split_and!; [split; [done|intros; by destruct_and?]|..]).
  destruct (decide (rq_path req = path)) as [->|Hp];
    [rewrite bool_decide_true by done|rewrite bool_decide_false by done];
    [|by split_and!; [split; [done|intros; by destruct_and?]|..]].
  simpl. destruct (version_supported _); simpl; [|by split_and!; [split; [done|intros; by destruct_and?]|..]].
  destruct (Z.leb_spec max_auth_fails (conn_fails sh)); simpl.
  { split_and!; try done. split; [done|]. intros (_ & _ & _ & _ & ? & _). lia. }
  rewrite E. destruct outcome as [[]|]; simpl; split; try done; (split; [done|intros; by destruct_and?]).
Qed.

(** ** Theorems: the failure cap of a connection *)
Section Cap.
Context {b64 : Base64} {pc : Postcard Challenge} {pa : Postcard ChallengeAnswer}.
Variable path : str.
Variable ip : IpAddr.
Variable max_auth_fails : Z.

Record conn_inv (c : Conn) : Prop := {
  ci_fails : conn_fails (shared c) = denied c;
  ci_nonneg : 0 ≤ denied c ∧ 0 ≤ channels c;
  ci_streams : open_streams c ≤ MAX_CHANNELS_PER_CONN;
  ci_bound : denied c + zlen (attempts c) ≤ max_auth_fails + MAX_CHANNELS_PER_CONN - 1;
}.

Lemma gate_attempt fails req auth ans :
  gate path max_auth_fails fails req = Attempt auth ans → fails < max_auth_fails.
Proof using Type.
  unfold gate. destruct (negb _); [done|]. destruct (negb _); [done|].
  destruct (Z.leb_spec max_auth_fails fails); [done|lia].
Qed.

Lemma conclude_fails now outcome sh r serve sh' :
  conclude ip now outcome sh = (r, serve, sh') →
  conn_fails sh' = (if default OutDeny outcome is OutDeny then wrap_add 32 (conn_fails sh) 1 else conn_fails sh) ∧
  (serve = true → default OutDeny outcome = OutAllow).
Proof using Type. unfold conclude. intros E. by destruct (default OutDeny outcome); simplify_eq/=. Qed.

Lemma conn_inv_step c c' :
  max_auth_fails + MAX_CHANNELS_PER_CONN ≤ 2 ^ 32 →
  conn_inv c → conn_step path ip max_auth_fails c c' → conn_inv c'.
Proof using Type.
  intros Hm [Hf Hn Hs Hb] Hst. unfold open_streams, MAX_CHANNELS_PER_CONN in *.
  destruct Hst as [|req auth ans sh att ch a d Hg Hr|sh att1 x att2 ch a d now outcome r serve sh' Hc|sh att ch a d Hch|];
    simpl in *; try (split; unfold open_streams, MAX_CHANNELS_PER_CONN; simpl in *; done || lia).
  - apply gate_attempt in Hg. unfold MAX_CHANNELS_PER_CONN in *. split; unfold open_streams, MAX_CHANNELS_PER_CONN; simpl; zlen_lia.
  - apply conclude_fails in Hc as [Hc1 Hc2].
    revert Hs Hb. rewrite !zlen_app, zlen_cons. intros Hs Hb. pose proof (zlen_nonneg att1). pose proof (zlen_nonneg att2).
    split; unfold open_streams, MAX_CHANNELS_PER_CONN; simpl; rewrite ?zlen_app;
      destruct serve; try specialize (Hc2 eq_refl); destruct (default OutDeny outcome); try done; try lia.
    rewrite Hc1. unfold wrap_add. rewrite Z.mod_small by lia. lia.
Qed.

Lemma conn_inv_reach c :
  0 ≤ max_auth_fails → max_auth_fails + MAX_CHANNELS_PER_CONN ≤ 2 ^ 32 →
  conn_reach path ip max_auth_fails c → conn_inv c.
Proof using Type.
  intros H0 Hm. induction 1 as [l|c c' _ IH Hs]; [|by eapply conn_inv_step].
  split; unfold open_streams, MAX_CHANNELS_PER_CONN; simpl; zlen_lia.
Qed.

(** A request that passes the gate below the cap. *)
Definition plain_req : Req := mkReq true true path (Some [48 + PROTOCOL_VERSION]) None None.

Lemma gate_plain fails : fails < max_auth_fails → gate path max_auth_fails fails plain_req = Attempt None None.
Proof using Type.
  intros H. unfold gate, is_quish. simpl. rewrite bool_decide_true by done. simpl.
  by destruct (Z.leb_spec max_auth_fails fails); [lia|].
Qed.

Lemma open_attempts (k : nat) l a d :
  d < max_auth_fails → Z.of_nat k ≤ MAX_CHANNELS_PER_CONN →
  conn_reach path ip max_auth_fails (mkConn (mkShared l d) [] 0 a d) →
  conn_reach path ip max_auth_fails (mkConn (mkShared l d) (replicate k (None, None)) 0 (a + Z.of_nat k) d).
Proof using Type.
  intros Hd Hk Hr. induction k as [|k IH]; [by rewrite Z.add_0_r|].
  rewrite replicate_S_end. replace (a + Z.of_nat (S k)) with (a + Z.of_nat k + 1) by lia.
  eapply cr_step; [apply IH; lia|]. eapply (cs_attempt _ _ _ plain_req); [by apply gate_plain|].
  unfold zlen. rewrite length_replicate. lia.
Qed.

Lemma deny_attempts (k : nat) l a d :
  0 ≤ d → d + Z.of_nat k < 2 ^ 32 →
  conn_reach path ip max_auth_fails (mkConn (mkShared l d) (replicate k (None, None)) 0 a d) →
  ∃ l', conn_reach path ip max_auth_fails (mkConn (mkShared l' (d + Z.of_nat k)) [] 0 a (d + Z.of_nat k)).
Proof using Type.
  revert l d. induction k as [|k IH]; intros l d Hd Hk Hr.
  { exists l. by rewrite Z.add_0_r. }
  replace (d + Z.of_nat (S k)) with (d + 1 + Z.of_nat k) in * by lia.
  apply (IH (RateLimit.record_failure ip 0 l)); [lia|lia|]. eapply cr_step; [exact Hr|].
  pose proof (cs_conclude path ip max_auth_fails (mkShared l d) [] (None, None) (replicate k (None, None)) 0 a d 0 None
    _ _ _ eq_refl) as Hs.
  simpl in Hs. unfold wrap_add in Hs. by rewrite Z.mod_small in Hs by lia.
Qed.

(** One request at a time reaches the cap and not beyond. *)
Lemma fail_sequentially (n : nat) (l : RateLimit.RateLimiter) :
  Z.of_nat n ≤ max_auth_fails → max_auth_fails < 2 ^ 32 →
  ∃ l' , conn_reach path ip max_auth_fails (mkConn (mkShared l' (Z.of_nat n)) [] 0 (Z.of_nat n) (Z.of_nat n)).
Proof using Type.
  intros Hn Hm. induction n as [|n IH]; [exists l; apply cr_start|]. destruct IH as [l' IH]; [lia|].
  apply (open_attempts 1) in IH; [|lia|unfold MAX_CHANNELS_PER_CONN; lia].
  apply (deny_attempts 1) in IH as [l2 IH]; [|lia|lia]. exists l2.
  by replace (Z.of_nat (S n)) with (Z.of_nat n + 1) by lia.
Qed.

(** C33: guessing on one connection stops at the cap, give or take the requests
    already in flight. However the requests of a connection interleave, and
    whatever the other connections do to the shared limiter, at most
    [max_auth_fails + MAX_CHANNELS_PER_CONN - 1] attempts on it are ever denied,
    the counter never wraps, and from the cap on every request is answered
    without consulting the backend. The overshoot is real: attempts made in
    parallel pass the gate before any of them is counted, and the bound is
    reached. *)
Theorem auth_attempts_bounded :
  1 ≤ max_auth_fails → max_auth_fails + MAX_CHANNELS_PER_CONN ≤ 2 ^ 32 →
  (∀ c, conn_reach path ip max_auth_fails c →
     denied c = conn_fails (shared c) ∧
     denied c + zlen (attempts c) ≤ max_auth_fails + MAX_CHANNELS_PER_CONN - 1 ∧
     (max_auth_fails ≤ denied c → ∀ req auth ans, gate path max_auth_fails (conn_fails (shared c)) req ≠ Attempt auth ans)) ∧
  ∃ c, conn_reach path ip max_auth_fails c ∧ denied c = max_auth_fails + MAX_CHANNELS_PER_CONN - 1.
Proof using Type.
  intros H1 Hm. split.
  - intros c Hc. apply conn_inv_reach in Hc as [Hf Hn Hs Hb]; [|lia|done]. split_and!; [done|done|].
    intros Hd req auth ans Hg%gate_attempt. lia.
  - unfold MAX_CHANNELS_PER_CONN in *.
    destruct (fail_sequentially (Z.to_nat (max_auth_fails - 1)) RateLimit.RateLimiter_default) as [l Hr]; [lia|lia|].
    apply (open_attempts 16) in Hr; [|lia|done]. apply (deny_attempts 16) in Hr as [l' Hr]; [|lia|lia].
    eexists. split; [exact Hr|]. simpl. lia.
Qed.

End Cap.

Lemma auth_attempts_bounded_witness :
  let reach := conn_reach (H0 := Wire.challenge_postcard) (H1 := Wire.answer_postcard)
                 DEFAULT_PATH (V4 1) DEFAULT_MAX_AUTH_FAILS in
  (∀ c, reach c →
     denied c = conn_fails (shared c) ∧
     denied c + zlen (attempts c) ≤ DEFAULT_MAX_AUTH_FAILS + MAX_CHANNELS_PER_CONN - 1 ∧
     (DEFAULT_MAX_AUTH_FAILS ≤ denied c → ∀ req auth ans,
        gate (H0 := Wire.answer_postcard) DEFAULT_PATH DEFAULT_MAX_AUTH_FAILS (conn_fails (shared c)) req ≠ Attempt auth ans)) ∧
  ∃ c, reach c ∧ denied c = 21.
Proof.
  apply (auth_attempts_bounded (pc := Wire.challenge_postcard) (pa := Wire.answer_postcard) DEFAULT_PATH (V4 1)
           DEFAULT_MAX_AUTH_FAILS); by_dec.
Defined.

(** The requests that get a task are the ones accepted before anything else is:
    none at all when the first comes too late. *)
Lemma handle_connection_requests first accepts :
  ∃ n, AcceptReq <$> (handle_connection first accepts).1 = (take n accepts).*2 ∧
    ∀ took a rest, first = true → accepts = (took, a) :: rest → FIRST_REQUEST_DEADLINE < took → n = 0%nat.
Proof.
  revert first. induction accepts as [|[took a] rest IH]; intros first; [by exists 0%nat|]. simpl.
  destruct (first && (FIRST_REQUEST_DEADLINE <? took)) eqn:E; [by exists 0%nat|].
  destruct a as [req| |[]]; [|by exists 0%nat..]. destruct (IH false) as (n & Hn & _).
  destruct (handle_connection false rest) as [reqs r]. exists (S n). simpl in *. split; [by f_equal|].
  intros took' a' rest' -> [= <- <- <-] Hl. simpl in E. apply Z.ltb_ge in E. lia.
Qed.

(** ** Theorems: the accept loop *)
Record server_inv (n : nat) (s : Server) : Prop := {
  si_next : 1 ≤ NEXT_CONN s ≤ 1 + Z.of_nat n;
  si_ids : ∀ id, id ∈ (alive s).*1 ++ closed s → 1 ≤ id < NEXT_CONN s;
  si_nodup : NoDup ((alive s).*1 ++ closed s);
  si_limiter : RateLimit.inv (RateLimit.mkSys (sv_limiter s) (alive s).*2);
}.

Lemma server_limiter_step s s' :
  RateLimit.inv (RateLimit.mkSys (sv_limiter s) (alive s).*2) → server_step s s' →
  RateLimit.inv (RateLimit.mkSys (sv_limiter s') (alive s').*2) ∧
  RateLimit.max_conns_per_ip (sv_limiter s') = RateLimit.max_conns_per_ip (sv_limiter s).
Proof.
  intros Hi Hs.
  assert (∃ e, RateLimit.step e (RateLimit.mkSys (sv_limiter s) (alive s).*2)
                 (RateLimit.mkSys (sv_limiter s') (alive s').*2)) as [e He].
  { destruct Hs as [ip now now' s|l n as1 c g as2 cl now|ip now s|ip now s].
    - exists (RateLimit.EvAdmit ip now now'). unfold accept.
      destruct (RateLimit.admit_ip _ _ _ _) as [[g|] l] eqn:E; [by apply RateLimit.step_admitted|by apply RateLimit.step_refused].
    - exists (RateLimit.EvDrop g now). simpl. rewrite !fmap_app. apply RateLimit.step_drop.
    - exists (RateLimit.EvFailure ip now). apply RateLimit.step_failure.
    - exists (RateLimit.EvSuccess ip now). apply RateLimit.step_success. }
  split; [by eapply RateLimit.inv_step|]. apply RateLimit.params_step in He. by injection He.
Qed.

Lemma server_inv_step n s s' :
  Z.of_nat n + 2 < 2 ^ 64 → server_inv n s → server_step s s' → server_inv (S n) s'.
Proof.
  intros Hn [H1 H2 H3 H4] Hs. pose proof (server_limiter_step _ _ H4 Hs) as [H4' _]. split; [..|exact H4'].
  all: destruct Hs as [ip now now' s|l m as1 c g as2 cl now|ip now s|ip now s]; simpl in *; try done; try lia.
  - unfold accept. destruct (RateLimit.admit_ip _ _ _ _) as [[g|] l]; simpl; [|lia].
    unfold wrap_add. rewrite Z.mod_small by lia. lia.
  - unfold accept. destruct (RateLimit.admit_ip _ _ _ _) as [[g|] l]; simpl; [|done].
    unfold wrap_add. rewrite Z.mod_small by lia. intros id [->|Hid]%elem_of_cons; [lia|]. specialize (H2 id Hid). lia.
  - intros id Hid. apply H2. rewrite fmap_app in *. simpl. set_solver.
  - unfold accept. destruct (RateLimit.admit_ip _ _ _ _) as [[g|] l]; simpl; [|done].
    apply NoDup_cons. split; [|done]. intros Hin. specialize (H2 _ Hin). lia.
  - rewrite fmap_app in *. simpl in *. eapply NoDup_Permutation_proper; [|exact H3]. solve_Permutation.
Qed.

Lemma server_inv_reach n s :
  Z.of_nat n + 2 < 2 ^ 64 → server_reach n s →
  server_inv n s ∧ RateLimit.max_conns_per_ip (sv_limiter s) = 32.
Proof.
  intros Hn Hr. induction Hr as [|n s s' Hr IH Hs].
  - split; [|done]. split; simpl; [lia|set_solver|constructor|]. by apply RateLimit.inv_new.
  - destruct IH as [IH Hmax]; [lia|]. split; [eapply server_inv_step; [|done..]; lia|].
    destruct (server_limiter_step _ _ (si_limiter _ _ IH) Hs) as [_ ->]. done.
Qed.

(** Connection ids identify connections for the life of the server. Under
    any interleaving of accepts, refusals, authentication outcomes and
    connection ends, for as many steps as a 64-bit counter allows, no two
    connections ever share an id, alive or over, so an identity or a challenge
    the monitor keeps under an id is never met by a later connection; every
    connection that is over was closed exactly once; and no address holds more
    than 32 connections. *)
Theorem connection_ids_unique (n : nat) (s : Server) (ip : IpAddr) (now now' : Z) :
  Z.of_nat n + 2 < 2 ^ 64 → server_reach n s →
  NoDup ((alive s).*1 ++ closed s) ∧
  RateLimit.live ip (alive s).*2 ≤ 32 ∧
  let s' := accept ip now now' s in
  closed s' = closed s ∧
  if RateLimit.live ip (alive s).*2 <? 32
  then ∃ id, alive s' = (id, RateLimit.mkGuard ip) :: alive s ∧ id ∉ (alive s).*1 ++ closed s
  else alive s' = alive s.
Proof.
  intros Hn Hr. destruct (server_inv_reach n s Hn Hr) as [[H1 H2 H3 H4] Hmax].
  destruct (H4 ip) as [_ Hle]. simpl in Hle. rewrite Hmax in Hle. cbv zeta. split; [done|]. split; [done|]. split.
  { unfold accept. by destruct (RateLimit.admit_ip _ _ _ _) as [[]]. }
  pose proof (RateLimit.admit_count ip now now' _ H4) as Ha. simpl in Ha. unfold accept.
  destruct (RateLimit.admit_ip _ _ _ _) as [g l]. destruct Ha as [-> _]. rewrite Hmax.
  destruct (_ <? 32); [|done]. eexists. split; [done|]. intros Hin. specialize (H2 _ Hin). lia.
Qed.

Lemma connection_ids_unique_witness :
  let ip := V4 7 in
  let s := accept ip 1 1 Server_new in
  NoDup ((alive s).*1 ++ closed s) ∧
  RateLimit.live ip (alive s).*2 ≤ 32 ∧
  let s' := accept ip 2 2 s in
  closed s' = closed s ∧
  if RateLimit.live ip (alive s).*2 <? 32
  then ∃ id, alive s' = (id, RateLimit.mkGuard ip) :: alive s ∧ id ∉ (alive s).*1 ++ closed s
  else alive s' = alive s.
Proof.
  intros ip s. apply (connection_ids_unique 1 s ip 2 2); [lia|].
  eapply sr_step; [apply sr_start|apply ss_accept].
Defined.

(** ** Theorems: the two backends *)
Section Agree.
Context {b64 : Base64} {pt : Postcard Token} {pq : Postcard Request} {pqok : PostcardOk Request}
  {pr : Postcard Response} {prok : PostcardOk Response}.
Variable registry : Registry.
Variable parse_addr : str → option SocketAddr.
Variable addr_string : SocketAddr → str.

(** A call in step, made on its own. *)
Lemma call_in_step os req l st resp fds effects :
  inbox l = [] → fits req [] →
  handle registry parse_addr os req (mon l) = (st, (resp, fds), effects) → fits resp fds →
  call registry parse_addr os false req l = (CallOk resp fds, mkLink st []).
Proof using pqok prok.
  intros Hl F Hh G. destruct (fits_send req [] F) as (p & S1 & R1).
  destruct (monitor_turn_spec registry parse_addr os req l p _ _ _ _ S1 R1 Hh G) as (q & Q & T).
  unfold call. rewrite S1, T, Hl. cbn [inbox app mon]. by rewrite Q.
Qed.

(** The two ways of authenticating, side by side. *)
Lemma privsep_agrees (os : Os) (started returned conn_id : Z) (authorization : option str)
    (answer : option ChallengeAnswer) (conn : ConnInfo) (l : Link) :
  let req := Authenticate conn_id authorization (addr_string (peer_addr conn)) (channel_binding conn) answer in
  inbox l = [] → fail_delay registry = Login.FAIL_DELAY → challenge conn = None →
  parse_addr (addr_string (peer_addr conn)) = Some (peer_addr conn) →
  fits req [] → fits (handle registry parse_addr os req (mon l)).1.2.1 [] →
  let '(o1, store) := dev_authenticate registry os None started returned conn_id authorization answer conn
                        (challenges (mon l)) in
  let '(o2, l2) := privsep_authenticate registry parse_addr addr_string os None started returned conn_id
                     authorization answer conn l in
  o1 = o2 ∧ is_Some o1 ∧ challenges (mon l2) = store ∧ inbox l2 = [] ∧
  mon l2 = (handle registry parse_addr os req (mon l)).1.1.
Proof using pqok prok.
  intros req Hl Hd Hc Hp F G. unfold privsep_authenticate. fold req.
  destruct (handle registry parse_addr os req (mon l)) as [[st [resp fds]] effects] eqn:E. simpl in G.
  assert (fds = []) as ->.
  { unfold req in E. cbn [handle] in E. unfold handle_authenticate in E. by repeat case_match; simplify_eq/=. }
  rewrite (call_in_step os req l st resp [] effects Hl F E G). cbn iota beta zeta. cbn [fst].
  unfold req in E. cbn [handle] in E. unfold handle_authenticate in E. rewrite Hp in E. simpl in E.
  unfold dev_authenticate, registry_authenticate. destruct conn as [peer b ch]. simpl in *. subst ch.
  destruct answer as [ans|].
  - destruct (store_take _ _ _ _) as [taken store]. rewrite Hd.
    destruct (verdict _ _ _ _) as [user|state prompts|]; simplify_eq/=; naive_solver.
  - rewrite Hd. destruct (verdict _ _ _ _) as [user|state prompts|]; simplify_eq/=; naive_solver.
Qed.

(** C32: privilege separation changes nothing a client can see. For the same
    registry, world and parked challenges, the monitor's verdict as the worker
    relays it and the in-process one are the same outcome (the same challenge,
    token included), given at the same instant, failures floored alike; and
    they leave the same challenges parked, with nothing unread on the control
    channel. The hypotheses: the control channel is in step, the two messages
    fit it, and the peer's address survives being printed and parsed. *)
Theorem backends_agree (os : Os) (started returned conn_id : Z) (authorization : option str)
    (answer : option ChallengeAnswer) (conn : ConnInfo) (l : Link) :
  let req := Authenticate conn_id authorization (addr_string (peer_addr conn)) (channel_binding conn) answer in
  inbox l = [] → fail_delay registry = Login.FAIL_DELAY → challenge conn = None →
  parse_addr (addr_string (peer_addr conn)) = Some (peer_addr conn) →
  fits req [] → fits (handle registry parse_addr os req (mon l)).1.2.1 [] →
  let '(o1, store) := dev_authenticate registry os None started returned conn_id authorization answer conn
                        (challenges (mon l)) in
  let '(o2, l2) := privsep_authenticate registry parse_addr addr_string os None started returned conn_id
                     authorization answer conn l in
  o1 = o2 ∧ is_Some o1 ∧ challenges (mon l2) = store ∧ inbox l2 = [].
Proof using pqok prok.
  intros req Hl Hd Hc Hp F G.
  pose proof (privsep_agrees os started returned conn_id authorization answer conn l Hl Hd Hc Hp F G) as H.
  destruct (dev_authenticate _ _ _ _ _ _ _ _ _ _) as [o1 store]. destruct (privsep_authenticate _ _ _ _ _ _ _ _ _ _ _ _) as [o2 l2].
  by destruct H as (? & ? & ? & ? & _).
Qed.

End Agree.

Definition demo_dev_registry : Registry := mkRegistry [Dyn (mkDev (lit "bob"))] Login.FAIL_DELAY (mkPolicy [] []).
Definition demo_conn : ConnInfo := mkConnInfo (mkSocketAddr (V4 0) 0) (repeat 0 32) None.

Lemma backends_agree_witness :
  let dev := dev_authenticate (H0 := token_postcard) demo_dev_registry demo_os None 5 9 1
               (Some (basic_header (lit "bob") (lit "pw"))) None demo_conn (challenges State_default) in
  let priv := privsep_authenticate (H0 := token_postcard) (H1 := IpcWire.request_postcard)
                (H2 := IpcWire.response_postcard) demo_dev_registry (λ _, Some (mkSocketAddr (V4 0) 0))
                (λ _, lit "0.0.0.0:0") demo_os None 5 9 1
                (Some (basic_header (lit "bob") (lit "pw"))) None demo_conn (mkLink State_default []) in
  let '(o1, store) := dev in
  let '(o2, l2) := priv in
  o1 = o2 ∧ is_Some o1 ∧ challenges (mon l2) = store ∧ inbox l2 = [].
Proof.
  intros dev priv.
  apply (backends_agree (pt := token_postcard) (pqok := IpcWire.request_postcard_ok)
    (prok := IpcWire.response_postcard_ok) demo_dev_registry (λ _, Some (mkSocketAddr (V4 0) 0))
    (λ _, lit "0.0.0.0:0") demo_os 5 9 1 (Some (basic_header (lit "bob") (lit "pw"))) None demo_conn
    (mkLink State_default [])); try done.
  - split_and!; [unfold rust_ok; simpl; split_and!; by_dec|eexists; split; [reflexivity|by_dec]|by_dec].
  - split_and!; [done|eexists; split; [vm_compute; reflexivity|by_dec]|by_dec].
Defined.

End Transport.
