(* ===== verification/System.v ===== *)
(** * System: the connections of a server, and the monitor behind them

    The tasks of [quish-server/src/transport.rs] and [quish-server/src/worker.rs]
    ([run], [handle_connection], [handle_request], [serve_channel], [run_exec] and
    the others) as the monitor sees them: every connection and every request is a
    task of its own, and each call of the monitor ([Worker.call], under its lock)
    is one step, whatever the other tasks do between two calls. [step c] is what
    connection [c] may do next. A call sends a request and takes the next response
    on the link, which is its own unless an earlier authentication was dropped, by
    its deadline, between the two: its response is then still on the link. *)
From S2P Require Import Prelude RustStr Postcard Base64 Proto Net Ipc Auth Challenge Privdrop Monitor Worker.
Import Ipc Auth Challenge.

Module System.
Import Monitor Worker.

(** Where a request of a connection is: at its authentication, past it (the reply
    written, the opening frame to be read), or serving a session. *)
Inductive Task :=
| TAuth (authorization : option str) (answer : option ChallengeAnswer)
| TServe
| TSession (session_id : Z).

(** A connection: whether [handle_connection] is still in its loop, what it tells
    the monitor of itself, and its requests in flight, which outlive the loop. *)
Record Conn := mkConn {
  cn_open : bool;
  cn_peer : str;
  cn_binding : bytes;
  cn_tasks : list Task;
}.

(** The monitor, the responses it has sent that no call has taken, the connections
    and the number of the next one. *)
Record Sys := mkSys { sy_mon : State; sy_inbox : list reply; sy_conns : gmap Z Conn; sy_next : Z }.

Definition Sys_start : Sys := mkSys State_default [] ∅ 1.

(** What a call takes from the link when the monitor has answered it with [out]. *)
Definition answered (inbox : list reply) (out : reply) : reply * list reply :=
  match inbox with [] => (out, []) | first :: rest => (first, rest ++ [out]) end.

Definition with_tasks (cn : Conn) (ts : list Task) : Conn := mkConn (cn_open cn) (cn_peer cn) (cn_binding cn) ts.

Definition put (c : Z) (cn : Conn) (mon : State) (inbox : list reply) (s : Sys) : Sys :=
  mkSys mon inbox (<[c := cn]> (sy_conns s)) (sy_next s).

(** How many descriptors come with the session of a channel. *)
Definition spawn_fds (open : ChannelOpen) : nat :=
  match open with Exec _ => 3 | WriteFile _ _ => 2 | _ => 1 end.

(** The task a request goes on as when its authentication is answered; [replied]
    is whether the reply could be written. *)
Definition after_auth (resp : Response) (fds : list Fd) (replied : bool) : list Task :=
  match auth_outcome (CallOk resp fds) with
  | OutAllow => if replied then [TServe] else []
  | _ => []
  end.

Definition after_spawn (open : ChannelOpen) (resp : Response) (fds : list Fd) : list Task :=
  match spawn_result (spawn_fds open) (CallOk resp fds) with Some (id, _) => [TSession id] | None => [] end.

Section System.
Context {b64 : Base64} {pt : Postcard Token}.
Variable registry : Registry.
Variable parse_addr : str → option SocketAddr.

Notation handle := (handle registry parse_addr).

(** One step of connection [c], with its effects on processes and logins. A task
    may also end at any point without a word to the monitor: its deadline passes
    while it waits for the lock, its stream breaks, its channel needs no session.
    If the deadline of an authentication passes once its request is sent, the
    monitor handles it all the same ([st_cancel]). The connections are fewer than
    [2^64]: their counter does not wrap. *)
Inductive step (c : Z) : Sys → list Effect → Sys → Prop :=
| st_accept s peer binding :
    sy_next s = c → c + 1 < 2 ^ 64 →
    step c s [] (mkSys (sy_mon s) (sy_inbox s) (<[c := mkConn true peer binding []]> (sy_conns s)) (c + 1))
| st_request s cn authorization answer :
    sy_conns s !! c = Some cn → cn_open cn = true →
    step c s [] (put c (with_tasks cn (cn_tasks cn ++ [TAuth authorization answer])) (sy_mon s) (sy_inbox s) s)
| st_auth s cn ts1 ts2 authorization answer os replied mon out effects resp fds inbox :
    sy_conns s !! c = Some cn → cn_tasks cn = ts1 ++ TAuth authorization answer :: ts2 →
    handle os (Authenticate c authorization (cn_peer cn) (cn_binding cn) answer) (sy_mon s) = (mon, out, effects) →
    answered (sy_inbox s) out = ((resp, fds), inbox) →
    step c s effects (put c (with_tasks cn (ts1 ++ after_auth resp fds replied ++ ts2)) mon inbox s)
| st_cancel s cn ts1 ts2 authorization answer os mon out effects :
    sy_conns s !! c = Some cn → cn_tasks cn = ts1 ++ TAuth authorization answer :: ts2 →
    handle os (Authenticate c authorization (cn_peer cn) (cn_binding cn) answer) (sy_mon s) = (mon, out, effects) →
    step c s effects (put c (with_tasks cn (ts1 ++ ts2)) mon (sy_inbox s ++ [out]) s)
| st_serve s cn ts1 ts2 os open req mon out effects resp fds inbox :
    sy_conns s !! c = Some cn → cn_tasks cn = ts1 ++ TServe :: ts2 →
    serve_channel_plan c open = AskMonitor req →
    handle os req (sy_mon s) = (mon, out, effects) →
    answered (sy_inbox s) out = ((resp, fds), inbox) →
    step c s effects (put c (with_tasks cn (ts1 ++ after_spawn open resp fds ++ ts2)) mon inbox s)
| st_signal s cn os id sig mon out effects :
    sy_conns s !! c = Some cn → TSession id ∈ cn_tasks cn →
    handle os (SignalReq id sig) (sy_mon s) = (mon, out, effects) →
    step c s effects (put c cn mon (answered (sy_inbox s) out).2 s)
| st_reap s cn ts1 ts2 os id mon out effects :
    sy_conns s !! c = Some cn → cn_tasks cn = ts1 ++ TSession id :: ts2 →
    handle os (Reap id) (sy_mon s) = (mon, out, effects) →
    step c s effects (put c (with_tasks cn (ts1 ++ ts2)) mon (answered (sy_inbox s) out).2 s)
| st_drop s cn ts1 t ts2 :
    sy_conns s !! c = Some cn → cn_tasks cn = ts1 ++ t :: ts2 →
    step c s [] (put c (with_tasks cn (ts1 ++ ts2)) (sy_mon s) (sy_inbox s) s)
| st_end s cn os mon out effects :
    sy_conns s !! c = Some cn → cn_open cn = true →
    handle os (Close c) (sy_mon s) = (mon, out, effects) →
    step c s effects (put c (mkConn false (cn_peer cn) (cn_binding cn) (cn_tasks cn)) mon (answered (sy_inbox s) out).2 s).

Inductive reach : Sys → Prop :=
| reach_start : reach Sys_start
| reach_step c s effects s' : reach s → step c s effects s' → reach s'.

Definition any_step (s s' : Sys) : Prop := ∃ c effects, step c s effects s'.

Lemma run_reach n s : nsteps any_step n Sys_start s → reach s.
Proof using Type.
  revert s. induction n as [|n IH]; intros s Hr; [inversion Hr; constructor|].
  apply nsteps_inv_r in Hr as (t & Hr & c & effects & Hst). eapply reach_step; [by apply IH|done].
Qed.

(** The calls so far have each taken their own response. *)
Definition in_step (s : Sys) : Prop := sy_inbox s = [].

Lemma answered_length inbox out : length (answered inbox out).2 = length inbox.
Proof using Type. destruct inbox; [done|]. cbn. rewrite length_app. cbn. lia. Qed.

(** A response left on the link stays there for good: another takes its place. *)
Lemma step_inbox c s effects s' : step c s effects s' → (length (sy_inbox s) ≤ length (sy_inbox s'))%nat.
Proof using Type.
  assert (∀ inbox out r inbox', answered inbox out = (r, inbox') → length inbox' = length inbox) as Ha.
  { intros inbox out r inbox' E. rewrite <- (answered_length inbox out). by rewrite E. }
  destruct 1; cbn [put sy_inbox]; rewrite ?answered_length, ?length_app;
    try match goal with H : answered _ _ = _ |- _ => rewrite (Ha _ _ _ _ H) end; lia.
Qed.

Lemma in_step_before c s effects s' : step c s effects s' → in_step s' → in_step s.
Proof using Type. intros Hs%step_inbox E. unfold in_step in *. rewrite E in Hs. cbn in Hs. destruct (sy_inbox s); [done|cbn in Hs; lia]. Qed.

(** ** What the monitor keeps for a connection *)

(** The two states keep the same for [c]: its identity, its parked challenge, its
    sessions, their processes and their logins. *)
Record same_for (c : Z) (st st' : State) : Prop := {
  same_user : users st' !! c = users st !! c;
  same_challenge : inner (challenges st') !! c = inner (challenges st) !! c;
  same_owned : owned (conn_sessions st') c = owned (conn_sessions st) c;
  same_session id : id ∈ owned (conn_sessions st) c →
    sessions st' !! id = sessions st !! id ∧ pam_sessions st' !! id = pam_sessions st !! id;
}.

#[global] Instance same_for_refl c : Reflexive (same_for c).
Proof. done. Qed.

(** The requests a connection makes: its own id, or sessions no other connection
    owns. *)
Definition request_of (st : State) (c : Z) (req : Request) : Prop :=
  match req with
  | Authenticate c' _ _ _ _ | SpawnShell c' _ | SpawnExec c' _ | SpawnTransfer c' _
  | SpawnTransferWrite c' _ _ | SpawnMkdir c' _ _ | Close c' => c' = c
  | Reap id | SignalReq id _ => ∀ c', id ∈ owned (conn_sessions st) c' → c' = c
  end.

(** *** One request leaves the books of every other connection alone *)
Definition same_books (c : Z) (st st' : State) : Prop :=
  owned (conn_sessions st') c = owned (conn_sessions st) c ∧
  ∀ id, id ∈ owned (conn_sessions st) c →
    sessions st' !! id = sessions st !! id ∧ pam_sessions st' !! id = pam_sessions st !! id.

Lemma same_books_eq c st st' :
  sessions st' = sessions st → conn_sessions st' = conn_sessions st → pam_sessions st' = pam_sessions st →
  same_books c st st'.
Proof using Type. intros E1 E2 E3. unfold same_books. by rewrite E1, E2, E3. Qed.

Lemma owned_old st c id : inv st → id ∈ owned (conn_sessions st) c → id ≤ next_session st.
Proof using Type. intros Hi Hid. apply (inv_ids st Hi). apply (inv_index st Hi). by exists c. Qed.

Lemma alloc_books c c' child h st :
  fresh_ids st → inv st → c' ≠ c →
  let st' := (alloc c child st).2 in
  same_books c' st (match h with Some h => set_pam (<[wrap_add 64 (next_session st) 1 := h]>) st' | None => st' end).
Proof using Type.
  intros Hw Hi Hne st'. unfold same_books. rewrite (next_id st Hw).
  assert (owned (conn_sessions st') c' = owned (conn_sessions st) c') as Ho
    by (unfold st', alloc; cbn [snd conn_sessions]; rewrite owned_insert; by apply decide_False).
  assert (∀ id, id ∈ owned (conn_sessions st) c' → id ≠ next_session st + 1) as Hn.
  { intros id Hid%owned_old; [lia|done]. }
  destruct h; cbn [set_pam conn_sessions sessions pam_sessions]; (split; [done|]); intros id Hid;
    unfold st', alloc; rewrite (next_id st Hw); cbn [snd sessions pam_sessions]; by rewrite !lookup_insert_ne by (symmetry; auto).
Qed.

Lemma spawn_pam_books os c c' f st :
  fresh_ids st → inv st → c' ≠ c → same_books c' st (handle_spawn_pam os c f st).1.1.
Proof using Type.
  intros Hw Hi Hne. unfold handle_spawn_pam. destruct (users st !! c) as [user|]; [|done].
  destruct (f _ _) as [[[cmd child] fds]|]; [|done].
  pose proof (alloc_books c c' child (fst <$> os_pam os user) st Hw Hi Hne) as H.
  by destruct (os_pam os user) as [[h e]|].
Qed.

Lemma spawn_books c c' f st : fresh_ids st → inv st → c' ≠ c → same_books c' st (handle_spawn c f st).1.1.
Proof using Type.
  intros Hw Hi Hne. unfold handle_spawn. destruct (users st !! c) as [user|]; [|done].
  destruct (f user) as [[[cmd child] fds]|]; [|done]. apply (alloc_books c c' child None st Hw Hi Hne).
Qed.

Lemma reap_books os id c' st : id ∉ owned (conn_sessions st) c' → same_books c' st (handle_reap os id st).1.1.
Proof using Type.
  intros Hid. unfold handle_reap. destruct (sessions st !! id) as [child|]; [|done].
  destruct (reap_child os child) as [code kills].
  pose proof (drop_pam_spec id (forget_session id st)) as (D1 & D2 & _ & _ & _ & D6).
  destruct (drop_pam _ _) as [st' closes]. cbn [fst] in *. unfold same_books. rewrite D1, D2, D6. cbn.
  split.
  - rewrite owned_forget. apply filter_all, Forall_forall. intros s Hs ->. done.
  - intros s Hs. assert (s ≠ id) by (intros ->; done). by rewrite !lookup_delete_ne.
Qed.

Lemma close_books os c c' st : inv st → c' ≠ c → same_books c' st (handle_close os c st).1.1.
Proof using Type.
  intros Hi Hne. unfold handle_close. pose proof (owned_take c (conn_sessions st) c') as Ht.
  assert ((take_conn c (conn_sessions st)).1 = owned (conn_sessions st) c) as Hs by done.
  destruct (take_conn c (conn_sessions st)) as [sids index]. simpl in Hs, Ht. subst sids.
  set (st0 := mkState _ _ index _ _ _).
  pose proof (close_sessions_spec os (owned (conn_sessions st) c) st0) as (C1 & _ & _ & _ & C5 & C6).
  destruct (close_sessions _ _ st0) as [st' effects]. cbn [fst] in *. unfold same_books.
  rewrite C1. cbn [st0 conn_sessions]. rewrite Ht, decide_False by done. split; [done|].
  intros id Hid. rewrite C5, C6, !decide_False; [done|..]; intros Hid'; apply Hne;
    by apply (inv_one st Hi c' c id).
Qed.

Lemma handle_books os req st c c' :
  fresh_ids st → inv st → request_of st c req → c' ≠ c → same_books c' st (handle os req st).1.1.
Proof using Type.
  intros Hw Hi Hr Hne. destruct req as [c0 auth peer b ans|c0 t|c0 cmd|id|c0|id sg|c0 pa|c0 pa mo|c0 pa mo];
    cbn [Monitor.handle request_of] in *; subst.
  - pose proof (authenticate_frame registry parse_addr os c auth peer b ans st) as (? & ? & ? & ?). by apply same_books_eq.
  - by apply spawn_pam_books.
  - by apply spawn_pam_books.
  - apply reap_books. intros Hid%Hr. done.
  - by apply close_books.
  - done.
  - by apply spawn_books.
  - by apply spawn_books.
  - by apply spawn_books.
Qed.

(** The connection a request names, if it names one. *)
Definition names (c : Z) (req : Request) : Prop :=
  match req with
  | Authenticate c' _ _ _ _ | SpawnShell c' _ | SpawnExec c' _ | SpawnTransfer c' _
  | SpawnTransferWrite c' _ _ | SpawnMkdir c' _ _ | Close c' => c' = c
  | Reap _ | SignalReq _ _ => True
  end.

Lemma request_names st c req : request_of st c req → names c req.
Proof using Type. by destruct req. Qed.

(** Identities and challenges need less: no other connection is named. *)
Lemma handle_identities os req st c c' :
  names c req → c' ≠ c →
  users (handle os req st).1.1 !! c' = users st !! c' ∧
  inner (challenges (handle os req st).1.1) !! c' = inner (challenges st) !! c'.
Proof using Type.
  intros Hr Hne. apply (handle_frame registry parse_addr os req st c').
  - intros auth peer b ans ->. by apply Hne.
  - intros ->. by apply Hne.
Qed.

Lemma handle_isolated os req st c c' :
  fresh_ids st → inv st → request_of st c req → c' ≠ c → same_for c' st (handle os req st).1.1.
Proof using Type.
  intros Hw Hi Hr Hne. destruct (handle_books os req st c c' Hw Hi Hr Hne) as [Ho Hs].
  destruct (handle_identities os req st c c' (request_names _ _ _ Hr) Hne) as [Hu Hc].
  by split; [..|apply Hs].
Qed.

(** *** What a request does to processes and logins concerns its connection *)

(** [e] concerns one of the sessions [ids] of [st]. *)
Definition about (ids : list Z) (st : State) (e : Effect) : Prop :=
  match e with
  | EKillPg pid _ | EKill pid _ | EWait pid =>
      ∃ id child, id ∈ ids ∧ sessions st !! id = Some child ∧ child_pid child = pid
  | EPamClose h => ∃ id, id ∈ ids ∧ pam_sessions st !! id = Some h
  | ESpawn _ _ | EPamOpen _ _ => False
  end.

(** A step's effect is its connection's own: on a session it has, a process or a
    login started for its user, or that login closed again. *)
Definition own_effect (st : State) (c : Z) (effects : list Effect) (e : Effect) : Prop :=
  about (owned (conn_sessions st) c) st e ∨
  match e with
  | ESpawn _ _ => is_Some (users st !! c)
  | EPamOpen user _ => users st !! c = Some user
  | EPamClose h => ∃ user, EPamOpen user h ∈ effects
  | _ => False
  end.

Lemma reap_child_about ids st os id child :
  id ∈ ids → sessions st !! id = Some child → Forall (about ids st) (reap_child os child).2.
Proof using Type.
  intros Hid Hs. unfold reap_child. destruct (os_try_wait _ _); [constructor|].
  cbn [snd]. repeat constructor; by exists id, child.
Qed.

Lemma drop_pam_about ids st id : id ∈ ids → Forall (about ids st) (drop_pam id st).2.
Proof using Type. intros Hid. unfold drop_pam. destruct (pam_sessions st !! id) eqn:E; repeat constructor. by exists id. Qed.

Lemma about_mono ids ids' st st' e :
  (∀ id, id ∈ ids → id ∈ ids') →
  (∀ id child, sessions st !! id = Some child → sessions st' !! id = Some child) →
  (∀ id h, pam_sessions st !! id = Some h → pam_sessions st' !! id = Some h) →
  about ids st e → about ids' st' e.
Proof using Type.
  intros H1 H2 H3. destruct e; cbn; try done;
    by first [intros (id & child & ?%H1 & ?%H2 & ?); exists id, child | intros (id & ?%H1 & ?%H3); exists id].
Qed.

Lemma close_sessions_about os ids st : Forall (about ids st) (close_sessions os ids st).2.
Proof using Type.
  revert st. induction ids as [|sid ids IH]; intros st; [constructor|]. cbn [close_sessions].
  set (q := match sessions st !! sid with Some _ => _ | None => _ end).
  assert (Forall (about (sid :: ids) st) q.2 ∧ pam_sessions q.1 = pam_sessions st ∧
    ∀ id child, sessions q.1 !! id = Some child → sessions st !! id = Some child) as (H1 & H2 & H3).
  { subst q. destruct (sessions st !! sid) as [child|] eqn:E; [|by split_and!; [constructor|..]].
    split_and!; [eapply reap_child_about; [by left|done]|done|].
    intros id child'. cbn. by intros [_ ?]%lookup_delete_Some. }
  destruct q as [st1 kills]. cbn [fst snd] in *.
  pose proof (drop_pam_about (sid :: ids) st1 sid ltac:(by left)) as H4.
  pose proof (drop_pam_spec sid st1) as (D1 & _ & _ & _ & _ & D6).
  destruct (drop_pam sid st1) as [st2 closes]. cbn [fst snd] in *. specialize (IH st2).
  destruct (close_sessions os ids st2) as [st3 rest]. cbn [snd] in *.
  repeat apply Forall_app_2; [done| |].
  - eapply Forall_impl; [exact H4|]. intros e. apply about_mono; [done|done|by rewrite H2].
  - eapply Forall_impl; [exact IH|]. intros e. apply about_mono; [by right|rewrite D1; auto|].
    intros id h. rewrite D6, H2. by intros [_ ?]%lookup_delete_Some.
Qed.

Lemma spawn_pam_effects os c f st :
  let effects := (handle_spawn_pam os c f st).2 in Forall (own_effect st c effects) effects.
Proof using Type.
  unfold handle_spawn_pam. destruct (users st !! c) as [user|] eqn:E; [|constructor].
  destruct (f _ _) as [[[cmd child] fds]|]; destruct (os_pam os user) as [[h e]|]; cbn;
    repeat apply Forall_cons_2; try apply Forall_nil_2; right; cbn; rewrite ?E; try done.
  exists user. by left.
Qed.

Lemma spawn_effects c f st :
  let effects := (handle_spawn c f st).2 in Forall (own_effect st c effects) effects.
Proof using Type.
  unfold handle_spawn. destruct (users st !! c) as [user|] eqn:E; [|constructor].
  destruct (f user) as [[[cmd child] fds]|]; cbn; [|constructor].
  apply Forall_cons_2; [|constructor]. right. cbn. by rewrite E.
Qed.

Lemma live_owned st c id child :
  inv st → (∀ c', id ∈ owned (conn_sessions st) c' → c' = c) → sessions st !! id = Some child →
  id ∈ owned (conn_sessions st) c.
Proof using Type.
  intros Hi Hr Hs. destruct (proj1 (inv_index st Hi id)) as [c' Hc']; [by eexists|].
  by rewrite <- (Hr c' Hc').
Qed.

Lemma handle_effects os req st c :
  inv st → request_of st c req →
  let effects := (handle os req st).2 in Forall (own_effect st c effects) effects.
Proof using Type.
  intros Hi Hr. destruct req as [c0 auth peer b ans|c0 t|c0 cmd|id|c0|id sg|c0 pa|c0 pa mo|c0 pa mo];
    cbn [Monitor.handle request_of] in *; subst;
    try first [apply spawn_pam_effects | apply spawn_effects].
  - assert ((handle_authenticate registry parse_addr os c auth peer b ans st).2 = []) as ->; [|constructor].
    unfold handle_authenticate. destruct (match ans with Some _ => _ | None => _ end). by destruct (verdict _ _ _ _).
  - unfold handle_reap. destruct (sessions st !! id) as [child|] eqn:E; [|constructor].
    pose proof (live_owned st c id child Hi Hr E) as Hid.
    pose proof (reap_child_about (owned (conn_sessions st) c) st os id child Hid E) as H1.
    pose proof (drop_pam_about (owned (conn_sessions st) c) (forget_session id st) id Hid) as H2.
    destruct (reap_child os child). destruct (drop_pam _ _). cbn [snd] in *.
    apply Forall_app_2; (eapply Forall_impl; [done|]); intros e He; left; [done|].
    eapply about_mono; [..|exact He]; cbn; [done| |done]. by intros ? ? [_ ?]%lookup_delete_Some.
  - unfold handle_close. assert ((take_conn c (conn_sessions st)).1 = owned (conn_sessions st) c) as Hs by done.
    destruct (take_conn c (conn_sessions st)) as [sids index]. simpl in Hs. subst sids.
    set (st0 := mkState _ _ index _ _ _).
    pose proof (close_sessions_about os (owned (conn_sessions st) c) st0) as H.
    destruct (close_sessions _ _ st0). cbn [snd] in *.
    eapply Forall_impl; [exact H|]. intros e He. left. eapply about_mono; [..|exact He]; done.
  - unfold handle_signal. cbn [snd]. destruct (sessions st !! id) as [child|] eqn:E; [|constructor].
    constructor; [|constructor]. left. exists id, child. split_and!; [|done..]. by eapply live_owned.
Qed.

(** ** The invariant of the system

    The monitor's books balance; a session a task serves was handed out, and no
    connection but the task's owns it. *)
Record sys_inv (s : Sys) : Prop := {
  si_mon : inv (sy_mon s);
  si_task c cn id : sy_conns s !! c = Some cn → TSession id ∈ cn_tasks cn →
    id ≤ next_session (sy_mon s) ∧ ∀ c', id ∈ owned (conn_sessions (sy_mon s)) c' → c' = c;
}.

(** A session owned after a request was owned before it, or is new and its
    connection's. *)
Lemma handle_owned os req st c c' id :
  fresh_ids st → inv st → request_of st c req → id ∈ owned (conn_sessions (handle os req st).1.1) c' →
  id ∈ owned (conn_sessions st) c' ∨ (c' = c ∧ next_session st < id).
Proof using Type.
  intros Hw Hi Hr Hid. destruct (decide (c' = c)) as [->|Hne].
  2: { left. by rewrite (same_owned _ _ _ (handle_isolated os req st c c' Hw Hi Hr Hne)) in Hid. }
  assert (id ∈ owned (index_insert c (next_session st + 1) (conn_sessions st)) c →
    id ∈ owned (conn_sessions st) c ∨ (c = c ∧ next_session st < id)) as Ha.
  { rewrite owned_insert, decide_True by done.
    intros [?| ->%list_elem_of_singleton]%elem_of_app; [by left|right; split; [done|lia]]. }
  destruct req as [c0 auth peer b ans|c0 t|c0 cmd|id0|c0|id0 sg|c0 pa|c0 pa mo|c0 pa mo];
    cbn [Monitor.handle request_of] in *; subst.
  - left. pose proof (authenticate_frame registry parse_addr os c auth peer b ans st) as (_ & E & _). by rewrite E in Hid.
  - unfold handle_spawn_pam, alloc in Hid; rewrite ?(next_id st Hw) in Hid. repeat case_match; simplify_eq/=; auto.
  - unfold handle_spawn_pam, alloc in Hid; rewrite ?(next_id st Hw) in Hid. repeat case_match; simplify_eq/=; auto.
  - left. unfold handle_reap in Hid. destruct (sessions st !! id0) as [child|]; [|done].
    destruct (reap_child os child). pose proof (drop_pam_spec id0 (forget_session id0 st)) as (_ & D2 & _).
    destruct (drop_pam _ _). cbn in *. rewrite D2, owned_forget in Hid. by apply list_elem_of_filter in Hid as [_ ?].
  - left. unfold handle_close in Hid. pose proof (owned_take c (conn_sessions st) c) as Ht.
    destruct (take_conn c (conn_sessions st)) as [sids index]. set (st0 := mkState _ _ index _ _ _) in *.
    pose proof (close_sessions_spec os sids st0) as (C1 & _). destruct (close_sessions _ _ st0).
    cbn in *. rewrite C1 in Hid. cbn in Hid. rewrite Ht, decide_True in Hid by done. by apply not_elem_of_nil in Hid.
  - by left.
  - unfold handle_spawn, alloc in Hid; rewrite ?(next_id st Hw) in Hid. repeat case_match; simplify_eq/=; auto.
  - unfold handle_spawn, alloc in Hid; rewrite ?(next_id st Hw) in Hid. repeat case_match; simplify_eq/=; auto.
  - unfold handle_spawn, alloc in Hid; rewrite ?(next_id st Hw) in Hid. repeat case_match; simplify_eq/=; auto.
Qed.

(** The invariant after a call by [c] that leaves it the tasks [ts]: those it had,
    and the session the monitor answered with. *)
Lemma inv_call s c cn ts open os req mon resp fds effects inbox :
  fresh_ids (sy_mon s) → sys_inv s → sy_conns s !! c = Some cn → request_of (sy_mon s) c req →
  handle os req (sy_mon s) = (mon, (resp, fds), effects) →
  (∀ id, TSession id ∈ ts → TSession id ∈ cn_tasks cn ∨ resp = Spawned id) →
  sys_inv (put c (mkConn open (cn_peer cn) (cn_binding cn) ts) mon inbox s).
Proof using Type.
  intros Hw [Hi Ht] Hc Hr E Hts.
  pose proof (inv_handle registry parse_addr os req _ Hw Hi) as Hi'.
  pose proof (handle_ids registry parse_addr os req (sy_mon s) Hw) as Hids.
  assert (∀ c' id, id ∈ owned (conn_sessions mon) c' →
    id ∈ owned (conn_sessions (sy_mon s)) c' ∨ (c' = c ∧ next_session (sy_mon s) < id)) as Ho.
  { intros c' id Hid. eapply handle_owned; [done..|]. by rewrite E. }
  rewrite E in Hi', Hids. cbn [fst] in Hi'. destruct Hids as [Hle Hnew].
  split; cbn [put sy_mon sy_conns sy_next]; [done|].
  assert (∀ c0 cn0 id, sy_conns s !! c0 = Some cn0 → TSession id ∈ cn_tasks cn0 →
    id ≤ next_session mon ∧ ∀ c', id ∈ owned (conn_sessions mon) c' → c' = c0) as Hold.
  { intros c0 cn0 id Hc0 Hid. destruct (Ht c0 cn0 id Hc0 Hid) as [H1 H2]. split; [lia|].
    intros c' [H|[-> H]]%Ho; [by apply H2|lia]. }
  intros c0 cn0 id [[<- <-]|[Hne Hc0]]%lookup_insert_Some Hid; [|by eapply Hold]. cbn [cn_tasks] in Hid.
  destruct (Hts id Hid) as [H| ->]; [by eapply Hold|]. destruct (Hnew id eq_refl) as [E1 E2]. split; [lia|].
  intros c' [H|[-> _]]%Ho; [|done]. apply owned_old in H; [lia|done].
Qed.

Lemma serve_request st c open req : serve_channel_plan c open = AskMonitor req → request_of st c req.
Proof using Type.
  intros E. destruct open; cbn in E;
    try match type of E with context [spawn_arg_ok ?n] => destruct (spawn_arg_ok n) end; by simplify_eq/=.
Qed.

Lemma after_spawn_session open resp fds id : TSession id ∈ after_spawn open resp fds → resp = Spawned id.
Proof using Type.
  unfold after_spawn, spawn_result. destruct resp; try by intros ?%not_elem_of_nil. case_bool_decide; [|by intros ?%not_elem_of_nil].
  by intros [= ->]%list_elem_of_singleton.
Qed.

Lemma after_auth_session resp fds replied id : TSession id ∉ after_auth resp fds replied.
Proof using Type.
  unfold after_auth. destruct (auth_outcome _), replied; try apply not_elem_of_nil.
  by intros ?%list_elem_of_singleton.
Qed.

(** A step is a request that names no other connection, handled by the monitor, or
    nothing to the monitor. *)
Lemma step_names s c effects s' :
  step c s effects s' →
  (∃ os req out, names c req ∧ handle os req (sy_mon s) = (sy_mon s', out, effects)) ∨
  (sy_mon s' = sy_mon s ∧ effects = []).
Proof using Type.
  destruct 1; cbn [put sy_mon]; try (by right); left; eexists _, _, _.
  all: split; [|done]; try done.
  by eapply (request_names (sy_mon s)), serve_request.
Qed.

(** By the invariant, its sessions are its own. *)
Lemma step_request s c effects s' :
  sys_inv s → step c s effects s' →
  (∃ os req out, request_of (sy_mon s) c req ∧ handle os req (sy_mon s) = (sy_mon s', out, effects)) ∨
  (sy_mon s' = sy_mon s ∧ effects = []).
Proof using Type.
  intros [Hi Ht]. destruct 1; cbn [put sy_mon]; try (by right); left; eexists _, _, _.
  all: split; [|done]; try done.
  - by eapply serve_request.
  - cbn. by eapply Ht.
  - cbn. eapply Ht; [done|]. rewrite H0. set_solver.
Qed.

Lemma step_conns s c effects s' c' : step c s effects s' → c' ≠ c → sy_conns s' !! c' = sy_conns s !! c'.
Proof using Type. intros Hs Hne. destruct Hs; cbn [put sy_conns]; by rewrite lookup_insert_ne by done. Qed.

(** Nothing asked, fewer tasks. *)
Lemma inv_quiet s c cn cn' :
  sys_inv s → sy_conns s !! c = Some cn → (∀ id, TSession id ∈ cn_tasks cn' → TSession id ∈ cn_tasks cn) →
  sys_inv (put c cn' (sy_mon s) (sy_inbox s) s).
Proof using Type.
  intros [Hi Ht] Hc Hts. split; cbn [put sy_mon sy_conns sy_next]; [done|].
  intros c0 cn0 id [[<- <-]|[Hne Hc0]]%lookup_insert_Some Hid; [eapply Ht; [exact Hc|by apply Hts]|by eapply Ht].
Qed.

Lemma sys_inv_step s c effects s' :
  fresh_ids (sy_mon s) → sys_inv s → step c s effects s' → in_step s' → sys_inv s'.
Proof using Type.
  intros Hw Hs Hst Hin'. pose proof (in_step_before _ _ _ _ Hst Hin') as Hin. unfold in_step in Hin.
  pose proof Hs as [Hi Ht]. destruct Hst; try rewrite Hin in *; cbn [answered] in *; simplify_eq.
  - split; cbn [sy_mon sy_conns sy_next]; [done|].
    intros c0 cn0 id [[<- <-]|[Hne Hc0]]%lookup_insert_Some Hid; [by apply not_elem_of_nil in Hid|by eapply Ht].
  - rewrite <- Hin. eapply inv_quiet; [done..|]. cbn. intros id [Hid|Hid%list_elem_of_singleton]%elem_of_app; done.
  - eapply inv_call; [done|done|done| |done|]; [by cbn|]. intros id Hid. cbn in Hid. rewrite H0.
    pose proof (after_auth_session resp fds replied id). set_solver.
  - discriminate Hin'.
  - eapply inv_call; [done|done|done| |done|]; [by eapply serve_request|]. intros id Hid. rewrite H0.
    pose proof (after_spawn_session open resp fds id). set_solver.
  - destruct out. destruct cn as [o pe bi ts].
    eapply (inv_call s c (mkConn o pe bi ts) ts o os (SignalReq id sig)); [done|done|done| |done|by left].
    destruct (Ht _ _ id H H0) as [_ Hown]. exact Hown.
  - destruct out. eapply inv_call; [done|done|done| |done|]; cbn.
    + destruct (Ht _ _ id H) as [_ Hown]; [rewrite H0; set_solver|]. exact Hown.
    + intros id'. rewrite H0. set_solver.
  - rewrite <- Hin. eapply inv_quiet; [done..|]. cbn. intros id Hid. rewrite H0. set_solver.
  - destruct out. eapply inv_call; [done|done|done| |done|]; [by cbn|]. auto.
Qed.

Lemma step_ids s c effects s' :
  fresh_ids (sy_mon s) → step c s effects s' →
  next_session (sy_mon s) ≤ next_session (sy_mon s') ≤ next_session (sy_mon s) + 1.
Proof using Type.
  intros Hw Hst. destruct (step_names s c effects s' Hst) as [(os & req & out & _ & E)|[-> _]]; [|lia].
  pose proof (handle_ids registry parse_addr os req (sy_mon s) Hw) as H. rewrite E in H. destruct out. apply H.
Qed.

(** In a run of fewer steps than there are ids, in which no call was abandoned. *)
Lemma sys_inv_run n s :
  nsteps any_step n Sys_start s → Z.of_nat n < 2 ^ 64 → in_step s →
  sys_inv s ∧ 0 ≤ next_session (sy_mon s) ≤ Z.of_nat n.
Proof using Type.
  revert s. induction n as [|n IH]; intros s Hrun Hn Hin.
  { inversion Hrun; subst. split; [|done]. split; cbn; [apply inv_default|]. by intros ? ? ? ?%lookup_empty_Some. }
  apply nsteps_inv_r in Hrun as (t & Hrun & c & effects & Hst).
  destruct (IH t Hrun ltac:(lia) (in_step_before _ _ _ _ Hst Hin)) as [Ht Hb].
  assert (fresh_ids (sy_mon t)) as Hw by (split; lia). pose proof (step_ids t c effects s Hw Hst).
  split; [by eapply sys_inv_step|lia].
Qed.


(** Identities and challenges stay isolated whatever was abandoned: in any state, a
    step of a connection changes no other's. *)
Theorem identities_isolated (s s' : Sys) (c c' : Z) (effects : list Effect) :
  step c s effects s' → c' ≠ c →
  users (sy_mon s') !! c' = users (sy_mon s) !! c' ∧
  inner (challenges (sy_mon s')) !! c' = inner (challenges (sy_mon s)) !! c'.
Proof using Type.
  intros Hst Hne. destruct (step_names s c effects s' Hst) as [(os & req & out & Hr & E)|[-> _]]; [|done].
  pose proof (handle_identities os req (sy_mon s) c c' Hr Hne) as H. by rewrite E in H.
Qed.

(** ** The end of a connection *)

(** The monitor keeps nothing of [c]. *)
Definition nothing (c : Z) (st : State) : Prop :=
  users st !! c = None ∧ inner (challenges st) !! c = None ∧ owned (conn_sessions st) c = [].

(** [c] is over, with no authentication in flight. *)
Definition over (c : Z) (s : Sys) : Prop :=
  ∃ cn, sy_conns s !! c = Some cn ∧ cn_open cn = false ∧ Forall (λ t, ¬ ∃ auth ans, t = TAuth auth ans) (cn_tasks cn).

(** The connections were all numbered by the counter. *)
Definition numbered (s : Sys) : Prop := ∀ c, is_Some (sy_conns s !! c) → c < sy_next s.

Lemma numbered_step s c effects s' : numbered s → step c s effects s' → numbered s'.
Proof using Type.
  unfold numbered. intros Hn Hst. destruct Hst; cbn [put sy_conns sy_next];
    intros c0 [cn0 [[<- _]|[_ H']]%lookup_insert_Some]; try lia; try (apply Hn; by eexists).
  assert (c0 < sy_next s) by (apply Hn; by eexists). lia.
Qed.

Lemma numbered_reach s : reach s → numbered s.
Proof using Type. induction 1; [|by eapply numbered_step]. intros c [cn Hc]. cbn in Hc. by apply lookup_empty_Some in Hc. Qed.

Lemma close_nothing os c st : nothing c (handle_close os c st).1.1.
Proof using Type.
  destruct (close_frame os c st) as [Hu Hc]. split_and!; [done|done|].
  unfold handle_close. pose proof (owned_take c (conn_sessions st) c) as Ht.
  destruct (take_conn c (conn_sessions st)) as [sids index]. set (st0 := mkState _ _ index _ _ _).
  pose proof (close_sessions_spec os sids st0) as (C1 & _). destruct (close_sessions _ _ st0).
  cbn in *. rewrite C1. cbn. by rewrite Ht, decide_True.
Qed.

Lemma serve_nothing os c open req st :
  users st !! c = None → serve_channel_plan c open = AskMonitor req →
  handle os req st = (st, (Failed, []), []).
Proof using Type.
  intros Hu E. destruct open; cbn in E;
    try match type of E with context [spawn_arg_ok ?n] => destruct (spawn_arg_ok n) end; simplify_eq/=;
    unfold handle_spawn_pam, handle_spawn; by rewrite Hu.
Qed.

(** A request that does not name [c] gives it no session, whatever the books say. *)
Lemma handle_owned_nil os req st c c0 :
  names c0 req → c ≠ c0 → owned (conn_sessions st) c = [] → owned (conn_sessions (handle os req st).1.1) c = [].
Proof using Type.
  intros Hr Hne Ho.
  assert (∀ id, owned (index_insert c0 id (conn_sessions st)) c = []) as Hi
    by (intros id; by rewrite owned_insert, decide_False).
  destruct req as [c1 auth peer b ans|c1 t|c1 cmd|id|c1|id sg|c1 pa|c1 pa mo|c1 pa mo];
    cbn [Monitor.handle names] in *; subst.
  2,3: unfold handle_spawn_pam, alloc; repeat case_match; simplify_eq/=; auto.
  5,6,7: unfold handle_spawn, alloc; repeat case_match; simplify_eq/=; auto.
  - pose proof (authenticate_frame registry parse_addr os c0 auth peer b ans st) as (_ & E & _). by rewrite E.
  - unfold handle_reap. destruct (sessions st !! id) as [child|]; [|done].
    destruct (reap_child os child). pose proof (drop_pam_spec id (forget_session id st)) as (_ & D2 & _).
    destruct (drop_pam _ _). cbn in *. by rewrite D2, owned_forget, Ho.
  - unfold handle_close. pose proof (owned_take c0 (conn_sessions st) c) as Ht.
    destruct (take_conn c0 (conn_sessions st)) as [sids index]. set (st0 := mkState _ _ index _ _ _).
    pose proof (close_sessions_spec os sids st0) as (C1 & _). destruct (close_sessions _ _ st0).
    cbn in *. rewrite C1. cbn. by rewrite Ht, decide_False.
  - done.
Qed.

Lemma handle_nothing os req st c c0 :
  names c0 req → c ≠ c0 → nothing c st → nothing c (handle os req st).1.1.
Proof using Type.
  intros Hr Hne (Hu & Hc & Ho). destruct (handle_identities os req st c0 c Hr Hne) as [E1 E2].
  unfold nothing. rewrite E1, E2. split_and!; [done..|]. by eapply handle_owned_nil.
Qed.

Lemma over_step s c c0 effects s' :
  numbered s → over c s → nothing c (sy_mon s) → step c0 s effects s' → over c s' ∧ nothing c (sy_mon s').
Proof using Type.
  intros Hs Hov Hno Hst. destruct (decide (c0 = c)) as [->|Hne].
  2: { split.
    - destruct Hov as (cn & Hc & ?). exists cn. split; [|done].
      by rewrite (step_conns s c0 effects s' c Hst) by done.
    - destruct (step_names s c0 effects s' Hst) as [(os & req & out & Hreq & E)|[-> _]]; [|done].
      pose proof (handle_nothing os req (sy_mon s) c c0 Hreq ltac:(done) Hno) as H. by rewrite E in H. }
  destruct Hov as (cn & Hc & Ho & Ht). pose proof Hno as (Hu & Hch & Hown).
  assert (∀ ts mon inbox, Forall (λ t, ¬ ∃ auth ans, t = TAuth auth ans) ts →
    over c (put c (with_tasks cn ts) mon inbox s)) as Hput.
  { intros ts mon inbox H. exists (with_tasks cn ts). cbn. by rewrite lookup_insert_eq. }
  assert (∀ ts1 ts ts2, cn_tasks cn = ts1 ++ ts ++ ts2 → Forall (λ t, ¬ ∃ auth ans, t = TAuth auth ans) (ts1 ++ ts2)) as Hrest.
  { intros ts1 ts ts2 E. rewrite E in Ht. apply Forall_app in Ht as [? Ht]. apply Forall_app in Ht as [_ ?].
    by apply Forall_app_2. }
  assert (∀ ts1 t ts2, cn_tasks cn = ts1 ++ t :: ts2 → ¬ ∃ auth ans, t = TAuth auth ans) as Hnot.
  { intros ts1 t ts2 E. rewrite E in Ht. apply Forall_app in Ht as [_ Ht]. by inversion Ht. }
  assert (∀ os id mon out effects, handle os (Reap id) (sy_mon s) = (mon, out, effects) → nothing c mon) as Hreap.
  { intros os id mon out effects' E. pose proof (handle_nothing os (Reap id) (sy_mon s) c (c + 1) I ltac:(lia) Hno) as H.
    by rewrite E in H. }
  destruct Hst as [s peer binding Hn|s cn' ? ? Hc'|s cn' ts1 ts2 ? ? os ? mon out effects resp fds inbox Hc' Hts|
    s cn' ts1 ts2 ? ? os mon out effects Hc' Hts|
    s cn' ts1 ts2 os open req mon out effects resp fds inbox Hc' Hts Hp E Ha|s cn' os id sig mon out effects Hc' Hid E|
    s cn' ts1 ts2 os id mon out effects Hc' Hts E|s cn' ts1 t ts2 Hc' Hts|s cn' os mon out effects Hc' Ho'];
    try (assert (cn' = cn) as -> by congruence); try congruence.
  - exfalso. pose proof (Hs c ltac:(by eexists)). lia.
  - exfalso. apply (Hnot _ _ _ Hts). by eexists _, _.
  - exfalso. apply (Hnot _ _ _ Hts). by eexists _, _.
  - rewrite (serve_nothing os c open req (sy_mon s) Hu Hp) in E. injection E as <- <- <-.
    split; [|done]. apply Hput. pose proof (Hrest ts1 [TServe] ts2 Hts) as H. apply Forall_app in H as [? ?].
    repeat apply Forall_app_2; [done| |done]. unfold after_spawn.
    destruct (spawn_result _ _) as [[id ?]|]; repeat constructor. by intros (? & ? & ?).
  - split; [|by injection E as <- <- <-]. destruct cn as [o pe bi ts]. by apply (Hput ts).
  - split; [|by eapply Hreap]. apply Hput. by apply (Hrest ts1 [TSession id] ts2).
  - split; [|done]. apply Hput. by apply (Hrest ts1 [t] ts2).
Qed.

(** C9: closing a connection is final, if it has no authentication in flight. In any
    state of the server: once the connection has left its loop and the monitor was
    told, then whatever its tasks left and all other connections do, the monitor
    never again holds an identity, a challenge or a session for it. *)
Theorem close_is_final (s s' s'' : Sys) (c : Z) (cn : Conn) (effects : list Effect) :
  reach s → sy_conns s !! c = Some cn → cn_open cn = true →
  Forall (λ t, ¬ ∃ auth ans, t = TAuth auth ans) (cn_tasks cn) →
  step c s effects s' → cn_open <$> (sy_conns s' !! c) = Some false →
  rtc any_step s' s'' → nothing c (sy_mon s'').
Proof using Type.
  intros Hr Hc Ho Ht Hst Ho' Hrun. pose proof (numbered_reach s Hr) as Hs. pose proof (numbered_step _ _ _ _ Hs Hst) as Hs'.
  assert (over c s' ∧ nothing c (sy_mon s')) as [Hov Hno].
  { destruct Hst; cbn [put sy_conns] in Ho'; rewrite lookup_insert_eq in Ho'; simplify_eq/=.
    all: try congruence.
    split; [eexists; cbn [put sy_conns]; rewrite lookup_insert_eq; by split_and!|].
    match goal with E : handle_close ?os c _ = _ |- _ =>
      pose proof (close_nothing os c (sy_mon s)) as Hn; by rewrite E in Hn end. }
  clear Hr Hc Ho Ht Hst Ho' Hs s. induction Hrun as [s|s s1 s2 (c0 & eff & Hst) _ IH]; [done|].
  destruct (over_step s c c0 eff s1 Hs' Hov Hno Hst). apply IH; [by eapply numbered_step|done..].
Qed.

(** A connection that is over and has no task does nothing more. *)
Lemma idle_no_step s c cn effects s' :
  numbered s → sy_conns s !! c = Some cn → cn_open cn = false → cn_tasks cn = [] → ¬ step c s effects s'.
Proof using Type.
  intros Hs Hc Ho Ht Hst. assert (c < sy_next s) as Hlt by (apply Hs; by eexists).
  destruct Hst as [s ? ? Hn|s cn' ? ? Hc'|s cn' ts1 ts2 ? ? ? ? ? ? ? ? ? ? Hc' Hts|s cn' ts1 ts2 ? ? ? ? ? ? Hc' Hts|
    s cn' ts1 ts2 ? ? ? ? ? ? ? ? ? Hc' Hts|
    s cn' ? ? ? ? ? ? Hc' Hid|s cn' ts1 ts2 ? ? ? ? ? Hc' Hts|s cn' ts1 ? ts2 Hc' Hts|s cn' ? ? ? ? Hc' Ho'];
    [lia|..]; assert (cn' = cn) as -> by congruence; try congruence;
    rewrite Ht in *; first [by destruct ts1 | by apply not_elem_of_nil in Hid].
Qed.

(** A login in flight when its connection closes is never forgotten. If the
    monitor allows the attempt after [Close], the connection's identity is back, and
    when its last task has ended there is no step that would remove it. *)
Theorem late_login_stays (s s'' : Sys) (c : Z) (cn : Conn) authorization answer os mon fds effects (user : str) :
  reach s → in_step s → sy_conns s !! c = Some cn → cn_open cn = false → cn_tasks cn = [TAuth authorization answer] →
  handle os (Authenticate c authorization (cn_peer cn) (cn_binding cn) answer) (sy_mon s) = (mon, (VerdictResp true, fds), effects) →
  users mon !! c = Some user →
  let s' := put c (with_tasks cn []) mon [] s in
  step c s effects s' ∧ (rtc any_step s' s'' → users (sy_mon s'') !! c = Some user).
Proof using Type.
  intros Hr Hin Hc Ho Ht E Hu s1.
  assert (step c s effects s1) as Hst.
  { apply (st_auth c s cn [] [] authorization answer os false mon _ effects (VerdictResp true) fds [] Hc Ht E).
    unfold in_step in Hin. by rewrite Hin. }
  split; [done|]. intros Hrun.
  assert (numbered s1) as Hs by (eapply numbered_step; [by apply numbered_reach|done]).
  assert (∃ cn, sy_conns s1 !! c = Some cn ∧ cn_open cn = false ∧ cn_tasks cn = []) as Hidle.
  { exists (with_tasks cn []). unfold s1. cbn. by rewrite lookup_insert_eq. }
  assert (users (sy_mon s1) !! c = Some user) as Hu1 by done.
  clearbody s1. clear -Hrun Hs Hidle Hu1. induction Hrun as [t|t t1 t2 (c0 & eff & Hst) _ IH]; [done|].
  apply IH; [by eapply numbered_step|..]; destruct Hidle as (cn' & Hc & Ho & Ht).
  all: assert (c0 ≠ c) as Hne by (intros ->; by eapply idle_no_step).
  - exists cn'. by rewrite (step_conns t c0 eff t1 c Hst) by done.
  - by rewrite (proj1 (identities_isolated t t1 c0 c eff Hst ltac:(done))).
Qed.

End System.

(** ** A concrete run

    Connection 1 logs in and starts a command; a second connection is there; then
    the first reaps its command, or closes. *)
Notation demo_step := (step (pt := token_postcard) demo_registry (λ _, None)).
Notation demo_reachable := (reach (pt := token_postcard) demo_registry (λ _, None)).

Definition demo_header : option str :=
  match demo_auth with Authenticate _ auth _ _ _ => auth | _ => None end.

Notation demo_any := (any_step (pt := token_postcard) demo_registry (λ _, None)).

Definition demo_conn (ts : list Task) : Conn := mkConn true (lit "peer") (repeat 0 32) ts.
Definition demo_conn2 (ts : list Task) : Conn := mkConn true (lit "other") (repeat 1 32) ts.

Definition demo_two : Sys := mkSys State_default [] {[1 := demo_conn []; 2 := demo_conn2 []]} 3.

Definition demo_asked : Sys := put 1 (demo_conn [TAuth demo_header None]) State_default [] demo_two.

Definition demo_login : Sys := put 1 (demo_conn [TServe]) (demo_handle demo_auth State_default).1.1 [] demo_asked.

Definition demo_serving : Sys := put 1 (demo_conn [TSession 1]) demo_state [] demo_login.

Definition demo_reaped : State * list Effect :=
  let '(st, _, effects) := demo_handle (Reap 1) demo_state in (st, effects).

Lemma demo_two_run : nsteps demo_any 2 Sys_start demo_two.
Proof.
  eapply nsteps_l; [exists 1; eexists; by apply (st_accept _ _ 1 Sys_start (lit "peer") (repeat 0 32))|].
  eapply nsteps_l; [|apply nsteps_O]. exists 2, [].
  exact (st_accept _ _ 2 (mkSys State_default [] {[1 := demo_conn []]} 2) (lit "other") (repeat 1 32) eq_refl eq_refl).
Qed.

(** One more step of a run. *)
Lemma demo_more n (s s' : Sys) c effects :
  nsteps demo_any n Sys_start s → demo_step c s effects s' → nsteps demo_any (S n) Sys_start s'.
Proof. intros Hr Hs. eapply nsteps_r; [done|]. by exists c, effects. Qed.

Lemma demo_asked_run : nsteps demo_any 3 Sys_start demo_asked.
Proof.
  eapply demo_more; [apply demo_two_run|].
  exact (st_request (pt := token_postcard) demo_registry (λ _, None) 1 demo_two (demo_conn []) demo_header None eq_refl eq_refl).
Qed.

Lemma demo_login_run : nsteps demo_any 4 Sys_start demo_login.
Proof.
  eapply demo_more; [apply demo_asked_run|].
  exact (st_auth (pt := token_postcard) demo_registry (λ _, None) 1 demo_asked (demo_conn [TAuth demo_header None]) [] [] demo_header None demo_os true
    (demo_handle demo_auth State_default).1.1 (VerdictResp true, []) [] (VerdictResp true) [] [] eq_refl eq_refl eq_refl eq_refl).
Qed.

Lemma demo_serving_run : nsteps demo_any 5 Sys_start demo_serving.
Proof.
  eapply demo_more; [apply demo_login_run|].
  exact (st_serve (pt := token_postcard) demo_registry (λ _, None) 1 demo_login (demo_conn [TServe]) [] [] demo_os (Exec (lit "id")) (SpawnExec 1 (lit "id")) demo_state
    (Spawned 1, [10; 11; 12]) _ (Spawned 1) [10; 11; 12] [] eq_refl eq_refl eq_refl eq_refl eq_refl).
Qed.


Lemma close_is_final_witness :
  let st' := (demo_handle (Close 1) demo_state).1.1 in
  nothing 1 st' ∧ users demo_state !! 1 = Some (lit "bob").
Proof.
  intros st'. split; [|by vm_compute].
  set (cn := demo_conn [TSession 1]).
  set (s' := put 1 (mkConn false (cn_peer cn) (cn_binding cn) (cn_tasks cn)) st' [] demo_serving).
  apply (close_is_final (pt := token_postcard) demo_registry (λ _, None) demo_serving s' s' 1 cn
    (demo_handle (Close 1) demo_state).2 (run_reach (pt := token_postcard) demo_registry (λ _, None) 5 demo_serving demo_serving_run)).
  - reflexivity.
  - reflexivity.
  - constructor; [by intros (? & ? & ?)|constructor].
  - exact (st_end (pt := token_postcard) demo_registry (λ _, None) 1 demo_serving cn demo_os st' (demo_handle (Close 1) demo_state).1.2
      (demo_handle (Close 1) demo_state).2 eq_refl eq_refl eq_refl).
  - reflexivity.
  - apply rtc_refl.
Defined.

(** An attempt still waiting when the connection closes, and the monitor's answer
    afterwards: the identity is there and stays. *)
Lemma late_login_stays_witness :
  let cn := mkConn false (lit "peer") (repeat 0 32) [TAuth demo_header None] in
  let s := put 1 cn State_default [] demo_asked in
  let mon := (demo_handle demo_auth State_default).1.1 in
  demo_reachable s ∧ users mon !! 1 = Some (lit "bob") ∧
  (rtc demo_any (put 1 (with_tasks cn []) mon [] s) (put 1 (with_tasks cn []) mon [] s) →
   users mon !! 1 = Some (lit "bob")).
Proof.
  intros cn s mon.
  assert (demo_reachable s) as Hr.
  { eapply (reach_step _ _ 1); [eapply run_reach, demo_asked_run|].
    exact (st_end (pt := token_postcard) demo_registry (λ _, None) 1 demo_asked (demo_conn [TAuth demo_header None]) demo_os State_default
      (demo_handle (Close 1) State_default).1.2 (demo_handle (Close 1) State_default).2 eq_refl eq_refl eq_refl). }
  split_and!; [done|by vm_compute|].
  apply (late_login_stays (pt := token_postcard) demo_registry (λ _, None) s (put 1 (with_tasks cn []) mon [] s) 1 cn
    demo_header None demo_os mon [] [] (lit "bob") Hr eq_refl eq_refl eq_refl eq_refl); by vm_compute.
Defined.

(** ** An authentication abandoned half-way

    Connections 1 and 2 are both logged in and about to serve a channel; 1 asks once
    more, and its deadline drops the call after the request went out. *)
Definition demo_auth2 : Request :=
  Authenticate 2 demo_header (lit "other") (repeat 1 32) None.
Definition crossed_mon : State := (demo_handle demo_auth2 (demo_handle demo_auth State_default).1.1).1.1.
Definition crossed_mon1 : State := (demo_handle (SpawnExec 1 (lit "id")) crossed_mon).1.1.

(** Another process id for the second command. *)
Definition demo_os2 : Os :=
  mkOs (mkWorld 0 None 0 (λ _, None)) 0 0 (λ _, Some demo_user) (λ _, Some (8, [])) None
    (λ _, Some (mkSpawn 4343 20 21 22)) (λ _, None) (λ _, None).
Definition crossed_mon2 : State :=
  (handle (H0 := token_postcard) demo_registry (λ _, None) demo_os2 (SpawnExec 2 (lit "id")) crossed_mon1).1.1.

(** Both serving, the link in step; then 1's request abandoned, its answer left;
    then 1's command started, its descriptors left in turn; then 2's. *)
Definition crossed_asked2 : Sys := put 2 (demo_conn2 [TAuth demo_header None]) (sy_mon demo_login) [] demo_login.
Definition crossed_login2 : Sys := put 2 (demo_conn2 [TServe]) crossed_mon [] crossed_asked2.
Definition crossed_asked : Sys := put 1 (demo_conn [TServe; TAuth demo_header None]) crossed_mon [] crossed_login2.
Definition crossed_left : Sys := put 1 (demo_conn [TServe]) crossed_mon [(VerdictResp true, [])] crossed_asked.
Definition crossed_spawned1 : Sys := put 1 (demo_conn []) crossed_mon1 [(Spawned 1, [10; 11; 12])] crossed_left.
Definition crossed_spawned2 : Sys := put 2 (demo_conn2 [TSession 1]) crossed_mon2 [(Spawned 2, [20; 21; 22])] crossed_spawned1.

Lemma crossed_run : nsteps demo_any 10 Sys_start crossed_spawned2.
Proof.
  eapply demo_more; [eapply demo_more; [eapply demo_more; [eapply demo_more; [eapply demo_more; [eapply demo_more;
    [exact demo_login_run|]|]|]|]|]|].
  - exact (st_request (pt := token_postcard) demo_registry (λ _, None) 2 demo_login (demo_conn2 []) demo_header None eq_refl eq_refl).
  - exact (st_auth (pt := token_postcard) demo_registry (λ _, None) 2 crossed_asked2 (demo_conn2 [TAuth demo_header None]) [] []
      demo_header None demo_os true crossed_mon (VerdictResp true, []) [] (VerdictResp true) [] [] eq_refl eq_refl eq_refl eq_refl).
  - exact (st_request (pt := token_postcard) demo_registry (λ _, None) 1 crossed_login2 (demo_conn [TServe]) demo_header None eq_refl eq_refl).
  - refine (st_cancel (pt := token_postcard) demo_registry (λ _, None) 1 crossed_asked (demo_conn [TServe; TAuth demo_header None])
      [TServe] [] demo_header None demo_os crossed_mon (VerdictResp true, []) [] eq_refl eq_refl _). by vm_compute.
  - refine (st_serve (pt := token_postcard) demo_registry (λ _, None) 1 crossed_left (demo_conn [TServe]) [] [] demo_os (Exec (lit "id"))
      (SpawnExec 1 (lit "id")) crossed_mon1 (Spawned 1, [10; 11; 12]) _ (VerdictResp true) [] [(Spawned 1, [10; 11; 12])]
      eq_refl eq_refl eq_refl _ eq_refl). by vm_compute.
  - refine (st_serve (pt := token_postcard) demo_registry (λ _, None) 2 crossed_spawned1 (demo_conn2 [TServe]) [] [] demo_os2 (Exec (lit "id"))
      (SpawnExec 2 (lit "id")) crossed_mon2 (Spawned 2, [20; 21; 22]) _ (Spawned 1) [10; 11; 12] [(Spawned 2, [20; 21; 22])]
      eq_refl eq_refl eq_refl _ eq_refl). by vm_compute.
Qed.

(** One abandoned authentication is enough to cross two clients. In a run where
    every step is one the server can make, connection 2 asks for a command and
    obtains the session, and the descriptors, of the command connection 1 asked
    for; when it reaps it, the process killed is connection 1's. *)
Theorem abandoned_call_crosses_clients :
  nsteps demo_any 10 Sys_start crossed_spawned2 ∧ ¬ in_step crossed_spawned2 ∧
  cn_tasks <$> sy_conns crossed_spawned2 !! 2 = Some [TSession 1] ∧
  owned (conn_sessions (sy_mon crossed_spawned2)) 1 = [1] ∧ owned (conn_sessions (sy_mon crossed_spawned2)) 2 = [2] ∧
  ∃ effects s', demo_step 2 crossed_spawned2 effects s' ∧
    ¬ Forall (own_effect (sy_mon crossed_spawned2) 2 effects) effects ∧
    sessions (sy_mon s') !! 1 = None ∧ is_Some (sessions (sy_mon crossed_spawned2) !! 1).
Proof.
  set (effects := (demo_handle (Reap 1) crossed_mon2).2).
  assert (EWait 4242 ∈ effects) as He by (vm_compute; by repeat (left || right)).
  split_and!; [exact crossed_run|done|done|by vm_compute|by vm_compute|].
  exists effects, (put 2 (demo_conn2 []) (demo_handle (Reap 1) crossed_mon2).1.1 [(Exited (-1), [])] crossed_spawned2).
  split_and!.
  - refine (st_reap (pt := token_postcard) demo_registry (λ _, None) 2 crossed_spawned2 (demo_conn2 [TSession 1]) [] [] demo_os 1
      _ (Exited (-1), []) effects eq_refl eq_refl _). by vm_compute.
  - rewrite Forall_forall. intros Hf. destruct (Hf _ He) as [(id & child & Hid & Hs & Hp)|[]].
    vm_compute in Hid. apply list_elem_of_singleton in Hid as ->. vm_compute in Hs. injection Hs as <-. discriminate Hp.
  - by vm_compute.
  - vm_compute. by eexists.
Qed.

End System.
