(* ===== verification/Config.v ===== *)
(** * Config: what the server's command line and configuration file ask for

    [quish-server/src/config.rs], and [main] and [run_dev] of
    [quish-server/src/main.rs] up to the point where a role takes over. Parsing
    the command line (clap) and TOML are parameters. *)
From S2P Require Import Prelude RustStr Postcard Base64 Proto Net Ipc Auth Totp Pubkey Oidc Challenge Privdrop Monitor Login Transport.
Import Auth.

Module Config.

(** ** [config.rs] *)

(** The [oidc] table, as written in the file. *)
Record OidcTable := mkOidcTable {
  t_issuer : str;
  t_audience : str;
  t_jwks_file : str;
  t_user_claim : option str;
  t_max_token_age_secs : option Z;
}.

Definition into_backend (t : OidcTable) : Oidc.OidcConfig :=
  Oidc.mkOidc (t_issuer t) (t_audience t) (t_jwks_file t)
    (default Oidc.DEFAULT_USER_CLAIM (t_user_claim t))
    (default Oidc.DEFAULT_MAX_TOKEN_AGE_SECS (t_max_token_age_secs t)).

Record FileConfig := mkFile {
  f_listen : option SocketAddr;
  f_path : option str;
  f_privsep_user : option str;
  f_privsep_dir : option str;
  f_host_key : option str;
  f_max_auth_fails : option Z;
  f_allow_forward : option bool;
  f_allow_remote_forward : option bool;
  f_no_seccomp : option bool;
  f_totp : option bool;
  f_allow_users : option (list str);
  f_deny_users : option (list str);
  f_oidc : option OidcTable;
}.

Definition FileConfig_default : FileConfig :=
  mkFile None None None None None None None None None None None None None.

Inductive StartError := ArgsRejected | ReadConfig | ParseConfig | BadBase32 | NoHome.

#[global] Instance starterror_eq_dec : EqDecision StartError.
Proof. solve_decision. Defined.

(** ** The command line *)
Record Args := mkArgs {
  a_config : option str;
  a_listen : option SocketAddr;
  a_path : option str;
  a_dev_insecure_user : option str;
  a_dev_insecure_totp_secret : option str;
  a_totp : bool;
  a_privsep_dir : option str;
  a_privsep_user : option str;
  a_host_key : option str;
  a_max_auth_fails : option Z;
  a_allow_forward : bool;
  a_allow_remote_forward : bool;
  a_no_seccomp : bool;
  a_allow_users : list str;
  a_deny_users : list str;
  a_internal_worker : bool;
  a_internal_run_session : bool;
}.

(** What [run_dev] is given. *)
Record DevConfig := mkDevConfig {
  d_listen : SocketAddr;
  d_path : str;
  d_user : str;
  d_totp_secret : option str;
  d_max_auth_fails : Z;
  d_allow_forward : bool;
  d_allow_remote_forward : bool;
  d_policy : UserPolicy;
  d_oidc : option Oidc.OidcConfig;
}.

(** [monitor::Config]. *)
Record MonitorConfig := mkMonitor {
  c_listen : SocketAddr;
  c_path : str;
  c_chroot_dir : str;
  c_worker_user : str;
  c_host_key : option str;
  c_max_auth_fails : Z;
  c_allow_forward : bool;
  c_allow_remote_forward : bool;
  c_no_seccomp : bool;
  c_totp : bool;
  c_policy : UserPolicy;
  c_oidc : option Oidc.OidcConfig;
}.

(** The role the process takes. *)
Inductive Launch :=
| RunSession
| RunWorker
| RunDev (d : DevConfig)
| RunMonitor (c : MonitorConfig).

(** [a.or(b)]. *)
Definition or {A} (a b : option A) : option A := match a with Some _ => a | None => b end.

(** [::]:4433, all interfaces. *)
Definition DEFAULT_LISTEN : SocketAddr := mkSocketAddr (V6 0) 4433.

Definition user_list (cli : list str) (file : option (list str)) : list str :=
  if bool_decide (cli = []) then default [] file else cli.

Definition merge (args : Args) (file : FileConfig) : Launch :=
  let listen := default DEFAULT_LISTEN (or (a_listen args) (f_listen file)) in
  let path := default DEFAULT_PATH (or (a_path args) (f_path file)) in
  let max_auth_fails := default Transport.DEFAULT_MAX_AUTH_FAILS (or (a_max_auth_fails args) (f_max_auth_fails file)) in
  let allow_forward := a_allow_forward args || default false (f_allow_forward file) in
  let allow_remote_forward := a_allow_remote_forward args || default false (f_allow_remote_forward file) in
  let policy := mkPolicy (user_list (a_allow_users args) (f_allow_users file))
                         (user_list (a_deny_users args) (f_deny_users file)) in
  let oidc := into_backend <$> f_oidc file in
  match a_dev_insecure_user args with
  | Some dev_user =>
      RunDev (mkDevConfig listen path dev_user (a_dev_insecure_totp_secret args) max_auth_fails
                allow_forward allow_remote_forward policy oidc)
  | None =>
      RunMonitor (mkMonitor listen path
        (default (lit "/run/quishd") (or (a_privsep_dir args) (f_privsep_dir file)))
        (default (lit "quish") (or (a_privsep_user args) (f_privsep_user file)))
        (or (a_host_key args) (f_host_key file)) max_auth_fails allow_forward allow_remote_forward
        (a_no_seccomp args || default false (f_no_seccomp file))
        (a_totp args || default false (f_totp file)) policy oidc)
  end.

Section Main.
(** [Args::parse] ([None]: it exits), [toml::from_str], [read_to_string]. *)
Variable parse : list str → option Args.
Variable toml : str → option FileConfig.
Variable read : str → option str.

Definition load (path : str) : result StartError FileConfig :=
  text ← ok_or ReadConfig (read path); ok_or ParseConfig (toml text).

Definition file_of (args : Args) : result StartError FileConfig :=
  match a_config args with Some p => load p | None => Ok FileConfig_default end.

(** [main]. The session helper is recognised before anything is parsed. *)
Definition main (argv : list str) : result StartError Launch :=
  if existsb (λ a, bool_decide (a = lit "--internal-run-session")) argv then Ok RunSession
  else
    args ← ok_or ArgsRejected (parse argv);
    if a_internal_worker args then Ok RunWorker
    else file ← file_of args; Ok (merge args file).

End Main.

(** ** The registries the two serving roles authenticate against *)
Section Registries.
Context {b64 : Base64} {pt : Postcard Token}.
Variables (from_openssh : str → option (option bytes)) (vk_ok : bytes → bool) (ed_verify : bytes → bytes → bytes → bool).
Variable hmac_sha1 : bytes → bytes → bytes.
Variable base32_decode : str → option bytes.
Variables (Ctx : Type) (pam_ctx : str → str → str → option Ctx) (pam_auth pam_acct : Ctx → bool).
Variables (Value Jwk DecodingKey : Type) (get : Value → str → option Value) (as_u64 : Value → option Z)
  (as_str : Value → option str) (parse_jwks : bytes → option (list Jwk)) (jwks_find : list Jwk → str → option Jwk)
  (from_jwk : Jwk → option DecodingKey) (decode_header : str → option (option str))
  (jwt_decode : World → Oidc.Validation → DecodingKey → str → option Value).
Variable from_name : str → option Privdrop.User.

Notation monitor_registry := (Login.build_registry from_openssh vk_ok ed_verify hmac_sha1 base32_decode Ctx pam_ctx
  pam_auth pam_acct Value Jwk DecodingKey get as_u64 as_str parse_jwks jwks_find from_jwk decode_header jwt_decode
  from_name).
Notation oidc_dyn := (Login.oidc_dyn Value Jwk DecodingKey get as_u64 as_str parse_jwks jwks_find from_jwk
  decode_header jwt_decode).

Definition authorized_keys_path (home : option str) : result StartError str :=
  h ← ok_or NoHome home; Ok (Login.path_join h (lit ".config/quish/authorized_keys")).

(** The password backend of development mode. *)
Definition dev_password (dev_user : str) (dev_totp_secret : option str) : result StartError DynBackend :=
  match dev_totp_secret with
  | Some b32 =>
      secret ← ok_or BadBase32 (Totp.decode_base32_secret base32_decode b32);
      Ok (Dyn (H := Totp.totp_backend hmac_sha1) (Totp.TotpBackend_new (Dyn (mkDev dev_user)) (λ _ _, Some secret)))
  | None => Ok (Dyn (mkDev dev_user))
  end.

(** The registry [run_dev] serves with. *)
Definition dev_registry (home : option str) (d : DevConfig) : result StartError Registry :=
  password ← dev_password (d_user d) (d_totp_secret d);
  keys ← authorized_keys_path home;
  let pubkey := Dyn (H := Pubkey.pubkey_backend from_openssh vk_ok ed_verify) (Pubkey.PubkeyBackend_new keys) in
  Ok (mkRegistry ([password; pubkey] ++ match d_oidc d with Some o => [oidc_dyn o] | None => [] end)
        Login.FAIL_DELAY (d_policy d)).

(** The registry of a process in a serving role. *)
Definition registry_of (home : option str) (l : Launch) : option (result StartError Registry) :=
  match l with
  | RunDev d => Some (dev_registry home d)
  | RunMonitor c => Some (Ok (monitor_registry (c_totp c) (c_policy c) (c_oidc c)))
  | RunSession | RunWorker => None
  end.

(** ** Theorems *)

(** What the operator asked for, wherever it was said. *)
Definition wants_second_factor (args : Args) (file : FileConfig) : Prop :=
  match a_dev_insecure_user args with
  | Some _ => is_Some (a_dev_insecure_totp_secret args)
  | None => a_totp args = true ∨ f_totp file = Some true
  end.

(** A registry whose password backend is the second-factor one, when wanted. *)
Definition registry_ok (policy : UserPolicy) (second : bool) (oidc : option Oidc.OidcConfig) (r : Registry) : Prop :=
  Auth.policy r = policy ∧
  ∀ creds b, List.find (λ b, dyn_supports b creds) (backends r) = Some b →
    match creds with
    | Password _ _ =>
        second = true → ∃ t, b = Dyn (H := Totp.totp_backend hmac_sha1) t
    | SignedToken _ => True
    | Jwt _ => is_Some oidc
    end.

Lemma monitor_registry_ok totp policy oidc :
  registry_ok policy totp oidc (monitor_registry totp policy oidc).
Proof using Type.
  split; [done|]. intros creds b Hf. apply Login.build_registry_find in Hf.
  destruct creds; [|done|naive_solver]. intros ->. simpl in Hf. subst b. by eexists.
Qed.

Lemma dev_registry_ok home d r :
  dev_registry home d = Ok r →
  registry_ok (d_policy d) (bool_decide (is_Some (d_totp_secret d))) (d_oidc d) r.
Proof using Type.
  unfold dev_registry, dev_password. intros Hr.
  destruct (d_totp_secret d) as [b32|] eqn:Es; [destruct (Totp.decode_base32_secret _ _) as [secret|]; [|done]|];
    (destruct (authorized_keys_path home) as [keys|]; [|done]); injection Hr as <-;
    (split; [done|]); intros creds b Hf; destruct creds; try done; cbn in Hf.
  - intros _. injection Hf as <-. by exists (Totp.TotpBackend_new (Dyn (mkDev (d_user d))) (λ _ _, Some secret)).
  - destruct (d_oidc d); [done|discriminate].
  - destruct (d_oidc d); [done|discriminate].
Qed.

(** An allowed user is one the policy permits. *)
Lemma verdict_permits r w auth conn u : verdict r w auth conn = Allow u → permits (policy r) u = true.
Proof using Type.
  unfold verdict. destruct (match parse_authorization auth with Some _ => _ | None => Deny end); [|done..].
  destruct (permits (policy r) _) eqn:E; intros [= ->]. done.
Qed.

(** The registry a merged configuration serves with. *)
Lemma merge_registry args file home r :
  registry_of home (merge args file) = Some (Ok r) →
  ∃ second oidc,
    registry_ok (mkPolicy (user_list (a_allow_users args) (f_allow_users file))
                   (user_list (a_deny_users args) (f_deny_users file))) second oidc r
    ∧ (wants_second_factor args file → second = true) ∧ (is_Some oidc → is_Some (f_oidc file)).
Proof using Type.
  unfold merge, wants_second_factor. intros Hr.
  destruct (a_dev_insecure_user args) as [dev|]; simpl in Hr; injection Hr as Hr.
  - apply dev_registry_ok in Hr. simpl in Hr. do 2 eexists. split; [exact Hr|].
    split; [intros; by apply bool_decide_eq_true|by intros ?%fmap_is_Some].
  - subst r. do 2 eexists. split; [apply monitor_registry_ok|].
    split; [|by intros ?%fmap_is_Some]. intros [->|Ht]; [done|]. rewrite Ht. apply orb_true_r.
Qed.

Lemma user_list_spec (P : list str → Prop) cli file :
  P (user_list cli file) ↔ (cli ≠ [] → P cli) ∧ (cli = [] → P (default [] file)).
Proof using Type. unfold user_list. case_bool_decide; naive_solver. Qed.

(** C22: the operator's policy reaches every login. Whether the server starts in
    development mode or as a monitor, the registry it serves with allows a
    user only for a credential it can parse, and then: no [--deny-user] names the
    user, nor, without such a flag, the file's [deny_users]; the [--allow-user]s,
    or without them a non-empty [allow_users] of the file, name the user; when
    either asks for the second factor ([--totp] or [totp = true], in development
    mode [--dev-insecure-totp-secret]), a password alone never suffices; and a
    JWT needs the file's [oidc] table. *)
Theorem launch_policy (parse : list str → option Args) (toml : str → option FileConfig) (read : str → option str)
    (argv : list str) (home : option str) (l : Launch) (r : Registry) (w : World) (auth : option str)
    (conn : ConnInfo) (u : str) :
  main parse toml read argv = Ok l → registry_of home l = Some (Ok r) → verdict r w auth conn = Allow u →
  ∃ args file creds,
    parse argv = Some args ∧ file_of toml read args = Ok file ∧ parse_authorization auth = Some creds ∧
    u ∉ a_deny_users args ∧ (a_deny_users args = [] → u ∉ default [] (f_deny_users file)) ∧
    (a_allow_users args ≠ [] → u ∈ a_allow_users args) ∧
    (a_allow_users args = [] → default [] (f_allow_users file) ≠ [] → u ∈ default [] (f_allow_users file)) ∧
    match creds with
    | Password _ _ => wants_second_factor args file → challenge conn ≠ None
    | SignedToken _ => True
    | Jwt _ => is_Some (f_oidc file)
    end.
Proof using Type.
  intros Hm Hr Hv. unfold main in Hm. destruct (existsb _ argv); [by simplify_eq/=|].
  destruct (parse argv) as [args|] eqn:Ea; [|done]. cbn in Hm.
  destruct (a_internal_worker args); [by simplify_eq/=|].
  destruct (file_of toml read args) as [file|] eqn:Ef; [|done]. injection Hm as <-.
  destruct (merge_registry args file home r Hr) as (second & oidc & [Hp Hb] & H2 & Ho).
  destruct (Login.verdict_backend _ _ _ _ _ Hv ltac:(done)) as (creds & b & Hc & Hf & Ha).
  pose proof (verdict_permits _ _ _ _ _ Hv) as [Hd Hal]%permits_spec. rewrite Hp in Hd, Hal. simpl in Hd, Hal.
  apply (user_list_spec (λ l, u ∉ l)) in Hd as [Hd1 Hd2].
  apply (user_list_spec (λ l, l = [] ∨ u ∈ l)) in Hal as [Hal1 Hal2].
  exists args, file, creds. split_and!; try done.
  - destruct (a_deny_users args); [apply not_elem_of_nil|by apply Hd1].
  - intros Hne. by destruct (Hal1 Hne).
  - intros He Hne. by destruct (Hal2 He).
  - specialize (Hb creds b Hf). destruct creds as [user pass| |]; [|done|by apply Ho].
    intros Hw Hnone. destruct (Hb (H2 Hw)) as [t ->]. simpl in Ha.
    unfold Totp.totp_authenticate in Ha. rewrite Hnone in Ha. discriminate.
Qed.

End Registries.

(** A flag can turn forwarding on, not off: the file's [true] stands. *)
Example flag_cannot_disable :
  ∀ args, match merge args (mkFile None None None None None None (Some true) None None None None None None) with
          | RunDev d => d_allow_forward d = true
          | RunMonitor c => c_allow_forward c = true
          | _ => False
          end.
Proof. intros args. unfold merge. by destruct (a_dev_insecure_user args); simpl; rewrite orb_true_r. Qed.

(** [quishd --dev-insecure-user bob --deny-user mallory --config f], [f] naming
    the users bob and alice. *)
Definition demo_args : Args :=
  mkArgs (Some (lit "f")) None None (Some (lit "bob")) None false None None None None false false false []
    [lit "mallory"] false false.

Definition demo_file : FileConfig :=
  mkFile None None None None None None None None None None (Some [lit "bob"; lit "alice"]) (Some [lit "carol"]) None.

Lemma launch_policy_witness :
  ∃ args file creds,
    Some demo_args = Some args ∧
    file_of (λ _, Some demo_file) (λ _, Some []) args = Ok file ∧
    parse_authorization (H0 := token_postcard) (Some (basic_header (lit "bob") (lit "pw"))) = Some creds ∧
    lit "bob" ∉ a_deny_users args ∧ (a_deny_users args = [] → lit "bob" ∉ default [] (f_deny_users file)) ∧
    (a_allow_users args ≠ [] → lit "bob" ∈ a_allow_users args) ∧
    (a_allow_users args = [] → default [] (f_allow_users file) ≠ [] → lit "bob" ∈ default [] (f_allow_users file)) ∧
    match creds with
    | Password _ _ => wants_second_factor args file → challenge Transport.demo_conn ≠ None
    | SignedToken _ => True
    | Jwt _ => is_Some (f_oidc file)
    end.
Proof.
  eapply (launch_policy (pt := token_postcard) (λ _, None) (λ _, false) (λ _ _ _, false) Totp.digest0 (λ s, Some s)
    bool (λ _ _ _, None) id (λ _, true) unit unit unit (λ _ _, None) (λ _, None) (λ _, None) (λ _, None) (λ _ _, None)
    (λ _, None) (λ _, None) (λ _ _ _ _, None) (λ _, None)
    (λ _, Some demo_args) (λ _, Some demo_file) (λ _, Some []) [lit "quishd"] (Some (lit "/root")) _ _
    (mkWorld 0 None 0 (λ _, None)) (Some (basic_header (lit "bob") (lit "pw"))) Transport.demo_conn (lit "bob")).
  - reflexivity.
  - reflexivity.
  - vm_compute. reflexivity.
Defined.

End Config.
