(* ===== verification/Startup.v ===== *)
(** * Startup: how the monitor and the worker come up

    [run], [host_identity] and [prepare_socket_dir] of
    [quish-server/src/monitor.rs], and [run] of [quish-server/src/worker.rs]. A
    program is a function of the trace of events so far, as in [Privdrop]: every
    call is answered by the operating system, which may take the whole trace
    into account. Serving requests is one call here; [Monitor] and [Transport]
    say what happens in it. *)
From S2P Require Import Prelude RustStr Postcard Base64 Proto Net Ipc Auth Privdrop Monitor Login Transport Config.
Import Ipc.

Module Startup.
Import Config.

(** ** Events *)

(** What [worker::run] is handed. *)
Record Worker := mkWorker {
  w_ctrl_path : str;
  w_sign_path : str;
  w_listen : SocketAddr;
  w_path : str;
  w_chroot_dir : str;
  w_user : str;
  w_scheme : Z;
  w_max_auth_fails : Z;
  w_allow_forward : bool;
  w_allow_remote_forward : bool;
  w_cert : bytes;
}.

(** Calls that succeed or fail. *)
Inductive Call :=
| Exists (p : Path)
| RemoveDirAll (p : Path)
| CreateDir (p : Path) (mode : Z)
| CreateDirAll (p : Path)
| WriteFile (p : Path) (contents : bytes)
| SetMode (p : Path) (mode : Z)
| BindStream (p : Path)
| BindSeqpacket (p : Path)
| CurrentExe
| BuildRuntime
| Spawn (arg : str) (env : Env)
| ServeControl
| Kill
| Wait
| ConnectSeqpacket (p : Path)
| ConnectStream (p : Path)
| BindUdp (addr : SocketAddr)
| BuildEndpoint (scheme : Z) (cert : bytes)
| ServeQuic (w : Worker).

(** An event with its answer: [Stat] gives the owner and whether it is a
    directory, a link not being followed. *)
Inductive Event :=
| Done (c : Call) (ok : bool)
| Stat (p : Path) (meta : option (Z * bool))
| Read (p : Path) (contents : option bytes)
| Priv (s : Privdrop.Sys) (a : Privdrop.Answer).

Abbreviation trace := (list Event).

Record Os := mkOs {
  os_do : trace → Call → bool;
  os_stat : trace → Path → option (Z * bool);
  os_read : trace → Path → option bytes;
  os_priv : trace → Privdrop.Sys → Privdrop.Answer;
}.

Inductive Error :=
| CallFailed (c : Call)
| StatFailed (p : Path)
| ReadFailed (p : Path)
| UntrustedDir (p : Path)
| NotRootOwned (p : Path)
| GenerateFailed
| BadHostKey
| NulInEnv
| EnvError (e : Ipc.EnvError)
| BadListen | BadScheme | BadMaxAuthFails | BadCert
| DropFailed (e : Privdrop.HelperError).

(** ** The monad *)
Definition M (A : Type) : Type := trace → trace * result Error A.

#[global] Instance M_ret : MRet M := λ A a tr, (tr, Ok a).
#[global] Instance M_bind : MBind M := λ A B f m tr,
  match m tr with
  | (tr, Ok a) => f a tr
  | (tr, Err e) => (tr, Err e)
  end.

Definition fail {A} (e : Error) : M A := λ tr, (tr, Err e).
Definition of_result {A} (r : result Error A) : M A := λ tr, (tr, r).

(** The result of a part, kept for later instead of propagated. *)
Definition attempt {A} (m : M A) : M (result Error A) := λ tr, let '(tr, r) := m tr in (tr, Ok r).

Section Programs.
Variable os : Os.

Definition call (c : Call) : M bool := λ tr, let b := os_do os tr c in (tr ++ [Done c b], Ok b).
Definition must (c : Call) : M unit := b ← call c; if b : bool then mret () else fail (CallFailed c).

Definition stat (p : Path) : M (Z * bool) := λ tr,
  let m := os_stat os tr p in (tr ++ [Stat p m], ok_or (StatFailed p) m).

Definition read (p : Path) : M bytes := λ tr,
  let b := os_read os tr p in (tr ++ [Read p b], ok_or (ReadFailed p) b).

(** A program of [Privdrop], its system calls among the other events. *)
Definition priv {A} (m : (Privdrop.trace → Privdrop.Sys → Privdrop.Answer) → Privdrop.M A) : M A := λ tr,
  let events (ptr : Privdrop.trace) := (λ e, Priv e.1 e.2) <$> ptr in
  let '(ptr, r) := m (λ ptr s, os_priv os (tr ++ events ptr) s) [] in
  (tr ++ events ptr, match r with Ok a => Ok a | Err e => Err (DropFailed e) end).

(** ** The host's identity *)

(** [rcgen]: a fresh certificate and the bytes of its key. *)
Variable generate : trace → option (bytes * bytes).

Definition generate_identity : M (bytes * bytes) := λ tr, (tr, ok_or GenerateFailed (generate tr)).

(** The certificate and the key. *)
Definition host_identity (path : option str) : M (bytes * bytes) :=
  match path with
  | None => generate_identity
  | Some path =>
      let path := path_of path in
      let cert_path := with_extension (lit "crt") path in
      have_key ← call (Exists path);
      have_cert ← if have_key : bool then call (Exists cert_path) else mret false;
      if have_cert : bool then
        key ← read path;
        cert ← read cert_path;
        mret (cert, key)
      else
        '(cert, key) ← generate_identity;
        match parent path with
        | Some dir => call (CreateDirAll dir);; mret ()
        | None => mret ()
        end;;
        must (WriteFile path key);;
        must (SetMode path 384);;
        must (WriteFile cert_path cert);;
        mret (cert, key)
  end.

(** ** The socket directory *)

(** [std::process::id]. *)
Variable pid : Z.

Definition socket_dir_for (chroot_dir : str) : str :=
  trim_end_matches (λ c, c =? 47) chroot_dir ++ lit ".sock.d-" ++ show_uint pid.

Definition prepare_socket_dir (dir : str) : M unit :=
  let p := path_of dir in
  there ← call (Exists p);
  (if there : bool then
     '(uid, is_dir) ← stat p;
     if negb (uid =? 0) || negb is_dir then fail (UntrustedDir p)
     else must (RemoveDirAll p)
   else mret ());;
  must (CreateDir p 448);;
  '(uid, _) ← stat p;
  if negb (uid =? 0) then fail (NotRootOwned p) else mret ().

(** ** The handoff to the worker *)
Context {b64 : Base64}.
(** [SocketAddr]'s [to_string] and [parse]. *)
Variables (show_addr : SocketAddr → str) (parse_addr : str → option SocketAddr).

(** [u16::from(SignatureScheme::ECDSA_NISTP256_SHA256)]. *)
Definition SIGN_SCHEME : Z := 1027.

Definition show_bool (b : bool) : str := if b then lit "true" else lit "false".

(** The variables set on the worker's command. *)
Definition worker_vars (cfg : MonitorConfig) (ctrl_path sign_path : str) (cert : bytes) : list (str * str) :=
  [(ENV_CTRL_PATH, ctrl_path); (ENV_SIGN_PATH, sign_path); (ENV_LISTEN, show_addr (c_listen cfg));
   (ENV_PATH, c_path cfg); (ENV_CHROOT, c_chroot_dir cfg); (ENV_USER, c_worker_user cfg);
   (ENV_SIGN_SCHEME, show_uint SIGN_SCHEME); (ENV_MAX_AUTH_FAILS, show_uint (c_max_auth_fails cfg));
   (ENV_ALLOW_FORWARD, show_bool (c_allow_forward cfg));
   (ENV_ALLOW_REMOTE_FORWARD, show_bool (c_allow_remote_forward cfg));
   (ENV_NO_SECCOMP, show_bool (c_no_seccomp cfg)); (ENV_CERT, b64_encode cert)].

(** The environment of the child: the monitor's own, with those set. *)
Variable parent_env : Env.

Definition worker_env (vars : list (str * str)) : Env :=
  foldl (λ m kv, <[kv.1 := utf8 kv.2]> m) parent_env vars.

(** [Command::spawn] refuses a NUL in a variable. *)
Definition spawn_worker (vars : list (str * str)) : M unit :=
  if existsb (λ kv, contains 0 kv.2) vars then fail NulInEnv
  else must (Spawn (lit "--internal-worker") (worker_env vars)).

(** ** The monitor *)

(** [any_supported_type] takes the key. *)
Variable key_ok : bytes → bool.

(** The block on the runtime: the control socket, the worker, the service. *)
Definition launch_and_serve (cfg : MonitorConfig) (ctrl_path sign_path : str) (cert : bytes) : M unit :=
  must (BindSeqpacket (path_of ctrl_path));;
  spawn_worker (worker_vars cfg ctrl_path sign_path cert);;
  result ← attempt (must ServeControl);
  call Kill;;
  call Wait;;
  of_result result.

Definition monitor_run (cfg : MonitorConfig) : M unit :=
  '(cert, key) ← host_identity (c_host_key cfg);
  (if key_ok key then mret () else fail BadHostKey);;
  let sock_dir := socket_dir_for (c_chroot_dir cfg) in
  prepare_socket_dir sock_dir;;
  let ctrl_path := Login.path_join sock_dir (lit "ctrl") in
  let sign_path := Login.path_join sock_dir (lit "sign") in
  must (BindStream (path_of sign_path));;
  must CurrentExe;;
  must BuildRuntime;;
  result ← attempt (launch_and_serve cfg ctrl_path sign_path cert);
  call (RemoveDirAll (path_of sock_dir));;
  of_result result.

(** ** The worker *)
Definition env_of (m : Env) (key : str) : result Error str :=
  match env m key with Ok v => Ok v | Err e => Err (EnvError e) end.

Definition worker_settings (m : Env) : result Error Worker :=
  ctrl_path ← env_of m ENV_CTRL_PATH;
  sign_path ← env_of m ENV_SIGN_PATH;
  listen ← env_of m ENV_LISTEN;
  listen ← ok_or BadListen (parse_addr listen);
  path ← env_of m ENV_PATH;
  chroot_dir ← env_of m ENV_CHROOT;
  worker_user ← env_of m ENV_USER;
  scheme ← env_of m ENV_SIGN_SCHEME;
  scheme ← ok_or BadScheme (parse_uint 16 scheme);
  max_auth_fails ← env_of m ENV_MAX_AUTH_FAILS;
  max_auth_fails ← ok_or BadMaxAuthFails (parse_uint 32 max_auth_fails);
  cert ← env_of m ENV_CERT;
  cert ← ok_or BadCert (b64_decode cert);
  Ok (mkWorker ctrl_path sign_path listen path chroot_dir worker_user scheme max_auth_fails
        (env_bool m ENV_ALLOW_FORWARD) (env_bool m ENV_ALLOW_REMOTE_FORWARD) cert).

(** The passwd database. *)
Variable lookup_user : str → option Privdrop.User.

Definition worker_run (m : Env) : M unit :=
  w ← of_result (worker_settings m);
  must BuildRuntime;;
  must (ConnectSeqpacket (path_of (w_ctrl_path w)));;
  must (ConnectStream (path_of (w_sign_path w)));;
  must (BindUdp (w_listen w));;
  priv (λ pos, Privdrop.drop_to_worker pos lookup_user (w_chroot_dir w) (w_user w));;
  let enforce := negb (env_bool m ENV_NO_SECCOMP) in
  priv (λ pos, Privdrop.install_seccomp pos enforce);;
  must (BuildEndpoint (w_scheme w) (w_cert w));;
  must (ServeQuic w).

End Programs.

(** ** Lemmas *)
Section Calls.
Variable os : Os.

Lemma must_eq c tr : must os c tr = (tr ++ [Done c (os_do os tr c)],
                                     if os_do os tr c then Ok () else Err (CallFailed c)).
Proof. unfold must, call, mbind, M_bind. simpl. by destruct (os_do os tr c). Qed.
End Calls.

(** The variables read back from the environment they were set in. *)
Lemma worker_env_other (vars : list (str * str)) (m : Env) k :
  k ∉ vars.*1 → foldl (λ m kv, <[kv.1 := utf8 kv.2]> m) m vars !! k = m !! k.
Proof.
  revert m. induction vars as [|[k' v] vars IH]; intros m Hk; [done|]. simpl in *.
  apply not_elem_of_cons in Hk as [Hne Hk]. rewrite IH by done. by rewrite lookup_insert_ne.
Qed.

Lemma worker_env_lookup parent vars k v :
  NoDup vars.*1 → (k, v) ∈ vars → worker_env parent vars !! k = Some (utf8 v).
Proof.
  unfold worker_env. revert parent. induction vars as [|[k' v'] vars IH]; intros parent Hnd Hin;
    [by apply not_elem_of_nil in Hin|].
  simpl in *. apply NoDup_cons in Hnd as [Hk Hnd]. apply elem_of_cons in Hin as [[= -> ->]|Hin]; [|by apply IH].
  rewrite worker_env_other by done. by rewrite lookup_insert_eq.
Qed.

Lemma worker_env_var parent vars k v :
  NoDup vars.*1 → (k, v) ∈ vars → str_ok v → env_var (worker_env parent vars) k = Some v.
Proof.
  intros Hnd Hin Hv. unfold env_var. rewrite (worker_env_lookup _ _ _ _ Hnd Hin). by apply from_utf8_utf8.
Qed.

Lemma env_bool_show m k b : env_var m k = Some (show_bool b) → env_bool m k = b.
Proof. unfold env_bool. intros ->. by destruct b. Qed.

(** Membership in a literal list, by position. *)
Ltac find_here := first [by apply list_elem_of_here | apply list_elem_of_further; find_here].

Section Handoff.
Context {b64 : Base64} {b64ok : Base64Ok}.
Variables (show_addr : SocketAddr → str) (parse_addr : str → option SocketAddr).
Variables (parent_env : Env) (cfg : MonitorConfig).

(** A configuration of strings and a 32-bit cap, with an address that prints to
    what parses back to it. *)
Record cfg_ok : Prop := {
  ok_addr : parse_addr (show_addr (c_listen cfg)) = Some (c_listen cfg);
  ok_listen : str_ok (show_addr (c_listen cfg));
  ok_path : str_ok (c_path cfg);
  ok_chroot : str_ok (c_chroot_dir cfg);
  ok_user : str_ok (c_worker_user cfg);
  ok_fails : in_u 32 (c_max_auth_fails cfg);
}.

(** What the worker should be told. *)
Definition told (ctrl sign : str) (cert : bytes) : Worker :=
  mkWorker ctrl sign (c_listen cfg) (c_path cfg) (c_chroot_dir cfg) (c_worker_user cfg) SIGN_SCHEME
    (c_max_auth_fails cfg) (c_allow_forward cfg) (c_allow_remote_forward cfg) cert.

Lemma vars_keys ctrl sign cert : NoDup (worker_vars show_addr cfg ctrl sign cert).*1.
Proof using Type. apply (bool_decide_unpack _). vm_compute. exact I. Qed.

Lemma str_ok_digits s : Forall (λ c, 48 ≤ c ≤ 57) s → str_ok s.
Proof using Type. intros H. eapply Forall_impl; [exact H|]. intros c ?. unfold is_scalar. simpl in *. lia. Qed.

Lemma worker_handoff ctrl sign cert :
  cfg_ok → str_ok ctrl → str_ok sign → bytes_ok cert →
  let m := worker_env parent_env (worker_vars show_addr cfg ctrl sign cert) in
  worker_settings parse_addr m = Ok (told ctrl sign cert) ∧ env_bool m ENV_NO_SECCOMP = c_no_seccomp cfg.
Proof using b64ok.
  intros [Ha Hl Hp Hc Hu Hf] Hctrl Hsign Hcert m.
  assert (∀ k v, (k, v) ∈ worker_vars show_addr cfg ctrl sign cert → str_ok v → env_var m k = Some v) as Hv.
  { intros k v Hin Hok. apply worker_env_var; [apply vars_keys|done|done]. }
  assert (∀ k v, (k, v) ∈ worker_vars show_addr cfg ctrl sign cert → str_ok v → env_of m k = Ok v) as He.
  { intros k v Hin Hok. unfold env_of, env. by rewrite (Hv k v). }
  assert (∀ b, str_ok (show_bool b)) as Hb by (intros []; by_dec).
  assert (str_ok (b64_encode cert)) as Hc64.
  { eapply Forall_impl; [by apply b64_alphabet|]. intros c Hx. unfold is_scalar. unfold is_b64 in Hx. lia. }
  assert (str_ok (show_uint (c_max_auth_fails cfg))) by (apply str_ok_digits, show_uint_digits; unfold in_u in Hf; lia).
  split.
  - unfold worker_settings.
    rewrite (He ENV_CTRL_PATH ctrl), (He ENV_SIGN_PATH sign), (He ENV_LISTEN (show_addr (c_listen cfg))),
      (He ENV_PATH (c_path cfg)), (He ENV_CHROOT (c_chroot_dir cfg)), (He ENV_USER (c_worker_user cfg)),
      (He ENV_SIGN_SCHEME (show_uint SIGN_SCHEME)), (He ENV_MAX_AUTH_FAILS (show_uint (c_max_auth_fails cfg))),
      (He ENV_CERT (b64_encode cert)) by (find_here || done || by_dec).
    cbn [mbind result_bind]. rewrite Ha. cbn [ok_or mbind result_bind].
    rewrite !parse_show_uint by (done || by_dec). cbn [ok_or mbind result_bind].
    rewrite b64_roundtrip by done. cbn [ok_or mbind result_bind].
    rewrite (env_bool_show m ENV_ALLOW_FORWARD (c_allow_forward cfg)),
      (env_bool_show m ENV_ALLOW_REMOTE_FORWARD (c_allow_remote_forward cfg)); [done| |];
      (apply Hv; [find_here|done]).
  - apply env_bool_show. apply Hv; [find_here|done].
Qed.
End Handoff.

(** ** What the monitor's start-up leaves in the trace *)
Definition is_spawn (e : Event) : bool := match e with Done (Spawn _ _) _ => true | _ => false end.

Definition identity_event (e : Event) : Prop :=
  match e with
  | Done (Exists _ | CreateDirAll _ | WriteFile _ _ | SetMode _ _) _ | Read _ _ => True
  | _ => False
  end.

(** A socket directory only root can have made: nothing stood at its path, or a
    directory of root's that was removed whole; then it was created, exclusively
    and for its owner only, and found to be root's. *)
Definition private_dir (p : Path) (ev : trace) : Prop :=
  ∃ made, (ev = Done (Exists p) false :: made ∨
           ev = Done (Exists p) true :: Stat p (Some (0, true)) :: Done (RemoveDirAll p) true :: made)
    ∧ ∃ is_dir, made = [Done (CreateDir p 448) true; Stat p (Some (0, is_dir))].

Section MonitorTrace.
Context {b64 : Base64}.
Variables (os : Os) (generate : trace → option (bytes * bytes)) (pid : Z) (show_addr : SocketAddr → str).
Variables (parent_env : Env) (key_ok : bytes → bool).

Lemma host_identity_events path tr :
  ∃ ev, (host_identity os generate path tr).1 = tr ++ ev ∧ Forall identity_event ev.
Proof using Type.
  destruct path as [path|]; [|by exists []; rewrite app_nil_r].
  unfold host_identity, call, read, mbind, M_bind, mret, M_ret, generate_identity. cbn [fst snd ok_or].
  repeat (rewrite ?must_eq; case_match; simplify_eq/=);
    eexists; (split; [rewrite <- ?app_assoc; first [reflexivity | symmetry; apply app_nil_r]|]);
    repeat constructor.
Qed.

Lemma prepare_events dir tr :
  ∃ ev, (prepare_socket_dir os dir tr).1 = tr ++ ev ∧ Forall (λ e, is_spawn e = false) ev
    ∧ ((prepare_socket_dir os dir tr).2 = Ok tt → private_dir (path_of dir) ev).
Proof using Type.
  unfold prepare_socket_dir, must, call, stat, ok_or, mbind, M_bind, mret, M_ret, fail. cbn [fst snd].
  repeat (case_match; simplify_eq/=);
    eexists; (split; [rewrite <- ?app_assoc; cbn [app]; reflexivity|]); (split; [repeat constructor|]);
    try (intros [=]; fail); intros _; simplify_eq; bool_to_prop; destruct_and?; subst; eexists; (split; [by eauto|]); by eexists.
Qed.

Notation no_spawn := (Forall (λ e, is_spawn e = false)).

(** The block on the runtime: no worker, or one that is killed and awaited. *)
Lemma launch_events cfg ctrl sign cert tr :
  ∃ ev, (launch_and_serve os show_addr parent_env cfg ctrl sign cert tr).1 = tr ++ ev ∧
    (no_spawn ev ∨ ∃ (ok s k w : bool),
       ev = Done (BindSeqpacket (path_of ctrl)) true
         :: Done (Spawn (lit "--internal-worker") (worker_env parent_env (worker_vars show_addr cfg ctrl sign cert))) ok
         :: if ok then [Done ServeControl s; Done Kill k; Done Wait w] else []).
Proof using Type.
  unfold launch_and_serve, spawn_worker, attempt, of_result. set (vs := worker_vars _ _ _ _ _).
  unfold mbind, M_bind. rewrite must_eq. destruct (os_do os tr _); cbn [fst snd].
  2:{ eexists. split; [reflexivity|]. left. by repeat constructor. }
  destruct (existsb _ vs); cbn [fail fst]; [eexists; split; [reflexivity|]; left; by repeat constructor|].
  rewrite must_eq. destruct (os_do os _ (Spawn _ _)); cbn [fst snd].
  2:{ eexists. rewrite <- app_assoc. split; [reflexivity|]. right. by exists false, false, false, false. }
  rewrite must_eq. unfold call. cbn [fst snd].
  eexists. rewrite <- !app_assoc. split; [reflexivity|]. right. by eexists true, _, _, _.
Qed.

Notation sock_dir cfg := (socket_dir_for pid (c_chroot_dir cfg)).
Notation monitor_env cfg cert := (worker_env parent_env
  (worker_vars show_addr cfg (Login.path_join (sock_dir cfg) (lit "ctrl")) (Login.path_join (sock_dir cfg) (lit "sign")) cert)).

(** The events around the worker's start, and after it. *)
Definition around_spawn (cfg : MonitorConfig) (cert : bytes) (ok s k w d : bool) : trace :=
  [Done (BindStream (path_of (Login.path_join (sock_dir cfg) (lit "sign")))) true; Done CurrentExe true;
   Done BuildRuntime true; Done (BindSeqpacket (path_of (Login.path_join (sock_dir cfg) (lit "ctrl")))) true;
   Done (Spawn (lit "--internal-worker") (monitor_env cfg cert)) ok]
  ++ (if ok then [Done ServeControl s; Done Kill k; Done Wait w] else [])
  ++ [Done (RemoveDirAll (path_of (sock_dir cfg))) d].

Lemma monitor_events cfg :
  no_spawn (monitor_run os generate pid show_addr parent_env key_ok cfg []).1 ∨
  ∃ ident cert key prep ok s k w d,
    host_identity os generate (c_host_key cfg) [] = (ident, Ok (cert, key)) ∧ Forall identity_event ident ∧
    private_dir (path_of (sock_dir cfg)) prep ∧
    (monitor_run os generate pid show_addr parent_env key_ok cfg []).1 =
      ident ++ prep ++ around_spawn cfg cert ok s k w d.
Proof using Type.
  unfold monitor_run, attempt, of_result. unfold mbind, M_bind.
  destruct (host_identity_events (c_host_key cfg) []) as (ident & Hi & Hid). simpl in Hi.
  assert (no_spawn ident) as Hns by (eapply Forall_impl; [exact Hid|]; by intros [[]| | |] ?).
  destruct (host_identity _ _ _ _) as [tr1 [[cert key]|]] eqn:Eh; simpl in Hi; subst tr1; [|by left].
  destruct (key_ok key); cbn [mret M_ret fail fst]; [|by left].
  destruct (prepare_events (sock_dir cfg) ident) as (prep & Hp & Hps & Hpd).
  destruct (prepare_socket_dir _ _ _) as [tr2 [[]|]]; simpl in Hp, Hpd; subst tr2;
    [|left; by apply Forall_app].
  specialize (Hpd eq_refl).
  assert (no_spawn (ident ++ prep)) as Hns2 by by apply Forall_app.
  rewrite must_eq. destruct (os_do os _ _) eqn:E1; cbn [fst snd]; [|left; apply Forall_app; split; [done|by repeat constructor]].
  rewrite must_eq. destruct (os_do os _ CurrentExe) eqn:E2; cbn [fst snd];
    [|left; rewrite <- app_assoc; apply Forall_app; split; [done|by repeat constructor]].
  rewrite must_eq. destruct (os_do os _ BuildRuntime) eqn:E3; cbn [fst snd];
    [|left; rewrite <- !(app_assoc (ident ++ prep)); apply Forall_app; split; [done|by repeat constructor]].
  match goal with |- context [launch_and_serve _ _ _ _ ?c ?s ?ce ?t] =>
    destruct (launch_events cfg c s ce t) as (ev & Hl & Hev); destruct (launch_and_serve _ _ _ _ c s ce t) as [tr3 r3] end.
  simpl in Hl. subst tr3. unfold call. cbn [fst snd].
  destruct Hev as [Hev|(ok & s & k & w & ->)].
  - left. rewrite <- !(app_assoc (ident ++ prep)). repeat (apply Forall_app; split); try done; by repeat constructor.
  - right. eexists ident, cert, key, prep, ok, s, k, w, _. split_and!; [done..|].
    unfold around_spawn. rewrite <- !app_assoc. cbn [app]. by rewrite <- ?app_assoc.
Qed.

Lemma private_dir_no_spawn p ev : private_dir p ev → no_spawn ev.
Proof using Type. intros (made & [->| ->] & is_dir & ->); by repeat constructor. Qed.

(** The only start of a worker in such a trace. *)
Lemma around_spawn_in cfg cert ok s k w d arg env ok' :
  Done (Spawn arg env) ok' ∈ around_spawn cfg cert ok s k w d →
  ok' = ok ∧ arg = lit "--internal-worker" ∧ env = monitor_env cfg cert.
Proof using Type.
  unfold around_spawn. generalize (monitor_env cfg cert). intros m Hin.
  destruct ok; cbn [app] in Hin; repeat (apply elem_of_cons in Hin as [[=]|Hin]; try by subst);
    by apply not_elem_of_nil in Hin.
Qed.

(** Where a worker is started, in any trace of the monitor. *)
Lemma spawned (cfg : MonitorConfig) (tr : trace) (r : result Error unit) (arg : str) (env : Env)
    (ok : bool) :
  monitor_run os generate pid show_addr parent_env key_ok cfg [] = (tr, r) → Done (Spawn arg env) ok ∈ tr →
  ∃ ident cert key prep s k w d,
    host_identity os generate (c_host_key cfg) [] = (ident, Ok (cert, key)) ∧ Forall identity_event ident ∧
    private_dir (path_of (sock_dir cfg)) prep ∧
    arg = lit "--internal-worker" ∧ env = monitor_env cfg cert ∧
    tr = ident ++ prep ++ around_spawn cfg cert ok s k w d.
Proof using Type.
  intros Hr Hin. destruct (monitor_events cfg) as [Hns|(ident & cert & key & prep & ok' & s & k & w & d & Hh & Hid & Hp & Ht)];
    rewrite Hr in *; cbn [fst] in *.
  - by pose proof (proj1 (Forall_forall _ _) Hns _ Hin).
  - subst tr. apply elem_of_app in Hin as [Hin|Hin]; [by pose proof (proj1 (Forall_forall _ _) Hid _ Hin)|].
    apply elem_of_app in Hin as [Hin|Hin];
      [by pose proof (proj1 (Forall_forall _ _) (private_dir_no_spawn _ _ Hp) _ Hin)|].
    apply around_spawn_in in Hin as (-> & -> & ->). by exists ident, cert, key, prep, s, k, w, d.
Qed.

(** A worker is started only over sockets in a directory no one else could
    have made, and never outlives the monitor. For every operating system: if the
    monitor starts a worker, then before that, in this order, the host identity
    was read or made, the socket directory was prepared (nothing was at its path,
    or a directory of root's, which was removed; it was then created exclusively
    with mode 0700 and found to be root's) and both sockets were bound in it; the
    worker gets the variables of this configuration; and once serving ends, for
    whatever reason, the worker is killed and awaited and the directory removed. *)
Theorem worker_started_safely (cfg : MonitorConfig) (tr : trace) (r : result Error unit) (arg : str) (env : Env)
    (ok : bool) :
  monitor_run os generate pid show_addr parent_env key_ok cfg [] = (tr, r) → Done (Spawn arg env) ok ∈ tr →
  ∃ ident cert key prep s k w d,
    host_identity os generate (c_host_key cfg) [] = (ident, Ok (cert, key)) ∧ Forall identity_event ident ∧
    private_dir (path_of (sock_dir cfg)) prep ∧
    arg = lit "--internal-worker" ∧ env = monitor_env cfg cert ∧
    tr = ident ++ prep ++ around_spawn cfg cert ok s k w d.
Proof using Type. apply spawned. Qed.

End MonitorTrace.

(** ** The worker's start-up *)
Section WorkerTrace.
Context {b64 : Base64}.
Variables (os : Os) (parse_addr : str → option SocketAddr) (lookup_user : str → option Privdrop.User).

Definition is_serve (e : Event) : bool := match e with Done (ServeQuic _) _ => true | _ => false end.

Notation no_serve := (Forall (λ e, is_serve e = false)).
Notation on_trace ptr := ((λ e : Privdrop.Sys * Privdrop.Answer, Priv e.1 e.2) <$> ptr).

Lemma no_serve_priv (ptr : Privdrop.trace) : no_serve (on_trace ptr).
Proof using Type. apply Forall_fmap, Forall_forall. by intros []. Qed.

(** The events of a worker that serves. *)
Definition confined_worker (w : Worker) (user : Privdrop.User) (a : Privdrop.Answer) (enforce served : bool) : trace :=
  [Done BuildRuntime true; Done (ConnectSeqpacket (path_of (w_ctrl_path w))) true;
   Done (ConnectStream (path_of (w_sign_path w))) true; Done (BindUdp (w_listen w)) true]
  ++ on_trace ([(Privdrop.Chroot (w_chroot_dir w), Privdrop.Yes); (Privdrop.Chdir (lit "/"), Privdrop.Yes);
       (Privdrop.SetGroups [Privdrop.u_gid user], Privdrop.Yes); (Privdrop.SetGid (Privdrop.u_gid user), Privdrop.Yes);
       (Privdrop.SetUid (Privdrop.u_uid user), Privdrop.Yes); (Privdrop.NoNewPrivs, Privdrop.Yes);
       (Privdrop.PdeathSig, Privdrop.Yes); (Privdrop.SetUid 0, a)] : Privdrop.trace)
  ++ [Priv (Privdrop.ApplyFilter enforce Privdrop.WORKER_SYSCALLS) Privdrop.Yes]
  ++ [Done (BuildEndpoint (w_scheme w) (w_cert w)) true; Done (ServeQuic w) served].

(** Both confinements: the drop, when it succeeds, and the filter. *)
Lemma priv_drop dir name tr :
  ∃ ptr, (priv os (λ pos, Privdrop.drop_to_worker pos lookup_user dir name) tr).1 = tr ++ on_trace ptr ∧
    ((priv os (λ pos, Privdrop.drop_to_worker pos lookup_user dir name) tr).2 = Ok tt →
     ∃ user a, lookup_user name = Some user ∧ Privdrop.u_uid user ≠ 0 ∧ a ≠ Privdrop.Yes ∧
       ptr = [(Privdrop.Chroot dir, Privdrop.Yes); (Privdrop.Chdir (lit "/"), Privdrop.Yes);
              (Privdrop.SetGroups [Privdrop.u_gid user], Privdrop.Yes); (Privdrop.SetGid (Privdrop.u_gid user), Privdrop.Yes);
              (Privdrop.SetUid (Privdrop.u_uid user), Privdrop.Yes); (Privdrop.NoNewPrivs, Privdrop.Yes);
              (Privdrop.PdeathSig, Privdrop.Yes); (Privdrop.SetUid 0, a)]).
Proof using Type.
  unfold priv. set (pos := λ ptr s, os_priv os (tr ++ on_trace ptr) s).
  destruct (Privdrop.drop_to_worker pos lookup_user dir name []) as [ptr [[]|]] eqn:Ed; exists ptr; (split; [done|]);
    [|intros [=]].
  intros _. apply Privdrop.drop_to_worker_ok in Ed as (user & a & Hu & Huid & -> & Ha). by exists user, a.
Qed.

Lemma priv_seccomp enforce tr :
  ∃ x, priv os (λ pos, Privdrop.install_seccomp pos enforce) tr =
    (tr ++ [Priv (Privdrop.ApplyFilter enforce Privdrop.WORKER_SYSCALLS) x],
     match x with Privdrop.Yes => Ok tt
     | _ => Err (DropFailed (Privdrop.SysErr (Privdrop.ApplyFilter enforce Privdrop.WORKER_SYSCALLS))) end).
Proof using Type.
  exists (os_priv os (tr ++ []) (Privdrop.ApplyFilter enforce Privdrop.WORKER_SYSCALLS)).
  unfold priv, Privdrop.install_seccomp, Privdrop.must, Privdrop.call, mbind, Privdrop.M_bind. cbn [app fmap list_fmap].
  by destruct (os_priv os _ _).
Qed.

Lemma worker_events m w b :
  Done (ServeQuic w) b ∈ (worker_run os parse_addr lookup_user m []).1 →
  worker_settings parse_addr m = Ok w ∧
  ∃ user a, lookup_user (w_user w) = Some user ∧ Privdrop.u_uid user ≠ 0 ∧ a ≠ Privdrop.Yes ∧
    (worker_run os parse_addr lookup_user m []).1 = confined_worker w user a (negb (env_bool m ENV_NO_SECCOMP)) b.
Proof using Type.
  assert (∀ t w b, no_serve t → Done (ServeQuic w) b ∈ t → False) as Hno.
  { intros t w' a Ht Ha. by pose proof (proj1 (Forall_forall _ _) Ht _ Ha). }
  unfold worker_run, of_result. unfold mbind, M_bind.
  destruct (worker_settings parse_addr m) as [w'|]; [|by intros ?%not_elem_of_nil].
  do 4 (rewrite must_eq; match goal with |- context [if ?b then _ else _] => destruct b eqn:? end; cbn [fst snd];
    [|intros Hin; exfalso; eapply Hno; [|exact Hin]; by repeat constructor]).
  set (tr := ((([] ++ _) ++ _) ++ _) ++ _). assert (no_serve tr) as Htr by by repeat constructor.
  destruct (priv_drop (w_chroot_dir w') (w_user w') tr) as (ptr & Hp & Hok).
  destruct (priv os _ tr) as [tr1 [[]|]]; cbn [fst snd] in *; subst tr1;
    [|intros Hin; exfalso; eapply Hno; [|exact Hin]; apply Forall_app; split; [done|apply no_serve_priv]].
  destruct (Hok eq_refl) as (user & a & Hu & Huid & Ha & Hptr). pose proof (no_serve_priv ptr) as Hdrop.
  destruct (priv_seccomp (negb (env_bool m ENV_NO_SECCOMP)) (tr ++ on_trace ptr)) as [x ->].
  destruct x; cbn [fst snd];
    [|intros Hin; exfalso; eapply Hno; [|exact Hin]; repeat (apply Forall_app; split); try done; by repeat constructor..].
  rewrite must_eq. destruct (os_do os _ (BuildEndpoint _ _)); cbn [fst snd];
    [|intros Hin; exfalso; eapply Hno; [|exact Hin]; repeat (apply Forall_app; split); try done; by repeat constructor].
  rewrite must_eq. cbn [fst]. set (served := os_do os _ (ServeQuic w')). clearbody served.
  intros Hin. assert (w' = w ∧ served = b) as [-> ->].
  { apply elem_of_app in Hin as [Hin|Hin].
    - exfalso. eapply Hno; [|exact Hin]. repeat (apply Forall_app; split); try done; by repeat constructor.
    - apply list_elem_of_singleton in Hin. by simplify_eq. }
  split; [done|]. exists user, a. split_and!; [done..|]. unfold confined_worker. subst ptr tr.
  rewrite <- !app_assoc. reflexivity.
Qed.
End WorkerTrace.

(** ** The host key over restarts *)

(** The events of the program that may change the file at [p]. *)
Definition touches (p : Path) (e : Event) : bool :=
  match e with
  | Done (WriteFile q _) _ => bool_decide (q = p)
  | Done (RemoveDirAll q) _ => bool_decide (absolute q = absolute p ∧ comps q `prefix_of` comps p)
  | _ => false
  end.

(** [files] is what each path holds after a trace: a write that succeeds puts its
    bytes there, a read that succeeds gives what is there. Of existence checks
    nothing is said: [Path::exists] is false when the stat fails. *)
Record file_system (files : trace → Path → option bytes) (os : Os) : Prop := {
  fs_write tr p b : os_do os tr (WriteFile p b) = true → files (tr ++ [Done (WriteFile p b) true]) p = Some b;
  fs_read tr p b : os_read os tr p = Some b → files tr p = Some b;
}.

(** From [tr] to [tr'] no one else changes or removes the file at [p]. *)
Definition left_alone (files : trace → Path → option bytes) (p : Path) (tr tr' : trace) : Prop :=
  ∀ pre e, tr `prefix_of` pre → pre ++ [e] `prefix_of` tr' → touches p e = false → files (pre ++ [e]) p = files pre p.

Lemma left_alone_app files p tr mid ev tr' :
  left_alone files p tr tr' → tr `prefix_of` mid → mid ++ ev `prefix_of` tr' →
  Forall (λ e, touches p e = false) ev → files (mid ++ ev) p = files mid p.
Proof.
  intros Ha Hm Hp Hev. revert mid Hm Hp. induction Hev as [|e ev He Hev IH]; intros mid Hm Hp; [by rewrite app_nil_r|].
  change (e :: ev) with ([e] ++ ev) in *. rewrite app_assoc in *.
  rewrite IH; [|by apply prefix_app_r|done]. apply Ha; [done| |done]. etrans; [|exact Hp]. by apply prefix_app_r.
Qed.

Section Persistence.
Context (files : trace → Path → option bytes) (os : Os) (Hos : file_system files os).
Variable path : str.

Notation key_path := (path_of path).
Notation crt_path := (with_extension (lit "crt") (path_of path)).

(** The two files, on the disk. *)
Definition on_disk (tr : trace) (cert key : bytes) : Prop :=
  files tr key_path = Some key ∧ files tr crt_path = Some cert.

(** A step that touches neither. *)
Definition quiet (e : Event) : Prop := touches key_path e = false ∧ touches crt_path e = false.

Lemma on_disk_quiet tr mid ev tr' cert key :
  left_alone files key_path tr tr' → left_alone files crt_path tr tr' →
  tr `prefix_of` mid → mid ++ ev `prefix_of` tr' → Forall quiet ev →
  on_disk mid cert key → on_disk (mid ++ ev) cert key.
Proof using Type.
  intros Hk Hc Hm Hp [H1 H2]%Forall_and [E1 E2]. unfold on_disk.
  by rewrite (left_alone_app _ _ tr mid ev tr' Hk), (left_alone_app _ _ tr mid ev tr' Hc).
Qed.

(** The start that loads: nothing but reads. *)
Lemma identity_loaded tr tr' cert key r generate :
  left_alone files key_path tr tr' → left_alone files crt_path tr tr' → on_disk tr cert key →
  os_do os tr (Exists key_path) = true →
  os_do os (tr ++ [Done (Exists key_path) true]) (Exists crt_path) = true →
  host_identity os generate (Some path) tr = (tr', r) →
  (r = Ok (cert, key) ∨ ∃ p, r = Err (ReadFailed p)) ∧ ∃ ev, tr' = tr ++ ev ∧ Forall quiet ev.
Proof using Hos.
  intros Hk Hc Hd E1 E2 H. unfold host_identity, call, read, mbind, M_bind, mret, M_ret in H. cbn [fst snd] in H.
  rewrite E1 in H. cbn [fst snd] in H. rewrite E2 in H. cbn [fst snd] in H.
  set (tr0 := (tr ++ [_]) ++ [_]) in H.
  assert (∀ x, quiet (Read key_path x)) as Q1 by done. assert (∀ x, quiet (Read crt_path x)) as Q2 by done.
  assert (tr0 = tr ++ [Done (Exists key_path) true; Done (Exists crt_path) true]) as Htr0 by (unfold tr0; by rewrite <- app_assoc).
  clearbody tr0.
  assert (tr0 `prefix_of` tr' → on_disk tr0 cert key) as Hd0.
  { intros Hp. subst tr0. by apply (on_disk_quiet tr tr _ tr'); [..|by repeat constructor|]. }
  destruct (os_read os tr0 key_path) as [k|] eqn:Ek; cbn [ok_or] in H.
  2: { injection H as <- <-. split; [eauto|]. exists [Done (Exists key_path) true; Done (Exists crt_path) true; Read key_path None].
       subst tr0. rewrite <- app_assoc. split; [done|by repeat constructor]. }
  set (tr1 := tr0 ++ [Read key_path (Some k)]) in H.
  assert (tr1 `prefix_of` tr' → files tr1 crt_path = Some cert) as Hc1.
  { intros Hp. assert (tr0 `prefix_of` tr') as Hp0 by (etrans; [|exact Hp]; by apply prefix_app_r).
    unfold tr1. rewrite (left_alone_app files crt_path tr tr0 _ tr' Hc); [by apply Hd0| |done|by repeat constructor].
    subst tr0. by apply prefix_app_r. }
  destruct (os_read os tr1 crt_path) as [c|] eqn:Ec; cbn [ok_or] in H; injection H as <- <-.
  all: assert (tr1 `prefix_of` tr1 ++ [Read crt_path (os_read os tr1 crt_path)]) as Hp1 by (by apply prefix_app_r).
  all: rewrite Ec in Hp1; split; [|eexists; split; [subst tr1 tr0; rewrite <- !app_assoc; reflexivity|by repeat constructor]].
  - left. apply (fs_read _ _ Hos) in Ek, Ec. rewrite Hc1 in Ec by done. rewrite (proj1 (Hd0 ltac:(etrans; [|exact Hp1]; by apply prefix_app_r))) in Ek.
    by simplify_eq.
  - eauto.
Qed.

(** The two writes of a start that generates, with the mode set between. *)
Lemma both_written tr mid tr' cert key :
  crt_path ≠ key_path → left_alone files key_path tr tr' → tr `prefix_of` mid →
  os_do os mid (WriteFile key_path key) = true →
  let mid1 := (mid ++ [Done (WriteFile key_path key) true]) ++ [Done (SetMode key_path 384) true] in
  os_do os mid1 (WriteFile crt_path cert) = true → mid1 ++ [Done (WriteFile crt_path cert) true] `prefix_of` tr' →
  on_disk (mid1 ++ [Done (WriteFile crt_path cert) true]) cert key ∧
  tr `prefix_of` mid1 ++ [Done (WriteFile crt_path cert) true].
Proof using Hos.
  intros Hne Hk Hm W1 mid1 W2 Hp. split; [|by repeat apply prefix_app_r]. split; [|by apply (fs_write _ _ Hos)].
  unfold mid1 in *. rewrite <- !app_assoc, (app_assoc mid) in *. cbn [app] in *.
  rewrite (left_alone_app files key_path tr _ _ tr' Hk); [by apply (fs_write _ _ Hos)|by apply prefix_app_r|done|].
  repeat constructor. cbn. by rewrite bool_decide_eq_false_2.
Qed.

(** The two reads of a start that loads. *)
Lemma both_read tr mid tr' cert key :
  left_alone files key_path tr tr' → left_alone files crt_path tr tr' → tr `prefix_of` mid →
  os_read os mid key_path = Some key →
  let mid1 := mid ++ [Read key_path (Some key)] in
  os_read os mid1 crt_path = Some cert → mid1 ++ [Read crt_path (Some cert)] `prefix_of` tr' →
  on_disk (mid1 ++ [Read crt_path (Some cert)]) cert key ∧ tr `prefix_of` mid1 ++ [Read crt_path (Some cert)].
Proof using Hos.
  intros Hk Hc Hm R1 mid1 R2 Hp. assert (tr `prefix_of` mid1) as Hm1 by (by apply prefix_app_r).
  split; [|by apply prefix_app_r]. split.
  - unfold mid1 in *. rewrite <- app_assoc in *.
    rewrite (left_alone_app files key_path tr _ _ tr' Hk); [by apply (fs_read _ _ Hos)|done|done|by repeat constructor].
  - rewrite (left_alone_app files crt_path tr _ _ tr' Hc); [by apply (fs_read _ _ Hos)|done|done|by repeat constructor].
Qed.

(** A start only adds events, the two checks first. *)
Lemma identity_trace generate tr tr' r :
  host_identity os generate (Some path) tr = (tr', r) →
  ∃ ev, tr' = tr ++ ev ∧
    (os_do os tr (Exists key_path) = false → Done (Exists key_path) false ∈ ev) ∧
    (os_do os tr (Exists key_path) = true → os_do os (tr ++ [Done (Exists key_path) true]) (Exists crt_path) = false →
     Done (Exists crt_path) false ∈ ev).
Proof using Type.
  unfold host_identity, call, read, mbind, M_bind, mret, M_ret, generate_identity, ok_or. cbn [fst snd].
  repeat (rewrite ?must_eq; case_match; simplify_eq/=); intros [= <- <-].
  all: eexists; split; [rewrite <- ?app_assoc; cbn [app]; reflexivity|].
  all: split; intros; try congruence; by repeat (left || right).
Qed.

(** After a start with a path, the two are on the disk. *)
Lemma identity_on_disk tr tr' tr1 cert key generate :
  crt_path ≠ key_path → left_alone files key_path tr tr' → left_alone files crt_path tr tr' → tr1 `prefix_of` tr' →
  host_identity os generate (Some path) tr = (tr1, Ok (cert, key)) →
  on_disk tr1 cert key ∧ tr `prefix_of` tr1.
Proof using Hos.
  intros Hne Hk Hc Hp. unfold host_identity, call, read, mbind, M_bind, mret, M_ret, generate_identity, ok_or. cbn [fst snd].
  repeat (rewrite ?must_eq; case_match; simplify_eq/=); intros [= <- <- <-].
  all: first [ eapply both_read | eapply both_written ]; try done; by repeat apply prefix_app_r.
Qed.

(** C23: the host's identity survives restarts. Let a start with [--host-key]
    produce a certificate and a key; let the path not be one ending in [.crt]; and
    let no one else write or remove either file from that start until a later one
    with the same path is over, nor this program in between. Then both are on the
    disk when the later start begins, and it either leaves them as they are and uses
    the same two, or stops because one of them cannot be read, or one of its two
    existence checks answered no, though the file is there, which [Path::exists]
    does when the stat fails. (In that last case it generates another pair and writes over the first,
    [stat_error_replaces_key].) *)
Theorem host_key_persistent (generate generate' : trace → option (bytes * bytes)) (tr tr1 tr2 : trace)
    (cert key : bytes) (between : trace) (r : result Error (bytes * bytes)) :
  crt_path ≠ key_path →
  host_identity os generate (Some path) tr = (tr1, Ok (cert, key)) →
  Forall quiet between →
  host_identity os generate' (Some path) (tr1 ++ between) = (tr2, r) →
  left_alone files key_path tr tr2 → left_alone files crt_path tr tr2 →
  on_disk (tr1 ++ between) cert key ∧ ∃ ev, tr2 = (tr1 ++ between) ++ ev ∧
    (((r = Ok (cert, key) ∨ ∃ p, r = Err (ReadFailed p)) ∧ Forall quiet ev ∧ on_disk tr2 cert key) ∨
     ∃ p, (p = key_path ∨ p = crt_path) ∧ Done (Exists p) false ∈ ev).
Proof using Hos.
  intros Hne H1 Hb H2 Hk Hc. destruct (identity_trace generate' (tr1 ++ between) tr2 r H2) as (ev & -> & Hev).
  destruct (identity_on_disk tr ((tr1 ++ between) ++ ev) tr1 cert key generate Hne Hk Hc) as [Hd Hp];
    [by rewrite <- app_assoc; apply prefix_app_r|done|].
  apply (on_disk_quiet tr tr1 between ((tr1 ++ between) ++ ev) cert key) in Hd; [|done..|by apply prefix_app_r|done].
  split; [done|]. exists ev. split; [done|].
  destruct (os_do os (tr1 ++ between) (Exists key_path)) eqn:E1; [|right; exists key_path; by split; [left|apply (proj1 Hev)]].
  destruct (os_do os ((tr1 ++ between) ++ [Done (Exists key_path) true]) (Exists crt_path)) eqn:E2;
    [|right; exists crt_path; by split; [right|apply (proj2 Hev)]].
  left. assert (∀ p, left_alone files p tr ((tr1 ++ between) ++ ev) → left_alone files p (tr1 ++ between) ((tr1 ++ between) ++ ev)) as Hl.
  { intros p Ha pre e Hpre. apply Ha. etrans; [exact Hp|]. etrans; [by apply prefix_app_r|exact Hpre]. }
  destruct (identity_loaded (tr1 ++ between) _ cert key r generate' (Hl _ Hk) (Hl _ Hc) Hd E1 E2 H2) as [Hr (ev' & E & Hq)].
  apply app_inv_head in E as <-. split_and!; [done|done|].
  by eapply (on_disk_quiet (tr1 ++ between) (tr1 ++ between) ev); [by apply Hl|by apply Hl|..].
Qed.

End Persistence.

(** A disk that only the program writes, and loses nothing: the last contents
    written, or the first. *)
Definition written (p : Path) (e : Event) : option bytes :=
  match e with Done (WriteFile q b) true => if decide (q = p) then Some b else None | _ => None end.

Definition disk (init : Path → option bytes) (tr : trace) (p : Path) : option bytes :=
  foldl (λ o e, or (written p e) o) (init p) tr.

Lemma disk_snoc init tr e p : disk init (tr ++ [e]) p = or (written p e) (disk init tr p).
Proof. unfold disk. by rewrite foldl_app. Qed.

(** A system that does what it is told, over these files; root owns everything. *)
Definition obliging (init : Path → option bytes) : Os := {|
  os_do tr c := match c with Exists p => bool_decide (is_Some (disk init tr p)) | _ => true end;
  os_stat _ _ := Some (0, true);
  os_read tr p := disk init tr p;
  os_priv tr s := match s with Privdrop.SetUid 0 => Privdrop.No | _ => Privdrop.Yes end;
|}.

Lemma obliging_files init : file_system (disk init) (obliging init).
Proof. split; [|done]. intros tr p b _. rewrite disk_snoc. cbn. by rewrite decide_True. Qed.

Lemma disk_left_alone init p tr tr' : left_alone (disk init) p tr tr'.
Proof.
  intros pre e _ _ He. rewrite disk_snoc. destruct e as [[]| | |]; try done. cbn in *.
  case_bool_decide; [done|]. destruct ok; [|done]. by rewrite decide_False.
Qed.

(** A fresh pair at each length of the trace. *)
Definition demo_generate (tr : trace) : option (bytes * bytes) :=
  let n := Z.of_nat (length tr) mod 256 in Some ([1; n], [2; n]).

Lemma host_key_persistent_witness :
  let os := obliging (λ _, None) in
  let path := lit "/var/lib/quishd/host_key.der" in
  let first := host_identity os demo_generate (Some path) [] in
  let second := host_identity os demo_generate (Some path) (first.1 ++ [Done Kill true]) in
  first.2 = Ok ([1; 1], [2; 1]) ∧ second.2 = Ok ([1; 1], [2; 1]).
Proof.
  intros os path first second. split; [vm_compute; reflexivity|].
  destruct (host_key_persistent (disk (λ _, None)) os (obliging_files _) path demo_generate demo_generate
    [] first.1 second.1 [1; 1] [2; 1] [Done Kill true] second.2) as (_ & ev & E & H).
  - by_dec.
  - vm_compute. reflexivity.
  - repeat constructor.
  - apply surjective_pairing.
  - apply disk_left_alone.
  - apply disk_left_alone.
  - destruct H as [[[H|[p H]] _]|(p & _ & Hin)]; [exact H|discriminate H|].
    assert (ev = drop (length (first.1 ++ [Done Kill true])) second.1) as -> by (by rewrite E, drop_app_length).
    assert (∀ e, e ∈ drop (length (first.1 ++ [Done Kill true])) second.1 → match e with Done (Exists _) false => False | _ => True end)
      as Hall by (apply Forall_forall; vm_compute; repeat constructor).
    destruct (Hall _ Hin).
Defined.

(** A key whose certificate file is missing is overwritten with a fresh one. *)
Example missing_crt_replaces_key :
  let key := path_of (lit "/k.der") in
  let os := obliging (λ p, if decide (p = key) then Some [9] else None) in
  let '(tr, r) := host_identity os demo_generate (Some (lit "/k.der")) [] in
  r = Ok ([1; 2], [2; 2]) ∧ disk (λ p, if decide (p = key) then Some [9] else None) tr key = Some [2; 2].
Proof. vm_compute. done. Qed.

(** So is a pair that is there when one existence check fails. *)
Example stat_error_replaces_key :
  let init (_ : Path) := Some [9] in
  let os := mkOs (λ tr c, match c with Exists _ => false | _ => true end) (λ _ _, None) (disk init) (λ _ _, Privdrop.Yes) in
  let '(tr, r) := host_identity os demo_generate (Some (lit "/k.der")) [] in
  r = Ok ([1; 1], [2; 1]) ∧ disk init tr (path_of (lit "/k.der")) = Some [2; 1] ∧
  disk init tr (path_of (lit "/k.crt")) = Some [1; 1].
Proof. vm_compute. done. Qed.

(** A key path that ends in [.crt] is its own certificate's: the certificate
    overwrites the key, and the next start loads the certificate as the key. *)
Example crt_path_loses_key :
  let os := obliging (λ _, None) in
  let '(tr, r) := host_identity os demo_generate (Some (lit "/k.crt")) [] in
  r = Ok ([1; 1], [2; 1]) ∧ (host_identity os demo_generate (Some (lit "/k.crt")) tr).2 = Ok ([1; 1], [1; 1]).
Proof. vm_compute. done. Qed.

(** ** The monitor and its worker together *)
Lemma trim_end_ok p s : str_ok s → str_ok (trim_end_matches p s).
Proof.
  unfold str_ok, trim_end_matches. rewrite <- (Forall_reverse _ s). intros H. apply Forall_reverse.
  revert H. generalize (reverse s). induction 1 as [|c r Hc Hr IH]; [done|]. simpl. destruct (p c); [done|by constructor].
Qed.

Lemma path_join_ok dir rel : str_ok dir → str_ok rel → str_ok (Login.path_join dir rel).
Proof.
  intros Hd Hr. unfold Login.path_join. repeat case_bool_decide; [by apply Forall_app|done|].
  apply Forall_app. split; [done|]. constructor; [by_dec|done].
Qed.

Section Daemon.
Context {b64 : Base64} {b64ok : Base64Ok}.
(** The system the monitor runs on, and the one the worker does. *)
Variables os wos : Os.
Variables (generate : trace → option (bytes * bytes)) (pid : Z).
Variables (show_addr : SocketAddr → str) (parse_addr : str → option SocketAddr).
Variables (parent_env : Env) (key_ok : bytes → bool) (lookup_user : str → option Privdrop.User).
(** What is read and generated are bytes. *)
Hypothesis read_bytes : ∀ tr p b, os_read os tr p = Some b → bytes_ok b.
Hypothesis generate_bytes : ∀ tr c k, generate tr = Some (c, k) → bytes_ok c.
Hypothesis pid_ok : 0 ≤ pid.

Lemma host_identity_bytes path tr tr1 cert key :
  host_identity os generate path tr = (tr1, Ok (cert, key)) → bytes_ok cert.
Proof using read_bytes generate_bytes.
  unfold host_identity, call, read, mbind, M_bind, mret, M_ret, generate_identity, ok_or. cbn [fst snd].
  repeat (rewrite ?must_eq; case_match; simplify_eq/=); try done; intros; simplify_eq; eauto.
Qed.

Notation sock_dir cfg := (socket_dir_for pid (c_chroot_dir cfg)).
Notation ctrl cfg := (Login.path_join (sock_dir cfg) (lit "ctrl")).
Notation sign cfg := (Login.path_join (sock_dir cfg) (lit "sign")).

(** C14: no request is served but by a confined worker. Whatever the systems
    answer: if the monitor starts a worker and that process serves, then what it
    serves with is the configuration of the monitor and the certificate of the
    host's identity; it was reached by connecting to the monitor's two sockets
    and binding the configured address, then entering the chroot and giving up
    root for the configured user, who is not root, for good, then installing the
    seccomp filter, killing unless [--no-seccomp] was given; with nothing else in
    between. *)
Theorem daemon_confined (cfg : MonitorConfig) (tr wtr : trace) (r wr : result Error unit) (arg : str) (env : Env)
    (w : Worker) (served : bool) :
  cfg_ok show_addr parse_addr cfg →
  monitor_run os generate pid show_addr parent_env key_ok cfg [] = (tr, r) → Done (Spawn arg env) true ∈ tr →
  worker_run wos parse_addr lookup_user env [] = (wtr, wr) → Done (ServeQuic w) served ∈ wtr →
  ∃ ident cert key user a,
    host_identity os generate (c_host_key cfg) [] = (ident, Ok (cert, key)) ∧
    w = told cfg (ctrl cfg) (sign cfg) cert ∧
    lookup_user (c_worker_user cfg) = Some user ∧ Privdrop.u_uid user ≠ 0 ∧ a ≠ Privdrop.Yes ∧
    wtr = confined_worker w user a (negb (c_no_seccomp cfg)) served.
Proof using b64ok read_bytes generate_bytes pid_ok.
  intros Hcfg Hr Hin Hw Hserve.
  assert (∃ ident cert key, host_identity os generate (c_host_key cfg) [] = (ident, Ok (cert, key)) ∧
    env = worker_env parent_env (worker_vars show_addr cfg (ctrl cfg) (sign cfg) cert)) as (ident & cert & key & Hh & ->).
  { destruct (spawned os generate pid show_addr parent_env key_ok cfg tr r arg env true Hr Hin)
      as (ident & cert & key & prep & s & k & w' & d & Hh & _ & _ & _ & -> & _). by exists ident, cert, key. }
  assert (str_ok (sock_dir cfg)) as Hs.
  { unfold socket_dir_for. apply Forall_app. split; [apply trim_end_ok, (ok_chroot _ _ _ Hcfg)|].
    apply Forall_app. split; [by_dec|by apply str_ok_digits, show_uint_digits]. }
  destruct (worker_handoff show_addr parse_addr parent_env cfg (ctrl cfg) (sign cfg) cert) as [Hset Hsec];
    [done|by apply path_join_ok; [|by_dec]..|by eapply host_identity_bytes|].
  assert (Done (ServeQuic w) served ∈ (worker_run wos parse_addr lookup_user
    (worker_env parent_env (worker_vars show_addr cfg (ctrl cfg) (sign cfg) cert)) []).1) as Hserve' by by rewrite Hw.
  apply worker_events in Hserve' as (Hw' & user & a & Hu & Huid & Ha & Htr).
  rewrite Hw in Htr. cbn [fst] in Htr. rewrite Hset in Hw'. injection Hw' as <-. rewrite Hsec in Htr.
  by exists ident, cert, key, user, a.
Qed.

End Daemon.

(** ** Concrete starts: the defaults, on systems that do what they are told *)
Definition demo_cfg : MonitorConfig :=
  mkMonitor DEFAULT_LISTEN DEFAULT_PATH (lit "/run/quishd") (lit "quish") None 6 true false false false (Auth.mkPolicy [] []) None.

Definition demo_show (_ : SocketAddr) : str := lit "[::]:4433".
Definition demo_parse (_ : str) : option SocketAddr := Some DEFAULT_LISTEN.
(** Nothing is there to be read. *)
Definition demo_os : Os :=
  let o := obliging (λ _, None) in mkOs (os_do o) (os_stat o) (λ _ _, None) (os_priv o).

Definition demo_env : Env :=
  worker_env ∅ (worker_vars demo_show demo_cfg (lit "/run/quishd.sock.d-7/ctrl") (lit "/run/quishd.sock.d-7/sign") [1; 0]).
Definition demo_monitor : trace * result Error unit :=
  monitor_run demo_os demo_generate 7 demo_show ∅ (λ _, true) demo_cfg [].
Definition demo_user : Privdrop.User := Privdrop.mkUser (lit "quish") 990 991 (lit "/") (lit "/bin/false").

Lemma demo_spawn : Done (Spawn (lit "--internal-worker") demo_env) true ∈ demo_monitor.1.
Proof. apply (list_elem_of_lookup_2 _ 7). vm_compute. reflexivity. Qed.

Lemma worker_started_safely_witness :
  ∃ ident cert key prep s k w d,
    host_identity demo_os demo_generate None [] = (ident, Ok (cert, key)) ∧ Forall identity_event ident ∧
    private_dir (path_of (lit "/run/quishd.sock.d-7")) prep ∧
    lit "--internal-worker" = lit "--internal-worker" ∧
    demo_env = worker_env ∅ (worker_vars demo_show demo_cfg
      (Login.path_join (socket_dir_for 7 (lit "/run/quishd")) (lit "ctrl"))
      (Login.path_join (socket_dir_for 7 (lit "/run/quishd")) (lit "sign")) cert) ∧
    demo_monitor.1 = ident ++ prep ++ around_spawn 7 demo_show ∅ demo_cfg cert true s k w d.
Proof.
  apply (worker_started_safely demo_os demo_generate 7 demo_show ∅ (λ _, true) demo_cfg demo_monitor.1 demo_monitor.2
    (lit "--internal-worker") demo_env true); [apply surjective_pairing|apply demo_spawn].
Defined.

Lemma demo_read_bytes tr p b : os_read demo_os tr p = Some b → bytes_ok b.
Proof. done. Qed.

Lemma demo_generate_bytes tr c k : demo_generate tr = Some (c, k) → bytes_ok c.
Proof.
  unfold demo_generate. intros [= <- <-]. repeat constructor; try by_dec; apply Z.mod_pos_bound; lia.
Qed.

Definition demo_worker : trace * result Error unit := worker_run demo_os demo_parse (λ _, Some demo_user) demo_env [].

Definition demo_told : Worker :=
  told demo_cfg (lit "/run/quishd.sock.d-7/ctrl") (lit "/run/quishd.sock.d-7/sign") [1; 0].

Lemma daemon_confined_witness :
  ∃ ident cert key user a,
    host_identity demo_os demo_generate None [] = (ident, Ok (cert, key)) ∧
    demo_told = told demo_cfg (Login.path_join (socket_dir_for 7 (lit "/run/quishd")) (lit "ctrl"))
      (Login.path_join (socket_dir_for 7 (lit "/run/quishd")) (lit "sign")) cert ∧
    Some demo_user = Some user ∧ Privdrop.u_uid user ≠ 0 ∧ a ≠ Privdrop.Yes ∧
    demo_worker.1 = confined_worker demo_told user a true true.
Proof.
  apply (daemon_confined demo_os demo_os demo_generate 7 demo_show demo_parse ∅ (λ _, true) (λ _, Some demo_user)
    demo_read_bytes demo_generate_bytes ltac:(done) demo_cfg demo_monitor.1 demo_worker.1 demo_monitor.2 demo_worker.2
    (lit "--internal-worker") demo_env demo_told true).
  - split; by_dec.
  - apply surjective_pairing.
  - apply demo_spawn.
  - apply surjective_pairing.
  - apply (list_elem_of_lookup_2 _ 14). vm_compute. reflexivity.
Defined.

End Startup.
