(* ===== verification/KnownHosts.v ===== *)
(** * KnownHosts: the client's trust on first use

    [quish-client/src/connect.rs]: the certificate verifier ([verify_server_cert]),
    the question on the terminal ([decide]), the [known_hosts] file ([lookup],
    [pin], [list_known_hosts], [remove_known_host]). The file is its bytes; what
    the file system answers to each call is an argument ([Io]). The Web PKI
    verification is a verdict the caller gets. [Tofu] is the specification: a map
    from hosts to fingerprints. *)
From S2P Require Import Prelude RustStr Proto.

Module KnownHosts.

(** What the file system answers: whether the file can be read, whether the
    directory can be made, the file opened for appending or for the temporary
    copy, how much of a write reaches it ([None]: all), whether a rename works. *)
Record Io := mkIo {
  io_read : bool;
  io_mkdir : bool;
  io_open : bool;
  io_write : option nat;
  io_rename : bool;
}.

(** [known_hosts] and its temporary copy; [None] is a file that is not there. *)
Record Disk := mkDisk { known_hosts : option bytes; known_hosts_tmp : option bytes }.

Inductive IoError := NotFound | InvalidData | OtherIo.

#[global] Instance ioerror_eq_dec : EqDecision IoError.
Proof. solve_decision. Defined.

(** [rustls::Error::General] of the three failures. *)
Inductive TlsError := HostKeyMismatch | NotAccepted | PinFailed.

#[global] Instance tlserror_eq_dec : EqDecision TlsError.
Proof. solve_decision. Defined.

Definition read_to_string (io : Io) (f : option bytes) : result IoError str :=
  match f with
  | None => Err NotFound
  | Some b => if io_read io then ok_or InvalidData (from_utf8 b) else Err OtherIo
  end.

(** [write_all]: what the file gains, and whether it all went in. *)
Definition write_all (io : Io) (data : bytes) : bytes * bool :=
  match io_write io with
  | None => (data, true)
  | Some n => (take n data, false)
  end.

(** [known_hosts_path], from [HOME]. *)
Definition known_hosts_path (home : option str) : option str :=
  h ← home; Some (h ++ lit "/.config/quish/known_hosts").

Definition lookup (io : Io) (d : Disk) (host : str) : option str :=
  contents ← res_ok (read_to_string io (known_hosts d));
  find_map (λ line,
    '(h, fp) ← split_once 32 line;
    if bool_decide (h = host) then Some (trim fp) else None) (lines contents).

Definition pin (io : Io) (d : Disk) (host fp : str) : result IoError unit * Disk :=
  if negb (io_mkdir io) then (Err OtherIo, d)
  else if negb (io_open io) then (Err OtherIo, d)
  else
    let '(w, whole) := write_all io (utf8 (host ++ 32 :: fp ++ [10])) in
    (if whole then Ok tt else Err OtherIo,
     mkDisk (Some (default [] (known_hosts d) ++ w)) (known_hosts_tmp d)).

(** ** The question *)

(** [BufRead::read_line] on what the terminal will still deliver: a line with its
    terminator, or what is left before the end. *)
Fixpoint read_until (input : bytes) : bytes * bytes :=
  match input with
  | [] => ([], [])
  | b :: r => if b =? 10 then ([b], r) else let '(l, r') := read_until r in (b :: l, r')
  end.

Inductive Reply := Yes | No | Fingerprint | Unclear.

#[global] Instance reply_eq_dec : EqDecision Reply.
Proof. solve_decision. Defined.

Definition classify (line : str) : Reply :=
  let a := to_ascii_lowercase (trim line) in
  if bool_decide (a ∈ [lit "yes"; lit "y"]) then Yes
  else if bool_decide (a ∈ [lit "no"; lit "n"]) then No
  else if bool_decide (a ∈ [lit "fingerprint"; lit "fp"; lit "f"]) then Fingerprint
  else Unclear.

Definition prompt : str := lit "Accept host key (yes/no/fingerprint)? ".
Definition aborted : str := lit "Host key verification aborted." ++ [10].
Definition intro (host : str) : str :=
  lit "The authenticity of host '" ++ host ++ lit "' can't be established." ++ [10]
  ++ lit "It has no entry in your known_hosts file." ++ [10].

(** The loop of [decide]: its verdict and what it wrote. [None]: out of fuel. *)
Fixpoint decide_loop (fuel : nat) (input : bytes) (fp : str) (w : str) : option (bool * str) :=
  match fuel with
  | O => None
  | S fuel' =>
      let w := w ++ prompt in
      let '(raw, rest) := read_until input in
      match raw, from_utf8 raw with
      | [], _ | _, None => Some (false, w ++ [10] ++ aborted)
      | _, Some line =>
          match classify line with
          | Yes => Some (true, w)
          | No => Some (false, w ++ aborted)
          | Fingerprint => decide_loop fuel' rest fp (w ++ lit "SHA-256 fingerprint: " ++ fp ++ [10])
          | Unclear =>
              decide_loop fuel' rest fp (w ++ lit "Please type 'yes', 'no', or 'fingerprint'." ++ [10])
          end
      end
  end.

Definition decide (input : bytes) (host fp : str) : option (bool * str) :=
  decide_loop (S (length input)) input fp (intro host).

(** [tty] is what the controlling terminal will deliver, if there is one. *)
Definition prompt_accept (tty : option bytes) (host fp : str) : bool :=
  match tty with
  | None => false
  | Some input => match decide input host fp with Some (b, _) => b | None => false end
  end.

(** ** The verifier *)
Definition verify_server_cert (sha256 : bytes → bytes) (io : Io) (webpki : bool) (tty : option bytes)
  (d : Disk) (host_key : str) (end_entity : bytes) : result TlsError unit * Disk :=
  if webpki then (Ok tt, d)
  else
    let fp := cert_fingerprint sha256 end_entity in
    match lookup io d host_key with
    | Some pinned => if bool_decide (pinned = fp) then (Ok tt, d) else (Err HostKeyMismatch, d)
    | None =>
        if negb (prompt_accept tty host_key fp) then (Err NotAccepted, d)
        else match pin io d host_key fp with
             | (Err _, d') => (Err PinFailed, d')
             | (Ok _, d') => (Ok tt, d')
             end
    end.

(** ** Listing and removing pins *)
Definition list_known_hosts (io : Io) (d : Disk) : result IoError (list str) :=
  match read_to_string io (known_hosts d) with
  | Ok contents => Ok (base.filter (λ l, trim l ≠ []) (lines contents))
  | Err NotFound => Ok []
  | Err e => Err e
  end.

Definition is_match (host line : str) : bool :=
  match split_once 32 line with Some (h, _) => bool_decide (h = host) | None => false end.

Definition remove_host_lines (contents host : str) : str * nat :=
  let kept := base.filter (λ l, is_match host l = false) (lines contents) in
  let removed := length (base.filter (λ l, is_match host l = true) (lines contents)) in
  let body := join [10] kept in
  (if bool_decide (body = []) then body else body ++ [10], removed).

(** [Ok n]: [n] pins removed. *)
Definition remove_known_host (io : Io) (d : Disk) (host : str) : result IoError nat * Disk :=
  match read_to_string io (known_hosts d) with
  | Err NotFound => (Ok 0%nat, d)
  | Err e => (Err e, d)
  | Ok contents =>
      let '(body, removed) := remove_host_lines contents host in
      if bool_decide (removed = 0%nat) then (Ok 0%nat, d)
      else if negb (io_open io) then (Err OtherIo, d)
      else
        let '(w, whole) := write_all io (utf8 body) in
        let d1 := mkDisk (known_hosts d) (Some w) in
        if negb whole then (Err OtherIo, d1)
        else if negb (io_rename io) then (Err OtherIo, d1)
        else (Ok removed, mkDisk (Some w) None)
  end.

(** ** Histories of one client's uses of the file *)
Inductive op :=
| Connect (io : Io) (webpki : bool) (tty : option bytes) (host : str) (cert : bytes)
| Remove (io : Io) (host : str).

(** What a use reports: a connection's verdict, or how many pins went. *)
Inductive report := Verdict (v : result TlsError unit) | Removed (r : result IoError nat).

Definition step (sha256 : bytes → bytes) (d : Disk) (o : op) : report * Disk :=
  match o with
  | Connect io webpki tty host cert =>
      let '(v, d') := verify_server_cert sha256 io webpki tty d host cert in (Verdict v, d')
  | Remove io host => let '(r, d') := remove_known_host io d host in (Removed r, d')
  end.

Fixpoint run (sha256 : bytes → bytes) (d : Disk) (ops : list op) : list report * Disk :=
  match ops with
  | [] => ([], d)
  | o :: r =>
      let '(x, d1) := step sha256 d o in
      let '(xs, d2) := run sha256 d1 r in (x :: xs, d2)
  end.

End KnownHosts.

(** The specification: a map from hosts to the fingerprints pinned for them. *)
Module Tofu.

Abbreviation Pins := (gmap str str).

(** [approved]: the user answers yes. [saved]: the pin reaches the file. *)
Definition connect (m : Pins) (host fp : str) (webpki approved saved : bool)
  : result KnownHosts.TlsError unit * Pins :=
  if webpki then (Ok tt, m)
  else match m !! host with
  | Some p => (if bool_decide (p = fp) then Ok tt else Err KnownHosts.HostKeyMismatch, m)
  | None =>
      if negb approved then (Err KnownHosts.NotAccepted, m)
      else if negb saved then (Err KnownHosts.PinFailed, m)
      else (Ok tt, <[host := fp]> m)
  end.

(** Whether there was a pin to remove, or an error that left it. *)
Definition remove (m : Pins) (host : str) (saved : bool) : option bool * Pins :=
  match m !! host with
  | None => (Some false, m)
  | Some _ => if saved then (Some true, delete host m) else (None, m)
  end.

End Tofu.

(** ** The question, specified on the lines typed *)
Module Question.
Import KnownHosts.

(** A typed line with its newline. *)
Definition is_line (raw : bytes) : Prop := ∃ l, raw = l ++ [10] ∧ 10 ∉ l.

(** What [read_line] may return before the end of the input. *)
Definition is_piece (raw rest : bytes) : Prop :=
  is_line raw ∨ (raw ≠ [] ∧ 10 ∉ raw ∧ rest = []).

Definition reply_of (raw : bytes) : option Reply := classify <$> from_utf8 raw.

(** The lines that make the client ask again. *)
Definition asks_again (raw : bytes) : Prop :=
  reply_of raw = Some Fingerprint ∨ reply_of raw = Some Unclear.

(** The first line that is an answer says yes. *)
Definition answers_yes (input : bytes) : Prop :=
  ∃ before raw rest, input = mjoin before ++ raw ++ rest
    ∧ Forall (λ l, is_line l ∧ asks_again l) before ∧ is_piece raw rest ∧ reply_of raw = Some Yes.

Lemma read_until_spec input raw rest :
  read_until input = (raw, rest) →
  input = raw ++ rest ∧ (raw = [] ∧ input = [] ∨ is_piece raw rest).
Proof.
  revert raw rest. induction input as [|b r IH]; intros raw rest; simpl.
  { intros [= <- <-]. split; [done|]. by left. }
  destruct (Z.eqb_spec b 10) as [->|Hb].
  { intros [= <- <-]. split; [done|]. right. left. exists []. split; [done|]. apply not_elem_of_nil. }
  destruct (read_until r) as [l r'] eqn:E. intros [= <- <-].
  destruct (IH _ _ eq_refl) as [-> H]. split; [done|]. right.
  destruct H as [[-> ?] | [(m & -> & Hm) | (? & Hn & ->)]].
  - right. simpl in *. subst. split_and!; [done | set_solver | done].
  - left. exists (b :: m). split; [done|]. set_solver.
  - right. split_and!; [done | set_solver | done].
Qed.

Lemma read_until_shrinks input raw rest :
  read_until input = (raw, rest) → raw ≠ [] → (length rest < length input)%nat.
Proof.
  intros E Hne. apply read_until_spec in E as [-> _]. rewrite length_app.
  destruct raw; [done|]. simpl. lia.
Qed.

Lemma read_until_line raw x : is_line raw → read_until (raw ++ x) = (raw, x).
Proof.
  intros (l & -> & Hl). rewrite <- app_assoc. simpl. induction l as [|b l IH]; simpl; [done|].
  destruct (Z.eqb_spec b 10); [set_solver|]. rewrite IH by set_solver. done.
Qed.

Lemma read_until_piece raw rest : is_piece raw rest → read_until (raw ++ rest) = (raw, rest).
Proof.
  intros [H | (_ & Hn & ->)]; [by apply read_until_line|]. rewrite app_nil_r.
  induction raw as [|b l IH]; simpl; [done|].
  destruct (Z.eqb_spec b 10); [set_solver|]. rewrite IH by set_solver. done.
Qed.

Lemma is_piece_ne raw rest : is_piece raw rest → raw ≠ [].
Proof. intros [(l & -> & _) | (? & _)]; [by destruct l | done]. Qed.

Lemma answers_yes_nil : ¬ answers_yes [].
Proof.
  intros (before & raw & rest & E & _ & Hp & _). apply is_piece_ne in Hp.
  symmetry in E. apply app_eq_nil in E as [_ E]. apply app_eq_nil in E as [? _]. done.
Qed.

(** One line of the input at a time. *)
Lemma answers_yes_step input raw rest :
  read_until input = (raw, rest) → raw ≠ [] →
  answers_yes input ↔ reply_of raw = Some Yes ∨ (asks_again raw ∧ answers_yes rest).
Proof.
  intros E Hne. split.
  - intros (before & raw' & rest' & -> & Hb & Hp & Hy). destruct Hb as [|l bs [Hl Ha] Hb].
    + simpl in E. rewrite read_until_piece in E by done. simplify_eq. by left.
    + cbn [mjoin list_join] in E. rewrite <- app_assoc, read_until_line in E by done. simplify_eq.
      right. split; [done|]. by exists bs, raw', rest'.
  - destruct (read_until_spec _ _ _ E) as [-> [[? _] | Hp]]; [done|]. intros [Hy | [Ha Hr]].
    + by exists [], raw, rest.
    + destruct Hp as [Hl | (_ & _ & ->)]; [|by destruct (answers_yes_nil Hr)].
      destruct Hr as (bs & raw' & rest' & -> & Hb & Hp & Hy).
      exists (raw :: bs), raw', rest'. split_and!; [|by constructor|done..].
      cbn [mjoin list_join]. by rewrite <- app_assoc.
Qed.

Lemma decide_loop_spec fuel input fp w :
  (length input < fuel)%nat →
  ∃ b out, decide_loop fuel input fp w = Some (b, out) ∧ (b = true ↔ answers_yes input).
Proof.
  revert input w. induction fuel as [|fuel IH]; intros input w Hf; [lia|]. cbn [decide_loop].
  destruct (read_until input) as [raw rest] eqn:E.
  destruct (base.decide (raw = [])) as [->|Hne].
  { do 2 eexists. split; [done|]. split; [done|]. intros Hy.
    apply read_until_spec in E as [-> [[_ E] | Hp%is_piece_ne]]; [|done].
    simpl in *. subst. exfalso. exact (answers_yes_nil Hy). }
  pose proof (read_until_shrinks _ _ _ E Hne). setoid_rewrite (answers_yes_step _ _ _ E Hne).
  destruct raw as [|b0 raw0]; [done|]. unfold asks_again, reply_of. cbv beta iota.
  destruct (from_utf8 (b0 :: raw0)) as [line|]; simpl; [|by do 2 eexists; split; [done|naive_solver]].
  destruct (classify line); first [by do 2 eexists; split; [done|naive_solver] |
    match goal with |- context [decide_loop _ rest fp ?w'] =>
      destruct (IH rest w') as (b' & out' & -> & H'); [lia|] end;
    exists b', out'; split; [done|]; rewrite H'; naive_solver].
Qed.

(** C28: the host-key question always ends, and its answer is the first one typed.
    For every finite input of the terminal [decide] returns; it accepts exactly
    when some line trimmed and lowercased is [yes] or [y] and every line before it
    is a request for the fingerprint or unclear (so not [no], and valid UTF-8);
    end of input, a read error and a missing terminal refuse. *)
Theorem decide_spec (tty : option bytes) (host fp : str) :
  (∀ input, ∃ b out, decide input host fp = Some (b, out) ∧ (b = true ↔ answers_yes input))
  ∧ (prompt_accept tty host fp = true ↔ ∃ input, tty = Some input ∧ answers_yes input).
Proof.
  assert (∀ input, ∃ b out, decide input host fp = Some (b, out) ∧ (b = true ↔ answers_yes input))
    as H by (intros input; apply decide_loop_spec; lia).
  split; [done|]. destruct tty as [input|]; simpl; [|naive_solver].
  destruct (H input) as (b & out & -> & Hb). naive_solver.
Qed.

End Question.

(** ** The file refines the map *)
Module TofuFile.
Import KnownHosts.

Definition parse_pin (line : str) : option (str * str) :=
  '(h, fp) ← split_once 32 line; Some (h, trim fp).

Definition pins_of (s : str) : Tofu.Pins := list_to_map (omap parse_pin (lines s)).

(** A file a pin can be appended to: UTF-8, and empty or newline-terminated. *)
Definition text_ok (s : str) : Prop := str_ok s ∧ terminated s.

Definition file_ok (f : option bytes) : Prop :=
  match f with None => True | Some b => ∃ s, b = utf8 s ∧ text_ok s end.

Definition abs (d : Disk) : Tofu.Pins :=
  match known_hosts d ≫= from_utf8 with Some s => pins_of s | None => ∅ end.

(** A host key as [socket_target] makes it from a host without spaces. *)
Definition host_ok (h : str) : Prop := str_ok h ∧ 32 ∉ h ∧ 10 ∉ h.

(** The file can be read, and a failed write leaves nothing behind. *)
Definition io_ok (io : Io) : Prop := io_read io = true ∧ (io_write io = None ∨ io_write io = Some 0%nat).

Lemma parse_pin_unfold line :
  parse_pin line = match split_once 32 line with Some (h, fp) => Some (h, trim fp) | None => None end.
Proof. unfold parse_pin. by destruct (split_once 32 line) as [[??]|]. Qed.

Lemma omap_cons (l : str) ls :
  omap parse_pin (l :: ls)
  = match parse_pin l with Some x => x :: omap parse_pin ls | None => omap parse_pin ls end.
Proof. reflexivity. Qed.

Lemma parse_pin_strip_cr l : parse_pin (strip_cr l) = parse_pin l.
Proof.
  destruct (strip_cr_cases l) as [-> | E]; [done|]. rewrite E at 2.
  unfold parse_pin. set (k := strip_cr l). destruct (split_once 32 k) as [[a b]|] eqn:Ek.
  - apply split_once_Some in Ek as [-> Hn]. rewrite <- app_assoc. simpl.
    rewrite split_once_app by done. simpl. by rewrite trim_snoc_whitespace.
  - apply split_once_None in Ek. assert (split_once 32 (k ++ [13]) = None) as ->; [|done].
    apply split_once_None. set_solver.
Qed.

Lemma omap_parse_strip_cr (ls : list str) : omap parse_pin (strip_cr <$> ls) = omap parse_pin ls.
Proof.
  induction ls as [|l ls IH]; [done|].
  by rewrite fmap_cons, !omap_cons, parse_pin_strip_cr, IH.
Qed.

(** [lookup] reads the map. *)
Lemma find_map_pins (ls : list str) host :
  find_map (λ line, '(h, fp) ← split_once 32 line;
    if bool_decide (h = host) then Some (trim fp) else None) ls
  = (list_to_map (omap parse_pin ls) : Tofu.Pins) !! host.
Proof.
  induction ls as [|l ls IH]; [done|]. rewrite omap_cons. cbn [find_map]. rewrite IH.
  unfold parse_pin. destruct (split_once 32 l) as [[h fp]|]; simpl; [|done].
  case_bool_decide as E; [subst; by rewrite lookup_insert_eq | by rewrite lookup_insert_ne].
Qed.

Lemma pins_delete (ls : list str) host :
  (list_to_map (omap parse_pin (base.filter (λ l, is_match host l = false) ls)) : Tofu.Pins)
  = delete host (list_to_map (omap parse_pin ls)).
Proof.
  induction ls as [|l ls IH]; [simpl; by rewrite delete_empty|].
  rewrite filter_cons, omap_cons.
  destruct (base.decide (is_match host l = false)) as [Hm|Hm]; unfold is_match in Hm.
  - rewrite omap_cons, parse_pin_unfold.
    destruct (split_once 32 l) as [[h fp]|]; simpl; [|apply IH].
    case_bool_decide; [done|]. rewrite IH. by rewrite delete_insert_ne.
  - rewrite parse_pin_unfold. destruct (split_once 32 l) as [[h fp]|]; [|done]. simpl.
    case_bool_decide; [|done]. subst. rewrite IH. by rewrite delete_insert_eq.
Qed.

Lemma pins_of_remove s host : pins_of (remove_host_lines s host).1 = delete host (pins_of s).
Proof.
  unfold pins_of. rewrite <- pins_delete. unfold remove_host_lines. cbn [fst].
  set (kept := base.filter _ _). assert (Forall (λ l, 10 ∉ l) kept) as Hk.
  { apply Forall_filter. apply lines_no_newline. }
  case_bool_decide as E.
  - rewrite E. destruct kept as [|k [|k' r]]; [done| |by apply app_eq_nil in E as [_ ?]].
    simpl in E. by subst.
  - rewrite lines_terminated, split_on_join; [by rewrite omap_parse_strip_cr | by intros -> | done].
Qed.

Lemma remove_text_ok s host : text_ok s → text_ok (remove_host_lines s host).1.
Proof.
  intros [Hs _]. unfold remove_host_lines. cbn [fst]. case_bool_decide as E.
  - rewrite E. split; [constructor | by left].
  - split; [|right; by eexists]. apply Forall_app. split; [|by repeat constructor; unfold is_scalar; lia].
    apply join_Forall; [repeat constructor; unfold is_scalar; lia|].
    apply Forall_filter. by apply lines_Forall.
Qed.

(** ** Each operation against the map *)
Lemma lookup_pins io d host :
  io_read io = true → file_ok (known_hosts d) → lookup io d host = abs d !! host.
Proof.
  intros Hr Hf. unfold lookup, abs, read_to_string.
  destruct (known_hosts d) as [b|]; simpl; [|by rewrite lookup_empty].
  destruct Hf as (s & -> & Hs & _). simpl. rewrite Hr, from_utf8_utf8 by done. simpl.
  apply find_map_pins.
Qed.

Lemma hex_neutral fp : Forall is_hex fp → str_ok fp ∧ 10 ∉ fp ∧ last fp ≠ Some 13 ∧ trim fp = fp.
Proof.
  intros H. split_and!.
  - eapply Forall_impl; [done|]. unfold is_hex, is_scalar. lia.
  - intros Hin. rewrite Forall_forall in H. apply H in Hin. unfold is_hex in Hin. lia.
  - intros [l' ->]%last_Some. apply Forall_app in H as [_ H]. inversion H; subst.
    unfold is_hex in *. lia.
  - apply trim_id. eapply Forall_impl; [done|]. unfold is_hex, is_whitespace. intros c Hc.
    repeat (apply orb_false_iff; split); rewrite ?andb_false_iff, ?Z.leb_gt, ?Z.eqb_neq; lia.
Qed.

Lemma pin_line_ok host fp :
  host_ok host → Forall is_hex fp →
  str_ok (host ++ 32 :: fp) ∧ 10 ∉ host ++ 32 :: fp ∧ strip_cr (host ++ 32 :: fp) = host ++ 32 :: fp
  ∧ parse_pin (host ++ 32 :: fp) = Some (host, fp).
Proof.
  intros (Hs & H32 & H10) Hfp. destruct (hex_neutral fp Hfp) as (Hfs & Hf10 & Hl & Ht). split_and!.
  - apply Forall_app. split; [done|]. constructor; [unfold is_scalar; lia | done].
  - set_solver.
  - apply strip_cr_id. rewrite last_app_cons. destruct fp; [done|]. by rewrite last_cons_cons.
  - rewrite parse_pin_unfold, split_once_app by done. by rewrite Ht.
Qed.

Lemma pins_of_app s host fp :
  text_ok s → host_ok host → Forall is_hex fp → pins_of s !! host = None →
  text_ok (s ++ host ++ 32 :: fp ++ [10])
  ∧ pins_of (s ++ host ++ 32 :: fp ++ [10]) = <[host := fp]> (pins_of s).
Proof.
  intros [Hs Ht] Hh Hfp Hn. destruct (pin_line_ok host fp Hh Hfp) as (Hl & H10 & Hcr & Hp).
  replace (host ++ 32 :: fp ++ [10]) with ((host ++ 32 :: fp) ++ [10]) by by rewrite <- app_assoc.
  split.
  - split.
    + apply Forall_app. split; [done|]. apply Forall_app. split; [done|].
      repeat constructor; unfold is_scalar; lia.
    + right. eexists. by rewrite app_assoc.
  - unfold pins_of in *. rewrite lines_app_line, Hcr by done. rewrite omap_app, omap_cons, Hp. simpl.
    rewrite list_to_map_snoc; [done|]. by apply not_elem_of_list_to_map.
Qed.

(** Whether a pin made under [io] reaches the file. *)
Definition pin_saved (io : Io) : bool := io_mkdir io && io_open io && bool_decide (io_write io = None).

Definition removal_saved (io : Io) : bool := io_open io && bool_decide (io_write io = None) && io_rename io.

Lemma abs_text d s : known_hosts d = Some (utf8 s) → str_ok s → abs d = pins_of s.
Proof. intros E Hs. unfold abs. rewrite E. simpl. by rewrite from_utf8_utf8. Qed.

(** The text of a well-formed file, missing files being empty. *)
Lemma file_text d :
  file_ok (known_hosts d) → ∃ s, default [] (known_hosts d) = utf8 s ∧ text_ok s ∧ abs d = pins_of s.
Proof.
  destruct (known_hosts d) as [b|] eqn:E; simpl.
  - intros (s & -> & Hs). exists s. split_and!; [done..|]. apply abs_text; [done | apply Hs].
  - intros _. exists []. split_and!; [done | split; [constructor | by left] |].
    unfold abs. by rewrite E.
Qed.

Lemma pin_spec io d host fp :
  io_ok io → file_ok (known_hosts d) → host_ok host → Forall is_hex fp → abs d !! host = None →
  ∃ d', pin io d host fp = (if pin_saved io then Ok tt else Err OtherIo, d') ∧ file_ok (known_hosts d')
    ∧ abs d' = if pin_saved io then <[host := fp]> (abs d) else abs d.
Proof.
  intros [_ Hio] Hf Hh Hfp Hn. unfold pin, pin_saved, write_all.
  destruct (io_mkdir io), (io_open io); simpl; try (by exists d).
  destruct (file_text d Hf) as (s & -> & Hs & Ha). rewrite Ha in *.
  destruct Hio as [-> | ->]; simpl; eexists; (split; [done|]); simpl.
  - destruct (pins_of_app s host fp Hs Hh Hfp Hn) as [Hok Hp]. rewrite <- utf8_app. split.
    + by eexists.
    + rewrite <- Hp. apply abs_text; [done | apply Hok].
  - rewrite app_nil_r. split; [by eexists|]. apply abs_text; [done | apply Hs].
Qed.

Lemma remove_none ls host :
  length (base.filter (λ l, is_match host l = true) ls) = 0%nat →
  base.filter (λ l, is_match host l = false) ls = ls.
Proof.
  intros H%length_zero_iff_nil. induction ls as [|l ls IH]; [done|].
  rewrite filter_cons in H. rewrite filter_cons. destruct (is_match host l) eqn:E.
  - by rewrite decide_True in H.
  - rewrite decide_False in H by done. rewrite decide_True by done. by rewrite IH.
Qed.

Lemma remove_some ls host :
  length (base.filter (λ l, is_match host l = true) ls) ≠ 0%nat →
  is_Some ((list_to_map (omap parse_pin ls) : Tofu.Pins) !! host).
Proof.
  induction ls as [|l ls IH]; [done|]. rewrite filter_cons, omap_cons, parse_pin_unfold.
  unfold is_match at 1. case_decide as E.
  - intros _. destruct (split_once 32 l) as [[h fp]|]; [|done]. apply bool_decide_eq_true in E as ->.
    simpl. rewrite lookup_insert_eq. by eexists.
  - intros H. destruct (split_once 32 l) as [[h fp]|]; [|by apply IH]. simpl.
    rewrite lookup_insert_ne by (intros ->; by rewrite bool_decide_eq_true_2 in E). by apply IH.
Qed.

Lemma remove_spec io d host :
  io_ok io → file_ok (known_hosts d) →
  ∃ r d', remove_known_host io d host = (r, d') ∧ file_ok (known_hosts d')
    ∧ (match r with Ok n => Some (bool_decide (n ≠ 0%nat)) | Err _ => None end, abs d')
      = Tofu.remove (abs d) host (removal_saved io).
Proof.
  intros [Hr Hio] Hf. unfold remove_known_host, read_to_string, Tofu.remove, removal_saved, write_all.
  destruct (known_hosts d) as [b|] eqn:E.
  2: { unfold abs at 2. rewrite E. simpl. rewrite lookup_empty. do 2 eexists.
       split_and!; [done | by rewrite E |]. unfold abs. by rewrite E. }
  destruct Hf as (s & -> & Hs). rewrite Hr, from_utf8_utf8 by apply Hs. cbn [ok_or].
  rewrite (abs_text d s) by first [done | apply Hs].
  pose proof (pins_of_remove s host) as Hp. pose proof (remove_text_ok s host Hs) as Hok.
  destruct (remove_host_lines s host) as [body removed] eqn:Er. simpl in Hp, Hok.
  assert (removed = length (base.filter (λ l, is_match host l = true) (lines s))) as Hrem
    by (unfold remove_host_lines in Er; congruence).
  assert (file_ok (known_hosts d)) as Hf by (rewrite E; by eexists).
  assert (abs d = pins_of s) as Ha by (apply abs_text; [done | apply Hs]).
  case_bool_decide as E0.
  - subst removed. apply remove_none in E0. pose proof (pins_delete (lines s) host) as Hd.
    rewrite E0 in Hd. unfold pins_of. rewrite Hd, lookup_delete_eq. do 2 eexists.
    split_and!; [done..|]. by rewrite Ha, <- Hd.
  - assert (is_Some (pins_of s !! host)) as [fp ->] by (apply remove_some; by rewrite <- Hrem).
    destruct (io_open io); simpl; [|by do 2 eexists; split_and!; [done..|]; rewrite Ha].
    destruct Hio as [-> | ->]; simpl;
      [destruct (io_rename io); simpl|]; do 2 eexists; (split; [done|]); simpl.
    + split; [by eexists|]. rewrite bool_decide_eq_true_2 by done. f_equal. rewrite <- Hp.
      apply abs_text; [done | apply Hok].
    + split; [by eexists|]. f_equal. by apply abs_text; [|apply Hs].
    + split; [by eexists|]. f_equal. by apply abs_text; [|apply Hs].
Qed.

(** ** Histories *)
Definition outcome : Type := result TlsError unit + option bool.

Definition outcome_of (r : report) : outcome :=
  match r with
  | Verdict v => inl v
  | Removed (Ok n) => inr (Some (bool_decide (n ≠ 0%nat)))
  | Removed (Err _) => inr None
  end.

(** The same use of the specification. *)
Definition spec_step (sha256 : bytes → bytes) (m : Tofu.Pins) (o : op) : outcome * Tofu.Pins :=
  match o with
  | Connect io webpki tty host cert =>
      let fp := cert_fingerprint sha256 cert in
      let '(v, m') := Tofu.connect m host fp webpki (prompt_accept tty host fp) (pin_saved io) in
      (inl v, m')
  | Remove io host =>
      let '(b, m') := Tofu.remove m host (removal_saved io) in (inr b, m')
  end.

Fixpoint spec_run (sha256 : bytes → bytes) (m : Tofu.Pins) (ops : list op) : list outcome * Tofu.Pins :=
  match ops with
  | [] => ([], m)
  | o :: r =>
      let '(x, m1) := spec_step sha256 m o in
      let '(xs, m2) := spec_run sha256 m1 r in (x :: xs, m2)
  end.

Definition op_ok (o : op) : Prop :=
  match o with
  | Connect io _ _ host _ => io_ok io ∧ host_ok host
  | Remove io _ => io_ok io
  end.

Section Histories.
Context (sha256 : bytes → bytes) (sha256_ok : ∀ c, bytes_ok (sha256 c)).

Lemma step_refines d o :
  op_ok o → file_ok (known_hosts d) →
  ∃ r d', step sha256 d o = (r, d') ∧ file_ok (known_hosts d')
    ∧ spec_step sha256 (abs d) o = (outcome_of r, abs d').
Proof using sha256_ok.
  intros Ho Hf. destruct o as [io webpki tty host cert|io host]; simpl in *.
  - destruct Ho as [Hio Hh]. pose proof (cert_fingerprint_chars sha256 cert (sha256_ok cert)) as Hfp.
    unfold verify_server_cert, Tofu.connect. destruct webpki; [by do 2 eexists|].
    rewrite lookup_pins by (done || apply Hio).
    destruct (abs d !! host) as [p|] eqn:E; [by case_bool_decide; do 2 eexists|].
    destruct (prompt_accept _ _ _); simpl; [|by do 2 eexists].
    destruct (pin_spec io d host _ Hio Hf Hh Hfp E) as (d' & -> & Hf' & Ha).
    destruct (pin_saved io); simpl; do 2 eexists; by split_and!; [done..|rewrite Ha].
  - destruct (remove_spec io d host Ho Hf) as (r & d' & -> & Hf' & Hr). rewrite <- Hr.
    do 2 eexists. split_and!; [done..|]. by destruct r.
Qed.

Lemma run_refines d ops :
  Forall op_ok ops → file_ok (known_hosts d) →
  file_ok (known_hosts (run sha256 d ops).2)
  ∧ spec_run sha256 (abs d) ops = (outcome_of <$> (run sha256 d ops).1, abs (run sha256 d ops).2).
Proof using sha256_ok.
  intros Ho. revert d. induction Ho as [|o ops Ho Hops IH]; intros d Hf; [done|]. simpl.
  destruct (step_refines d o Ho Hf) as (r & d1 & -> & Hf1 & ->).
  destruct (IH d1 Hf1) as [Hf2 ->]. by destruct (run sha256 d1 ops).
Qed.

(** A pin stays until it is removed. *)
Lemma spec_run_pinned m ops host fp :
  m !! host = Some fp → Forall (λ o, match o with Remove _ h => h ≠ host | _ => True end) ops →
  (spec_run sha256 m ops).2 !! host = Some fp.
Proof.
  intros Hm H. revert m Hm. induction H as [|o ops Ho Hops IH]; intros m Hm; [done|]. simpl.
  destruct (spec_step sha256 m o) as [x m1] eqn:E.
  assert (m1 !! host = Some fp) as Hm1.
  { destruct o as [io webpki tty h cert|io h]; simpl in E;
      unfold Tofu.connect, Tofu.remove in E; repeat case_match; simplify_eq/=; try done.
    - rewrite lookup_insert_ne; [done|]. congruence.
    - by rewrite lookup_delete_ne. }
  specialize (IH m1 Hm1). by destruct (spec_run sha256 m1 ops).
Qed.

(** C16: the [known_hosts] file implements trust on first use.
    From any readable file that is UTF-8 and ends with a newline (or is missing),
    through any sequence of connections and removals, each failing or not to reach
    the disk, the verdicts and the pins read from the file are those of the
    specification: a certificate is trusted when the Web PKI vouches for it, when
    its fingerprint is the pinned one, or when the host has no pin, the user
    approves and the pin is stored; a removal deletes that host's pins and no
    others; and the file stays well-formed. *)
Theorem tofu_refines (d : Disk) (ops : list op) :
  Forall op_ok ops → file_ok (known_hosts d) →
  file_ok (known_hosts (run sha256 d ops).2)
  ∧ spec_run sha256 (abs d) ops = (outcome_of <$> (run sha256 d ops).1, abs (run sha256 d ops).2).
Proof using sha256_ok. apply run_refines. Qed.

(** C15: a changed host key is never accepted silently, as long as the pins can be
    read. Let the [known_hosts] file be readable, absent or UTF-8 with its last line
    terminated, at the start; let every host the client meets be free of spaces and
    newlines, and every read of the file succeed, a write that fails leaving it as
    it was. Once a host is pinned, and until its pin is removed, a certificate with
    another digest that the Web PKI does not vouch for is refused as a mismatch,
    without a question: whatever the terminal would answer, whatever else the
    client connects to or removes in between. (A file that cannot be read, that is
    not UTF-8, or whose last line is unterminated is outside: there the changed key
    is asked about like a new one, [unreadable_file_asks], [unterminated_pin_lost].) *)
Theorem changed_key_refused (d : Disk) (ops : list op) (io : Io) (tty : option bytes) (host : str)
  (cert cert' : bytes) :
  Forall op_ok ops → file_ok (known_hosts d) → io_ok io →
  abs d !! host = Some (cert_fingerprint sha256 cert) →
  Forall (λ o, match o with Remove _ h => h ≠ host | _ => True end) ops →
  sha256 cert' ≠ sha256 cert →
  let d' := (run sha256 d ops).2 in
  verify_server_cert sha256 io false tty d' host cert' = (Err HostKeyMismatch, d').
Proof using sha256_ok.
  intros Ho Hf [Hr _] Hp Hno Hne d'. destruct (run_refines d ops Ho Hf) as [Hf' Hspec].
  pose proof (spec_run_pinned (abs d) ops host _ Hp Hno) as Hpin. rewrite Hspec in Hpin.
  unfold verify_server_cert. rewrite lookup_pins by done. simpl in Hpin. fold d' in Hpin. rewrite Hpin.
  rewrite bool_decide_eq_false_2; [done|]. intros E. apply Hne. symmetry.
  rewrite !cert_fingerprint_hex in E. by apply hex_inj in E.
Qed.

End Histories.

(** ** What the hypotheses exclude *)
Definition io_good : Io := mkIo true true true None true.

(** A file whose last line has no newline loses that pin to the next one. *)
Example unterminated_pin_lost :
  let d := mkDisk (Some (lit "a:1 aa")) None in
  let d' := (pin io_good d (lit "b:1") (lit "bb")).2 in
  lookup io_good d (lit "a:1") = Some (lit "aa")
  ∧ lookup io_good d' (lit "a:1") = Some (lit "aab:1 bb") ∧ lookup io_good d' (lit "b:1") = None.
Proof. vm_compute. done. Qed.

(** A file that cannot be read, or is not UTF-8, is an unknown host: the question
    says there is no entry, and a yes trusts the new key. *)
Example unreadable_file_asks :
  let io := mkIo false true true None true in
  let d := mkDisk (Some (lit "a:1 aa" ++ [10])) None in
  (verify_server_cert (λ c, c) io_good false (Some (lit "yes" ++ [10])) d (lit "a:1") [0xbb]).1
    = Err HostKeyMismatch
  ∧ (verify_server_cert (λ c, c) io false (Some (lit "yes" ++ [10])) d (lit "a:1") [0xbb]).1 = Ok tt.
Proof. vm_compute. done. Qed.

Definition demo_ops : list op :=
  [Connect io_good false (Some (lit "fp" ++ [10] ++ lit " YES" ++ [10])) (lit "h:4433") [1; 2];
   Connect io_good false None (lit "h:4433") [1; 2]].

Lemma tofu_refines_witness :
  (run (λ c, (λ b, b mod 256) <$> c) (mkDisk None None) demo_ops).1 = [Verdict (Ok tt); Verdict (Ok tt)]
  ∧ file_ok (known_hosts (run (λ c, (λ b, b mod 256) <$> c) (mkDisk None None) demo_ops).2).
Proof.
  split; [by vm_compute|].
  refine (proj1 (tofu_refines (λ c, (λ b, b mod 256) <$> c) _ (mkDisk None None) demo_ops _ _)).
  - intros c. apply Forall_fmap. apply Forall_true. intros b. unfold is_u8. simpl. zdiv_lia.
  - repeat constructor; by_dec.
  - exact I.
Defined.

Definition demo_disk : Disk := mkDisk (Some (lit "h:4433 0102" ++ [10])) None.

Lemma changed_key_refused_witness :
  let d' := (run (λ c, (λ b, b mod 256) <$> c) demo_disk demo_ops).2 in
  verify_server_cert (λ c, (λ b, b mod 256) <$> c) io_good false (Some (lit "yes" ++ [10])) d' (lit "h:4433") [9]
  = (Err HostKeyMismatch, d').
Proof.
  refine (changed_key_refused (λ c, (λ b, b mod 256) <$> c) _ demo_disk demo_ops io_good _ _ [1; 2] [9] _ _ _ _ _ _).
  - intros c. apply Forall_fmap. apply Forall_true. intros b. unfold is_u8. simpl. zdiv_lia.
  - repeat constructor; by_dec.
  - exists (lit "h:4433 0102" ++ [10]). split; [reflexivity|]. split; [by_dec | right; by exists (lit "h:4433 0102")].
  - split; [reflexivity | by left].
  - by vm_compute.
  - repeat constructor.
  - by vm_compute.
Defined.

End TofuFile.
