(* ===== verification/Endpoint.v ===== *)
(** * Endpoint: the TLS and QUIC settings of the two ends

    [endpoint] and the rest of [TofuVerifier] of [quish-client/src/connect.rs];
    [transport_config] and [dev_endpoint] of [quish-server/src/transport.rs]; the
    endpoint [run] builds in [quish-server/src/worker.rs], with its [SingleCert], on
    the key [ProxySigningKey] of [quish-server/src/signproxy.rs]. rustls, quinn,
    rcgen and the Web PKI roots are crates: parameters. *)
From S2P Require Import Prelude RustStr Postcard Base64 Proto Net Ipc Sign Auth Totp Pubkey Oidc Challenge Privdrop Monitor Login Session Worker Transport Config Startup KnownHosts.
Import Ipc.

Module Endpoint.

Definition ALPN : bytes := lit "h3".

(** [quinn::TransportConfig]: the settings either end makes. *)
Record TransportConfig := mkTransport {
  max_idle_timeout : option Z;
  keep_alive_interval : option Z;
  max_concurrent_bidi_streams : Z;
}.

(** [quinn::ServerConfig] and [quinn::ClientConfig], by what the program puts in
    them; the key is what signs the handshake. *)
Inductive HostKey :=
| LocalKey (pkcs8 : bytes)
| ProxyKey (scheme : Z) (algorithm : Sign.SignatureAlgorithm) (timeout : Z).

Record CertifiedKey := mkCertified { chain : list bytes; host_key : HostKey }.

Record ServerEndpoint := mkServer {
  s_resolve : str → option CertifiedKey;
  s_alpn : list bytes;
  s_transport : TransportConfig;
}.

Record ClientEndpoint := mkClient {
  c_host_key : str;
  c_known_hosts : str;
  c_alpn : list bytes;
  c_transport : TransportConfig;
}.

Section Quinn.
(** [TransportConfig::default()]; [IdleTimeout::try_from] of a duration. *)
Variable default_transport : TransportConfig.
Variable idle_try_from : Z → option Z.

(** ** The server *)

(** [None] is the panic of [expect]. *)
Definition transport_config : option TransportConfig :=
  idle ← idle_try_from Transport.IDLE_TIMEOUT;
  Some (mkTransport (Some idle) (keep_alive_interval default_transport) Transport.MAX_CHANNELS_PER_CONN).

Inductive EndpointError := GenerateCert | TlsConfig | QuicConfig | BindEndpoint | NoRuntime | WebPki | NoHomeDir.

(** The stages of [dev_endpoint]: rcgen's certificate and key, the TLS
    configuration of them, QUIC's of that, the socket. The key is in the process. *)
Definition dev_endpoint (generated : option (bytes * bytes)) (tls_ok quic_ok bound : bool) :
    result EndpointError (option ServerEndpoint) :=
  '(cert, key) ← ok_or GenerateCert generated;
  if negb tls_ok then Err TlsConfig
  else if negb quic_ok then Err QuicConfig
  else match transport_config with
       | None => Ok None
       | Some t =>
           if bound then Ok (Some (mkServer (λ _, Some (mkCertified [cert] (LocalKey key))) [ALPN] t))
           else Err BindEndpoint
       end.

Definition SIGN_TIMEOUT : Z := secs 10.

(** [ProxySigningKey::new], and the methods of its [SigningKey]. *)
Definition proxy_new (scheme : Z) : HostKey := ProxyKey scheme (Sign.algorithm_of scheme) SIGN_TIMEOUT.

(** The one certificate, whatever name the client asks for. *)
Definition SingleCert_resolve (certified : CertifiedKey) (_ : str) : option CertifiedKey := Some certified.

(** The end of [worker::run]: the certificate the monitor sent, the key a proxy. *)
Definition worker_endpoint (w : Startup.Worker) (quic_ok runtime bound : bool) :
    result EndpointError (option ServerEndpoint) :=
  let certified := mkCertified [Startup.w_cert w] (proxy_new (Startup.w_scheme w)) in
  if negb quic_ok then Err QuicConfig
  else match transport_config with
       | None => Ok None
       | Some t =>
           if negb runtime then Err NoRuntime
           else if bound then Ok (Some (mkServer (SingleCert_resolve certified) [ALPN] t))
           else Err BindEndpoint
       end.

(** ** The client *)
Definition KEEP_ALIVE : Z := secs 15.

Definition endpoint (webpki : bool) (home : option str) (quic_ok bound : bool) (host : str) :
    result EndpointError ClientEndpoint :=
  if negb webpki then Err WebPki
  else
    known_hosts ← ok_or NoHomeDir (KnownHosts.known_hosts_path home);
    if negb quic_ok then Err QuicConfig
    else if bound then
      Ok (mkClient host known_hosts [ALPN]
            (mkTransport (max_idle_timeout default_transport) (Some KEEP_ALIVE)
               (max_concurrent_bidi_streams default_transport)))
    else Err BindEndpoint.

(** The verifier leaves the signatures of the handshake to the provider. *)
Section Signatures.
Variables (Algorithms Signed : Type).
Variables rustls_verify_tls12 rustls_verify_tls13 : bytes → bytes → Signed → Algorithms → bool.
Variable supported_schemes : Algorithms → list Z.

Definition verify_tls12_signature (provider : Algorithms) (message cert : bytes) (dss : Signed) : bool :=
  rustls_verify_tls12 message cert dss provider.
Definition verify_tls13_signature (provider : Algorithms) (message cert : bytes) (dss : Signed) : bool :=
  rustls_verify_tls13 message cert dss provider.
Definition supported_verify_schemes (provider : Algorithms) : list Z := supported_schemes provider.
End Signatures.

(** ** What the settings give *)

(** QUIC's idle timeout of a connection: the smaller of the two advertised. *)
Definition effective_idle (a b : option Z) : option Z :=
  match a, b with
  | Some x, Some y => Some (Z.min x y)
  | Some x, None | None, Some x => Some x
  | None, None => None
  end.

(** The crates: a timeout that fits is itself, and the default, which is the
    client's, is longer than the client's keep-alive. *)
Hypothesis idle_fits : ∀ d, d / millis 1 < 2 ^ 62 → idle_try_from d = Some d.
Hypothesis default_idle : ∀ d, max_idle_timeout default_transport = Some d → KEEP_ALIVE < d.

Lemma transport_config_Some :
  transport_config =
    Some (mkTransport (Some Transport.IDLE_TIMEOUT) (keep_alive_interval default_transport) Transport.MAX_CHANNELS_PER_CONN).
Proof using idle_fits. unfold transport_config. by rewrite idle_fits by by_dec. Qed.

(** Either server, once built. *)
Lemma dev_endpoint_Ok generated tls_ok quic_ok bound s :
  dev_endpoint generated tls_ok quic_ok bound = Ok s →
  ∃ t cert key, s = Some (mkServer (λ _, Some (mkCertified [cert] (LocalKey key))) [ALPN] t) ∧
    max_idle_timeout t = Some Transport.IDLE_TIMEOUT ∧ generated = Some (cert, key).
Proof using idle_fits.
  unfold dev_endpoint. rewrite transport_config_Some. destruct generated as [[cert key]|]; [|done].
  destruct tls_ok, quic_ok, bound; try done. intros [= <-]. by eexists _, cert, key.
Qed.

Lemma worker_endpoint_Ok w quic_ok runtime bound s :
  worker_endpoint w quic_ok runtime bound = Ok s →
  ∃ t, s = Some (mkServer (SingleCert_resolve (mkCertified [Startup.w_cert w] (proxy_new (Startup.w_scheme w)))) [ALPN] t) ∧
    max_idle_timeout t = Some Transport.IDLE_TIMEOUT.
Proof using idle_fits.
  unfold worker_endpoint. rewrite transport_config_Some.
  destruct quic_ok, runtime, bound; try done. intros [= <-]. by eexists.
Qed.

Lemma endpoint_Ok webpki home quic_ok bound host c :
  endpoint webpki home quic_ok bound host = Ok c →
  c_host_key c = host ∧ c_alpn c = [ALPN] ∧ KnownHosts.known_hosts_path home = Some (c_known_hosts c) ∧
  keep_alive_interval (c_transport c) = Some KEEP_ALIVE ∧
  max_idle_timeout (c_transport c) = max_idle_timeout default_transport.
Proof using Type.
  unfold endpoint. destruct webpki; [|done]. destruct (KnownHosts.known_hosts_path home) as [k|]; [|done].
  destruct quic_ok, bound; try done. by intros [= <-].
Qed.

(** An idle session is kept: between any client and either server, the
    keep-alive comes before the idle timeout the two settle on, so a shell at
    which nobody types is not taken for a dead connection. *)
Lemma keep_alive_in_time c t webpki home quic_ok bound host :
  endpoint webpki home quic_ok bound host = Ok c → max_idle_timeout t = Some Transport.IDLE_TIMEOUT →
  ∃ k idle, keep_alive_interval (c_transport c) = Some k ∧
    effective_idle (max_idle_timeout (c_transport c)) (max_idle_timeout t) = Some idle ∧ k < idle.
Proof using default_idle.
  intros (_ & _ & _ & Hk & Hi)%endpoint_Ok Ht. rewrite Hi, Ht. exists KEEP_ALIVE.
  destruct (max_idle_timeout default_transport) as [d|] eqn:Ed; eexists; (split_and!; [done|reflexivity|]).
  - apply Z.min_glb_lt; [by apply default_idle|by_dec].
  - by_dec.
Qed.

Section Handoff.
Context {b64 : Base64} {b64ok : Base64Ok}.
Variables (show_addr : SocketAddr → str) (parse_addr : str → option SocketAddr).
Variables (parent_env : Env) (cfg : Config.MonitorConfig).
Variable sha256 : bytes → bytes.

(** The host a client pins is the monitor's. The worker reads its settings
    from the environment the monitor gives it and builds its endpoint; then
    whatever name a client asks for, it presents the monitor's certificate and
    nothing else, on a key that is the proxy to the monitor, in the scheme of the
    host key; it speaks the client's protocol; the keep-alive of the client comes
    before the idle timeout; and a client that has this certificate's fingerprint
    pinned for the host accepts it without a question, one that has another
    refuses it. *)
Theorem host_identity_presented (ctrl sign : str) (cert : bytes) (w : Startup.Worker) (s : ServerEndpoint)
    (c : ClientEndpoint) (quic_ok runtime bound webpki quic_ok' bound' : bool) (home : option str) (host name : str)
    (io : KnownHosts.Io) (tty : option bytes) (d : KnownHosts.Disk) (fp : str) :
  Startup.cfg_ok show_addr parse_addr cfg → str_ok ctrl → str_ok sign → bytes_ok cert →
  Startup.worker_settings parse_addr
    (Startup.worker_env parent_env (Startup.worker_vars show_addr cfg ctrl sign cert)) = Ok w →
  worker_endpoint w quic_ok runtime bound = Ok (Some s) →
  endpoint webpki home quic_ok' bound' host = Ok c →
  KnownHosts.lookup io d (c_host_key c) = Some fp →
  s_resolve s name = Some (mkCertified [cert] (ProxyKey Startup.SIGN_SCHEME Sign.ECDSA SIGN_TIMEOUT)) ∧
  s_alpn s = c_alpn c ∧
  (∃ k idle, keep_alive_interval (c_transport c) = Some k ∧
     effective_idle (max_idle_timeout (c_transport c)) (max_idle_timeout (s_transport s)) = Some idle ∧ k < idle) ∧
  (KnownHosts.verify_server_cert sha256 io false tty d host cert).1
    = if bool_decide (fp = cert_fingerprint sha256 cert) then Ok tt else Err KnownHosts.HostKeyMismatch.
Proof using b64ok idle_fits default_idle.
  intros Hcfg Hctrl Hsign Hcert Hw Hs Hc Hl.
  rewrite (proj1 (Startup.worker_handoff show_addr parse_addr parent_env cfg ctrl sign cert Hcfg Hctrl Hsign Hcert)) in Hw.
  injection Hw as <-. apply worker_endpoint_Ok in Hs as (t & [= ->] & Ht).
  pose proof (keep_alive_in_time c t _ _ _ _ _ Hc Ht) as Hk. apply endpoint_Ok in Hc as (<- & Ha & _).
  split_and!; [done|done|exact Hk|]. unfold KnownHosts.verify_server_cert. rewrite Hl. by case_bool_decide.
Qed.

End Handoff.
End Quinn.

(** ** A start of both ends, with quinn's default of thirty seconds *)
Definition quinn_default : TransportConfig := mkTransport (Some (secs 30)) None 100.

Definition demo_server : option ServerEndpoint :=
  default None (res_ok (worker_endpoint quinn_default Some Startup.demo_told true true true)).
Definition demo_client : result EndpointError ClientEndpoint :=
  endpoint quinn_default true (Some (lit "/home/bob")) true true (lit "h:4433").
Definition of_demo {A} (d : A) (r : result EndpointError A) : A := default d (res_ok r).
Definition the_server : ServerEndpoint := default (mkServer (λ _, None) [] quinn_default) demo_server.
Definition the_client : ClientEndpoint := of_demo (mkClient [] [] [] quinn_default) demo_client.

Lemma host_identity_presented_witness :
  s_resolve the_server (lit "any") = Some (mkCertified [[1; 0]] (ProxyKey Startup.SIGN_SCHEME Sign.ECDSA SIGN_TIMEOUT)) ∧
  s_alpn the_server = c_alpn the_client ∧
  (∃ k idle, keep_alive_interval (c_transport the_client) = Some k ∧
     effective_idle (max_idle_timeout (c_transport the_client)) (max_idle_timeout (s_transport the_server)) = Some idle ∧ k < idle) ∧
  (KnownHosts.verify_server_cert (λ _, [1; 2]) TofuFile.io_good false None TofuFile.demo_disk (lit "h:4433") [1; 0]).1
    = if bool_decide (lit "0102" = cert_fingerprint (λ _, [1; 2]) [1; 0]) then Ok tt else Err KnownHosts.HostKeyMismatch.
Proof.
  apply (host_identity_presented quinn_default Some (λ d _, eq_refl) ltac:(by intros d [= <-]) Startup.demo_show Startup.demo_parse ∅
    Startup.demo_cfg (λ _, [1; 2]) (lit "/run/quishd.sock.d-7/ctrl") (lit "/run/quishd.sock.d-7/sign") [1; 0]
    Startup.demo_told the_server the_client true true true true true true (Some (lit "/home/bob"))).
  - split; by_dec.
  - by_dec.
  - by_dec.
  - by_dec.
  - vm_compute. reflexivity.
  - vm_compute. reflexivity.
  - vm_compute. reflexivity.
  - vm_compute. reflexivity.
Defined.

End Endpoint.
