(* ===== verification/Target.v ===== *)
(** * Target: what the client's command line and configuration ask for

    [quish-client/src/main.rs]: [parse_target], [resolve_target], the forward
    specs, [socket_target] and the start of [main] and [run]; and
    [quish-client/src/config.rs]. Parsing TOML and parsing an IP address are
    parameters. *)
From S2P Require Import Prelude RustStr Net Proto.

Module Target.

Definition AT : Z := 64.
Definition SLASH : Z := 47.
Definition COLON : Z := 58.
Definition LBRACKET : Z := 91.
Definition RBRACKET : Z := 93.

(** The [bail!]s and [context]s of the parsers. *)
Inductive SpecError :=
| MissingBracket | InvalidPort | TextAfterBracket | MissingHost
| BadShape | InvalidLocalPort | InvalidRemotePort | InvalidBind | NotLoopback
| NoHome | OutOfFuel.

#[global] Instance specerror_eq_dec : EqDecision SpecError.
Proof. solve_decision. Defined.

(** ** Targets *)
Record Target := mkTarget { t_user : str; t_host : str; t_port : Z; t_path : str }.

Record RawTarget := mkRaw {
  raw_user : option str;
  raw_host : str;
  raw_port : option Z;
  raw_path : option str;
}.

Definition parse_port (s : str) : result SpecError Z := ok_or InvalidPort (parse_uint 16 s).

(** [host[:port]], the part of a target before its path. *)
Definition parse_hostport (hostport : str) : result SpecError (str * option Z) :=
  match strip_prefix [LBRACKET] hostport with
  | Some rest =>
      '(addr, after) ← ok_or MissingBracket (split_once RBRACKET rest);
      match strip_prefix [COLON] after with
      | Some p => port ← parse_port p; Ok (addr, Some port)
      | None => if bool_decide (after = []) then Ok (addr, None) else Err TextAfterBracket
      end
  | None =>
      match rsplit_once COLON hostport with
      | Some (h, p) =>
          if contains COLON h then Ok (hostport, None)
          else port ← parse_port p; Ok (h, Some port)
      | None => Ok (hostport, None)
      end
  end.

Definition parse_target (s : str) : result SpecError RawTarget :=
  let '(user, rest) :=
    match split_once AT s with Some (u, r) => (Some u, r) | None => (None, s) end in
  let '(hostport, path) :=
    match split_once SLASH rest with Some (hp, p) => (hp, Some (SLASH :: p)) | None => (rest, None) end in
  '(host, port) ← parse_hostport hostport;
  if bool_decide (host = []) then Err MissingHost else Ok (mkRaw user host port path).

Definition socket_target (host : str) (port : Z) : str :=
  if contains COLON host then [LBRACKET] ++ host ++ [RBRACKET; COLON] ++ show_uint port
  else host ++ [COLON] ++ show_uint port.

(** ** The configuration *)
Record HostBlock := mkBlock {
  hb_host : str;
  hb_port : option Z;
  hb_user : option str;
  hb_path : option str;
  hb_identity : option str;
  hb_local_forward : list str;
  hb_remote_forward : list str;
}.

Record ClientConfig := mkConfig { defaults_identity : option str; hosts : gmap str HostBlock }.

Definition ClientConfig_default : ClientConfig := mkConfig None ∅.

Inductive ConfigError := ConfigHome | ConfigRead | ConfigParse.

(** [load_from]. [present] is what reading the file gives: [None] if it is not
    there, [Some None] if it cannot be read. *)
Definition load_from (toml : str → option ClientConfig) (read : str → option (option str)) (path : str) :
    result ConfigError ClientConfig :=
  match read path with
  | None => Ok ClientConfig_default
  | Some None => Err ConfigRead
  | Some (Some text) => ok_or ConfigParse (toml text)
  end.

(** [PathBuf::join] *)
Definition path_push (base p : str) : str :=
  match p with
  | c :: _ => if c =? SLASH then p
              else match last base with
                   | None => p
                   | Some d => if d =? SLASH then base ++ p else base ++ [SLASH] ++ p
                   end
  | [] => match last base with None => [] | Some d => if d =? SLASH then base else base ++ [SLASH] end
  end.

Definition load (toml : str → option ClientConfig) (read : str → option (option str))
    (quish_config home : option str) : result ConfigError ClientConfig :=
  match quish_config with
  | Some p => load_from toml read p
  | None =>
      h ← ok_or ConfigHome home;
      load_from toml read (path_push (path_push (path_push h (lit ".config")) (lit "quish")) (lit "config.toml"))
  end.

Definition expand_tilde (home : option str) (p : str) : result SpecError str :=
  match strip_prefix (lit "~/") p with
  | Some rest => h ← ok_or NoHome home; Ok (path_push h rest)
  | None => Ok p
  end.

(** [whoami], from [USER] *)
Definition whoami (user_env : option str) : str := default (lit "root") user_env.

Record Resolved := mkResolved {
  r_target : Target;
  r_identity : option str;
  r_local_forward : list str;
  r_remote_forward : list str;
}.

(** [a.or_else(|| b)] *)
Definition or_else {A} (a b : option A) : option A := match a with Some _ => a | None => b end.

Definition resolve_target (user_env : option str) (raw : RawTarget) (cfg : ClientConfig) : Resolved :=
  let block := hosts cfg !! raw_host raw in
  mkResolved
    (mkTarget
      (default (whoami user_env) (or_else (raw_user raw) (block ≫= hb_user)))
      (default (raw_host raw) (hb_host <$> block))
      (default 4433 (or_else (raw_port raw) (block ≫= hb_port)))
      (default DEFAULT_PATH (or_else (raw_path raw) (block ≫= hb_path))))
    (or_else (block ≫= hb_identity) (defaults_identity cfg))
    (default [] (hb_local_forward <$> block))
    (default [] (hb_remote_forward <$> block)).

(** ** Forward specs *)
Fixpoint split_tokens (fuel : nat) (rest : str) (tokens : list str) : result SpecError (list str) :=
  match fuel with
  | O => Err OutOfFuel
  | S fuel' =>
      match strip_prefix [LBRACKET] rest with
      | Some inner =>
          '(addr, after) ← ok_or MissingBracket (split_once RBRACKET inner);
          match strip_prefix [COLON] after with
          | Some r => split_tokens fuel' r (tokens ++ [addr])
          | None => if bool_decide (after = []) then Ok (tokens ++ [addr]) else Err TextAfterBracket
          end
      | None =>
          match split_once COLON rest with
          | Some (tok, r) => split_tokens fuel' r (tokens ++ [tok])
          | None => Ok (tokens ++ [rest])
          end
      end
  end.

(** The loop drops at least a character each time round. *)
Definition split_forward_tokens (s : str) : result SpecError (list str) :=
  split_tokens (S (length s)) s [].

Record ForwardSpec := mkForward { f_bind : IpAddr; f_lport : Z; f_rhost : str; f_rport : Z }.

Record RemoteForwardSpec := mkRemoteForward { rf_bind : IpAddr; rf_rport : Z; rf_lhost : str; rf_lport : Z }.

Definition LOCALHOST : IpAddr := V4 (127 * 2 ^ 24 + 1).

Section Specs.
(** [IpAddr::from_str] *)
Variable parse_ip : str → option IpAddr.

Definition parse_bind (tok : option str) : result SpecError IpAddr :=
  match tok with
  | Some b => ok_or InvalidBind (parse_ip b)
  | None => Ok LOCALHOST
  end.

Definition spec_tokens (tokens : list str) : result SpecError (option str * str * str * str) :=
  match tokens with
  | [a; h; b] => Ok (None, a, h, b)
  | [bind; a; h; b] => Ok (Some bind, a, h, b)
  | _ => Err BadShape
  end.

Definition parse_forward (s : str) : result SpecError ForwardSpec :=
  tokens ← split_forward_tokens s;
  '(bind_tok, lport_tok, rhost_tok, rport_tok) ← spec_tokens tokens;
  lport ← ok_or InvalidLocalPort (parse_uint 16 lport_tok);
  rport ← ok_or InvalidRemotePort (parse_uint 16 rport_tok);
  if bool_decide (rhost_tok = []) then Err MissingHost
  else
    bind ← parse_bind bind_tok;
    if negb (is_loopback bind) then Err NotLoopback
    else Ok (mkForward bind lport rhost_tok rport).

Definition parse_remote_forward (s : str) : result SpecError RemoteForwardSpec :=
  tokens ← split_forward_tokens s;
  '(bind_tok, rport_tok, lhost_tok, lport_tok) ← spec_tokens tokens;
  rport ← ok_or InvalidRemotePort (parse_uint 16 rport_tok);
  lport ← ok_or InvalidLocalPort (parse_uint 16 lport_tok);
  if bool_decide (lhost_tok = []) then Err MissingHost
  else
    bind ← parse_bind bind_tok;
    if negb (is_loopback bind) then Err NotLoopback
    else Ok (mkRemoteForward bind rport lhost_tok lport).

(** ** From the command line to the plan *)
Record Args := mkArgs {
  a_target : str;
  a_command : list str;
  a_identity : option str;
  a_local_forward : list str;
  a_remote_forward : list str;
}.

(** What the client then does on the connection. *)
Inductive Mode :=
| Forwarding (forwards : list ForwardSpec) (remote_forwards : list RemoteForwardSpec)
| Channel (open : ChannelOpen) (interactive : bool).

Record Plan := mkPlan { p_target : Target; p_identity : option str; p_mode : Mode }.

(** The merge in [main]. *)
Definition identity_chain (home : option str) (cli : option str) (cfg_identity : option str) :
    result SpecError (option str) :=
  match cli, cfg_identity with
  | Some p, _ => Ok (Some p)
  | None, Some s => p ← expand_tilde home s; Ok (Some p)
  | None, None => Ok None
  end.

Fixpoint collect {A B} (f : A → result SpecError B) (l : list A) : result SpecError (list B) :=
  match l with
  | [] => Ok []
  | x :: r => y ← f x; ys ← collect f r; Ok (y :: ys)
  end.

(** The mode [run] chooses, with the terminal's size and [TERM]. *)
Definition choose_mode (fs : list ForwardSpec) (rs : list RemoteForwardSpec) (command : list str)
    (term : option str) (cols rows : Z) : Mode :=
  if negb (bool_decide (fs = [])) || negb (bool_decide (rs = [])) then Forwarding fs rs
  else if bool_decide (command = []) then Channel (Shell (default (lit "xterm") term) cols rows) true
  else Channel (Exec (join [32] command)) false.

(** [main] from the parsed arguments to the network: [home], [user_env] and
    [term] are the environment. *)
Definition client_plan (home user_env term : option str) (cols rows : Z) (cfg : ClientConfig) (args : Args) :
    result SpecError Plan :=
  raw ← parse_target (a_target args);
  let resolved := resolve_target user_env raw cfg in
  identity ← identity_chain home (a_identity args) (r_identity resolved);
  fs ← collect parse_forward (r_local_forward resolved ++ a_local_forward args);
  rs ← collect parse_remote_forward (r_remote_forward resolved ++ a_remote_forward args);
  Ok (mkPlan (r_target resolved) identity (choose_mode fs rs (a_command args) term cols rows)).

End Specs.

(** ** Targets, written and read back *)
Definition show_port (port : option Z) : str :=
  match port with Some p => COLON :: show_uint p | None => [] end.

Definition show_host (h : str) : str :=
  if contains COLON h then LBRACKET :: h ++ [RBRACKET] else h.

Definition show_target (r : RawTarget) : str :=
  match raw_user r with Some u => u ++ [AT] | None => [] end
  ++ show_host (raw_host r) ++ show_port (raw_port r) ++ default [] (raw_path r).

Record raw_ok (r : RawTarget) : Prop := {
  ro_user : match raw_user r with
            | Some u => AT ∉ u
            | None => AT ∉ raw_host r ∧ AT ∉ default [] (raw_path r)
            end;
  ro_host : raw_host r ≠ [] ∧ SLASH ∉ raw_host r ∧ LBRACKET ∉ raw_host r ∧ RBRACKET ∉ raw_host r;
  ro_port : match raw_port r with Some p => in_u 16 p | None => True end;
  ro_path : match raw_path r with Some p => head p = Some SLASH | None => True end;
}.

(** The characters of a printed number. *)
Lemma show_uint_avoids c n : 0 ≤ n → c < 48 ∨ 57 < c → c ∉ show_uint n.
Proof.
  intros Hn Hc Hin. pose proof (show_uint_digits n Hn) as H. rewrite Forall_forall in H.
  apply H in Hin. lia.
Qed.

Lemma show_port_avoids c port :
  match port with Some p => in_u 16 p | None => True end → c < 48 ∨ 58 < c → c ∉ show_port port.
Proof.
  destruct port as [p|]; simpl; [|by intros _ _ ?%not_elem_of_nil].
  intros [Hp _] Hc. apply not_elem_of_cons. split; [unfold COLON; lia|].
  apply show_uint_avoids; [done | lia].
Qed.

Lemma parse_port_show p : in_u 16 p → parse_port (show_uint p) = Ok p.
Proof. intros H. unfold parse_port. by rewrite parse_show_uint. Qed.

Lemma strip_prefix_one c s : strip_prefix [c] s = match s with x :: r => if c =? x then Some r else None | [] => None end.
Proof. by destruct s. Qed.

Lemma parse_hostport_show h port :
  LBRACKET ∉ h → RBRACKET ∉ h → match port with Some p => in_u 16 p | None => True end →
  parse_hostport (show_host h ++ show_port port) = Ok (h, port).
Proof.
  intros HL HR Hp. unfold show_host, parse_hostport. destruct (contains COLON h) eqn:Hc.
  - rewrite strip_prefix_one. cbn [app]. rewrite Z.eqb_refl, <- app_assoc. cbn [app].
    rewrite split_once_app by done. simpl. destruct port as [p|]; simpl; [|done].
    by rewrite parse_port_show.
  - apply contains_false in Hc.
    assert (strip_prefix [LBRACKET] (h ++ show_port port) = None) as ->.
    { rewrite strip_prefix_one. destruct h as [|x h]; [by destruct port|]. cbn [app].
      destruct (Z.eqb_spec LBRACKET x); [set_solver | done]. }
    destruct port as [p|]; cbn [show_port].
    + rewrite (proj2 (rsplit_once_Some COLON _ h (show_uint p))).
      { rewrite (proj2 (contains_false COLON h) Hc). by rewrite parse_port_show. }
      split; [done|]. apply show_uint_avoids; [apply Hp | unfold COLON; lia].
    + rewrite app_nil_r. unfold rsplit_once. rewrite (proj2 (split_once_None _ _)); [done|].
      by rewrite elem_of_reverse.
Qed.

Lemma show_host_avoids c h : c ∉ h → c ≠ LBRACKET → c ≠ RBRACKET → c ∉ show_host h.
Proof. intros. unfold show_host. destruct (contains _ _); set_solver. Qed.

(** The text before the first [@] is the user, wherever that [@] stands. *)
Example at_in_path_leaks :
  show_target (mkRaw None (lit "h") None (Some (lit "/x@y"))) = lit "h/x@y" ∧
  parse_target (lit "h/x@y") = Ok (mkRaw (Some (lit "h/x")) (lit "y") None None).
Proof. done. Qed.

(** C31: a target is read back as it was written, if it has no stray [@].
    For a user without [@], a nonempty host without slash or brackets (bracketed
    when it holds a colon), a 16-bit port and an absolute path, each optional but
    the host, and, when the user is absent, no [@] in the host or the path either,
    [parse_target] of the text [user@host:port/path] gives exactly those fields: no
    part leaks into another, and an absent one stays absent. (Without a user an [@]
    in the path does leak: [h/x@y] is read as user [h/x] on host [y].) *)
Theorem target_roundtrip (r : RawTarget) : raw_ok r → parse_target (show_target r) = Ok r.
Proof.
  destruct r as [user host port path]. intros [Hu (Hne & Hs & HL & HR) Hp Hpath]. simpl in *.
  unfold parse_target, show_target. simpl.
  set (rest := show_host host ++ show_port port ++ default [] path).
  assert (match split_once AT (match user with Some u => u ++ [AT] | None => [] end ++ rest) with
          | Some (u, r) => (Some u, r) | None => (None, match user with Some u => u ++ [AT] | None => [] end ++ rest)
          end = (user, rest)) as ->.
  { destruct user as [u|].
    - rewrite <- app_assoc. simpl. by rewrite split_once_app.
    - destruct Hu as [Hh Hq]. simpl. rewrite (proj2 (split_once_None _ _)); [done|].
      unfold rest. rewrite !not_elem_of_app. split_and!; [|apply show_port_avoids; [done | unfold AT; lia] | done].
      by apply show_host_avoids. }
  assert (match split_once SLASH rest with Some (hp, p) => (hp, Some (SLASH :: p)) | None => (rest, None) end
          = (show_host host ++ show_port port, path)) as ->.
  { assert (SLASH ∉ show_host host ++ show_port port) as Hn.
    { apply not_elem_of_app. split; [by apply show_host_avoids|].
      apply show_port_avoids; [done | unfold SLASH; lia]. }
    unfold rest. rewrite app_assoc. destruct path as [q|]; simpl.
    - destruct q as [|c q]; simplify_eq/=. by rewrite split_once_app.
    - rewrite app_nil_r. by rewrite (proj2 (split_once_None _ _)). }
  rewrite parse_hostport_show by done. simpl. by rewrite bool_decide_eq_false_2.
Qed.

Lemma target_roundtrip_witness :
  let r := mkRaw (Some (lit "bob")) (lit "fe80::1") (Some 22) (Some (lit "/x@y")) in
  show_target r = lit "bob@[fe80::1]:22/x@y" ∧ parse_target (show_target r) = Ok r.
Proof.
  split; [reflexivity|]. apply target_roundtrip. constructor; simpl.
  - by_dec.
  - split_and!; by_dec.
  - by_dec.
  - reflexivity.
Defined.

(** Pins are kept by [socket_target]: it never confuses two endpoints. *)
Theorem socket_target_inj (h1 h2 : str) (p1 p2 : Z) :
  in_u 16 p1 → in_u 16 p2 → socket_target h1 p1 = socket_target h2 p2 → h1 = h2 ∧ p1 = p2.
Proof.
  intros H1 H2. assert (∀ h p, in_u 16 p → rsplit_once COLON (socket_target h p) = Some (show_host h, show_uint p)) as Hr.
  { intros h p [Hp _]. apply rsplit_once_Some. split.
    - unfold socket_target, show_host. destruct (contains COLON h); simpl; [|done].
      f_equal. by rewrite <- app_assoc.
    - apply show_uint_avoids; [done | unfold COLON; lia]. }
  intros E. apply (f_equal (rsplit_once COLON)) in E. rewrite !Hr in E by done. injection E as Eh Ep.
  split.
  - unfold show_host in Eh. destruct (contains COLON h1) eqn:E1, (contains COLON h2) eqn:E2.
    + injection Eh as Eh. by apply app_inj_2 in Eh as [-> _].
    + apply contains_true in E1. apply contains_false in E2. subst h2. set_solver.
    + apply contains_true in E2. apply contains_false in E1. subst h1. set_solver.
    + done.
  - assert (Some p1 = Some p2) as [= ->]; [|done].
    by rewrite <- (parse_show_uint 16 p1), <- (parse_show_uint 16 p2), Ep.
Qed.

(** ** Forward specs: the loop ends, and specs are read back *)
Lemma split_once_shorter c s a b : split_once c s = Some (a, b) → (length b < length s)%nat.
Proof. intros [-> _]%split_once_Some. rewrite length_app. simpl. lia. Qed.

Lemma strip_prefix_one_shorter c s r : strip_prefix [c] s = Some r → (length r < length s)%nat.
Proof. intros ->%strip_prefix_Some. simpl. lia. Qed.

Lemma split_tokens_fuel fuel rest tokens :
  (length rest < fuel)%nat → split_tokens fuel rest tokens ≠ Err OutOfFuel.
Proof.
  revert rest tokens. induction fuel as [|fuel IH]; intros rest tokens Hf; [lia|]. cbn [split_tokens].
  destruct (strip_prefix [LBRACKET] rest) as [inner|] eqn:E.
  - apply strip_prefix_one_shorter in E.
    destruct (split_once RBRACKET inner) as [[addr after]|] eqn:Es; [|done].
    apply split_once_shorter in Es. cbn [ok_or mbind result_bind].
    destruct (strip_prefix [COLON] after) as [r|] eqn:Ec; [|by case_bool_decide].
    apply strip_prefix_one_shorter in Ec. apply IH. lia.
  - destruct (split_once COLON rest) as [[tok r]|] eqn:Es; [|done].
    apply split_once_shorter in Es. apply IH. lia.
Qed.

(** A token as it is written: bracketed when it holds a colon. *)
Definition show_tokens (tokens : list str) : str := join [COLON] (show_host <$> tokens).

Definition token_ok (t : str) : Prop := LBRACKET ∉ t ∧ RBRACKET ∉ t.

Lemma split_tokens_one fuel t tokens :
  token_ok t → split_tokens (S fuel) (show_host t) tokens = Ok (tokens ++ [t]).
Proof.
  intros [HL HR]. cbn [split_tokens]. unfold show_host. destruct (contains COLON t) eqn:Hc.
  - rewrite strip_prefix_one, Z.eqb_refl, split_once_app by done. done.
  - apply contains_false in Hc. rewrite strip_prefix_one.
    destruct t as [|x t]; [done|]. destruct (Z.eqb_spec LBRACKET x); [set_solver|].
    by rewrite (proj2 (split_once_None _ _)).
Qed.

Lemma split_tokens_cons fuel t rest tokens :
  token_ok t →
  split_tokens (S fuel) (show_host t ++ COLON :: rest) tokens = split_tokens fuel rest (tokens ++ [t]).
Proof.
  intros [HL HR]. cbn [split_tokens]. unfold show_host. destruct (contains COLON t) eqn:Hc.
  - rewrite strip_prefix_one. cbn [app]. rewrite Z.eqb_refl, <- app_assoc. cbn [app].
    rewrite split_once_app by done. cbn [ok_or mbind result_bind].
    by rewrite strip_prefix_one, Z.eqb_refl.
  - apply contains_false in Hc.
    assert (strip_prefix [LBRACKET] (t ++ COLON :: rest) = None) as ->.
    { rewrite strip_prefix_one. destruct t as [|x t]; [done|]. cbn [app].
      destruct (Z.eqb_spec LBRACKET x); [set_solver | done]. }
    by rewrite split_once_app.
Qed.

Lemma split_tokens_show fuel ts tokens :
  ts ≠ [] → Forall token_ok ts → (length ts ≤ fuel)%nat →
  split_tokens fuel (show_tokens ts) tokens = Ok (tokens ++ ts).
Proof.
  intros Hne H. revert fuel tokens. induction H as [|t ts Ht Hts IH]; intros fuel tokens Hf; [done|].
  destruct fuel as [|fuel]; simpl in Hf; [lia|]. destruct ts as [|t' ts].
  - by apply split_tokens_one.
  - change (show_tokens (t :: t' :: ts)) with (show_host t ++ COLON :: show_tokens (t' :: ts)).
    rewrite split_tokens_cons, IH by first [done | simpl in *; lia]. by rewrite <- app_assoc.
Qed.

Lemma show_tokens_length ts : (length ts ≤ S (length (show_tokens ts)))%nat.
Proof.
  induction ts as [|t ts IH]; simpl; [lia|]. destruct ts as [|t' ts]; [simpl; lia|].
  change (show_tokens (t :: t' :: ts)) with (show_host t ++ COLON :: show_tokens (t' :: ts)).
  rewrite length_app. simpl in *. lia.
Qed.

Lemma split_forward_tokens_show ts :
  ts ≠ [] → Forall token_ok ts → split_forward_tokens (show_tokens ts) = Ok ts.
Proof. intros. unfold split_forward_tokens. apply split_tokens_show; [done..|]. apply show_tokens_length. Qed.

Lemma show_uint_token_ok p : in_u 16 p → token_ok (show_uint p).
Proof. intros [Hp _]. split; apply show_uint_avoids; unfold LBRACKET, RBRACKET; lia. Qed.

Ltac tokens_ok := first [done | rewrite !Forall_cons, Forall_nil; auto 10 using show_uint_token_ok].

(** What a parsed spec is sure to be. *)
Definition forward_ok (f : ForwardSpec) : Prop :=
  is_loopback (f_bind f) = true ∧ in_u 16 (f_lport f) ∧ in_u 16 (f_rport f) ∧ f_rhost f ≠ [].

Definition remote_forward_ok (f : RemoteForwardSpec) : Prop :=
  is_loopback (rf_bind f) = true ∧ in_u 16 (rf_lport f) ∧ in_u 16 (rf_rport f) ∧ rf_lhost f ≠ [].

Section ForwardSpecs.
Variable parse_ip : str → option IpAddr.
(** Printing an address gives text without brackets that parses back. *)
Variable show_ip : IpAddr → str.

Definition show_forward (f : ForwardSpec) : str :=
  show_tokens [show_ip (f_bind f); show_uint (f_lport f); f_rhost f; show_uint (f_rport f)].

Definition show_forward_short (f : ForwardSpec) : str :=
  show_tokens [show_uint (f_lport f); f_rhost f; show_uint (f_rport f)].

Definition show_remote_forward (f : RemoteForwardSpec) : str :=
  show_tokens [show_ip (rf_bind f); show_uint (rf_rport f); rf_lhost f; show_uint (rf_lport f)].

(** A forward spec is read back as it was written.
    For a loopback bind address, 16-bit ports and a non-empty host without
    brackets, [parse_forward] of [bind:lport:host:rport], IPv6 parts in brackets,
    gives exactly those four; without the bind part it gives the same with
    127.0.0.1; and [parse_remote_forward] reads its spec the same way. *)
Theorem forward_roundtrip (f : ForwardSpec) (g : RemoteForwardSpec) :
  (∀ ip, ip = f_bind f ∨ ip = rf_bind g → parse_ip (show_ip ip) = Some ip ∧ token_ok (show_ip ip)) →
  forward_ok f → token_ok (f_rhost f) → remote_forward_ok g → token_ok (rf_lhost g) →
  parse_forward parse_ip (show_forward f) = Ok f
  ∧ (f_bind f = LOCALHOST → parse_forward parse_ip (show_forward_short f) = Ok f)
  ∧ parse_remote_forward parse_ip (show_remote_forward g) = Ok g.
Proof using Type.
  intros Hip (Hl & Hlp & Hrp & Hh) Ht (Gl & Glp & Grp & Gh) Gt. split_and!.
  - unfold parse_forward, show_forward. destruct (Hip (f_bind f) (or_introl eq_refl)) as [Hb Hbt].
    rewrite split_forward_tokens_show by tokens_ok.
    simpl. rewrite !parse_show_uint by done. simpl. rewrite bool_decide_eq_false_2 by done.
    rewrite Hb. simpl. rewrite Hl. by destruct f.
  - intros E. unfold parse_forward, show_forward_short.
    rewrite split_forward_tokens_show by tokens_ok.
    simpl. rewrite !parse_show_uint by done. simpl. rewrite bool_decide_eq_false_2 by done.
    destruct f; simpl in *. by subst.
  - unfold parse_remote_forward, show_remote_forward. destruct (Hip (rf_bind g) (or_intror eq_refl)) as [Hb Hbt].
    rewrite split_forward_tokens_show by tokens_ok.
    simpl. rewrite !parse_show_uint by done. simpl. rewrite bool_decide_eq_false_2 by done.
    rewrite Hb. simpl. rewrite Gl. by destruct g.
Qed.

(** ** The plan is well-typed *)
Lemma parse_forward_sound s f : parse_forward parse_ip s = Ok f → forward_ok f.
Proof using Type.
  unfold parse_forward. intros (tokens & _ & H)%result_bind_Ok.
  apply result_bind_Ok in H as ([[[b l] rh] rp] & _ & H).
  apply result_bind_Ok in H as (lport & Hl & H). apply result_bind_Ok in H as (rport & Hr & H).
  case_bool_decide as Hne; [done|]. apply result_bind_Ok in H as (bind & _ & H).
  destruct (is_loopback bind) eqn:Hb; [|done]. injection H as <-.
  destruct (parse_uint 16 l) as [?|] eqn:El; [|done]. destruct (parse_uint 16 rp) as [?|] eqn:Er; [|done].
  apply parse_uint_bound in El, Er; [|lia..]. simpl in *. simplify_eq. by split_and!.
Qed.

Lemma parse_remote_forward_sound s f : parse_remote_forward parse_ip s = Ok f → remote_forward_ok f.
Proof using Type.
  unfold parse_remote_forward. intros (tokens & _ & H)%result_bind_Ok.
  apply result_bind_Ok in H as ([[[b l] rh] rp] & _ & H).
  apply result_bind_Ok in H as (rport & Hr & H). apply result_bind_Ok in H as (lport & Hl & H).
  case_bool_decide as Hne; [done|]. apply result_bind_Ok in H as (bind & _ & H).
  destruct (is_loopback bind) eqn:Hb; [|done]. injection H as <-.
  destruct (parse_uint 16 l) as [?|] eqn:El; [|done]. destruct (parse_uint 16 rp) as [?|] eqn:Er; [|done].
  apply parse_uint_bound in El, Er; [|lia..]. simpl in *. simplify_eq. by split_and!.
Qed.

Lemma collect_Forall2 {A B} (f : A → result SpecError B) l ys :
  collect f l = Ok ys → Forall2 (λ x y, f x = Ok y) l ys.
Proof using Type.
  revert ys. induction l as [|x l IH]; intros ys; simpl; [by intros [= <-]|].
  intros (y & Hy & (ys' & Hys & [= <-])%result_bind_Ok)%result_bind_Ok. constructor; auto.
Qed.

Lemma collect_no_fuel {A B} (f : A → result SpecError B) l :
  (∀ x, f x ≠ Err OutOfFuel) → collect f l ≠ Err OutOfFuel.
Proof using Type.
  intros Hf. induction l as [|x l IH]; [done|]. simpl.
  intros [H | (y & _ & [H | (ys & _ & H)]%result_bind_Err)]%result_bind_Err; [by apply (Hf x) | done..].
Qed.

Lemma parse_target_typed s r :
  parse_target s = Ok r →
  raw_host r ≠ [] ∧ (∀ p, raw_port r = Some p → in_u 16 p)
  ∧ (∀ u, raw_user r = Some u → AT ∉ u) ∧ (∀ p, raw_path r = Some p → head p = Some SLASH).
Proof using Type.
  unfold parse_target. destruct (match split_once AT s with Some (u, r) => (Some u, r) | None => (None, s) end)
    as [user rest] eqn:Eu.
  destruct (match split_once SLASH rest with Some (hp, p) => (hp, Some (SLASH :: p)) | None => (rest, None) end)
    as [hp path] eqn:Ep.
  intros ([host port] & Hhp & H)%result_bind_Ok. case_bool_decide as Hne; [done|]. injection H as <-. simpl.
  split_and!; [done| | |].
  - intros p ->. revert Hhp. unfold parse_hostport, parse_port.
    assert (∀ t, ok_or InvalidPort (parse_uint 16 t) = Ok p → in_u 16 p) as Hb.
    { intros t. destruct (parse_uint 16 t) eqn:E; [|done]. intros [= <-]. by eapply parse_uint_bound; [|done]. }
    destruct (strip_prefix [LBRACKET] hp) as [x|].
    + intros ([a b] & _ & H)%result_bind_Ok. destruct (strip_prefix [COLON] b); [|by case_bool_decide].
      apply result_bind_Ok in H as (q & Hq & [= <- <-]). by eapply Hb.
    + destruct (rsplit_once COLON hp) as [[a b]|]; [|done]. destruct (contains COLON a); [done|].
      intros (q & Hq & [= <- <-])%result_bind_Ok. by eapply Hb.
  - intros u ->. destruct (split_once AT s) as [[??]|] eqn:E; simplify_eq. by apply split_once_Some in E as [_ ?].
  - intros p ->. by destruct (split_once SLASH rest) as [[??]|]; simplify_eq.
Qed.

(** Neither parser runs out of fuel. *)
Lemma ok_or_bind_no_fuel {A B} e (o : option A) (k : A → result SpecError B) :
  e ≠ OutOfFuel → (∀ a, k a ≠ Err OutOfFuel) → (ok_or e o ≫= k) ≠ Err OutOfFuel.
Proof using Type. destruct o; simpl; [auto | congruence]. Qed.

Lemma parse_target_no_fuel s : parse_target s ≠ Err OutOfFuel.
Proof using Type.
  unfold parse_target. destruct (match split_once AT s with Some (u, r) => (Some u, r) | None => (None, s) end)
    as [user rest].
  destruct (match split_once SLASH rest with Some (hp, p) => (hp, Some (SLASH :: p)) | None => (rest, None) end)
    as [hp path].
  intros [H | ([h port] & _ & H)]%result_bind_Err; [|by case_bool_decide]. revert H.
  unfold parse_hostport, parse_port. destruct (strip_prefix [LBRACKET] hp).
  - apply ok_or_bind_no_fuel; [done|]. intros [a b]. destruct (strip_prefix [COLON] b); [|by case_bool_decide].
    by apply ok_or_bind_no_fuel.
  - destruct (rsplit_once COLON hp) as [[a b]|]; [|done]. destruct (contains COLON a); [done|].
    by apply ok_or_bind_no_fuel.
Qed.

Lemma spec_tokens_no_fuel {B} ts (k : _ → result SpecError B) :
  (∀ x, k x ≠ Err OutOfFuel) → (spec_tokens ts ≫= k) ≠ Err OutOfFuel.
Proof using Type. intros H. by destruct ts as [|? [|? [|? [|? [|??]]]]]; simpl; try done; apply H. Qed.

Lemma split_bind_no_fuel {B} s (k : _ → result SpecError B) :
  (∀ x, k x ≠ Err OutOfFuel) → (split_forward_tokens s ≫= k) ≠ Err OutOfFuel.
Proof using Type.
  intros H. pose proof (split_tokens_fuel (S (length s)) s [] ltac:(lia)) as Hf.
  unfold split_forward_tokens. destruct (split_tokens _ _ _); simpl; [auto | congruence].
Qed.

Lemma bind_addr_no_fuel {B} tok (k : IpAddr → result SpecError B) :
  (∀ x, k x ≠ Err OutOfFuel) → (parse_bind parse_ip tok ≫= k) ≠ Err OutOfFuel.
Proof using Type. intros H. destruct tok as [b|]; simpl; [|auto]. by apply ok_or_bind_no_fuel. Qed.

Ltac no_fuel_step :=
  first [apply split_bind_no_fuel | apply spec_tokens_no_fuel | apply ok_or_bind_no_fuel; [done|]
        | apply bind_addr_no_fuel].

Lemma parse_forward_no_fuel s : parse_forward parse_ip s ≠ Err OutOfFuel.
Proof using Type.
  unfold parse_forward. no_fuel_step. intros ts. no_fuel_step. intros [[[b l] rh] rp].
  no_fuel_step. intros lp. no_fuel_step. intros rp'. case_bool_decide; [done|].
  no_fuel_step. intros ip. by destruct (is_loopback ip).
Qed.

Lemma parse_remote_forward_no_fuel s : parse_remote_forward parse_ip s ≠ Err OutOfFuel.
Proof using Type.
  unfold parse_remote_forward. no_fuel_step. intros ts. no_fuel_step. intros [[[b l] rh] rp].
  no_fuel_step. intros lp. no_fuel_step. intros rp'. case_bool_decide; [done|].
  no_fuel_step. intros ip. by destruct (is_loopback ip).
Qed.

Lemma identity_chain_no_fuel home cli cfg : identity_chain home cli cfg ≠ Err OutOfFuel.
Proof using Type.
  unfold identity_chain, expand_tilde. destruct cli, cfg as [s|]; try done.
  destruct (strip_prefix (lit "~/") s); [|done]. by destruct home.
Qed.

Lemma resolve_port_u16 user_env raw cfg :
  (∀ a b p, hosts cfg !! a = Some b → hb_port b = Some p → in_u 16 p) →
  (∀ p, raw_port raw = Some p → in_u 16 p) →
  in_u 16 (t_port (r_target (resolve_target user_env raw cfg))).
Proof using Type.
  intros Hc Hr. unfold resolve_target. simpl. destruct (raw_port raw) as [p|]; simpl; [by apply Hr|].
  destruct (hosts cfg !! raw_host raw) as [b|] eqn:E; simpl; [|unfold in_u; lia].
  destruct (hb_port b) as [p|] eqn:Eb; simpl; [by eapply Hc | unfold in_u; lia].
Qed.

(** C27: the client's plan is well-typed, and complete.
    Whatever the arguments and the configuration, planning ends with an error or
    a plan. In a plan the port is a 16-bit number; every [-L] and [-R] spec, the
    configuration's before the command line's, has become a forward, in order,
    with a loopback bind address, 16-bit ports and a host; forwarding is chosen
    exactly when there is one, and otherwise a channel, interactive exactly when
    no command is given. One malformed spec leaves no plan. *)
Theorem client_plan_typed (home user_env term : option str) (cols rows : Z) (cfg : ClientConfig) (args : Args) :
  (∀ a b p, hosts cfg !! a = Some b → hb_port b = Some p → in_u 16 p) →
  match client_plan parse_ip home user_env term cols rows cfg args with
  | Err e => e ≠ OutOfFuel
  | Ok p =>
      in_u 16 (t_port (p_target p)) ∧
      ∃ raw, parse_target (a_target args) = Ok raw ∧
        let res := resolve_target user_env raw cfg in
        let ls := r_local_forward res ++ a_local_forward args in
        let rs := r_remote_forward res ++ a_remote_forward args in
        match p_mode p with
        | Forwarding fs gs =>
            ls ++ rs ≠ [] ∧ Forall forward_ok fs ∧ Forall remote_forward_ok gs
            ∧ Forall2 (λ s f, parse_forward parse_ip s = Ok f) ls fs
            ∧ Forall2 (λ s g, parse_remote_forward parse_ip s = Ok g) rs gs
        | Channel open interactive =>
            ls ++ rs = [] ∧ (interactive = true ↔ a_command args = [])
        end
  end.
Proof using Type.
  intros Hcfg. unfold client_plan.
  destruct (parse_target (a_target args)) as [raw|e] eqn:Et; cbn [mbind result_bind].
  2: { intros ->. by apply (parse_target_no_fuel (a_target args)). }
  set (res := resolve_target user_env raw cfg).
  destruct (identity_chain home (a_identity args) (r_identity res)) as [id|e] eqn:Ei; cbn [mbind result_bind].
  2: { intros ->. by apply identity_chain_no_fuel in Ei. }
  destruct (collect (parse_forward parse_ip) _) as [fs|e] eqn:Ef; cbn [mbind result_bind].
  2: { intros ->. eapply collect_no_fuel; [apply parse_forward_no_fuel | apply Ef]. }
  destruct (collect (parse_remote_forward parse_ip) _) as [gs|e] eqn:Eg; cbn [mbind result_bind].
  2: { intros ->. eapply collect_no_fuel; [apply parse_remote_forward_no_fuel | apply Eg]. }
  apply collect_Forall2 in Ef, Eg. cbn [p_target p_mode].
  split; [apply resolve_port_u16; [done | apply (parse_target_typed _ _ Et)]|].
  exists raw. split; [done|]. fold res. unfold choose_mode.
  pose proof (Forall2_length _ _ _ Ef) as Lf. pose proof (Forall2_length _ _ _ Eg) as Lg.
  destruct (_ || _) eqn:Em.
  - split_and!; [| | |done..].
    + intros [E1 E2]%app_eq_nil. rewrite E1 in Ef. rewrite E2 in Eg. inversion Ef; inversion Eg; by subst.
    + eapply Forall2_Forall_r; [done|]. apply Forall_true. intros s f. apply parse_forward_sound.
    + eapply Forall2_Forall_r; [done|]. apply Forall_true. intros s f. apply parse_remote_forward_sound.
  - apply orb_false_iff in Em as [E1 E2]. bool_to_prop. subst fs gs.
    apply Forall2_nil_inv_r in Ef, Eg. case_bool_decide; (split; [by rewrite Ef, Eg | done]).
Qed.

End ForwardSpecs.

(** ** Witnesses *)
Definition demo_parse_ip (s : str) : option IpAddr :=
  if bool_decide (s = lit "127.0.0.1") then Some LOCALHOST
  else if bool_decide (s = lit "::1") then Some (V6 1) else None.

Definition demo_show_ip (ip : IpAddr) : str :=
  if bool_decide (ip = V6 1) then lit "::1" else lit "127.0.0.1".

Lemma forward_roundtrip_witness :
  let f := mkForward (V6 1) 8080 (lit "db.internal") 5432 in
  let g := mkRemoteForward LOCALHOST 9000 (lit "::1") 22 in
  show_forward demo_show_ip f = lit "[::1]:8080:db.internal:5432"
  ∧ show_remote_forward demo_show_ip g = lit "127.0.0.1:9000:[::1]:22"
  ∧ parse_forward demo_parse_ip (show_forward demo_show_ip f) = Ok f.
Proof.
  split_and!; [reflexivity..|].
  refine (proj1 (forward_roundtrip demo_parse_ip demo_show_ip
    (mkForward (V6 1) 8080 (lit "db.internal") 5432) (mkRemoteForward LOCALHOST 9000 (lit "::1") 22) _ _ _ _ _)).
  - intros ip [-> | ->]; split; [reflexivity | split; by_dec | reflexivity | split; by_dec].
  - split_and!; by_dec.
  - split; by_dec.
  - split_and!; by_dec.
  - split; by_dec.
Defined.

Definition demo_block : HostBlock :=
  mkBlock (lit "10.0.0.7") (Some 2222) (Some (lit "alice")) None (Some (lit "~/id")) [lit "8080:web:80"] [].

Definition demo_cfg : ClientConfig := mkConfig None {[lit "prod" := demo_block]}.

Definition demo_args : Args := mkArgs (lit "bob@prod/sh") [] None [lit "[::1]:53:dns:53"] [].

Lemma client_plan_typed_witness :
  client_plan demo_parse_ip (Some (lit "/home/bob")) None None 80 24 demo_cfg demo_args
  = Ok (mkPlan (mkTarget (lit "bob") (lit "10.0.0.7") 2222 (lit "/sh")) (Some (lit "/home/bob/id"))
      (Forwarding [mkForward LOCALHOST 8080 (lit "web") 80; mkForward (V6 1) 53 (lit "dns") 53] []))
  ∧ in_u 16 2222.
Proof.
  split; [by vm_compute|].
  refine (proj1 (client_plan_typed demo_parse_ip (Some (lit "/home/bob")) None None 80 24 demo_cfg demo_args _)).
  intros a b p Ha Hb. unfold demo_cfg in Ha. cbn [hosts] in Ha. apply lookup_singleton_Some in Ha as [_ <-]. injection Hb as <-. by_dec.
Defined.

End Target.
