(* ===== verification/ClientAuth.v ===== *)
(** * ClientAuth: how the client logs in and opens channels

    [quish-client/src/main.rs]: [build_authorization], the CONNECT request, the
    challenge loop of [open_channel], the requests of forwarded connections, and
    the TOTP enrollment URI; [build_token] of [quish-auth/src/pubkey.rs]. The
    server is a function from a request and its state to a response; the last part
    puts the server of [Transport] there and follows a whole two-factor login. *)
From S2P Require Import Prelude RustStr Postcard Base64 Proto Net RateLimit Ipc Auth Totp Pubkey Oidc Challenge Monitor Login Worker Transport Target.
Import Ipc Auth Challenge.

Module ClientAuth.
Import Monitor Target.

(** The requests' header names, and the cap on follow-up rounds. *)
Definition HEADER_VERSION : str := lit "quish-version".
Definition HEADER_AUTHORIZATION : str := lit "authorization".
Definition HEADER_CHALLENGE_RESPONSE : str := lit "quish-challenge-response".
Definition MAX_CHALLENGE_ROUNDS : nat := 3.

(** ** What the client is given: variables, then what is typed

    [stdin_lines] are the raw lines [read_line] will return ([None]: an error,
    none left: the end of the input); [hidden] what [rpassword] will. *)
Record Env := mkEnv {
  oidc_token : option str;
  password_env : option str;
  totp_env : option str;
  stdin_lines : list (option str);
  hidden : list (option str);
}.

Definition with_stdin (e : Env) (l : list (option str)) : Env :=
  mkEnv (oidc_token e) (password_env e) (totp_env e) l (hidden e).

Definition with_hidden (e : Env) (l : list (option str)) : Env :=
  mkEnv (oidc_token e) (password_env e) (totp_env e) (stdin_lines e) l.

(** [rpassword::prompt_password]: it fails at the end of the input. *)
Definition prompt_password (e : Env) : option str * Env :=
  match hidden e with
  | [] => (None, e)
  | a :: r => (a, with_hidden e r)
  end.

Definition read_prompt (p : Prompt) (e : Env) : option str * Env :=
  match totp_env e with
  | Some v => (Some v, e)
  | None =>
      if echo p then
        match stdin_lines e with
        | [] => (Some [], e)
        | None :: r => (None, with_stdin e r)
        | Some line :: r => (Some (trim_end_matches (λ c, (c =? 13) || (c =? 10)) line), with_stdin e r)
        end
      else prompt_password e
  end.

Inductive ClientError :=
| ReadIdentity | ParseKey | NotEd25519 | ReadPassword | TokenEncodes
| SendingConnect | AuthenticationFailed | VersionMismatch | Rejected (status : Z)
| ReadResponse | InvalidRequest | FrameError.

#[global] Instance clienterror_eq_dec : EqDecision ClientError.
Proof. solve_decision. Defined.

(** ** The [Authorization] header *)
Section Authorization.
Context {b64 : Base64} {pt : Postcard Token}.
Variables (ed_public : bytes → bytes) (ed_sign : bytes → bytes → bytes).
(** [PrivateKey::from_openssh] with [key_data().ed25519()]: [None] when it does
    not parse, [Some None] for another algorithm, else the seed. *)
Variable private_from_openssh : bytes → option (option bytes).

Definition build_token (w : World) (openssh_private_key : bytes) (username : str) (binding : bytes) :
    result ClientError str :=
  match private_from_openssh openssh_private_key with
  | None => Err ParseKey
  | Some None => Err NotEd25519
  | Some (Some sk) => ok_or TokenEncodes (Pubkey.sign_token ed_public ed_sign sk username binding (unix_now w))
  end.

Definition build_authorization (w : World) (e : Env) (user : str) (identity : option str) (binding : bytes) :
    result ClientError str * Env :=
  match oidc_token e with
  | Some ((_ :: _) as token) => (Ok (bearer_header token), e)
  | _ =>
      match identity with
      | Some path =>
          (key ← ok_or ReadIdentity (Oidc.read_file (files w) path);
           token ← build_token w key user binding;
           Ok (bearer_header token), e)
      | None =>
          match password_env e with
          | Some p => (Ok (basic_header user p), e)
          | None =>
              let '(p, e) := prompt_password e in
              (p ← ok_or ReadPassword p; Ok (basic_header user p), e)
          end
      end
  end.

End Authorization.

(** ** The CONNECT request *)
Record ClientReq := mkClientReq {
  cq_uri : str;
  cq_version : str;
  cq_authorization : str;
  cq_challenge_response : option str;
}.

(** [uri_ok] and [header_ok]: what [http::Uri] and [HeaderValue] take; [None] is
    the [expect] on the finished builder. *)
Definition build_connect_request_with (uri_ok header_ok : str → bool) (target : Target)
    (authorization : str) (answer : option str) : option ClientReq :=
  let uri := lit "https://" ++ socket_target (t_host target) (t_port target) ++ t_path target in
  if uri_ok uri && header_ok authorization && forallb header_ok (option_list answer)
  then Some (mkClientReq uri (show_uint PROTOCOL_VERSION) authorization answer)
  else None.

Definition build_connect_request (uri_ok header_ok : str → bool) (target : Target) (authorization : str) :
    option ClientReq :=
  build_connect_request_with uri_ok header_ok target authorization None.

(** ** Opening a channel *)
Section Channels.
Context {b64 : Base64} {pc : Postcard Challenge} {pa : Postcard ChallengeAnswer}.
Variables uri_ok header_ok : str → bool.
(** The connection to the server: its answer to a request, [None] when sending
    or receiving fails. *)
Variable S : Type.
Variable serve : ClientReq → S → option Transport.Resp * S.

(** [map(read).collect()]: the prompts in order, up to the first failure. *)
Fixpoint read_all (ps : list Prompt) (e : Env) : result ClientError (list str) * Env :=
  match ps with
  | [] => (Ok [], e)
  | p :: ps =>
      match read_prompt p e with
      | (None, e) => (Err ReadResponse, e)
      | (Some v, e) =>
          let '(vs, e) := read_all ps e in (cons v <$> vs, e)
      end
  end.

Definition build_challenge_answer (c : Challenge) (e : Env) : result ClientError ChallengeAnswer * Env :=
  let '(rs, e) := read_all (prompts c) e in
  ((λ rs, {| ans_token := ch_token c; responses := rs |}) <$> rs, e).

(** What a run leaves: its result, the server, the environment, and the requests
    it sent. *)
Record Opened := mkOpened {
  o_result : result ClientError unit;
  o_server : S;
  o_env : Env;
  o_sent : list ClientReq;
}.

(** [open_channel]'s loop; [rounds] is how many are left after this one. *)
Fixpoint open_rounds (rounds : nat) (target : Target) (authorization : str) (answer : option str)
    (s : S) (e : Env) : Opened :=
  match build_connect_request_with uri_ok header_ok target authorization answer with
  | None => mkOpened (Err InvalidRequest) s e []
  | Some req =>
      match serve req s with
      | (None, s) => mkOpened (Err SendingConnect) s e [req]
      | (Some resp, s) =>
          if Transport.status resp =? 200 then mkOpened (Ok tt) s e [req]
          else if Transport.status resp =? 401 then
            match Transport.challenge_header resp ≫= decode_challenge, rounds with
            | Some challenge, Datatypes.S rounds' =>
                match build_challenge_answer challenge e with
                | (Err err, e) => mkOpened (Err err) s e [req]
                | (Ok a, e) =>
                    match encode_challenge_answer a with
                    | None => mkOpened (Err TokenEncodes) s e [req]
                    | Some v =>
                        let r := open_rounds rounds' target authorization (Some v) s e in
                        mkOpened (o_result r) (o_server r) (o_env r) (req :: o_sent r)
                    end
                end
            | _, _ => mkOpened (Err AuthenticationFailed) s e [req]
            end
          else if Transport.status resp =? 426 then mkOpened (Err VersionMismatch) s e [req]
          else mkOpened (Err (Rejected (Transport.status resp))) s e [req]
      end
  end.

Definition open_channel (target : Target) (authorization : str) (s : S) (e : Env) : Opened :=
  open_rounds MAX_CHALLENGE_ROUNDS target authorization None s e.

(** The single request of [forward_one], [remote_forward_listen] and
    [remote_forward_data]: anything but 200 ends it. *)
Definition open_plain (target : Target) (authorization : str) (s : S) : result ClientError unit * S :=
  match build_connect_request uri_ok header_ok target authorization with
  | None => (Err InvalidRequest, s)
  | Some req =>
      match serve req s with
      | (None, s) => (Err SendingConnect, s)
      | (Some resp, s) =>
          (if Transport.status resp =? 200 then Ok tt else Err (Rejected (Transport.status resp)), s)
      end
  end.

(** ** Forwarded connections

    What a task does: sends the opening frame on its new stream, then bridges
    the socket, or gives up. *)
Inductive ForwardTask := Bridged (opening : bytes) | Dropped | Failed (e : ClientError).

Context {po : Postcard ChannelOpen} {psig : Postcard AcceptedSignal}.

Definition opening_frame (o : ChannelOpen) : result ClientError bytes :=
  match encode o with Ok b => Ok b | Err _ => Err FrameError end.

Definition forward_one (target : Target) (authorization : str) (rhost : str) (rport : Z) (s : S) : ForwardTask * S :=
  match open_plain target authorization s with
  | (Err e, s) => (Failed e, s)
  | (Ok _, s) =>
      (match opening_frame (Forward rhost rport) with Ok b => Bridged b | Err e => Failed e end, s)
  end.

(** [dialled]: the local service answers. *)
Definition remote_forward_data (dialled : bool) (target : Target) (authorization : str) (conn_ref : Z) (s : S) :
    ForwardTask * S :=
  if negb dialled then (Dropped, s)
  else match open_plain target authorization s with
       | (Err e, s) => (Failed e, s)
       | (Ok _, s) =>
           (match opening_frame (RemoteForwardData conn_ref) with Ok b => Bridged b | Err e => Failed e end, s)
       end.

(** The control channel: the opening frame, and one data task per accept signal
    the reader delivers ([Frames.channel_next]'s frames); the loop ends with the
    stream, or at a frame that is not a signal. *)
Fixpoint accept_signals (bodies : list bytes) : list Z * result ClientError unit :=
  match bodies with
  | [] => ([], Ok tt)
  | b :: r =>
      match decode (T := AcceptedSignal) b with
      | Err _ => ([], Err FrameError)
      | Ok sig => let '(refs, e) := accept_signals r in (as_conn_ref sig :: refs, e)
      end
  end.

(** What it sent first, the connections it took, its end, the server. *)
Definition remote_forward_listen (show_ip : IpAddr → str) (target : Target) (authorization : str)
    (spec : RemoteForwardSpec) (bodies : list bytes) (s : S) :
    option bytes * list Z * result ClientError unit * S :=
  match open_plain target authorization s with
  | (Err e, s) => (None, [], Err e, s)
  | (Ok _, s) =>
      match opening_frame (RemoteForwardListen (show_ip (rf_bind spec)) (rf_rport spec)) with
      | Err e => (None, [], Err e, s)
      | Ok b => let '(refs, e) := accept_signals bodies in (Some b, refs, e, s)
      end
  end.

End Channels.

(** ** Enrollment *)
Definition otpauth_uri (user host b32 : str) : str :=
  lit "otpauth://totp/quish:" ++ user ++ lit "@" ++ host ++ lit "?secret=" ++ b32
  ++ lit "&issuer=quish&algorithm=SHA1&digits=6&period=30".

(** ** The challenge loop against any server *)
Section Bounds.
Context {b64 : Base64} {pc : Postcard Challenge} {pa : Postcard ChallengeAnswer}.
Variables uri_ok header_ok : str → bool.
Variable S : Type.
Variable serve : ClientReq → S → option Transport.Resp * S.

(** A request of this target with this authorization. *)
Definition request_of (target : Target) (authorization : str) (r : ClientReq) : Prop :=
  cq_uri r = lit "https://" ++ socket_target (t_host target) (t_port target) ++ t_path target
  ∧ cq_version r = show_uint PROTOCOL_VERSION ∧ cq_authorization r = authorization.

(** Some state in which the server accepts the request. *)
Definition accepted (r : ClientReq) : Prop :=
  ∃ s resp s', serve r s = (Some resp, s') ∧ Transport.status resp = 200.

Lemma build_request_of target authorization answer r :
  build_connect_request_with uri_ok header_ok target authorization answer = Some r →
  request_of target authorization r ∧ cq_challenge_response r = answer.
Proof using Type. unfold build_connect_request_with. destruct (_ && _); [|done]. by intros [= <-]. Qed.

(** What a run of the loop guarantees with [n] requests to go. *)
Definition run_ok (n : nat) (target : Target) (authorization : str) (answer : option str) (o : Opened S) : Prop :=
  (length (o_sent S o) ≤ n)%nat
  ∧ Forall (request_of target authorization) (o_sent S o)
  ∧ (∀ r, head (o_sent S o) = Some r → cq_challenge_response r = answer)
  ∧ Forall (λ r, is_Some (cq_challenge_response r)) (tail (o_sent S o))
  ∧ (o_result S o = Ok tt → ∃ r, last (o_sent S o) = Some r ∧ accepted r).

Lemma run_ok_one n target authorization answer res s e req :
  request_of target authorization req → cq_challenge_response req = answer →
  (res = Ok tt → accepted req) → run_ok (1 + n) target authorization answer (mkOpened S res s e [req]).
Proof using Type.
  intros Hr Ha Hok. split_and!; simpl; [lia | by constructor | by intros ? [= <-] | constructor |].
  intros E. exists req. auto.
Qed.

Lemma run_ok_more n target authorization answer v o req :
  request_of target authorization req → cq_challenge_response req = answer →
  run_ok n target authorization (Some v) o →
  run_ok (1 + n) target authorization answer (mkOpened S (o_result S o) (o_server S o) (o_env S o) (req :: o_sent S o)).
Proof using Type.
  intros Hr Ha (H1 & H2 & H3 & H4 & H5).
  split_and!; cbn [o_sent o_result tail]; [simpl; lia | by constructor | by intros ? [= <-] | |].
  - destruct (o_sent S o) as [|r0 rs]; [constructor|]. constructor; [|done].
    rewrite (H3 r0) by done. by eexists.
  - intros Hok. destruct (H5 Hok) as (r & Hl & Hacc). exists r. by rewrite last_cons, Hl.
Qed.

Lemma open_rounds_spec rounds target authorization answer s e :
  run_ok (1 + rounds) target authorization answer
    (open_rounds uri_ok header_ok S serve rounds target authorization answer s e).
Proof using Type.
  revert answer s e. induction rounds as [|rounds IH]; intros answer s e; cbn [open_rounds];
    (destruct (build_connect_request_with _ _ _ _ _) as [req|] eqn:Eb;
      [apply build_request_of in Eb as [Hr Ha] | split_and!; simpl; (lia || done || constructor)]);
    destruct (serve req s) as [[resp|] s'] eqn:Es; [|by apply run_ok_one| |by apply run_ok_one];
    (destruct (Z.eqb_spec (Transport.status resp) 200);
      [apply run_ok_one; [done..|]; intros _; by exists s, resp, s'|]);
    (destruct (_ =? 401); [|by destruct (_ =? 426); apply run_ok_one]);
    destruct (Transport.challenge_header resp ≫= decode_challenge) as [c|]; try by apply run_ok_one.
  destruct (build_challenge_answer c e) as [[a|err] e']; [|by apply run_ok_one].
  destruct (encode_challenge_answer a) as [v|]; [|by apply run_ok_one].
  eapply run_ok_more; [done..|]. apply IH.
Qed.

(** A server cannot keep the client answering. Whatever it replies, opening a
    channel sends at least none and at most four requests (one, and three answers
    to challenges), all for the same target and with the same credentials; the
    first carries no answer and every later one does; and it succeeds only if the
    server accepted the last request. *)
Theorem open_channel_bounded (target : Target) (authorization : str) (s : S) (e : Env) :
  let o := open_channel uri_ok header_ok S serve target authorization s e in
  (length (o_sent S o) ≤ 4)%nat
  ∧ Forall (request_of target authorization) (o_sent S o)
  ∧ (∀ r, head (o_sent S o) = Some r → cq_challenge_response r = None)
  ∧ Forall (λ r, is_Some (cq_challenge_response r)) (tail (o_sent S o))
  ∧ (o_result S o = Ok tt → ∃ r, last (o_sent S o) = Some r ∧ accepted r).
Proof using Type.
  apply (open_rounds_spec MAX_CHALLENGE_ROUNDS).
Qed.

End Bounds.

(** ** Against this server *)
Section WithServer.
Context {b64 : Base64} {b64ok : Base64Ok} {pt : Postcard Token}.
Context {pc : Postcard Challenge} {pcok : PostcardOk Challenge}.
Context {pa : Postcard ChallengeAnswer} {paok : PostcardOk ChallengeAnswer}.
Variables uri_ok header_ok : str → bool.
(** [http::Uri::path]. *)
Variable uri_path : str → str.
Variable registry : Registry.
(** The server's path and cap, and the connection the client is on. *)
Variables (path : str) (max_auth_fails conn_id : Z) (conn : ConnInfo).

(** The request as the server's accessors present it. *)
Definition to_req (r : ClientReq) : Transport.Req :=
  Transport.mkReq true true (uri_path (cq_uri r)) (Some (cq_version r)) (Some (cq_authorization r))
    (cq_challenge_response r).

(** The server's side of the connection: what it shares, its parked challenges,
    and what the outside answers during each request still to come. *)
Record ServerSide := mkServerSide {
  ss_shared : Transport.Shared;
  ss_store : ChallengeStore;
  ss_os : list Os;
}.

Definition server_side (r : ClientReq) (s : ServerSide) : option Transport.Resp * ServerSide :=
  match ss_os s with
  | [] => (None, s)
  | os :: oss =>
      let h := Transport.handle_request
        (λ auth ans st,
           let '(o, st) := Transport.dev_authenticate registry os None (os_now os) (os_now' os) conn_id auth ans conn st in
           (fst <$> o, st))
        path (sa_ip (peer_addr conn)) max_auth_fails (os_now os) true (to_req r) (ss_shared s) (ss_store s) in
      (Transport.h_reply h, mkServerSide (Transport.h_shared h) (Transport.h_backend h) oss)
  end.

(** The second factor stands in front of these credentials. *)
Variable hmac_sha1 : bytes → bytes → bytes.
Variable b : Totp.TotpBackend.
Variable creds : Credentials.
Hypothesis second_factor :
  List.find (λ b, dyn_supports b creds) (backends registry) = Some (Dyn (H := Totp.totp_backend hmac_sha1) b).
Hypothesis no_answer : challenge conn = None.

(** A request without an answer is challenged, whatever the first factor says. *)
Lemma plain_challenged w authorization :
  parse_authorization (Some authorization) = Some creds →
  ∃ pending, verdict registry w (Some authorization) conn
             = Totp.open_challenge b w pending
    ∧ pending = match dyn_authenticate (Totp.inner b) w conn creds with Allow u => Some u | _ => None end.
Proof using second_factor no_answer.
  intros Hp. eexists. split; [|done]. unfold verdict. rewrite Hp, dispatch_spec, second_factor. cbn [Dyn dyn_authenticate].
  unfold authenticate, Totp.totp_backend, Totp.totp_authenticate. rewrite no_answer. done.
Qed.

(** The gate, for a request of a client that knows the path. *)
Lemma client_gate target authorization r fails :
  request_of target authorization r →
  uri_path (lit "https://" ++ socket_target (t_host target) (t_port target) ++ t_path target) = path →
  fails < max_auth_fails →
  Transport.gate path max_auth_fails fails (to_req r)
  = Transport.Attempt (Some authorization) (cq_challenge_response r ≫= decode_challenge_answer).
Proof using Type.
  intros (Hu & Hv & Ha) Hp Hf. unfold Transport.gate, Transport.is_quish, to_req. simpl.
  rewrite Hu, Hp, Hv, Ha. rewrite bool_decide_eq_true_2 by done.
  change (version_supported (Some (show_uint PROTOCOL_VERSION))) with true. simpl.
  destruct (Z.leb_spec max_auth_fails fails); [lia | done].
Qed.

(** Round one: the challenge is parked and sent. *)
Lemma server_round_one authorization os auth_state :
  parse_authorization (Some authorization) = Some creds →
  ∃ t, Transport.dev_authenticate registry os None (os_now os) (os_now' os) conn_id (Some authorization) None conn auth_state
  = let state := Auth.mkState (Totp.new_token (os_world os))
      match dyn_authenticate (Totp.inner b) (os_world os) conn creds with Allow u => Some u | _ => None end in
    (Some (Worker.OutChallenge {| ch_token := st_token state;
       prompts := [{| message := Totp.prompt b; echo := false |}] |}, t),
     store_insert conn_id state (os_now' os) auth_state).
Proof using second_factor no_answer.
  intros Hp. destruct (plain_challenged (os_world os) authorization Hp) as (pending & Hv & Hpend).
  unfold Transport.dev_authenticate, registry_authenticate. rewrite Hv. subst pending. by eexists.
Qed.

(** Round two's verdict: the right code for the user the first factor found. *)
Lemma round_two_verdict authorization w peer binding state user secret code c :
  parse_authorization (Some authorization) = Some creds →
  pending_user state = Some user → permits (policy registry) user = true →
  Totp.secret_for b w user = Some secret → parse_uint 32 (trim code) = Some c →
  Totp.verify_at hmac_sha1 secret c (unix_now w) = true →
  verdict registry w (Some authorization) (mkConnInfo peer binding (Some (mkResponse state [code]))) = Allow user.
Proof using second_factor.
  intros Hp Hu Hper Hs Hc Hv. unfold verdict. rewrite Hp, dispatch_spec, second_factor. cbn [Dyn dyn_authenticate].
  unfold authenticate, Totp.totp_backend, Totp.totp_authenticate. simpl. unfold Totp.complete. simpl.
  rewrite Hu. cbn [mbind option_bind]. rewrite Hs. simpl. rewrite Hc. simpl. rewrite Hv. simpl. by rewrite Hper.
Qed.

(** Round two: the parked state is taken, and the right code opens the session. *)
Lemma server_round_two authorization os store state created user secret code c :
  parse_authorization (Some authorization) = Some creds →
  inner store !! conn_id = Some (state, created) → since (os_now os) created ≤ CHALLENGE_TTL →
  pending_user state = Some user → permits (policy registry) user = true →
  Totp.secret_for b (os_world os) user = Some secret → parse_uint 32 (trim code) = Some c →
  Totp.verify_at hmac_sha1 secret c (unix_now (os_world os)) = true →
  ∃ t, Transport.dev_authenticate registry os None (os_now os) (os_now' os) conn_id (Some authorization)
    (Some {| ans_token := st_token state; responses := [code] |}) conn store
  = (Some (Worker.OutAllow, t), mkStore (delete conn_id (inner store))).
Proof using second_factor.
  intros Hp Hst Ht Hu Hper Hs Hc Hv. unfold Transport.dev_authenticate, store_take. simpl. rewrite Hst.
  rewrite bool_decide_eq_true_2 by done.
  destruct (Z.ltb_spec CHALLENGE_TTL (since (os_now os) created)); [lia|]. simpl.
  unfold registry_authenticate. erewrite round_two_verdict by done. by eexists.
Qed.

(** One request, when the gate lets it through. *)
Lemma server_side_step target authorization r sh store os oss :
  request_of target authorization r →
  uri_path (lit "https://" ++ socket_target (t_host target) (t_port target) ++ t_path target) = path →
  Transport.conn_fails sh < max_auth_fails →
  server_side r (mkServerSide sh store (os :: oss))
  = let '(o, st) := Transport.dev_authenticate registry os None (os_now os) (os_now' os) conn_id (Some authorization)
                      (cq_challenge_response r ≫= decode_challenge_answer) conn store in
    let '(resp, _, sh') := Transport.conclude (sa_ip (peer_addr conn)) (os_now os) (fst <$> o) sh in
    (resp, mkServerSide sh' st oss).
Proof using Type.
  intros Hr Hp Hf. unfold server_side. cbn [ss_os ss_shared ss_store]. unfold Transport.handle_request.
  rewrite (client_gate target authorization) by done.
  destruct (Transport.dev_authenticate _ _ _ _ _ _ _ _ _ _) as [o st].
  by destruct (Transport.conclude _ _ _ _) as [[resp sv] sh'].
Qed.

Lemma conclude_challenge ip now c sh :
  Transport.conclude ip now (Some (Worker.OutChallenge c)) sh = (Transport.respond_challenge c, false, sh).
Proof using Type. reflexivity. Qed.

(** Header values of the login are printable. *)
Definition printable (s : str) : Prop := Forall (λ c, 32 ≤ c < 127) s.

Lemma b64_printable l : Forall is_b64 l → printable l.
Proof using Type. intros H. eapply Forall_impl; [done|]. unfold is_b64. lia. Qed.

Lemma basic_header_printable user pass : str_ok user → str_ok pass → printable (basic_header user pass).
Proof using b64ok.
  intros Hu Hp. unfold basic_header. apply Forall_app. split; [by_dec|]. apply b64_printable, b64_alphabet.
  apply utf8_ok, Forall_app. split; [done|]. constructor; [unfold is_scalar, Auth.COLON; lia | done].
Qed.

Lemma answer_printable a v : rust_ok a → encode_challenge_answer a = Some v → printable v.
Proof using b64ok paok.
  intros Ha. unfold encode_challenge_answer. destruct (to_stdvec a) as [bs|] eqn:E; [|done].
  intros [= <-]. apply b64_printable, b64_alphabet. by eapply postcard_bytes.
Qed.

Lemma build_request target authorization answer :
  uri_ok (lit "https://" ++ socket_target (t_host target) (t_port target) ++ t_path target) = true →
  (∀ s, printable s → header_ok s = true) → printable authorization →
  (∀ v, answer = Some v → printable v) →
  ∃ r, build_connect_request_with uri_ok header_ok target authorization answer = Some r
    ∧ request_of target authorization r ∧ cq_challenge_response r = answer.
Proof using Type.
  intros Hu Hh Ha Hv. unfold build_connect_request_with. rewrite Hu, Hh by done.
  assert (forallb header_ok (option_list answer) = true) as ->.
  { destruct answer as [v|]; [|done]. simpl. by rewrite Hh by auto. }
  by eexists.
Qed.

(** The client's half: a challenge answered, and a channel. *)
Lemma open_two_rounds {S} (serve : ClientReq → S → option Transport.Resp * S) target authorization r1 r2 resp1 resp2
    (s0 s1 s2 : S) c a v e e' :
  build_connect_request_with uri_ok header_ok target authorization None = Some r1 →
  serve r1 s0 = (Some resp1, s1) → Transport.status resp1 = 401 →
  Transport.challenge_header resp1 ≫= decode_challenge = Some c →
  build_challenge_answer c e = (Ok a, e') → encode_challenge_answer a = Some v →
  build_connect_request_with uri_ok header_ok target authorization (Some v) = Some r2 →
  serve r2 s1 = (Some resp2, s2) → Transport.status resp2 = 200 →
  open_channel uri_ok header_ok S serve target authorization s0 e = mkOpened S (Ok tt) s2 e' [r1; r2].
Proof using Type.
  intros E1 S1 T1 D1 A V E2 S2 T2. unfold open_channel. cbn [open_rounds MAX_CHALLENGE_ROUNDS].
  rewrite E1, S1, T1, D1, A, V, E2, S2, T2. reflexivity.
Qed.

(** The code the user gives: [QUISH_TOTP] when it is set, or typed at the prompt,
    which does not echo. *)
Definition gives_code (e : Env) (code : str) : Prop :=
  totp_env e = Some code ∨ totp_env e = None ∧ head (hidden e) = Some (Some code).

Lemma answer_code token message code e :
  gives_code e code →
  ∃ e', build_challenge_answer {| ch_token := token; prompts := [{| message := message; echo := false |}] |} e
        = (Ok {| ans_token := token; responses := [code] |}, e').
Proof using Type.
  unfold build_challenge_answer. cbn [prompts read_all ch_token]. unfold read_prompt, prompt_password.
  intros [->|[-> Hh]]; [by eexists|]. cbn [echo].
  destruct (hidden e) as [|a r]; cbn in Hh; [done|]. injection Hh as ->. by eexists.
Qed.

(** What the login needs of the two sides: printable headers, the server's path, a
    connection below its failure cap, a first factor and a policy that accept the
    user, and the current code of the enrolled secret within the challenge's
    minute. *)
Record login_ok (target : Target) (user pass : str) (secret : bytes) (code : str) (c : Z)
    (sh : Transport.Shared) (os1 os2 : Os) : Prop := {
  lo_creds : creds = Password user pass;
  lo_user : str_ok user;
  lo_pass : str_ok pass;
  lo_colon : COLON ∉ user;
  lo_path : uri_path (lit "https://" ++ socket_target (t_host target) (t_port target) ++ t_path target) = path;
  lo_uri : uri_ok (lit "https://" ++ socket_target (t_host target) (t_port target) ++ t_path target) = true;
  lo_header s : printable s → header_ok s = true;
  lo_fails : Transport.conn_fails sh < max_auth_fails;
  lo_first : dyn_authenticate (Totp.inner b) (os_world os1) conn creds = Allow user;
  lo_policy : permits (policy registry) user = true;
  lo_time : since (os_now os2) (os_now' os1) ≤ CHALLENGE_TTL;
  lo_secret : Totp.secret_for b (os_world os2) user = Some secret;
  lo_code : parse_uint 32 (trim code) = Some c;
  lo_verify : Totp.verify_at hmac_sha1 secret c (unix_now (os_world os2)) = true;
  lo_challenge : rust_ok {| ch_token := Totp.new_token (os_world os1);
                            prompts := [{| message := Totp.prompt b; echo := false |}] |};
  lo_answer : rust_ok {| ans_token := Totp.new_token (os_world os1); responses := [code] |};
}.

(** The login against the in-process server, request by request. *)
Lemma login_rounds target user pass secret code c sh store os1 os2 oss e :
  login_ok target user pass secret code c sh os1 os2 → gives_code e code →
  let auth := basic_header user pass in
  let token := Totp.new_token (os_world os1) in
  let ch := {| ch_token := token; prompts := [{| message := Totp.prompt b; echo := false |}] |} in
  let ans := {| ans_token := token; responses := [code] |} in
  ∃ r1 r2 resp1 resp2 sh' v e',
    build_connect_request_with uri_ok header_ok target auth None = Some r1 ∧ request_of target auth r1 ∧
    cq_challenge_response r1 = None ∧
    server_side r1 (mkServerSide sh store (os1 :: os2 :: oss)) =
      (Some resp1, mkServerSide sh (store_insert conn_id (Auth.mkState token (Some user)) (os_now' os1) store) (os2 :: oss)) ∧
    Transport.status resp1 = 401 ∧ Transport.challenge_header resp1 ≫= decode_challenge = Some ch ∧
    build_challenge_answer ch e = (Ok ans, e') ∧ encode_challenge_answer ans = Some v ∧
    build_connect_request_with uri_ok header_ok target auth (Some v) = Some r2 ∧ request_of target auth r2 ∧
    cq_challenge_response r2 = Some v ∧ decode_challenge_answer v = Some ans ∧
    server_side r2 (mkServerSide sh (store_insert conn_id (Auth.mkState token (Some user)) (os_now' os1) store) (os2 :: oss)) =
      (Some resp2, mkServerSide sh' (mkStore (delete conn_id (<[conn_id := (Auth.mkState token (Some user), os_now' os1)]> (inner store)))) oss) ∧
    Transport.status resp2 = 200 ∧ Transport.conn_fails sh' = Transport.conn_fails sh.
Proof using second_factor no_answer b64ok pcok paok.
  intros [Hcreds Hu Hp Hcol Hpath Huri Hh Hf Hff Hper Ht Hs Hc Hv Hrc Hra] Hcode auth token ch ans.
  fold token in Hrc, Hra.
  assert (parse_authorization (Some auth) = Some creds) as Hauth.
  { unfold auth. rewrite parse_basic, split_once_app by done. by rewrite Hcreds. }
  assert (printable auth) as Hpr by by apply basic_header_printable.
  destruct (build_request target auth None Huri Hh Hpr ltac:(done)) as (r1 & E1 & Hr1 & A1).
  destruct (server_round_one auth os1 store Hauth) as (t1 & R1). rewrite Hff in R1. cbn [st_token] in R1.
  fold token in R1.
  destruct (challenge_roundtrip _ Hrc) as (cv & Ev & Dv).
  destruct (answer_code token (Totp.prompt b) code e Hcode) as (e' & Ea).
  destruct (answer_roundtrip _ Hra) as (v & Ew & Dw).
  destruct (build_request target auth (Some v) Huri Hh Hpr ltac:(intros ? [= <-]; by eapply answer_printable))
    as (r2 & E2 & Hr2 & A2).
  set (store1 := store_insert conn_id (Auth.mkState token (Some user)) (os_now' os1) store) in *.
  destruct (server_round_two auth os2 store1 (Auth.mkState token (Some user)) (os_now' os1) user secret code c) as (t2 & R2);
    [done | unfold store1; simpl; by rewrite lookup_insert_eq | done..|]. cbn [st_token] in R2.
  exists r1, r2, (Transport.mkResp Transport.UNAUTHORIZED (Some cv)), (Transport.respond Transport.OK),
    (Transport.conclude (sa_ip (peer_addr conn)) (os_now os2) (Some Worker.OutAllow) sh).2, v, e'.
  split_and!; try done.
  - rewrite (server_side_step target auth), A1 by done. cbn [mbind option_bind]. rewrite R1.
    cbn [fst fmap option_fmap option_map]. rewrite conclude_challenge. unfold Transport.respond_challenge.
    cbn [st_token]. by rewrite Ev.
  - rewrite (server_side_step target auth), A2 by done. cbn [mbind option_bind]. rewrite Dw, R2. reflexivity.
Qed.

(** *** The same server, privilege-separated

    The worker's side keeps the link to the monitor, which holds the challenges. *)
Section Separated.
Context {pq : Postcard Request} {pqok : PostcardOk Request} {pr : Postcard Response} {prok : PostcardOk Response}.
Variable parse_addr : str → option SocketAddr.
Variable addr_string : SocketAddr → str.

Record SeparatedSide := mkSeparated {
  sp_shared : Transport.Shared;
  sp_link : Worker.Link;
  sp_os : list Os;
}.

Definition separated_side (r : ClientReq) (s : SeparatedSide) : option Transport.Resp * SeparatedSide :=
  match sp_os s with
  | [] => (None, s)
  | os :: oss =>
      let h := Transport.handle_request
        (λ auth ans l,
           let '(o, l) := Transport.privsep_authenticate registry parse_addr addr_string os None (os_now os) (os_now' os)
                            conn_id auth ans conn l in
           (fst <$> o, l))
        path (sa_ip (peer_addr conn)) max_auth_fails (os_now os) true (to_req r) (sp_shared s) (sp_link s) in
      (Transport.h_reply h, mkSeparated (Transport.h_shared h) (Transport.h_backend h) oss)
  end.

(** The monitor's request for one of the client's. *)
Definition asks (authorization : str) (answer : option ChallengeAnswer) : Ipc.Request :=
  Authenticate conn_id (Some authorization) (addr_string (peer_addr conn)) (channel_binding conn) answer.

(** What the separated server needs besides: the monitor's failure floor, a peer
    address that survives printing, and the four messages fitting the control
    channel. *)
Record separable (authorization : str) (token : bytes) (code : str) : Prop := {
  se_delay : fail_delay registry = Login.FAIL_DELAY;
  se_addr : parse_addr (addr_string (peer_addr conn)) = Some (peer_addr conn);
  se_ask : Worker.fits (asks authorization None) [];
  se_answer : Worker.fits (asks authorization (Some {| ans_token := token; responses := [code] |})) [];
  se_challenge : Worker.fits (ChallengeResp {| ch_token := token; prompts := [{| message := Totp.prompt b; echo := false |}] |}) [];
  se_verdict : Worker.fits (VerdictResp true) [];
}.

(** One request: the same reply, the same parked challenges, the link in step. *)
Lemma separated_step target authorization r resp sh l os oss sh' store' :
  fail_delay registry = Login.FAIL_DELAY → parse_addr (addr_string (peer_addr conn)) = Some (peer_addr conn) →
  request_of target authorization r →
  uri_path (lit "https://" ++ socket_target (t_host target) (t_port target) ++ t_path target) = path →
  Transport.conn_fails sh < max_auth_fails → Worker.inbox l = [] →
  let req := asks authorization (cq_challenge_response r ≫= decode_challenge_answer) in
  Worker.fits req [] → Worker.fits (handle registry parse_addr os req (Worker.mon l)).1.2.1 [] →
  server_side r (mkServerSide sh (challenges (Worker.mon l)) (os :: oss)) = (resp, mkServerSide sh' store' oss) →
  ∃ l', separated_side r (mkSeparated sh l (os :: oss)) = (resp, mkSeparated sh' l' oss) ∧
    challenges (Worker.mon l') = store' ∧ Worker.inbox l' = [] ∧
    Worker.mon l' = (handle registry parse_addr os req (Worker.mon l)).1.1.
Proof using no_answer pqok prok.
  intros Hd Haddr Hr Hpath Hf Hin req F G. unfold server_side, separated_side.
  cbn [ss_os ss_shared ss_store sp_os sp_shared sp_link]. unfold Transport.handle_request.
  rewrite (client_gate target authorization) by done.
  pose proof (Transport.privsep_agrees registry parse_addr addr_string os (os_now os) (os_now' os) conn_id (Some authorization)
    (cq_challenge_response r ≫= decode_challenge_answer) conn l Hin Hd no_answer Haddr F G) as H.
  destruct (Transport.dev_authenticate _ _ _ _ _ _ _ _ _ _) as [o1 store].
  destruct (Transport.privsep_authenticate _ _ _ _ _ _ _ _ _ _ _ _) as [o2 l2].
  destruct H as (<- & _ & Hst & Hin2 & Hmon).
  destruct (Transport.conclude _ _ _ _) as [[resp0 sv] sh0]. cbn.
  intros [= <- <- <-]. by exists l2.
Qed.

(** The connection's facts as the monitor rebuilds them. *)
Lemma conn_rebuilt : mkConnInfo (peer_addr conn) (channel_binding conn) None = conn.
Proof using no_answer. rewrite <- no_answer. by destruct conn. Qed.

Lemma monitor_round_one authorization os st :
  parse_addr (addr_string (peer_addr conn)) = Some (peer_addr conn) →
  parse_authorization (Some authorization) = Some creds →
  (handle registry parse_addr os (asks authorization None) st).1.2.1
  = ChallengeResp {| ch_token := Totp.new_token (os_world os); prompts := [{| message := Totp.prompt b; echo := false |}] |}.
Proof using second_factor no_answer.
  intros Ha Hp. unfold asks. cbn [handle]. unfold handle_authenticate. rewrite Ha. cbn [default].
  destruct (plain_challenged (os_world os) authorization Hp) as (pending & Hv & _).
  cbn [default from_option id]. unfold id. rewrite conn_rebuilt, Hv. reflexivity.
Qed.

Lemma monitor_round_two authorization os st state created user secret code c :
  parse_addr (addr_string (peer_addr conn)) = Some (peer_addr conn) →
  parse_authorization (Some authorization) = Some creds →
  inner (challenges st) !! conn_id = Some (state, created) → since (os_now os) created ≤ CHALLENGE_TTL →
  pending_user state = Some user → permits (policy registry) user = true →
  Totp.secret_for b (os_world os) user = Some secret → parse_uint 32 (trim code) = Some c →
  Totp.verify_at hmac_sha1 secret c (unix_now (os_world os)) = true →
  let h := handle registry parse_addr os
             (asks authorization (Some {| ans_token := st_token state; responses := [code] |})) st in
  h.1.2.1 = VerdictResp true ∧ users h.1.1 !! conn_id = Some user.
Proof using second_factor.
  intros Ha Hp Hst Ht Hu Hper Hs Hc Hv. unfold asks. cbn [handle]. unfold handle_authenticate, store_take. rewrite Ha.
  cbn [ans_token responses]. rewrite Hst. rewrite bool_decide_eq_true_2 by done.
  destruct (Z.ltb_spec CHALLENGE_TTL (since (os_now os) created)); [lia|].
  cbn [negb orb andb fmap option_fmap option_map default from_option]. unfold id.
  erewrite round_two_verdict by done. cbn. by rewrite lookup_insert_eq.
Qed.

(** C13: the whole login, client against server. Take a user whose password the
    first factor accepts, whom the operator's policy permits and who has an
    enrolled secret, on a connection below its failure cap. If the code given,
    through [QUISH_TOTP] or typed at the hidden prompt, is the current one within
    the challenge's minute, the user gets the channel in exactly two requests: the
    server parks the challenge, the client answers it, the server finds it under
    this connection and lets the user in; no failure is counted, and nothing stays
    parked. So it is with the in-process server, and with the privilege-separated
    one from a control channel in step that carries the four messages, where
    moreover the channel is in step afterwards and the monitor has recorded the
    user for this connection. *)
Theorem two_factor_end_to_end (target : Target) (user pass : str) (secret : bytes) (code : str) (c : Z)
  (sh : Transport.Shared) (store : ChallengeStore) (l : Worker.Link) (os1 os2 : Os) (oss : list Os) (e : Env) :
  login_ok target user pass secret code c sh os1 os2 → gives_code e code →
  (let o := open_channel uri_ok header_ok ServerSide server_side target (basic_header user pass)
              (mkServerSide sh store (os1 :: os2 :: oss)) e in
   o_result _ o = Ok tt ∧ length (o_sent _ o) = 2%nat
   ∧ Transport.conn_fails (ss_shared (o_server _ o)) = Transport.conn_fails sh
   ∧ inner (ss_store (o_server _ o)) !! conn_id = None) ∧
  (separable (basic_header user pass) (Totp.new_token (os_world os1)) code → Worker.inbox l = [] →
   let o := open_channel uri_ok header_ok SeparatedSide separated_side target (basic_header user pass)
              (mkSeparated sh l (os1 :: os2 :: oss)) e in
   let l' := sp_link (o_server _ o) in
   o_result _ o = Ok tt ∧ length (o_sent _ o) = 2%nat
   ∧ Transport.conn_fails (sp_shared (o_server _ o)) = Transport.conn_fails sh
   ∧ inner (challenges (Worker.mon l')) !! conn_id = None
   ∧ Worker.inbox l' = [] ∧ users (Worker.mon l') !! conn_id = Some user).
Proof using second_factor no_answer b64ok pcok paok pqok prok.
  intros Hok Hcode. split.
  - destruct (login_rounds target user pass secret code c sh store os1 os2 oss e Hok Hcode)
      as (r1 & r2 & p1 & p2 & sh' & v & e' & B1 & _ & _ & S1 & T1 & D1 & A & V & B2 & _ & _ & _ & S2 & T2 & Hsh).
    rewrite (open_two_rounds server_side _ _ _ _ _ _ _ _ _ _ _ _ _ _ B1 S1 T1 D1 A V B2 S2 T2). cbn.
    split_and!; [done..|]. by rewrite lookup_delete_eq.
  - intros [Hd Ha F1 F2 G1 G2] Hin.
    destruct (login_rounds target user pass secret code c sh (challenges (Worker.mon l)) os1 os2 oss e Hok Hcode)
      as (r1 & r2 & p1 & p2 & sh' & v & e' & B1 & Q1 & N1 & S1 & T1 & D1 & A & V & B2 & Q2 & N2 & D2 & S2 & T2 & Hsh).
    destruct Hok. assert (parse_authorization (Some (basic_header user pass)) = Some creds) as Hauth.
    { rewrite parse_basic, split_once_app by done. by rewrite lo_creds0. }
    set (auth := basic_header user pass) in *. set (token := Totp.new_token (os_world os1)) in *.
    assert (Worker.fits (handle registry parse_addr os1 (asks auth None) (Worker.mon l)).1.2.1 []) as H1
      by (by rewrite monitor_round_one).
    set (parked := store_insert conn_id (Auth.mkState token (Some user)) (os_now' os1) (challenges (Worker.mon l))) in *.
    destruct (separated_step target auth r1 (Some p1) sh l os1 (os2 :: oss) sh parked Hd Ha Q1 lo_path0 lo_fails0 Hin)
      as (l1 & W1 & C1 & I1 & M1); [by rewrite N1|by rewrite N1|exact S1|].
    rewrite <- C1 in S2.
    destruct (monitor_round_two auth os2 (Worker.mon l1) (Auth.mkState token (Some user)) (os_now' os1) user secret code c)
      as [R2 U2]; [done|done|rewrite C1; cbn; by rewrite lookup_insert_eq|done..|].
    cbn [st_token] in R2, U2.
    destruct (separated_step target auth r2 (Some p2) sh l1 os2 oss sh' (mkStore (delete conn_id (inner parked))) Hd Ha Q2 lo_path0 lo_fails0 I1)
      as (l2 & W2 & C2 & I2 & M2);
      [by rewrite N2; cbn [mbind option_bind]; rewrite D2|by rewrite N2; cbn [mbind option_bind]; rewrite D2, R2|exact S2|].
    rewrite (open_two_rounds separated_side _ _ _ _ _ _ _ _ _ _ _ _ _ _ B1 W1 T1 D1 A V B2 W2 T2). cbn.
    split_and!; [done|done|done| |done|].
    + rewrite C2. cbn. by rewrite lookup_delete_eq.
    + rewrite M2, N2. cbn [mbind option_bind]. by rewrite D2.
Qed.

End Separated.

Lemma open_plain_challenged target authorization s :
  parse_authorization (Some authorization) = Some creds →
  ∃ e s', open_plain uri_ok header_ok ServerSide server_side target authorization s = (Err e, s').
Proof using second_factor no_answer.
  intros Hauth. unfold open_plain, build_connect_request.
  destruct (build_connect_request_with _ _ _ _ _) as [r|] eqn:Eb; [|by do 2 eexists].
  apply build_request_of in Eb as [(_ & _ & Ha) Hn].
  destruct s as [sh store [|os oss]]; [by do 2 eexists|]. unfold server_side. cbn [ss_os ss_shared ss_store].
  unfold Transport.handle_request, Transport.gate, to_req. cbn [Transport.rq_version Transport.rq_authorization Transport.rq_challenge_response].
  rewrite Ha, Hn. destruct (negb (Transport.is_quish _ _)); [by do 2 eexists|].
  destruct (negb (version_supported _)); [by do 2 eexists|].
  destruct (_ <=? _); [by do 2 eexists|]. cbn [mbind option_bind].
  destruct (server_round_one authorization os store Hauth) as (t & ->). cbn [fst fmap option_fmap option_map].
  rewrite conclude_challenge. unfold Transport.respond_challenge.
  destruct (encode_challenge _); by do 2 eexists.
Qed.

(** C30: forwarded connections cannot pass a second factor. With credentials that
    the second-factor backend serves, a [-L] or [-R] connection is never bridged
    and a remote listener never opened, whatever the server's state: their
    requests do not run the challenge loop, so a login that works for a shell
    leaves every forward rejected. *)
Theorem forward_needs_no_challenge {po : Postcard ChannelOpen} {psig : Postcard AcceptedSignal}
  (target : Target) (authorization rhost : str) (rport conn_ref : Z) (show_ip : IpAddr → str)
  (spec : RemoteForwardSpec) (bodies : list bytes) (s : ServerSide) :
  parse_authorization (Some authorization) = Some creds →
  (∃ e, (forward_one uri_ok header_ok ServerSide server_side target authorization rhost rport s).1 = Failed e)
  ∧ (∃ e, (remote_forward_data uri_ok header_ok ServerSide server_side true target authorization conn_ref s).1 = Failed e)
  ∧ (∃ e s', remote_forward_listen uri_ok header_ok ServerSide server_side show_ip target authorization spec bodies s
             = (None, [], Err e, s')).
Proof using second_factor no_answer.
  intros Hauth. destruct (open_plain_challenged target authorization s Hauth) as (e & s' & E).
  unfold forward_one, remote_forward_data, remote_forward_listen. simpl. rewrite E.
  split_and!; [by eexists | by eexists | by do 2 eexists].
Qed.

End WithServer.

(** ** Witnesses *)
Definition demo_uri_path (uri : str) : str :=
  match split_once SLASH (drop 8 uri) with Some (_, p) => SLASH :: p | None => [] end.

Definition demo_totp : Totp.TotpBackend :=
  Totp.TotpBackend_new (Dyn (mkDev (lit "bob"))) (λ _ _, Some [1; 2]).

Definition demo_registry : Registry :=
  mkRegistry [Dyn (H := Totp.totp_backend Totp.digest0) demo_totp] Login.FAIL_DELAY (mkPolicy [] []).

Definition demo_os (now : Z) : Os :=
  mkOs Totp.world0 now now (λ _, None) (λ _, None) None (λ _, None) (λ _, None) (λ _, None).

(** The code is typed. *)
Definition demo_env : Env := mkEnv None None None [] [Some (lit "843009")].

Definition demo_target : Target := mkTarget (lit "bob") (lit "h") 4433 DEFAULT_PATH.

Definition demo_side : ServerSide :=
  mkServerSide (Transport.mkShared RateLimit.RateLimiter_default 0) store_default [demo_os 5; demo_os 9].

Notation demo_open := (open_channel (pc := Wire.challenge_postcard) (pa := Wire.answer_postcard)
  (λ _, true) (λ _, true) ServerSide
  (server_side (pt := token_postcard) (pc := Wire.challenge_postcard) (pa := Wire.answer_postcard)
     demo_uri_path demo_registry DEFAULT_PATH 6 1 (Totp.conn0 None))
  demo_target (basic_header (lit "bob") (lit "pw")) demo_side demo_env).

Notation demo_open_separated := (open_channel (pc := Wire.challenge_postcard) (pa := Wire.answer_postcard)
  (λ _, true) (λ _, true) SeparatedSide
  (separated_side (pt := token_postcard) (pc := Wire.challenge_postcard) (pa := Wire.answer_postcard)
     (pq := IpcWire.request_postcard) (pr := IpcWire.response_postcard)
     demo_uri_path demo_registry DEFAULT_PATH 6 1 (Totp.conn0 None) (λ _, Some (peer_addr (Totp.conn0 None))) (λ _, lit "peer"))
  demo_target (basic_header (lit "bob") (lit "pw"))
  (mkSeparated (Transport.mkShared RateLimit.RateLimiter_default 0) (Worker.mkLink State_default []) [demo_os 5; demo_os 9]) demo_env).

Lemma two_factor_end_to_end_witness :
  (o_result _ demo_open = Ok tt ∧ length (o_sent _ demo_open) = 2%nat
   ∧ Transport.conn_fails (ss_shared (o_server _ demo_open)) = 0
   ∧ inner (ss_store (o_server _ demo_open)) !! 1 = None) ∧
  (o_result _ demo_open_separated = Ok tt ∧ length (o_sent _ demo_open_separated) = 2%nat
   ∧ Transport.conn_fails (sp_shared (o_server _ demo_open_separated)) = 0
   ∧ inner (challenges (Worker.mon (sp_link (o_server _ demo_open_separated)))) !! 1 = None
   ∧ Worker.inbox (sp_link (o_server _ demo_open_separated)) = []
   ∧ users (Worker.mon (sp_link (o_server _ demo_open_separated))) !! 1 = Some (lit "bob")).
Proof.
  pose proof (two_factor_end_to_end (pt := token_postcard) (pcok := Wire.challenge_postcard_ok) (paok := Wire.answer_postcard_ok)
    (pqok := IpcWire.request_postcard_ok) (prok := IpcWire.response_postcard_ok)
    (λ _, true) (λ _, true) demo_uri_path demo_registry DEFAULT_PATH 6 1 (Totp.conn0 None) Totp.digest0 demo_totp
    (Password (lit "bob") (lit "pw")) eq_refl eq_refl (λ _, Some (peer_addr (Totp.conn0 None))) (λ _, lit "peer")
    demo_target (lit "bob") (lit "pw") [1; 2] (lit "843009") 843009
    (Transport.mkShared RateLimit.RateLimiter_default 0) store_default (Worker.mkLink State_default []) (demo_os 5) (demo_os 9) [] demo_env) as H.
  destruct H as [H1 H2].
  - constructor; first [by intros | by_dec | by vm_compute].
  - right. by split.
  - split; [exact H1|]. apply H2; [|done]. split; try done.
    1,2,3: split_and!; [unfold rust_ok; simpl; split_and!; by_dec|eexists; split; [vm_compute; reflexivity|by_dec]|by_dec].
    split_and!; [done|eexists; split; [vm_compute; reflexivity|by_dec]|by_dec].
Defined.

Lemma forward_needs_no_challenge_witness :
  ∃ e, (forward_one (po := Wire.open_postcard)
    (λ _, true) (λ _, true) ServerSide
    (server_side (pt := token_postcard) (pc := Wire.challenge_postcard) (pa := Wire.answer_postcard)
       demo_uri_path demo_registry DEFAULT_PATH 6 1 (Totp.conn0 None))
    demo_target (basic_header (lit "bob") (lit "pw")) (lit "db") 5432 demo_side).1 = Failed e.
Proof.
  refine (proj1 (forward_needs_no_challenge (pt := token_postcard) (pc := Wire.challenge_postcard) (pa := Wire.answer_postcard)
    (po := Wire.open_postcard) (psig := Wire.accepted_postcard)
    (λ _, true) (λ _, true) demo_uri_path demo_registry DEFAULT_PATH 6 1 (Totp.conn0 None) Totp.digest0 demo_totp
    (Password (lit "bob") (lit "pw")) eq_refl eq_refl demo_target (basic_header (lit "bob") (lit "pw")) (lit "db") 5432 0
    (λ _, []) (mkRemoteForward LOCALHOST 1 (lit "x") 1) [] demo_side _)).
  by vm_compute.
Defined.

End ClientAuth.
