(* ===== verification/ClientPump.v ===== *)
(** * ClientPump: the client's end of a channel

    Module [Terminal]: the pump of [quish-client/src/terminal.rs], which runs a
    shell or a command on the local terminal. Module [Bridge]: [bridge] of
    [quish-client/src/main.rs], which joins a local socket to a forwarding
    channel. The theorems compose them with the server's pumps of [Session]. *)
From S2P Require Import Prelude RustStr Postcard Proto Ipc Session Worker.

Module Terminal.
Import Session.

(** [winsize]: what [tcgetwinsize] gives, if it does. *)
Definition winsize (ws : option (Z * Z)) : Z * Z :=
  match ws with
  | Some (c, r) => if (0 <? c) && (0 <? r) then (c, r) else (80, 24)
  | None => (80, 24)
  end.

(** [spawn_stdin]: the chunks it passes on, of what the reads return ([None]: an
    error), up to the first that is empty or fails. The pump's end drops the rest. *)
Fixpoint spawn_stdin (reads : list (option bytes)) : list bytes :=
  match reads with
  | Some ((_ :: _) as b) :: reads => b :: spawn_stdin reads
  | _ => []
  end.

(** The terminal's settings, which [RawMode] changes and puts back. [T] is
    [Termios]; [get] and [set] are the outcomes of the two calls. *)
Section Raw.
Context {T : Type} (make_raw : T → T).

Definition raw_enable (get : bool) (set : bool) (tty : T) : option T * T :=
  if negb get then (None, tty) else if negb set then (None, tty) else (Some tty, make_raw tty).

Definition raw_drop (set : bool) (original : option T) (tty : T) : T :=
  match original with Some o => if set then o else tty | None => tty end.
End Raw.

(** The frames the reader will deliver and the chunks of standard input, each
    then ending; the window sizes read at each resize; the interrupts to come.
    [t_open]: the send half is still there. *)
Record TermPump := mkTerm {
  t_frames : list ChannelMessage;
  t_stdin : list bytes;
  t_winch : list (Z * Z);
  t_ints : nat;
  t_quits : nat;
  t_stdin_done : bool;
  t_open : bool;
  t_sent : list ChannelMessage;
  t_out : list bytes;
  t_err : list bytes;
  t_exit : option Z;
}.

Definition term_init (frames : list ChannelMessage) (stdin : list bytes) (winch : list (Z * Z)) (ints quits : nat) :
    TermPump :=
  mkTerm frames stdin winch ints quits false true [] [] [] None.

Inductive TermArm := TFrames | TStdin | TWinch | TInt | TQuit.

Section Pump.
Context `{Postcard ChannelMessage}.
Variable interactive : bool.

(** [send_frame]: [sent] is whether the stream takes it. Without a send half it
    does nothing. *)
Definition send_frame (sent : bool) (msg : ChannelMessage) (st : TermPump) : Turn TermPump :=
  let '(mkTerm fs si wi ni nq sd op se out err ex) := st in
  if negb op then Running st
  else match encode msg with
       | Err _ => Errored st
       | Ok _ => if sent then Running (mkTerm fs si wi ni nq sd op (se ++ [msg]) out err ex) else Errored st
       end.

(** One turn of the loop; [ok]: the send or the local write succeeds. *)
Definition term_arm (a : TermArm) (ok : bool) (st : TermPump) : option (Turn TermPump) :=
  let '(mkTerm fs si wi ni nq sd op se out err ex) := st in
  match a with
  | TFrames =>
      match fs with
      | Data d :: fs =>
          if ok then Some (Running (mkTerm fs si wi ni nq sd op se (out ++ [d]) err ex))
          else Some (Errored (mkTerm fs si wi ni nq sd op se out err ex))
      | DataErr d :: fs =>
          if ok then Some (Running (mkTerm fs si wi ni nq sd op se out (err ++ [d]) ex))
          else Some (Errored (mkTerm fs si wi ni nq sd op se out err ex))
      | ExitStatus code :: fs => Some (Returned Drained (mkTerm fs si wi ni nq sd false se out err (Some code)))
      | Resize _ _ :: fs | SignalMsg _ :: fs => Some (Running (mkTerm fs si wi ni nq sd op se out err ex))
      | [] => Some (Returned ClientGone (mkTerm fs si wi ni nq sd false se out err (Some (-1))))
      end
  | TStdin =>
      if sd then None
      else match si with
           | b :: si => Some (send_frame ok (Data b) (mkTerm fs si wi ni nq sd op se out err ex))
           | [] => Some (Running (mkTerm fs si wi ni nq true false se out err ex))
           end
  | TWinch =>
      if negb interactive then None
      else match wi with
           | (c, r) :: wi => Some (send_frame ok (Resize c r) (mkTerm fs si wi ni nq sd op se out err ex))
           | [] => None
           end
  | TInt =>
      if interactive then None
      else match ni with
           | S ni => Some (send_frame ok (SignalMsg Int) (mkTerm fs si wi ni nq sd op se out err ex))
           | O => None
           end
  | TQuit =>
      if interactive then None
      else match nq with
           | S nq => Some (send_frame ok (SignalMsg Quit) (mkTerm fs si wi ni nq sd op se out err ex))
           | O => None
           end
  end.

(** ** What the local side sees *)
Variables (frames0 : list ChannelMessage) (stdin0 : list bytes).

Definition no_exit (ms : list ChannelMessage) : Prop := Forall (λ m, ∀ c, m ≠ ExitStatus c) ms.

(** Everything of the frames seen so far is on the terminal, in order. *)
Definition term_shown (st : TermPump) : Prop :=
  ∃ seen, frames0 = seen ++ t_frames st ∧ t_out st = data_of seen ∧ t_err st = dataerr_of seen ∧ no_exit seen.

(** Everything read from standard input has been sent, while the send half is
    there; and it goes only when standard input ends. *)
Definition term_read (st : TermPump) : Prop :=
  stdin0 = data_of (t_sent st) ++ t_stdin st ∧ (t_stdin_done st = true → t_stdin st = [])
  ∧ t_open st = negb (t_stdin_done st).

Definition term_inv (st : TermPump) : Prop := term_shown st ∧ term_read st ∧ t_exit st = None.

Definition term_measure (st : TermPump) : nat :=
  (length (t_frames st) + length (t_stdin st) + length (t_winch st) + t_ints st + t_quits st
   + Nat.b2n (negb (t_stdin_done st)))%nat.

(** The frames up to the exit status are on the terminal, and it is the result. *)
Definition term_exited (st : TermPump) : Prop :=
  ∃ seen code rest, frames0 = seen ++ ExitStatus code :: rest ∧ no_exit seen
    ∧ t_out st = data_of seen ∧ t_err st = dataerr_of seen ∧ t_exit st = Some code
    ∧ data_of (t_sent st) `prefix_of` stdin0.

Definition term_cut (st : TermPump) : Prop :=
  no_exit frames0 ∧ t_out st = data_of frames0 ∧ t_err st = dataerr_of frames0 ∧ t_exit st = Some (-1).

(** What a failed send or write leaves. *)
Definition term_partial (st : TermPump) : Prop :=
  t_out st `prefix_of` data_of frames0 ∧ t_err st `prefix_of` dataerr_of frames0 ∧ t_exit st = None.

Lemma term_shown_partial st : term_shown st → t_exit st = None → term_partial st.
Proof using Type.
  intros (seen & E & H1 & H2 & _) Hx. unfold term_partial. rewrite H1, H2, E, data_of_app, dataerr_of_app.
  split_and!; [by apply prefix_app_r | by apply prefix_app_r | done].
Qed.

(** A frame that is not data changes nothing of what was sent of standard input. *)
Lemma send_frame_turn sent msg st :
  term_shown st → t_exit st = None →
  stdin0 = data_of (t_sent st ++ [msg]) ++ t_stdin st → (t_stdin_done st = true → stdin0 = data_of (t_sent st)) →
  (t_stdin_done st = true → t_stdin st = []) → t_open st = negb (t_stdin_done st) →
  match send_frame sent msg st with
  | Running st' => term_inv st' ∧ term_measure st' = term_measure st
  | Returned _ _ => False
  | Errored st' => term_partial st'
  end.
Proof using Type.
  destruct st as [fs si wi ni nq sd op se out err ex]. simpl. intros Hs Hx Hr Hd Hn Ho.
  destruct op; simpl; destruct sd; try done.
  - destruct (encode msg); [|by apply term_shown_partial]. destruct sent; [|by apply term_shown_partial].
    split; [|done]. split; [by destruct Hs as (seen & ?); exists seen | done].
  - specialize (Hd eq_refl). specialize (Hn eq_refl). subst si. split; [|done].
    split; [by destruct Hs as (seen & ?); exists seen |]. split; [|done].
    unfold term_read. simpl. by rewrite app_nil_r.
Qed.

#[local] Arguments send_frame : simpl never.

(** A turn that sends one frame, [mu] being what the turn had to go. *)
Lemma send_turn sent msg st mu :
  term_shown st → t_exit st = None →
  stdin0 = data_of (t_sent st ++ [msg]) ++ t_stdin st → (t_stdin_done st = true → stdin0 = data_of (t_sent st)) →
  (t_stdin_done st = true → t_stdin st = []) → t_open st = negb (t_stdin_done st) →
  (term_measure st < mu)%nat →
  match Some (send_frame sent msg st) with
  | Some (Running st') => term_inv st' ∧ (term_measure st' < mu)%nat
  | Some (Returned Drained st') => term_exited st'
  | Some (Returned ClientGone st') => term_cut st'
  | Some (Errored st') => term_partial st'
  | None => True
  end.
Proof using Type.
  intros Hs Hx Hr Hd Hn Ho Hm. pose proof (send_frame_turn sent msg st Hs Hx Hr Hd Hn Ho) as H'.
  destruct (send_frame sent msg st) as [st'|e st'|st']; [|done|done].
  destruct H' as [Hi ->]. done.
Qed.

Lemma term_arm_turn a ok st :
  term_inv st →
  match term_arm a ok st with
  | Some (Running st') => term_inv st' ∧ (term_measure st' < term_measure st)%nat
  | Some (Returned Drained st') => term_exited st'
  | Some (Returned ClientGone st') => term_cut st'
  | Some (Errored st') => term_partial st'
  | None => True
  end.
Proof using Type.
  destruct st as [fs si wi ni nq sd op se out err ex].
  intros ((seen & E & H1 & H2 & H3) & (R1 & R2 & R3) & Hx). simpl in *. subst ex.
  assert (∀ m, stdin0 = data_of (se ++ [m]) ++ si ↔ stdin0 = (data_of se ++ data_of [m]) ++ si) as Hm
    by (intros m; by rewrite data_of_app).
  destruct a; simpl.
  - destruct fs as [|m fs].
    { rewrite app_nil_r in E. by subst. }
    assert (term_inv (mkTerm fs si wi ni nq sd op se (out ++ data_of [m]) (err ++ dataerr_of [m]) None) ∨ ∃ c, m = ExitStatus c) as Hn.
    { destruct m; try (by right; eexists); left; (split; [|done]);
        match goal with |- context [data_of [?m]] => exists (seen ++ [m]) end; simpl;
        rewrite <- app_assoc, data_of_app, dataerr_of_app, H1, H2;
        (split_and!; [done..|]); apply Forall_app; by repeat constructor. }
    assert (term_partial (mkTerm fs si wi ni nq sd op se out err None)) as Hp.
    { unfold term_partial. simpl. rewrite H1, H2, E, data_of_app, dataerr_of_app.
      split_and!; [by apply prefix_app_r | by apply prefix_app_r | done]. }
    destruct m as [d|d|c r|code|sig]; simpl in Hn; rewrite ?app_nil_r in Hn.
    4: { exists seen, code, fs. rewrite R1. split_and!; try done. by apply prefix_app_r. }
    all: destruct Hn as [Hn | [c' ?]]; [|done]; try (destruct ok; [|done]); split; [done | unfold term_measure; simpl; lia].
  - destruct sd; [done|]. destruct si as [|b si].
    { split; [|unfold term_measure; simpl; lia]. split; [by exists seen|]. split; [|done].
      rewrite app_nil_r in R1. unfold term_read. simpl. by rewrite app_nil_r. }
    apply send_turn; try done; [by exists seen | | unfold term_measure; simpl; lia].
    simpl. by rewrite R1, data_of_app, <- app_assoc.
  - destruct interactive; [|done]. destruct wi as [|[c r] wi]; [done|].
    apply send_turn; try done; [by exists seen | | | unfold term_measure; simpl; lia].
    + simpl. by rewrite data_of_app, app_nil_r.
    + simpl. intros Hsd. by rewrite R1, R2, app_nil_r.
  - destruct interactive; [done|]. destruct ni as [|ni]; [done|].
    apply send_turn; try done; [by exists seen | | | unfold term_measure; simpl; lia].
    + simpl. by rewrite data_of_app, app_nil_r.
    + simpl. intros Hsd. by rewrite R1, R2, app_nil_r.
  - destruct interactive; [done|]. destruct nq as [|nq]; [done|].
    apply send_turn; try done; [by exists seen | | | unfold term_measure; simpl; lia].
    + simpl. by rewrite data_of_app, app_nil_r.
    + simpl. intros Hsd. by rewrite R1, R2, app_nil_r.
Qed.

End Pump.

(** ** The pump under any scheduler *)
Section Run.
Context {p : Postcard ChannelMessage}.
Variable interactive : bool.
Variables (frames : list ChannelMessage) (stdin : list bytes) (winch : list (Z * Z)) (ints quits : nat).

Definition term_fuel : nat := length frames + length stdin + length winch + ints + quits + 2.

Definition run_channel (choose : nat → TermPump → TermArm * bool) : Outcome TermPump :=
  pump_loop (λ c, term_arm interactive c.1 c.2) choose term_fuel 0 (term_init frames stdin winch ints quits).

Lemma term_init_inv : term_inv frames stdin (term_init frames stdin winch ints quits).
Proof using Type. split_and!; [by exists []; split_and!; [..|constructor] | done..]. Qed.

Lemma run_channel_spec (choose : nat → TermPump → TermArm * bool) :
  schedules (λ c, term_arm interactive c.1 c.2) choose (term_inv frames stdin) →
  match run_channel choose with
  | Finished Drained st => term_exited frames stdin st
  | Finished ClientGone st => term_cut frames st
  | FinishedErr st => term_partial frames st
  | Stuck | NoFuel => False
  end.
Proof using Type.
  intros Hs.
  pose proof (pump_loop_correct (λ c, term_arm interactive c.1 c.2) choose (term_inv frames stdin)
    (λ e st, match e with Drained => term_exited frames stdin st | ClientGone => term_cut frames st end)
    (term_partial frames) term_measure Hs) as Hl.
  specialize (Hl (λ n st Hi, term_arm_turn interactive frames stdin _ _ st Hi) term_fuel 0%nat _ term_init_inv).
  unfold run_channel. destruct (pump_loop _ _ _ _ _) as [[] st|st| |]; apply Hl; unfold term_measure, term_fuel; simpl; lia.
Qed.

(** What a channel sends is what the terminal shows. For every scheduling of
    frames, standard input, resizes and interrupts, the client's pump ends within
    one turn per event plus two. With an exit status, the output and the errors
    before it are on the terminal whole and in order and the status is the
    result; without one, everything received is shown and the result is -1; and
    a failed send or write leaves a prefix shown and no result. *)
Theorem run_channel_delivers (choose : nat → TermPump → TermArm * bool) :
  schedules (λ c, term_arm interactive c.1 c.2) choose (term_inv frames stdin) →
  match run_channel choose with
  | Finished Drained st => term_exited frames stdin st
  | Finished ClientGone st => term_cut frames st
  | FinishedErr st => term_partial frames st
  | Stuck | NoFuel => False
  end.
Proof using Type. apply run_channel_spec. Qed.

End Run.

(** *** Why a pump gives up *)
Section Failures.
Context {p : Postcard ChannelMessage}.
Variables (frames : list ChannelMessage) (stdin : list bytes) (ints quits : nat).

(** What the client has to send fits a frame: the chunks of its standard input and
    the interrupts. *)
Definition sendable : Prop :=
  Forall (λ b, is_ok (encode (Data b)) = true) stdin ∧
  is_ok (encode (SignalMsg Int)) = true ∧ is_ok (encode (SignalMsg Quit)) = true.

(** At one turn of the run, the send or the local write the turn asks for fails. *)
Definition gave_up (choose : nat → TermPump → TermArm * bool) (st : TermPump) : Prop :=
  ∃ n t a, at_turn (λ c, term_arm false c.1 c.2) choose (term_init frames stdin [] ints quits) n t ∧
    choose n t = (a, false) ∧ term_arm false a false t = Some (Errored st).

Lemma send_frame_errored ok msg st st' :
  is_ok (encode msg) = true → send_frame ok msg st = Errored st' → ok = false.
Proof using Type.
  destruct st as [fs si wi ni nq sd op se out err ex]. unfold send_frame. destruct op; [|done]. cbn [negb].
  destruct (encode msg); [|done]. by destruct ok.
Qed.

Lemma term_arm_errored a ok st st' :
  sendable → term_inv frames stdin st → term_arm false a ok st = Some (Errored st') → ok = false.
Proof using Type.
  intros (Hd & Hi & Hq) (_ & (Hr & _) & _). destruct st as [fs si wi ni nq sd op se out err ex]. simpl in Hr.
  destruct a; cbn [term_arm].
  - destruct fs as [|[] fs]; try done; by destruct ok.
  - destruct sd; [done|]. destruct si as [|b si]; [done|]. intros E%(inj Some).
    eapply send_frame_errored; [|exact E]. rewrite Hr in Hd. apply Forall_app in Hd as [_ Hd]. by inversion Hd.
  - done.
  - destruct ni; [done|]. intros E%(inj Some). by eapply send_frame_errored; [|exact E].
  - destruct nq; [done|]. intros E%(inj Some). by eapply send_frame_errored; [|exact E].
Qed.

Lemma run_channel_error choose st :
  sendable → run_channel false frames stdin [] ints quits choose = FinishedErr st → gave_up choose st.
Proof using Type.
  intros Hs E. unfold run_channel in E. eapply pump_loop_error in E as (n & t & Hat & Ht); [|apply at_start].
  assert (term_inv frames stdin t) as Hi.
  { eapply at_turn_inv; [apply term_init_inv| |exact Hat]. intros [a ok] st1 st2 H1 H2.
    pose proof (term_arm_turn false frames stdin a ok st1 H1) as H. cbn [fst snd] in H2. rewrite H2 in H. by destruct H. }
  destruct (choose n t) as [a ok] eqn:Ec. cbn [fst snd] in Ht.
  pose proof (term_arm_errored a ok t st Hs Hi Ht) as ->. by exists n, t, a.
Qed.

End Failures.

(** Once standard input has ended, an interrupt does nothing: the send half is
    gone, nothing is sent, and the pump goes on waiting. *)
Lemma interrupt_after_eof_lost `{Postcard ChannelMessage} frames stdin st ok :
  term_inv frames stdin st → t_stdin_done st = true → (0 < t_ints st)%nat →
  ∃ st', term_arm false TInt ok st = Some (Running st') ∧ t_sent st' = t_sent st ∧ t_exit st' = None.
Proof.
  destruct st as [fs si wi ni nq sd op se out err ex]. intros (_ & (_ & _ & Ho) & Hx) Hd Hn.
  simpl in *. subst. destruct ni as [|ni]; [lia|]. simpl. by eexists.
Qed.

(** ** A remote command, from its output to the local terminal *)
Lemma no_exit_of_lengths ms :
  length ms = (length (data_of ms) + length (dataerr_of ms))%nat → no_exit ms.
Proof.
  assert (∀ m l, length (data_of (m :: l)) = (length (data_of [m]) + length (data_of l))%nat
    ∧ length (dataerr_of (m :: l)) = (length (dataerr_of [m]) + length (dataerr_of l))%nat) as Hc.
  { intros m l. change (m :: l) with ([m] ++ l). by rewrite data_of_app, dataerr_of_app, !length_app. }
  assert (∀ l, (length (data_of l) + length (dataerr_of l) ≤ length l)%nat) as Hle.
  { induction l as [|m l IH]; [done|]. destruct (Hc m l) as [-> ->]. destruct m; simpl in *; lia. }
  induction ms as [|m ms IH]; intros H; [constructor|]. specialize (Hle ms).
  destruct (Hc m ms) as [E1 E2]. rewrite E1, E2 in H.
  destruct m; simpl in H; try (exfalso; lia); (constructor; [done | apply IH; lia]).
Qed.

Lemma no_exit_split seen code rest pre last :
  no_exit pre → no_exit seen → pre ++ [ExitStatus last] = seen ++ ExitStatus code :: rest →
  seen = pre ∧ code = last ∧ rest = [].
Proof.
  revert seen. induction pre as [|m pre IH]; intros seen Hp Hs E; destruct seen as [|n seen]; simplify_eq/=.
  - done.
  - by destruct seen.
  - inversion Hp as [|? ? H]. by destruct (H code).
  - inversion Hp; inversion Hs; subst. destruct (IH seen) as (-> & -> & ->); done.
Qed.

(** A remote command's output and status reach the local terminal. For every
    scheduling of the server's pump and of the client's: when the command's pump
    drains and its status is sent, the client ends with that status, having
    written the command's output and its errors, whole and in order; only a
    failed send or a failed local write can end it otherwise. *)
Theorem remote_command_end_to_end {p : Postcard ChannelMessage} {pok : PostcardOk ChannelMessage}
  (session_id code : Z) (input stdin : list bytes) (frames : list ChannelMessage) (out err : list bytes) (ints quits : nat)
  (server : nat → ExecPump → Arm * SendRes) (client : nat → TermPump → TermArm * bool) (served : Worker.Served) (st : ExecPump) :
  schedules (λ c, exec_arm c.1 c.2) server (exec_running frames out err) →
  pump_loop (λ c, exec_arm c.1 c.2) server (length out + length err + length frames + 4) 0 (exec_init frames out err)
    = Finished Drained st →
  is_ok (encode (ExitStatus code)) = true →
  Worker.run_exec session_id code SendOk (Finished Drained st) = Some served →
  schedules (λ c, term_arm false c.1 c.2) client (term_inv (Worker.s_sent served) stdin) →
  match run_channel false (Worker.s_sent served) stdin [] ints quits client with
  | Finished Drained t => t_out t = out ∧ t_err t = err ∧ t_exit t = Some code
  | FinishedErr t => t_out t `prefix_of` out ∧ t_err t `prefix_of` err
  | Finished ClientGone _ | Stuck | NoFuel => False
  end.
Proof.
  intros Hs Ho Hc Hr Ht.
  pose proof (pump_loop_correct (λ c, exec_arm c.1 c.2) server (exec_running frames out err)
    (λ e st, match e with Drained => exec_delivered frames out err st | ClientGone => exec_partial out err st end)
    (exec_partial out err) exec_measure Hs (λ n st Hi, exec_arm_turn frames out err _ _ st Hi)
    (length out + length err + length frames + 4) 0 _ (exec_init_running frames out err)) as Hl.
  rewrite Ho in Hl. destruct Hl as (Hd & He & Hlen & _); [unfold exec_measure; simpl; lia|].
  assert (no_exit (x_sent st)) as Hne by (apply no_exit_of_lengths; by rewrite Hd, He).
  assert (Worker.s_sent served = x_sent st ++ [ExitStatus code]) as Esv.
  { simpl in Hr. unfold send_msg in Hr. destruct (encode (ExitStatus code)); [|done]. by injection Hr as <-. }
  pose proof (run_channel_spec false (Worker.s_sent served) stdin [] ints quits client Ht) as H.
  destruct (run_channel _ _ _ _ _ _ _) as [[] t|t| |]; [| |..|done|done].
  - destruct H as (seen & code' & rest & E & Hn & H1 & H2 & H3 & _). rewrite Esv in E.
    apply no_exit_split in E as (-> & -> & ->); [|done..]. by rewrite H1, H2, H3.
  - destruct H as (Hn & _). rewrite Esv in Hn. apply Forall_app in Hn as [_ Hn]. inversion Hn as [|? ? H].
    by destruct (H code).
  - destruct H as (H1 & H2 & _). rewrite Esv, data_of_app, dataerr_of_app, Hd, He in *.
    simpl in *. by rewrite !app_nil_r in *.
Qed.

(** ** Witnesses, and what a failed send loses *)
Definition frames_first (_ : nat) (_ : TermPump) : TermArm * bool := (TFrames, true).

Lemma frames_first_schedules `{Postcard ChannelMessage} interactive (I : TermPump → Prop) :
  schedules (λ c, term_arm interactive c.1 c.2) frames_first I.
Proof.
  intros n [fs si wi ni nq sd op se out err ex] _. simpl. destruct fs as [|[]]; by eexists.
Qed.

Lemma run_channel_delivers_witness :
  match run_channel (p := Wire.message_postcard) true [Data [7]; ExitStatus 3] [[1]] [(80, 24)] 0 0 frames_first with
  | Finished Drained st => term_exited [Data [7]; ExitStatus 3] [[1]] st
  | Finished ClientGone st => term_cut [Data [7]; ExitStatus 3] st
  | FinishedErr st => term_partial [Data [7]; ExitStatus 3] st
  | Stuck | NoFuel => False
  end.
Proof.
  apply (run_channel_delivers (p := Wire.message_postcard) true [Data [7]; ExitStatus 3] [[1]] [(80, 24)] 0 0 frames_first).
  apply frames_first_schedules.
Defined.

Definition demo_exec_end : ExecPump :=
  mkExec [Data [1]] [] [] false true true true [Data [2]; DataErr [3]] [] [].

Definition err_last (n : nat) (st : ExecPump) : Arm * SendRes :=
  (if negb (x_out_done st) then ArmOut else ArmErr, SendOk).

Lemma err_last_schedules `{Postcard ChannelMessage} frames out err :
  schedules (λ c, exec_arm c.1 c.2) err_last (exec_running frames out err).
Proof.
  intros n [fs o e fd od ed io sent sin sg] [_ Hr]. simpl in Hr. unfold err_last. simpl.
  destruct od; simpl.
  - destruct ed; [done|]. destruct e; [by eexists|]. destruct (send_msg _ _) as [[]|]; by eexists.
  - destruct o; [by eexists|]. destruct (send_msg _ _) as [[]|]; by eexists.
Qed.

Lemma remote_command_end_to_end_witness :
  match run_channel (p := Wire.message_postcard) false [Data [2]; DataErr [3]; ExitStatus 5] [] [] 0 0 frames_first with
  | Finished Drained t => t_out t = [[2]] ∧ t_err t = [[3]] ∧ t_exit t = Some 5
  | FinishedErr t => t_out t `prefix_of` [[2]] ∧ t_err t `prefix_of` [[3]]
  | Finished ClientGone _ | Stuck | NoFuel => False
  end.
Proof.
  apply (remote_command_end_to_end (p := Wire.message_postcard) (pok := Wire.message_postcard_ok) 1 5 [] [] [Data [1]] [[2]] [[3]] 0 0
    err_last frames_first (Worker.mkServed [Data [2]; DataErr [3]; ExitStatus 5] [Ipc.Reap 1] true) demo_exec_end).
  - apply err_last_schedules.
  - by vm_compute.
  - by vm_compute.
  - by vm_compute.
  - apply frames_first_schedules.
Defined.

(** The status is already here, but standard input is taken first and the server
    no longer reads: the client fails and the status is never looked at. *)
Example exit_status_lost :
  match run_channel (p := Wire.message_postcard) false [ExitStatus 0] [[121; 10]] [] 0 0 (λ _ _, (TStdin, false)) with
  | FinishedErr st => t_exit st = None ∧ t_frames st = [ExitStatus 0]
  | _ => False
  end.
Proof. by vm_compute. Qed.

End Terminal.

Module Bridge.
Import Session.

(** The task [down]: the messages the reader delivers before it ends, and how
    many writes to the socket succeed ([None]: all). What the socket was
    written; it is then shut down for writing. *)
Fixpoint down_loop (msgs : list ChannelMessage) (writes : option nat) : list bytes :=
  match msgs with
  | [] => []
  | Data d :: msgs =>
      match writes with
      | Some O => []
      | Some (S n) => d :: down_loop msgs (Some n)
      | None => d :: down_loop msgs None
      end
  | _ :: msgs => down_loop msgs writes
  end.

(** The other direction: the chunks read from the socket before its end (or an
    error), and how many sends the stream takes. The frames sent, and whether an
    encoding error ended it before the stream was finished. *)
Fixpoint up_loop `{Postcard ChannelMessage} (chunks : list bytes) (sends : option nat) : list ChannelMessage * bool :=
  match chunks with
  | [] => ([], true)
  | b :: chunks =>
      match encode (Data b), sends with
      | Err _, _ => ([], false)
      | Ok _, Some O => ([], true)
      | Ok _, Some (S n) => let '(sent, fin) := up_loop chunks (Some n) in (Data b :: sent, fin)
      | Ok _, None => let '(sent, fin) := up_loop chunks None in (Data b :: sent, fin)
      end
  end.

(** What [bridge] leaves: the frames it sent and whether the stream was finished
    (when it is, [bridge] waits for the other task), the bytes the socket was
    written and whether its write half was shut down. The two tasks share
    nothing, so their interleaving does not matter. *)
Record Bridged := mkBridged {
  b_sent : list ChannelMessage;
  b_finished : bool;
  b_written : list bytes;
  b_shutdown : bool;
}.

Definition bridge `{Postcard ChannelMessage} (chunks : list bytes) (sends : option nat)
    (msgs : list ChannelMessage) (writes : option nat) : Bridged :=
  let '(sent, fin) := up_loop chunks sends in
  mkBridged sent fin (down_loop msgs writes) true.

Lemma down_loop_data msgs : down_loop msgs None = data_of msgs.
Proof.
  induction msgs as [|m msgs IH]; [done|].
  change (m :: msgs) with ([m] ++ msgs). rewrite data_of_app, <- IH. by destruct m.
Qed.

Lemma down_loop_prefix msgs writes : down_loop msgs writes `prefix_of` data_of msgs.
Proof.
  revert writes. induction msgs as [|m msgs IH]; intros writes; [done|].
  change (m :: msgs) with ([m] ++ msgs). rewrite data_of_app. destruct m as [d|d|c r|code|s]; simpl; auto.
  destruct writes as [[|n]|]; [apply prefix_nil|..]; by apply prefix_cons.
Qed.

Lemma up_loop_all `{Postcard ChannelMessage} chunks :
  Forall (λ b, is_ok (encode (Data b)) = true) chunks → up_loop chunks None = (Data <$> chunks, true).
Proof.
  induction 1 as [|b chunks Hb Hc IH]; [done|]. simpl. destruct (encode (Data b)); [|done]. by rewrite IH.
Qed.

Lemma data_of_chunks l : data_of (Data <$> l) = l.
Proof.
  induction l as [|b l IH]; [done|].
  change (Data <$> b :: l) with ([Data b] ++ (Data <$> l)). by rewrite data_of_app, IH.
Qed.

(** Without a failed write the service's input is closed with the last frame. *)
Lemma forward_arm_shutdown `{Postcard ChannelMessage} a r st :
  f_frames_done st = f_shutdown st →
  match forward_arm a r true st with
  | Some (Running st') | Some (Returned _ st') | Some (Errored st') => f_frames_done st' = f_shutdown st'
  | None => True
  end.
Proof.
  destruct st as [fs out fd od sent tcp sh]. simpl. intros <-.
  assert (∀ fs out od sent tcp, match forward_check (mkForward fs out fd od sent tcp fd) with
    | Running st' | Returned _ st' | Errored st' => f_frames_done st' = f_shutdown st' end) as Hc
    by (intros; unfold forward_check; by destruct (_ && _)).
  destruct a; [| |done].
  - destruct fd; [done|]. destruct fs as [|[] fs]; try apply Hc. unfold forward_check. by destruct (_ && _).
  - destruct od; [done|]. destruct out as [|b out]; [apply Hc|].
    destruct (send_msg r (Data b)) as [[]|]; [apply Hc | done..].
Qed.

(** C19: a forwarded connection is transparent, end to end. The client's bridge
    and the server's pump, the frames of each being what the other sent: for every
    scheduling of the server's pump, if it drains and no send or write fails, the
    service has been written exactly the chunks read from the client's socket and
    the client's socket exactly those read from the service, in order, and both
    are then closed for writing. *)
Theorem forward_transparent {p : Postcard ChannelMessage} (chunks replies : list bytes)
  (server : nat → ForwardPump → Arm * SendRes) (st : ForwardPump) :
  Forall (λ b, is_ok (encode (Data b)) = true) chunks →
  let client := bridge chunks None (f_sent st) None in
  schedules (λ c, forward_arm c.1 c.2 true) server (forward_running (b_sent client) replies) →
  pump_loop (λ c, forward_arm c.1 c.2 true) server (length replies + length (b_sent client) + 3) 0
    (forward_init (b_sent client) replies) = Finished Drained st →
  f_tcp st = chunks ∧ f_shutdown st = true
  ∧ b_written client = replies ∧ b_shutdown client = true ∧ b_finished client = true.
Proof.
  intros Hc client Hs Ho. unfold client, bridge in *. rewrite up_loop_all in * by done.
  cbn [b_sent b_finished b_written b_shutdown] in *.
  set (frames := Data <$> chunks) in *.
  pose proof (pump_loop_correct (λ c, forward_arm c.1 c.2 true) server
    (λ st, forward_running frames replies st ∧ f_frames_done st = f_shutdown st)
    (λ e st, match e with Drained => forward_delivered frames replies st ∧ f_frames_done st = f_shutdown st
             | ClientGone => True end)
    (λ _, True) forward_measure) as Hl.
  assert (data_of frames = chunks) as Hd by apply data_of_chunks.
  specialize (Hl ltac:(intros n s [H _]; by apply Hs)).
  assert (match pump_loop (λ c, forward_arm c.1 c.2 true) server (length replies + length frames + 3) 0
            (forward_init frames replies) with
    | Finished Drained st => forward_delivered frames replies st ∧ f_frames_done st = f_shutdown st
    | Finished ClientGone _ | FinishedErr _ => True
    | _ => False end) as H.
  { enough (match pump_loop (λ c, forward_arm c.1 c.2 true) server (length replies + length frames + 3) 0
            (forward_init frames replies) with
      | Finished e st' => match e with Drained => forward_delivered frames replies st' ∧ f_frames_done st' = f_shutdown st'
             | ClientGone => True end
      | FinishedErr _ => True | _ => False end) by by destruct (pump_loop _ _ _ _ _) as [[]| | |].
    apply Hl; [| split; [apply forward_inv_init | done] | unfold forward_measure; simpl; lia].
    intros n s [Hr Hsh].
    pose proof (forward_arm_turn frames replies (server n s).1 (server n s).2 true s Hr) as Ht.
    pose proof (forward_arm_shutdown (server n s).1 (server n s).2 s Hsh) as Hsd.
    destruct (forward_arm _ _ true s) as [[s'|[] s'|s']|]; naive_solver. }
  rewrite Ho in H. destruct H as ((Hfd & _ & Hsent & seen & _ & _ & _ & Htcp & _) & Hsh).
  rewrite Hfd in Hsh. rewrite down_loop_data, Hsent, data_of_chunks. rewrite <- Hd. split_and!; auto.
Qed.

Lemma forward_transparent_witness :
  let st := mkForward [] [] true true [Data [2]] [[1]] true in
  let client := bridge (H := Wire.message_postcard) [[1]] None (f_sent st) None in
  f_tcp st = [[1]] ∧ f_shutdown st = true
  ∧ b_written client = [[2]] ∧ b_shutdown client = true ∧ b_finished client = true.
Proof.
  apply (forward_transparent (p := Wire.message_postcard) [[1]] [[2]]
    (λ _ st, (if f_out_done st then ArmFrames else ArmOut, SendOk))).
  - repeat constructor.
  - intros n [fs out fd od sent tcp sh] [_ Hd]. simpl in *. destruct od; simpl.
    + rewrite andb_true_r in Hd. subst fd. destruct fs as [|[]]; by eexists.
    + destruct out; [by eexists|]. destruct (send_msg _ _) as [[]|]; by eexists.
  - by vm_compute.
Defined.

End Bridge.
