(* ===== verification/Cp.v ===== *)
(** * Cp: file copy

    [quish-client/src/cp.rs]: the specs, the destinations, the walk of a local
    tree, downloads (through a temporary file) and uploads. A local path is its
    components, which is how [Path] compares paths (a leading dot aside); a
    channel is what [open_channel] and the stream then answer. *)
From S2P Require Import Prelude RustStr Net Postcard Proto Session Worker Target ClientAuth ClientPump.

Module Cp.
Import Target.

Inductive CpError :=
| Unterminated | EmptyHost | ExpectedColon
| DownloadDirectory | RemoteToRemote | BothLocal | NoLocalSource
| ConfigError (e : SpecError)
| ReadDir | FileType | Metadata | OutOfFuel
| OpenChannel (e : ClientAuth.ClientError)
| Sending | CreateTemp | WriteData | TransportError | Rename | NoStatus
| NotRegular | OpenLocal | ReadLocal | Finishing.

#[global] Instance cperror_eq_dec : EqDecision CpError.
Proof. solve_decision. Defined.

(** ** Specs *)
Inductive CpSpec :=
| Local (path : str)
| Remote (user : option str) (host path : str).

(** [o.is_none_or(|c| at < c)] *)
Definition none_or_after (o : option nat) (at_ : nat) : bool :=
  match o with None => true | Some c => Nat.ltb at_ c end.

Definition parse_cp_spec (s : str) : result CpError CpSpec :=
  let first_colon := find COLON s in
  let first_slash := find SLASH s in
  let '(user, rest) :=
    match find AT s with
    | Some at_ =>
        if none_or_after first_colon at_ && none_or_after first_slash at_
        then (Some (take at_ s), drop (S at_) s) else (None, s)
    | None => (None, s)
    end in
  match strip_prefix [LBRACKET] rest with
  | Some after_bracket =>
      match find RBRACKET after_bracket with
      | None => Err Unterminated
      | Some close =>
          let host := take close after_bracket in
          if bool_decide (host = []) then Err EmptyHost
          else match strip_prefix [COLON] (drop (S close) after_bracket) with
               | None => Err ExpectedColon
               | Some path => Ok (Remote user host path)
               end
      end
  | None =>
      match find COLON rest with
      | Some colon =>
          if contains SLASH (take colon rest) then Ok (Local s)
          else
            let host := take colon rest in
            if bool_decide (host = []) then Err EmptyHost
            else Ok (Remote user host (drop (S colon) rest))
      | None => Ok (Local s)
      end
  end.

(** [s.ends_with(c)] *)
Definition ends_with (c : Z) (s : str) : bool := bool_decide (last s = Some c).

(** [remote.rsplit('/').next()]: the last segment. *)
Definition remote_basename (remote : str) : option str :=
  match last (split_on SLASH remote) with
  | None | Some [] => None
  | Some base => Some base
  end.

Definition resolve_local_dst (dst : str) (dst_is_dir : bool) (remote : str) : result CpError Path :=
  if dst_is_dir || ends_with SLASH dst then
    base ← ok_or DownloadDirectory (remote_basename remote);
    Ok (path_join (path_of dst) base)
  else Ok (path_of dst).

Definition resolve_remote_dst (dst src_name : str) : str :=
  if bool_decide (dst = []) then src_name
  else if ends_with SLASH dst then dst ++ src_name
  else if bool_decide (dst = DOT_STR) || bool_decide (dst = DOTDOT) then dst ++ [SLASH] ++ src_name
  else dst.

Definition local_basename (src : str) : str :=
  let trimmed := trim_end_matches (Z.eqb SLASH) src in
  default trimmed (file_name (path_of trimmed)).

Definition part_path (final_path : Path) : Path :=
  let name := default (lit "download") (file_name final_path) in
  let parent := default (mkPath false []) (parent final_path) in
  mkPath (absolute parent) (comps parent ++ [lit "." ++ name ++ lit ".quish-part"]).

(** ** Arguments *)
Record CpArgs := mkCpArgs {
  c_src : str;
  c_dst : str;
  c_identity : option str;
  c_port : option Z;
  c_connect_path : option str;
}.

Definition map_err {E F A} (f : E → F) (r : result E A) : result F A :=
  match r with Ok a => Ok a | Err e => Err (f e) end.

Definition resolve_cp_target (home user_env : option str) (user : option str) (host : str) (args : CpArgs)
    (cfg : ClientConfig) : result CpError (Target * option str) :=
  let resolved := resolve_target user_env (mkRaw user host (c_port args) (c_connect_path args)) cfg in
  identity ← map_err ConfigError (identity_chain home (c_identity args) (r_identity resolved));
  Ok (r_target resolved, identity).

(** ** The local tree

    What the system says of a node: a directory, its mode if its metadata can be
    had, its entries under their names, bytes, in the order they are returned, if it
    can be read; a regular file; something else; or that its type cannot be had. *)
Inductive Tree :=
| TFile
| TDir (mode : option Z) (entries : option (list (bytes * Tree)))
| TOther
| TUnknown.

Record Walk := mkWalk { w_dirs : list (str * Z); w_files : list str }.

(** [OsString]'s order. *)
Fixpoint str_leb (a b : bytes) : bool :=
  match a, b with
  | [], _ => true
  | _ :: _, [] => false
  | x :: a, y :: b => if x <? y then true else if y <? x then false else str_leb a b
  end.

(** [sort_by_key(file_name)], a stable sort. *)
Fixpoint insert_entry {A} (e : bytes * A) (l : list (bytes * A)) : list (bytes * A) :=
  match l with
  | [] => [e]
  | x :: r => if str_leb e.1 x.1 then e :: l else x :: insert_entry e r
  end.

Definition sort_entries {A} (l : list (bytes * A)) : list (bytes * A) := foldr insert_entry [] l.

Definition child_rel (rel name : str) : str :=
  if bool_decide (rel = []) then name else rel ++ [SLASH] ++ name.

(** The loop over the sorted entries; [rec] is the call for a subdirectory. *)
Fixpoint collect_entries (rec : Tree → str → Walk → result CpError Walk) (entries : list (bytes * Tree)) (rel : str)
    (walk : Walk) : result CpError Walk :=
  match entries with
  | [] => Ok walk
  | (name, child) :: entries =>
      let crel := child_rel rel (from_utf8_lossy name) in
      walk ← match child with
             | TUnknown => Err FileType
             | TDir mode _ =>
                 mode ← ok_or Metadata mode;
                 rec child crel (mkWalk (w_dirs walk ++ [(crel, Z.land mode 0x1FF)]) (w_files walk))
             | TFile => Ok (mkWalk (w_dirs walk) (w_files walk ++ [crel]))
             | TOther => Ok walk
             end;
      collect_entries rec entries rel walk
  end.

Fixpoint collect_dir (fuel : nat) (dir : Tree) (rel : str) (walk : Walk) : result CpError Walk :=
  match fuel with
  | O => Err OutOfFuel
  | S fuel =>
      match dir with
      | TDir _ (Some entries) => collect_entries (collect_dir fuel) (sort_entries entries) rel walk
      | _ => Err ReadDir
      end
  end.

Fixpoint tree_depth (t : Tree) : nat :=
  match t with
  | TDir _ (Some entries) => S (max_list ((λ e, tree_depth e.2) <$> entries))
  | _ => 1
  end.

(** A directory is read once for each level of the tree at most. *)
Definition collect_walk (root : Tree) : result CpError Walk :=
  collect_dir (tree_depth root) root [] (mkWalk [] []).

(** ** Channels

    [ch_open]: what [open_channel] gives; [ch_sends]: how many frames the stream
    takes, the opening one included ([None]: all); [ch_finish]: whether it can be
    finished; then the messages the reader returns, and whether they end with the
    stream or with an error. *)
Record Chan := mkChan {
  ch_open : result ClientAuth.ClientError unit;
  ch_sends : option nat;
  ch_finish : bool;
  ch_msgs : list ChannelMessage;
  ch_clean : bool;
}.

(** One send: the frames left to take, if it is taken. *)
Definition take_send (sends : option nat) : option (option nat) :=
  match sends with
  | None => Some None
  | Some O => None
  | Some (S n) => Some (Some n)
  end.

Section Channels.
Context {po : Postcard ChannelOpen} {pm : Postcard ChannelMessage}.

(** Opening a channel and sending its first frame: the sends left. *)
Definition open_with (ch : Chan) (open : ChannelOpen) : result CpError (option nat) :=
  match ch_open ch with
  | Err e => Err (OpenChannel e)
  | Ok _ =>
      match encode open with
      | Err _ => Err Sending
      | Ok _ => ok_or Sending (take_send (ch_sends ch))
      end
  end.

Fixpoint await_status (msgs : list ChannelMessage) (clean : bool) : result CpError (option Z) :=
  match msgs with
  | [] => if clean then Ok None else Err TransportError
  | ExitStatus c :: _ => Ok (Some c)
  | _ :: msgs => await_status msgs clean
  end.

(** ** Download

    [Files]: the local files by path. The answers of the file system: whether the
    temporary file can be created, how many writes succeed, whether the rename
    does. *)
Abbreviation Files := (gmap Path bytes).

Record DownloadIo := mkDownloadIo { d_create : bool; d_writes : option nat; d_rename : bool }.

(** The loop: what was written to the temporary file, the status, and an error. *)
Fixpoint download_loop (msgs : list ChannelMessage) (clean : bool) (writes : option nat) (written : bytes) :
    bytes * result CpError (option Z) :=
  match msgs with
  | [] => (written, if clean then Ok None else Err TransportError)
  | Data d :: msgs =>
      match take_send writes with
      | Some writes => download_loop msgs clean writes (written ++ d)
      | None => (written, Err WriteData)
      end
  | ExitStatus c :: _ => (written, Ok (Some c))
  | _ :: msgs => download_loop msgs clean writes written
  end.

Definition download_one (ch : Chan) (io : DownloadIo) (remote : str) (final_path : Path) (fs : Files) :
    result CpError Z * Files :=
  match open_with ch (ReadFile remote) with
  | Err e => (Err e, fs)
  | Ok _ =>
      let temp_path := part_path final_path in
      if negb (d_create io) then (Err CreateTemp, fs)
      else
        let '(written, res) := download_loop (ch_msgs ch) (ch_clean ch) (d_writes io) [] in
        let fs := <[temp_path := written]> fs in
        match res with
        | Err e => (Err e, delete temp_path fs)
        | Ok (Some 0) =>
            if d_rename io then (Ok 0, <[final_path := written]> (delete temp_path fs))
            else (Err Rename, fs)
        | Ok (Some code) => (Ok code, delete temp_path fs)
        | Ok None => (Err NoStatus, delete temp_path fs)
        end
  end.

(** ** Upload

    A local file as its metadata and its reads: the chunks [read] returns (at most
    32 KiB each, none empty), then the end or an error. *)
Record LocalFile := mkLocalFile {
  lf_regular : bool;
  lf_mode : Z;
  lf_open : bool;
  lf_chunks : list bytes;
  lf_read_ok : bool;
}.

(** The loop over the reads: the chunks sent, and an error. *)
Fixpoint upload_loop (chunks : list bytes) (read_ok : bool) (sends : option nat) : list ChannelMessage * result CpError unit :=
  match chunks with
  | [] => ([], if read_ok then Ok tt else Err ReadLocal)
  | b :: chunks =>
      match encode (Data b), take_send sends with
      | Ok _, Some sends => let '(sent, r) := upload_loop chunks read_ok sends in (Data b :: sent, r)
      | _, _ => ([], Err Sending)
      end
  end.

(** The result, the opening frame if it was sent, and the frames after it. *)
Definition upload_one (file : option LocalFile) (ch : Chan) (remote : str) :
    result CpError Z * option ChannelOpen * list ChannelMessage :=
  match file with
  | None => (Err NoLocalSource, None, [])
  | Some f =>
      if negb (lf_regular f) then (Err NotRegular, None, [])
      else
        let open := WriteFile remote (Z.land (lf_mode f) 0x1FF) in
        match open_with ch open with
        | Err e => (Err e, None, [])
        | Ok sends =>
            if negb (lf_open f) then (Err OpenLocal, Some open, [])
            else
              let '(sent, r) := upload_loop (lf_chunks f) (lf_read_ok f) sends in
              (_ ← r;
               if negb (ch_finish ch) then Err Finishing
               else status ← await_status (ch_msgs ch) (ch_clean ch); ok_or NoStatus status,
               Some open, sent)
        end
  end.

Definition mkdir_one (ch : Chan) (remote : str) (mode : Z) : result CpError Z :=
  _ ← open_with ch (MkDir remote mode);
  if negb (ch_finish ch) then Err Finishing
  else status ← await_status (ch_msgs ch) (ch_clean ch); ok_or NoStatus status.

(** ** Uploading a tree

    The remote operations, and a server that answers each ([local] gives the file
    at a path under the root; [serve] the channel of each operation). *)
Inductive RemoteOp :=
| OpMkDir (remote : str) (mode : Z)
| OpUpload (rel remote : str).

Definition run_op {S : Type} (serve : RemoteOp → S → Chan * S) (local : str → option LocalFile) (op : RemoteOp) (s : S) :
    result CpError Z * S :=
  let '(ch, s) := serve op s in
  (match op with
   | OpMkDir remote mode => mkdir_one ch remote mode
   | OpUpload rel remote => (upload_one (local rel) ch remote).1.1
   end, s).

(** The operations until one fails or has a nonzero status: the ones done. *)
Fixpoint run_ops {S : Type} (serve : RemoteOp → S → Chan * S) (local : str → option LocalFile) (ops : list RemoteOp) (s : S) :
    result CpError Z * list RemoteOp * S :=
  match ops with
  | [] => (Ok 0, [], s)
  | op :: ops =>
      let '(r, s) := run_op serve local op s in
      match r with
      | Ok 0 => let '(r, done, s) := run_ops serve local ops s in (r, op :: done, s)
      | r => (r, [op], s)
      end
  end.

Definition tree_ops (remote_root : str) (root_mode : Z) (walk : Walk) : list RemoteOp :=
  OpMkDir remote_root root_mode
  :: ((λ d, OpMkDir (remote_root ++ [SLASH] ++ d.1) d.2) <$> w_dirs walk)
  ++ ((λ f, OpUpload f (remote_root ++ [SLASH] ++ f)) <$> w_files walk).

Definition upload_tree {S : Type} (serve : RemoteOp → S → Chan * S) (local : str → option LocalFile)
    (remote_root : str) (root_mode : Z) (walk : Walk) (s : S) : result CpError Z * list RemoteOp * S :=
  run_ops serve local (tree_ops remote_root root_mode walk) s.

(** ** What [run_cp] does before the network *)
Inductive CpPlan :=
| Download (remote : str) (final_path : Path)
| UploadFile (local remote : str)
| UploadTree (local remote_root : str) (root_mode : Z) (walk : Walk).

(** What [metadata] finds at a local path. *)
Inductive Meta := MetaDir (mode : Z) (tree : Tree) | MetaOther.

Definition run_cp_plan (home user_env : option str) (metadata : str → option Meta) (cfg : ClientConfig) (args : CpArgs) :
    result CpError (CpPlan * (Target * option str)) :=
  src ← parse_cp_spec (c_src args);
  dst ← parse_cp_spec (c_dst args);
  match src, dst with
  | Remote _ _ _, Remote _ _ _ => Err RemoteToRemote
  | Local _, Local _ => Err BothLocal
  | Remote user host remote, Local local =>
      t ← resolve_cp_target home user_env user host args cfg;
      let dst_is_dir := match metadata local with Some (MetaDir _ _) => true | _ => false end in
      final_path ← resolve_local_dst local dst_is_dir remote;
      Ok (Download remote final_path, t)
  | Local local, Remote user host remote =>
      meta ← ok_or NoLocalSource (metadata local);
      t ← resolve_cp_target home user_env user host args cfg;
      let src_name := local_basename local in
      match meta with
      | MetaDir mode tree =>
          let remote_root := resolve_remote_dst remote src_name in
          walk ← collect_walk tree;
          Ok (UploadTree local remote_root (Z.land mode 0x1FF) walk, t)
      | MetaOther => Ok (UploadFile local (resolve_remote_dst remote src_name), t)
      end
  end.

End Channels.

(** ** A download replaces its destination or leaves it *)
Lemma part_path_ne p : part_path p ≠ p.
Proof.
  intros E.
  assert (last (comps p) = Some (lit "." ++ default (lit "download") (file_name p) ++ lit ".quish-part")) as Hl.
  { rewrite <- E at 1. unfold part_path. simpl. apply last_snoc. }
  unfold file_name in Hl. destruct (last (comps p)) as [c|]; [|done]. apply (inj Some) in Hl.
  apply (f_equal length) in Hl as Hlen. rewrite !length_app in Hlen.
  case_bool_decide as Hd; unfold id in Hlen; simpl in Hlen; [|lia]. subst c. by vm_compute in Hlen.
Qed.

Section Theorems.
Context {po : Postcard ChannelOpen} {pm : Postcard ChannelMessage}.

Lemma download_loop_spec msgs clean writes written out res :
  download_loop msgs clean writes written = (out, res) →
  match res with
  | Ok (Some c) => ∃ seen rest, msgs = seen ++ ExitStatus c :: rest ∧ Terminal.no_exit seen
      ∧ out = written ++ mjoin (Session.data_of seen)
  | _ => True
  end.
Proof using Type.
  revert writes written. induction msgs as [|m msgs IH]; intros writes written; simpl.
  { destruct clean; by intros [= <- <-]. }
  assert (∀ w acc, download_loop msgs clean w acc = (out, res) →
    (∀ c, m ≠ ExitStatus c) → acc = written ++ mjoin (Session.data_of [m]) →
    match res with
    | Ok (Some c) => ∃ seen rest, m :: msgs = seen ++ ExitStatus c :: rest ∧ Terminal.no_exit seen
        ∧ out = written ++ mjoin (Session.data_of seen)
    | _ => True end) as Hgo.
  { intros w acc H Hm ->. specialize (IH _ _ H). destruct res as [[c|]|]; [|done..].
    destruct IH as (seen & rest & -> & Hn & ->). exists (m :: seen), rest. split_and!; [done | by constructor |].
    change (m :: seen) with ([m] ++ seen). by rewrite Session.data_of_app, join_app, <- app_assoc. }
  destruct m as [d|d|c r|code|sig]; try (intros H; eapply Hgo; [exact H | done | simpl; by rewrite ?app_nil_r]).
  - destruct (take_send writes) as [w|]; [|by intros [= <- <-]]. intros H. eapply Hgo; [exact H | done |].
    simpl. by rewrite app_nil_r.
  - intros [= <- <-]. exists [], msgs. split_and!; [done | constructor | simpl; by rewrite app_nil_r].
Qed.

Lemma download_one_spec (ch : Chan) (io : DownloadIo) (remote : str) (final_path : Path)
  (fs : gmap Path bytes) :
  let '(r, fs') := download_one ch io remote final_path fs in
  (∀ p, p ≠ final_path → p ≠ part_path final_path → fs' !! p = fs !! p)
  ∧ (fs' = fs ∨ r = Err Rename ∨ fs' !! part_path final_path = None)
  ∧ (∀ c, r = Ok c → ∃ seen rest, ch_msgs ch = seen ++ ExitStatus c :: rest ∧ Terminal.no_exit seen
       ∧ (c = 0 → fs' !! final_path = Some (mjoin (Session.data_of seen))))
  ∧ (r ≠ Ok 0 → fs' !! final_path = fs !! final_path).
Proof using Type.
  unfold download_one. destruct (open_with ch _); [|by split_and!; [done | by left | done | done]].
  destruct (d_create io); simpl; [|by split_and!; [done | by left | done | done]].
  pose proof (part_path_ne final_path) as Hne.
  destruct (download_loop _ _ _ _) as [written res] eqn:E. apply download_loop_spec in E.
  assert (∀ p, p ≠ part_path final_path → delete (part_path final_path) (<[part_path final_path := written]> fs) !! p = fs !! p) as Hd.
  { intros p Hp. by rewrite lookup_delete_ne, lookup_insert_ne by done. }
  assert (delete (part_path final_path) (<[part_path final_path := written]> fs) !! part_path final_path = None) as Hg
    by apply lookup_delete_eq.
  destruct res as [[c|]|e]; [|by split_and!; auto..].
  destruct E as (seen & rest & Hm & Hn & Hw). simpl in Hw.
  destruct (base.decide (c = 0)) as [->|Hc].
  - destruct (d_rename io).
    + split_and!; [| right; right | | done].
      * intros p H1 H2. rewrite lookup_insert_ne by done. by apply Hd.
      * rewrite lookup_insert_ne by done. apply Hg.
      * intros c [= <-]. exists seen, rest. split_and!; [done..|]. intros _. by rewrite lookup_insert_eq, Hw.
    + split_and!; [| by right; left | done |].
      * intros p H1 H2. by rewrite lookup_insert_ne.
      * intros _. by rewrite lookup_insert_ne.
  - assert (∀ A (a : A) f, match c with 0 => a | _ => f end = f) as Hz by (intros; by destruct c).
    rewrite Hz. split_and!; [by auto | by auto | | by auto].
    intros c' [= <-]. exists seen, rest. by split_and!.
Qed.

(** C20: a download is all or nothing. Whatever the server sends and however the
    local writes fail, the destination changes only when the first status to come
    is zero, and then it holds exactly the data before it; otherwise it is what it
    was. No file but the destination and the temporary one is touched, and the
    temporary one is gone unless nothing was started or the rename failed. *)
Theorem download_all_or_nothing (ch : Chan) (io : DownloadIo) (remote : str) (final_path : Path)
  (fs : gmap Path bytes) :
  let '(r, fs') := download_one ch io remote final_path fs in
  (∀ p, p ≠ final_path → p ≠ part_path final_path → fs' !! p = fs !! p)
  ∧ (fs' = fs ∨ r = Err Rename ∨ fs' !! part_path final_path = None)
  ∧ (∀ c, r = Ok c → ∃ seen rest, ch_msgs ch = seen ++ ExitStatus c :: rest ∧ Terminal.no_exit seen
       ∧ (c = 0 → fs' !! final_path = Some (mjoin (Session.data_of seen))))
  ∧ (r ≠ Ok 0 → fs' !! final_path = fs !! final_path).
Proof using Type. apply download_one_spec. Qed.

(** An upload with a status has sent its file: the permissions, then every chunk
    read, to the end. *)
Lemma upload_loop_Ok chunks read_ok sends sent :
  upload_loop chunks read_ok sends = (sent, Ok tt) → sent = Data <$> chunks ∧ read_ok = true.
Proof using Type.
  revert sends sent. induction chunks as [|b chunks IH]; intros sends sent; simpl; [by destruct read_ok; intros [= <-]|].
  destruct (encode (Data b)); [|done]. destruct (take_send sends) as [n|]; [|done].
  destruct (upload_loop chunks read_ok n) as [sent' r] eqn:E. intros [= <- ->]. by destruct (IH _ _ E) as [-> ->].
Qed.

Lemma upload_one_Ok file ch remote code open sent :
  upload_one file ch remote = (Ok code, open, sent) →
  ∃ f, file = Some f ∧ lf_regular f = true ∧ ch_open ch = Ok tt ∧
    open = Some (WriteFile remote (Z.land (lf_mode f) 0x1FF)) ∧ sent = Data <$> lf_chunks f ∧
    await_status (ch_msgs ch) (ch_clean ch) = Ok (Some code).
Proof using Type.
  unfold upload_one. destruct file as [f|]; [|done]. destruct (lf_regular f) eqn:Er; [|done]. cbn [negb].
  unfold open_with. destruct (ch_open ch) as [[]|] eqn:Eo; [|done]. destruct (encode _); [|done].
  destruct (take_send _) as [n|]; [|done]. cbn [ok_or]. destruct (lf_open f); [|done]. cbn [negb].
  destruct (upload_loop _ _ _) as [sent' r] eqn:El. intros [= Hr <- <-].
  destruct r as [[]|]; [|done]. apply upload_loop_Ok in El as [-> _]. cbn in Hr.
  destruct (ch_finish ch); [|done]. cbn in Hr.
  destruct (await_status _ _) as [[c|]|] eqn:Ea; try done. injection Hr as ->. by exists f.
Qed.

(** ** Against the server *)
Lemma send_ok_encoded m : is_ok (encode m) = true → Session.send_msg Session.SendOk m = Ok true.
Proof using Type. unfold Session.send_msg. by destruct (encode m). Qed.

Lemma upload_loop_all chunks :
  Forall (λ b, is_ok (encode (Data b)) = true) chunks → upload_loop chunks true None = (Data <$> chunks, Ok tt).
Proof using Type.
  induction 1 as [|b chunks Hb Hc IH]; [done|]. simpl. destruct (encode (Data b)); [|done]. simpl. by rewrite IH.
Qed.

Lemma server_upload_all (chunks : list bytes) : Worker.upload_loop (Data <$> chunks) None = chunks.
Proof using Type.
  induction chunks as [|b chunks IH]; [done|]. rewrite fmap_cons. cbn [Worker.upload_loop]. by rewrite IH.
Qed.

Lemma transfer_loop_all chunks :
  Forall (λ b, is_ok (encode (Data b)) = true) chunks →
  Worker.transfer_loop ((λ b, (b, Session.SendOk)) <$> chunks) = (Data <$> chunks, Ok false).
Proof using Type.
  induction 1 as [|b chunks Hb Hc IH]; [done|]. rewrite !fmap_cons. cbn [Worker.transfer_loop].
  by rewrite send_ok_encoded, IH.
Qed.

Lemma download_loop_data chunks msgs clean written :
  download_loop ((Data <$> chunks) ++ msgs) clean None written
  = download_loop msgs clean None (written ++ mjoin chunks).
Proof using Type.
  revert written. induction chunks as [|b chunks IH]; intros written; [simpl; by rewrite app_nil_r|].
  rewrite fmap_cons. cbn [app download_loop take_send]. by rewrite IH, <- app_assoc.
Qed.

(** The status the monitor collected is the last thing sent. *)
Lemma end_session_sent sid code sent :
  is_ok (encode (ExitStatus code)) = true →
  Worker.s_sent (Worker.end_session sid code Session.Drained Session.SendOk sent []) = sent ++ [ExitStatus code].
Proof using Type. intros H. unfold Worker.end_session. by rewrite send_ok_encoded. Qed.

(** A stream that takes and delivers everything. *)
Definition good_chan (msgs : list ChannelMessage) : Chan := mkChan (Ok tt) None true msgs true.

(** C17: a file arrives as it was read, and its status comes back. Uploading a
    regular file over a stream that loses nothing, the server's helper is given
    exactly the chunks read from the file, in order, with the file's permission
    bits in the request, and the client returns the helper's status; downloading,
    the destination gets exactly the bytes the helper produced when its status is
    zero, and keeps its contents otherwise. *)
Theorem transfer_end_to_end (sid code : Z) (f : LocalFile) (remote : str) (chunks : list bytes) (final_path : Path)
  (fs : gmap Path bytes) :
  lf_regular f = true → lf_open f = true → lf_read_ok f = true →
  Forall (λ b, is_ok (encode (Data b)) = true) (lf_chunks f ++ chunks) →
  is_ok (encode (ExitStatus code)) = true →
  is_ok (encode (WriteFile remote (Z.land (lf_mode f) 0x1FF))) = true → is_ok (encode (ReadFile remote)) = true →
  (let '(stdin, served) := Worker.run_transfer_write sid code Session.SendOk (Data <$> lf_chunks f) None in
   let '(r, open, sent) := upload_one (Some f) (good_chan (Worker.s_sent served)) remote in
   sent = Data <$> lf_chunks f ∧ stdin = lf_chunks f ∧ open = Some (WriteFile remote (Z.land (lf_mode f) 0x1FF))
   ∧ r = Ok code)
  ∧ (let served := Worker.run_transfer sid code Session.SendOk ((λ b, (b, Session.SendOk)) <$> chunks) in
     let '(r, fs') := download_one (good_chan (Worker.s_sent served)) (mkDownloadIo true None true) remote final_path fs in
     r = Ok code ∧ fs' !! final_path = if bool_decide (code = 0) then Some (mjoin chunks) else fs !! final_path).
Proof using Type.
  intros Hr Ho Hrd Hc He Hw Hrf. apply Forall_app in Hc as [Hc1 Hc2]. split.
  - unfold Worker.run_transfer_write. rewrite server_upload_all, send_ok_encoded by done.
    unfold upload_one. rewrite Hr, Ho, Hrd. unfold open_with. cbn [good_chan ch_open ch_sends negb].
    destruct (encode (WriteFile _ _)); [|done]. cbn [take_send ok_or]. by rewrite upload_loop_all.
  - unfold Worker.run_transfer. rewrite transfer_loop_all by done. rewrite end_session_sent by done.
    unfold download_one, open_with. cbn [good_chan ch_open ch_sends ch_msgs ch_clean d_create d_writes d_rename negb].
    destruct (encode (ReadFile _)); [|done]. cbn [take_send ok_or]. rewrite download_loop_data. cbn [download_loop app].
    pose proof (part_path_ne final_path) as Hne. case_bool_decide as Hz.
    + subst code. by rewrite lookup_insert_eq.
    + assert (∀ A (a : A) f, match code with 0 => a | _ => f end = f) as -> by (intros; by destruct code).
      by rewrite lookup_delete_ne, lookup_insert_ne.
Qed.

End Theorems.

(** ** Specs against scp's rule

    Remote iff a colon comes before the first slash; the user is what comes before
    the first [@] of the host part. *)
Definition scp_rule (s : str) : result CpError CpSpec :=
  match split_once COLON s with
  | Some (pre, path) =>
      if contains SLASH pre then Ok (Local s)
      else
        let '(user, host) := match split_once AT pre with Some (u, h) => (Some u, h) | None => (None, pre) end in
        if bool_decide (host = []) then Err EmptyHost else Ok (Remote user host path)
  | None => Ok (Local s)
  end.

Lemma find_split c s :
  find c s = match split_once c s with Some (a, _) => Some (length a) | None => None end.
Proof.
  destruct (split_once c s) as [[a b]|] eqn:E.
  - apply split_once_Some in E as [-> Hn]. apply find_Some. by exists a, b.
  - apply find_None. by apply split_once_None in E.
Qed.

Lemma take_drop_at {A} (a : list A) c b : take (length a) (a ++ c :: b) = a ∧ drop (S (length a)) (a ++ c :: b) = b.
Proof.
  split; [apply take_app_length|]. replace (S (length a)) with (length (a ++ [c])) by (rewrite length_app; simpl; lia).
  replace (a ++ c :: b) with ((a ++ [c]) ++ b) by by rewrite <- app_assoc. apply drop_app_length.
Qed.

Lemma find_app_l c a b : c ∈ a → find c (a ++ b) = find c a.
Proof.
  induction a as [|x a IH]; intros H; [by apply not_elem_of_nil in H|]. simpl.
  destruct (Z.eqb_spec x c); [done|]. rewrite IH by set_solver. done.
Qed.

Lemma find_app_r c a b : c ∉ a → find c (a ++ b) = Nat.add (length a) <$> find c b.
Proof.
  induction a as [|x a IH]; intros H; simpl; [by destruct (find c b)|].
  destruct (Z.eqb_spec x c); [set_solver|]. rewrite IH by set_solver. by destruct (find c b).
Qed.

(** The unbracketed tail of the parser. *)
Lemma rest_rule (s : str) user rest :
  LBRACKET ∉ rest →
  match strip_prefix [LBRACKET] rest with
  | Some after_bracket =>
      match find RBRACKET after_bracket with
      | None => Err Unterminated
      | Some close =>
          let host := take close after_bracket in
          if bool_decide (host = []) then Err EmptyHost
          else match strip_prefix [COLON] (drop (S close) after_bracket) with
               | None => Err ExpectedColon
               | Some path => Ok (Remote user host path)
               end
      end
  | None =>
      match find COLON rest with
      | Some colon =>
          if contains SLASH (take colon rest) then Ok (Local s)
          else
            let host := take colon rest in
            if bool_decide (host = []) then Err EmptyHost
            else Ok (Remote user host (drop (S colon) rest))
      | None => Ok (Local s)
      end
  end
  = match split_once COLON rest with
    | Some (pre, path) =>
        if contains SLASH pre then Ok (Local s)
        else if bool_decide (pre = []) then Err EmptyHost else Ok (Remote user pre path)
    | None => Ok (Local s)
    end.
Proof.
  intros HL. assert (strip_prefix [LBRACKET] rest = None) as ->.
  { rewrite strip_prefix_one. destruct rest as [|x r]; [done|]. destruct (Z.eqb_spec LBRACKET x); [set_solver | done]. }
  rewrite find_split. destruct (split_once COLON rest) as [[pre path]|] eqn:E; [|done].
  apply split_once_Some in E as [-> _]. destruct (take_drop_at pre COLON path) as [-> ->]. done.
Qed.

(** Where the user part ends. *)
Definition user_split (s : str) : option str * str :=
  match find AT s with
  | Some at_ =>
      if none_or_after (find COLON s) at_ && none_or_after (find SLASH s) at_
      then (Some (take at_ s), drop (S at_) s) else (None, s)
  | None => (None, s)
  end.

Lemma user_split_rest s user rest : user_split s = (user, rest) → ∀ c, c ∈ rest → c ∈ s.
Proof.
  unfold user_split. destruct (find AT s) as [i|]; [destruct (_ && _)|]; intros [= <- <-] c Hc; [|done|done].
  rewrite <- (take_drop (S i) s). set_solver.
Qed.

Lemma none_or_after_app c u x r :
  none_or_after (find c (u ++ x :: r)) (length u) = bool_decide (c ∉ u) && negb (x =? c).
Proof.
  destruct (base.decide (c ∈ u)) as [H|H].
  - rewrite bool_decide_eq_false_2 by tauto. rewrite find_app_l by done. rewrite find_split.
    destruct (split_once c u) as [[a b]|] eqn:E; [|by apply split_once_None in E].
    apply split_once_Some in E as [-> _]. simpl. apply Nat.ltb_ge. rewrite length_app. lia.
  - rewrite bool_decide_eq_true_2 by done. rewrite find_app_r by done. simpl.
    destruct (x =? c); simpl; [apply Nat.ltb_ge; lia|].
    destruct (find c r); simpl; [apply Nat.ltb_lt; lia | done].
Qed.

Lemma user_split_colon pre path :
  COLON ∉ pre →
  user_split (pre ++ COLON :: path) =
  match split_once AT pre with
  | Some (u, h) => if contains SLASH u then (None, pre ++ COLON :: path) else (Some u, h ++ COLON :: path)
  | None => (None, pre ++ COLON :: path)
  end.
Proof.
  intros Hc. unfold user_split. destruct (split_once AT pre) as [[u h]|] eqn:E.
  - apply split_once_Some in E as [-> Hu]. rewrite <- app_assoc. cbn [app].
    assert (find AT (u ++ AT :: h ++ COLON :: path) = Some (length u)) as -> by (apply find_Some; by eexists u, _).
    rewrite !none_or_after_app. rewrite bool_decide_eq_true_2 by set_solver.
    destruct (take_drop_at u AT (h ++ COLON :: path)) as [-> ->]. change (AT =? COLON) with false. change (AT =? SLASH) with false.
    rewrite andb_true_r. cbn [andb negb].
    destruct (contains SLASH u) eqn:Es.
    + apply contains_true in Es. by rewrite bool_decide_eq_false_2 by tauto.
    + apply contains_false in Es. by rewrite bool_decide_eq_true_2.
  - apply split_once_None in E. rewrite find_app_r by done. simpl.
    destruct (find AT path) as [i|] eqn:Ei; simpl; [|done].
    assert (find COLON (pre ++ COLON :: path) = Some (length pre)) as -> by by (apply find_Some; exists pre, path).
    simpl. destruct (Nat.ltb_spec (length pre + S i) (length pre)); [lia | done].
Qed.

Lemma contains_app c a b : contains c (a ++ b) = contains c a || contains c b.
Proof. unfold contains. apply existsb_app. Qed.

(** Without brackets the parser is scp's rule. *)
Lemma parse_cp_spec_unbracketed s : LBRACKET ∉ s → parse_cp_spec s = scp_rule s.
Proof.
  intros HL. unfold parse_cp_spec. fold (user_split s).
  destruct (user_split s) as [user rest] eqn:Eu. pose proof (user_split_rest _ _ _ Eu) as Hsub.
  rewrite rest_rule by auto. unfold scp_rule.
  destruct (split_once COLON s) as [[pre path]|] eqn:Ec.
  - apply split_once_Some in Ec as [-> Hc]. rewrite user_split_colon in Eu by done.
    destruct (split_once AT pre) as [[u h]|] eqn:Ea.
    + apply split_once_Some in Ea as [-> Hu]. rewrite contains_app.
      destruct (contains SLASH u) eqn:Es; simplify_eq.
      * rewrite split_once_app by done. rewrite contains_app, Es. done.
      * rewrite split_once_app by set_solver. simpl. done.
    + simplify_eq. rewrite split_once_app by done. done.
  - apply split_once_None in Ec. rewrite (proj2 (split_once_None COLON rest)); [done|]. auto.
Qed.

(** A copy spec is what scp would take it for. Without brackets,
    [parse_cp_spec] is scp's rule: remote exactly when a colon comes before the
    first slash, the host being what lies between the first [@] and that colon,
    and never empty. A bracketed host is read back whole, colons included, with
    its user and its path; and so is any name that starts with a bracket, colon or
    not: such a local file is an error. *)
Theorem cp_spec_is_scp (s user host path name : str) :
  LBRACKET ∉ s →
  COLON ∉ user → SLASH ∉ user → AT ∉ user →
  host ≠ [] → RBRACKET ∉ host → RBRACKET ∉ name → AT ∉ name →
  parse_cp_spec s = scp_rule s
  ∧ parse_cp_spec (user ++ [AT; LBRACKET] ++ host ++ [RBRACKET; COLON] ++ path) = Ok (Remote (Some user) host path)
  ∧ parse_cp_spec (LBRACKET :: name) = Err Unterminated.
Proof.
  intros HL U1 U2 U3 H1 H2 N1 N2. split_and!; [by apply parse_cp_spec_unbracketed| |].
  - unfold parse_cp_spec. fold (user_split (user ++ [AT; LBRACKET] ++ host ++ [RBRACKET; COLON] ++ path)).
    assert (user_split (user ++ [AT; LBRACKET] ++ host ++ [RBRACKET; COLON] ++ path)
            = (Some user, LBRACKET :: host ++ [RBRACKET; COLON] ++ path)) as ->.
    { unfold user_split. cbn [app].
      assert (find AT (user ++ AT :: LBRACKET :: host ++ RBRACKET :: COLON :: path) = Some (length user)) as ->
        by (apply find_Some; by eexists user, _).
      rewrite !none_or_after_app, !bool_decide_eq_true_2 by done.
      destruct (take_drop_at user AT (LBRACKET :: host ++ RBRACKET :: COLON :: path)) as [-> ->]. done. }
    rewrite strip_prefix_one, Z.eqb_refl. cbn [app].
    assert (find RBRACKET (host ++ RBRACKET :: COLON :: path) = Some (length host)) as ->
      by (apply find_Some; by eexists host, _).
    destruct (take_drop_at host RBRACKET (COLON :: path)) as [-> ->].
    rewrite bool_decide_eq_false_2 by done. by rewrite strip_prefix_one, Z.eqb_refl.
  - unfold parse_cp_spec. assert (find AT (LBRACKET :: name) = None) as ->.
    { apply find_None. unfold AT, LBRACKET in *. set_solver. }
    rewrite strip_prefix_one, Z.eqb_refl. by rewrite (proj2 (find_None RBRACKET name)).
Qed.

(** ** The walk is the tree, parents first *)

(** The node at a path of names. *)
Inductive at_path : Tree → list bytes → Tree → Prop :=
| at_here t : at_path t [] t
| at_entry m es name child names t :
    (name, child) ∈ es → at_path child names t → at_path (TDir m (Some es)) (name :: names) t.

Definition rel_path (rel : str) (names : list bytes) : str := foldl child_rel rel (from_utf8_lossy <$> names).

(** A directory listed: where it is, and its mode. *)
Abbreviation visit := (list bytes * Z)%type.
Definition dir_row (rel : str) (v : visit) : str * Z := (rel_path rel v.1, Z.land v.2 0x1FF).

(** Each after the directory it is in, if that is not where the walk starts. *)
Definition topdown (vs : list visit) : Prop :=
  ∀ i v, vs !! i = Some v → removelast v.1 = [] ∨ ∃ j v', (j < i)%nat ∧ vs !! j = Some v' ∧ v'.1 = removelast v.1.

(** What can be listed: not a node of unknown type, nor a directory whose metadata
    or entries cannot be read. *)
Definition listable (t : Tree) : Prop :=
  match t with TUnknown | TDir None _ | TDir _ None => False | _ => True end.

(** What a stretch of the walk adds: the directories and the files among [nodes],
    all of which can be listed. *)
Definition adds (rel : str) (nodes : list bytes → Tree → Prop) (w w' : Walk) : Prop :=
  ∃ vs fs, w' = mkWalk (w_dirs w ++ (dir_row rel <$> vs)) (w_files w ++ (rel_path rel <$> fs))
  ∧ (∀ names m, (names, m) ∈ vs ↔ ∃ es, nodes names (TDir (Some m) es))
  ∧ (∀ names, names ∈ fs ↔ nodes names TFile)
  ∧ topdown vs ∧ ∀ names t, nodes names t → listable t.

Lemma topdown_nil : topdown [].
Proof. intros i d H. by rewrite lookup_nil in H. Qed.

Lemma topdown_app vs1 vs2 : topdown vs1 → topdown vs2 → topdown (vs1 ++ vs2).
Proof.
  intros H1 H2 i v [H | [Hle H]]%lookup_app_Some.
  - destruct (H1 i v H) as [E | (j & v' & Hj & Hd & Eq)]; [by left|].
    right. exists j, v'. split_and!; [done| |done]. by apply lookup_app_l_Some.
  - destruct (H2 _ v H) as [E | (j & v' & Hj & Hd & Eq)]; [by left|].
    right. exists (length vs1 + j)%nat, v'. split_and!; [lia| |done]. rewrite lookup_app_r by lia.
    by replace (length vs1 + j - length vs1)%nat with j by lia.
Qed.

(** The visits of a subdirectory, seen from the one it is in. *)
Definition inside (name : bytes) (v : visit) : visit := (name :: v.1, v.2).

Lemma topdown_dir name m vs :
  (∀ v, v ∈ vs → v.1 ≠ []) → topdown vs → topdown (([name], m) :: (inside name <$> vs)).
Proof.
  intros Hne H [|i] v Hv; simpl in Hv; [injection Hv as <-; by left|]. right.
  apply list_lookup_fmap_Some in Hv as ([names k] & -> & Hi). pose proof (Hne _ (list_elem_of_lookup_2 _ _ _ Hi)) as Hn.
  assert (removelast (name :: names) = name :: removelast names) as Er by (by destruct names). simpl fst in *. rewrite Er.
  destruct (H i _ Hi) as [E | (j & [n' k'] & Hj & Hd & Eq)]; simpl in *.
  - exists 0%nat, ([name], m). rewrite E. split_and!; [lia|done|done].
  - exists (S j), (name :: n', k'). split_and!; [lia| |simpl; by f_equal].
    change ((inside name <$> vs) !! j = Some (name :: n', k')). by rewrite list_lookup_fmap, Hd.
Qed.

Lemma adds_iff rel N1 N2 w w' : (∀ names t, N1 names t ↔ N2 names t) → adds rel N1 w w' → adds rel N2 w w'.
Proof.
  intros HN (vs & fs & E & Hd & Hf & Ht & Hl). exists vs, fs. split_and!; [done | | | done |].
  - intros names m. rewrite Hd. by setoid_rewrite HN.
  - intros names. rewrite Hf. by apply HN.
  - intros names t. rewrite <- HN. apply Hl.
Qed.

Lemma adds_none rel N w : (∀ names t, N names t → t = TOther) → adds rel N w w.
Proof.
  intros HN. exists [], []. destruct w as [ds fs]. rewrite !app_nil_r. split_and!; [done | | | apply topdown_nil |].
  - intros names m. split; [by intros ?%not_elem_of_nil|]. intros (es & H). by apply HN in H.
  - intros names. split; [by intros ?%not_elem_of_nil|]. intros H. by apply HN in H.
  - by intros names t ->%HN.
Qed.

Lemma adds_app rel N1 N2 w w1 w2 :
  adds rel N1 w w1 → adds rel N2 w1 w2 → adds rel (λ names t, N1 names t ∨ N2 names t) w w2.
Proof.
  intros (vs1 & fs1 & -> & Hd1 & Hf1 & Ht1 & Hl1) (vs2 & fs2 & -> & Hd2 & Hf2 & Ht2 & Hl2).
  exists (vs1 ++ vs2), (fs1 ++ fs2). simpl. rewrite !fmap_app, !app_assoc.
  split_and!; [done | | | by apply topdown_app |].
  - intros names m. rewrite elem_of_app, Hd1, Hd2. naive_solver.
  - intros names. by rewrite elem_of_app, Hf1, Hf2.
  - naive_solver.
Qed.

Lemma adds_file rel name w :
  adds rel (λ names t, names = [name] ∧ t = TFile) w (mkWalk (w_dirs w) (w_files w ++ [child_rel rel (from_utf8_lossy name)])).
Proof.
  exists [], [[name]]. rewrite app_nil_r. split_and!; [done | | | apply topdown_nil |].
  - intros names m. split; [by intros ?%not_elem_of_nil|]. by intros (es & _ & ?).
  - intros names. rewrite list_elem_of_singleton. naive_solver.
  - by intros names t [_ ->].
Qed.

Lemma adds_dir rel name mode es N w w' :
  (∀ names t, N names t → names ≠ []) → is_Some es →
  adds (child_rel rel (from_utf8_lossy name)) N
    (mkWalk (w_dirs w ++ [(child_rel rel (from_utf8_lossy name), Z.land mode 0x1FF)]) (w_files w)) w' →
  adds rel (λ names t, ∃ r, names = name :: r ∧ (r = [] ∧ t = TDir (Some mode) es ∨ N r t)) w w'.
Proof.
  intros Hne [es' ->] (vs & fs & -> & Hd & Hf & Ht & Hl). exists (([name], mode) :: (inside name <$> vs)), (cons name <$> fs).
  simpl. split_and!.
  - rewrite <- app_assoc, <- !list_fmap_compose. reflexivity.
  - intros names m. rewrite elem_of_cons, list_elem_of_fmap. split.
    + intros [[= -> ->] | ([r k] & [= -> ->] & (es & H)%Hd)]; [exists (Some es'), []; split; [done|by left]|].
      exists es, r. split; [done|by right].
    + intros (es & r & -> & [[-> [= -> ->]] | H]); [by left|]. right. exists (r, m). split; [done|]. apply Hd. by exists es.
  - intros names. rewrite list_elem_of_fmap. split.
    + intros (r & -> & H%Hf). exists r. split; [done|by right].
    + intros (r & -> & [[_ ?] | H%Hf]); [done|]. by exists r.
  - apply topdown_dir; [|done]. intros [names m] (es & H)%Hd. by eapply Hne.
  - intros names t (r & -> & [[-> ->] | H]); [done|by eapply Hl].
Qed.

Lemma sort_entries_elem {A} (l : list (bytes * A)) x : x ∈ sort_entries l ↔ x ∈ l.
Proof.
  assert (∀ e (k : list (bytes * A)), insert_entry e k ≡ₚ e :: k) as Hi.
  { intros e k. induction k as [|y k IH]; simpl; [done|]. destruct (str_leb _ _); [done|].
    rewrite IH. apply Permutation_swap. }
  assert (sort_entries l ≡ₚ l) as ->; [|done].
  induction l as [|y l IH]; [done|]. simpl. by rewrite Hi, IH.
Qed.

(** The nodes strictly below a directory, and those below one of its entries. *)
Definition below (t : Tree) (names : list bytes) (t' : Tree) : Prop := names ≠ [] ∧ at_path t names t'.

Definition under (entries : list (bytes * Tree)) (names : list bytes) (t : Tree) : Prop :=
  ∃ name child r, (name, child) ∈ entries ∧ names = name :: r ∧ at_path child r t.

Lemma below_under m es names t : below (TDir m (Some es)) names t ↔ under es names t.
Proof.
  split.
  - intros [Hne H]. inversion H; subst; [done|]. by exists name, child, names0.
  - intros (name & child & r & Hin & -> & H). split; [done|]. by eapply at_entry.
Qed.

(** What a subdirectory's call adds, if it ends well: it could be read. *)
Definition lists (rel : str) (t : Tree) (w w' : Walk) : Prop :=
  (∃ m es, t = TDir m (Some es)) ∧ adds rel (below t) w w'.

Lemma collect_entries_adds rec entries rel w w' :
  (∀ t rel w w', rec t rel w = Ok w' → lists rel t w w') →
  collect_entries rec entries rel w = Ok w' → adds rel (under entries) w w'.
Proof.
  intros Hrec. revert w. induction entries as [|[name child] entries IH]; intros w; simpl.
  { intros [= <-]. apply adds_none. by intros names t (? & ? & ? & ?%not_elem_of_nil & _). }
  intros (w1 & H1 & H2)%result_bind_Ok.
  eapply adds_iff; [|eapply adds_app; [|by apply IH]].
  { intros names t. instantiate (1 := λ names t, ∃ r, names = name :: r ∧ at_path child r t). simpl. split.
    - intros [(r & -> & H) | (n & c & r & Hin & -> & H)];
        [exists name, child, r | exists n, c, r]; split_and!; (done || by constructor).
    - intros (n & c & r & [[= -> ->] | Hin]%elem_of_cons & -> & H); [left; by exists r | right; by exists n, c, r]. }
  destruct child as [|[mode|] es| |]; [| |done| |done].
  - injection H1 as <-. eapply adds_iff; [|apply adds_file]. intros names t. split.
    + intros [-> ->]. exists []. split; [done | constructor].
    + intros (r & -> & H). by inversion H; subst.
  - cbn in H1. destruct (Hrec _ _ _ _ H1) as [(m' & es' & E) Hadds]. injection E as <- ->.
    eapply adds_iff; [|apply (adds_dir _ _ _ (Some es') _ _ _ (λ _ _ H, proj1 H) (mk_is_Some _ _ eq_refl) Hadds)]. intros names t. split.
    + intros (r & -> & [[-> ->] | [_ H]]); exists r || idtac; [exists []; split; [done | constructor] | done].
    + intros (r & -> & H). exists r. split; [done|].
      destruct r; [left; by inversion H; subst | right; by split].
  - injection H1 as <-. apply adds_none. intros names t (r & -> & H). by inversion H.
Qed.

Lemma collect_dir_adds fuel t rel w w' : collect_dir fuel t rel w = Ok w' → lists rel t w w'.
Proof.
  revert t rel w w'. induction fuel as [|fuel IH]; intros t rel w w'; simpl; [done|].
  destruct t as [|m [es|]| |]; [done| |done..]. intros H. split; [by exists m, es|].
  apply collect_entries_adds in H; [|done]. eapply adds_iff; [|exact H].
  intros names t. rewrite below_under. unfold under. by setoid_rewrite sort_entries_elem.
Qed.

(** The node that stops a walk: the directory, at or below it, that cannot be read,
    or the one below it whose metadata or type cannot be had. *)
Definition stops (e : CpError) (t : Tree) : Prop :=
  match e with
  | ReadDir => ∃ m, t = TDir m None
  | Metadata => ∃ es, t = TDir None es
  | FileType => t = TUnknown
  | _ => False
  end.

(** The error of a walk of [t], the root or an entry. *)
Definition stopped (e : CpError) (t : Tree) : Prop := ∃ names t', at_path t names t' ∧ stops e t' ∧ (names = [] → e = ReadDir).

Lemma collect_entries_err rec (entries : list (bytes * Tree)) rel w e :
  (∀ name m es rel w e, (name, TDir m es) ∈ entries → rec (TDir m es) rel w = Err e → stopped e (TDir m es)) →
  collect_entries rec entries rel w = Err e →
  ∃ name child names t', (name, child) ∈ entries ∧ at_path child names t' ∧ stops e t'.
Proof.
  revert w. induction entries as [|[name child] entries IH]; intros w Hrec; simpl; [done|].
  intros [H | (w1 & _ & H)]%result_bind_Err.
  - exists name, child. destruct child as [|[mode|] es| |]; try done; cbn in H.
    + apply Hrec with (name := name) in H as (names & t' & Hat & Hs & _); [|by left]. exists names, t'. split_and!; [by left|done|done].
    + injection H as <-. exists [], (TDir None es). split_and!; [by left|constructor|by exists es].
    + injection H as <-. exists [], TUnknown. split_and!; [by left|constructor|done].
  - apply IH in H as (n & c & names & t' & Hin & Hat & Hs).
    + exists n, c, names, t'. split_and!; [by right|done|done].
    + intros. eapply Hrec; [|done]. by right.
Qed.

Lemma depth_entry m es (name : bytes) child :
  (name, child) ∈ es → (tree_depth child < tree_depth (TDir m (Some es)))%nat.
Proof.
  intros H. change (tree_depth (TDir m (Some es))) with (S (max_list ((λ e, tree_depth e.2) <$> es))).
  apply Nat.lt_succ_r, max_list_elem_of_le. by apply (list_elem_of_fmap_2 (λ e, tree_depth e.2) es (name, child)).
Qed.

Lemma collect_dir_err fuel m es rel w e :
  (tree_depth (TDir m es) ≤ fuel)%nat → collect_dir fuel (TDir m es) rel w = Err e → stopped e (TDir m es).
Proof.
  revert m es rel w e. induction fuel as [|fuel IH]; intros m es rel w e Hf.
  { destruct es; simpl in Hf; lia. }
  destruct es as [es|]; cbn [collect_dir].
  2: { intros [= <-]. exists [], (TDir m None). split_and!; [constructor|by exists m|done]. }
  intros H. apply collect_entries_err in H as (name & child & names & t' & Hin & Hat & Hs).
  - exists (name :: names), t'. rewrite sort_entries_elem in Hin. split_and!; [by eapply at_entry|done|done].
  - intros name m1 es1 rel1 w1 e1 Hin. rewrite sort_entries_elem in Hin.
    apply IH. pose proof (depth_entry m es name _ Hin). lia.
Qed.

(** Paths of names are slash-separated, if no name is empty. *)
Lemma rel_path_join names : Forall (λ n, n ≠ []) names → rel_path [] names = join [SLASH] (from_utf8_lossy <$> names).
Proof.
  intros Hn. unfold rel_path. assert (Forall (λ n : str, n ≠ []) (from_utf8_lossy <$> names)) as Hl
    by (apply Forall_fmap; eapply Forall_impl; [exact Hn|]; intros n; apply from_utf8_lossy_nonempty).
  clear Hn. revert Hl. generalize (from_utf8_lossy <$> names). clear names. intros names.
  assert (∀ rel names, rel ≠ [] → Forall (λ n : str, n ≠ []) names →
    foldl child_rel rel names = rel ++ match names with [] => [] | _ => SLASH :: join [SLASH] names end) as H.
  { intros rel ns Hr Hn. revert rel Hr. induction Hn as [|n ns Hn Hns IH]; intros rel Hr; simpl; [by rewrite app_nil_r|].
    unfold child_rel. rewrite bool_decide_eq_false_2 by done. rewrite IH by (by destruct rel).
    destruct ns as [|n' ns]; simpl; [by rewrite app_nil_r | by rewrite <- app_assoc]. }
  destruct 1 as [|n ns Hn Hns]; [done|]. simpl. unfold child_rel at 2. simpl.
  rewrite H by done. destruct ns; [by rewrite app_nil_r | done].
Qed.

(** C29: the walk of a tree ends, and is the tree. For a directory of any depth and
    any number of entries, in whatever order the system lists them: either it stops
    at a directory at or below it that cannot be read, or at an entry whose type or,
    for a directory, metadata cannot be had, with that error, and nothing is
    uploaded; or there is none of these, and the walk lists exactly the directories
    below it with their permission bits, each after the directory it is in, and
    exactly its regular files (other nodes are left out, links are not followed),
    by their names joined with slashes, what is not UTF-8 in them replaced. *)
Theorem walk_is_the_tree (m : option Z) (es : option (list (bytes * Tree))) :
  let t := TDir m es in
  let shown names := join [SLASH] (from_utf8_lossy <$> names) in
  (∀ names t', at_path t names t' → Forall (λ n, n ≠ []) names) →
  match collect_walk t with
  | Err e => ∃ names t', at_path t names t' ∧ stops e t' ∧ (names = [] → e = ReadDir)
  | Ok w =>
      (∀ names t', at_path t names t' → names ≠ [] → listable t') ∧
      ∃ dirs files,
        w_dirs w = (λ v, (shown v.1, Z.land v.2 0x1FF)) <$> dirs ∧ w_files w = shown <$> files ∧
        (∀ names mode, (names, mode) ∈ dirs ↔ names ≠ [] ∧ ∃ es', at_path t names (TDir (Some mode) es')) ∧
        (∀ names, names ∈ files ↔ names ≠ [] ∧ at_path t names TFile) ∧
        (∀ i names mode, dirs !! i = Some (names, mode) →
           removelast names = [] ∨ ∃ j mode', (j < i)%nat ∧ dirs !! j = Some (removelast names, mode'))
  end.
Proof.
  intros t shown Hn. unfold collect_walk. destruct (collect_dir _ _ _ _) as [w|e] eqn:E; [|by eapply collect_dir_err].
  apply collect_dir_adds in E as [_ (vs & fs & -> & Hd & Hf & Ht & Hl)]. split.
  { intros names t' Hat Hne. by apply (Hl names). }
  exists vs, fs. split_and!; simpl.
  - apply list_fmap_ext. intros i [names k] Hi. unfold dir_row. simpl. f_equal.
    apply list_elem_of_lookup_2, Hd in Hi as (es' & _ & Hat). by eapply rel_path_join, Hn.
  - apply list_fmap_ext. intros i names Hi. apply list_elem_of_lookup_2, Hf in Hi as [_ Hat]. by eapply rel_path_join, Hn.
  - intros names mode. rewrite Hd. unfold below. naive_solver.
  - intros names. rewrite Hf. done.
  - intros i names mode Hi. destruct (Ht i _ Hi) as [?|(j & [n' k'] & Hj & Hv & Eq)]; [by left|right].
    exists j, k'. simpl in Eq. by rewrite <- Eq.
Qed.

(** A tree upload runs a prefix of its operations: all of them when every status
    is zero, and otherwise up to the first that is not, whose result it returns. *)
Theorem upload_tree_stops {po : Postcard ChannelOpen} {pm : Postcard ChannelMessage} {S : Type}
  (serve : RemoteOp → S → Chan * S) (local : str → option LocalFile) (root : str) (mode : Z) (walk : Walk) (s : S) :
  let '(r, done, s') := upload_tree serve local root mode walk s in
  done `prefix_of` tree_ops root mode walk
  ∧ (r = Ok 0 → done = tree_ops root mode walk)
  ∧ (r ≠ Ok 0 → ∃ before op s1, done = before ++ [op] ∧ run_op serve local op s1 = (r, s')).
Proof.
  unfold upload_tree. generalize (tree_ops root mode walk). intros ops. revert s.
  induction ops as [|op ops IH]; intros s; simpl; [by split_and!|].
  destruct (run_op serve local op s) as [r s1] eqn:E.
  assert (∀ A (a : A) f, r ≠ Ok 0 → match r with Ok 0 => a | _ => f end = f) as Hz.
  { intros A a f H. destruct r as [c|e]; [|done]. by destruct c. }
  destruct (base.decide (r = Ok 0)) as [->|Hr].
  - specialize (IH s1). destruct (run_ops serve local ops s1) as [[r' done_] s2]. destruct IH as (H1 & H2 & H3).
    split_and!; [by apply prefix_cons | intros H; by rewrite H2 |].
    intros H. destruct (H3 H) as (before & op' & s3 & -> & H'). by exists (op :: before), op', s3.
  - rewrite Hz by done. split_and!; [by exists ops | done |]. intros _. by exists [], op, s.
Qed.

(** ** Witnesses *)
Lemma transfer_end_to_end_witness :
  let f := mkLocalFile true 0x81A4 true [[1; 2]; [3]] true in
  (let '(stdin, served) := Worker.run_transfer_write (H := Wire.message_postcard) 1 0 Session.SendOk (Data <$> lf_chunks f) None in
   let '(r, open, sent) := upload_one (po := Wire.open_postcard) (pm := Wire.message_postcard) (Some f) (good_chan (Worker.s_sent served)) (lit "/r") in
   sent = Data <$> lf_chunks f ∧ stdin = lf_chunks f ∧ open = Some (WriteFile (lit "/r") (Z.land (lf_mode f) 0x1FF)) ∧ r = Ok 0).
Proof.
  refine (proj1 (transfer_end_to_end (po := Wire.open_postcard) (pm := Wire.message_postcard) 1 0
    (mkLocalFile true 0x81A4 true [[1; 2]; [3]] true) (lit "/r") [[9]] (path_of (lit "x")) ∅ _ _ _ _ _ _ _)).
  all: first [reflexivity | repeat constructor].
Defined.

Lemma cp_spec_is_scp_witness :
  parse_cp_spec (lit "a@b:c@d") = scp_rule (lit "a@b:c@d")
  ∧ parse_cp_spec (lit "u@[::1]:/tmp") = Ok (Remote (Some (lit "u")) (lit "::1") (lit "/tmp"))
  ∧ parse_cp_spec (lit "[x") = Err Unterminated.
Proof.
  apply (cp_spec_is_scp (lit "a@b:c@d") (lit "u") (lit "::1") (lit "/tmp") (lit "x")); by_dec.
Defined.

(** A folder in a folder, listed in no order, with a name that is not UTF-8. *)
Definition demo_tree : list (bytes * Tree) :=
  [([98], TDir (Some 0x1ED) (Some [([0xFF], TFile); ([108], TOther); ([100], TDir (Some 0x1C0) (Some []))])); ([97], TFile)].

Lemma walk_is_the_tree_witness :
  let t := TDir (Some 0x1C0) (Some demo_tree) in
  collect_walk t = Ok (mkWalk [(lit "b", 0x1ED); (lit "b/d", 0x1C0)] [lit "a"; lit "b/" ++ [0xFFFD]]) ∧
  ∀ names t', at_path t names t' → names ≠ [] → listable t'.
Proof.
  intros t. assert (collect_walk t = Ok (mkWalk [(lit "b", 0x1ED); (lit "b/d", 0x1C0)] [lit "a"; lit "b/" ++ [0xFFFD]])) as E
    by by vm_compute.
  split; [exact E|]. pose proof (walk_is_the_tree (Some 0x1C0) (Some demo_tree)) as H. cbv zeta in H. fold t in H. rewrite E in H.
  refine (proj1 (H _)). subst t. intros names t' Hat. unfold demo_tree in Hat. clear H E.
  repeat match goal with
  | H : at_path (TDir _ _) _ _ |- _ => inversion H; clear H; subst; [by repeat constructor|]
  | H : at_path TFile _ _ |- _ => inversion H; clear H; subst
  | H : at_path TOther _ _ |- _ => inversion H; clear H; subst
  | H : _ ∈ _ :: _ |- _ => apply elem_of_cons in H as [H|H]; simplify_eq
  | H : _ ∈ [] |- _ => by apply not_elem_of_nil in H
  end; repeat constructor; by_dec.
Defined.

(** Two names that are not UTF-8 are taken for one, which is neither. *)
Example walk_lossy_name :
  collect_walk (TDir (Some 0x1C0) (Some [([0xFF], TFile); ([0xFE], TFile)])) = Ok (mkWalk [] [[REPLACEMENT]; [REPLACEMENT]]).
Proof. reflexivity. Qed.

(** An entry that is gone when it is looked at stops the walk. *)
Example walk_stopped : collect_walk (TDir (Some 0x1C0) (Some [([97], TUnknown)])) = Err FileType.
Proof. reflexivity. Qed.

End Cp.
