(* ===== verification/DevSession.v ===== *)
(** * DevSession: channels of the development server

    The first half of [quish-server/src/session.rs]: [serve] and the channels a
    single process serves itself, without the monitor, over the pumps of
    [Session]; and the blocking loops [read_loop] and [write_loop]. A file, a
    process or a directory is what its calls answer. *)
From S2P Require Import Prelude RustStr Postcard Base64 Proto Net Frames Ipc Auth Session Worker Target ClientAuth ClientPump Cp.

Module DevSession.
Import Session Worker.

(** ** Dispatch *)
Inductive DevPlan :=
| DevShell (term : str) (cols rows : Z)
| DevExec (command : str)
| DevForward (host : str) (port : Z) (allowed : bool)
| DevListen (conn_id : Z) (bind : str) (port : Z) (allowed : bool)
| DevClaim (conn_id conn_ref : Z)
| DevRead (path : str)
| DevWrite (path : str) (mode : Z)
| DevMkdir (path : str) (mode : Z).

(** The connection every parked socket of development mode belongs to. *)
Definition DEV_CONN : Z := 0.

Definition dev_plan (allow_forward allow_remote_forward : bool) (open : ChannelOpen) : DevPlan :=
  match open with
  | Shell term cols rows => DevShell term cols rows
  | Exec command => DevExec command
  | Forward host port => DevForward host port allow_forward
  | RemoteForwardListen bind port => DevListen DEV_CONN bind port allow_remote_forward
  | RemoteForwardData conn_ref => DevClaim DEV_CONN conn_ref
  | ReadFile path => DevRead path
  | WriteFile path mode => DevWrite path mode
  | MkDir path mode => DevMkdir path mode
  end.

(** [serve]: what the opening frame asks for; nothing, when there is none. *)
Definition serve `{Postcard ChannelOpen} (allow_forward allow_remote_forward : bool) (reader : FrameReader) :
    result ChannelError (option DevPlan) * FrameReader :=
  match next_frame reader with
  | (Err e, reader) => (Err (ChannelRead e), reader)
  | (Ok None, reader) => (Ok None, reader)
  | (Ok (Some body), reader) =>
      (match decode body with
       | Ok open => Ok (Some (dev_plan allow_forward allow_remote_forward open))
       | Err _ => Err ChannelDecode
       end, reader)
  end.

(** ** The blocking loops *)

(** [read_loop]: the chunks it passes on, of what the reads return ([None]: an
    error); it ends at the first error or empty read. *)
Fixpoint read_loop (reads : list (option bytes)) : list bytes :=
  match reads with
  | Some ((_ :: _) as b) :: reads => b :: read_loop reads
  | _ => []
  end.

(** [write_loop]: the chunks that reach the writer, of which [writes] succeed
    ([None]: all). *)
Fixpoint write_loop (chunks : list bytes) (writes : option nat) : list bytes :=
  match chunks with
  | [] => []
  | b :: chunks =>
      match writes with
      | Some O => []
      | Some (S n) => b :: write_loop chunks (Some n)
      | None => b :: write_loop chunks None
      end
  end.

(** ** Channels

    What the client is sent, and whether the stream was finished. *)
Record DevServed := mkDev { v_sent : list ChannelMessage; v_finished : bool }.

(** What a path answers to being opened and looked at, then read or written. *)
Record DevFile := mkDevFile {
  df_open : bool;
  df_stat : bool;
  df_regular : bool;
  df_reads : list (option bytes);
  df_writes : option nat;
}.

(** The helper thread returns [Ok] once the file is open and regular. *)
Definition thread_ok (f : DevFile) : bool := df_open f && df_stat f && df_regular f.
Definition thread_code (f : DevFile) : Z := if thread_ok f then 0 else 1.

Section Channels.
Context `{Postcard ChannelMessage}.

(** The last frame of a channel, then its end. *)
Definition conclude (sent : list ChannelMessage) (code : Z) (r : SendRes) : DevServed :=
  match send_msg r (ExitStatus code) with
  | Ok true => mkDev (sent ++ [ExitStatus code]) true
  | Ok false => mkDev sent true
  | Err _ => mkDev sent false
  end.

(** [sends n] is what the [n]-th send meets. *)
Definition transfer (f : DevFile) (sends : nat → SendRes) : DevServed :=
  let chunks := if thread_ok f then read_loop (df_reads f) else [] in
  let '(sent, res) := transfer_loop (imap (λ i b, (b, sends i)) chunks) in
  match res with
  | Err _ => mkDev sent false
  | Ok true => mkDev sent true
  | Ok false => conclude sent (thread_code f) (sends (length chunks))
  end.

(** What the file holds afterwards, if it was opened, and what was served. *)
Definition transfer_write (f : DevFile) (frames : list ChannelMessage) (r : SendRes) : option (list bytes) * DevServed :=
  (if df_open f then Some (if thread_ok f then write_loop (data_of frames) (df_writes f) else []) else None,
   conclude [] (thread_code f) r).

Inductive Created := Made | Exists (is_dir : bool) | NotMade.

Definition mkdir (c : Created) (r : SendRes) : DevServed :=
  conclude [] (match c with Made | Exists true => 0 | _ => 1 end) r.

(** The terminal's name in the shell's environment. *)
Definition shell_term (term : str) : str := if bool_decide (term = []) then lit "xterm" else term.

(** After the pump: the code if the process can be awaited. *)
Definition shell (spawned : bool) (code : option Z) (r : SendRes) (o : Outcome ShellPump) : option DevServed :=
  if negb spawned then Some (mkDev [] false)
  else match o with
  | Finished Drained st => Some (conclude (h_sent st) (default (-1) code) r)
  | Finished ClientGone st => Some (mkDev (h_sent st) true)
  | FinishedErr st => Some (mkDev (h_sent st) false)
  | Stuck | NoFuel => None
  end.

Definition exec_argv (shell : option str) (command : str) : list str :=
  [default (lit "/bin/sh") shell; lit "-c"; command].

Definition exec (spawned : bool) (code : option Z) (r : SendRes) (o : Outcome ExecPump) : option DevServed :=
  if negb spawned then Some (mkDev [] false)
  else match o with
  | Finished Drained st => Some (conclude (x_sent st) (default (-1) code) r)
  | Finished ClientGone st => Some (mkDev (x_sent st) true)
  | FinishedErr st => Some (mkDev (x_sent st) false)
  | Stuck | NoFuel => None
  end.

(** The signals the child is sent, by number. *)
Definition signal_number (s : Signal) : Z := match s with Int => 2 | Quit => 3 | Term => 15 end.
Definition exec_kills (child_id : option Z) (sigs : list Signal) : list (Z * Z) :=
  match child_id with Some pid => (λ s, (pid, signal_number s)) <$> sigs | None => [] end.

(** ** Lemmas *)
Lemma transfer_loop_ok (chunks : list bytes) :
  Forall (λ b, is_ok (encode (Data b)) = true) chunks →
  transfer_loop (imap (λ _ b, (b, SendOk)) chunks) = (Data <$> chunks, Ok false).
Proof using Type.
  induction 1 as [|b chunks Hb _ IH]; [done|]. rewrite imap_cons. cbn [transfer_loop]. unfold send_msg.
  change (imap _ chunks) with (imap (λ (_ : nat) b, (b, SendOk)) chunks).
  destruct (encode (Data b)); [|done]. by rewrite IH.
Qed.

Lemma conclude_sent sent code :
  is_ok (encode (ExitStatus code)) = true → conclude sent code SendOk = mkDev (sent ++ [ExitStatus code]) true.
Proof using Type. unfold conclude, send_msg. by destruct (encode _). Qed.

Lemma read_loop_good good rest :
  Forall (λ b : bytes, b ≠ []) good → head rest = None ∨ head rest = Some None ∨ head rest = Some (Some []) →
  read_loop ((Some <$> good) ++ rest) = good.
Proof using Type.
  intros Hg Hr. induction Hg as [|b good Hb _ IH].
  - by destruct rest as [|[[]|] rest]; destruct Hr as [|[|]].
  - rewrite fmap_cons. cbn [app read_loop]. destruct b; [done|]. by rewrite IH.
Qed.

End Channels.

Section Theorems.
Context {po : Postcard ChannelOpen} {pm : Postcard ChannelMessage}.

(** What the client sees of a session served through the monitor. *)
Definition client_view (s : Served) : DevServed := mkDev (s_sent s) (s_finished s).

Lemma client_view_end sid code e r sent rpcs :
  client_view (end_session sid code e r sent rpcs) =
    match e with Drained => conclude sent code r | ClientGone => mkDev sent true end.
Proof using Type.
  unfold end_session, conclude, client_view. destruct e; [|done]. by destruct (send_msg r _) as [[]|].
Qed.

(** The development server's channels look to the client like the worker's.
    For every run of a pump, a command or a shell that could be started and whose
    status is known ends with the same frames and the same end of the stream; so
    do the download of a file that can be opened and read to its end, whatever
    the sends meet, and an upload with the same status. *)
Theorem dev_like_worker (sid code : Z) (r : SendRes) :
  (∀ o, exec true (Some code) r o = client_view <$> run_exec sid code r o) ∧
  (∀ o, shell true (Some code) r o = client_view <$> run_shell sid code r o) ∧
  (∀ f sends, thread_ok f = true →
     let chunks := read_loop (df_reads f) in
     transfer f sends = client_view (run_transfer sid 0 (sends (length chunks)) (imap (λ i b, (b, sends i)) chunks))) ∧
  (∀ f frames accepted,
     (transfer_write f frames r).2 = client_view (run_transfer_write sid (thread_code f) r frames accepted).2).
Proof using Type.
  split_and!.
  - intros [[] st|st| |]; unfold exec, run_exec; cbn [negb fmap option_fmap option_map default];
      rewrite ?client_view_end; done.
  - intros [[] st|st| |]; unfold shell, run_shell; cbn [negb fmap option_fmap option_map default];
      rewrite ?client_view_end; done.
  - intros f sends Hf chunks. unfold transfer, run_transfer, thread_code. rewrite Hf. fold chunks.
    destruct (transfer_loop _) as [sent [[]|[]]]; rewrite ?client_view_end; try done.
  - intros f frames accepted. unfold transfer_write, run_transfer_write, conclude, client_view. cbn [snd]. by destruct (send_msg r _) as [[]|].
Qed.

(** The development server's file statuses do not cover reading and writing.
    A download whose file fails to be read after some chunks is ended like a
    complete one, with status 0, so the client renames its truncated copy into
    place and reports success; an upload's status is 0 as soon as the file could
    be opened and is regular, whatever happens to the writes, of which the file
    keeps those that succeeded; and the status is 1 exactly when the file could
    not be opened, looked at, or is not regular. *)
Theorem dev_status_is_opening (f : DevFile) (good : list bytes) (rest : list (option bytes)) (frames : list ChannelMessage)
    (remote : str) (final_path : Path) (fs : gmap Path bytes) :
  df_reads f = (Some <$> good) ++ None :: rest → Forall (λ b : bytes, b ≠ []) good →
  Forall (λ b, is_ok (encode (Data b)) = true) good → is_ok (encode (ReadFile remote)) = true →
  is_ok (encode (ExitStatus 0)) = true → is_ok (encode (ExitStatus 1)) = true →
  let code := if df_open f && df_stat f && df_regular f then 0 else 1 in
  let down := transfer f (λ _, SendOk) in
  let '(file, up) := transfer_write f frames SendOk in
  down = mkDev ((if bool_decide (code = 0) then Data <$> good else []) ++ [ExitStatus code]) true ∧
  up = mkDev [ExitStatus code] true ∧
  (code = 0 → file = Some (write_loop (data_of frames) (df_writes f))) ∧
  (code = 0 →
   let '(r, fs') := Cp.download_one (Cp.good_chan (v_sent down)) (Cp.mkDownloadIo true None true) remote final_path fs in
   r = Ok 0 ∧ fs' !! final_path = Some (mjoin good)).
Proof using Type.
  intros Hreads Hne Hgood Hopen He0 He1 code down. unfold transfer_write. fold (thread_ok f) in code.
  assert (thread_code f = code) as Hcode by done.
  assert (down = mkDev ((if bool_decide (code = 0) then Data <$> good else []) ++ [ExitStatus code]) true) as Hdown.
  { unfold down, transfer. rewrite Hcode, Hreads, read_loop_good by (done || auto). subst code.
    destruct (thread_ok f); [rewrite transfer_loop_ok by done|]; cbn; by apply conclude_sent. }
  split_and!; [done| | |].
  - rewrite Hcode. apply conclude_sent. subst code. by destruct (thread_ok f).
  - subst code. destruct (thread_ok f) eqn:Eo; [intros _|done]. unfold thread_ok in Eo. by destruct (df_open f).
  - intros H0. rewrite Hdown, H0. rewrite bool_decide_true by done. cbn [v_sent]. unfold Cp.download_one, Cp.open_with.
    cbn [Cp.good_chan Cp.ch_open Cp.ch_sends Cp.ch_msgs Cp.ch_clean Cp.d_create Cp.d_writes Cp.d_rename negb].
    destruct (encode (ReadFile remote)); [|done]. cbn [Cp.take_send ok_or]. rewrite Cp.download_loop_data.
    cbn [Cp.download_loop app]. by rewrite lookup_insert_eq.
Qed.

End Theorems.

Lemma dev_status_is_opening_witness :
  let f := mkDevFile true true true [Some [1; 2]; None] (Some 1%nat) in
  let down := transfer (H := Wire.message_postcard) f (λ _, SendOk) in
  let '(file, up) := transfer_write (H := Wire.message_postcard) f [Data [7]; Data [8]] SendOk in
  down = mkDev [Data [1; 2]; ExitStatus 0] true ∧ up = mkDev [ExitStatus 0] true ∧
  (0 = 0 → file = Some [[7]]) ∧
  (0 = 0 →
   let '(r, fs') := Cp.download_one (po := Wire.open_postcard) (Cp.good_chan (v_sent down)) (Cp.mkDownloadIo true None true)
                      (lit "/f") (path_of (lit "x")) ∅ in
   r = Ok 0 ∧ fs' !! path_of (lit "x") = Some [1; 2]).
Proof.
  apply (dev_status_is_opening (po := Wire.open_postcard) (pm := Wire.message_postcard)
    (mkDevFile true true true [Some [1; 2]; None] (Some 1%nat)) [[1; 2]] [] [Data [7]; Data [8]] (lit "/f")
    (path_of (lit "x")) ∅); first [reflexivity | repeat constructor; done].
Defined.

End DevSession.
