(* ===== verification/ClientRun.v ===== *)
(** * ClientRun: the client's other commands, and the life of a run

    [quish-client/src/main.rs]: [establish], the supervision of forwards
    ([run_forwarding], [accept_loop]), [run_keygen] and [run_totp]. The resolver,
    QUIC, TLS and the key crate answer as parameters. *)
From S2P Require Import Prelude RustStr Postcard Base64 Crypto Proto Net Ipc Auth Totp Pubkey Oidc Challenge Privdrop Monitor Login Session Worker Transport KnownHosts Target ClientAuth.
Import Auth.

(** ** Connecting *)
Module Establish.
Import KnownHosts Target ClientAuth.

Inductive EstablishError :=
| ResolveFailed | NoAddress | EndpointFailed | StartFailed | Handshake (e : TlsError) | ConnectFailed
| ExportFailed | NoCredential (e : ClientError) | H3Failed.

(** What the network and the crates answer: the addresses of a name, the client
    endpoint, the start of a connection, whether the Web PKI takes the server's
    certificate, the rest of the handshake, the exported binding, HTTP/3. *)
Record Net := mkNet {
  n_lookup : str → option (list SocketAddr);
  n_endpoint : bool;
  n_start : bool;
  n_webpki : bool;
  n_handshake : bool;
  n_binding : option bytes;
  n_h3 : bool;
}.

Section Establish.
Context {b64 : Base64} {pt : Postcard Token}.
Variables (ed_public : bytes → bytes) (ed_sign : bytes → bytes → bytes).
Variable private_from_openssh : bytes → option (option bytes).
Variable sha256 : bytes → bytes.

(** [tty] is what will be typed at the host-key question, [cert] the certificate
    the server presents. The result is the authorization; the disk and what was
    typed are left as they then are. *)
Definition establish (net : Net) (io : Io) (tty : option bytes) (cert : bytes) (w : World)
    (target : Target) (identity : option str) (d : Disk) (e : Env) :
    result EstablishError str * Disk * Env :=
  let host_key := socket_target (t_host target) (t_port target) in
  match n_lookup net host_key with
  | None => (Err ResolveFailed, d, e)
  | Some [] => (Err NoAddress, d, e)
  | Some (_ :: _) =>
      if negb (n_endpoint net) then (Err EndpointFailed, d, e)
      else if negb (n_start net) then (Err StartFailed, d, e)
      else match verify_server_cert sha256 io (n_webpki net) tty d host_key cert with
      | (Err t, d) => (Err (Handshake t), d, e)
      | (Ok _, d) =>
          if negb (n_handshake net) then (Err ConnectFailed, d, e)
          else match n_binding net with
          | None => (Err ExportFailed, d, e)
          | Some binding =>
              match build_authorization ed_public ed_sign private_from_openssh w e (t_user target) identity binding with
              | (Err c, e) => (Err (NoCredential c), d, e)
              | (Ok authorization, e) =>
                  (if negb (n_h3 net) then Err H3Failed else Ok authorization, d, e)
              end
          end
      end
  end.

(** No credential leaves, or is even asked for, before the server is known.
    If connecting yields an authorization, or a password was read, then the
    certificate had been accepted for [socket_target] of the target: by the Web
    PKI, or because its fingerprint is the one pinned there, or, with no pin,
    because the user accepted it and it was pinned. *)
Theorem establish_verifies_first (net : Net) (io : Io) (tty : option bytes) (cert : bytes) (w : World)
    (target : Target) (identity : option str) (d d' : Disk) (e e' : Env) (r : result EstablishError str) :
  establish net io tty cert w target identity d e = (r, d', e') → is_ok r = true ∨ e' ≠ e →
  let host := socket_target (t_host target) (t_port target) in
  let fp := cert_fingerprint sha256 cert in
  n_webpki net = true ∨ lookup io d host = Some fp ∨
  (lookup io d host = None ∧ prompt_accept tty host fp = true ∧ pin io d host fp = (Ok tt, d')).
Proof using Type.
  intros He Hr host fp. unfold establish in He. fold host in He.
  assert (∀ x y, (Err x, y, e) = (r, d', e') → False) as Hno by (intros x y [= <- <- <-]; by destruct Hr).
  destruct (n_lookup net host) as [[|a addrs]|]; [by apply Hno in He| |by apply Hno in He].
  destruct (n_endpoint net), (n_start net); cbn [negb] in He; try by apply Hno in He.
  unfold verify_server_cert in He. fold fp in He. destruct (n_webpki net); [by left|]. right.
  destruct (lookup io d host) as [pinned|].
  - left. case_bool_decide as Hp; [by subst|]. by apply Hno in He.
  - right. destruct (prompt_accept tty host fp); cbn [negb] in He; [|by apply Hno in He].
    destruct (pin io d host fp) as [[[]|] d1]; [|by apply Hno in He].
    split_and!; [done|done|]. repeat case_match; by simplify_eq/=.
Qed.

End Establish.
End Establish.

(** ** Supervising forwards *)
Module Forwarding.
Import Target ClientAuth.

(** How a task stands. *)
Inductive TaskEnd := Running | EndedOk | EndedErr | Panicked.

(** A [remote_forward_listen] task: before its request, or after. *)
Inductive Control := Starting | Opened (t : TaskEnd).

(** The task of a connection: [forward_one], or [remote_forward_data]. *)
Inductive Connection :=
| FromLocal (spec : ForwardSpec)
| FromRemote (spec : RemoteForwardSpec) (conn_ref : Z).

Inductive ForwardEnd := Finished | BindFailed (f : ForwardSpec) | TaskFailed | TaskPanicked.

(** What happens next, in whatever order the runtime has it: [run_forwarding] goes
    on with its loops; a listener accepts a connection or fails to; a control task
    sends its request, then its opening frame if that goes out; a control channel
    delivers a frame, ends ([None]) or breaks; a connection's task runs, the local
    service answering its dial or not. *)
Inductive Event :=
| Main
| Accept (i : nat)
| AcceptFails (i : nat)
| Control_opens (j : nat) (opening_sent : bool)
| Control_frame (j : nat) (body : option bytes)
| Control_breaks (j : nat)
| Connection_runs (k : nat) (dialled : bool).

(** The joins, in the order the tasks were started; [None]: still waiting. *)
Fixpoint join_tasks (ts : list TaskEnd) : option ForwardEnd :=
  match ts with
  | [] => Some Finished
  | Running :: _ => None
  | EndedOk :: ts => join_tasks ts
  | EndedErr :: _ => Some TaskFailed
  | Panicked :: _ => Some TaskPanicked
  end.

Definition control_end (c : Control) : TaskEnd := match c with Starting => Running | Opened t => t end.

Section Forwarding.
Context {b64 : Base64} {pc : Postcard Challenge} {pa : Postcard ChallengeAnswer}.
Context {po : Postcard ChannelOpen} {psig : Postcard AcceptedSignal}.
Variables uri_ok header_ok : str → bool.
Variable show_ip : IpAddr → str.
Variable S : Type.
Variable serve : ClientReq → S → option Transport.Resp * S.
Variables (target : Target) (authorization : str).
(** Which of the local addresses can be bound. *)
Variable binds : ForwardSpec → bool.

(** The specs [run_forwarding] has still to start, the tasks it started, the tasks
    of connections that have not run and what became of those that have, the server
    and the requests sent to it. *)
Record Forwards := mkForwards {
  to_bind : list ForwardSpec;
  to_open : list RemoteForwardSpec;
  bind_failed : option ForwardSpec;
  accepting : list (ForwardSpec * TaskEnd);
  listening : list (RemoteForwardSpec * Control);
  waiting : list Connection;
  ended : list ForwardTask;
  server : S;
  sent : list ClientReq;
}.

Definition forwards_start (fs : list ForwardSpec) (rs : list RemoteForwardSpec) (s : S) : Forwards :=
  mkForwards fs rs None [] [] [] [] s [].

(** The request [open_plain] sends, if one can be built. *)
Definition plain_request : list ClientReq := option_list (build_connect_request uri_ok header_ok target authorization).

(** The next turn of the two loops. *)
Definition main_step (st : Forwards) : Forwards :=
  match to_bind st, to_open st with
  | f :: fs, _ =>
      if binds f then
        mkForwards fs (to_open st) None (accepting st ++ [(f, Running)]) (listening st) (waiting st) (ended st) (server st) (sent st)
      else mkForwards fs (to_open st) (Some f) (accepting st) (listening st) (waiting st) (ended st) (server st) (sent st)
  | [], r :: rs => mkForwards [] rs None (accepting st) (listening st ++ [(r, Starting)]) (waiting st) (ended st) (server st) (sent st)
  | [], [] => st
  end.

(** [accept_loop], one accept: a task for the connection, or its end. *)
Definition accept_loop (i : nat) (accepted : bool) (st : Forwards) : Forwards :=
  match accepting st !! i with
  | Some (f, Running) =>
      if accepted then
        mkForwards (to_bind st) (to_open st) (bind_failed st) (accepting st) (listening st) (waiting st ++ [FromLocal f])
          (ended st) (server st) (sent st)
      else mkForwards (to_bind st) (to_open st) (bind_failed st) (<[i := (f, EndedErr)]> (accepting st)) (listening st)
             (waiting st) (ended st) (server st) (sent st)
  | _ => st
  end.

Definition set_control (j : nat) (spec : RemoteForwardSpec) (t : TaskEnd) (st : Forwards) : Forwards :=
  mkForwards (to_bind st) (to_open st) (bind_failed st) (accepting st) (<[j := (spec, Opened t)]> (listening st)) (waiting st)
    (ended st) (server st) (sent st).

(** The request of a control task; a request that cannot be built panics. *)
Definition control_opens (j : nat) (opening_sent : bool) (st : Forwards) : Forwards :=
  match listening st !! j with
  | Some (spec, Starting) =>
      let '(_, _, r, s) := remote_forward_listen uri_ok header_ok S serve show_ip target authorization spec [] (server st) in
      let t := match r with
               | Ok _ => if opening_sent then Running else EndedErr
               | Err InvalidRequest => Panicked
               | Err _ => EndedErr
               end in
      set_control j spec t
        (mkForwards (to_bind st) (to_open st) (bind_failed st) (accepting st) (listening st) (waiting st) (ended st) s
           (sent st ++ plain_request))
  | _ => st
  end.

(** A turn of its loop over the accept signals. *)
Definition control_reads (j : nat) (body : option bytes) (st : Forwards) : Forwards :=
  match listening st !! j with
  | Some (spec, Opened Running) =>
      match body with
      | None => set_control j spec EndedOk st
      | Some b =>
          let '(refs, r) := accept_signals [b] in
          let st := mkForwards (to_bind st) (to_open st) (bind_failed st) (accepting st) (listening st)
                      (waiting st ++ (FromRemote spec <$> refs)) (ended st) (server st) (sent st) in
          if is_ok r then st else set_control j spec EndedErr st
      end
  | _ => st
  end.

Definition control_breaks (j : nat) (st : Forwards) : Forwards :=
  match listening st !! j with
  | Some (spec, Opened Running) => set_control j spec EndedErr st
  | _ => st
  end.

(** A connection's task, whose failure is only logged. *)
Definition connection_runs (k : nat) (dialled : bool) (st : Forwards) : Forwards :=
  match waiting st !! k with
  | None => st
  | Some c =>
      let '(t, s) := match c with
                     | FromLocal f => forward_one uri_ok header_ok S serve target authorization (f_rhost f) (f_rport f) (server st)
                     | FromRemote _ conn_ref =>
                         remote_forward_data uri_ok header_ok S serve dialled target authorization conn_ref (server st)
                     end in
      mkForwards (to_bind st) (to_open st) (bind_failed st) (accepting st) (listening st) (delete k (waiting st)) (ended st ++ [t]) s
        (sent st ++ match t with Dropped => [] | _ => plain_request end)
  end.

Definition step (st : Forwards) (e : Event) : Forwards :=
  match e with
  | Main => main_step st
  | Accept i => accept_loop i true st
  | AcceptFails i => accept_loop i false st
  | Control_opens j opening_sent => control_opens j opening_sent st
  | Control_frame j body => control_reads j body st
  | Control_breaks j => control_breaks j st
  | Connection_runs k dialled => connection_runs k dialled st
  end.

(** What [run_forwarding] returns, once it does. *)
Definition outcome (st : Forwards) : option ForwardEnd :=
  match bind_failed st, to_bind st, to_open st with
  | Some f, _, _ => Some (BindFailed f)
  | None, [], [] => join_tasks ((snd <$> accepting st) ++ (control_end ∘ snd <$> listening st))
  | _, _, _ => None
  end.

(** A run over the events: an error ends the process; after [Finished], tasks of
    connections go on until the driver ends. *)
Fixpoint run_forwarding (evs : list Event) (st : Forwards) : Forwards :=
  match evs with
  | [] => st
  | e :: evs =>
      match outcome st with
      | None | Some Finished => run_forwarding evs (step st e)
      | Some _ => st
      end
  end.

(** ** What a run guarantees *)

Definition count {A} (p : A → bool) (l : list A) : nat := length (List.filter p l).

Lemma count_app {A} (p : A → bool) l k : count p (l ++ k) = (count p l + count p k)%nat.
Proof using Type. unfold count. by rewrite List.filter_app, length_app. Qed.

Lemma count_update {A} (p : A → bool) j x y l :
  l !! j = Some x → (count p (<[j := y]> l) + (if p x then 1 else 0) = count p l + (if p y then 1 else 0))%nat.
Proof using Type.
  unfold count. revert j. induction l as [|z l IH]; intros [|j]; try done.
  - intros [= ->]. cbn. destruct (p x), (p y); simpl; lia.
  - intros H. specialize (IH j H). change (<[Datatypes.S j := y]> (z :: l)) with (z :: <[j := y]> l).
    cbn [List.filter]. destruct (p z); cbn [length]; lia.
Qed.

(** The connections the events bring: accepted here, or signalled. *)
Definition brings_connection (e : Event) : bool :=
  match e with Accept _ | Control_frame _ (Some _) => true | _ => false end.

Definition starting (x : RemoteForwardSpec * Control) : bool := match x.2 with Starting => true | _ => false end.
Definition open_or_ended (x : RemoteForwardSpec * Control) : bool :=
  match x.2 with Opened Running | Opened EndedOk => true | _ => false end.

(** With [n] tasks started or to start: each sends at most one request, the plain
    one; a control channel that is open, or was closed in order, was accepted. *)
Record forwards_ok (fs : list ForwardSpec) (rs : list RemoteForwardSpec) (n : nat) (st : Forwards) : Prop := {
  ok_count : (length (sent st) + length (waiting st) + count starting (listening st) + length (to_open st) ≤ n)%nat;
  ok_sent : Forall (λ r, r ∈ plain_request) (sent st);
  ok_accepting : Forall (λ a, a.2 ≠ EndedOk) (accepting st);
  ok_forwards : bind_failed st = None → (accepting st).*1 ++ to_bind st = fs;
  ok_remotes : (listening st).*1 ++ to_open st = rs;
  ok_opened : ∃ reqs, reqs `sublist_of` sent st ∧ Forall (accepted S serve) reqs ∧
    (count open_or_ended (listening st) ≤ length reqs)%nat;
}.

Lemma forwards_ok_mono fs rs n m st : (n ≤ m)%nat → forwards_ok fs rs n st → forwards_ok fs rs m st.
Proof using Type. intros Hn []. split; auto. lia. Qed.

Lemma plain_request_one : (length plain_request ≤ 1)%nat.
Proof using Type. unfold plain_request. destruct (build_connect_request _ _ _ _); simpl; lia. Qed.

(** A control task that moves on, its request sent or not. *)
Lemma set_control_ok fs rs n st j spec c t s extra :
  forwards_ok fs rs n st → listening st !! j = Some (spec, c) → Forall (λ r, r ∈ plain_request) extra →
  (length extra ≤ if starting (spec, c) then 1 else 0)%nat →
  (open_or_ended (spec, Opened t) = true → open_or_ended (spec, c) = true ∨ ∃ r, extra = [r] ∧ accepted S serve r) →
  forwards_ok fs rs n (set_control j spec t
    (mkForwards (to_bind st) (to_open st) (bind_failed st) (accepting st) (listening st) (waiting st) (ended st) s (sent st ++ extra))).
Proof using Type.
  intros [H1 H2 H3 H4 H5 (reqs & Hs & Ha & Hn)] Hj Hextra Hlen Hopen.
  pose proof (count_update starting j _ (spec, Opened t) _ Hj) as C1.
  pose proof (count_update open_or_ended j _ (spec, Opened t) _ Hj) as C2. change (starting (spec, Opened t)) with false in C1.
  split; cbn [set_control sent waiting listening to_open to_bind bind_failed accepting]; try done.
  - rewrite length_app. destruct (starting (spec, c)); simpl in *; lia.
  - by apply Forall_app.
  - rewrite list_fmap_insert, list_insert_id; [done|]. by rewrite list_lookup_fmap, Hj.
  - destruct (open_or_ended (spec, Opened t)).
    + destruct Hopen as [Ho|(r & -> & Hr)]; [done| |].
      * exists reqs. split_and!; [by apply sublist_inserts_r|done|]. rewrite Ho in C2. lia.
      * exists (reqs ++ [r]). split_and!; [by apply sublist_app|by apply Forall_app_2; [|constructor]|].
        rewrite length_app. simpl. destruct (open_or_ended (spec, c)); lia.
    + exists reqs. split_and!; [by apply sublist_inserts_r|done|]. destruct (open_or_ended (spec, c)); lia.
Qed.

(** Tasks for new connections. *)
Lemma more_waiting_ok fs rs n st l :
  forwards_ok fs rs n st →
  forwards_ok fs rs (length l + n) (mkForwards (to_bind st) (to_open st) (bind_failed st) (accepting st) (listening st)
    (waiting st ++ l) (ended st) (server st) (sent st)).
Proof using Type. intros []. split; simpl; try done. rewrite length_app. lia. Qed.

Lemma open_plain_accepted s s' :
  open_plain uri_ok header_ok S serve target authorization s = (Ok tt, s') → ∃ r, plain_request = [r] ∧ accepted S serve r.
Proof using Type.
  unfold open_plain, plain_request. destruct (build_connect_request _ _ _ _) as [r|]; [|done].
  destruct (serve r s) as [[resp|] s1] eqn:Es; [|done]. destruct (Z.eqb_spec (Transport.status resp) 200); [|done].
  intros _. exists r. split; [done|]. by exists s, resp, s1.
Qed.

Lemma main_step_ok fs rs n st : bind_failed st = None → forwards_ok fs rs n st → forwards_ok fs rs n (main_step st).
Proof using Type.
  intros Hb [H1 H2 H3 H4 H5 (reqs & Hs & Ha & Hn)]. specialize (H4 Hb). unfold main_step.
  destruct (to_bind st) as [|f tb] eqn:Eb; [destruct (to_open st) as [|r to] eqn:Eo|destruct (binds f)].
  - split; rewrite ?Eb, ?Eo; eauto.
  - split; simpl; eauto.
    + rewrite count_app. unfold count at 2. simpl in *. lia.
    + by rewrite fmap_app, <- app_assoc.
    + exists reqs. split_and!; [done..|]. rewrite count_app. unfold count at 2. simpl. lia.
  - split; simpl; eauto.
    + apply Forall_app. split; [done|]. by constructor.
    + intros _. by rewrite fmap_app, <- app_assoc.
  - split; simpl; try done. eauto.
Qed.

Lemma accept_loop_ok fs rs n st i (b : bool) :
  forwards_ok fs rs n st → forwards_ok fs rs (if b then Datatypes.S n else n) (accept_loop i b st).
Proof using Type.
  intros H. unfold accept_loop. destruct (accepting st !! i) as [[f []]|] eqn:Ei;
    try (destruct b; [eapply forwards_ok_mono; [|exact H]; lia|exact H]).
  destruct b; [by apply (more_waiting_ok fs rs n st [FromLocal f])|].
  destruct H as [H1 H2 H3 H4 H5 H6]. split; simpl; try done.
  - by apply Forall_insert.
  - intros Hb. rewrite list_fmap_insert, list_insert_id; [by apply H4|]. by rewrite list_lookup_fmap, Ei.
Qed.

Lemma control_opens_ok fs rs n st j b : forwards_ok fs rs n st → forwards_ok fs rs n (control_opens j b st).
Proof using Type.
  intros H. unfold control_opens. destruct (listening st !! j) as [[spec []]|] eqn:Ej; [|done..].
  unfold remote_forward_listen. destruct (open_plain _ _ _ _ _ _ (server st)) as [[[]|e] s'] eqn:Eo.
  - destruct (open_plain_accepted _ _ Eo) as (r & Er & Hr).
    destruct (opening_frame _); cbn [accept_signals]; eapply set_control_ok; try done; rewrite ?Er;
      try (by repeat constructor); intros _; right; by exists r.
  - eapply set_control_ok; try done; [by apply Forall_forall|apply plain_request_one|]. by destruct e.
Qed.

Lemma set_control_ended fs rs n st j spec t :
  forwards_ok fs rs n st → listening st !! j = Some (spec, Opened Running) → forwards_ok fs rs n (set_control j spec t st).
Proof using Type.
  intros H Hj. pose proof (set_control_ok fs rs n st j spec (Opened Running) t (server st) [] H Hj) as Hs.
  rewrite app_nil_r in Hs. apply Hs; [constructor|simpl; lia|by left].
Qed.

Lemma control_reads_ok fs rs n st j (body : option bytes) :
  forwards_ok fs rs n st → forwards_ok fs rs (if body then Datatypes.S n else n) (control_reads j body st).
Proof using Type.
  intros H. assert (forwards_ok fs rs (if body then Datatypes.S n else n) st) as Hm
    by (destruct body; [eapply forwards_ok_mono; [|exact H]; lia|exact H]).
  unfold control_reads. destruct (listening st !! j) as [[spec [|[]]]|] eqn:Ej; try done.
  destruct body as [b|]; [|by apply set_control_ended]. cbn [accept_signals].
  destruct (decode b) as [sig|e]; cbn [is_ok fmap list_fmap].
  - by apply (more_waiting_ok fs rs n st [FromRemote spec (as_conn_ref sig)]).
  - apply set_control_ended; [|done]. apply (more_waiting_ok fs rs n st []) in H. eapply forwards_ok_mono; [|exact H]. simpl. lia.
Qed.

Lemma connection_runs_ok fs rs n st k b : forwards_ok fs rs n st → forwards_ok fs rs n (connection_runs k b st).
Proof using Type.
  intros [H1 H2 H3 H4 H5 (reqs & Hs & Ha & Hn)]. unfold connection_runs. destruct (waiting st !! k) as [c|] eqn:Ek; [|split; eauto].
  destruct (match c with FromLocal _ => _ | _ => _ end) as [t s'].
  assert (length (match t with Dropped => [] | _ => plain_request end) ≤ 1)%nat by (destruct t; try apply plain_request_one; simpl; lia).
  pose proof (lookup_lt_Some _ _ _ Ek). split; simpl; try done.
  - rewrite length_app, length_delete by done. lia.
  - apply Forall_app. split; [done|]. destruct t; [|constructor|]; by apply Forall_forall.
  - exists reqs. split_and!; [by apply sublist_inserts_r|done..].
Qed.

Lemma step_ok fs rs n st e :
  bind_failed st = None → forwards_ok fs rs n st → forwards_ok fs rs (if brings_connection e then Datatypes.S n else n) (step st e).
Proof using Type.
  intros Hb H. destruct e as [| | | |j []| |]; simpl.
  - by apply main_step_ok.
  - by apply (accept_loop_ok _ _ _ _ _ true).
  - by apply (accept_loop_ok _ _ _ _ _ false).
  - by apply control_opens_ok.
  - by apply (control_reads_ok _ _ _ _ _ (Some _)).
  - by apply (control_reads_ok _ _ _ _ _ None).
  - unfold control_breaks. destruct (listening st !! j) as [[spec [|[]]]|] eqn:Ej; try done. by apply set_control_ended.
  - by apply connection_runs_ok.
Qed.

Lemma run_forwarding_ok fs rs evs n st :
  forwards_ok fs rs n st → forwards_ok fs rs (n + count brings_connection evs) (run_forwarding evs st).
Proof using Type.
  revert n st. induction evs as [|e evs IH]; intros n st H; cbn [run_forwarding]; [eapply forwards_ok_mono; [|exact H]; lia|].
  assert (forwards_ok fs rs (n + count brings_connection (e :: evs)) st) as Hm by (eapply forwards_ok_mono; [|exact H]; lia).
  assert (bind_failed st = None → forwards_ok fs rs (n + count brings_connection (e :: evs)) (run_forwarding evs (step st e))) as Hn.
  { intros Hb. apply (step_ok fs rs n st e Hb), IH in H. eapply forwards_ok_mono; [|exact H].
    unfold count. cbn. destruct (brings_connection e); simpl; lia. }
  destruct (outcome st) as [[]|] eqn:Eo; try done; apply Hn; unfold outcome in Eo; by destruct (bind_failed st).
Qed.

Lemma forwards_start_ok fs rs s : forwards_ok fs rs (length rs) (forwards_start fs rs s).
Proof using Type. split; simpl; try done. by exists []. Qed.

Lemma join_tasks_finished ts : join_tasks ts = Some Finished → Forall (λ t, t = EndedOk) ts.
Proof using Type. induction ts as [|[] ts IH]; simpl; [constructor|done| |done|done]. intros H. constructor; auto. Qed.

(** A run that ends well forwarded nothing from here, and opened every channel it
    was asked for. *)
Lemma outcome_finished fs rs n st :
  forwards_ok fs rs n st → outcome st = Some Finished →
  fs = [] ∧ Forall (λ l, l.2 = Opened EndedOk) (listening st) ∧ (listening st).*1 = rs ∧
  ∃ reqs, reqs `sublist_of` sent st ∧ Forall (accepted S serve) reqs ∧ (length rs ≤ length reqs)%nat.
Proof using Type.
  intros [H1 H2 H3 H4 H5 (reqs & Hs & Ha & Hn)]. unfold outcome.
  destruct (bind_failed st); [done|]. destruct (to_bind st); [|done]. destruct (to_open st); [|done].
  rewrite app_nil_r in *. intros [Hf Hc]%join_tasks_finished%Forall_app. rewrite Forall_fmap in Hf. rewrite Forall_fmap in Hc.
  assert (accepting st = []) as Hnil.
  { destruct (accepting st); [done|]. by apply Forall_cons in Hf as [? _], H3 as [? _]. }
  specialize (H4 eq_refl). rewrite Hnil in H4. simpl in H4. subst.
  assert (Forall (λ l, l.2 = Opened EndedOk) (listening st)) as Hall.
  { eapply Forall_impl; [exact Hc|]. intros [spec [|t]]; simpl; [done|]. by intros ->. }
  split_and!; [done..|]. exists reqs. split_and!; [done..|]. etrans; [|exact Hn]. rewrite length_fmap. unfold count.
  clear -Hall. induction Hall as [|[spec c] l Hx _ IH]; simpl in *; [lia|]. subst c. cbn. lia.
Qed.

(** A failed forward goes unnoticed while one before it runs. With any local
    forward first whose listener keeps accepting, the run never ends, whatever
    happens to the others once all are started: a remote forward the server refused
    is not reported. *)
Theorem forward_failure_unnoticed (f : ForwardSpec) (st : Forwards) (evs : list Event) :
  bind_failed st = None → to_bind st = [] → head (accepting st) = Some (f, Running) → AcceptFails 0 ∉ evs →
  outcome (run_forwarding evs st) = None.
Proof using Type.
  revert st. induction evs as [|e evs IH]; intros st Hb Ht Hf Hn.
  all: assert (outcome st = None) as Ho
    by (unfold outcome; rewrite Hb, Ht; destruct (to_open st), (accepting st); simplify_eq/=; done).
  - done.
  - cbn [run_forwarding]. rewrite Ho. apply not_elem_of_cons in Hn as [Hne Hn].
    assert (bind_failed (step st e) = None ∧ to_bind (step st e) = [] ∧ head (accepting (step st e)) = Some (f, Running)) as (?&?&?);
      [|by apply IH].
    destruct e as [|i|i|j b|j body|j|k b]; simpl.
    all: unfold main_step, accept_loop, control_opens, control_reads, control_breaks, connection_runs, set_control;
      rewrite ?Ht; repeat case_match; simplify_eq/=; try done.
    split_and!; try done. destruct i as [|i]; [done|]. by destruct (accepting st) as [|[]].
Qed.

End Forwarding.
End Forwarding.

(** ** Making an identity *)
Module Keygen.
Import Target.

Inductive KeygenError := NoHomeDir | GenerateKey (e : Pubkey.KeypairError) | MakeParent | CreateKey | WriteKey | CreatePub | WritePub.

(** A regular file: its permissions and contents. *)
Record Node := mkNode { mode : Z; contents : bytes }.
Abbreviation Files := (gmap Path Node).

(** What the file system answers: whether the parent can be made, whether each
    file can be opened, and how much of each write goes in ([None]: all). *)
Record KeyIo := mkKeyIo {
  k_mkdir : bool;
  k_open_key : bool;
  k_write_key : option nat;
  k_open_pub : bool;
  k_write_pub : option nat;
}.

Definition put (n : option nat) (data : bytes) : bytes := match n with None => data | Some n => take n data end.

Section Keygen.
(** The crate's key generation. *)
Variable PrivateKey : Type.
Variable random : option PrivateKey.
Variable set_comment : str → PrivateKey → PrivateKey.
Variables (private_to_openssh public_to_openssh : PrivateKey → option str).
#[local] Notation generate_keypair :=
  (Pubkey.generate_keypair PrivateKey random set_comment private_to_openssh public_to_openssh).

Definition default_output (home : option str) : option Path :=
  h ← home; Some (path_of (Login.path_join h (lit ".config/quish/id_ed25519"))).

Definition default_comment (user_env hostname : option str) : str :=
  whoami user_env ++ AT :: default (lit "quish") hostname.

(** [.pub] is appended to the name. *)
Definition pub_path (output : Path) : Path :=
  match last (comps output) with
  | Some n => mkPath (absolute output) (take (length (comps output) - 1) (comps output) ++ [n ++ lit ".pub"])
  | None => path_of (lit ".pub")
  end.

(** The line printed, and the files. [umask] is the process's. *)
Definition run_keygen (umask : Z) (io : KeyIo) (home user_env hostname : option str) (output : option Path)
    (comment : option str) (fs : Files) : result KeygenError str * Files :=
  match or_else output (default_output home) with
  | None => (Err NoHomeDir, fs)
  | Some output =>
      let comment := match comment with Some c => c | None => default_comment user_env hostname end in
      match generate_keypair comment with
      | Err e => (Err (GenerateKey e), fs)
      | Ok (pem, pub_line) =>
          if negb (k_mkdir io) then (Err MakeParent, fs)
          else if bool_decide (is_Some (fs !! output)) || negb (k_open_key io) then (Err CreateKey, fs)
          else
            let fs := <[output := mkNode (Z.ldiff 0x180 umask) (put (k_write_key io) (utf8 pem))]> fs in
            if negb (bool_decide (k_write_key io = None)) then (Err WriteKey, fs)
            else if negb (k_open_pub io) then (Err CreatePub, fs)
            else
              let pub_mode := match fs !! pub_path output with Some n => mode n | None => Z.ldiff 0x1A4 umask end in
              let fs := <[pub_path output := mkNode pub_mode (put (k_write_pub io) (utf8 (pub_line ++ [10])))]> fs in
              if negb (bool_decide (k_write_pub io = None)) then (Err WritePub, fs)
              else (Ok pub_line, fs)
      end
  end.

Lemma pub_path_ne output : pub_path output ≠ output.
Proof using Type.
  unfold pub_path. destruct output as [a cs]. simpl. destruct (last cs) as [n|] eqn:El.
  - apply last_Some in El as [pre ->]. rewrite length_app, take_app_length' by (simpl; lia).
    intros [= H]. apply (app_inj_tail) in H as [_ H]. apply (f_equal length) in H. rewrite length_app in H. simpl in H. lia.
  - apply last_None in El as ->. by intros [=].
Qed.

(** 0600 less a mask has nothing for the group and others. *)
Lemma mode_private umask : Z.land (Z.ldiff 0x180 umask) 0x3F = 0.
Proof using Type.
  rewrite Z.ldiff_land, <- Z.land_assoc, (Z.land_comm (Z.lnot umask)), Z.land_assoc. apply Z.land_0_l.
Qed.

(** What a run leaves, wherever it stops. *)
Lemma keygen_result (umask : Z) (io : KeyIo) (home user_env hostname : option str) (output : option Path)
    (comment : option str) (fs fs' : Files) (r : result KeygenError str) (o : Path) :
  run_keygen umask io home user_env hostname output comment fs = (r, fs') →
  or_else output (default_output home) = Some o →
  (∀ q n, q ≠ pub_path o → fs !! q = Some n → fs' !! q = Some n) ∧
  (∀ q n, fs' !! q = Some n → fs !! q = Some n ∨ q = pub_path o ∨ (q = o ∧ Z.land (mode n) 0x3F = 0)) ∧
  (∀ line, r = Ok line → ∃ c pem n,
     generate_keypair c = Ok (pem, line) ∧ fs !! o = None ∧
     fs' !! o = Some (mkNode (Z.ldiff 0x180 umask) (utf8 pem)) ∧
     fs' !! pub_path o = Some n ∧ contents n = utf8 (line ++ [10])).
Proof using Type.
  intros Hr Ho. unfold run_keygen in Hr. rewrite Ho in Hr. pose proof (pub_path_ne o) as Hne.
  destruct (generate_keypair _) as [[pem line]|e] eqn:Eg;
    [|injection Hr as <- <-; split_and!; [done|by left|done]].
  destruct (k_mkdir io); cbn [negb] in Hr; [|injection Hr as <- <-; split_and!; [done|by left|done]].
  case_bool_decide as Hfresh; [injection Hr as <- <-; split_and!; [done|by left|done]|].
  destruct (k_open_key io); cbn [negb orb] in Hr; [|injection Hr as <- <-; split_and!; [done|by left|done]].
  assert (fs !! o = None) as Hnone by by apply eq_None_not_Some.
  set (key := mkNode _ (put (k_write_key io) _)) in Hr.
  assert (Z.land (mode key) 0x3F = 0) as Hmode by apply mode_private.
  assert (∀ q n, <[o := key]> fs !! q = Some n → fs !! q = Some n ∨ q = pub_path o ∨ (q = o ∧ Z.land (mode n) 0x3F = 0)) as Hnew.
  { intros q n. rewrite lookup_insert_Some. naive_solver. }
  assert (∀ q n, fs !! q = Some n → <[o := key]> fs !! q = Some n) as Hold.
  { intros q n Hq. rewrite lookup_insert_ne; [done|]. by intros <-; simplify_eq. }
  destruct (k_write_key io) eqn:Ew; cbn [bool_decide negb] in Hr; [injection Hr as <- <-; split_and!; [eauto..|done]|].
  rewrite bool_decide_true in Hr by done. cbn [negb] in Hr.
  destruct (k_open_pub io); cbn [negb] in Hr; [|injection Hr as <- <-; split_and!; [eauto..|done]].
  set (pub := mkNode _ (put (k_write_pub io) _)) in Hr.
  assert (fs' = <[pub_path o := pub]> (<[o := key]> fs)) as -> by by case_bool_decide; simplify_eq/=.
  split_and!.
  - intros q n Hq Hn. rewrite lookup_insert_ne by done. by apply Hold.
  - intros q n. rewrite lookup_insert_Some. intros [[<- _]|[_ Hq]]; [by right; left|by apply Hnew].
  - intros line' ->. case_bool_decide as Ep; simplify_eq/=. eexists _, pem, pub. split_and!; [exact Eg|done| | |].
    + rewrite lookup_insert_ne by done. by rewrite lookup_insert_eq.
    + by rewrite lookup_insert_eq.
    + subst pub. simpl. by rewrite Ep.
Qed.

(** Making an identity destroys none, and never shows it. Whatever the disk
    answers and wherever it stops, every file that was there is as it was, a key
    already at the output path included, except the [.pub] file next to it; the
    new key file never has a permission for anyone but its owner; and on success
    the two files hold the pair generated and the line printed is the public
    one. *)
Theorem keygen_keeps_identities (umask : Z) (io : KeyIo) (home user_env hostname : option str) (output : option Path)
    (comment : option str) (fs fs' : Files) (r : result KeygenError str) (o : Path) :
  run_keygen umask io home user_env hostname output comment fs = (r, fs') →
  or_else output (default_output home) = Some o →
  (∀ q n, q ≠ pub_path o → fs !! q = Some n → fs' !! q = Some n) ∧
  (∀ q n, fs' !! q = Some n → fs !! q = Some n ∨ q = pub_path o ∨ (q = o ∧ Z.land (mode n) 0x3F = 0)) ∧
  (∀ line, r = Ok line → ∃ c pem n,
     generate_keypair c = Ok (pem, line) ∧ fs !! o = None ∧
     fs' !! o = Some (mkNode (Z.ldiff 0x180 umask) (utf8 pem)) ∧
     fs' !! pub_path o = Some n ∧ contents n = utf8 (line ++ [10])).
Proof using Type. apply keygen_result. Qed.

(** ** The identity made, used *)
Section Login.
Context {b64 : Base64} {b64ok : Base64Ok} {pt : Postcard Token} {ptok : PostcardOk Token}.
Variables (from_openssh : str → option (option bytes)) (private_from_openssh : bytes → option (option bytes)).
Variables (vk_ok : bytes → bool) (ed_verify : bytes → bytes → bytes → bool).
Variables (ed_public : bytes → bytes) (ed_sign : bytes → bytes → bytes).
Hypothesis ed_correct : ∀ sk msg, ed_verify (ed_public sk) msg (ed_sign sk msg) = true.
Hypothesis ed_public_ok : ∀ sk, vk_ok (ed_public sk) = true ∧ length (ed_public sk) = 32%nat ∧ bytes_ok (ed_public sk).
Hypothesis ed_sign_ok : ∀ sk msg, length (ed_sign sk msg) = 64%nat ∧ bytes_ok (ed_sign sk msg).
(** What the crate encodes of an ed25519 key it reads back: the private file as
    the key, the public line, which starts with the algorithm's name, as the
    public key. *)
Hypothesis pair_reads_back : ∀ key pem line,
  private_to_openssh key = Some pem → public_to_openssh key = Some line →
  ∃ sk, private_from_openssh (utf8 pem) = Some (Some sk) ∧ from_openssh (trim line) = Some (Some (ed_public sk)) ∧
        trim line ≠ [] ∧ head (trim line) ≠ Some Pubkey.HASH.

(** C25: an identity made by [keygen] logs in. Let its line be among those of the
    user's [authorized_keys], and let the key file made be the client's identity,
    with no OIDC token given. Then the client gets an authorization from it, and the
    server's registry allows that user with it, if the clocks agree to within ten
    minutes, the two ends export the same channel binding, the first backend for
    signed tokens is this one, and the policy permits the user. *)
Theorem keygen_then_login (umask : Z) (io : KeyIo) (home user_env hostname : option str) (output : option Path)
    (comment : option str) (fs fs' : Files) (line : str) (o : Path) (node : Node)
    (registry : Registry) (backend : Pubkey.PubkeyBackend) (cw sw : World) (conn : ConnInfo) (e : ClientAuth.Env)
    (user identity path auth : str) :
  run_keygen umask io home user_env hostname output comment fs = (Ok line, fs') →
  or_else output (default_output home) = Some o → fs' !! o = Some node →
  Oidc.read_file (files cw) identity = Some (contents node) → ClientAuth.oidc_token e = None ∨ ClientAuth.oidc_token e = Some [] →
  (∀ tok, List.find (λ b, dyn_supports b (SignedToken tok)) (backends registry)
          = Some (Dyn (H := Pubkey.pubkey_backend from_openssh vk_ok ed_verify) backend)) →
  permits (policy registry) user = true →
  Pubkey.resolver backend user = Some path → Pubkey.read_authorized_keys (files sw) path = Some auth → line ∈ lines auth →
  str_rust user → in_u 64 (unix_now cw) → Z.abs (unix_now cw - unix_now sw) ≤ Pubkey.TIMESTAMP_WINDOW_SECS →
  ∃ authorization,
    ClientAuth.build_authorization ed_public ed_sign private_from_openssh cw e user (Some identity) (channel_binding conn)
      = (Ok authorization, e) ∧
    verdict registry sw (Some authorization) conn = Allow user.
Proof using b64ok ptok ed_correct ed_public_ok ed_sign_ok pair_reads_back.
  intros Hr Ho Hn Hid Hoidc Hfirst Hpol Hres Hauth Hline Hu Ht Hw.
  destruct (keygen_result umask io home user_env hostname output comment fs fs' (Ok line) o Hr Ho) as (_ & _ & Hok).
  destruct (Hok line eq_refl) as (c & pem & n & Hgen & _ & Hkey & _).
  apply Pubkey.generate_keypair_Ok in Hgen as (key & Hpem & Hpub).
  destruct (pair_reads_back _ _ _ Hpem Hpub) as (sk & Hsk & Hpk & Hne & Hh). rewrite Hkey in Hn. injection Hn as <-.
  destruct (Pubkey.sign_token_total vk_ok ed_public ed_sign ed_public_ok ed_sign_ok sk user (channel_binding conn) (unix_now cw) Hu Ht)
    as [blob Hblob].
  exists (bearer_header blob). split.
  { unfold ClientAuth.build_authorization, ClientAuth.build_token.
    destruct Hoidc as [-> | ->]; rewrite Hid; cbn [ok_or mbind result_bind contents]; by rewrite Hsk, Hblob. }
  destruct (Pubkey.honest_token from_openssh vk_ok ed_verify ed_public ed_sign ed_correct ed_public_ok ed_sign_ok
    backend sw conn sk user (unix_now cw) blob path auth line) as (creds & Hparse & Hallow); try done.
  - unfold Pubkey.key_line_matches. rewrite !bool_decide_false by done. cbn [orb]. rewrite Hpk. by apply bool_decide_eq_true.
  - destruct creds as [|tok|]; try done. unfold verdict. rewrite Hparse, dispatch_spec, Hfirst.
    change (dyn_authenticate _ _ _ _) with (Pubkey.pubkey_authenticate from_openssh vk_ok ed_verify backend sw conn (SignedToken tok)).
    by rewrite Hallow, Hpol.
Qed.
End Login.

End Keygen.
End Keygen.

(** ** Enrolling a second factor *)
Module Enroll.
Import Auth.

(** What [run_totp] prints that matters: the secret, the URI of the QR code, the
    current code. *)
Record Printed := mkPrinted { pr_secret : str; pr_uri : str; pr_code : str }.

(** [{:06}]. *)
Definition pad6 (n : Z) : str := replicate (6 - length (show_uint n)) 48 ++ show_uint n.

Section Enroll.
Variable hmac_sha1 : bytes → bytes → bytes.
Variables (base32_decode : str → option bytes) (base32_encode : bytes → str).

(** [fill_bytes] is the OS's generator; [None]: the URI is too long for a code. *)
Definition run_totp (qr : str → bool) (w : World) (fill_bytes : nat → bytes) (user host : str) : option Printed :=
  let secret := Totp.generate_totp_secret fill_bytes in
  let b32 := Totp.encode_base32_secret base32_encode secret in
  let uri := ClientAuth.otpauth_uri user host b32 in
  if qr uri then
    code ← Totp.current_code hmac_sha1 secret w;
    Some (mkPrinted b32 uri (pad6 code))
  else None.

Lemma parse_digits_zeros n s : parse_digits 32 0 (replicate n 48 ++ s) = parse_digits 32 0 s.
Proof using Type. by induction n. Qed.

Lemma digit_no_whitespace c : 48 ≤ c ≤ 57 → is_whitespace c = false.
Proof using Type.
  intros Hc. replace c with (48 + Z.of_nat (Z.to_nat (c - 48))) by lia.
  assert (Z.to_nat (c - 48) < 10)%nat as Hn by lia. revert Hn. generalize (Z.to_nat (c - 48)). intros n Hn.
  do 10 (destruct n as [|n]; [reflexivity|]). lia.
Qed.

Lemma parse_uint_digits w s : Forall (λ c, 48 ≤ c ≤ 57) s → s ≠ [] → parse_uint w s = parse_digits w 0 s.
Proof using Type.
  intros Hd Hne. destruct Hd as [|c r Hc _]; [done|]. unfold parse_uint. cbn [strip_plus].
  destruct (Z.eqb_spec c 43); [lia|done].
Qed.

(** The code as printed reads back. *)
Lemma parse_pad6 n : in_u 32 n → parse_uint 32 (trim (pad6 n)) = Some n.
Proof using Type.
  intros Hn. assert (Forall (λ c, 48 ≤ c ≤ 57) (show_uint n)) as Hs by (apply show_uint_digits; unfold in_u in Hn; lia).
  assert (Forall (λ c, 48 ≤ c ≤ 57) (pad6 n)) as Hd.
  { unfold pad6. apply Forall_app. split; [apply Forall_replicate; lia|done]. }
  assert (show_uint n ≠ []) as Hne.
  { intros E. pose proof (parse_show_uint 32 n Hn) as Hp. by rewrite E in Hp. }
  rewrite trim_id by (eapply Forall_impl; [exact Hd|apply digit_no_whitespace]).
  rewrite parse_uint_digits; [|done|by unfold pad6; destruct (replicate _ _)].
  unfold pad6. rewrite parse_digits_zeros, <- parse_uint_digits by done. by apply parse_show_uint.
Qed.

(** The crates: a digest is twenty bytes; what base32 encodes it decodes, in
    characters that are not whitespace. *)
Hypothesis hmac_digest : ∀ k m, length (hmac_sha1 k m) = 20%nat ∧ bytes_ok (hmac_sha1 k m).
Hypothesis base32_back : ∀ s, bytes_ok s → base32_decode (base32_encode s) = Some s.
Hypothesis base32_text : ∀ s, bytes_ok s →
  str_ok (base32_encode s) ∧ Forall (λ c, is_whitespace c = false) (base32_encode s).

Variables (Ctx : Type) (pam_ctx : str → str → str → option Ctx) (pam_auth pam_acct : Ctx → bool).
Variable from_name : str → option Privdrop.User.

(** C26: an enrollment made by [totp generate] works. With the printed secret
    installed in the user's file, with or without a newline, the printed code
    answers the server's second challenge while the two clocks are in the same or
    neighbouring 30 s steps; and the URI gives an authenticator app the digits and
    the period the server computes with. *)
Theorem enrolled_code_accepted (qr : str → bool) (w0 w : World) (fill_bytes : nat → bytes) (user host : str) (pr : Printed)
    (u : Privdrop.User) (tail : str) (conn : ConnInfo) (creds : Credentials) (resp : ChallengeResponse) :
  bytes_ok (fill_bytes 20%nat) → run_totp qr w0 fill_bytes user host = Some pr → from_name user = Some u →
  files w (Login.path_join (Privdrop.u_dir u) (lit ".config/quish/totp")) = Some (Regular true (utf8 (pr_secret pr ++ tail))) →
  tail = [] ∨ tail = [10] → 0 ≤ unix_now w0 →
  Z.abs (unix_now w0 / Totp.STEP_SECS - unix_now w / Totp.STEP_SECS) ≤ Totp.SKEW_STEPS →
  challenge conn = Some resp → pending_user (cr_state resp) = Some user → head (cr_responses resp) = Some (pr_code pr) →
  Totp.totp_authenticate hmac_sha1 (Login.totp_of_pam base32_decode Ctx pam_ctx pam_auth pam_acct from_name) w conn creds
    = Allow user ∧
  pr_uri pr = lit "otpauth://totp/quish:" ++ user ++ lit "@" ++ host ++ lit "?secret=" ++ pr_secret pr
    ++ lit "&issuer=quish&algorithm=SHA1&digits=" ++ show_uint Totp.DIGITS ++ lit "&period=" ++ show_uint Totp.STEP_SECS.
Proof using hmac_digest base32_back base32_text.
  intros Hsecret Hrun Hu Hfile Htail Hnow Hskew Hconn Hpend Hhead. unfold run_totp in Hrun.
  change (bytes_ok (Totp.generate_totp_secret fill_bytes)) in Hsecret.
  set (secret := Totp.generate_totp_secret fill_bytes) in *.
  destruct (qr _); [|done]. unfold Totp.current_code in Hrun. rewrite (Totp.hotp_eq hmac_sha1 hmac_digest) in Hrun.
  injection Hrun as <-. cbn [pr_secret pr_uri pr_code] in *. split; [|reflexivity].
  destruct (base32_text secret Hsecret) as [Hok Hws].
  apply (Totp.totp_allow hmac_sha1 hmac_digest). eexists resp, _, _, (unix_now w0 / Totp.STEP_SECS).
  split_and!; [done|done|exact Hhead| |by apply Z.div_pos|done|].
  - apply parse_pad6. pose proof (Totp.hotp_spec_range hmac_sha1 secret (unix_now w0 / Totp.STEP_SECS)). unfold in_u. lia.
  - f_equal. cbn [Login.totp_of_pam Totp.TotpBackend_new Totp.secret_for]. unfold Login.per_user_totp_secret.
    rewrite Hu. cbn [mbind option_bind]. unfold Oidc.read_file. rewrite Hfile. cbn [mbind option_bind].
    rewrite from_utf8_utf8 by (apply Forall_app; split; [done|destruct Htail as [->| ->]; by_dec]).
    cbn [mbind option_bind]. unfold Totp.decode_base32_secret.
    assert (trim (Totp.encode_base32_secret base32_encode secret ++ tail) = base32_encode secret) as ->.
    { destruct Htail as [->| ->]; [rewrite app_nil_r|rewrite trim_snoc_whitespace by done]; by apply trim_id. }
    by rewrite base32_back by done.
Qed.

End Enroll.
End Enroll.

(** ** Concrete runs *)
Module Demo.
Import KnownHosts Establish.

Definition net : Establish.Net :=
  Establish.mkNet (λ _, Some [mkSocketAddr (V4 1) 4433]) true true false true (Some (repeat 0 32)) true.
Definition env : ClientAuth.Env := ClientAuth.mkEnv None (Some (lit "pw")) None [] [].

Lemma establish_verifies_first_witness :
  let host := Target.socket_target (lit "h") 4433 in
  let fp := cert_fingerprint (λ _, [1; 2]) [] in
  false = true ∨ lookup TofuFile.io_good TofuFile.demo_disk host = Some fp ∨
  (lookup TofuFile.io_good TofuFile.demo_disk host = None ∧ prompt_accept None host fp = true ∧
   pin TofuFile.io_good TofuFile.demo_disk host fp = (Ok tt, TofuFile.demo_disk)).
Proof.
  apply (establish_verifies_first (b64 := rfc4648) (pt := token_postcard) Pubkey.toy_public Pubkey.toy_sign (λ _, None) (λ _, [1; 2]) net
    TofuFile.io_good None [] Pubkey.toy_world ClientAuth.demo_target None TofuFile.demo_disk TofuFile.demo_disk env env
    (Ok (basic_header (lit "bob") (lit "pw")))).
  - vm_compute. reflexivity.
  - by left.
Defined.

(** A key of one comment, whose encodings do not show it. *)
Definition pem_of (_ : str) : option str := Some (lit "s").
Definition line_of (_ : str) : option str := Some (lit "ssh-ed25519 AAAA").

Definition made : result Keygen.KeygenError str * Keygen.Files :=
  Keygen.run_keygen str (Some []) (λ c _, c) pem_of line_of 18 (Keygen.mkKeyIo true true None true None) (Some (lit "/home/bob")) None None None None ∅.

Definition output : Path := path_of (lit "/home/bob/.config/quish/id_ed25519").
Definition server : World :=
  mkWorld 1000 None 0 (λ p, if bool_decide (p = lit "/keys")
                            then Some (Regular true (lit "# bob" ++ [10] ++ lit "ssh-ed25519 AAAA" ++ [10])) else None).
(** The client's world: the key file [made] left. *)
Definition client : World :=
  mkWorld 1000 None 0 (λ p, if bool_decide (p = lit "id_ed25519") then Some (Regular true (lit "s")) else None).
Definition keys_backend : Pubkey.PubkeyBackend := Pubkey.PubkeyBackend_new (lit "/keys").
Definition registry : Registry :=
  mkRegistry [Dyn (mkDev (lit "eve")); Dyn (H := Pubkey.pubkey_backend Pubkey.toy_openssh (λ _, true) Pubkey.toy_verify) keys_backend]
    500 (mkPolicy [] [lit "root"]).

Lemma pair_reads_back key pem line : pem_of key = Some pem → line_of key = Some line →
  ∃ sk, Some (Some (utf8 pem)) = Some (Some sk) ∧ Pubkey.toy_openssh (trim line) = Some (Some (Pubkey.toy_public sk)) ∧
        trim line ≠ [] ∧ head (trim line) ≠ Some Pubkey.HASH.
Proof. intros [= <-] [= <-]. exists (lit "s"). by split_and!. Qed.

Lemma keygen_then_login_witness :
  made.1 = Ok (lit "ssh-ed25519 AAAA") ∧
  ∃ authorization,
    ClientAuth.build_authorization (pt := token_postcard) Pubkey.toy_public Pubkey.toy_sign (λ b, Some (Some b)) client env
      (lit "bob") (Some (lit "id_ed25519")) (channel_binding Pubkey.toy_conn) = (Ok authorization, env) ∧
    verdict (H0 := token_postcard) registry server (Some authorization) Pubkey.toy_conn = Allow (lit "bob").
Proof.
  assert (made.1 = Ok (lit "ssh-ed25519 AAAA")) as Hmade by (vm_compute; reflexivity). split; [exact Hmade|].
  apply (Keygen.keygen_then_login str (Some []) (λ c _, c) pem_of line_of Pubkey.toy_openssh (λ b, Some (Some b)) (λ _, true) Pubkey.toy_verify
    Pubkey.toy_public Pubkey.toy_sign (λ sk msg, bool_decide_eq_true_2 _ eq_refl) Pubkey.toy_public_ok Pubkey.toy_sign_ok
    pair_reads_back (ptok := token_postcard_ok) 18 (Keygen.mkKeyIo true true None true None) (Some (lit "/home/bob")) None
    None None None ∅ made.2 (lit "ssh-ed25519 AAAA") output (Keygen.mkNode 384 (lit "s")) registry keys_backend client server Pubkey.toy_conn
    env (lit "bob") (lit "id_ed25519") (lit "/keys") (lit "# bob" ++ [10] ++ lit "ssh-ed25519 AAAA" ++ [10])).
  - rewrite <- Hmade. apply surjective_pairing.
  - vm_compute. reflexivity.
  - vm_compute. reflexivity.
  - vm_compute. reflexivity.
  - by left.
  - reflexivity.
  - by_dec.
  - reflexivity.
  - vm_compute. reflexivity.
  - by_dec.
  - by_dec.
  - by_dec.
  - by_dec.
Defined.

Lemma keygen_keeps_identities_witness :
  let fs := made.2 in
  let again := Keygen.run_keygen str (Some []) (λ c _, c) pem_of line_of 18 (Keygen.mkKeyIo true true None true None) None None None (Some output) None fs in
  again.1 = Err Keygen.CreateKey ∧ ∀ n, fs !! output = Some n → again.2 !! output = Some n.
Proof.
  intros fs again. split; [vm_compute; reflexivity|]. intros n.
  apply (Keygen.keygen_keeps_identities str (Some []) (λ c _, c) pem_of line_of 18 (Keygen.mkKeyIo true true None true None) None None None (Some output) None fs
    again.2 again.1 output); [apply surjective_pairing|done|by_dec].
Defined.

(** HMAC-SHA1 and base32 as published, a generator that answers the key of the
    test vectors. *)
Definition fill_bytes (n : nat) : bytes := take n (lit "12345678901234567890").

Definition root_home (_ : str) : option Privdrop.User := Some (Privdrop.mkUser (lit "bob") 1000 1000 (lit "/home/bob") (lit "/bin/sh")).
Definition enrolled : World :=
  mkWorld 85 None 0 (λ p, if bool_decide (p = lit "/home/bob/.config/quish/totp")
                          then Some (Regular true (utf8 (Crypto.base32_encode (fill_bytes 20) ++ [10]))) else None).
Definition printed : Enroll.Printed :=
  default (Enroll.mkPrinted [] [] []) (Enroll.run_totp Crypto.hmac_sha1 Crypto.base32_encode (λ _, true) enrolled fill_bytes (lit "bob") (lit "h")).
Definition second_round : ConnInfo :=
  mkConnInfo (mkSocketAddr (V4 0) 1) [] (Some (mkResponse (mkState [] (Some (lit "bob"))) [Enroll.pr_code printed])).

Lemma enrolled_code_accepted_witness :
  Totp.totp_authenticate Crypto.hmac_sha1 (Login.totp_of_pam Crypto.base32_decode unit (λ _ _ _, None) (λ _, true) (λ _, true) root_home)
    enrolled second_round (Password (lit "bob") []) = Allow (lit "bob").
Proof.
  apply (Enroll.enrolled_code_accepted Crypto.hmac_sha1 Crypto.base32_decode Crypto.base32_encode Crypto.hmac_sha1_digest Crypto.base32_back Crypto.base32_text unit
    (λ _ _ _, None) (λ _, true) (λ _, true) root_home (λ _, true) enrolled enrolled fill_bytes (lit "bob") (lit "h") printed
    (Privdrop.mkUser (lit "bob") 1000 1000 (lit "/home/bob") (lit "/bin/sh")) [10] second_round (Password (lit "bob") [])
    (mkResponse (mkState [] (Some (lit "bob"))) [Enroll.pr_code printed])).
  - by_dec.
  - vm_compute. reflexivity.
  - reflexivity.
  - vm_compute. reflexivity.
  - by right.
  - by_dec.
  - by_dec.
  - reflexivity.
  - reflexivity.
  - reflexivity.
Defined.
End Demo.
