(* ===== verification/ClientMain.v ===== *)
(** * ClientMain: a run of the client, from its arguments to its exit status

    [main] and [run] of [quish-client/src/main.rs] for a connection (no
    subcommand), composed of what the other files model: the configuration and the
    plan ([Target]), connecting ([ClientRun.Establish]), the supervision of
    forwards ([ClientRun.Forwarding]), the challenge loop ([ClientAuth]) and the
    terminal's pump ([ClientPump]). *)
From S2P Require Import Prelude RustStr Postcard Base64 Proto Net Frames Ipc Auth Totp Pubkey Session Worker Transport KnownHosts Target ClientAuth ClientPump ClientRun.

Module ClientMain.
Import Auth Session Worker KnownHosts Target ClientAuth Terminal Establish.

Inductive RunError :=
| NoTarget | BadConfig (e : ConfigError) | BadSpec (e : SpecError) | NotConnected (e : EstablishError)
| ForwardsEnded (e : Forwarding.ForwardEnd) | NotOpened (e : ClientError)
| OpeningNotSent | NoSignalHandler | ChannelFailed.

(** What the outside answers during a run: the network, the file of known hosts,
    the terminal's answer to the host-key question, the certificate, the files;
    which local ports can be bound, and what happens while forwarding, in order;
    whether the connection's driver ends; whether the opening frame is sent and the signal handlers installed; the frames the channel then
    delivers to an opening frame; what reading standard input gives, the other local
    events and their scheduling. *)
Record Outside := mkOutside {
  x_net : Establish.Net;
  x_io : Io;
  x_tty : option bytes;
  x_cert : bytes;
  x_world : World;
  x_binds : ForwardSpec → bool;
  x_forwarding : list Forwarding.Event;
  x_driver_ends : bool;
  x_opening_sent : bool;
  x_signals : bool;
  x_channel : bytes → list ChannelMessage;
  x_reads : list (option bytes);
  x_winch : list (Z * Z);
  x_ints : nat;
  x_quits : nat;
  x_choose : nat → TermPump → TermArm * bool;
}.

Section Run.
Context {b64 : Base64} {pt : Postcard Token} {pc : Postcard Challenge} {pa : Postcard ChallengeAnswer}.
Context {po : Postcard ChannelOpen} {pm : Postcard ChannelMessage} {psig : Postcard AcceptedSignal}.
Variables (ed_public : bytes → bytes) (ed_sign : bytes → bytes → bytes).
Variable private_from_openssh : bytes → option (option bytes).
Variable sha256 : bytes → bytes.
Variables uri_ok header_ok : str → bool.
Variable show_ip : IpAddr → str.
Variable S : Type.
Variable serve : ClientReq → S → option Transport.Resp * S.

(** How a run ends ([None]: it never does), and what it leaves: the known hosts,
    the environment, the server, the requests it sent, the opening frame of its
    channel, the terminal, the forwards. *)
Record Ran := mkRan {
  ran_result : option (result RunError Z);
  ran_disk : Disk;
  ran_env : Env;
  ran_server : S;
  ran_sent : list ClientReq;
  ran_opening : option bytes;
  ran_term : option TermPump;
  ran_forwards : option (Forwarding.Forwards S);
}.

Definition fails (err : RunError) (d : Disk) (e : Env) (s : S) : Ran := mkRan (Some (Err err)) d e s [] None None None.

(** A result that is kept until the connection's driver has ended. *)
Definition after_driver (x : Outside) (r : option (result RunError Z)) : option (result RunError Z) :=
  if x_driver_ends x then r else None.

Definition send_frame_open (x : Outside) (open : ChannelOpen) : option bytes :=
  match encode open with Ok b => if x_opening_sent x then Some b else None | Err _ => None end.

Abbreviation stdin x := (spawn_stdin (x_reads x)).

(** [terminal::run_channel]: the opening frame, the signal handlers, the pump. *)
Definition pump (x : Outside) (open : ChannelOpen) (interactive : bool) :
    option (result RunError Z) * option bytes * option TermPump :=
  match send_frame_open x open with
  | None => (Some (Err OpeningNotSent), None, None)
  | Some b =>
      if negb (x_signals x) then (Some (Err NoSignalHandler), Some b, None)
      else match run_channel interactive (x_channel x b) (stdin x) (x_winch x) (x_ints x) (x_quits x) (x_choose x) with
           | Session.Finished _ st => (after_driver x (Ok <$> t_exit st), Some b, Some st)
           | Session.FinishedErr st => (Some (Err ChannelFailed), Some b, Some st)
           | Session.Stuck | Session.NoFuel => (None, Some b, None)
           end
  end.

Definition run (x : Outside) (plan : Plan) (d : Disk) (e : Env) (s : S) : Ran :=
  match establish ed_public ed_sign private_from_openssh sha256 (x_net x) (x_io x) (x_tty x) (x_cert x) (x_world x)
          (p_target plan) (p_identity plan) d e with
  | (Err err, d, e) => fails (NotConnected err) d e s
  | (Ok authorization, d, e) =>
      match p_mode plan with
      | Target.Forwarding forwards remotes =>
          let st := Forwarding.run_forwarding uri_ok header_ok show_ip S serve (p_target plan) authorization (x_binds x)
                      (x_forwarding x) (Forwarding.forwards_start S forwards remotes s) in
          let r := match Forwarding.outcome S st with
                   | None => None
                   | Some Forwarding.Finished => after_driver x (Some (Ok 0))
                   | Some end_ => Some (Err (ForwardsEnded end_))
                   end in
          mkRan r d e (Forwarding.server S st) (Forwarding.sent S st) None None (Some st)
      | Channel open interactive =>
          let o := open_channel uri_ok header_ok S serve (p_target plan) authorization s e in
          match o_result S o with
          | Err err => mkRan (Some (Err (NotOpened err))) d (o_env S o) (o_server S o) (o_sent S o) None None None
          | Ok _ =>
              let '(r, opening, term) := pump x open interactive in
              mkRan r d (o_env S o) (o_server S o) (o_sent S o) opening term None
          end
      end
  end.

Variable parse_ip : str → option IpAddr.
(** The TOML parser, and what reading the configuration file gives. *)
Variables (toml : str → option ClientConfig) (read : str → option (option str)).
(** The environment: [QUISH_CONFIG], [HOME], [USER], [TERM], the terminal's size. *)
Variables (quish_config home user_env term : option str) (cols rows : Z).

(** What the arguments and the configuration ask for; [None]: no target. *)
Definition planned (args : option Args) : result RunError Plan :=
  args ← ok_or NoTarget args;
  match load toml read quish_config home with
  | Err c => Err (BadConfig c)
  | Ok cfg =>
      match client_plan parse_ip home user_env term cols rows cfg args with Ok p => Ok p | Err e => Err (BadSpec e) end
  end.

Definition main (x : Outside) (args : option Args) (d : Disk) (e : Env) (s : S) : Ran :=
  match planned args with
  | Err err => fails err d e s
  | Ok plan => run x plan d e s
  end.

(** The status the process ends with: [process::exit] keeps the low byte, an error
    returned from [main] is 1. *)
Definition exit_status (r : result RunError Z) : Z :=
  match r with Ok code => Z.land code 255 | Err _ => 1 end.

(** ** What a run guarantees *)

(** The server presented a certificate that is known: to the Web PKI, by its pin,
    or newly pinned with the user's consent. *)
Definition server_known (x : Outside) (target : Target) (d d' : Disk) : Prop :=
  let host := socket_target (t_host target) (t_port target) in
  let fp := cert_fingerprint sha256 (x_cert x) in
  n_webpki (x_net x) = true ∨ lookup (x_io x) d host = Some fp ∨
  (lookup (x_io x) d host = None ∧ prompt_accept (x_tty x) host fp = true ∧ pin (x_io x) d host fp = (Ok tt, d')).

Definition events_of (x : Outside) (interactive : bool) (frames : list ChannelMessage) : Prop :=
  Session.schedules (λ c, term_arm interactive c.1 c.2) (x_choose x) (term_inv frames (stdin x)).

(** How a channel ends that gives a status: with the status the server sent, all
    that came before it shown, or with -1 and everything received shown. *)
Definition channel_end (x : Outside) (open : ChannelOpen) (code : Z) (opening : option bytes) (shown : option TermPump) : Prop :=
  ∃ b t, encode open = Ok b ∧ opening = Some b ∧ shown = Some t ∧ t_exit t = Some code ∧
    (term_exited (x_channel x b) (stdin x) t ∨ (code = -1 ∧ term_cut (x_channel x b) t)).

Lemma pump_status x open interactive code opening shown :
  (∀ frames, events_of x interactive frames) →
  pump x open interactive = (Some (Ok code), opening, shown) → channel_end x open code opening shown.
Proof using Type.
  intros Hs. unfold pump. unfold send_frame_open. destruct (encode open) as [b|] eqn:Eb; [|done].
  destruct (x_opening_sent x), (x_signals x); cbn [negb]; try done.
  pose proof (run_channel_spec interactive (x_channel x b) (stdin x) (x_winch x) (x_ints x) (x_quits x) (x_choose x) (Hs _)) as H.
  destruct (run_channel _ _ _ _ _ _ _) as [end_ st|st| |]; [|done..].
  unfold after_driver. destruct (x_driver_ends x); [|done]. destruct (t_exit st) as [c|] eqn:Ec; [|done].
  intros [= -> <- <-]. exists b, st. split_and!; [done..|]. destruct end_; [by left|].
  right. split; [|done]. destruct H as (_ & _ & _ & Hx). congruence.
Qed.

(** What a forwarding run sent and how it stands, with [n] connections brought to
    it: at most one request for each and for each remote forward, none of them an
    answer to a challenge; if it ended well there was no local forward, and every
    remote one was opened by a request of its own that was accepted, and closed. *)
Definition forwarded (forwards : list ForwardSpec) (remotes : list RemoteForwardSpec) (n : nat) (r : Ran) : Prop :=
  (length (ran_sent r) ≤ length remotes + n)%nat ∧
  Forall (λ req, cq_challenge_response req = None) (ran_sent r) ∧
  (∀ code, ran_result r = Some (Ok code) →
     code = 0 ∧ forwards = [] ∧
     (∃ st, ran_forwards r = Some st ∧ (Forwarding.listening S st).*1 = remotes ∧
        Forall (λ l, l.2 = Forwarding.Opened Forwarding.EndedOk) (Forwarding.listening S st)) ∧
     ∃ reqs, reqs `sublist_of` ran_sent r ∧ Forall (accepted S serve) reqs ∧ (length remotes ≤ length reqs)%nat).

Lemma plain_request_of target authorization r :
  r ∈ Forwarding.plain_request uri_ok header_ok target authorization →
  request_of target authorization r ∧ cq_challenge_response r = None.
Proof using Type.
  unfold Forwarding.plain_request, build_connect_request. destruct (build_connect_request_with _ _ _ _ _) as [req|] eqn:E; [|by intros ?%not_elem_of_nil].
  intros ->%list_elem_of_singleton. by apply build_request_of in E.
Qed.

(** C24: a run of the client, whatever the outside answers.
    Until its arguments and configuration give a plan it does nothing; until the
    server is known it asks for no secret and sends no request; and every request
    it sends is to the target, with the one authorization. A run of a channel sends
    at most four, and ends with a status only if the server accepted the last and
    the status came over the channel, after everything before it was shown, or is
    -1, when the channel ended without one. A run that forwards sends at most one
    for each connection accepted or signalled and each remote forward, never with
    the answer to a challenge; it ends with a status only if that is 0, there is no
    local forward, and every remote one was opened by an accepted request and then
    closed in order; otherwise it never ends, or ends with an error. *)
Theorem run_guarantees (x : Outside) (args : option Args) (d : Disk) (e : Env) (s : S) :
  (∀ interactive frames, events_of x interactive frames) →
  let r := main x args d e s in
  match planned args with
  | Err err => r = fails err d e s
  | Ok plan =>
      (ran_env r ≠ e ∨ ran_sent r ≠ [] ∨ ran_opening r ≠ None → server_known x (p_target plan) d (ran_disk r)) ∧
      (∃ authorization, Forall (request_of (p_target plan) authorization) (ran_sent r)) ∧
      (∀ code, ran_result r = Some (Ok code) → server_known x (p_target plan) d (ran_disk r)) ∧
      match p_mode plan with
      | Target.Forwarding forwards remotes =>
          forwarded forwards remotes (Forwarding.count Forwarding.brings_connection (x_forwarding x)) r
      | Channel open interactive =>
          (length (ran_sent r) ≤ 4)%nat ∧
          ∀ code, ran_result r = Some (Ok code) →
            (∃ req, last (ran_sent r) = Some req ∧ accepted S serve req)
            ∧ channel_end x open code (ran_opening r) (ran_term r)
      end
  end.
Proof using Type.
  intros Hs r. subst r. unfold main. destruct (planned args) as [plan|err]; [|done]. unfold run.
  destruct (establish _ _ _ _ _ _ _ _ _ _ _ _ _) as [[res d'] e'] eqn:E.
  pose proof (establish_verifies_first _ _ _ _ _ _ _ _ _ _ _ _ _ _ _ _ E) as Hv.
  destruct res as [authorization|err].
  2: { cbn. split_and!; [|by exists []|done|].
       - intros [?|[?|?]]; [|done..]. apply Hv. by right.
       - destruct (p_mode plan); split_and!; simpl; try done; lia. }
  specialize (Hv (or_introl eq_refl)). destruct (p_mode plan) as [forwards remotes|open interactive].
  - set (st := Forwarding.run_forwarding _ _ _ _ _ _ _ _ _ _).
    pose proof (Forwarding.run_forwarding_ok uri_ok header_ok show_ip S serve (p_target plan) authorization (x_binds x)
      forwards remotes (x_forwarding x) _ _ (Forwarding.forwards_start_ok uri_ok header_ok S serve (p_target plan) authorization
      forwards remotes s)) as Hf. fold st in Hf.
    pose proof (Forwarding.ok_sent _ _ _ _ _ _ _ _ _ _ Hf) as Hsent. cbn. split_and!; [by intros| |by intros|split_and!].
    + exists authorization. eapply Forall_impl; [exact Hsent|]. by intros ? []%plain_request_of.
    + pose proof (Forwarding.ok_count _ _ _ _ _ _ _ _ _ _ Hf). cbn. lia.
    + eapply Forall_impl; [exact Hsent|]. by intros ? []%plain_request_of.
    + cbn. intros code Hc. destruct (Forwarding.outcome S st) as [[]|] eqn:Eo; try done.
      destruct (Forwarding.outcome_finished _ _ _ _ _ _ _ _ _ _ Hf Eo) as (Hl & H1 & H2 & H3).
      unfold after_driver in Hc. destruct (x_driver_ends x); [|done]. injection Hc as <-. split_and!; eauto.
  - pose proof (open_rounds_spec uri_ok header_ok S serve MAX_CHALLENGE_ROUNDS (p_target plan) authorization None s e')
      as (Hn & Hr & _ & _ & Hok).
    cbv zeta. unfold open_channel. destruct (o_result _ _) as [[]|err].
    2: { cbn. split_and!; [by intros|by exists authorization|done..]. }
    destruct (pump x open interactive) as [[res opening] term'] eqn:Ep. cbn.
    split_and!; [by intros|by exists authorization|by intros|done|].
    intros code ->. split; [by apply Hok|]. by eapply pump_status.
Qed.

(** ** A remote command, from the arguments to the exit status *)
Context {pook : PostcardOk ChannelOpen} {pmok : PostcardOk ChannelMessage}.

(** However the stream is cut, the worker reads the opening frame that was sent. *)
Lemma opening_read (conn_id : Z) (open : ChannelOpen) (opening rest : bytes) (r : FrameReader) :
  rust_ok open → encode open = Ok opening → pending r = opening ++ rest → bytes_ok rest →
  ∃ r', serve_channel conn_id r = (Ok (Some (serve_channel_plan conn_id open)), r') ∧ pending r' = rest.
Proof using pook.
  intros Ho He Hp Hr. pose proof (encode_bytes_ok open opening Ho He) as Hb.
  destruct (take_frame_encode open opening rest Ho He) as [(body & Ht & Hd) _].
  pose proof (next_frame_pending r) as Hn. rewrite Hp in Hn. rewrite Ht in Hn.
  destruct Hn as (r' & E & Hp' & _); [by apply bytes_ok_app|].
  exists r'. unfold serve_channel. by rewrite E, Hd.
Qed.

(** C18: a remote command, from the command line to the exit status. When the
    arguments name a command of at most 60 KiB, the server is reached and accepts
    the channel, the worker reads that very command from the stream, however it is
    cut, and asks the monitor for it; and for every scheduling of the worker's pump and of the
    client's, if the command's output was drained and its status sent, the client
    shows the command's output and errors whole and in order and exits with the
    status (its low byte). Otherwise there is a turn of the client's pump at which a
    send, or the write of a frame to the local terminal, failed: it then has shown
    a prefix of them and exits with 1. *)
Theorem command_end_to_end (x : Outside) (args : option Args) (plan : Plan) (command authorization : str)
    (d d' : Disk) (e e' : Env) (s : S) (conn_id session_id code : Z) (opening rest : bytes) (r : FrameReader)
    (input : list ChannelMessage) (out err : list bytes)
    (server : nat → ExecPump → Arm * SendRes) (st : ExecPump) (served : Served) :
  planned args = Ok plan → p_mode plan = Channel (Exec command) false → rust_ok (Exec command) →
  str_len command ≤ MAX_SPAWN_ARG_LEN →
  establish ed_public ed_sign private_from_openssh sha256 (x_net x) (x_io x) (x_tty x) (x_cert x) (x_world x)
    (p_target plan) (p_identity plan) d e = (Ok authorization, d', e') →
  o_result S (open_channel uri_ok header_ok S serve (p_target plan) authorization s e') = Ok tt →
  encode (Exec command) = Ok opening → pending r = opening ++ rest → bytes_ok rest →
  x_opening_sent x = true → x_signals x = true → x_driver_ends x = true →
  Session.schedules (λ c, exec_arm c.1 c.2) server (exec_running input out err) →
  pump_loop (λ c, exec_arm c.1 c.2) server (length out + length err + length input + 4) 0 (exec_init input out err)
    = Session.Finished Drained st →
  is_ok (encode (ExitStatus code)) = true →
  run_exec session_id code SendOk (Session.Finished Drained st) = Some served →
  x_channel x opening = s_sent served → x_winch x = [] →
  events_of x false (s_sent served) → sendable (stdin x) →
  (∃ r', serve_channel conn_id r = (Ok (Some (AskMonitor (Ipc.SpawnExec conn_id command))), r')) ∧
  let ran := main x args d e s in
  ∃ t, ran_term ran = Some t ∧
    ((option_map exit_status (ran_result ran) = Some (code mod 256) ∧ t_out t = out ∧ t_err t = err) ∨
     (option_map exit_status (ran_result ran) = Some 1 ∧ t_out t `prefix_of` out ∧ t_err t `prefix_of` err ∧
      gave_up (s_sent served) (stdin x) (x_ints x) (x_quits x) (x_choose x) t)).
Proof using pook pmok.
  intros Hp Hm Ho Hlen He Hc Hopen Hr Hrest H1 H2 H3 Hs Hpump Hcode Hserved Hch Hw Hev Hsend. split.
  - destruct (opening_read conn_id (Exec command) opening rest r Ho Hopen Hr Hrest) as (r' & E & _).
    exists r'. rewrite E. cbn [serve_channel_plan]. unfold spawn_arg_ok.
    by destruct (Z.leb_spec (str_len command) MAX_SPAWN_ARG_LEN); [|lia].
  - pose proof (remote_command_end_to_end session_id code [] (stdin x) input out err (x_ints x) (x_quits x)
      server (x_choose x) served st Hs Hpump Hcode Hserved Hev) as H.
    unfold main. rewrite Hp. unfold run. rewrite He, Hm. cbv zeta. rewrite Hc. unfold pump, send_frame_open. rewrite Hopen, H1, H2. cbn [negb].
    rewrite Hch, Hw.
    pose proof (run_channel_error (s_sent served) (stdin x) (x_ints x) (x_quits x) (x_choose x)) as Herr.
    destruct (run_channel _ _ _ _ _ _ _) as [[] t|t| |]; [|done| |done|done].
    + destruct H as (Ht1 & Ht2 & Ht3). unfold after_driver. rewrite H3, Ht3. exists t. split; [done|]. left. simpl.
      split; [|done]. f_equal. by apply (Z.land_ones code 8).
    + exists t. split; [done|]. right. destruct H. by auto.
Qed.

End Run.

(** ** A concrete run

    [quish bob@h ls -l], against the server of [Transport] with a second factor. *)
Definition demo_served : Served := mkServed [Data [2]; DataErr [3]; ExitStatus 261] [Ipc.Reap 1] true.

Definition demo_outside : Outside :=
  mkOutside Demo.net TofuFile.io_good None [] Pubkey.toy_world (λ _, true) []
    true true true (λ _, s_sent demo_served) [] [] 0 0 frames_first.

Definition demo_args : option Args := Some (mkArgs (lit "bob@h") [lit "ls"; lit "-l"] None [] []).

Definition demo_plan : Target.Plan := mkPlan demo_target None (Channel (Exec (lit "ls -l")) false).

Definition demo_env : Env := mkEnv None (Some (lit "pw")) (Some (lit "843009")) [] [].

Definition demo_opening : bytes := default [] (res_ok (encode (H := Wire.open_postcard) (Exec (lit "ls -l")))).

(** The opening frame, cut in two, and a first byte of what follows. *)
Definition demo_reader : FrameReader :=
  FrameReader_new {| chunks := [take 6 demo_opening; drop 6 demo_opening ++ [0]]; fin := EndClean |}.

Notation demo_serve :=
  (server_side (pt := token_postcard) (pc := Wire.challenge_postcard) (pa := Wire.answer_postcard)
     demo_uri_path demo_registry DEFAULT_PATH 6 1 (Totp.conn0 None)).

Notation demo_planned :=
  (planned Target.demo_parse_ip (λ _, None) (λ _, None) None (Some (lit "/home/bob")) None None 80 24).

Notation demo_main :=
  (main (pt := token_postcard) (pc := Wire.challenge_postcard) (pa := Wire.answer_postcard) (po := Wire.open_postcard)
     (pm := Wire.message_postcard) (psig := Wire.accepted_postcard) Pubkey.toy_public Pubkey.toy_sign (λ _, None) (λ _, [1; 2]) (λ _, true) (λ _, true)
     (λ _, []) ServerSide demo_serve Target.demo_parse_ip (λ _, None) (λ _, None) None (Some (lit "/home/bob")) None None 80 24).

Definition demo_ran := demo_main demo_outside demo_args TofuFile.demo_disk demo_env demo_side.

Lemma demo_events interactive frames : events_of (pm := Wire.message_postcard) demo_outside interactive frames.
Proof. apply frames_first_schedules. Qed.

(** [quish -R 9000:web:80 bob@h], to a server that takes every request: the control
    channel, one connection signalled on it, which is dialled, and its end. *)
Definition forwards_outside : Outside :=
  mkOutside Demo.net TofuFile.io_good None [] Pubkey.toy_world (λ _, true)
    [Forwarding.Main; Forwarding.Control_opens 0 true; Forwarding.Control_frame 0 (Some [7]);
     Forwarding.Connection_runs 0 true; Forwarding.Control_frame 0 None]
    true true true (λ _, []) [] [] 0 0 frames_first.

Example demo_forwarding :
  let r := main (pt := token_postcard) (pc := Wire.challenge_postcard) (pa := Wire.answer_postcard) (po := Wire.open_postcard)
     (pm := Wire.message_postcard) (psig := Wire.accepted_postcard) Pubkey.toy_public Pubkey.toy_sign (λ _, None) (λ _, [1; 2])
     (λ _, true) (λ _, true) (λ _, []) unit (λ _ s, (Some (Transport.respond 200), s))
     Target.demo_parse_ip (λ _, None) (λ _, None) None (Some (lit "/home/bob")) None None 80 24
     forwards_outside (Some (mkArgs (lit "bob@h") [] None [] [lit "9000:web:80"])) TofuFile.demo_disk demo_env tt in
  ran_result _ r = Some (Ok 0) ∧ length (ran_sent _ r) = 2%nat ∧
  Forwarding.ended _ <$> ran_forwards _ r = Some [Bridged [0; 0; 0; 2; 7; 7]].
Proof. by vm_compute. Qed.

Lemma run_guarantees_witness :
  (∀ interactive frames, events_of (pm := Wire.message_postcard) demo_outside interactive frames) ∧
  demo_planned demo_args = Ok demo_plan ∧ length (ran_sent _ demo_ran) = 2%nat ∧ ran_result _ demo_ran = Some (Ok 261) ∧
  (length (ran_sent _ demo_ran) ≤ 4)%nat.
Proof.
  split; [exact demo_events|]. split_and!; [by vm_compute..|].
  pose proof (run_guarantees (pt := token_postcard) (pc := Wire.challenge_postcard) (pa := Wire.answer_postcard)
    (po := Wire.open_postcard) (pm := Wire.message_postcard) (psig := Wire.accepted_postcard) Pubkey.toy_public Pubkey.toy_sign (λ _, None) (λ _, [1; 2])
    (λ _, true) (λ _, true) (λ _, []) ServerSide demo_serve Target.demo_parse_ip (λ _, None) (λ _, None) None (Some (lit "/home/bob"))
    None None 80 24 demo_outside demo_args TofuFile.demo_disk demo_env demo_side demo_events) as H.
  assert (demo_planned demo_args = Ok demo_plan) as E by by vm_compute. cbv zeta in H. rewrite E in H.
  apply H.
Defined.

Lemma command_end_to_end_witness :
  (∃ r', serve_channel (H := Wire.open_postcard) 1 demo_reader = (Ok (Some (AskMonitor (Ipc.SpawnExec 1 (lit "ls -l")))), r')) ∧
  ∃ t, ran_term _ demo_ran = Some t ∧
    option_map exit_status (ran_result _ demo_ran) = Some (261 mod 256) ∧ t_out t = [[2]] ∧ t_err t = [[3]].
Proof.
  destruct (command_end_to_end (pt := token_postcard) (pc := Wire.challenge_postcard) (pa := Wire.answer_postcard)
    (po := Wire.open_postcard) (pm := Wire.message_postcard) (psig := Wire.accepted_postcard) (pook := Wire.open_postcard_ok) (pmok := Wire.message_postcard_ok)
    Pubkey.toy_public Pubkey.toy_sign (λ _, None) (λ _, [1; 2]) (λ _, true) (λ _, true) (λ _, []) ServerSide demo_serve
    Target.demo_parse_ip (λ _, None) (λ _, None) None (Some (lit "/home/bob")) None None 80 24 demo_outside demo_args demo_plan
    (lit "ls -l") (basic_header (lit "bob") (lit "pw")) TofuFile.demo_disk TofuFile.demo_disk demo_env demo_env demo_side
    1 1 261 demo_opening [0] demo_reader [Data [1]] [[2]] [[3]] err_last demo_exec_end demo_served)
    as [Hserve (t & Ht & [Hok|(_ & _ & _ & Hgave)])].
  - by vm_compute.
  - done.
  - by_dec.
  - by_dec.
  - by vm_compute.
  - by vm_compute.
  - by vm_compute.
  - by vm_compute.
  - by_dec.
  - done.
  - done.
  - done.
  - apply err_last_schedules.
  - by vm_compute.
  - by vm_compute.
  - by vm_compute.
  - done.
  - done.
  - apply demo_events.
  - split_and!; [constructor|done|done].
  - split; [exact Hserve|]. exists t. exact (conj Ht Hok).
  - exfalso. destruct Hgave as (n & t' & a & _ & Hc & _). discriminate Hc.
Defined.

End ClientMain.
