(* ===== verification/ClientCp.v ===== *)
(** * ClientCp: a whole copy, and the client's subcommands

    [run_cp] of [quish-client/src/cp.rs] from its arguments to its exit status,
    composed of what the other files model: the configuration and the target
    ([Target]), the plan and the transfers ([Cp]), connecting
    ([ClientRun.Establish]) and the challenge loop of each channel
    ([ClientAuth]); and the choice of a subcommand by [main] of
    [quish-client/src/main.rs]. *)
From S2P Require Import Prelude RustStr Postcard Base64 Proto Net Ipc Auth Totp Pubkey Session Worker Transport KnownHosts Target ClientAuth ClientPump Cp ClientRun ClientMain.

Module ClientCp.
Import Auth KnownHosts Target ClientAuth Cp Establish.

(** What the outside answers a copy: the network, the file of known hosts, the
    answer to the host-key question, the certificate, the clock and files, whether
    the connection's driver ends; what [metadata] finds, the local files read, the
    local writes; and the stream of each channel in the order they are opened (its
    [ch_open] is not used: the challenge loop gives it). *)
Record Outside := mkOutside {
  x_net : Establish.Net;
  x_io : Io;
  x_tty : option bytes;
  x_cert : bytes;
  x_world : World;
  x_driver_ends : bool;
  x_metadata : str → option Meta;
  x_local : str → option LocalFile;
  x_download : DownloadIo;
  x_stream : nat → Chan;
}.

Inductive CpRunError := BadCopy (e : CpError) | BadCpConfig (e : Target.ConfigError) | CpNotConnected (e : EstablishError).

(** The status the process ends with: [process::exit] keeps the low byte of the
    copy's result, an error returned from [main] is 1. *)
Definition copy_status (r : result CpRunError Z) : Z := match r with Ok code => Z.land code 255 | Err _ => 1 end.

Lemma copy_status_0 r : copy_status r = 0 → ∃ code, r = Ok code ∧ code mod 256 = 0.
Proof. destruct r as [code|]; [|done]. cbn [copy_status]. intros H. exists code. split; [done|].
  rewrite <- H. symmetry. by apply (Z.land_ones code 8). Qed.

Section Run.
Context {b64 : Base64} {pt : Postcard Token} {pc : Postcard Challenge} {pa : Postcard ChallengeAnswer}.
Context {po : Postcard ChannelOpen} {pm : Postcard ChannelMessage}.
Variables (ed_public : bytes → bytes) (ed_sign : bytes → bytes → bytes).
Variable private_from_openssh : bytes → option (option bytes).
Variable sha256 : bytes → bytes.
Variables uri_ok header_ok : str → bool.
Variable S : Type.
Variable serve : ClientReq → S → option Transport.Resp * S.

(** ** Channels over one connection

    The server, what is typed and set, the requests sent, the channels opened. *)
Record Link := mkLink { l_server : S; l_env : Env; l_sent : list ClientReq; l_opened : nat }.

Definition open_chan (x : Outside) (target : Target) (authorization : str) (l : Link) : Chan * Link :=
  let o := open_channel uri_ok header_ok S serve target authorization (l_server l) (l_env l) in
  let ch := x_stream x (l_opened l) in
  (mkChan (o_result S o) (ch_sends ch) (ch_finish ch) (ch_msgs ch) (ch_clean ch),
   mkLink (o_server S o) (o_env S o) (l_sent l ++ o_sent S o) (Datatypes.S (l_opened l))).

Definition closed_chan : Chan := mkChan (Err SendingConnect) None false [] false.

(** An upload looks at its file before it opens a channel. *)
Definition is_file (f : option LocalFile) : bool := match f with Some f => lf_regular f | None => false end.

Definition serve_op (x : Outside) (target : Target) (authorization : str) (local : str → option LocalFile)
    (op : RemoteOp) (l : Link) : Chan * Link :=
  match op with
  | OpMkDir _ _ => open_chan x target authorization l
  | OpUpload rel _ => if is_file (local rel) then open_chan x target authorization l else (closed_chan, l)
  end.

(** ** [run_cp] *)

(** What a copy leaves; a result of [None] is a run that never ends. *)
Record Ran := mkRan {
  ran_result : option (result CpRunError Z);
  ran_disk : Disk;
  ran_link : Link;
  ran_files : gmap Path bytes;
}.

Variables (toml : str → option ClientConfig) (read : str → option (option str)).
Variables (quish_config home user_env : option str).

(** Everything before the network: the specs, the configuration, the plan. *)
Definition planned (x : Outside) (args : CpArgs) : result CpRunError (CpPlan * (Target * option str)) :=
  match parse_cp_spec (c_src args), parse_cp_spec (c_dst args) with
  | Err e, _ | Ok _, Err e => Err (BadCopy e)
  | Ok _, Ok _ =>
      match load toml read quish_config home with
      | Err e => Err (BadCpConfig e)
      | Ok cfg => map_err BadCopy (run_cp_plan home user_env (x_metadata x) cfg args)
      end
  end.

(** The transfer of a plan. *)
Definition transfer (x : Outside) (plan : CpPlan) (target : Target) (authorization : str) (l : Link)
    (fs : gmap Path bytes) : result CpError Z * Link * gmap Path bytes :=
  match plan with
  | Download remote final_path =>
      let '(ch, l) := open_chan x target authorization l in
      let '(r, fs) := download_one ch (x_download x) remote final_path fs in
      (r, l, fs)
  | UploadFile local remote =>
      let '(r, l) := run_op (serve_op x target authorization (x_local x)) (x_local x) (OpUpload local remote) l in
      (r, l, fs)
  | UploadTree local remote_root root_mode walk =>
      let files rel := x_local x (path_push local rel) in
      let '(r, _, l) := upload_tree (serve_op x target authorization files) files remote_root root_mode walk l in
      (r, l, fs)
  end.

Definition run_cp (x : Outside) (args : CpArgs) (d : Disk) (e : Env) (s : S) (fs : gmap Path bytes) : Ran :=
  match planned x args with
  | Err err => mkRan (Some (Err err)) d (mkLink s e [] 0) fs
  | Ok (plan, (target, identity)) =>
      match establish ed_public ed_sign private_from_openssh sha256 (x_net x) (x_io x) (x_tty x) (x_cert x) (x_world x)
              target identity d e with
      | (Err err, d, e) => mkRan (Some (Err (CpNotConnected err))) d (mkLink s e [] 0) fs
      | (Ok authorization, d, e) =>
          let '(r, l, fs) := transfer x plan target authorization (mkLink s e [] 0) fs in
          mkRan (if x_driver_ends x then Some (map_err BadCopy r) else None) d l fs
      end
  end.

(** ** What a copy guarantees *)

(** The server presented a certificate that is known, as for a run. *)
Definition server_known (x : Outside) (target : Target) (d d' : Disk) : Prop :=
  let host := socket_target (t_host target) (t_port target) in
  let fp := cert_fingerprint sha256 (x_cert x) in
  n_webpki (x_net x) = true ∨ lookup (x_io x) d host = Some fp ∨
  (lookup (x_io x) d host = None ∧ prompt_accept (x_tty x) host fp = true ∧ pin (x_io x) d host fp = (Ok tt, d')).

(** The channels a plan may need. *)
Definition plan_ops (plan : CpPlan) : nat :=
  match plan with
  | Download _ _ | UploadFile _ _ => 1
  | UploadTree _ root mode walk => length (tree_ops root mode walk)
  end.

(** A link further on: requests were added, at most four for each of [n]
    channels, all to the target with the credential. *)
Definition extends (target : Target) (authorization : str) (n : nat) (l l' : Link) : Prop :=
  ∃ more, l_sent l' = l_sent l ++ more ∧ (length more ≤ 4 * n)%nat ∧ Forall (request_of target authorization) more.

Lemma extends_refl target authorization l : extends target authorization 0 l l.
Proof using Type. exists []. by rewrite app_nil_r. Qed.

Lemma extends_trans target authorization n m l1 l2 l3 :
  extends target authorization n l1 l2 → extends target authorization m l2 l3 → extends target authorization (n + m) l1 l3.
Proof using Type.
  intros (m1 & H1 & L1 & F1) (m2 & H2 & L2 & F2). exists (m1 ++ m2).
  rewrite H2, H1, length_app, app_assoc. split_and!; [done|lia|by apply Forall_app].
Qed.

Lemma extends_le target authorization n m l l' :
  (n ≤ m)%nat → extends target authorization n l l' → extends target authorization m l l'.
Proof using Type. intros Hn (more & H & L & F). exists more. split_and!; [done|lia|done]. Qed.

Lemma open_chan_extends x target authorization l : extends target authorization 1 l (open_chan x target authorization l).2.
Proof using Type.
  unfold open_chan. cbn [snd]. eexists. split; [reflexivity|].
  by destruct (open_rounds_spec uri_ok header_ok S serve MAX_CHALLENGE_ROUNDS target authorization None (l_server l) (l_env l))
    as (Hn & Hr & _).
Qed.

Lemma serve_op_extends x target authorization local op l :
  extends target authorization 1 l (serve_op x target authorization local op l).2.
Proof using Type.
  destruct op as [r m|rel r]; cbn [serve_op]; [apply open_chan_extends|].
  destruct (is_file _); [apply open_chan_extends|]. eapply extends_le; [|apply extends_refl]. lia.
Qed.

Lemma run_op_extends x target authorization local op l :
  extends target authorization 1 l (run_op (serve_op x target authorization local) local op l).2.
Proof using Type.
  unfold run_op. pose proof (serve_op_extends x target authorization local op l) as H.
  by destruct (serve_op _ _ _ _ _ _) as [ch l'].
Qed.

Lemma run_ops_extends x target authorization local ops l :
  extends target authorization (length ops) l (run_ops (serve_op x target authorization local) local ops l).2.
Proof using Type.
  revert l. induction ops as [|op ops IH]; intros l; cbn [run_ops length]; [apply extends_refl|].
  pose proof (run_op_extends x target authorization local op l) as H.
  destruct (run_op _ _ _ _) as [r l1]. cbn [snd] in H. specialize (IH l1).
  destruct (run_ops _ _ _ _) as [[r' done_] l2]. cbn [snd] in IH.
  assert (extends target authorization (Datatypes.S (length ops)) l l1) by (eapply extends_le; [|exact H]; lia).
  destruct r as [[|p|p]|err]; try done. by eapply (extends_trans _ _ 1).
Qed.

Lemma transfer_extends x plan target authorization l fs :
  extends target authorization (plan_ops plan) l (transfer x plan target authorization l fs).1.2.
Proof using Type.
  destruct plan as [remote final|local remote|local root mode walk]; cbn [transfer plan_ops].
  - pose proof (open_chan_extends x target authorization l) as H. destruct (open_chan _ _ _ _) as [ch l1].
    by destruct (download_one _ _ _ _ _).
  - pose proof (run_op_extends x target authorization (x_local x) (OpUpload local remote) l) as H.
    by destruct (run_op _ _ _ _).
  - pose proof (run_ops_extends x target authorization (λ rel, x_local x (path_push local rel)) (tree_ops root mode walk) l) as H.
    unfold upload_tree. by destruct (run_ops _ _ _ _) as [[r done_] l1].
Qed.

(** ** Transfers that succeed *)

(** The channel opened as the [n]th. *)
Definition channel (x : Outside) (n : nat) : Chan :=
  let ch := x_stream x n in mkChan (Ok tt) (ch_sends ch) (ch_finish ch) (ch_msgs ch) (ch_clean ch).

(** The operation, done over a channel: the directory made with status 0, or the
    whole file sent and its status 0. *)
Definition op_done (local : str → option LocalFile) (ch : Chan) (op : RemoteOp) : Prop :=
  match op with
  | OpMkDir remote mode => mkdir_one ch remote mode = Ok 0
  | OpUpload rel remote => ∃ f, local rel = Some f ∧ lf_regular f = true ∧
      upload_one (Some f) ch remote = (Ok 0, Some (WriteFile remote (Z.land (lf_mode f) 0x1FF)), Data <$> lf_chunks f)
  end.

(** Some request of these the server accepted. *)
Definition one_accepted (l : Link) : Prop := ∃ req, req ∈ l_sent l ∧ accepted S serve req.

Lemma one_accepted_mono target authorization n l l' : extends target authorization n l l' → one_accepted l → one_accepted l'.
Proof using Type. intros (more & Hm & _) (req & Hin & Ha). exists req. rewrite Hm, elem_of_app. by split; [left|]. Qed.

Lemma open_chan_Ok x target authorization l ch l' :
  open_chan x target authorization l = (ch, l') → ch_open ch = Ok tt →
  ch = channel x (l_opened l) ∧ l_opened l' = Datatypes.S (l_opened l) ∧ one_accepted l'.
Proof using Type.
  unfold open_chan. intros [= <- <-] Ho. cbn [ch_open] in Ho. rewrite Ho. split_and!; [done..|].
  destruct (open_rounds_spec uri_ok header_ok S serve MAX_CHALLENGE_ROUNDS target authorization None (l_server l) (l_env l))
    as (_ & _ & _ & _ & Hok). destruct (Hok Ho) as (req & Hl & Ha).
  exists req. split; [|done]. cbn [l_sent]. apply elem_of_app. right. by apply last_Some_elem_of in Hl.
Qed.

Lemma open_with_Ok ch open n : open_with ch open = Ok n → ch_open ch = Ok tt.
Proof using Type. unfold open_with. by destruct (ch_open ch) as [[]|]. Qed.

Lemma mkdir_one_Ok ch remote mode code : mkdir_one ch remote mode = Ok code → ch_open ch = Ok tt.
Proof using Type. unfold mkdir_one. destruct (open_with ch _) eqn:E; [|done]. intros _. by eapply open_with_Ok. Qed.

Lemma run_op_Ok x target authorization local op l l' :
  run_op (serve_op x target authorization local) local op l = (Ok 0, l') →
  op_done local (channel x (l_opened l)) op ∧ l_opened l' = Datatypes.S (l_opened l) ∧ one_accepted l'.
Proof using Type.
  unfold run_op. destruct op as [remote mode|rel remote]; cbn [serve_op].
  - destruct (open_chan _ _ _ _) as [ch l1] eqn:E. intros [= Hm <-].
    pose proof (mkdir_one_Ok _ _ _ _ Hm) as Ho. destruct (open_chan_Ok _ _ _ _ _ _ E Ho) as (-> & ? & ?). done.
  - destruct (local rel) as [f|] eqn:Ef; [|by intros [=]]. unfold is_file.
    destruct (lf_regular f) eqn:Er; [|by unfold upload_one; rewrite Er; intros [=]].
    destruct (open_chan _ _ _ _) as [ch l1] eqn:E. intros [Hu <-]%pair_equal_spec.
    destruct (upload_one (Some f) ch remote) as [[r open] sent] eqn:Eu. cbn [fst] in Hu. subst r.
    pose proof Eu as Ev. apply upload_one_Ok in Ev as (f' & [= <-] & _ & Ho & -> & -> & _).
    destruct (open_chan_Ok _ _ _ _ _ _ E Ho) as (-> & ? & ?). split_and!; [|done..]. by exists f.
Qed.

Lemma run_ops_Ok x target authorization local ops l done_ l' :
  run_ops (serve_op x target authorization local) local ops l = (Ok 0, done_, l') →
  ∀ i op, ops !! i = Some op → op_done local (channel x (l_opened l + i)) op ∧ one_accepted l'.
Proof using Type.
  revert l done_. induction ops as [|op ops IH]; intros l done_; [done|]. cbn [run_ops].
  destruct (run_op _ _ _ _) as [r l1] eqn:E. pose proof (run_ops_extends x target authorization local ops l1) as Hx.
  destruct (run_ops _ _ ops l1) as [[r' done'] l2] eqn:Eo. cbn [snd] in Hx.
  intros Ho. destruct (base.decide (r = Ok 0)) as [->|Hr]; [|destruct r as [[]|]; by inversion Ho].
  injection Ho as -> _ ->. destruct (run_op_Ok _ _ _ _ _ _ _ E) as (H1 & H2 & H3).
  intros [|i] op'; cbn [lookup list_lookup].
  - intros [= <-]. rewrite Nat.add_0_r. split; [done|]. by eapply one_accepted_mono.
  - intros Hi. rewrite <- Nat.add_succ_comm, <- H2. by eapply IH.
Qed.

(** A plan carried out: what the server was given, or what the disk holds. *)
Definition plan_done (x : Outside) (plan : CpPlan) (fs : gmap Path bytes) : Prop :=
  match plan with
  | Download remote final_path => ∃ seen rest, ch_msgs (x_stream x 0) = seen ++ ExitStatus 0 :: rest ∧ Terminal.no_exit seen ∧
      fs !! final_path = Some (mjoin (Session.data_of seen))
  | UploadFile local remote => op_done (x_local x) (channel x 0) (OpUpload local remote)
  | UploadTree local root mode walk =>
      ∀ i op, tree_ops root mode walk !! i = Some op → op_done (λ rel, x_local x (path_push local rel)) (channel x i) op
  end.

(** The local files a plan may write. *)
Definition writes (plan : CpPlan) (p : Path) : Prop :=
  match plan with Download _ final_path => p = final_path ∨ p = part_path final_path | _ => False end.

(** What a download would write is as it was. *)
Definition destination_kept (plan : CpPlan) (fs fs' : gmap Path bytes) : Prop :=
  match plan with Download _ final_path => fs' !! final_path = fs !! final_path | _ => fs' = fs end.

Lemma transfer_spec x plan target authorization l fs r l' fs' :
  transfer x plan target authorization l fs = (r, l', fs') → l_opened l = 0%nat →
  (∀ p, ¬ writes plan p → fs' !! p = fs !! p) ∧ (r = Ok 0 → plan_done x plan fs' ∧ one_accepted l') ∧
  (r ≠ Ok 0 → destination_kept plan fs fs').
Proof using Type.
  intros Ht Hn. destruct plan as [remote final|local remote|local root mode walk]; cbn [transfer plan_done writes] in *.
  - destruct (open_chan _ _ _ _) as [ch l1] eqn:Ec. pose proof (download_one_spec ch (x_download x) remote final fs) as Hd.
    destruct (download_one _ _ _ _ _) as [r1 fs1] eqn:Ed. injection Ht as <- <- <-. destruct Hd as (H1 & _ & H3 & H4).
    split_and!; [intros p Hp; apply H1; intros ->; apply Hp; [by left|by right]| |exact H4]. intros ->. destruct (H3 0 eq_refl) as (seen & rest & Hm & Hs & Hf).
    assert (ch_open ch = Ok tt) as Ho.
    { unfold download_one in Ed. destruct (open_with ch _) eqn:Eo; [by eapply open_with_Ok|done]. }
    destruct (open_chan_Ok _ _ _ _ _ _ Ec Ho) as (-> & _ & Ha). rewrite Hn in Hm. split; [|done].
    exists seen, rest. split_and!; [done|done|by apply Hf].
  - destruct (run_op _ _ _ _) as [r1 l1] eqn:Er. injection Ht as <- <- <-. split_and!; [done| |done]. intros ->.
    apply run_op_Ok in Er as (H1 & _ & H3). by rewrite Hn in H1.
  - destruct (upload_tree _ _ _ _ _ _) as [[r1 d1] l1] eqn:Er. injection Ht as <- <- <-. split_and!; [done| |done]. intros ->.
    pose proof (run_ops_Ok x target authorization _ (tree_ops root mode walk) l d1 l1 Er) as H. rewrite Hn in H.
    split; [intros i op Hi; by apply H|]. by destruct (H 0%nat (OpMkDir root mode) eq_refl).
Qed.

(** C21: a copy, from the command line to its status, whatever the outside
    answers. Until the arguments, the configuration and the local source give a plan
    nothing happens; until the server is known no secret is asked for, no request
    is sent and no file changes; all requests go to the target, at most four for
    each channel of the plan; and only a download writes locally, and only its
    destination and the temporary file beside it. The process ends with status 0
    only if the server is known and the copy's result is a number whose low byte is
    0. If that number is 0, the server accepted a request and the whole plan was
    carried out: the destination holds exactly the data sent before a status of 0,
    or every directory was made and every file sent whole, each with a status of 0.
    If it is another multiple of 256, which a server may send, the destination of a
    download is as it was, although the process reports success. *)
Theorem cp_guarantees (x : Outside) (args : CpArgs) (d : Disk) (e : Env) (s : S) (fs : gmap Path bytes) :
  let r := run_cp x args d e s fs in
  let l := ran_link r in
  match planned x args with
  | Err err => r = mkRan (Some (Err err)) d (mkLink s e [] 0) fs
  | Ok (plan, (target, identity)) =>
      (l_env l ≠ e ∨ l_sent l ≠ [] ∨ ran_files r ≠ fs → server_known x target d (ran_disk r)) ∧
      (length (l_sent l) ≤ 4 * plan_ops plan)%nat ∧
      (∃ authorization, Forall (request_of target authorization) (l_sent l)) ∧
      (∀ p, ¬ writes plan p → ran_files r !! p = fs !! p) ∧
      (copy_status <$> ran_result r = Some 0 →
         server_known x target d (ran_disk r) ∧
         ∃ code, ran_result r = Some (Ok code) ∧ code mod 256 = 0 ∧
           (code = 0 → plan_done x plan (ran_files r) ∧ one_accepted l) ∧
           (code ≠ 0 → destination_kept plan fs (ran_files r)))
  end.
Proof using Type.
  intros r l. subst r l. unfold run_cp. destruct (planned x args) as [[plan [target identity]]|err]; [|done].
  destruct (establish _ _ _ _ _ _ _ _ _ _ _ _ _) as [[res d'] e'] eqn:E.
  pose proof (establish_verifies_first _ _ _ _ _ _ _ _ _ _ _ _ _ _ _ _ E) as Hv.
  destruct res as [authorization|err]; cbn -[Nat.mul].
  2: { split_and!; [|lia|by exists []|done|done]. intros [?|[?|?]]; [|done..]. apply Hv. by right. }
  specialize (Hv (or_introl eq_refl)). set (l0 := mkLink s e' [] 0).
  pose proof (transfer_extends x plan target authorization l0 fs) as (more & Hm & Hlen & Hreq).
  destruct (transfer x plan target authorization l0 fs) as [[r l] fs'] eqn:Et. cbn -[Nat.mul] in *.
  apply transfer_spec in Et as (Hf & Hok & Hkept); [|done]. rewrite Hm. split_and!; [by intros|done|by exists authorization|done|].
  destruct (x_driver_ends x); [|done]. cbn [fmap option_fmap option_map]. intros Hr%(inj Some). split; [done|].
  destruct (copy_status_0 _ Hr) as (code & Hc & H0). exists code. rewrite Hc. split_and!; [done|done|..].
  - intros ->. apply Hok. destruct r; by simplify_eq/=.
  - intros Hne. apply Hkept. intros ->. by simplify_eq/=.
Qed.

End Run.
(** ** The subcommands *)
Inductive Command :=
| KnownHostsList
| KnownHostsRemove (host : str)
| CpCommand (a : CpArgs)
| KeygenCommand (output : option Path) (comment : option str)
| TotpGenerate (user host : str).

(** What a process of the client did: it failed before its command, or it ran one
    of them. *)
Inductive Process (S : Type) :=
| NoProvider
| NoRuntime
| Listed (r : option (result IoError (list str)))
| Unpinned (r : option (result IoError nat * Disk))
| Copied (r : Ran S)
| KeyMade (r : result Keygen.KeygenError str * Keygen.Files)
| SecretMade (r : option Enroll.Printed)
| Connected (r : ClientMain.Ran S).
Arguments NoProvider {S}.
Arguments NoRuntime {S}.
Arguments Listed {S} r.
Arguments Unpinned {S} r.
Arguments Copied {S} r.
Arguments KeyMade {S} r.
Arguments SecretMade {S} r.
Arguments Connected {S} r.

(** [main]: the TLS provider first, then the command; only a copy and a
    connection start the runtime (a connection after its arguments are read, which
    [connect] accounts for). The commands are given by what they leave; the two on
    known hosts need [HOME]. *)
Definition main {S : Type} (installed runtime : bool) (home : option str) (io : Io) (d : Disk)
    (copy : CpArgs → Ran S) (keygen : option Path → option str → result Keygen.KeygenError str * Keygen.Files)
    (totp : str → str → option Enroll.Printed) (connect : ClientMain.Ran S) (action : option Command) : Process S :=
  if negb installed then NoProvider
  else match action with
       | Some KnownHostsList => Listed (_ ← known_hosts_path home; Some (list_known_hosts io d))
       | Some (KnownHostsRemove host) => Unpinned (_ ← known_hosts_path home; Some (remove_known_host io d host))
       | Some (CpCommand a) => if runtime then Copied (copy a) else NoRuntime
       | Some (KeygenCommand output comment) => KeyMade (keygen output comment)
       | Some (TotpGenerate user host) => SecretMade (totp user host)
       | None => Connected connect
       end.

(** The status of the process: a copy exits with its own, cut to a byte. *)
Definition exit_status {S : Type} (p : Process S) : option Z :=
  let of_ok (b : bool) := Some (if b then 0 else 1) in
  match p with
  | NoProvider | NoRuntime => of_ok false
  | Listed r => of_ok (match r with Some (Ok _) => true | _ => false end)
  | Unpinned r => of_ok (match r with Some (Ok _, _) => true | _ => false end)
  | Copied r => copy_status <$> ran_result S r
  | KeyMade r => of_ok (is_ok r.1)
  | SecretMade r => of_ok (match r with Some _ => true | None => false end)
  | Connected r => ClientMain.exit_status <$> ClientMain.ran_result S r
  end.

(** ** A concrete copy

    [quish cp bob@h:/etc/motd out], against the server of [ClientMain]. *)
Definition demo_stream : Chan := mkChan (Ok tt) None true [Data [1; 2]; Data [3]; ExitStatus 0; Data [9]] true.

Definition demo_outside : Outside :=
  mkOutside Demo.net TofuFile.io_good None [] Pubkey.toy_world true (λ _, None) (λ _, None) (mkDownloadIo true None true)
    (λ _, demo_stream).

Definition demo_args : CpArgs := mkCpArgs (lit "bob@h:/etc/motd") (lit "out") None None None.
Definition demo_plan : CpPlan := Download (lit "/etc/motd") (path_of (lit "out")).

Notation demo_planned := (planned (λ _, None) (λ _, None) None (Some (lit "/home/bob")) None).
Notation demo_cp :=
  (run_cp (pt := token_postcard) (pc := Wire.challenge_postcard) (pa := Wire.answer_postcard) (po := Wire.open_postcard)
     (pm := Wire.message_postcard) Pubkey.toy_public Pubkey.toy_sign (λ _, None) (λ _, [1; 2]) (λ _, true) (λ _, true)
     ServerSide ClientMain.demo_serve (λ _, None) (λ _, None) None (Some (lit "/home/bob")) None).

Definition demo_ran := demo_cp demo_outside demo_args TofuFile.demo_disk ClientMain.demo_env demo_side ∅.

Lemma cp_guarantees_witness :
  demo_planned demo_outside demo_args = Ok (demo_plan, (demo_target, None)) ∧
  ran_result _ demo_ran = Some (Ok 0) ∧ length (l_sent _ (ran_link _ demo_ran)) = 2%nat ∧
  ran_files _ demo_ran !! path_of (lit "out") = Some [1; 2; 3] ∧
  (length (l_sent _ (ran_link _ demo_ran)) ≤ 4)%nat ∧
  plan_done (po := Wire.open_postcard) (pm := Wire.message_postcard) demo_outside demo_plan (ran_files _ demo_ran).
Proof.
  assert (demo_planned demo_outside demo_args = Ok (demo_plan, (demo_target, None))) as E by by vm_compute.
  assert (ran_result _ demo_ran = Some (Ok 0)) as Hr by by vm_compute.
  split_and!; [exact E|exact Hr|by vm_compute|by vm_compute|..];
    pose proof (cp_guarantees (pt := token_postcard) (pc := Wire.challenge_postcard) (pa := Wire.answer_postcard)
      (po := Wire.open_postcard) (pm := Wire.message_postcard) Pubkey.toy_public Pubkey.toy_sign (λ _, None) (λ _, [1; 2])
      (λ _, true) (λ _, true) ServerSide ClientMain.demo_serve (λ _, None) (λ _, None) None (Some (lit "/home/bob")) None
      demo_outside demo_args TofuFile.demo_disk ClientMain.demo_env demo_side ∅) as H;
    cbv zeta in H; rewrite E in H; destruct H as (_ & Hlen & _ & _ & Hok); [exact Hlen|].
  destruct Hok as [_ (code & Hc & _ & Hok & _)]; [exact (f_equal (fmap copy_status) Hr)|].
  assert (Some (Ok 0) = Some (Ok code)) as [= <-] by (rewrite <- Hc; symmetry; exact Hr). by apply Hok.
Defined.

(** A server that ends the channel with status 256: nothing is copied, and the
    process exits with 0. *)
Definition outside_256 : Outside :=
  mkOutside Demo.net TofuFile.io_good None [] Pubkey.toy_world true (λ _, None) (λ _, None) (mkDownloadIo true None true)
    (λ _, mkChan (Ok tt) None true [Data [1; 2]; ExitStatus 256] true).

Example status_256_copies_nothing :
  let r := demo_cp outside_256 demo_args TofuFile.demo_disk ClientMain.demo_env demo_side ∅ in
  exit_status (Copied r) = Some 0 ∧ ran_files _ r = ∅.
Proof. split; by vm_compute. Qed.

End ClientCp.
