(* ===== verification/ProtoTests.v ===== *)
(** * ProtoTests: the unit tests of the protocol, run on the model

    The tests of [quish-proto/src/lib.rs], on the published codecs ([Wire],
    [rfc4648]) and SHA-256 ([Crypto]): each test is a definition, its assertions in
    order, and an example runs it. *)
From S2P Require Import Prelude RustStr Postcard Base64 Crypto Proto.

Module ProtoTests.
Import Wire.

(** [unwrap], on bytes that are there. *)
Definition unwrap (r : result CodecError bytes) : bytes := default [] (res_ok r).

Definition challenge_header_roundtrips : bool :=
  let c := {| ch_token := lit "opaque-token-123"; prompts := [{| message := lit "TOTP code: "; echo := false |}] |} in
  asserts [bool_decide ((encoded ← encode_challenge c; decode_challenge encoded) = Some c);
           is_none (decode_challenge (lit "!!! not base64"))].

Definition challenge_answer_roundtrips : bool :=
  let a := {| ans_token := lit "opaque-token-123"; responses := [lit "123456"] |} in
  asserts [bool_decide ((encoded ← encode_challenge_answer a; decode_challenge_answer encoded) = Some a);
           is_none (decode_challenge_answer (lit "%%%"))].

Definition frame_roundtrips : bool :=
  let msg := Data (lit "hello pty") in
  let frame := unwrap (encode msg) in
  asserts [bool_decide (res_ok (parse_len (take (Z.to_nat LEN_PREFIX) frame)) = Some (zlen frame - LEN_PREFIX));
           bool_decide (decode (drop (Z.to_nat LEN_PREFIX) frame) = Ok msg)].

Definition cert_fingerprint_is_lowercase_hex_sha256 : bool :=
  bool_decide (cert_fingerprint Crypto.sha256 [] = lit "e3b0c44298fc1c149afbf4c8996fb92427ae41e4649b934ca495991b7852b855").

(** What the eight tests of a type's round trip share. *)
Definition roundtrips `{EqDecision T, Postcard T} (v : T) : bool :=
  bool_decide (decode (drop (Z.to_nat LEN_PREFIX) (unwrap (encode v))) = Ok v).

Definition open_roundtrips : bool := roundtrips (Shell (lit "xterm-256color") 80 24).
Definition forward_open_roundtrips : bool := roundtrips (Forward (lit "127.0.0.1") 5432).
Definition readfile_open_roundtrips : bool := roundtrips (ReadFile (lit "/etc/hostname")).
Definition writefile_open_roundtrips : bool := roundtrips (WriteFile (lit "/tmp/x") 0x1A4).
Definition mkdir_open_roundtrips : bool := roundtrips (MkDir (lit "/tmp/d") 0x1ED).
Definition remote_forward_listen_open_roundtrips : bool := roundtrips (RemoteForwardListen (lit "127.0.0.1") 8080).
Definition remote_forward_data_open_roundtrips : bool := roundtrips (RemoteForwardData 42).

#[global] Instance AcceptedSignal_eq_dec : EqDecision AcceptedSignal.
Proof. solve_decision. Defined.

Definition accepted_signal_roundtrips : bool := roundtrips {| as_conn_ref := 7 |}.
Definition signal_frame_roundtrips : bool := roundtrips (SignalMsg Int).

Definition oversized_body_rejected : bool :=
  let big := Data (repeat 0 (Z.to_nat (MAX_FRAME_LEN + 1))) in
  match encode big with Err (TooLarge _) => true | _ => false end.

Definition oversized_prefix_rejected : bool :=
  match parse_len (to_be_bytes32 (MAX_FRAME_LEN + 1)) with Err (TooLarge _) => true | _ => false end.

(** That it returns at all. *)
Definition garbage_body_errs_not_panics : bool :=
  match decode (T := ChannelMessage) [0xff; 0xff; 0xff; 0xff] with Ok _ | Err _ => true end.

Definition version_supported_accepts_current_rejects_others : bool :=
  asserts [version_supported (Some (show_uint PROTOCOL_VERSION)); version_supported (Some (lit "2"));
           negb (version_supported None); negb (version_supported (Some (lit "1")));
           negb (version_supported (Some (lit "3"))); negb (version_supported (Some (lit "abc")));
           negb (version_supported (Some []))].

(** The frame at the front of a buffer, decoded, and what is left. *)
Definition taken (r : result CodecError (option bytes) * bytes) : option ChannelMessage * bytes :=
  (match r.1 with Ok (Some body) => res_ok (decode body) | _ => None end, r.2).

Definition needs_more (r : result CodecError (option bytes) * bytes) : bool :=
  match r.1 with Ok None => true | _ => false end.

Definition take_frame_returns_one_full_frame : bool :=
  let buf := unwrap (encode (Data [9; 8; 7])) in
  bool_decide (taken (take_frame buf) = (Some (Data [9; 8; 7]), [])).

Definition take_frame_needs_more_when_partial : bool :=
  let framed := unwrap (encode (Data [1; 2; 3; 4])) in
  let n := length framed in
  let r1 := take_frame (take 2 framed) in
  let r2 := take_frame (r1.2 ++ take (n - 1 - 2) (drop 2 framed)) in
  let r3 := take_frame (r2.2 ++ drop (n - 1) framed) in
  asserts [needs_more r1; needs_more r2; bool_decide (taken r3 = (Some (Data [1; 2; 3; 4]), []))].

Definition take_frame_splits_two_frames_in_one_buffer : bool :=
  let buf := unwrap (encode (Data [1])) ++ unwrap (encode (Data [2; 2])) in
  let a := take_frame buf in
  let b := take_frame a.2 in
  asserts [bool_decide ((taken a).1 = Some (Data [1])); bool_decide ((taken b).1 = Some (Data [2; 2]));
           needs_more (take_frame b.2)].

Definition take_frame_rejects_oversized_length : bool :=
  is_err (take_frame (to_be_bytes32 (MAX_FRAME_LEN + 1))).1.

Definition suite : list bool :=
  [challenge_header_roundtrips; challenge_answer_roundtrips; frame_roundtrips; cert_fingerprint_is_lowercase_hex_sha256;
   open_roundtrips; forward_open_roundtrips; readfile_open_roundtrips; writefile_open_roundtrips; mkdir_open_roundtrips;
   remote_forward_listen_open_roundtrips; remote_forward_data_open_roundtrips; accepted_signal_roundtrips;
   signal_frame_roundtrips; oversized_body_rejected; oversized_prefix_rejected; garbage_body_errs_not_panics;
   version_supported_accepts_current_rejects_others; take_frame_returns_one_full_frame;
   take_frame_needs_more_when_partial; take_frame_splits_two_frames_in_one_buffer; take_frame_rejects_oversized_length].

Example proto_tests_pass : asserts suite = true.
Proof. vm_compute. reflexivity. Qed.

End ProtoTests.

(** ** The fuzz target *)
Module Fuzz.
Section Fuzz.
Context {pm : Postcard ChannelMessage} {po : Postcard ChannelOpen}.

(** What the harness decodes: the data as a body, of both types, and behind a
    length prefix, cut to the length it announces. *)
Definition fuzz_target (data : bytes) :
    result CodecError ChannelMessage * result CodecError ChannelOpen * option (result CodecError ChannelMessage) :=
  (decode data, decode data,
   if zlen data <? LEN_PREFIX then None
   else match parse_len (take (Z.to_nat LEN_PREFIX) data) with
        | Err _ => None
        | Ok len =>
            let body := drop (Z.to_nat LEN_PREFIX) data in
            Some (decode (take (Z.to_nat (Z.min len (zlen body))) body))
        end).

(** The path the harness exercises is the readers': where [take_frame] takes a
    frame, the harness decodes that very body; and whatever the data announces,
    it never hands over more than the cap. *)
Lemma fuzz_is_take_frame (data : bytes) :
  bytes_ok data →
  (∀ body rest, take_frame data = (Ok (Some body), rest) → (fuzz_target data).2 = Some (decode body)) ∧
  (∀ len, parse_len (take (Z.to_nat LEN_PREFIX) data) = Ok len → len ≤ MAX_FRAME_LEN).
Proof using Type.
  intros Hdata. split.
  - intros body rest. unfold take_frame, fuzz_target. cbn [snd].
    destruct (Z.ltb_spec (zlen data) LEN_PREFIX) as [|Hlen]; [done|].
    destruct (parse_len _) as [len|] eqn:El; [|done].
    destruct (Z.ltb_spec (zlen data) (LEN_PREFIX + len)) as [|Hd]; [done|]. intros [= <- _]. do 2 f_equal.
    assert (zlen (drop (Z.to_nat LEN_PREFIX) data) = zlen data - LEN_PREFIX) as Hb
      by (apply zlen_drop; unfold LEN_PREFIX in *; lia).
    rewrite Hb, Z.min_l by lia. rewrite take_drop_commute. do 2 f_equal. unfold LEN_PREFIX in *.
    unfold parse_len in El. destruct (_ <? _); [done|]. injection El as El.
    pose proof (from_be_bytes_nonneg (take (Z.to_nat 4) data) (Forall_take _ _ _ Hdata)). lia.
  - intros len. unfold parse_len. destruct (Z.ltb_spec MAX_FRAME_LEN (from_be_bytes (take (Z.to_nat LEN_PREFIX) data))); [done|].
    by intros [= <-].
Qed.
End Fuzz.
End Fuzz.
