(* ===== verification/ServerTests.v ===== *)
(** * ServerTests: the unit tests of the server, run on the model

    The tests of [ratelimit.rs], [monitor.rs], [signproxy.rs], [ipc.rs],
    [worker.rs] and [session.rs] of [quish-server], each a definition with the
    test's assertions in order. [exclusive_create_rejects_existing], a test of
    [std::fs], is left out. *)
From stdpp Require Import sorting.
From S2P Require Import Prelude RustStr Postcard Base64 Proto Net RateLimit Ipc Sign Auth Totp Pubkey Oidc Challenge Privdrop Monitor Login Session Worker Config Startup.
Import Ipc.

Module ServerTests.

(** ** [ratelimit.rs] *)
Section RateLimiting.
Import RateLimit.

Definition ip : IpAddr := V4 0x0A000001.

(** The tests' instants: all within one run, far below [ENTRY_TTL]. *)
Definition t : Z := secs 1.
Definition admit_at (l : RateLimiter) : option ConnGuard * RateLimiter := admit_ip ip t t l.

Definition caps_concurrent_connections : bool :=
  let rl := new 2 (millis 10) (secs 1) in
  let '(g1, rl) := admit_at rl in
  let '(g2, rl) := admit_at rl in
  let '(g3, rl) := admit_at rl in
  match g1, g2 with
  | Some g1, Some _ =>
      let rl := drop_guard g1 t rl in
      let '(g4, _) := admit_at rl in
      asserts [is_none g3; negb (is_none g4)]
  | _, _ => false
  end.

Definition backoff_grows_then_resets : bool :=
  let rl0 := new 4 (millis 100) (secs 5) in
  let rl1 := record_failure ip t rl0 in
  let rl2 := record_failure ip t rl1 in
  let rl3 := record_failure ip t rl2 in
  let rl4 := record_success ip t rl3 in
  asserts [backoff ip rl0 =? 0; backoff ip rl1 =? millis 100; backoff ip rl2 =? millis 200;
           backoff ip rl3 =? millis 400; backoff ip rl4 =? 0].

Definition backoff_capped : bool :=
  let rl := Nat.iter 10 (record_failure ip t) (new 4 (secs 1) (secs 4)) in
  backoff ip rl =? secs 4.
End RateLimiting.

(** ** [monitor.rs] *)
Section Indexing.
Import Monitor.

Definition two : SessionIndex := index_insert 1 11 (index_insert 1 10 (mkIndex ∅)).

Definition take_conn_returns_all_sessions : bool :=
  let '(got, idx) := take_conn 1 two in
  asserts [bool_decide (merge_sort Z.le got = [10; 11]); bool_decide ((take_conn 1 idx).1 = [])].

Definition forget_removes_session_from_conn : bool :=
  bool_decide ((take_conn 1 (index_forget 10 two)).1 = [11]).

Definition take_conn_unknown_is_empty : bool := bool_decide ((take_conn 99 (mkIndex ∅)).1 = []).

(** A process id, as the test finds it. *)
Definition socket_dir_is_sibling_of_chroot : bool :=
  let d := Startup.socket_dir_for 4242 (lit "/run/quishd") in
  asserts [negb (is_none (strip_prefix (lit "/run/quishd.sock.d-") d));
           negb (bool_decide (parent (path_of d) = Some (path_of (lit "/run/quishd"))))].
End Indexing.

Section Throttling.
Import Sign.

(** [SIGN_BURST] calls at one instant, then one more. *)
Definition burst (now : Z) : list bool * SignThrottle :=
  allows (SignThrottle_new now) (repeat now (Z.to_nat SIGN_BURST)).

Definition sign_throttle_allows_burst_then_refuses : bool :=
  let now := secs 1 in
  let '(granted, t) := burst now in
  asserts (granted ++ [negb (allow now t).1]).

Definition sign_throttle_refills_after_interval : bool :=
  let now := secs 1 in
  let '(granted, t) := burst now in
  let '(over, t) := allow now t in
  let later := now + SIGN_REFILL in
  let '(one, t) := allow later t in
  let '(more, _) := allow later t in
  asserts (granted ++ [negb over; one; negb more]).
End Throttling.

(** ** [signproxy.rs] *)
Section Proxying.
Import Sign IpcWire.

Definition ED25519_SCHEME : Z := 0x0807.
Definition fresh : Proxy := mkProxy true [].

(** The fake monitor reads the request and replies with a fixed signature. *)
Definition fake_monitor (request : bytes) : bytes :=
  match sign_read (T := SignRequest) request Eof with
  | (Ok (Some _), _) => default [] (res_ok (sign_write (Signature [1; 2; 3; 4])))
  | _ => []
  end.

Definition sign_returns_signature_on_monitor_reply : bool :=
  let request := default [] (res_ok (sign_write (mkSignRequest (lit "hello")))) in
  asserts [proxy_choose_scheme ED25519_SCHEME [ED25519_SCHEME];
           bool_decide (res_ok (sign fresh (mkJobEnv true (fake_monitor request) IoErr) true (lit "hello")).1 = Some [1; 2; 3; 4])].

(** Nothing arrives before the socket's read timeout. *)
Definition sign_times_out_when_monitor_never_replies : bool :=
  asserts [proxy_choose_scheme ED25519_SCHEME [ED25519_SCHEME];
           match (sign fresh (mkJobEnv true [] IoErr) true (lit "hello")).1 with Err MonitorSigningFailed => true | _ => false end].
End Proxying.

(** ** [ipc.rs] *)
Section Control.
Import IpcWire.

Definition ctrl_recv_decodes_valid_message : bool :=
  match ctrl_send (Exited 42) [] with
  | Ok p => match ctrl_recv (T := Response) (Some p) with Msg (Exited 42) fds => bool_decide (fds = []) | _ => false end
  | Err _ => false
  end.

(** A lone variant index that names none. *)
Definition ctrl_recv_skips_undecodable_frame : bool :=
  match ctrl_recv (T := Response) (Some (mkPacket [0x7f] [])) with Bad => true | _ => false end.

Definition ctrl_recv_reports_clean_close : bool :=
  match ctrl_recv (T := Response) None with RecvClosed => true | _ => false end.
End Control.

(** ** [worker.rs] *)
Definition spawn_arg_boundary : bool :=
  asserts [Worker.spawn_arg_ok Worker.MAX_SPAWN_ARG_LEN; negb (Worker.spawn_arg_ok (Worker.MAX_SPAWN_ARG_LEN + 1));
           Worker.MAX_SPAWN_ARG_LEN <? IPC_CAP].

(** ** [session.rs] *)
Section Binding.
Import Session.

Definition LOCALHOST4 : IpAddr := V4 0x7F000001.
Definition LOCALHOST6 : IpAddr := V6 1.
Definition sa (ip : IpAddr) : SocketAddr := mkSocketAddr ip 8080.

Definition remote_bind_allows_loopback_unprivileged : bool :=
  asserts [remote_bind_allowed 8080 [sa LOCALHOST4]; remote_bind_allowed 1024 [sa LOCALHOST6]].

Definition remote_bind_refuses_privileged_port : bool :=
  asserts [negb (remote_bind_allowed 1023 [sa LOCALHOST4]); negb (remote_bind_allowed 80 [sa LOCALHOST4]);
           negb (remote_bind_allowed 0 [sa LOCALHOST4])].

Definition remote_bind_refuses_non_loopback : bool :=
  asserts [negb (remote_bind_allowed 8080 [sa (V4 0)]); negb (remote_bind_allowed 8080 [sa (V4 0xC0A8010A)]);
           negb (remote_bind_allowed 8080 [sa LOCALHOST4; sa (V4 0x0A000001)])].

Definition remote_bind_refuses_empty : bool := negb (remote_bind_allowed 8080 []).
End Binding.

Definition suite : list bool :=
  [caps_concurrent_connections; backoff_grows_then_resets; backoff_capped; take_conn_returns_all_sessions;
   forget_removes_session_from_conn; take_conn_unknown_is_empty; socket_dir_is_sibling_of_chroot;
   sign_throttle_allows_burst_then_refuses; sign_throttle_refills_after_interval;
   sign_returns_signature_on_monitor_reply; sign_times_out_when_monitor_never_replies; ctrl_recv_decodes_valid_message;
   ctrl_recv_skips_undecodable_frame; ctrl_recv_reports_clean_close; spawn_arg_boundary;
   remote_bind_allows_loopback_unprivileged; remote_bind_refuses_privileged_port; remote_bind_refuses_non_loopback;
   remote_bind_refuses_empty].

Example server_tests_pass : asserts suite = true.
Proof. vm_compute. reflexivity. Qed.

End ServerTests.
