(* ===== verification/ClientTests.v ===== *)
(** * ClientTests: the unit tests of the client, run on the model

    The tests of [main.rs], [cp.rs] and [connect.rs] of [quish-client], each a
    definition with the test's assertions in order. The stub reader of the challenge
    tests is what is typed at the prompts. Left out: two tests of crates only
    ([connect_uri_authority_is_bracketed_for_ipv6] of [http::Uri],
    [load_rejects_malformed_and_unknown_fields] of [toml]). *)
From S2P Require Import Prelude RustStr Postcard Base64 Proto Net Auth Oidc KnownHosts Target ClientAuth Cp.

#[global] Instance target_eq_dec : EqDecision Target.Target.
Proof. solve_decision. Defined.
#[global] Instance forwardspec_eq_dec : EqDecision Target.ForwardSpec.
Proof. solve_decision. Defined.
#[global] Instance remoteforwardspec_eq_dec : EqDecision Target.RemoteForwardSpec.
Proof. solve_decision. Defined.
#[global] Instance cpspec_eq_dec : EqDecision Cp.CpSpec.
Proof. solve_decision. Defined.

(** ** [main.rs] *)
Module MainTests.
Import Wire Target ClientAuth.

Definition challenge : Challenge :=
  {| ch_token := lit "srv-token-xyz";
     prompts := [{| message := lit "TOTP code: "; echo := false |}; {| message := lit "PIN: "; echo := true |}] |}.

(** The hidden prompt gets the code, the echoed one the PIN. *)
Definition typed : Env := mkEnv None None None [Some (lit "pin-2" ++ [10])] [Some (lit "code-1")].

Definition challenge_answer_echoes_token_and_orders_responses : bool :=
  match build_challenge_answer challenge typed with
  | (Ok answer, _) =>
      asserts [bool_decide (ans_token answer = lit "srv-token-xyz");
               bool_decide (responses answer = [lit "code-1"; lit "pin-2"]);
               bool_decide ((encode_challenge_answer answer ≫= decode_challenge_answer) = Some answer)]
  | (Err _, _) => false
  end.

(** No terminal to read from. *)
Definition challenge_answer_propagates_a_read_error : bool :=
  let challenge := {| ch_token := lit "t"; prompts := [{| message := lit "x"; echo := false |}] |} in
  is_err (build_challenge_answer challenge (mkEnv None None None [] [])).1.

Definition otpauth_uri_formats_exactly : bool :=
  bool_decide (otpauth_uri (lit "alice") (lit "example.com") (lit "JBSWY3DPEHPK3PXP")
    = lit "otpauth://totp/quish:alice@example.com?secret=JBSWY3DPEHPK3PXP&issuer=quish&algorithm=SHA1&digits=6&period=30").

(** ** Targets *)
Definition USER : option str := Some (lit "me").
Definition resolve (s : str) (cfg : ClientConfig) : option Resolved :=
  raw ← res_ok (parse_target s); Some (resolve_target USER raw cfg).
Definition resolved_target (s : str) : option Target := r_target <$> resolve s ClientConfig_default.

Definition parses_full_target : bool :=
  bool_decide (resolved_target (lit "alice@example.com:8443/secret")
               = Some (mkTarget (lit "alice") (lit "example.com") 8443 (lit "/secret"))).

(** The host, port and path of a target. *)
Definition is_at (t : option Target) (host : str) (port : Z) : bool :=
  asserts [bool_decide (t_host <$> t = Some host); bool_decide (t_port <$> t = Some port)].
Definition has_path (t : option Target) (path : str) : bool := bool_decide (t_path <$> t = Some path).
Definition has_user (t : option Target) (user : str) : bool := bool_decide (t_user <$> t = Some user).

Definition defaults_port_and_path : bool :=
  let t := resolved_target (lit "host") in asserts [is_at t (lit "host") 4433; has_path t DEFAULT_PATH].

Definition rejects_bad_port : bool := is_err (parse_target (lit "host:notaport")).

Definition parses_bracketed_ipv6 : bool :=
  let t := resolved_target (lit "alice@[2001:db8::1]:22/x") in
  asserts [has_user t (lit "alice"); is_at t (lit "2001:db8::1") 22; has_path t (lit "/x")].

Definition bracketed_ipv6_default_port : bool := is_at (resolved_target (lit "[::1]")) (lit "::1") 4433.

Definition bare_ipv6_defaults_port : bool := is_at (resolved_target (lit "::1")) (lit "::1") 4433.

Definition socket_target_brackets_ipv6_only : bool :=
  asserts [bool_decide (socket_target (lit "::1") 4433 = lit "[::1]:4433");
           bool_decide (socket_target (lit "example.com") 22 = lit "example.com:22");
           bool_decide (socket_target (lit "10.0.0.1") 22 = lit "10.0.0.1:22")].

(** ** Forward specs *)

(** [IpAddr::from_str] on the dotted quads of the tests. *)
Definition octet (s : str) : option Z :=
  n ← parse_uint 8 s; if bool_decide (show_uint n = s) then Some n else None.
Definition parse_ip (s : str) : option IpAddr :=
  match split_on 46 s with
  | [a; b; c; d] =>
      a ← octet a; b ← octet b; c ← octet c; d ← octet d;
      Some (V4 (a * 2 ^ 24 + b * 2 ^ 16 + c * 2 ^ 8 + d))
  | _ => None
  end.

Definition forward (s : string) : result SpecError ForwardSpec := parse_forward parse_ip (lit s).
Definition remote_forward (s : string) : result SpecError RemoteForwardSpec := parse_remote_forward parse_ip (lit s).

Definition to_postgres : option ForwardSpec := Some (mkForward LOCALHOST 8080 (lit "127.0.0.1") 5432).
Definition from_8080 : option RemoteForwardSpec := Some (mkRemoteForward LOCALHOST 8080 (lit "127.0.0.1") 5432).

Definition parse_forward_lport_rhost_rport : bool :=
  bool_decide (res_ok (forward "8080:127.0.0.1:5432") = to_postgres).

Definition parse_forward_bind_lport_rhost_rport : bool :=
  bool_decide (res_ok (forward "127.0.0.1:8080:127.0.0.1:5432") = to_postgres).

Definition parse_forward_rejects_non_loopback_bind : bool :=
  asserts [is_err (forward "0.0.0.0:8080:127.0.0.1:5432"); is_err (forward "192.168.1.10:8080:127.0.0.1:5432")].

Definition parse_forward_rejects_malformed : bool :=
  asserts (is_err ∘ forward <$> ["nonsense"; "8080:127.0.0.1"; "notaport:127.0.0.1:5432"; "8080:127.0.0.1:notaport";
                                 "a:8080:127.0.0.1:5432"]%string).

Definition parse_remote_forward_rport_lhost_lport : bool :=
  bool_decide (res_ok (remote_forward "8080:127.0.0.1:5432") = from_8080).

Definition parse_remote_forward_bind_rport_lhost_lport : bool :=
  bool_decide (res_ok (remote_forward "127.0.0.1:8080:127.0.0.1:5432") = from_8080).

Definition parse_remote_forward_rejects_non_loopback_bind : bool :=
  asserts [is_err (remote_forward "0.0.0.0:8080:127.0.0.1:5432"); is_err (remote_forward "192.168.1.10:8080:127.0.0.1:5432")].

Definition parse_remote_forward_rejects_malformed : bool :=
  asserts (is_err ∘ remote_forward <$> ["nonsense"; "8080:127.0.0.1"; "notaport:127.0.0.1:5432"; "8080:127.0.0.1:notaport";
                                        "a:8080:127.0.0.1:5432"]%string).

(** ** The configuration *)
Definition empty_block (host : str) : HostBlock := mkBlock host None None None None [] [].
Definition prod_block : HostBlock :=
  mkBlock (lit "prod.example.com") (Some 2222) (Some (lit "alice")) None None [] [].
Definition with_prod (defaults : option str) (b : HostBlock) : ClientConfig := mkConfig defaults {[lit "prod" := b]}.

Definition alias_hit_pulls_host_user_port_from_block : bool :=
  let t := r_target <$> resolve (lit "prod") (with_prod None prod_block) in
  asserts [has_user t (lit "alice"); is_at t (lit "prod.example.com") 2222].

Definition cli_beats_block_for_user_and_port : bool :=
  let t := r_target <$> resolve (lit "bob@prod:9000") (with_prod None prod_block) in
  asserts [has_user t (lit "bob"); is_at t (lit "prod.example.com") 9000].

Definition has_identity (r : option Resolved) (path : string) : bool :=
  bool_decide (r ≫= r_identity = Some (lit path)).

Definition alias_miss_applies_defaults_identity_only : bool :=
  let r := resolve (lit "literal.example.com") (mkConfig (Some (lit "~/id_default")) ∅) in
  asserts [is_at (r_target <$> r) (lit "literal.example.com") 4433; has_identity r "~/id_default"].

Definition HOME : option str := Some (lit "/home/me").

Definition identity_chain_flag_then_block_then_defaults : bool :=
  let block := mkBlock (lit "h") None None None (Some (lit "~/id_block")) [] [] in
  let r := resolve (lit "prod") (with_prod (Some (lit "~/id_default")) block) in
  let r2 := resolve (lit "prod") (with_prod (Some (lit "~/id_default")) (empty_block (lit "h"))) in
  let chosen := identity_chain HOME (Some (lit "/flag/id")) (r ≫= r_identity) in
  asserts [has_identity r "~/id_block"; has_identity r2 "~/id_default";
           bool_decide (res_ok chosen = Some (Some (lit "/flag/id")))].

(** The command line's forwards follow the block's. *)
Definition forwards_append_block_then_cli : bool :=
  let block := mkBlock (lit "h") None None None None [lit "5432:127.0.0.1:5432"] [] in
  let local := default [] (r_local_forward <$> resolve (lit "prod") (with_prod None block)) ++ [lit "8080:127.0.0.1:80"] in
  bool_decide (local = [lit "5432:127.0.0.1:5432"; lit "8080:127.0.0.1:80"]).

Definition expand_tilde_expands_home_and_passes_absolute : bool :=
  asserts [bool_decide (res_ok (expand_tilde HOME (lit "~/x")) = Some (default [] HOME ++ lit "/x"));
           bool_decide (res_ok (expand_tilde HOME (lit "/abs/x")) = Some (lit "/abs/x"))].

Definition load_missing_file_is_ok_default : bool :=
  match load_from (λ _, None) (λ _, None) (lit "/tmp/quish-cfg-does-not-exist-xyzzy.toml") with
  | Ok cfg => asserts [bool_decide (hosts cfg = ∅); is_none (defaults_identity cfg)]
  | Err _ => false
  end.

Definition suite : list bool :=
  [challenge_answer_echoes_token_and_orders_responses; challenge_answer_propagates_a_read_error;
   otpauth_uri_formats_exactly; parses_full_target; defaults_port_and_path; rejects_bad_port; parses_bracketed_ipv6;
   bracketed_ipv6_default_port; bare_ipv6_defaults_port; socket_target_brackets_ipv6_only;
   parse_forward_lport_rhost_rport; parse_forward_bind_lport_rhost_rport; parse_forward_rejects_non_loopback_bind;
   parse_forward_rejects_malformed; parse_remote_forward_rport_lhost_lport;
   parse_remote_forward_bind_rport_lhost_lport; parse_remote_forward_rejects_non_loopback_bind;
   parse_remote_forward_rejects_malformed; alias_hit_pulls_host_user_port_from_block;
   cli_beats_block_for_user_and_port; alias_miss_applies_defaults_identity_only;
   identity_chain_flag_then_block_then_defaults; forwards_append_block_then_cli;
   expand_tilde_expands_home_and_passes_absolute; load_missing_file_is_ok_default].

Example main_tests_pass : asserts suite = true.
Proof. vm_compute. reflexivity. Qed.
End MainTests.

(** ** [cp.rs] *)
Module CpTests.
Import Target Cp.

Definition spec_is (s : string) (want : CpSpec) : bool := bool_decide (res_ok (parse_cp_spec (lit s)) = Some want).

Definition parse_remote_no_user : bool := spec_is "host:/a" (Remote None (lit "host") (lit "/a")).
Definition parse_remote_with_user : bool := spec_is "alice@host:/a" (Remote (Some (lit "alice")) (lit "host") (lit "/a")).
Definition parse_remote_ipv6 : bool := spec_is "[::1]:/a" (Remote None (lit "::1") (lit "/a")).
Definition parse_remote_empty_path : bool := spec_is "host:" (Remote None (lit "host") []).
Definition parse_local_slash_before_colon : bool := spec_is "./x:y" (Local (lit "./x:y")).
Definition parse_local_absolute_with_colon : bool := spec_is "/a:b" (Local (lit "/a:b")).
Definition parse_local_plain : bool := spec_is "plain" (Local (lit "plain")).
Definition parse_empty_host_errors : bool := is_err (parse_cp_spec (lit ":/a")).
Definition parse_bracket_without_colon_errors : bool := is_err (parse_cp_spec (lit "[::1]/a")).

(** The destination of the test's remote file. *)
Definition local_dst_is (dst : string) (dst_is_dir : bool) (want : string) : bool :=
  bool_decide (res_ok (resolve_local_dst (lit dst) dst_is_dir (lit "/x/y.txt")) = Some (path_of (lit want))).

Definition resolve_local_into_existing_dir : bool := local_dst_is "dir" true "dir/y.txt".
Definition resolve_local_trailing_slash_appends_basename : bool := local_dst_is "dir/" false "dir/y.txt".
Definition resolve_local_plain_file_is_itself : bool := local_dst_is "out.txt" false "out.txt".
Definition resolve_local_remote_trailing_slash_errors : bool := is_err (resolve_local_dst (lit "dir") true (lit "/x/")).

Definition remote_dst_is (dst want : string) : bool := bool_decide (resolve_remote_dst (lit dst) (lit "f") = lit want).

Definition resolve_remote_trailing_slash : bool := remote_dst_is "docs/" "docs/f".
Definition resolve_remote_empty_is_basename : bool := remote_dst_is "" "f".
Definition resolve_remote_dot : bool := remote_dst_is "." "./f".
Definition resolve_remote_exact : bool := remote_dst_is "exact" "exact".

(** ** The target of a copy *)
Definition cp_args (port : option Z) (connect_path : option str) : CpArgs :=
  mkCpArgs (lit "x") (lit "y") None port connect_path.

Definition block_with_path (host path : string) : HostBlock :=
  mkBlock (lit host) None None (Some (lit path)) None [] [].

Definition boxed : ClientConfig :=
  mkConfig None {[lit "box" := block_with_path "host.example.com" "/custom"]}.

Definition cp_target (host : string) (args : CpArgs) (cfg : ClientConfig) : option Target :=
  fst <$> res_ok (resolve_cp_target None None None (lit host) args cfg).

Definition cp_uses_block_path_when_flag_absent : bool :=
  let target := cp_target "box" (cp_args None None) boxed in
  asserts [bool_decide (t_host <$> target = Some (lit "host.example.com"));
           bool_decide (t_path <$> target = Some (lit "/custom"))].

Definition cp_flag_beats_block_path : bool :=
  let target := cp_target "box" (cp_args None (Some (lit "/flag"))) boxed in
  bool_decide (t_path <$> target = Some (lit "/flag")).

Definition cp_defaults_to_quish_path : bool :=
  let target := cp_target "literal.example.com" (cp_args None None) ClientConfig_default in
  bool_decide (t_path <$> target = Some DEFAULT_PATH).

Definition suite : list bool :=
  [parse_remote_no_user; parse_remote_with_user; parse_remote_ipv6; parse_remote_empty_path;
   parse_local_slash_before_colon; parse_local_absolute_with_colon; parse_local_plain; parse_empty_host_errors;
   parse_bracket_without_colon_errors; resolve_local_into_existing_dir; resolve_local_trailing_slash_appends_basename;
   resolve_local_plain_file_is_itself; resolve_local_remote_trailing_slash_errors; resolve_remote_trailing_slash;
   resolve_remote_empty_is_basename; resolve_remote_dot; resolve_remote_exact; cp_uses_block_path_when_flag_absent;
   cp_flag_beats_block_path; cp_defaults_to_quish_path].

Example cp_tests_pass : asserts suite = true.
Proof. vm_compute. reflexivity. Qed.
End CpTests.

(** ** [connect.rs] *)
Module ConnectTests.
Import KnownHosts.

(** A disk that takes every write, where the file is not there yet. *)
Definition io : Io := mkIo true true true None true.
Definition absent : Disk := mkDisk None None.

Definition pin_then_lookup_roundtrips : bool :=
  match pin io absent (lit "h:1") (lit "deadbeef") with
  | (Ok _, d) =>
      asserts [is_none (lookup io absent (lit "h:1"));
               bool_decide (lookup io d (lit "h:1") = Some (lit "deadbeef"));
               is_none (lookup io d (lit "other:1"))]
  | (Err _, _) => false
  end.

(** A text of lines, each ended. *)
Definition text (ls : list string) : str := ls ≫= (λ l, lit l ++ [10]).

Definition removes (contents : list string) (host : string) (removed : nat) (body : list string) : bool :=
  bool_decide (remove_host_lines (text contents) (lit host) = (text body, removed)).

Local Open Scope string_scope.

Definition remove_existing_host_drops_it : bool :=
  removes ["a:1 aa"; "b:2 bb"; "c:3 cc"] "b:2" 1 ["a:1 aa"; "c:3 cc"].

Definition remove_host_with_two_pins_removes_both : bool :=
  removes ["a:1 aa"; "b:2 bb"; "a:1 dd"] "a:1" 2 ["b:2 bb"].

Definition remove_absent_host_is_noop : bool := removes ["a:1 aa"; "b:2 bb"] "z:9" 0 ["a:1 aa"; "b:2 bb"].

Definition remove_preserves_blank_and_garbage_lines : bool :=
  removes ["a:1 aa"; ""; "garbage-no-space"; "b:2 bb"] "b:2" 1 ["a:1 aa"; ""; "garbage-no-space"].

Definition remove_matches_exact_host_only : bool :=
  removes ["1.2.3.4:443 aa"; "1.2.3.4:4433 bb"] "1.2.3.4:443" 1 ["1.2.3.4:4433 bb"].

Local Close Scope string_scope.

(** The verdict, and what was printed, for an input of these lines. *)
Definition run_decide (input : list string) : option (bool * str) :=
  decide (utf8 (text input)) (lit "host:443") (lit "aa:bb:cc").

Definition accepted (r : option (bool * str)) : bool := bool_decide (fst <$> r = Some true).
Definition refused (r : option (bool * str)) : bool := bool_decide (fst <$> r = Some false).

(** [out.contains(s)]. *)
Fixpoint is_within (s out : str) : bool :=
  match strip_prefix s out, out with
  | Some _, _ => true
  | None, _ :: out => is_within s out
  | None, [] => false
  end.
Definition shows (r : option (bool * str)) (s : string) : bool := is_within (lit s) (default [] (snd <$> r)).

Definition accepts_on_yes_or_y : bool := asserts [accepted (run_decide ["yes"%string]); accepted (run_decide ["y"%string])].

Definition aborts_on_no_or_n : bool := asserts [refused (run_decide ["no"%string]); refused (run_decide ["n"%string])].

Definition accepts_after_trimming_and_lowercasing : bool := accepted (run_decide ["  YES "%string]).

Definition fingerprint_command_shows_fp_then_re_prompts_and_accepts : bool :=
  let r := run_decide ["fingerprint"; "yes"]%string in asserts [accepted r; shows r "aa:bb:cc"].

Definition fingerprint_aliases_show_fp : bool :=
  asserts ((λ alias, let r := run_decide [alias; "no"%string] in refused r && shows r "aa:bb:cc") <$> ["f"; "fp"]%string).

Definition invalid_answer_re_prompts_without_accepting : bool :=
  let r := run_decide ["maybe"; "no"]%string in asserts [refused r; shows r "Please type"].

Definition eof_aborts_without_accepting : bool := refused (run_decide []).

Definition suite : list bool :=
  [pin_then_lookup_roundtrips; remove_existing_host_drops_it; remove_host_with_two_pins_removes_both;
   remove_absent_host_is_noop; remove_preserves_blank_and_garbage_lines; remove_matches_exact_host_only;
   accepts_on_yes_or_y; aborts_on_no_or_n; accepts_after_trimming_and_lowercasing;
   fingerprint_command_shows_fp_then_re_prompts_and_accepts; fingerprint_aliases_show_fp;
   invalid_answer_re_prompts_without_accepting; eof_aborts_without_accepting].

Example connect_tests_pass : asserts suite = true.
Proof. vm_compute. reflexivity. Qed.
End ConnectTests.
